(* ===== verification/_CoqProject ===== *)
-Q . S2P
Prelude.v
External.v
Text.v
Types.v
Validators.v
Protocol.v
Wire.v
RoundState.v
Store.v
Ledger.v
Backend.v
Core.v
CoreProps.v
CoreSafety.v
CoreLive.v
Liveness.v
Rounds.v
Heights.v
Cluster.v
Engine.v
P2p.v
Middle.v
Net.v
Dial.v
Events.v
Minner.v
Kad.v
KadService.v
KadServer.v
KadCodec.v
TxPool.v
Dpos.v
Api.v
Node.v
Concrete.v
Scenarios.v
ScenariosLive.v
Fork.v
ScenariosNet.v
