(* ===== verification/Prelude.v ===== *)
(** * A verification library for [consensus-rs]

    [consensus-rs] is a permissioned blockchain node in Rust: a PBFT core
    agrees on one block per height, a backend verifies and stores it, a
    ledger keeps the chain in a key-value database, a miner proposes blocks
    and a peer-to-peer layer carries the messages.  This library translates
    these parts into executable definitions and proves what makes them
    correct.  Source paths below are relative to [src/src/].

    ** How the program is translated

    - A method with [&mut self] is a state-passing function of the monad [M]
      (below): it returns its value and the state it leaves, or panics.  The
      panics are those of the source: [unwrap], [assert!], an index out of
      range, and the overflow checks of the debug profile, with which the
      repository's scripts build ([debug_assert!] counts too).  An [Err] of
      the source is a value of [result].
    - [u64] and [u32] values are integers of [Z] with their bounds; an
      addition that may overflow is [u64_add] or [u32_add].  [f32] arithmetic
      is that of the IEEE 754 format with precision 24.
    - A [HashMap] is a [gmap]; its iteration order is an argument.
    - Code outside the repository (cryptography, serialisation, the database,
      LRU caches, priority queues, date parsing, random numbers, JSON) is a
      class of operations in [External], [Wire] or the file that uses it, an
      argument of the definitions; what the sources rely on is a class of
      laws.  [Concrete] and [ScenariosNet] have an instance of every one.
    - Actors: a handler runs to its end before the next message, so a run is
      a sequence of events; what a handler sends (gossip, commits, timers,
      chain events) is appended to a list in its state.  Random draws and
      clock readings are arguments or fields.
    - Logging and formatting are left out.

    ** Files

    - [Prelude]: panics and results, the monad [M] and its weakest
      preconditions [wp] with their tactics, machine integers, lists.
    - [External]: the interfaces to the libraries; [Wire]: the encodings of
      the program's types; [Text]: numbers written and read in radix 10 and
      16, as the standard library does.
    - [Types]: [types/], [consensus/types.rs], [consensus/error.rs],
      [error/mod.rs]; votes, transactions, blocks, views, subjects.
    - [Validators]: [consensus/validator.rs].  The trait is a class, with
      [ImplValidatorSet] as its instance.
    - [Protocol]: [protocol/mod.rs], signed messages and the tables that
      count them, generic in the validator-set class.
    - [RoundState]: [pbft/core/round_state.rs], [round_change_set.rs].
    - [Store]: [store/], the indices over the database.
    - [Ledger]: [core/ledger.rs], [core/chain.rs], [core/genesis.rs] and
      [config/mod.rs].  [ledger_rep l bs] says that a ledger stores the list
      of blocks [bs].
    - [Backend]: [consensus/backend.rs].  The trait is the class [Backend],
      whose laws are what the core is proved against; [ImplBackend] is its
      instance.
    - [Core]: [pbft/core/core.rs] and the handlers [preprepare.rs],
      [prepare.rs], [commit.rs], [round_change.rs], [request.rs], the timers
      and the backlog actor.  [CoreProps] has the invariant [core_inv] and
      one preservation lemma per handler; [CoreSafety] and [CoreLive] have
      the theorems.
    - [Liveness]: a set of cores that go through the phases of a round, over
      any backend with the interface [serves]; [Rounds]: the timers and votes
      by which they leave a round without a proposal; [Heights]: [ImplBackend]
      implements the interface, and one height follows the other.
    - [Cluster]: several cores side by side, with a network that delays,
      reorders, repeats and drops; [Fork] drives four of them.
    - [Engine]: [consensus/consensus.rs], the engine's and the core's clone
      of the backend in any interleaving.
    - [P2p]: [p2p/protocol.rs] and the framing of [p2p/codec.rs].
    - [Middle]: the closure [handle_msg_middle] that dispatches network
      messages, in [pbft/core/core.rs], and the exchanges of two nodes of
      which one is behind.
    - [Net]: the server and the sessions of [p2p/server.rs] and
      [p2p/session.rs]; [Dial]: [multiaddr_to_ipv4] of [common/mod.rs] and
      [TcpDial], from a multiaddress to the socket address that is dialled.
    - [Events]: [subscriber/] and [p2p/discover_service.rs], the actors that
      pass events on, and events followed from the chain and from discovery
      through the server.
    - [Minner]: [minner/mod.rs].
    - [Kad]: [p2p/p2p/src/kad/base.rs] and [knodetable.rs]; [KadService]:
      [kad/service.rs], written over the class of the trait
      [GenericNodeTable] and verified over the table of [Kad]; [KadServer]:
      the codecs, server, session and client of [p2p/p2p/src/]; [KadCodec]:
      the text of ids and nodes in [kad/base.rs].
    - [TxPool]: [core/tx_pool.rs] and [core/transaction_pool.rs].
    - [Dpos]: [consensus/dpos/].
    - [Api]: [api/mod.rs], the HTTP service on the chain.
    - [Node]: [cmd/mod.rs], the start of a node from the parts above.
    - [Concrete], [Scenarios], [ScenariosLive] and [ScenariosNet]: instances of
      all interfaces, and every theorem with hypotheses applied at a concrete input, on runs
      of a node among four validators.

    ** What the theorems show

    - Safety of one validator ([CoreSafety]): in any run at a height, with
      any messages, timers and chain changes, it votes to commit one block
      only, all blocks it decides are that block, a decision carries the
      signatures of a quorum, rounds and locks only move forward and a round
      changes only on a quorum.  [Validators.quorum_intersection] is the
      counting argument that joins the votes of several validators.
    - Agreement ([Cluster]): correct validators, with fewer than a third
      faulty, never decide two blocks of one height as long as the commit
      votes they count are for the block they have accepted.  The code tests
      that condition and only logs it: [Fork.fork_without_faults] is a run
      without faulty validators in which two blocks are decided.
    - Progress ([Liveness], [Rounds], [Heights]): correct validators that are
      more than two thirds and receive each other's proposal, prepare votes
      and commit votes, in any order within a phase, repeated and mixed with
      votes of faulty ones, all decide the proposer's block, if need be after
      rounds in which no proposal arrives, and append it to their chains,
      height after height; none of them panics.
    - Every reachable state satisfies [core_inv].
    - Handlers ([CoreSafety], [CoreLive]): what each does on its branches,
      that they return, that a timer leads to a new vote and a new timer, and
      where a panic is reachable.
    - Storage ([Store], [Ledger], [Api]): lists and maps over the key-value
      store (all operations but the iterators of the list), the chain as a
      list of blocks and the blocks whose insertion panics, lookups, restarts,
      disjoint keys, and what the HTTP service shows of it.
    - Proposals ([Backend], [Minner]): [verify] accepts exactly the
      extensions of the local chain and panics exactly on the proposals of
      [verify_panics], an accepted proposal that is committed extends and
      links the chain or is of an occupied height and changes nothing, a
      minted block is accepted; the sealing task and the core work on
      different clones and share the chain only ([Engine]).
    - Composition ([Node], [Events]): what a started node consists of, how a
      new block reaches the peers' chains and a discovered peer the dial.
    - Network ([Protocol], [P2p], [Net], [Dial], [Middle]): authentication of
      messages, framing of streams, handshakes and the peer table, delivery
      of addressed messages, which addresses are dialled and which make the
      dial panic, and that a node catches up completely by sync requests.
    - Data ([Types], [Validators], [RoundState]): orders, hashes,
      signatures, vote counting, proposer rotation.
    - Kademlia ([Kad], [KadService], [KadServer], [KadCodec]): the node table,
      what the service answers and forgets, which requests a server survives,
      framing, and the texts of ids, with their bounds, and of nodes with IPv4
      addresses (the text of an IPv6 address is a parameter).
    - Pool and slots ([TxPool], [Dpos]): the pool as a map, the schedule of
      delegates.

    ** Bounds and fuel

    - [quorum_bound = 4096] validators: the [f32] computation of two thirds
      is compared with [2n/3] for each size up to it;
      [two_thirds_majority_inexact] shows that it fails for some large size.
    - [sync_fuel = 102]: the loop that answers a sync request leaves after
      102 turns ([total > 100]); the fuel is exactly that, and one exchange
      brings at most 102 blocks.
    - [Text.radix_digits] has the number of digits as fuel: 16 hexadecimal
      ones for 64 bits, 3 and 5 decimal ones for a byte and a port.
    - [MsgPacketCodec.drain] has one unit of fuel more than the buffer has
      bytes, and a frame has at least four.
    - [Dpos.round_bound = 4096]: the [f64] computation of the round is compared
      with integer division for each height up to it.
    - [Dpos.utf8_chars] has the number of bytes as fuel; every character takes
      at least one.
    - [ListIndex.truncate] has the length of the list as fuel; the other loops
      recurse on their data.

    ** What is not modelled

    Sockets, actor mailboxes and thread scheduling beyond the order of
    events; profiling, logging, formatting for output, the banner and the
    signal handler, which are input and output; mocks and the timer helper of
    the tests; traits and records that nothing uses ([consensus/engine.rs],
    [store/types.rs], [p2p/node.rs], [p2p/config.rs], [p2p/p2p/src/peer.rs]).
    What is left of the sources besides is declarations, accessors and
    tests. *)

From stdpp Require Export base gmap list strings fin_maps sorting.
From Stdlib Require Export ZArith Lia.

Open Scope Z_scope.

(** ** Failure: values of [Result], and panics

    A Rust [Result] is a value the caller inspects; a panic ([unwrap] on
    [None], a failed [assert!], an index out of range, an overflowing
    addition of the debug profile [build.sh] builds with) ends the handler
    and yields no value at all. *)

Inductive result (T E : Type) : Type :=
| Ok (t : T)
| Err (e : E).
Arguments Ok {T E} t.
Arguments Err {T E} e.

Inductive outcome (A : Type) : Type :=
| Ret (a : A)
| Panic.
Arguments Ret {A} a.
Arguments Panic {A}.

Definition outcome_bind {A B : Type} (k : A → outcome B) (o : outcome A) : outcome B :=
  match o with Ret a => k a | Panic => Panic end.

#[global] Instance outcome_mret : MRet outcome := λ A a, Ret a.
#[global] Instance outcome_mbind : MBind outcome := λ A B k o, outcome_bind k o.

(** ** The handler monad

    A method that takes [&mut self] is a function from the state to an
    outcome that carries its return value and the state it leaves. *)

Definition M (S A : Type) : Type := S → outcome (A * S).

Definition M_bind {S A B : Type} (k : A → M S B) (m : M S A) : M S B :=
  λ s, match m s with Ret (a, s') => k a s' | Panic => Panic end.

#[global] Instance M_mret S : MRet (M S) := λ A a s, Ret (a, s).
#[global] Instance M_mbind S : MBind (M S) := λ A B k m, M_bind k m.

(** The [?] operator: an [Err] is returned at once, and the state reached so
    far is kept. *)
Definition try_bind {S A B E : Type} (m : M S (result A E)) (k : A → M S (result B E)) :
    M S (result B E) :=
  M_bind (λ r, match r with Ok a => k a | Err e => mret (Err e) end) m.

Declare Scope rust_scope.
Delimit Scope rust_scope with rust.
Notation "x ←? m ; k" := (try_bind m (λ x, k))
  (at level 100, m at next level, k at level 200, right associativity) : rust_scope.
Open Scope rust_scope.

Definition gets {S A : Type} (f : S → A) : M S A := λ s, Ret (f s, s).
Definition modify {S : Type} (f : S → S) : M S unit := λ s, Ret (tt, f s).
Definition panic {S A : Type} : M S A := λ _, Panic.
Definition lift {S A : Type} (o : outcome A) : M S A :=
  λ s, match o with Ret a => Ret (a, s) | Panic => Panic end.

(** [Option::unwrap] and [assert!]. *)
Definition unwrap {A : Type} (o : option A) : outcome A :=
  match o with Some a => Ret a | None => Panic end.
Definition rassert {S : Type} (b : bool) : M S unit :=
  λ s, if b then Ret (tt, s) else Panic.
Definition when {S : Type} (b : bool) (m : M S unit) : M S unit :=
  if b then m else mret tt.

(** [Option::ok_or] and [Result::is_ok]. *)
Definition ok_or {A E : Type} (o : option A) (e : E) : result A E :=
  match o with Some a => Ok a | None => Err e end.
Definition is_ok {A E : Type} (r : result A E) : bool :=
  match r with Ok _ => true | Err _ => false end.

(** ** Machine integers: unsigned 64-bit with the debug profile's checks *)

Definition u64_bound : Z := 2 ^ 64.
Definition is_u64 (x : Z) : Prop := 0 ≤ x < u64_bound.
Definition u64_add (x y : Z) : outcome Z :=
  if x + y <? u64_bound then Ret (x + y) else Panic.
Definition u64_sub (x y : Z) : outcome Z :=
  if y <=? x then Ret (x - y) else Panic.
Definition u64_mul (x y : Z) : outcome Z :=
  if x * y <? u64_bound then Ret (x * y) else Panic.
(** [x as i64]: reinterpretation in two's complement. *)
Definition as_i64 (x : Z) : Z :=
  let y := x mod u64_bound in if y <? 2 ^ 63 then y else y - u64_bound.

(** ** Weakest preconditions

    [wp P m Q s]: run [m] in [s]; if it returns, [Q] holds of the value and
    the state, and if it panics, [P] holds.  [P := True] is partial
    correctness and [P := False] says that the handler does not panic. *)

Definition wp {S A : Type} (P : Prop) (m : M S A) (Q : A → S → Prop) (s : S) : Prop :=
  match m s with Ret (a, s') => Q a s' | Panic => P end.

Section wp_rules.
Context {S : Type} (P : Prop).

Lemma wp_ret {A} (a : A) (Q : A → S → Prop) s : Q a s → wp P (mret a) Q s.
Proof. done. Qed.

Lemma wp_bind {A B} (m : M S A) (k : A → M S B) (Q : B → S → Prop) s :
  wp P m (λ a s', wp P (k a) Q s') s → wp P (m ≫= k) Q s.
Proof. unfold wp, mbind, M_mbind, M_bind. destruct (m s) as [[a s']|]; done. Qed.

Lemma wp_mono {A} (m : M S A) (Q Q' : A → S → Prop) s :
  wp P m Q s → (∀ a s', Q a s' → Q' a s') → wp P m Q' s.
Proof. unfold wp. destruct (m s) as [[a s']|]; auto. Qed.

Lemma wp_try {A B E} (m : M S (result A E)) (k : A → M S (result B E))
    (Q : result B E → S → Prop) s :
  wp P m (λ r s', match r with Ok a => wp P (k a) Q s' | Err e => Q (Err e) s' end) s →
  wp P (try_bind m k) Q s.
Proof. unfold wp, try_bind, M_bind. destruct (m s) as [[[a|e] s']|]; done. Qed.

Lemma wp_gets {A} (f : S → A) (Q : A → S → Prop) s : Q (f s) s → wp P (gets f) Q s.
Proof. done. Qed.

Lemma wp_modify (f : S → S) (Q : unit → S → Prop) s : Q tt (f s) → wp P (modify f) Q s.
Proof. done. Qed.

Lemma wp_when (b : bool) (m : M S unit) (Q : unit → S → Prop) s :
  (b = true → wp P m Q s) → (b = false → Q tt s) → wp P (when b m) Q s.
Proof. intros H1 H2. destruct b; simpl; [auto|apply wp_ret; auto]. Qed.

Lemma wp_lift {A} (o : outcome A) (Q : A → S → Prop) s :
  (∀ a, o = Ret a → Q a s) → (o = Panic → P) → wp P (lift o) Q s.
Proof. unfold wp, lift. destruct o; auto. Qed.

Lemma wp_rassert (b : bool) (Q : unit → S → Prop) s :
  (b = true → Q tt s) → (b = false → P) → wp P (rassert b) Q s.
Proof. unfold wp, rassert. destruct b; auto. Qed.

Lemma wp_panic {A} (Q : A → S → Prop) s : P → wp P panic Q s.
Proof. done. Qed.
End wp_rules.

(** A handler that returns in a state satisfies what its [wp] says. *)
Lemma wp_elim {S A : Type} (P : Prop) (m : M S A) (Q : A → S → Prop) s a s' :
  wp P m Q s → m s = Ret (a, s') → Q a s'.
Proof. intros H E. unfold wp in H. by rewrite E in H. Qed.

Lemma wp_weaken {S A : Type} (P P' : Prop) (m : M S A) (Q : A → S → Prop) s :
  (P → P') → wp P m Q s → wp P' m Q s.
Proof. unfold wp. destruct (m s) as [[a s']|]; auto. Qed.

Lemma wp_total {S A : Type} (m : M S A) (Q : A → S → Prop) s :
  wp False m Q s → ∃ a s', m s = Ret (a, s') ∧ Q a s'.
Proof. unfold wp. destruct (m s) as [[a s']|]; naive_solver. Qed.

Lemma wp_conj {S A : Type} (P : Prop) (m : M S A) (Q Q' : A → S → Prop) s :
  wp True m Q s → wp P m Q' s → wp P m (λ a s', Q a s' ∧ Q' a s') s.
Proof. unfold wp. destruct (m s) as [[a s']|]; auto. Qed.

Lemma wp_no_panic {S A : Type} (m : M S A) (Q Q' : A → S → Prop) s :
  wp True m Q s → wp False m Q' s → wp False m Q s.
Proof. unfold wp. destruct (m s) as [[a s']|]; done. Qed.

Lemma wp_never {S A : Type} (P : Prop) (m : M S A) (Q : A → S → Prop) s : wp False m Q s → wp P m Q s.
Proof. unfold wp. by destruct (m s) as [[a s']|]. Qed.

(** [wp_step] takes one step of a handler's text. *)
Ltac wp_step :=
  lazymatch goal with
  | |- wp _ (mret _) _ _ => apply wp_ret
  | |- wp _ (_ ≫= _) _ _ => apply wp_bind
  | |- wp _ (try_bind _ _) _ _ => apply wp_try
  | |- wp _ (gets _) _ _ => apply wp_gets
  | |- wp _ (modify _) _ _ => apply wp_modify
  | |- wp _ (when _ _) _ _ => apply wp_when; intros ?
  | |- wp _ (lift _) _ _ => apply wp_lift; [intros ? ?|intros ?]
  | |- wp _ (rassert _) _ _ => apply wp_rassert; intros ?
  | |- wp _ panic _ _ => apply wp_panic
  | |- wp _ (if ?b then _ else _) _ _ => destruct b eqn:?
  | |- wp _ (match ?x with _ => _ end) _ _ => destruct x eqn:?
  end.
Ltac wp_steps := repeat (wp_step; cbn beta iota).

(** ** Stable sorting by a key ([slice::sort_by_key]) *)

Section sort_by_key.
Context {A K : Type} (key : A → K) (leb : K → K → bool).

Fixpoint insert_by_key (x : A) (l : list A) : list A :=
  match l with
  | [] => [x]
  | y :: l' => if leb (key x) (key y) then x :: y :: l' else y :: insert_by_key x l'
  end.

Fixpoint sort_by_key (l : list A) : list A :=
  match l with
  | [] => []
  | x :: l' => insert_by_key x (sort_by_key l')
  end.

Lemma insert_by_key_perm x l : insert_by_key x l ≡ₚ x :: l.
Proof.
  induction l as [|y l IH]; simpl; [done|].
  destruct (leb _ _); [done|]. rewrite IH. apply Permutation_swap.
Qed.

Lemma sort_by_key_perm l : sort_by_key l ≡ₚ l.
Proof. induction l as [|x l IH]; simpl; [done|]. by rewrite insert_by_key_perm, IH. Qed.

Lemma sort_by_key_length l : length (sort_by_key l) = length l.
Proof. by rewrite sort_by_key_perm. Qed.

Context (leb_total : ∀ x y, leb x y = true ∨ leb y x = true).
Context (leb_trans : ∀ x y z, leb x y = true → leb y z = true → leb x z = true).

Abbreviation le_key := (λ x y, leb (key x) (key y) = true).

Lemma insert_by_key_sorted x l :
  StronglySorted le_key l → StronglySorted le_key (insert_by_key x l).
Proof using leb_total leb_trans.
  induction 1 as [|y l Hl IH Hy]; simpl; [repeat constructor|].
  destruct (leb (key x) (key y)) eqn:E.
  - repeat (constructor; try done). eapply Forall_impl; [done|]. simpl; eauto.
  - constructor; [done|]. rewrite insert_by_key_perm. constructor; [|done].
    destruct (leb_total (key x) (key y)); congruence.
Qed.

Lemma sort_by_key_sorted l : StronglySorted le_key (sort_by_key l).
Proof using leb_total leb_trans.
  induction l; simpl; [constructor|]. by apply insert_by_key_sorted.
Qed.
End sort_by_key.

(** [Vec::remove_item]: drop the first element equal to [x]; [None] when
    there is none. *)
Fixpoint remove_item {A : Type} `{EqDecision A} (x : A) (l : list A) : option (list A) :=
  match l with
  | [] => None
  | y :: l' => if decide (y = x) then Some l' else (y ::.) <$> remove_item x l'
  end.

Lemma remove_item_spec {A} `{EqDecision A} (x : A) (l : list A) :
  match remove_item x l with
  | Some l' => l ≡ₚ x :: l'
  | None => x ∉ l
  end.
Proof.
  induction l as [|y l IH]; simpl; [set_solver|].
  case_decide as E; [by subst|].
  destruct (remove_item x l) as [l'|]; simpl; [|set_solver].
  rewrite IH. apply Permutation_swap.
Qed.

(** ** Shared facts on lists, maps and sets *)

Lemma set_size_le_length {A} `{Countable A} (s : gset A) (l : list A) :
  (∀ x, x ∈ s → x ∈ l) → (size s ≤ length l)%nat.
Proof.
  intros Hsub. apply submseteq_length, NoDup_submseteq; [apply NoDup_elements|].
  intros x. rewrite elem_of_elements. auto.
Qed.

Lemma filter_all {A} (P : A → Prop) `{∀ x, Decision (P x)} (l : list A) :
  Forall P l → filter P l = l.
Proof. induction 1 as [|x l Hx _ IH]; [done|]. rewrite filter_cons, decide_True by done. by rewrite IH. Qed.

(** Two subsets of a set overlap in at least the excess of their sizes. *)
Lemma size_intersection_ge {A} `{Countable A} (X Y U : gset A) :
  X ⊆ U → Y ⊆ U → (size X + size Y ≤ size U + size (X ∩ Y))%nat.
Proof.
  intros HX HY.
  assert (size (X ∪ Y) ≤ size U)%nat by (apply subseteq_size; set_solver).
  rewrite size_union_alt in *.
  assert (size Y = size (Y ∖ X) + size (X ∩ Y))%nat; [|lia].
  rewrite <-size_union by set_solver. f_equal.
  apply set_eq. intros x. destruct (decide (x ∈ X)); set_solver.
Qed.

Lemma u64_add_Ret x y z : u64_add x y = Ret z → z = x + y ∧ x + y < u64_bound.
Proof. unfold u64_add. destruct (Z.ltb_spec (x + y) u64_bound); naive_solver. Qed.

Lemma u64_add_fits x y : x + y < u64_bound → u64_add x y = Ret (x + y).
Proof. unfold u64_add. by destruct (Z.ltb_spec (x + y) u64_bound); [|lia]. Qed.

Lemma u64_sub_Ret x y z : u64_sub x y = Ret z → z = x - y ∧ y ≤ x.
Proof. unfold u64_sub. destruct (Z.leb_spec y x); naive_solver. Qed.

Lemma as_i64_small x : 0 ≤ x < 2 ^ 63 → as_i64 x = x.
Proof.
  intros Hx. unfold as_i64, u64_bound. rewrite Z.mod_small by lia.
  by destruct (Z.ltb_spec x (2 ^ 63)); [|lia].
Qed.

Lemma unwrap_Ret {A} (o : option A) a : unwrap o = Ret a → o = Some a.
Proof. destruct o; naive_solver. Qed.

Lemma unwrap_Panic {A} (o : option A) : unwrap o = Panic → o = None.
Proof. destruct o; naive_solver. Qed.

(** Destructing the results the shared operations return. *)
Ltac outcome_inv :=
  repeat match goal with
  | H : u64_add _ _ = Ret _ |- _ => apply u64_add_Ret in H as [-> ?]
  | H : u64_sub _ _ = Ret _ |- _ => apply u64_sub_Ret in H as [-> ?]
  | H : unwrap _ = Ret _ |- _ => apply unwrap_Ret in H
  | H : unwrap _ = Panic |- _ => apply unwrap_Panic in H
  | H : Ret _ = Ret _ |- _ => injection H as H; subst
  | H : Ret _ = Panic |- _ => discriminate H
  | H : Panic = Ret _ |- _ => discriminate H
  end.

Create HintDb rust discriminated.
#[export] Hint Resolve wp_ret wp_gets wp_modify : rust.
#[export] Hint Resolve insert_by_key_perm sort_by_key_perm : rust.
