(* ===== verification/External.v ===== *)
(** * Interfaces to code outside the repository

    The sources call libraries whose text is not in the repository:
    [cryptocurrency_kit] (hashes, signatures, the [StorageValue] and
    [CryptoHash] traits), [kvdb_rocksdb] (the database), [lru_time_cache],
    [priority_queue], [libp2p] (peer identities) and the Merkle tree of [cryptocurrency_kit].  Each is a
    class of operations, an argument of every definition that calls it; what
    the sources rely on is a second class of laws.  The iteration order of a
    [HashMap], which the standard library leaves unspecified, is an argument
    too.  File [Concrete] gives instances of all of them. *)

From S2P Require Import Prelude.

(** Byte arrays of fixed size: [Hash] is [[u8; 32]], [Signature]
    [[u8; 65]], [Secret] [[u8; 32]] and [Public] [[u8; 64]]; [Address] is an
    [H160], whose order is that of the big-endian number it spells. *)
Abbreviation bytes := (list Z).
Abbreviation Hash := (list Z).
Abbreviation Signature := (list Z).
Abbreviation Secret := (list Z).
Abbreviation Public := (list Z).
Abbreviation Address := Z.

Definition HASH_SIZE : nat := 32.
(** [Hash::zero()] and [EMPTY_HASH]. *)
Definition EMPTY_HASH : Hash := replicate HASH_SIZE 0.

(** ** Cryptography *)

Class CryptoKit : Type := {
  (** [crypto::hash] *)
  hash : bytes → Hash;
  (** [Hash::sign]; [None] is the error *)
  hash_sign : Hash → Secret → option Signature;
  sign_bytes : Secret → bytes → option Signature;
  (** [ethkey::sign] of a 32-byte message *)
  ethkey_sign : Secret → bytes → option Signature;
  (** [Signature::from_slice]; [None] is its panic *)
  signature_from_slice : bytes → option Signature;
  recover_bytes : Signature → bytes → option Public;
  public_to_address : Public → Address;
  (** [verify_address] returns [Result<bool, Error>] *)
  verify_address : Address → Signature → bytes → option bool;
  (** the address of the key pair of a secret: [KeyPair::address] *)
  secret_address : Secret → Address;
  (** [MerkleTree::new_merkle_tree(v).root.unwrap()], then
      [Hash::from_slice(&root.data).unwrap()] *)
  merkle_root : list bytes → option Hash
}.

Class CryptoKitLaws `{CryptoKit} : Prop := {
  hash_length : ∀ b, length (hash b) = HASH_SIZE;
  (** signing the hash of [b] and recovering from [b] gives the signer *)
  recover_signed : ∀ b sk sg,
    hash_sign (hash b) sk = Some sg →
    ∃ pk, recover_bytes sg b = Some pk ∧ public_to_address pk = secret_address sk;
  recover_sign_bytes : ∀ b sk sg,
    sign_bytes sk b = Some sg →
    ∃ pk, recover_bytes sg b = Some pk ∧ public_to_address pk = secret_address sk
}.

(** ** Wide integers of [bigint]: [U128::from([u8; 16])] and [U256::from_str] *)

Class BigInt : Type := {
  u128_from : bytes → Z;
  (** the number a hexadecimal string spells; [None] is the parse error *)
  u256_from_str : string → option Z
}.
Class BigIntLaws `{BigInt} : Prop := {
  u128_from_range : ∀ b, 0 ≤ u128_from b < 2 ^ 128
}.

(** [ethereum_types::U256::from(&[u8])]: the number the bytes spell, the
    first one the most significant. *)
Class U256 : Type := u256_from_bytes : bytes → Z.
Class U256Laws `{U256} : Prop := u256_from_range : ∀ b, 0 ≤ u256_from_bytes b < 2 ^ 256.

(** ** Serialisation

    [into_bytes] and [from_bytes] of the trait [StorageValue].  [from_bytes]
    returns [Self], so on bytes that are no encoding it can only panic:
    [None]. *)

Class StorageValue (T : Type) : Type := {
  into_bytes : T → bytes;
  from_bytes : bytes → option T
}.

(** [wire x] is [x] with the fields marked
    [#[serde(skip_serializing, skip_deserializing)]] at their default. *)
Class StorageLaws (T : Type) `{StorageValue T} (wire : T → T) : Prop := {
  from_into : ∀ x, from_bytes (into_bytes x) = Some (wire x);
  into_wire : ∀ x, into_bytes (wire x) = into_bytes x
}.

(** The trait [CryptoHash] where [implement_cryptohash_traits!] derives it:
    the hash of the serialised value, so it does not see skipped fields. *)
Class CryptoHash (T : Type) : Type := crypto_hash : T → Hash.
Class CryptoHashLaws (T : Type) `{CryptoHash T} (wire : T → T) : Prop := {
  crypto_hash_wire : ∀ x, crypto_hash (wire x) = crypto_hash x;
  crypto_hash_length : ∀ x, length (crypto_hash x) = HASH_SIZE
}.

(** ** [lru_time_cache::LruCache] without expiry *)

Class LruCache (C K V : Type) : Type := {
  lru_with_capacity : nat → C;
  (** [get] and [get_mut]: a hit makes the key the most recent one *)
  lru_get : K → C → option V * C;
  lru_insert : K → V → C → C
}.

Class LruCacheLaws (C K V : Type) `{LruCache C K V} : Prop := {
  lru_get_new : ∀ n k, (lru_get k (lru_with_capacity n)).1 = None;
  (** the entry inserted last is present *)
  lru_get_insert_eq : ∀ k v c, (lru_get k (lru_insert k v c)).1 = Some v;
  (** an insertion may evict other entries, and changes none *)
  lru_get_insert_ne : ∀ k k' v v' c, k ≠ k' →
    (lru_get k (lru_insert k' v' c)).1 = Some v → (lru_get k c).1 = Some v;
  (** reading changes recency and no entry *)
  lru_get_get : ∀ k k' c, (lru_get k (lru_get k' c).2).1 = (lru_get k c).1
}.

(** *** The same cache with an expiry: the instant of a call decides what is left *)

Class TimedCache (C K V : Type) : Type := {
  tc_new : C;
  tc_get : Z → K → C → option V * C;
  tc_insert : Z → K → V → C → C
}.
Class TimedCacheLaws (C K V : Type) `{TimedCache C K V} : Prop := {
  tc_get_new : ∀ t k, (tc_get t k tc_new).1 = None;
  (** what is found was there before the last read *)
  tc_get_get : ∀ t t' k k' v c, (tc_get t' k (tc_get t k' c).2).1 = Some v → ∃ t0, (tc_get t0 k c).1 = Some v
}.

(** ** [priority_queue::PriorityQueue]: items [I] with priorities [P] *)

Class PriorityQueue (Q I P : Type) : Type := {
  pq_new : Q;
  (** [push]: inserts the item, or changes its priority *)
  pq_push : I → P → Q → Q;
  pq_pop : Q → option (I * P) * Q;
  pq_len : Q → nat;
  (** the entries in the queue's own order *)
  pq_iter : Q → list (I * P)
}.

Class PriorityQueueLaws (Q I P : Type) `{EqDecision I, PriorityQueue Q I P} : Prop := {
  pq_iter_new : pq_iter (pq_new (Q := Q)) = [];
  (** one entry per item *)
  pq_iter_push : ∀ i p q, pq_iter (pq_push i p q) ≡ₚ (i, p) :: filter (λ x, x.1 ≠ i) (pq_iter q);
  pq_len_iter : ∀ q, pq_len q = length (pq_iter q)
}.

(** ** [kvdb_rocksdb::Database], one column

    [put], [delete] are a transaction with one operation, written and
    flushed; I/O errors, which the sources [unwrap], are not modelled. *)

Class Database (DB : Type) : Type := {
  db_get : bytes → DB → option bytes;
  db_put : bytes → bytes → DB → DB;
  db_delete : bytes → DB → DB;
  db_iter_from_prefix : bytes → DB → list (bytes * bytes)
}.

Class DatabaseLaws (DB : Type) `{Database DB} : Prop := {
  db_get_put_eq : ∀ k v d, db_get k (db_put k v d) = Some v;
  db_get_put_ne : ∀ k k' v d, k ≠ k' → db_get k (db_put k' v d) = db_get k d;
  db_get_delete_eq : ∀ k d, db_get k (db_delete k d) = None;
  db_get_delete_ne : ∀ k k' d, k ≠ k' → db_get k (db_delete k' d) = db_get k d;
  (** the iterator returns stored entries, and every one with the prefix *)
  db_iter_sound : ∀ p d k v, (k, v) ∈ db_iter_from_prefix p d → db_get k d = Some v;
  db_iter_complete : ∀ p d k v,
    p `prefix_of` k → db_get k d = Some v → (k, v) ∈ db_iter_from_prefix p d;
  (** it goes through the keys in order from the prefix on, each once *)
  db_iter_first : ∀ p d, ∃ l1 l2, db_iter_from_prefix p d = l1 ++ l2 ∧
    Forall (λ x, p `prefix_of` x.1) l1 ∧ Forall (λ x, ¬ p `prefix_of` x.1) l2;
  db_iter_once : ∀ p d, NoDup (db_iter_from_prefix p d).*1
}.

(** Keys of the store: [StorageKey::size] and [StorageKey::write] together
    are the bytes of the key, [read] is its inverse.  [Zero] is the key with
    one value of [cryptocurrency_kit::types]. *)
Inductive Zero : Type := zero.

Class StorageKey (K : Type) : Type := {
  key_bytes : K → bytes;
  key_read : bytes → option K
}.

(** The [u64] keys are 8 bytes, the key [Zero] is shorter, hashes are
    written as they are and read back. *)
Class StorageKeyLaws `{StorageKey Z, StorageKey Hash, StorageKey Zero} : Prop := {
  key_u64_length : ∀ x : Z, length (key_bytes x) = 8%nat;
  key_u64_inj : ∀ x y : Z, is_u64 x → is_u64 y → key_bytes x = key_bytes y → x = y;
  key_hash_bytes : ∀ h : Hash, key_bytes h = h;
  key_hash_read : ∀ h : Hash, length h = HASH_SIZE → key_read h = Some h;
  key_zero_length : (length (key_bytes zero) < 8)%nat
}.

(** ** The iteration order of [HashMap]s with [u64] or [Address] keys *)

Class HashMapOrder : Type := hm_iter : ∀ {V : Type}, gmap Z V → list (Z * V).
Class HashMapOrderLaws `{HashMapOrder} : Prop :=
  hm_iter_perm : ∀ {V : Type} (m : gmap Z V), hm_iter m ≡ₚ map_to_list m.

(** The same for keys that are byte strings. *)
Class PeerMapOrder : Type := pm_iter : ∀ {V : Type}, gmap bytes V → list (bytes * V).
Class PeerMapOrderLaws `{PeerMapOrder} : Prop :=
  pm_iter_perm : ∀ {V : Type} (m : gmap bytes V), pm_iter m ≡ₚ map_to_list m.

(** ** [libp2p::PeerId], as the bytes [as_bytes] gives

    [from_str] reads the base-58 spelling, [from_bytes] checks the bytes. *)

Class PeerIds : Type := {
  to_base58 : bytes → string;
  peer_from_str : string → option bytes;
  peer_from_bytes : bytes → option bytes
}.
Class PeerIdsLaws `{PeerIds} : Prop := {
  peer_from_bytes_eq : ∀ b p, peer_from_bytes b = Some p → p = b;
  peer_from_str_valid : ∀ s p, peer_from_str s = Some p → peer_from_bytes p = Some p;
  peer_from_to_base58 : ∀ p, peer_from_bytes p = Some p → peer_from_str (to_base58 p) = Some p
}.

(** ** [chrono], [Address::from_str] and times

    [NaiveDateTime::from_timestamp] panics on seconds outside the calendar it
    represents; [DateTime::from_str] and [Address::from_str] may fail. *)

Class Chrono : Type := {
  timestamp_in_range : Z → bool;
  datetime_from_str : string → result Z string;
  address_from_str : string → option Address
}.

(** What the clocks show to one call: [Instant::now()] in nanoseconds for
    the two readings the sources make, and the wall clock
    ([chrono::Local::now()]) in milliseconds and in seconds. *)
Module Clk.
Record t : Type := mk { instant : Z; instant' : Z; wall_millis : Z; wall_secs : Z }.
End Clk.

(** ** Consequences of the laws *)

Lemma hm_iter_elem `{HashMapOrderLaws} {V} (m : gmap Z V) k v :
  (k, v) ∈ hm_iter m ↔ m !! k = Some v.
Proof. rewrite hm_iter_perm. apply elem_of_map_to_list. Qed.

Lemma hm_iter_length `{HashMapOrderLaws} {V} (m : gmap Z V) :
  length (hm_iter m) = size m.
Proof. rewrite hm_iter_perm. apply length_map_to_list. Qed.
