(* ===== verification/Text.v ===== *)
(** * Numbers as text

    Digits of the standard library's formatting and parsing, in radix 10
    and 16: what [{}] and [{:x}] write, what [char::to_digit] reads, and the
    value a string of digits spells. *)

From S2P Require Import Prelude.

(** [char::to_digit(16)] and [char::to_digit(radix)] for smaller ones. *)
Definition to_digit16 (c : Ascii.ascii) : option Z :=
  let n := Z.of_nat (Ascii.nat_of_ascii c) in
  if (48 <=? n) && (n <=? 57) then Some (n - 48)
  else if (97 <=? n) && (n <=? 102) then Some (n - 87)
  else if (65 <=? n) && (n <=? 70) then Some (n - 55)
  else None.
Definition to_digit (radix : Z) (c : Ascii.ascii) : option Z :=
  match to_digit16 c with
  | Some d => if d <? radix then Some d else None
  | None => None
  end.
Definition digit_char (d : Z) : Ascii.ascii :=
  Ascii.ascii_of_nat (Z.to_nat (if d <? 10 then 48 + d else 87 + d)).

(** The digits of [n] in front of [rest], the last one first, at most [fuel]
    of them. *)
Fixpoint radix_digits (radix : Z) (fuel : nat) (n : Z) (rest : string) : string :=
  match fuel with
  | O => rest
  | S fuel' =>
      let rest := String (digit_char (n mod radix)) rest in
      if n / radix =? 0 then rest else radix_digits radix fuel' (n / radix) rest
  end.

(** The number the digits spell after [acc], without bounds. *)
Fixpoint radix_value (radix : Z) (s : string) (acc : Z) : option Z :=
  match s with
  | EmptyString => Some acc
  | String c s' =>
      match to_digit radix c with Some d => radix_value radix s' (acc * radix + d) | None => None end
  end.

Lemma to_digit16_range c d : to_digit16 c = Some d → 0 ≤ d < 16.
Proof.
  unfold to_digit16. intros E.
  repeat match type of E with context [if ?b then _ else _] => destruct b eqn:? end; try done;
    injection E as <-; lia.
Qed.

Lemma to_digit_range radix c d : to_digit radix c = Some d → 0 ≤ d < radix.
Proof.
  unfold to_digit. destruct (to_digit16 c) as [d'|] eqn:E; [|done]. apply to_digit16_range in E.
  destruct (Z.ltb_spec d' radix); [|done]. intros [= <-]. lia.
Qed.

Lemma digit_char_spec d :
  0 ≤ d < 16 → to_digit16 (digit_char d) = Some d ∧ Ascii.nat_of_ascii (digit_char d) ≠ 43%nat.
Proof.
  intros Hd. assert (∀ n, In n (seq 0 16) → to_digit16 (digit_char (Z.of_nat n)) = Some (Z.of_nat n) ∧
    Ascii.nat_of_ascii (digit_char (Z.of_nat n)) ≠ 43%nat) as Hall.
  { apply List.Forall_forall. simpl. repeat (constructor; [split; [reflexivity|discriminate]|]). constructor. }
  specialize (Hall (Z.to_nat d)). rewrite Z2Nat.id in Hall by lia. apply Hall, in_seq. lia.
Qed.

Section radix.
Context (radix : Z) (Hradix : 2 ≤ radix ≤ 16).

Lemma to_digit_char d : 0 ≤ d < radix → to_digit radix (digit_char d) = Some d.
Proof using All.
  intros Hd. unfold to_digit. destruct (digit_char_spec d) as [-> _]; [lia|].
  by destruct (Z.ltb_spec d radix); [|lia].
Qed.

Lemma radix_value_grows s acc v : 0 ≤ acc → radix_value radix s acc = Some v → acc ≤ v.
Proof using All.
  revert acc. induction s as [|c s IH]; simpl; intros acc Ha; [intros [= <-]; lia|].
  destruct (to_digit radix c) as [d|] eqn:Ed; [|done]. apply to_digit_range in Ed.
  intros Hv%IH; nia.
Qed.

(** Printing, then reading on. *)
Lemma radix_digits_value fuel n rest :
  0 ≤ n < radix ^ Z.of_nat fuel → radix_value radix (radix_digits radix fuel n rest) 0 = radix_value radix rest n.
Proof using All.
  revert n rest. induction fuel as [|fuel IH]; intros n rest Hn.
  { simpl in *. by replace n with 0 by lia. }
  rewrite Nat2Z.inj_succ, Z.pow_succ_r in Hn by lia. simpl.
  pose proof (Z.mod_pos_bound n radix ltac:(lia)) as Hm. pose proof (Z.div_mod n radix ltac:(lia)) as Hdm.
  destruct (Z.eqb_spec (n / radix) 0) as [E|E]; [|rewrite IH]; simpl; rewrite ?to_digit_char by lia.
  - f_equal. nia.
  - f_equal. lia.
  - split; [apply Z.div_pos; lia|]. apply Z.div_lt_upper_bound; lia.
Qed.

Lemma radix_digits_first fuel n rest :
  ∃ d s, radix_digits radix (S fuel) n rest = String (digit_char d) s ∧ 0 ≤ d < radix.
Proof using All.
  revert n rest. induction fuel as [|fuel IH]; intros n rest.
  - simpl. destruct (_ =? 0); eexists _, _; (split; [reflexivity|]); apply Z.mod_pos_bound; lia.
  - cbn [radix_digits]. destruct (n / radix =? 0); [|apply IH]. eexists _, _. split; [reflexivity|].
    apply Z.mod_pos_bound. lia.
Qed.
End radix.
