(* ===== verification/Types.v ===== *)
(** * Data of the chain and of the protocol

    [src/types/] (validators, votes, transactions, blocks), the enums of
    [src/protocol/mod.rs], the consensus messages of
    [src/consensus/types.rs] and the error types of [src/error/mod.rs] and
    [src/consensus/error.rs]. *)

From S2P Require Import Prelude External.

(** ** Enums of the protocol *)

Inductive State : Type := AcceptRequest | PrePrepared | Prepared | Committed.
Inductive MessageType : Type := Preprepare | Prepare | Commit | RoundChange.

(** The discriminants: [AcceptRequest = 1] and [Preprepare = 1], the rest
    counted up; the derived [PartialOrd] compares them. *)
Definition State_discr (s : State) : Z :=
  match s with AcceptRequest => 1 | PrePrepared => 2 | Prepared => 3 | Committed => 4 end.
Definition MessageType_discr (c : MessageType) : Z :=
  match c with Preprepare => 1 | Prepare => 2 | Commit => 3 | RoundChange => 4 end.
Definition State_lt (a b : State) : bool := State_discr a <? State_discr b.
Definition MessageType_lt (a b : MessageType) : bool := MessageType_discr a <? MessageType_discr b.

#[global] Instance State_eq_dec : EqDecision State.
Proof. solve_decision. Defined.
#[global] Instance MessageType_eq_dec : EqDecision MessageType.
Proof. solve_decision. Defined.

(** ** Errors *)

Inductive EngineError : Type :=
| EngineNotStarted | InvalidProposal | InvalidSignature | InvalidHeight | InvalidTimestamp
| InvalidTransactionHash (expect got : Hash)
| Unauthorized
| LackVotes (expect got : nat)
| FutureBlock | InvalidBlock
| UnknownAncestor (child parent : Z)
| Interrupt
| EngineUnknown (why : string).

Inductive ConsensusError : Type :=
| Ignored | FutureMessage | FutureRoundMessage
| FutureBlockMessage (height : Z)
| InconsistentSubject | OldMessage | InvalidMessage | UnauthorizedAddress | WaitNewRound
| NotFromProposer | TimeoutMessage
| Unknown (why : string)
| Engine (e : EngineError).

Abbreviation ConsensusResult := (result unit ConsensusError).
Abbreviation EngineResult := (result unit EngineError).

Inductive ChainError : Type :=
| Exists (h : Hash)
| ChainUnknown (why : string).
Abbreviation ChainResult := (result unit ChainError).

(** ** Validators ([src/types/mod.rs]) *)

Abbreviation Height := Z.
Abbreviation Round := Z.

(** [EMPTY_ADDRESS] is [Address::from(0)]. *)
Definition EMPTY_ADDRESS : Address := 0.

Module Validator.
Record t : Type := new { address : Address }.
#[global] Instance t_eq_dec : EqDecision t.
Proof. solve_decision. Defined.
Definition cmp (a b : t) : comparison := (address a ?= address b)%Z.
Definition partial_cmp (a b : t) : option comparison := Some (cmp a b).
Definition eq (a b : t) : bool := address a =? address b.
End Validator.

Module ValidatorArray.
Record t : Type := mk { inner : list Address; index : gmap Address nat }.
(** The fold inserts every address with its position, later positions over
    earlier ones. *)
Definition new (addresses : list Address) : t :=
  mk addresses
     (foldl (λ '(acc, m) a, (S acc, <[a := acc]> m)) (O, ∅ : gmap Address nat) addresses).2.
Definition have (a : Address) (v : t) : bool := bool_decide (is_Some (index v !! a)).
Definition from_validators (vs : list Validator.t) : t := new (Validator.address <$> vs).
End ValidatorArray.

(** ** Votes ([src/types/votes.rs]) *)

Definition SIGN_PACKET_SIZE : nat := 9.

(** [write_u8] and [write_all] on a [Cursor] over a vector of zeros. *)
Definition cursor_write (buf data : bytes) : bytes := data ++ drop (length data) buf.
Definition commit_packet (digest : bytes) : bytes :=
  cursor_write (replicate (1 + HASH_SIZE) 0) (MessageType_discr Commit :: digest).

Section commit_bytes.
Context `{CryptoKit}.

Definition decrypt_commit_bytes (input : bytes) (signature : Signature) : result Address string :=
  if negb (Nat.eqb (length input) SIGN_PACKET_SIZE) then
    Err "sign bytes size not equal SIGN_PACKET_SIZE"%string
  else
    let digest := hash input in
    let digest := hash (commit_packet digest) in
    match recover_bytes signature digest with
    | Some public => Ok (public_to_address public)
    | None => Err "recover commit sign failed"%string
    end.

Definition encrypt_commit_bytes (digest : Hash) (secret : Secret) : outcome Signature :=
  unwrap (hash_sign (hash (commit_packet digest)) secret).
End commit_bytes.

Module Votes.
Abbreviation t := (list Signature).
Definition new (votes : list Signature) : t := votes.
Definition len (v : t) : nat := length v.
Definition add_vote (vote : Signature) (v : t) : bool * t :=
  if existsb (λ e, bool_decide (e = vote)) v then (true, v) else (false, v ++ [vote]).
Definition add_votes (votes : list Signature) (v : t) : t :=
  foldl (λ v vote, (add_vote vote v).2) v votes.
Definition remove_vote (vote : Signature) (v : t) : bool * t :=
  match remove_item vote v with Some v' => (true, v') | None => (false, v) end.
Definition verify_signs `{CryptoKit} (digest : Hash) (author : Address → bool) (v : t) : bool :=
  forallb (λ signature,
    match decrypt_commit_bytes digest signature with
    | Ok address => author address
    | Err _ => false
    end) v.
End Votes.

(** ** Transactions ([src/types/transaction.rs]) *)

Module TransactionSignature.
Record t : Type := mk {
  account_nonce : Z; gas_price : Z; gas_limit : Z; recipient : Address; amount : Z;
  payload : bytes; signature : option Signature }.
End TransactionSignature.

Module Transaction.
Record t : Type := mk {
  account_nonce : Z; gas_price : Z; gas_limit : Z; recipient : option Address; amount : Z;
  payload : bytes; signature : option Signature; hash : option Hash }.

Definition new (nonce : Z) (to : Address) (amount gas_limit gas_price : Z) (payload : bytes) : t :=
  mk nonce gas_price gas_limit (Some to) amount payload None None.
Definition set_hash (h : Hash) (tx : t) : t :=
  mk (account_nonce tx) (gas_price tx) (gas_limit tx) (recipient tx) (amount tx) (payload tx)
     (signature tx) (Some h).
Definition set_signature (s : Signature) (tx : t) : t :=
  mk (account_nonce tx) (gas_price tx) (gas_limit tx) (recipient tx) (amount tx) (payload tx)
     (Some s) (hash tx).
Definition get_hash (tx : t) : option Hash := hash tx.
(** [PartialEq]: both hashes are unwrapped. *)
Definition eq (self other : t) : outcome bool :=
  h ← unwrap (get_hash self);
  h' ← unwrap (get_hash other);
  mret (bool_decide (h = h')).
(** [#[serde(skip)]] on [hash]. *)
Definition wire (tx : t) : t :=
  mk (account_nonce tx) (gas_price tx) (gas_limit tx) (recipient tx) (amount tx) (payload tx)
     (signature tx) None.

Section ops.
Context `{CryptoKit, StorageValue TransactionSignature.t}.

Definition packet_hash (tx : t) : outcome bytes :=
  sign ← unwrap (signature tx);
  to ← unwrap (recipient tx);
  mret (into_bytes (TransactionSignature.mk (account_nonce tx) (gas_price tx) (gas_limit tx) to
    (amount tx) (payload tx) (Some sign))).
Definition packet_signature (tx : t) : outcome bytes :=
  to ← unwrap (recipient tx);
  mret (into_bytes (TransactionSignature.mk (account_nonce tx) (gas_price tx) (gas_limit tx) to
    (amount tx) (payload tx) None)).
Definition crypto_hash (tx : t) : outcome Hash :=
  b ← packet_hash tx; mret (External.hash b).
Definition sign (_chain_id : Z) (secret : Secret) (tx : t) : outcome t :=
  b ← packet_signature tx;
  s ← unwrap (sign_bytes secret b);
  mret (set_signature s tx).
Definition verify_sign (_chain_id : Z) (tx : t) : outcome bool :=
  match signature tx with
  | None => mret false
  | Some s =>
      b ← packet_signature tx;
      mret (bool_decide (is_Some (recover_bytes s b)))
  end.
End ops.
End Transaction.

(** [merkle_tree_root] ([src/common/mod.rs]). *)
Definition merkle_tree_root `{CryptoKit} {T} `{StorageValue T} (input : list T) : outcome Hash :=
  unwrap (merkle_root (into_bytes <$> input)).

(** ** Blocks ([src/types/block.rs]) *)

Module Header.
Record t : Type := mk {
  prev_hash : Hash; proposer : Address; root : Hash; tx_hash : Hash; receipt_hash : Hash;
  bloom : Z; difficulty : Z; height : Height; gas_limit : Z; gas_used : Z; time : Z;
  extra : option bytes; votes : option Votes.t; hash_cache : option Hash }.

Definition new (prev_hash : Hash) (proposer : Address) (root tx_hash receipt_hash : Hash)
    (bloom diff height gas_limit gas_used tm : Z) (votes : option Votes.t)
    (extra : option bytes) : t :=
  mk prev_hash proposer root tx_hash receipt_hash bloom diff height gas_limit gas_used tm extra
     votes None.
Definition new_mock (pre_hash : Hash) (proposer : Address) (tx_hash : Hash) (height tm : Z)
    (extra : option bytes) : t :=
  new pre_hash proposer EMPTY_HASH tx_hash EMPTY_HASH 0 0 height 0 0 tm None extra.
Definition zero_header : t :=
  mk EMPTY_HASH 0 EMPTY_HASH EMPTY_HASH EMPTY_HASH 0 0 0 0 0 0 None None None.

Definition set_votes (v : option Votes.t) (h : t) : t :=
  mk (prev_hash h) (proposer h) (root h) (tx_hash h) (receipt_hash h) (bloom h) (difficulty h)
     (height h) (gas_limit h) (gas_used h) (time h) (extra h) v (hash_cache h).
Definition set_hash_cache (c : option Hash) (h : t) : t :=
  mk (prev_hash h) (proposer h) (root h) (tx_hash h) (receipt_hash h) (bloom h) (difficulty h)
     (height h) (gas_limit h) (gas_used h) (time h) (extra h) (votes h) c.
(** [#[serde(skip)]] on [hash_cache]. *)
Definition wire (h : t) : t := set_hash_cache None h.

Section ops.
Context `{CryptoHash t}.

Definition block_hash (h : t) : Hash :=
  match hash_cache h with
  | None => crypto_hash (set_votes None h)
  | Some c => c
  end.
Definition cache_hash (block_hash_ : option Hash) (h : t) : t :=
  match block_hash_ with
  | Some c => set_hash_cache (Some c) h
  | None => set_hash_cache (Some (block_hash h)) h
  end.
End ops.
End Header.

Module Block.
Record t : Type := new { header : Header.t; transactions : list Transaction.t }.

Definition hash `{CryptoHash Header.t} (b : t) : Hash := Header.block_hash (header b).
Definition height (b : t) : Height := Header.height (header b).
Definition coinbase (b : t) : Address := Header.proposer (header b).
Definition votes (b : t) : option Votes.t := Header.votes (header b).
(** [get_or_insert(Votes::new(vec![]))], then [add_votes]. *)
Definition add_votes (signatures : list Signature) (b : t) : t :=
  let v := match Header.votes (header b) with Some v => v | None => Votes.new [] end in
  new (Header.set_votes (Some (Votes.add_votes signatures v)) (header b)) (transactions b).
Definition wire (b : t) : t := new (Header.wire (header b)) (Transaction.wire <$> transactions b).
End Block.

(** ** Consensus messages ([src/consensus/types.rs]) *)

Module Proposal.
Record t : Type := new { block : Block.t }.
Definition set_seal (seals : list Signature) (p : t) : t := new (Block.add_votes seals (block p)).
Definition copy (p : t) : t := new (block p).
Definition wire (p : t) : t := new (Block.wire (block p)).
End Proposal.

Module Request.
Record t : Type := new { proposal : Proposal.t }.
End Request.

Module View.
Record t : Type := mk { round : Round; height : Height }.
Definition new (height : Height) (round : Round) : t := mk round height.
Definition default : t := mk 0 0.
Definition eq (a b : t) : bool := (height a =? height b) && (round a =? round b).
Definition partial_cmp (a b : t) : option comparison :=
  match (height a ?= height b)%Z with
  | Eq => Some (round a ?= round b)%Z
  | order => Some order
  end.
#[global] Instance t_eq_dec : EqDecision t.
Proof. solve_decision. Defined.
End View.

Module Subject.
Record t : Type := mk { view : View.t; digest : Hash }.
End Subject.

Module PrePrepare.
Record t : Type := new { view : View.t; proposal : Proposal.t }.
Definition wire (p : t) : t := new (view p) (Proposal.wire (proposal p)).
End PrePrepare.

(** ** Properties of the data *)

(** The hash does not travel, so a transaction that was received cannot be
    compared with any other. *)
Lemma received_eq_panics (tx tx' : Transaction.t) : Transaction.eq (Transaction.wire tx) tx' = Panic.
Proof. done. Qed.

(** *** Block identity *)

Section block_identity.
Context `{HL : CryptoHashLaws Header.t Header.wire}.

(** A header is coherent when its cached hash, if any, is the one
    [block_hash] would compute. *)
Definition Header_coherent (h : Header.t) : Prop :=
  Header.hash_cache h = None ∨ Header.hash_cache h = Some (Header.block_hash (Header.wire h)).

Lemma block_hash_set_votes v h :
  Header.block_hash (Header.set_votes v h) = Header.block_hash h.
Proof. done. Qed.

Lemma block_hash_cache_hash h :
  Header.block_hash (Header.cache_hash None h) = Header.block_hash h.
Proof. unfold Header.cache_hash, Header.block_hash. simpl. by destruct (Header.hash_cache h). Qed.

Lemma block_hash_wire h : Header_coherent h → Header.block_hash (Header.wire h) = Header.block_hash h.
Proof using HL.
  intros [E|E]; unfold Header.block_hash at 2; rewrite E; [|done].
  unfold Header.block_hash. simpl. by rewrite <-(crypto_hash_wire (Header.set_votes None h)).
Qed.

Lemma coherent_set_votes v h : Header_coherent h → Header_coherent (Header.set_votes v h).
Proof. by intros [E|E]; [left|right]. Qed.

Lemma coherent_cache_hash h : Header_coherent h → Header_coherent (Header.cache_hash None h).
Proof using HL. intros Hc. right. simpl. by rewrite <-block_hash_wire. Qed.

Lemma coherent_new pre p tx ht tm ex : Header_coherent (Header.new_mock pre p tx ht tm ex).
Proof. by left. Qed.

(** The hash that identifies a block is the same before and after it travels:
    caching it, sealing the block with any commit signatures and serialising
    it ([hash_cache] is skipped on the wire) all leave [Block::hash] as it
    is, for every header whose cache is empty or was filled by
    [cache_hash(None)]. *)
Lemma block_hash_stable (b : Block.t) (seals : list Signature) :
  Header_coherent (Block.header b) →
  Block.hash (Block.wire (Block.add_votes seals
    (Block.new (Header.cache_hash None (Block.header b)) (Block.transactions b)))) = Block.hash b.
Proof using HL.
  intros Hc. unfold Block.hash, Block.wire, Block.add_votes. simpl.
  rewrite block_hash_wire by (apply coherent_set_votes, coherent_cache_hash, Hc).
  rewrite block_hash_set_votes. apply block_hash_cache_hash.
Qed.
End block_identity.

(** *** Votes *)

Lemma add_vote_elem vote (v : Votes.t) s :
  s ∈ (Votes.add_vote vote v).2 ↔ s = vote ∨ s ∈ v.
Proof.
  unfold Votes.add_vote. destruct (existsb _ v) eqn:E; simpl; [|set_solver].
  apply existsb_exists in E as (x & Hx & E%bool_decide_eq_true). subst.
  apply list_elem_of_In in Hx. set_solver.
Qed.

Lemma add_vote_NoDup vote (v : Votes.t) : NoDup v → NoDup (Votes.add_vote vote v).2.
Proof.
  intros Hv. unfold Votes.add_vote. destruct (existsb _ v) eqn:E; simpl; [done|].
  apply NoDup_app. split_and!; [done| |apply NoDup_singleton].
  intros x Hx ->%list_elem_of_singleton. apply not_true_iff_false in E. apply E, existsb_exists.
  exists vote. split; [by apply list_elem_of_In|by apply bool_decide_eq_true].
Qed.

Lemma add_votes_elem votes (v : Votes.t) s :
  s ∈ Votes.add_votes votes v ↔ s ∈ votes ∨ s ∈ v.
Proof.
  revert v. induction votes as [|x votes IH]; intros v; simpl; [set_solver|].
  unfold Votes.add_votes in *. simpl. rewrite IH, add_vote_elem. set_solver.
Qed.

Lemma add_votes_NoDup votes (v : Votes.t) : NoDup v → NoDup (Votes.add_votes votes v).
Proof.
  revert v. induction votes as [|x votes IH]; intros v Hv; simpl; [done|].
  apply IH, add_vote_NoDup, Hv.
Qed.

#[export] Hint Resolve add_vote_NoDup add_votes_NoDup : rust.

(** [Votes::add_votes] is set insertion: a vote list without duplicates
    stays so, holds exactly the old and the new signatures, and adding the
    same seals a second time (as [ImplBackend::commit] does) changes
    nothing. *)
Lemma add_votes_set (votes : list Signature) (v : Votes.t) :
  NoDup v →
  NoDup (Votes.add_votes votes v) ∧
  (∀ s, s ∈ Votes.add_votes votes v ↔ s ∈ votes ∨ s ∈ v) ∧
  Votes.add_votes votes (Votes.add_votes votes v) = Votes.add_votes votes v.
Proof.
  intros Hv. split_and!; [by auto with rust|intros s; apply add_votes_elem|].
  assert (Hin : ∀ s, s ∈ votes → s ∈ Votes.add_votes votes v) by (intros; apply add_votes_elem; auto).
  revert Hin. generalize (Votes.add_votes votes v) as w. clear v Hv.
  induction votes as [|x votes IH]; intros w Hin; [done|]. unfold Votes.add_votes in *. simpl.
  replace (Votes.add_vote x w) with (true, w); [apply IH; set_solver|].
  unfold Votes.add_vote. replace (existsb _ w) with true; [done|].
  symmetry. apply existsb_exists. exists x.
  split; [apply list_elem_of_In; set_solver|by apply bool_decide_eq_true].
Qed.

(** [Votes::verify_signs] asks [decrypt_commit_bytes] to recover the signer
    of a digest, but [decrypt_commit_bytes] refuses every input that is not
    9 bytes long while a block hash has 32: no vote verifies. *)
Lemma verify_signs_rejects_hashes `{CryptoKit} (digest : Hash) (author : Address → bool)
    (v : Votes.t) :
  length digest = HASH_SIZE →
  Votes.verify_signs digest author v = bool_decide (v = []).
Proof.
  intros Hd. destruct v as [|s v]; [done|].
  unfold Votes.verify_signs, decrypt_commit_bytes. simpl. by rewrite Hd.
Qed.

(** *** Transactions *)

Section transactions.
Context `{CryptoKitLaws, StorageValue TransactionSignature.t}.

Lemma signed_verifies chain_id chain_id' secret tx tx' :
  Transaction.sign chain_id secret tx = Ret tx' →
  ∃ s, tx' = Transaction.set_signature s tx ∧ Transaction.verify_sign chain_id' tx' = Ret true.
Proof.
  unfold Transaction.sign, Transaction.verify_sign. intros Hs.
  destruct (Transaction.packet_signature tx) as [b|] eqn:Eb; [|done].
  simpl in Hs. destruct (sign_bytes secret b) as [s|] eqn:Es; [|done].
  simpl in Hs. injection Hs as <-. exists s. split; [done|].
  assert (Transaction.packet_signature (Transaction.set_signature s tx) = Ret b) as E by exact Eb.
  rewrite E. simpl. do 2 f_equal. apply bool_decide_eq_true.
  destruct (recover_sign_bytes _ _ _ Es) as (pk & -> & _). by eexists.
Qed.

(** A transaction that [sign] has signed passes [verify_sign] under any
    chain id, and signing changes no field but the signature. *)
Lemma sign_verify_sign (chain_id chain_id' : Z) (secret : Secret) (tx tx' : Transaction.t) :
  Transaction.sign chain_id secret tx = Ret tx' →
  Transaction.verify_sign chain_id' tx' = Ret true ∧
  Transaction.packet_signature tx' = Transaction.packet_signature tx ∧
  ∃ s, tx' = Transaction.set_signature s tx.
Proof. intros Hs. destruct (signed_verifies _ chain_id' _ _ _ Hs) as (s & -> & ?). by eauto. Qed.
End transactions.

(** *** Views *)

Lemma View_eq_spec a b : View.eq a b = true ↔ a = b.
Proof.
  destruct a as [r h], b as [r' h']. unfold View.eq. simpl.
  rewrite andb_true_iff, !Z.eqb_eq. naive_solver.
Qed.

Definition View_lt (a b : View.t) : Prop :=
  View.height a < View.height b ∨ (View.height a = View.height b ∧ View.round a < View.round b).
Definition View_le (a b : View.t) : Prop := a = b ∨ View_lt a b.

#[global] Instance View_le_preorder : PreOrder View_le.
Proof.
  split; [by left|]. intros [r h] [r' h'] [r'' h'']. unfold View_le, View_lt. simpl.
  intros [[= <- <-]|H1] [[= <- <-]|H2]; auto; right; lia.
Qed.

(** [View::partial_cmp] never returns [None] and is the lexicographic
    order on (height, round): it decides a strict total order whose equality
    is [View::eq], the order in which the protocol moves forward. *)
Lemma View_partial_cmp_total (a b : View.t) :
  match View.partial_cmp a b with
  | Some Lt => View_lt a b ∧ ¬ View_lt b a ∧ View.eq a b = false
  | Some Eq => a = b ∧ View.eq a b = true
  | Some Gt => View_lt b a ∧ ¬ View_lt a b ∧ View.eq a b = false
  | None => False
  end.
Proof.
  destruct a as [r h], b as [r' h']. unfold View.partial_cmp, View.eq, View_lt. simpl.
  destruct (Z.compare_spec h h') as [->|Hh|Hh].
  - destruct (Z.compare_spec r r') as [->|Hr|Hr]; rewrite ?Z.eqb_refl; simpl; [done|..];
      split_and!; try lia.
  - split_and!; lia.
  - split_and!; lia.
Qed.
