(* ===== verification/Validators.v ===== *)
(** * The validator set ([src/consensus/validator.rs])

    The trait [ValidatorSet] as a class with the laws its clients rely on,
    its implementation [ImplValidatorSet], the proposer selection
    [fn_selector], and the quorum arithmetic, which the source does in
    single-precision floating point and which is modelled with the IEEE 754
    operations of the Standard Library's [SpecFloat]. *)

From Stdlib Require Import SpecFloat.
From S2P Require Import Prelude External Types.

(** ** [f32] arithmetic: precision 24, maximal exponent 128 *)

Definition f32_of_usize (n : nat) : spec_float := binary_normalize 24 128 (Z.of_nat n) 0 false.
Definition f32_mul : spec_float → spec_float → spec_float := SFmul 24 128.
Definition f32_div : spec_float → spec_float → spec_float := SFdiv 24 128.
(** [x.floor() as usize] and [x.ceil() as usize]; the cast sends negative
    numbers and NaN to [0]. *)
Definition f32_floor_usize (x : spec_float) : nat :=
  match x with
  | S754_finite false m e =>
      Z.to_nat (if 0 <=? e then Z.shiftl (Zpos m) e else Z.shiftr (Zpos m) (- e))
  | _ => O
  end.
Definition f32_ceil_usize (x : spec_float) : nat :=
  match x with
  | S754_finite false m e =>
      Z.to_nat (if 0 <=? e then Z.shiftl (Zpos m) e
                else - Z.shiftr (- Zpos m) (- e))
  | _ => O
  end.

Definition f32_two_thirds (n : nat) : nat :=
  f32_floor_usize (f32_div (f32_mul (f32_of_usize n) (f32_of_usize 2)) (f32_of_usize 3)).
Definition f32_third (n : nat) : nat :=
  f32_ceil_usize (f32_div (f32_mul (f32_of_usize n) (f32_of_usize 1)) (f32_of_usize 3)).

(** ** Proposer selection *)

Abbreviation Validators := (list Validator.t).
Abbreviation ProposalSelector := (Hash → Height → Z → Validators → outcome Validator.t).

Section selector.
Context `{BigInt}.

(** The first eight bytes of the parent hash, read as a 16-byte number whose
    other bytes are zero; [blh[idx]] panics on a shorter hash. *)
Definition randon_seed (blh : Hash) (_height : Height) (vals : Validators) : outcome Z :=
  if (length blh <? 8)%nat then Panic
  else
    let seed_buf := take 8 blh ++ replicate 8 0 in
    if (length vals =? 0)%nat then Panic
    else mret (u128_from seed_buf mod Z.of_nat (length vals)).

Definition fn_selector : ProposalSelector := λ blh height round vals,
  match vals with
  | [] => Panic
  | _ =>
      seed ← randon_seed blh height vals;
      sum ← u64_add seed round;
      unwrap (vals !! Z.to_nat (sum mod Z.of_nat (length vals)))
  end.
End selector.

(** ** The trait *)

Class ValidatorSet (V : Type) : Type := {
  vs_calc_proposer : Hash → Height → Z → V → outcome V;
  vs_size : V → nat;
  vs_list : V → Validators;
  vs_get_by_index : nat → V → option Validator.t;
  vs_get_by_address : Address → V → option Validator.t;
  vs_get_proposer : V → option Validator.t;
  vs_is_proposer : Address → V → bool;
  vs_add_validator : Address → V → bool * V;
  vs_remove_validator : Address → V → bool * V;
  vs_fault : V → nat;
  vs_two_thirds_majority : V → nat;
  vs_has_two_thirds_majority : nat → V → bool
}.

Class ValidatorSetLaws (V : Type) `{ValidatorSet V} : Prop := {
  vs_size_list : ∀ v, vs_size v = length (vs_list v);
  vs_get_by_address_list : ∀ v a,
    is_Some (vs_get_by_address a v) ↔ a ∈ Validator.address <$> vs_list v
}.

(** ** The implementation *)

Module ImplValidatorSet.
Record t : Type := mk {
  validators : Validators; proposer : option Validator.t; selector : ProposalSelector }.

Definition set_validators (vs : Validators) (v : t) : t := mk vs (proposer v) (selector v).

Definition new (address : list Address) (selector : ProposalSelector) : t :=
  mk (sort_by_key Validator.address Z.leb (Validator.new <$> address)) None selector.

Definition calc_proposer (pre_blh : Hash) (pre_height : Height) (round : Z) (v : t) : outcome t :=
  next_proposer ← selector v pre_blh pre_height round (validators v);
  mret (mk (validators v) (Some next_proposer) (selector v)).
Definition size (v : t) : nat := length (validators v).
Definition list_ (v : t) : Validators := validators v.
Definition get_by_index (index : nat) (v : t) : option Validator.t := validators v !! index.

(** [any] with a counter: [inl] the index it stopped at, [inr] no match. *)
Fixpoint any_index (address : Address) (l : Validators) (idx : nat) : option nat :=
  match l with
  | [] => None
  | x :: l' => if Validator.address x =? address then Some idx else any_index address l' (S idx)
  end.
Definition get_by_address (address : Address) (v : t) : option Validator.t :=
  match any_index address (validators v) 0 with
  | None => None
  | Some idx => validators v !! idx
  end.
Definition get_proposer (v : t) : option Validator.t := proposer v.
Definition is_proposer (address : Address) (v : t) : bool :=
  match proposer v with
  | None => false
  | Some p => Validator.address p =? address
  end.
Definition add_validator (address : Address) (v : t) : bool * t :=
  if existsb (λ x, Validator.address x =? address) (validators v) then (false, v)
  else (true, set_validators
    (sort_by_key Validator.address Z.leb (validators v ++ [Validator.new address])) v).
Definition remove_validator (address : Address) (v : t) : bool * t :=
  match remove_item (Validator.new address) (validators v) with
  | None => (false, v)
  | Some vs => (true, set_validators vs v)
  end.
Definition fault (v : t) : nat := f32_third (length (validators v)).
Definition two_thirds_majority (v : t) : nat := f32_two_thirds (length (validators v)).
Definition has_two_thirds_majority (n : nat) (v : t) : bool :=
  (two_thirds_majority v + 1 <=? n)%nat.

#[global] Instance validator_set : ValidatorSet t := {
  vs_calc_proposer := calc_proposer; vs_size := size; vs_list := list_;
  vs_get_by_index := get_by_index; vs_get_by_address := get_by_address;
  vs_get_proposer := get_proposer; vs_is_proposer := is_proposer;
  vs_add_validator := add_validator; vs_remove_validator := remove_validator;
  vs_fault := fault; vs_two_thirds_majority := two_thirds_majority;
  vs_has_two_thirds_majority := has_two_thirds_majority }.
End ImplValidatorSet.

Abbreviation addresses v := (Validator.address <$> ImplValidatorSet.validators v).

(** ** Invariant and lookups *)

Abbreviation addr_le := (λ x y : Validator.t, Z.leb (Validator.address x) (Validator.address y) = true).

(** Sorted by address, no address twice. *)
Definition valset_wf (v : ImplValidatorSet.t) : Prop :=
  StronglySorted addr_le (ImplValidatorSet.validators v) ∧ NoDup (addresses v).

Lemma addr_leb_total x y : Z.leb x y = true ∨ Z.leb y x = true.
Proof. rewrite !Z.leb_le. lia. Qed.
Lemma addr_leb_trans x y z : Z.leb x y = true → Z.leb y z = true → Z.leb x z = true.
Proof. rewrite !Z.leb_le. lia. Qed.
#[export] Hint Resolve addr_leb_total addr_leb_trans : rust.

Lemma sort_addr_sorted l : StronglySorted addr_le (sort_by_key Validator.address Z.leb l).
Proof. apply sort_by_key_sorted; eauto with rust. Qed.

Lemma sort_addr_perm l :
  Validator.address <$> sort_by_key Validator.address Z.leb l ≡ₚ Validator.address <$> l.
Proof. by rewrite sort_by_key_perm. Qed.

Lemma any_index_spec a l idx :
  match ImplValidatorSet.any_index a l idx with
  | Some i => (idx ≤ i)%nat ∧ l !! (i - idx)%nat = Some (Validator.new a)
  | None => a ∉ Validator.address <$> l
  end.
Proof.
  revert idx. induction l as [|[b] l IH]; intros idx; simpl; [set_solver|].
  destruct (Z.eqb_spec b a) as [->|Hne]; [by rewrite Nat.sub_diag|].
  specialize (IH (S idx)). destruct (ImplValidatorSet.any_index a l (S idx)) as [i|].
  - destruct IH as [? IH]. split; [lia|]. by replace (i - idx)%nat with (S (i - S idx)) by lia.
  - simpl. set_solver.
Qed.

Lemma get_by_address_spec a v :
  ImplValidatorSet.get_by_address a v =
    if decide (a ∈ addresses v) then Some (Validator.new a) else None.
Proof.
  unfold ImplValidatorSet.get_by_address.
  pose proof (any_index_spec a (ImplValidatorSet.validators v) 0) as Hs.
  destruct (ImplValidatorSet.any_index _ _ _) as [i|].
  - destruct Hs as [_ Hs]. rewrite Nat.sub_0_r in Hs. rewrite Hs, decide_True; [done|].
    apply list_elem_of_fmap. exists (Validator.new a). split; [done|]. by eapply list_elem_of_lookup_2.
  - by rewrite decide_False.
Qed.

#[global] Instance impl_validator_set_laws : ValidatorSetLaws ImplValidatorSet.t.
Proof.
  split; [done|]. intros v a. simpl. rewrite get_by_address_spec. case_decide; naive_solver.
Qed.

Lemma add_validator_existsb a v :
  existsb (λ x, Validator.address x =? a) (ImplValidatorSet.validators v) = true ↔ a ∈ addresses v.
Proof.
  rewrite existsb_exists, list_elem_of_fmap. split.
  - intros (x & Hx%list_elem_of_In & E%Z.eqb_eq). eauto.
  - intros (x & -> & Hx%list_elem_of_In). exists x. by rewrite Z.eqb_refl.
Qed.

Lemma remove_item_subset_sorted x l l' :
  StronglySorted addr_le l → remove_item x l = Some l' → StronglySorted addr_le l'.
Proof.
  intros Hs. revert l'. induction Hs as [|y l Hl IH Hy]; intros l'; simpl; [done|].
  case_decide; [naive_solver|]. destruct (remove_item x l) as [l0|] eqn:E; simpl; [|done].
  intros [= <-]. constructor; [auto|]. rewrite Forall_forall in Hy |- *. intros z Hz.
  pose proof (remove_item_spec x l) as Hp. rewrite E in Hp. apply Hy. rewrite Hp. set_solver.
Qed.

(** C40 The validator list is always sorted by address and free of duplicates:
    [new] establishes it for distinct addresses, and [add_validator] and
    [remove_validator] preserve it; [add_validator] returns whether the
    address was new and [remove_validator] whether it was there, and they
    change membership of exactly that address. *)
Theorem valset_ops_preserve (v : ImplValidatorSet.t) (a : Address) :
  valset_wf v →
  (let '(added, v') := ImplValidatorSet.add_validator a v in
   valset_wf v' ∧ added = negb (bool_decide (a ∈ addresses v)) ∧
   ∀ b, b ∈ addresses v' ↔ b = a ∨ b ∈ addresses v) ∧
  (let '(removed, v') := ImplValidatorSet.remove_validator a v in
   valset_wf v' ∧ removed = bool_decide (a ∈ addresses v) ∧
   ∀ b, b ∈ addresses v' ↔ b ≠ a ∧ b ∈ addresses v).
Proof.
  intros [Hs Hd]. split.
  - unfold ImplValidatorSet.add_validator. destruct (existsb _ _) eqn:E.
    + apply add_validator_existsb in E. rewrite bool_decide_true by done.
      split_and!; [done|done|]. intros b. split; [auto|by intros [->|]].
    + apply not_true_iff_false in E. rewrite add_validator_existsb in E.
      rewrite bool_decide_false by done. unfold valset_wf. simpl.
      split_and!; [apply sort_addr_sorted| |done|].
      * rewrite sort_addr_perm, fmap_app, NoDup_app. split_and!; [done|set_solver|apply NoDup_singleton].
      * intros b. rewrite sort_addr_perm, fmap_app. set_solver.
  - unfold ImplValidatorSet.remove_validator.
    pose proof (remove_item_spec (Validator.new a) (ImplValidatorSet.validators v)) as Hp.
    destruct (remove_item _ _) as [vs|] eqn:E; simpl.
    + assert (addresses v ≡ₚ a :: (Validator.address <$> vs)) as Hp' by by rewrite Hp.
      rewrite Hp' in Hd. apply NoDup_cons in Hd as [Ha Hd].
      split_and!; [split; [by eapply remove_item_subset_sorted|done]| |].
      * by rewrite bool_decide_true by (rewrite Hp'; set_solver).
      * intros b. rewrite Hp'. set_solver.
    + assert (a ∉ addresses v) as Ha.
      { intros ([b] & -> & Hb)%list_elem_of_fmap. by apply Hp. }
      split_and!; [done|by rewrite bool_decide_false|]. intros b.
      split; [|by intros []]. intros Hb. split; [by intros ->|done].
Qed.

Lemma new_wf (l : list Address) (sel : ProposalSelector) :
  NoDup l → valset_wf (ImplValidatorSet.new l sel) ∧ addresses (ImplValidatorSet.new l sel) ≡ₚ l.
Proof.
  intros Hd. unfold valset_wf. simpl.
  rewrite !sort_addr_perm, <-list_fmap_compose.
  assert ((Validator.address ∘ Validator.new) <$> l = l) as -> by apply list_fmap_id.
  split_and!; [apply sort_addr_sorted|done|done].
Qed.

(** ** Quorums *)

(** The number of validators up to which the [f32] computation is checked
    against integer division. *)
Definition quorum_bound : nat := 4096.

Lemma f32_two_thirds_exact n : (n ≤ quorum_bound)%nat → f32_two_thirds n = (2 * n / 3)%nat.
Proof.
  intros Hn. apply Nat.eqb_eq.
  assert (forallb (λ n, f32_two_thirds n =? 2 * n / 3)%nat (seq 0 (S quorum_bound)) = true) as Hall
    by (vm_compute; reflexivity).
  rewrite forallb_forall in Hall. apply Hall, in_seq. lia.
Qed.

Lemma f32_third_exact n : (n ≤ quorum_bound)%nat → f32_third n = ((n + 2) / 3)%nat.
Proof.
  intros Hn. apply Nat.eqb_eq.
  assert (forallb (λ n, f32_third n =? (n + 2) / 3)%nat (seq 0 (S quorum_bound)) = true) as Hall
    by (vm_compute; reflexivity).
  rewrite forallb_forall in Hall. apply Hall, in_seq. lia.
Qed.

Lemma has_two_thirds_majority_spec n v :
  (ImplValidatorSet.size v ≤ quorum_bound)%nat →
  ImplValidatorSet.has_two_thirds_majority n v = true ↔ (2 * ImplValidatorSet.size v < 3 * n)%nat.
Proof.
  intros Hb. unfold ImplValidatorSet.has_two_thirds_majority, ImplValidatorSet.two_thirds_majority.
  rewrite f32_two_thirds_exact by done. fold (ImplValidatorSet.size v). rewrite Nat.leb_le.
  pose proof (Nat.div_mod_eq (2 * ImplValidatorSet.size v) 3).
  pose proof (Nat.mod_upper_bound (2 * ImplValidatorSet.size v) 3). lia.
Qed.

(** Two quorums overlap in more than a third of the validators. *)
Lemma quorums_overlap (v : ImplValidatorSet.t) (A B : gset Address) :
  (ImplValidatorSet.size v ≤ quorum_bound)%nat →
  A ⊆ list_to_set (addresses v) → B ⊆ list_to_set (addresses v) →
  ImplValidatorSet.has_two_thirds_majority (size A) v = true →
  ImplValidatorSet.has_two_thirds_majority (size B) v = true →
  (ImplValidatorSet.size v < 3 * size (A ∩ B))%nat.
Proof.
  intros Hn HA HB. rewrite !has_two_thirds_majority_spec by done. intros QA QB.
  assert (size (list_to_set (addresses v) : gset Address) ≤ ImplValidatorSet.size v)%nat as Hsz.
  { unfold ImplValidatorSet.size. rewrite <-(length_fmap Validator.address).
    apply set_size_le_length. intros x. by rewrite elem_of_list_to_set. }
  pose proof (size_intersection_ge _ _ _ HA HB). lia.
Qed.

(** ... so they share a validator outside any set of fewer than a third. *)
Lemma quorums_share_honest (v : ImplValidatorSet.t) (A B faulty : gset Address) :
  (ImplValidatorSet.size v ≤ quorum_bound)%nat →
  A ⊆ list_to_set (addresses v) → B ⊆ list_to_set (addresses v) →
  ImplValidatorSet.has_two_thirds_majority (size A) v = true →
  ImplValidatorSet.has_two_thirds_majority (size B) v = true →
  (3 * size faulty < ImplValidatorSet.size v)%nat → ∃ a, a ∈ A ∧ a ∈ B ∧ a ∉ faulty.
Proof.
  intros Hn HA HB QA QB Hf. pose proof (quorums_overlap v A B Hn HA HB QA QB) as Hi.
  destruct (decide (A ∩ B ⊆ faulty)) as [Hs%subseteq_size|Hs]; [lia|].
  assert (∃ a, a ∈ A ∩ B ∖ faulty) as [a Ha]; [|exists a; set_solver].
  apply set_choose_L. intros E. apply Hs. set_solver.
Qed.

(** C8 Any two sets of validators that [has_two_thirds_majority] accepts share
    more than a third of the validators, hence at least one honest one when
    fewer than a third are faulty; the whole set is always a quorum, so one
    can form.  For sets of up to 4096 validators, where the single-precision
    arithmetic of [two_thirds_majority] is exact. *)
Theorem quorum_intersection (v : ImplValidatorSet.t) (A B : gset Address) :
  (0 < ImplValidatorSet.size v ≤ quorum_bound)%nat →
  A ⊆ list_to_set (addresses v) → B ⊆ list_to_set (addresses v) →
  ImplValidatorSet.has_two_thirds_majority (size A) v = true →
  ImplValidatorSet.has_two_thirds_majority (size B) v = true →
  (ImplValidatorSet.size v < 3 * size (A ∩ B))%nat ∧
  (∀ faulty : gset Address, (3 * size faulty < ImplValidatorSet.size v)%nat →
     ∃ a, a ∈ A ∧ a ∈ B ∧ a ∉ faulty) ∧
  ImplValidatorSet.has_two_thirds_majority (ImplValidatorSet.size v) v = true.
Proof.
  intros Hn HA HB QA QB. split_and!.
  - apply (quorums_overlap v); (done || lia).
  - intros faulty Hf. apply (quorums_share_honest v A B); (done || lia).
  - rewrite has_two_thirds_majority_spec by lia. lia.
Qed.

(** The single-precision arithmetic is not exact for every size: with
    12582913 validators [two_thirds_majority] is one more than
    floor(2n/3), so even a set of exactly floor(2n/3) + 1 votes, more than two
    thirds, is refused. *)
Lemma two_thirds_majority_inexact (v : ImplValidatorSet.t) :
  Z.of_nat (ImplValidatorSet.size v) = 12582913 →
  Z.of_nat (ImplValidatorSet.two_thirds_majority v) = 2 * 12582913 / 3 + 1.
Proof.
  unfold ImplValidatorSet.two_thirds_majority, ImplValidatorSet.size, f32_two_thirds, f32_of_usize.
  intros ->. unfold f32_floor_usize.
  set (x := f32_div _ _). vm_compute in x. subst x. cbv iota.
  rewrite Z2Nat.id; vm_compute; congruence.
Qed.

(** ** Proposer rotation *)

Section rotation.
Context `{BigIntLaws}.

Lemma randon_seed_range blh ht vals seed :
  randon_seed blh ht vals = Ret seed → 0 ≤ seed < Z.of_nat (length vals).
Proof.
  unfold randon_seed. destruct (length blh <? 8)%nat; [done|].
  destruct (Nat.eqb_spec (length vals) 0); [done|]. intros [= <-]. apply Z.mod_pos_bound. lia.
Qed.

Lemma fn_selector_Ret blh ht round vals :
  (8 ≤ length blh)%nat → vals ≠ [] → 0 ≤ round →
  round + Z.of_nat (length vals) ≤ u64_bound →
  ∃ seed x, randon_seed blh ht vals = Ret seed ∧
    vals !! Z.to_nat ((seed + round) mod Z.of_nat (length vals)) = Some x ∧
    fn_selector blh ht round vals = Ret x.
Proof.
  intros Hb Hv Hr Hu. unfold fn_selector.
  assert (0 < length vals)%nat as Hlen by (destruct vals; simpl; [done|lia]).
  destruct (randon_seed blh ht vals) as [seed|] eqn:Hs; cycle 1.
  { unfold randon_seed in Hs. destruct (Nat.ltb_spec (length blh) 8); [lia|].
    destruct (Nat.eqb_spec (length vals) 0); [lia|done]. }
  pose proof (randon_seed_range _ _ _ _ Hs) as Hrange.
  destruct (lookup_lt_is_Some_2 vals (Z.to_nat ((seed + round) mod Z.of_nat (length vals))))
    as [x Hx].
  { pose proof (Z.mod_pos_bound (seed + round) (Z.of_nat (length vals))). lia. }
  exists seed, x. split_and!; [done|done|].
  destruct vals as [|v0 vals]; [done|]. simpl.
  rewrite u64_add_fits by (simpl in *; lia). simpl in *. by rewrite Hx.
Qed.

(** Proposer selection is a rotation: for a fixed parent block, rounds [r] and
    [r'] select the same validator exactly when they agree modulo the number
    of validators, so a faulty proposer is replaced by the next round change
    and every validator proposes once in any [n] consecutive rounds.  The
    selection never panics on a hash of 32 bytes. *)
Lemma proposer_rotates (v : ImplValidatorSet.t) (blh : Hash) (ht : Height) (r r' : Round) :
  valset_wf v → ImplValidatorSet.selector v = fn_selector →
  (0 < ImplValidatorSet.size v)%nat → (8 ≤ length blh)%nat →
  0 ≤ r → 0 ≤ r' →
  r + Z.of_nat (ImplValidatorSet.size v) ≤ u64_bound →
  r' + Z.of_nat (ImplValidatorSet.size v) ≤ u64_bound →
  ∃ w w' p p',
    ImplValidatorSet.calc_proposer blh ht r v = Ret w ∧
    ImplValidatorSet.calc_proposer blh ht r' v = Ret w' ∧
    ImplValidatorSet.get_proposer w = Some p ∧ ImplValidatorSet.get_proposer w' = Some p' ∧
    Validator.address p ∈ addresses v ∧
    (p = p' ↔ r mod Z.of_nat (ImplValidatorSet.size v) = r' mod Z.of_nat (ImplValidatorSet.size v)).
Proof.
  intros [_ Hd] Hsel Hn Hb Hr Hr' Hu Hu'. unfold ImplValidatorSet.size in *.
  set (vals := ImplValidatorSet.validators v) in *. set (n := Z.of_nat (length vals)) in *.
  assert (vals ≠ []) as Hne by (destruct vals; simpl in *; [lia|done]).
  destruct (fn_selector_Ret blh ht r vals) as (seed & x & Hs & Hx & Ex); [done..|].
  destruct (fn_selector_Ret blh ht r' vals) as (seed' & x' & Hs' & Hx' & Ex'); [done..|].
  rewrite Hs in Hs'. injection Hs' as <-. fold n in Hx, Hx'.
  unfold ImplValidatorSet.calc_proposer. rewrite Hsel. fold vals. rewrite Ex, Ex'.
  eexists _, _, x, x'. split_and!; try reflexivity.
  { apply list_elem_of_fmap_2. by eapply list_elem_of_lookup_2. }
  pose proof (Z.mod_pos_bound (seed + r) n). pose proof (Z.mod_pos_bound (seed + r') n).
  transitivity ((seed + r) mod n = (seed + r') mod n); [split|split].
  - intros ->. apply Z2Nat.inj; [lia..|]. apply NoDup_fmap_1 in Hd. by eapply NoDup_lookup.
  - intros E. rewrite E in Hx. congruence.
  - intros E. replace r with ((seed + r) - seed) by lia. replace r' with ((seed + r') - seed) by lia.
    by rewrite Zminus_mod, E, <-Zminus_mod.
  - intros E. by rewrite Zplus_mod, E, <-Zplus_mod.
Qed.
End rotation.
