(* ===== verification/Protocol.v ===== *)
(** * Gossip messages ([src/protocol/mod.rs])

    The signed envelope every consensus message travels in, the per-phase
    message table [MessageManage], generic in the [ValidatorSet] trait as in
    the source, and the backlog priority [to_priority]. *)

From S2P Require Import Prelude External Types Validators.

Module GossipMessage.
Record t : Type := mk {
  code : MessageType; create_time : Z; msg : bytes; signature : option Signature;
  commit_seal : option Signature; address : Address }.

Definition set_create_time (tm : Z) (m : t) : t :=
  mk (code m) tm (msg m) (signature m) (commit_seal m) (address m).
Definition set_signature (s : option Signature) (m : t) : t :=
  mk (code m) (create_time m) (msg m) s (commit_seal m) (address m).
Definition set_commit_seal (s : option Signature) (m : t) : t :=
  mk (code m) (create_time m) (msg m) (signature m) s (address m).
Definition set_address (a : Address) (m : t) : t :=
  mk (code m) (create_time m) (msg m) (signature m) (commit_seal m) a.
(** [address] is skipped by serde and comes back as [Address::default()]. *)
Definition wire (m : t) : t := set_address 0 m.

Definition new (code : MessageType) (msg : bytes) (commit_seal : option Signature) : t :=
  mk code 0 msg None commit_seal EMPTY_ADDRESS.
Definition get_sign (m : t) : option Signature := signature m.

Section ops.
Context `{CryptoKit, StorageValue t, CryptoHash t}.

Definition sign_payload (m : t) : bytes := into_bytes (set_signature None m).
Definition sign_digest (m : t) : Hash := hash (sign_payload m).
Definition set_sign (secret : Secret) (m : t) : outcome t :=
  s ← unwrap (hash_sign (sign_digest m) secret);
  mret (set_signature (Some s) m).
Definition set_seal (digest : Hash) (secret : Secret) (m : t) : outcome t :=
  s ← unwrap (hash_sign digest secret);
  mret (set_commit_seal (Some s) m).

(** [address(&mut self)]: recovers the signer and stores it in the field. *)
Definition address_ (m : t) : result Address string * t :=
  match signature m with
  | Some sg =>
      match recover_bytes sg (sign_payload m) with
      | Some public_key =>
          (Ok (public_to_address public_key), set_address (public_to_address public_key) m)
      | None => (Err "failed to recover public key from signature"%string, m)
      end
  | None => (Err "invalid signature"%string, m)
  end.
Definition into_payload (m : t) : bytes := into_bytes m.
Definition eq (a b : t) : bool := bool_decide (crypto_hash a = crypto_hash b).
End ops.
End GossipMessage.

(** ** The message table of a phase *)

Module MessageManage.
Section manage.
Context {V : Type} `{ValidatorSet V}.

Record t : Type := mk { view : View.t; val_set : V; messages : gmap Address GossipMessage.t }.

Definition new (v : View.t) (vs : V) : t := mk v vs ∅.
Definition add_verify_message (m : GossipMessage.t) (mm : t) : result unit string * t :=
  (Ok tt, mk (view mm) (val_set mm) (<[GossipMessage.address m := m]> (messages mm))).
Definition add (m : GossipMessage.t) (mm : t) : result unit string * t :=
  match vs_get_by_address (GossipMessage.address m) (val_set mm) with
  | None => (Err ""%string, mm)
  | Some _ => add_verify_message m mm
  end.
Definition values `{HashMapOrder} (mm : t) : list GossipMessage.t := (hm_iter (messages mm)).*2.
Definition len (mm : t) : nat := size (messages mm).
Definition get_message (a : Address) (mm : t) : option GossipMessage.t := messages mm !! a.
Definition verify (m : GossipMessage.t) (mm : t) : result unit string :=
  match vs_get_by_address (GossipMessage.address m) (val_set mm) with
  | None => Err ""%string
  | Some _ => Ok tt
  end.
End manage.
Arguments t : clear implicits.
End MessageManage.

(** ** Priorities of the backlog *)

Definition to_priority (msg_code : MessageType) (view : View.t) : outcome Z :=
  h ← u64_mul (View.height view) 1000;
  p ← (if decide (msg_code = RoundChange) then mret (as_i64 h)
       else
         a ← u64_add h (View.round view);
         b ← u64_add a 10;
         c ← u64_add b (MessageType_discr msg_code);
         mret (as_i64 c));
  if p =? - 2 ^ 63 then Panic else mret (- p).

(** ** Authentication *)

Section authentication.
Context `{CryptoKitLaws}.
Context `{ML : StorageLaws GossipMessage.t GossipMessage.wire}.

Lemma sign_payload_wire m :
  GossipMessage.sign_payload (GossipMessage.wire m) = GossipMessage.sign_payload m.
Proof using ML. unfold GossipMessage.sign_payload. apply (into_wire (wire := GossipMessage.wire) (GossipMessage.set_signature None m)). Qed.

Lemma sign_payload_signature s m :
  GossipMessage.sign_payload (GossipMessage.set_signature s m) = GossipMessage.sign_payload m.
Proof. done. Qed.

Lemma set_sign_inv secret m m' :
  GossipMessage.set_sign secret m = Ret m' →
  ∃ sg, hash_sign (GossipMessage.sign_digest m) secret = Some sg ∧
    m' = GossipMessage.set_signature (Some sg) m.
Proof.
  unfold GossipMessage.set_sign. destruct (hash_sign _ _) as [sg|]; simpl; [|done].
  intros [= <-]. eauto.
Qed.

Lemma address_signed secret m m' :
  GossipMessage.set_sign secret m = Ret m' →
  GossipMessage.address_ (GossipMessage.wire m') =
    (Ok (secret_address secret), GossipMessage.set_address (secret_address secret) m').
Proof using All.
  intros (sg & Hsg & ->)%set_sign_inv. unfold GossipMessage.address_.
  rewrite sign_payload_wire, sign_payload_signature. simpl.
  destruct (recover_signed _ _ _ Hsg) as (pk & -> & ->). done.
Qed.

(** C25 A message signed by a key, serialised, sent and decoded by the receiver is
    attributed by [GossipMessage::address] to the address of that key, which
    is stored in the field that serde skips; every other field arrives as it
    was sent. *)
Theorem gossip_authenticates (secret : Secret) (m m' : GossipMessage.t) :
  GossipMessage.set_sign secret m = Ret m' →
  ∃ d, from_bytes (GossipMessage.into_payload m') = Some d ∧
    GossipMessage.address_ d =
      (Ok (secret_address secret), GossipMessage.set_address (secret_address secret) m') ∧
    GossipMessage.set_address (GossipMessage.address m) (GossipMessage.set_signature None d) =
      GossipMessage.set_signature None m.
Proof using All.
  intros Hs. exists (GossipMessage.wire m'). split_and!.
  - apply from_into.
  - by eapply address_signed.
  - apply set_sign_inv in Hs as (sg & _ & ->). by destruct m.
Qed.
End authentication.

(** ** The table *)

Section manage_props.
Context {V : Type} `{ValidatorSetLaws V}.

(** Every entry is filed under its sender, and the sender is a validator. *)
Definition manage_wf (mm : MessageManage.t V) : Prop :=
  ∀ a m, MessageManage.messages mm !! a = Some m →
    GossipMessage.address m = a ∧ a ∈ Validator.address <$> vs_list (MessageManage.val_set mm).

Lemma manage_wf_new vw vs : manage_wf (MessageManage.new vw vs).
Proof. intros a m. simpl. by rewrite lookup_empty. Qed.

Lemma manage_add_cases m mm :
  (GossipMessage.address m ∈ Validator.address <$> vs_list (MessageManage.val_set mm) ∧
   MessageManage.add m mm = MessageManage.add_verify_message m mm) ∨
  (GossipMessage.address m ∉ Validator.address <$> vs_list (MessageManage.val_set mm) ∧
   MessageManage.add m mm = (Err ""%string, mm)).
Proof using All.
  unfold MessageManage.add.
  pose proof (vs_get_by_address_list (MessageManage.val_set mm) (GossipMessage.address m)) as Hl.
  destruct (vs_get_by_address _ _); [left|right]; (split; [|done]).
  - by apply Hl.
  - intros Ha. apply Hl in Ha as [? ?]. done.
Qed.

Lemma manage_add_wf m mm : manage_wf mm → manage_wf (MessageManage.add m mm).2.
Proof using All.
  intros Hwf. destruct (manage_add_cases m mm) as [[Ha ->]|[Ha ->]]; simpl; [|done].
  intros a m'. simpl. rewrite lookup_insert_Some. intros [[<- <-]|[? Hm]]; [done|by apply Hwf].
Qed.

Lemma manage_add_val_set m mm :
  MessageManage.val_set (MessageManage.add m mm).2 = MessageManage.val_set mm.
Proof using All. by destruct (manage_add_cases m mm) as [[Ha ->]|[Ha ->]]. Qed.

Lemma manage_len_bound mm :
  manage_wf mm → (MessageManage.len mm ≤ vs_size (MessageManage.val_set mm))%nat.
Proof using All.
  intros Hwf. rewrite vs_size_list.
  rewrite <-(length_fmap Validator.address (vs_list (MessageManage.val_set mm))).
  unfold MessageManage.len. rewrite <-size_dom. apply set_size_le_length.
  intros a [m Hm]%elem_of_dom. by destruct (Hwf a m Hm).
Qed.

Lemma manage_add_len m mm :
  (MessageManage.len mm ≤ MessageManage.len (MessageManage.add m mm).2 ≤ S (MessageManage.len mm))%nat.
Proof using All.
  destruct (manage_add_cases m mm) as [[Ha ->]|[Ha ->]]; simpl; [|lia].
  unfold MessageManage.len. simpl. rewrite map_size_insert. destruct (_ !! _); simpl; lia.
Qed.

(** [MessageManage::add] keeps one message per validator: a message from
    outside the set is refused and changes nothing, one from a validator
    replaces that validator's earlier message and no other, so the number of
    votes [len] never exceeds the number of validators. *)
Lemma message_manage_add (m : GossipMessage.t) (mm mm' : MessageManage.t V) (r : result unit string) :
  manage_wf mm → MessageManage.add m mm = (r, mm') →
  manage_wf mm' ∧ (MessageManage.len mm' ≤ vs_size (MessageManage.val_set mm'))%nat ∧
  (is_ok r = true ↔
    GossipMessage.address m ∈ Validator.address <$> vs_list (MessageManage.val_set mm)) ∧
  ∀ a, MessageManage.get_message a mm' =
    if is_ok r && (a =? GossipMessage.address m) then Some m else MessageManage.get_message a mm.
Proof using All.
  intros Hwf E. assert (mm' = (MessageManage.add m mm).2) as -> by by rewrite E.
  pose proof (manage_add_wf m mm Hwf). split; [done|]. split; [by apply manage_len_bound|].
  destruct (manage_add_cases m mm) as [[Ha E']|[Ha E']]; rewrite E' in E |- *;
    injection E as <-; simpl; (split; [by split|]); [|done].
  intros a. unfold MessageManage.get_message. simpl. rewrite lookup_insert.
  destruct (Z.eqb_spec a (GossipMessage.address m)); case_decide; congruence.
Qed.
End manage_props.

(** ** Priorities *)

Lemma to_priority_value code vw :
  0 ≤ View.height vw → 0 ≤ View.round vw < 980 → View.height vw * 1000 + 1000 < 2 ^ 63 →
  to_priority code vw = Ret (- (View.height vw * 1000 +
    if decide (code = RoundChange) then 0 else View.round vw + 10 + MessageType_discr code)).
Proof.
  intros Hh Hr Hb. unfold to_priority, u64_mul.
  assert (MessageType_discr code ≤ 4 ∧ 1 ≤ MessageType_discr code) as [? ?] by by destruct code.
  assert (View.height vw * 1000 + 1000 < u64_bound) by (unfold u64_bound; lia).
  destruct (Z.ltb_spec (View.height vw * 1000) u64_bound); [|lia]. simpl.
  case_decide; simpl.
  - rewrite as_i64_small by lia.
    destruct (Z.eqb_spec (View.height vw * 1000) (- 2 ^ 63)); [lia|]. do 2 f_equal. lia.
  - rewrite u64_add_fits by lia. simpl. rewrite u64_add_fits by lia. simpl.
    rewrite u64_add_fits by lia. simpl. rewrite as_i64_small by lia.
    case_match eqn:E; [apply Z.eqb_eq in E; lia|]. do 2 f_equal. lia.
Qed.

(** The backlog's priority puts lower heights first, the round change of a
    height before its other messages, and then lower rounds and earlier
    phases: for rounds below 980 (beyond that rounds run into the next
    height) and heights whose priority fits [i64], a smaller height always
    gives a strictly larger priority. *)
Lemma to_priority_order (c1 c2 : MessageType) (v1 v2 : View.t) :
  0 ≤ View.height v1 → 0 ≤ View.height v2 →
  0 ≤ View.round v1 < 980 → 0 ≤ View.round v2 < 980 →
  View.height v1 * 1000 + 1000 < 2 ^ 63 → View.height v2 * 1000 + 1000 < 2 ^ 63 →
  ∃ p1 p2, to_priority c1 v1 = Ret p1 ∧ to_priority c2 v2 = Ret p2 ∧
    (View.height v1 < View.height v2 → p2 < p1) ∧
    (View.height v1 = View.height v2 → c1 = RoundChange → c2 ≠ RoundChange → p2 < p1) ∧
    (v1 = v2 → c1 ≠ RoundChange → c2 ≠ RoundChange → MessageType_lt c1 c2 = true → p2 < p1).
Proof.
  intros. rewrite !to_priority_value by done. eexists _, _. split_and!; [done..| | |].
  - intros. assert (∀ c, 1 ≤ MessageType_discr c ≤ 4) as Hd by (intros []; simpl; lia).
    pose proof (Hd c1). pose proof (Hd c2). repeat case_decide; lia.
  - intros. 
    assert (1 ≤ MessageType_discr c2) by (by destruct c2; simpl; lia). do 2 case_decide; (done || lia).
  - intros -> ? ? Hlt%Z.ltb_lt. rewrite !decide_False by done. lia.
Qed.
