(* ===== verification/Wire.v ===== *)
(** * Encodings of the program's types

    One class gathers the encodings that the macros
    [implement_storagevalue_traits!] and [implement_cryptohash_traits!]
    derive for the types of the program, and the keys of the store; its laws
    say that decoding inverts encoding up to the fields serde skips. *)

From S2P Require Import Prelude External Types Validators Protocol.

Class Codec : Type := {
  codec_u64 :: StorageValue Z;
  codec_hash :: StorageValue Hash;
  codec_header :: StorageValue Header.t;
  codec_transaction :: StorageValue Transaction.t;
  codec_transaction_signature :: StorageValue TransactionSignature.t;
  codec_hashes_entry :: StorageValue (list Hash);
  codec_validator_array :: StorageValue ValidatorArray.t;
  codec_blocks :: StorageValue (list Block.t);
  codec_subject :: StorageValue Subject.t;
  codec_preprepare :: StorageValue PrePrepare.t;
  codec_gossip :: StorageValue GossipMessage.t;
  header_crypto_hash :: CryptoHash Header.t;
  gossip_crypto_hash :: CryptoHash GossipMessage.t;
  key_u64 :: StorageKey Z;
  key_hash :: StorageKey Hash;
  key_zero :: StorageKey Zero
}.

Class CodecLaws `{Codec} : Prop := {
  codec_u64_laws :: StorageLaws Z (λ x, x);
  codec_hash_laws :: StorageLaws Hash (λ x, x);
  codec_header_laws :: StorageLaws Header.t Header.wire;
  codec_transaction_laws :: StorageLaws Transaction.t Transaction.wire;
  codec_transaction_signature_laws :: StorageLaws TransactionSignature.t (λ x, x);
  codec_hashes_entry_laws :: StorageLaws (list Hash) (λ x, x);
  codec_validator_array_laws :: StorageLaws ValidatorArray.t (λ x, x);
  codec_blocks_laws :: StorageLaws (list Block.t) (fmap Block.wire);
  codec_subject_laws :: StorageLaws Subject.t (λ x, x);
  codec_preprepare_laws :: StorageLaws PrePrepare.t PrePrepare.wire;
  codec_gossip_laws :: StorageLaws GossipMessage.t GossipMessage.wire;
  header_hash_laws :: CryptoHashLaws Header.t Header.wire;
  gossip_hash_laws :: CryptoHashLaws GossipMessage.t GossipMessage.wire;
  key_laws :: StorageKeyLaws
}.
