(* ===== verification/RoundState.v ===== *)
(** * The state of a round ([pbft/core/round_state.rs], [pbft/core/round_change_set.rs])

    [RoundState] holds the proposal, the prepare and commit votes and the
    lock of the current round; [RoundChangeSet] holds the round-change votes
    of the current height, one message table per requested round. *)

From S2P Require Import Prelude External Types Validators Protocol.

Abbreviation MsgTable := (MessageManage.t ImplValidatorSet.t).

Module RoundState.
Record t : Type := mk {
  round : Round; height : Height; preprepare : option PrePrepare.t;
  prepares : MsgTable; commits : MsgTable;
  pending_request : option Request.t; lock : option Hash }.

Definition set_preprepare (p : PrePrepare.t) (s : t) : t :=
  mk (round s) (height s) (Some p) (prepares s) (commits s) (pending_request s) (lock s).
Definition set_prepares (m : MsgTable) (s : t) : t :=
  mk (round s) (height s) (preprepare s) m (commits s) (pending_request s) (lock s).
Definition set_commits (m : MsgTable) (s : t) : t :=
  mk (round s) (height s) (preprepare s) (prepares s) m (pending_request s) (lock s).
Definition set_pending_request (r : option Request.t) (s : t) : t :=
  mk (round s) (height s) (preprepare s) (prepares s) (commits s) r (lock s).
Definition set_lock (l : option Hash) (s : t) : t :=
  mk (round s) (height s) (preprepare s) (prepares s) (commits s) (pending_request s) l.
Definition set_round (r : Round) (s : t) : t :=
  mk r (height s) (preprepare s) (prepares s) (commits s) (pending_request s) (lock s).
Definition set_height (h : Height) (s : t) : t :=
  mk (round s) h (preprepare s) (prepares s) (commits s) (pending_request s) (lock s).

Definition new_round_state (view : View.t) (vals : ImplValidatorSet.t) (lock_hash : option Hash)
    (preprepare : option PrePrepare.t) (pending_request : option Request.t) : t :=
  mk (View.round view) (View.height view) preprepare (MessageManage.new view vals)
     (MessageManage.new view vals) pending_request lock_hash.

(** Prepare and commit votes together, a sender of both counted once. *)
Definition get_prepare_or_commit_size `{HashMapOrder} (s : t) : nat :=
  foldl (λ result message,
           match MessageManage.get_message (GossipMessage.address message) (commits s) with
           | Some _ => (result - 1)%nat
           | None => result
           end)
        (MessageManage.len (prepares s) + MessageManage.len (commits s))%nat
        (MessageManage.values (prepares s)).

Section hashes.
Context `{CryptoHash Header.t}.

Definition proposal (s : t) : option Proposal.t :=
  match preprepare s with None => None | Some p => Some (PrePrepare.proposal p) end.
Definition subject (s : t) : option Subject.t :=
  match preprepare s with
  | None => None
  | Some p => Some (Subject.mk (View.mk (round s) (height s))
                      (Block.hash (Proposal.block (PrePrepare.proposal p))))
  end.
Definition is_locked (s : t) : bool := bool_decide (is_Some (lock s)).
Definition lock_hash (s : t) : t :=
  match preprepare s with
  | None => s
  | Some p => set_lock (Some (Block.hash (Proposal.block (PrePrepare.proposal p)))) s
  end.
Definition unlock_hash (s : t) : t := set_lock None s.
Definition get_lock_hash (s : t) : option Hash := lock s.
End hashes.
End RoundState.

Module RoundChangeSet.
Record t : Type := mk {
  validator_set : ImplValidatorSet.t; round_changes : gmap Z MsgTable;
  pre_rc_sign_bytes : option (list bytes) }.

Definition new (validators : ImplValidatorSet.t) (pre : option (list bytes)) : t :=
  mk validators ∅ pre.

(** The entry for [round] is created before the message is checked, and
    stays when it is refused. *)
Definition add (round : Round) (msg : GossipMessage.t) (s : t) : result nat string * t :=
  let msg_manager :=
    match round_changes s !! round with
    | Some mm => mm
    | None => MessageManage.new View.default (validator_set s)
    end in
  let '(r, mm) := MessageManage.add msg msg_manager in
  let s' := mk (validator_set s) (<[round := mm]> (round_changes s)) (pre_rc_sign_bytes s) in
  match r with
  | Err e => (Err e, s')
  | Ok _ => (Ok (MessageManage.len mm), s')
  end.
Definition round_change_set (round : Round) (s : t) : option MsgTable := round_changes s !! round.
Definition clear (round : Round) (s : t) : t :=
  mk (validator_set s)
     (filter (λ p, (0 < MessageManage.len p.2)%nat ∧ p.1 < round) (round_changes s))
     (pre_rc_sign_bytes s).

Section order.
Context `{HashMapOrder}.

(** [max_by] over the entries: a later maximum replaces an earlier one. *)
Definition max_by_round (l : list (Z * MsgTable)) : option Z :=
  foldl (λ acc p, match acc with
                  | None => Some p.1
                  | Some r => if r <=? p.1 then Some p.1 else Some r
                  end) None l.
Definition max_round_more_than_n (num : nat) (s : t) : outcome (option Round) :=
  match max_by_round (hm_iter (round_changes s)) with
  | None => mret None
  | Some round =>
      mm ← unwrap (round_changes s !! round);
      mret (if (num <=? MessageManage.len mm)%nat then Some round else None)
  end.
Definition max_round_step (acc : Z * nat) (p : Z * MsgTable) : Z * nat :=
  if (acc.2 <=? MessageManage.len p.2)%nat && (acc.1 <? p.1)
  then (p.1, MessageManage.len p.2) else acc.
Definition max_round (s : t) : Round :=
  (foldl max_round_step (0, O) (hm_iter (round_changes s))).1.
End order.
End RoundChangeSet.

(** ** Votes of a round *)

Section round_state_props.
Context `{HashMapOrderLaws}.

Lemma foldl_pred_count {A} (g : nat → A → nat) (f : A → bool) (l : list A) (n : nat) :
  (∀ r x, g r x = if f x then (r - 1)%nat else r) →
  foldl g n l = (n - length (filter f l))%nat.
Proof.
  intros Hg. revert n. induction l as [|x l IH]; intros n; [simpl; lia|].
  rewrite filter_cons. simpl. rewrite IH, Hg. destruct (f x); simpl; lia.
Qed.

Lemma filter_values_length (m1 : gmap Address GossipMessage.t) (X : gset Address) :
  (∀ a m, m1 !! a = Some m → GossipMessage.address m = a) →
  length (filter (λ m, GossipMessage.address m ∈ X) (map_to_list m1).*2) = size (dom m1 ∩ X).
Proof.
  revert X. induction m1 as [|a m m1 Hna IH] using map_ind; intros X Hk.
  { rewrite map_to_list_empty, dom_empty_L, intersection_empty_l_L, size_empty. done. }
  rewrite map_to_list_insert, dom_insert_L by done. simpl. rewrite filter_cons.
  assert (GossipMessage.address m = a) as -> by (apply Hk; by rewrite lookup_insert_eq).
  assert (∀ a m, m1 !! a = Some m → GossipMessage.address m = a) as Hk'.
  { intros a' m' Hm'. apply Hk. rewrite lookup_insert_ne; [done|]. by intros ->; rewrite Hna in Hm'. }
  case_decide as Ha; simpl; rewrite IH by done.
  - replace (({[a]} ∪ dom m1) ∩ X) with ({[a]} ∪ (dom m1 ∩ X)) by set_solver.
    rewrite (size_union {[a]}), size_singleton; [done|]. apply disjoint_singleton_l.
    apply not_elem_of_dom in Hna. set_solver.
  - by replace (({[a]} ∪ dom m1) ∩ X) with (dom m1 ∩ X) by set_solver.
Qed.

Definition voters (mm : MsgTable) : gset Address := dom (MessageManage.messages mm).

Lemma prepare_or_commit_size_eq s :
  manage_wf (RoundState.prepares s) →
  RoundState.get_prepare_or_commit_size s =
    size (voters (RoundState.prepares s) ∪ voters (RoundState.commits s)).
Proof using All.
  intros Hwf. unfold RoundState.get_prepare_or_commit_size.
  set (f := λ m, bool_decide (GossipMessage.address m ∈ voters (RoundState.commits s))).
  rewrite (foldl_pred_count _ f); cycle 1.
  { intros r m. unfold f, voters, MessageManage.get_message.
    case_bool_decide as Hd; [|by apply not_elem_of_dom in Hd as ->].
    by apply elem_of_dom in Hd as [? ->]. }
  unfold MessageManage.values, MessageManage.len.
  rewrite hm_iter_perm.
  rewrite <-!size_dom. fold (voters (RoundState.prepares s)) (voters (RoundState.commits s)).
  replace (length (filter f _)) with
    (size (voters (RoundState.prepares s) ∩ voters (RoundState.commits s))); cycle 1.
  { unfold voters. rewrite <-filter_values_length by (intros; by eapply Hwf).
    f_equal. apply list_filter_iff. intros m. unfold f. by rewrite bool_decide_spec. }
  pose proof (size_union_alt (voters (RoundState.prepares s)) (voters (RoundState.commits s))) as Hu.
  assert (size (voters (RoundState.commits s)) =
    size (voters (RoundState.commits s) ∖ voters (RoundState.prepares s)) +
    size (voters (RoundState.prepares s) ∩ voters (RoundState.commits s)))%nat; [|lia].
  rewrite <-size_union by set_solver. f_equal. apply set_eq. intros x.
  destruct (decide (x ∈ voters (RoundState.prepares s))); set_solver.
Qed.
End round_state_props.

(** C39 [get_prepare_or_commit_size] counts the distinct validators that sent a
    prepare or a commit for this round, whatever order the table is walked
    in, and so never more than there are validators. *)
Theorem prepare_or_commit_size_counts `{HashMapOrderLaws} (s : RoundState.t) :
  manage_wf (RoundState.prepares s) → manage_wf (RoundState.commits s) →
  MessageManage.val_set (RoundState.commits s) = MessageManage.val_set (RoundState.prepares s) →
  RoundState.get_prepare_or_commit_size s =
    size (voters (RoundState.prepares s) ∪ voters (RoundState.commits s)) ∧
  (RoundState.get_prepare_or_commit_size s ≤
    ImplValidatorSet.size (MessageManage.val_set (RoundState.prepares s)))%nat.
Proof.
  intros Hp Hc Hv. rewrite prepare_or_commit_size_eq by done. split; [done|].
  unfold ImplValidatorSet.size. rewrite <-(length_fmap Validator.address). unfold voters. apply set_size_le_length.
  intros a [[m Hm]%elem_of_dom|[m Hm]%elem_of_dom]%elem_of_union.
  - by destruct (Hp a m Hm).
  - destruct (Hc a m Hm) as [_ Ha]. by rewrite Hv in Ha.
Qed.

(** ** Round changes *)

(** Every vote for a round is signed and filed under its sender, a validator. *)
Definition rcs_wf (s : RoundChangeSet.t) : Prop :=
  ∀ r mm, RoundChangeSet.round_changes s !! r = Some mm →
    manage_wf mm ∧ MessageManage.val_set mm = RoundChangeSet.validator_set s ∧
    ∀ a m, MessageManage.messages mm !! a = Some m → is_Some (GossipMessage.signature m).

Lemma rcs_wf_new v pre : rcs_wf (RoundChangeSet.new v pre).
Proof. intros r mm. simpl. by rewrite lookup_empty. Qed.

Lemma rcs_add_validator_set r m s :
  RoundChangeSet.validator_set (RoundChangeSet.add r m s).2 = RoundChangeSet.validator_set s.
Proof. unfold RoundChangeSet.add. destruct (MessageManage.add _ _) as [[] ?]; done. Qed.

Lemma rcs_add_wf r m s :
  rcs_wf s → is_Some (GossipMessage.signature m) → rcs_wf (RoundChangeSet.add r m s).2.
Proof.
  intros Hwf Hm.
  set (mm := match RoundChangeSet.round_changes s !! r with
             | Some mm => mm
             | None => MessageManage.new View.default (RoundChangeSet.validator_set s) end).
  assert (manage_wf mm ∧ MessageManage.val_set mm = RoundChangeSet.validator_set s ∧
    ∀ a x, MessageManage.messages mm !! a = Some x → is_Some (GossipMessage.signature x)) as (Hmm & Hv & Hs).
  { unfold mm. destruct (_ !! r) eqn:E; [by eapply Hwf|]. split; [apply manage_wf_new|done]. }
  intros r' mm'. rewrite rcs_add_validator_set. unfold RoundChangeSet.add. fold mm.
  pose proof (manage_add_wf m mm Hmm) as Hwf'. pose proof (manage_add_val_set m mm) as Hv'.
  assert (∀ a x, MessageManage.messages (MessageManage.add m mm).2 !! a = Some x →
    is_Some (GossipMessage.signature x)) as Hs'.
  { intros a x. destruct (manage_add_cases m mm) as [[Ha ->]|[Ha ->]]; simpl; [|apply Hs].
    rewrite lookup_insert_Some. intros [[_ <-]|[_ ?]]; [done|by eapply Hs]. }
  destruct (MessageManage.add m mm) as [[[]|e] mm1]; simpl in *;
    rewrite lookup_insert_Some; intros [[<- <-]|[? Hin]]; try (by eapply Hwf);
    (split_and!; [done|congruence|done]).
Qed.

(** The messages counted for a round. *)
Definition rc_votes (r : Round) (s : RoundChangeSet.t) : nat :=
  match RoundChangeSet.round_changes s !! r with Some mm => MessageManage.len mm | None => O end.

Lemma rcs_add_Ok r m s n s' :
  RoundChangeSet.add r m s = (Ok n, s') → n = rc_votes r s'.
Proof.
  unfold RoundChangeSet.add, rc_votes. destruct (MessageManage.add _ _) as [[[]|e] mm]; [|done].
  intros [= <- <-]. simpl. by rewrite lookup_insert_eq.
Qed.

Lemma rc_votes_bound r s :
  rcs_wf s → (rc_votes r s ≤ ImplValidatorSet.size (RoundChangeSet.validator_set s))%nat.
Proof.
  intros Hwf. unfold rc_votes. destruct (_ !! r) as [mm|] eqn:E; [|lia].
  destruct (Hwf _ _ E) as (Hmm & <- & _). exact (manage_len_bound mm Hmm).
Qed.

(** [RoundChangeSet::add] counts round-change votes: on success it returns the
    number of validators that asked for that round, at most the number of
    validators; it never loses a vote and touches the table of no other
    round. *)
Lemma round_change_add (r : Round) (m : GossipMessage.t) (s s' : RoundChangeSet.t)
    (res : result nat string) :
  rcs_wf s → is_Some (GossipMessage.signature m) → RoundChangeSet.add r m s = (res, s') →
  rcs_wf s' ∧
  (match res with
   | Ok n => n = rc_votes r s' ∧ GossipMessage.address m ∈ addresses (RoundChangeSet.validator_set s)
   | Err _ => GossipMessage.address m ∉ addresses (RoundChangeSet.validator_set s)
   end) ∧
  (rc_votes r s ≤ rc_votes r s' ≤ ImplValidatorSet.size (RoundChangeSet.validator_set s))%nat ∧
  ∀ r', r' ≠ r → RoundChangeSet.round_change_set r' s' = RoundChangeSet.round_change_set r' s.
Proof.
  intros Hwf Hm E. pose proof (rcs_add_wf r m s Hwf Hm) as Hwf'. pose proof (rcs_add_validator_set r m s) as Hvs.
  rewrite E in Hwf', Hvs. simpl in Hwf', Hvs. pose proof (rc_votes_bound r s' Hwf') as Hb.
  rewrite Hvs in Hb. split; [done|].
  unfold RoundChangeSet.add in E.
  set (mm := match RoundChangeSet.round_changes s !! r with Some mm => mm | None => _ end) in E.
  assert (MessageManage.val_set mm = RoundChangeSet.validator_set s) as Hv.
  { unfold mm. destruct (_ !! r) eqn:Er; [by eapply Hwf|done]. }
  assert (MessageManage.len mm = rc_votes r s) as Hlen.
  { unfold mm, rc_votes. by destruct (_ !! r). }
  pose proof (manage_add_len m mm) as Hl.
  assert (rc_votes r s' = MessageManage.len (MessageManage.add m mm).2 ∧
    ∀ r', r' ≠ r → RoundChangeSet.round_change_set r' s' = RoundChangeSet.round_change_set r' s)
    as [Hvotes Hframe].
  { destruct (MessageManage.add m mm) as [[[]|e] mm']; injection E as <- <-;
      unfold rc_votes, RoundChangeSet.round_change_set; simpl;
      (split; [by rewrite lookup_insert_eq|]); intros; by rewrite lookup_insert_ne. }
  split_and!; [|lia|lia|done].
  destruct (manage_add_cases m mm) as [[Ha Em]|[Ha Em]]; rewrite Em in E; simpl in E;
    injection E as <- <-; rewrite Hv in Ha; [|done]. split; [by rewrite Hvotes, Em|done].
Qed.

(** ** The round to ask for *)

Section max_round.
Context `{HashMapOrderLaws}.

Lemma max_round_fold_spec (l : list (Z * MsgTable)) (acc : Z * nat) :
  let r := foldl RoundChangeSet.max_round_step acc l in
  acc.1 ≤ r.1 ∧ (r.1 = acc.1 ∨ ∃ mm, (r.1, mm) ∈ l) ∧
  (acc.2 = O → acc.1 = 0 → r.1 = 0 → ∀ k mm, (k, mm) ∈ l → k ≤ 0).
Proof.
  cbv zeta. revert acc. induction l as [|[k mm] l IH]; intros [a n]; cbn [foldl].
  { split_and!; [simpl; lia|by left|]. intros _ _ _ k mm Hin. set_solver. }
  destruct (IH (RoundChangeSet.max_round_step (a, n) (k, mm))) as (I1 & I2 & I3). clear IH.
  set (r := foldl _ _ l) in *. unfold RoundChangeSet.max_round_step in *. simpl in *.
  destruct (Nat.leb_spec n (MessageManage.len mm)), (Z.ltb_spec a k); simpl in *;
    (split_and!;
      [lia
      |destruct I2 as [E|[m' Hm]]; [rewrite E; first [by left|right; exists mm; by left]
                                   |right; exists m'; by right]
      |]); intros -> -> Hz k' mm' [[= -> ->]|Hin]%elem_of_cons;
    try lia; eauto.
Qed.

(** The round a validator asks for when its timer fires is never below the
    current one: [max_round] is [0] exactly when no positive round has a
    table, and otherwise some round that was asked for. *)
Lemma max_round_spec (s : RoundChangeSet.t) :
  (RoundChangeSet.max_round s = 0 ∧
    ∀ k, is_Some (RoundChangeSet.round_changes s !! k) → k ≤ 0) ∨
  (0 < RoundChangeSet.max_round s ∧
    is_Some (RoundChangeSet.round_changes s !! RoundChangeSet.max_round s)).
Proof using All.
  unfold RoundChangeSet.max_round.
  destruct (max_round_fold_spec (hm_iter (RoundChangeSet.round_changes s)) (0, O)) as (I1 & I2 & I3).
  simpl in *. set (r := (foldl _ _ _).1) in *. destruct (decide (r = 0)) as [E|E]; [left|right].
  - split; [done|]. intros k [mm Hk]. apply (I3 eq_refl eq_refl E k mm). by apply hm_iter_elem.
  - split; [lia|]. destruct I2 as [?|[mm Hm%hm_iter_elem]]; [done|by eexists].
Qed.
End max_round.
