(* ===== verification/Store.v ===== *)
(** * The key-value store ([src/store/])

    [BaseIndex] maps an index name and a key to a database key; [Entry],
    [MapIndex] and [ListIndex] are built on it and [Schema] names the indices
    of the chain.  The database is shared by all of them ([Arc<Database>]),
    so it is the state every operation threads. *)

From S2P Require Import Prelude External Types.

(** [str::as_bytes] *)
Definition as_bytes (s : string) : bytes :=
  (λ c, Z.of_N (Ascii.N_of_ascii c)) <$> String.list_ascii_of_string s.

Inductive IndexType : Type :=
| IEntry | IKeySet | IList | ISparseList | IMap | IProofList | IProofMap | IValueSet.

Definition IndexType_from (num : Z) : outcome IndexType :=
  match num with
  | 0 => mret IEntry | 1 => mret IKeySet | 2 => mret IList | 3 => mret ISparseList
  | 4 => mret IMap | 5 => mret IProofList | 6 => mret IProofMap | 7 => mret IValueSet
  | _ => Panic
  end.

Module BaseIndex.
Record t : Type := mk { name : string; index_id : option bytes; index_type : IndexType }.

Definition new (index_name : string) (ty : IndexType) : t := mk index_name None ty.

(** [prefix_key[name_len..index_len].copy_from_slice(id)] panics when the
    range is empty from the wrong side or its length is not that of [id]. *)
Definition prefix_key (key : bytes) (b : t) : outcome bytes :=
  let n := as_bytes (name b) in
  match index_id b with
  | None => mret (n ++ key)
  | Some id =>
      if (length n <=? length id)%nat && (length id - length n =? length id)%nat
      then mret (n ++ id ++ key) else Panic
  end.

Section ops.
Context {DB : Type} `{Database DB}.

Definition get {K V : Type} `{StorageKey K, StorageValue V} (key : K) (b : t) :
    M DB (option V) :=
  k ← lift (prefix_key (key_bytes key) b);
  value ← gets (db_get k);
  match value with
  | Some v => x ← lift (unwrap (from_bytes v)); mret (Some x)
  | None => mret None
  end.
Definition contains {K : Type} `{StorageKey K} (key : K) (b : t) : M DB bool :=
  k ← lift (prefix_key (key_bytes key) b);
  value ← gets (db_get k);
  mret (bool_decide (is_Some value)).
Definition put {K V : Type} `{StorageKey K, StorageValue V} (key : K) (value : V) (b : t) :
    M DB unit :=
  k ← lift (prefix_key (key_bytes key) b);
  modify (db_put k (into_bytes value)).
Definition remove {K : Type} `{StorageKey K} (key : K) (b : t) : M DB unit :=
  k ← lift (prefix_key (key_bytes key) b);
  modify (db_delete k).
(** One transaction that deletes every key the iterator returns. *)
Definition clear (b : t) : M DB unit :=
  prefix ← lift (prefix_key [] b);
  modify (λ db, foldl (λ d item, db_delete item.1 d) db (db_iter_from_prefix prefix db)).

(** A transaction of the database: its writes in order, applied together
    by [put_transaction].  The methods above build one with a single write, or
    with the deletions. *)
Inductive DBOp : Type := Insert (key value : bytes) | Delete (key : bytes).
Definition apply_op (d : DB) (op : DBOp) : DB :=
  match op with Insert k v => db_put k v d | Delete k => db_delete k d end.
Definition transaction (b : t) : list DBOp := [].
Definition put_transaction (tx : list DBOp) (b : t) : M DB unit :=
  modify (λ db, foldl apply_op db tx).

Lemma put_is_transaction {K V : Type} `{StorageKey K, StorageValue V} (key : K) (value : V) (b : t) (d : DB) :
  put key value b d = (k ← lift (prefix_key (key_bytes key) b);
    put_transaction (transaction b ++ [Insert k (into_bytes value)]) b) d.
Proof. unfold put, put_transaction. simpl. unfold mbind, M_mbind, M_bind, lift. by destruct (prefix_key _ b). Qed.

(** [BaseIndexIter]: ends at the first key that does not start with the
    prefix; what is left of the key after [base_prefix_len] bytes is read. *)
Fixpoint iter_next {K V : Type} `{StorageKey K, StorageValue V} (base_prefix_len : nat)
    (id : bytes) (l : list (bytes * bytes)) : outcome (list (K * V)) :=
  match l with
  | [] => mret []
  | (k, v) :: l' =>
      if bool_decide (id `prefix_of` k) then
        k' ← unwrap (key_read (drop base_prefix_len k));
        v' ← unwrap (from_bytes v);
        rest ← iter_next base_prefix_len id l';
        mret ((k', v') :: rest)
      else mret []
  end.
Definition iter {K V : Type} `{StorageKey K, StorageValue V} (subprefix : bytes) (b : t) :
    M DB (list (K * V)) :=
  iter_prefix ← lift (prefix_key subprefix b);
  items ← gets (db_iter_from_prefix iter_prefix);
  lift (iter_next (length (as_bytes (name b)) +
                   match index_id b with Some p => length p | None => O end)
          iter_prefix items).
Definition iter_from {K V : Type} `{StorageKey K, StorageValue V} (subprefix from : bytes) (b : t) :
    M DB (list (K * V)) :=
  prefix_buf ← lift (prefix_key subprefix b);
  items ← gets (db_iter_from_prefix (prefix_buf ++ from));
  lift (iter_next (length prefix_buf) prefix_buf items).
End ops.
End BaseIndex.

Module Entry.
Section ops.
Context {DB : Type} `{Database DB, StorageKey Zero} {V : Type} `{StorageValue V, CryptoHash V}.
Definition new (index_name : string) : BaseIndex.t := BaseIndex.new index_name IEntry.
Definition get (e : BaseIndex.t) : M DB (option V) := BaseIndex.get zero e.
Definition exists_ (e : BaseIndex.t) : M DB bool := BaseIndex.contains zero e.
(** [unwrap_or_default]: the default hash is zero. *)
Definition hash (e : BaseIndex.t) : M DB Hash :=
  v ← get e; mret (match v with Some v => crypto_hash v | None => EMPTY_HASH end).
Definition set (value : V) (e : BaseIndex.t) : M DB unit := BaseIndex.put zero value e.
Definition remove (e : BaseIndex.t) : M DB unit := BaseIndex.remove zero e.
Definition take (e : BaseIndex.t) : M DB (option V) :=
  value ← get e;
  when (bool_decide (is_Some value)) (remove e);; mret value.
Definition swap (value : V) (e : BaseIndex.t) : M DB (option V) :=
  pre_value ← get e; set value e;; mret pre_value.
End ops.
End Entry.

Module MapIndex.
Section ops.
Context {DB : Type} `{Database DB} {K V : Type} `{StorageKey K, StorageValue V}.
Definition new (index_name : string) : BaseIndex.t := BaseIndex.new index_name IMap.
Definition get (key : K) (m : BaseIndex.t) : M DB (option V) := BaseIndex.get key m.
Definition contains (key : K) (m : BaseIndex.t) : M DB bool := BaseIndex.contains key m.
Definition iter (m : BaseIndex.t) : M DB (list (K * V)) := BaseIndex.iter [] m.
(** [MapIndexKeys] goes over the entries with values read as [Zero],
    [MapIndexValues] with keys read as [Zero]; each drops that half. *)
Definition keys `{StorageValue Zero} (m : BaseIndex.t) : M DB (list K) :=
  l ← BaseIndex.iter (K := K) (V := Zero) [] m; mret (l.*1).
Definition values `{StorageKey Zero} (m : BaseIndex.t) : M DB (list V) :=
  l ← BaseIndex.iter (K := Zero) (V := V) [] m; mret (l.*2).
Definition put (key : K) (value : V) (m : BaseIndex.t) : M DB unit := BaseIndex.put key value m.
Definition remove (key : K) (m : BaseIndex.t) : M DB unit := BaseIndex.remove key m.
Definition clear (m : BaseIndex.t) : M DB unit := BaseIndex.clear m.
End ops.
End MapIndex.

(** [ListIndex] caches its length in a [Cell], so its state is the index and
    the database. *)
Module ListIndex.
Record t : Type := mk { base : BaseIndex.t; length_ : option Z }.
Definition new (index_name : string) : t := mk (BaseIndex.new index_name IList) None.

Section ops.
Context {DB : Type} `{Database DB, StorageKey Z, StorageKey Zero, StorageValue Z}.
Context {V : Type} `{StorageValue V}.

Definition on_base {A : Type} (f : BaseIndex.t → M DB A) : M (t * DB) A :=
  λ s, match f (base s.1) s.2 with Ret (a, db) => Ret (a, (s.1, db)) | Panic => Panic end.
Definition set_cell (len : Z) : M (t * DB) unit :=
  modify (λ s, (mk (base s.1) (Some len), s.2)).

Definition get (index : Z) : M (t * DB) (option V) := on_base (BaseIndex.get index).
Definition len : M (t * DB) Z :=
  cell ← gets (λ s, length_ s.1);
  match cell with
  | Some len => mret len
  | None =>
      stored ← on_base (BaseIndex.get zero);
      let len := match stored with Some n => n | None => 0 end in
      set_cell len;; mret len
  end.
Definition last : M (t * DB) (option V) :=
  l ← len; if l =? 0 then mret None else get (l - 1).
Definition is_empty : M (t * DB) bool := l ← len; mret (l =? 0).
Definition set_len (len : Z) : M (t * DB) unit :=
  on_base (BaseIndex.put zero len);; set_cell len.
Definition push (value : V) : M (t * DB) unit :=
  l ← len;
  on_base (BaseIndex.put l value);;
  l' ← lift (u64_add l 1);
  set_len l'.
Definition pop : M (t * DB) (option V) :=
  l ← len;
  if l =? 0 then mret None
  else
    v ← on_base (BaseIndex.get (l - 1));
    on_base (BaseIndex.remove (l - 1));;
    set_len (l - 1);;
    mret v.
Fixpoint extend_loop (values : list V) (len : Z) : M (t * DB) Z :=
  match values with
  | [] => mret len
  | value :: rest =>
      on_base (BaseIndex.put len value);;
      len' ← lift (u64_add len 1);
      extend_loop rest len'
  end.
Definition extend (values : list V) : M (t * DB) unit :=
  l ← len;
  l' ← extend_loop values l;
  on_base (BaseIndex.put zero l');;
  set_len l'.
(** [iter_from(&Zero, &from)]; the iterator of the list drops the keys. *)
Definition iter_from (from : Z) : M (t * DB) (list V) :=
  l ← on_base (BaseIndex.iter_from (K := Z) (key_bytes zero) (key_bytes from)); mret (l.*2).
Definition iter : M (t * DB) (list V) := iter_from 0.
(** [while self.len() > len { self.pop(); }], with at most as many turns as
    the list is long. *)
Fixpoint truncate_loop (fuel : nat) (len_ : Z) : M (t * DB) unit :=
  match fuel with
  | O => mret tt
  | S fuel =>
      l ← len;
      if len_ <? l then pop;; truncate_loop fuel len_ else mret tt
  end.
Definition truncate (len_ : Z) : M (t * DB) unit :=
  l ← len; truncate_loop (Z.to_nat l) len_.
Definition set (index : Z) (value : V) : M (t * DB) unit :=
  l ← len;
  if l <=? index then panic else on_base (BaseIndex.put index value).
Definition clear : M (t * DB) unit :=
  set_cell 0;; on_base BaseIndex.clear.

(** A fresh [ListIndex] of that name used for one operation. *)
Definition with_list {A : Type} (index_name : string) (op : M (t * DB) A) : M DB A :=
  λ db, match op (new index_name, db) with Ret (a, (_, db')) => Ret (a, db') | Panic => Panic end.
End ops.
End ListIndex.

(** ** The indices of the chain ([store/schema.rs]) *)

Module Schema.
Definition TRANSACTIONS : string := "core.transaction_hash".
Definition TRANSACTIONS_HASH : string := "core.transaction_block".
Definition BLOCKS : string := "core.blocks".
Definition HEADERS : string := "core.headers".
Definition BLOCK_HASHES_BY_HEIGHT : string := "core.block_hashes_by_height".
Definition BLOCK_TRANSACTIONS : string := "core.block_transactions".
Definition PRECOMMITS : string := "core.precommits".
Definition CONFIGS : string := "core.configs".
Definition CONSENSUS_MESSAGE_CACHE : string := "core.consensus_message_cache".
Definition VALIDATORS : string := "core.validators".

Definition names : list string :=
  [TRANSACTIONS; TRANSACTIONS_HASH; BLOCKS; HEADERS; BLOCK_HASHES_BY_HEIGHT; BLOCK_TRANSACTIONS;
   PRECOMMITS; CONFIGS; CONSENSUS_MESSAGE_CACHE; VALIDATORS].

Definition transaction : BaseIndex.t := MapIndex.new TRANSACTIONS.
Definition transaction_hashes : BaseIndex.t := MapIndex.new TRANSACTIONS_HASH.
Definition blocks : BaseIndex.t := MapIndex.new BLOCKS.
Definition headers : BaseIndex.t := MapIndex.new HEADERS.
Definition validators : BaseIndex.t := Entry.new VALIDATORS.

Section ops.
Context {DB : Type} `{Database DB, StorageKey Z, StorageKey Zero, StorageKey Hash, StorageValue Z}.
Context `{StorageValue Hash, StorageValue Header.t}.

Definition block_hash_by_height (height : Height) : M DB (option Hash) :=
  ListIndex.with_list BLOCK_HASHES_BY_HEIGHT (ListIndex.get height).
(** [new2] builds the block from the header with no transactions. *)
Definition last_block : M DB Block.t :=
  o ← ListIndex.with_list BLOCK_HASHES_BY_HEIGHT ListIndex.last;
  hash ← lift (unwrap o);
  oh ← MapIndex.get (K := Hash) hash headers;
  header ← lift (unwrap oh);
  mret (Block.new header []).
Definition height : M DB Height :=
  l ← ListIndex.with_list BLOCK_HASHES_BY_HEIGHT ListIndex.len;
  rassert (0 <? l);;
  lift (u64_sub l 1).
End ops.
End Schema.

(** ** Database keys *)

Definition key_of (name : string) (kb : bytes) : bytes := as_bytes name ++ kb.

Section base_props.
Context {DB : Type} `{DatabaseLaws DB}.

Lemma base_get_eq {K V} `{StorageKey K, StorageValue V} (key : K) n ty (db : DB) :
  BaseIndex.get (V := V) key (BaseIndex.new n ty) db =
    match db_get (key_of n (key_bytes key)) db with
    | Some v => match from_bytes v with Some x => Ret (Some x, db) | None => Panic end
    | None => Ret (None, db)
    end.
Proof.
  unfold BaseIndex.get, BaseIndex.prefix_key, key_of, mbind, M_mbind, M_bind, gets, lift. simpl.
  destruct (db_get _ db) as [v|]; [|done]. simpl. unfold unwrap. by destruct (from_bytes v).
Qed.

Lemma base_get_stored {K V} `{StorageKey K} `{StorageLaws V w} (key : K) n ty (db : DB) (o : option V) :
  db_get (key_of n (key_bytes key)) db = into_bytes <$> o →
  BaseIndex.get (V := V) key (BaseIndex.new n ty) db = Ret (w <$> o, db).
Proof. intros E. rewrite base_get_eq, E. destruct o; simpl; [by rewrite from_into|done]. Qed.

Lemma wp_base_get {K V} `{StorageKey K} `{StorageLaws V w} P (key : K) n ty (db : DB)
    (o : option V) (Q : option V → DB → Prop) :
  db_get (key_of n (key_bytes key)) db = into_bytes <$> o →
  Q (w <$> o) db → wp P (BaseIndex.get (V := V) key (BaseIndex.new n ty)) Q db.
Proof. intros E HQ. unfold wp. by rewrite (base_get_stored key n ty db o). Qed.

Lemma wp_base_put {K V} `{StorageKey K, StorageValue V} P (key : K) (v : V) n ty (db : DB)
    (Q : unit → DB → Prop) :
  Q tt (db_put (key_of n (key_bytes key)) (into_bytes v) db) →
  wp P (BaseIndex.put key v (BaseIndex.new n ty)) Q db.
Proof. done. Qed.

Lemma wp_base_remove {K} `{StorageKey K} P (key : K) n ty (db : DB) (Q : unit → DB → Prop) :
  Q tt (db_delete (key_of n (key_bytes key)) db) →
  wp P (BaseIndex.remove key (BaseIndex.new n ty)) Q db.
Proof. done. Qed.

(** [db'] agrees with [db] outside the index [n]. *)
Definition frame (n : string) (db db' : DB) : Prop :=
  ∀ k, ¬ as_bytes n `prefix_of` k → db_get k db' = db_get k db.

#[global] Instance frame_preorder n : PreOrder (frame n).
Proof. split; [by intros db k|]. intros db1 db2 db3 H1 H2 k Hk. by rewrite H2, H1. Qed.

Lemma frame_put n kb v (db : DB) : frame n db (db_put (key_of n kb) v db).
Proof using All. intros k Hk. rewrite db_get_put_ne; [done|]. intros ->. apply Hk. by eexists. Qed.

Lemma frame_delete n kb (db : DB) : frame n db (db_delete (key_of n kb) db).
Proof using All. intros k Hk. rewrite db_get_delete_ne; [done|]. intros ->. apply Hk. by eexists. Qed.

(** [clear] deletes the keys the iterator yields: those of the index, and the
    ones it goes on to after them. *)
Definition cleared (n : string) (db db' : DB) : Prop :=
  ∀ k, db_get k db' = if bool_decide (k ∈ (db_iter_from_prefix (as_bytes n) db).*1) then None else db_get k db.

Lemma clear_spec n ty (db : DB) : ∃ db', BaseIndex.clear (BaseIndex.new n ty) db = Ret (tt, db') ∧ cleared n db db'.
Proof using All.
  unfold BaseIndex.clear, mbind, M_mbind, M_bind, lift, modify. simpl. rewrite app_nil_r.
  eexists. split; [done|]. intros k. generalize (db_iter_from_prefix (as_bytes n) db). intros l. revert db.
  induction l as [|[kb v] l IH]; intros db; simpl; [done|]. rewrite IH.
  destruct (decide (kb = k)) as [->|Hne].
  - rewrite db_get_delete_eq. repeat case_bool_decide; set_solver.
  - rewrite db_get_delete_ne by congruence. repeat case_bool_decide; set_solver.
Qed.

Lemma cleared_prefix n (db db' : DB) k : cleared n db db' → as_bytes n `prefix_of` k → db_get k db' = None.
Proof using All.
  intros Hc Hp. rewrite Hc. destruct (db_get k db) as [v|] eqn:E; [|by case_bool_decide].
  rewrite bool_decide_true; [done|]. change k with (k, v).1. apply list_elem_of_fmap_2. by apply db_iter_complete.
Qed.
End base_props.

Lemma key_of_inj n kb kb' : key_of n kb = key_of n kb' → kb = kb'.
Proof. apply app_inv_head. Qed.

Definition string_prefix_freeb (l : list string) : bool :=
  forallb (λ a, forallb (λ b, bool_decide (a = b) ||
    negb (bool_decide (as_bytes a `prefix_of` as_bytes b))) l) l.

Lemma prefix_of_either {A} (p1 p2 k : list A) :
  p1 `prefix_of` k → p2 `prefix_of` k → p1 `prefix_of` p2 ∨ p2 `prefix_of` p1.
Proof.
  revert p2 k. induction p1 as [|x p1 IH]; intros p2 k H1 H2; [left; apply prefix_nil|].
  destruct p2 as [|y p2]; [right; apply prefix_nil|]. destruct k as [|z k]; [by destruct H1|].
  apply prefix_cons_inv_1 in H1 as E1. apply prefix_cons_inv_1 in H2 as E2. subst.
  apply prefix_cons_inv_2 in H1, H2. destruct (IH p2 k H1 H2); [left|right]; by apply prefix_cons.
Qed.

Lemma schema_names_prefix_free a b :
  a ∈ Schema.names → b ∈ Schema.names → a ≠ b → ¬ as_bytes a `prefix_of` as_bytes b.
Proof.
  intros Ha Hb Hne Hp. assert (string_prefix_freeb Schema.names = true) as Hall by by vm_compute.
  unfold string_prefix_freeb in Hall. rewrite forallb_forall in Hall.
  specialize (Hall a). rewrite forallb_forall in Hall.
  specialize (Hall ltac:(by apply list_elem_of_In) b ltac:(by apply list_elem_of_In)).
  apply orb_true_iff in Hall as [E%bool_decide_eq_true|E%negb_true_iff]; [done|].
  by apply bool_decide_eq_false in E.
Qed.

Lemma key_of_disjoint a b kb :
  a ∈ Schema.names → b ∈ Schema.names → a ≠ b → ¬ as_bytes a `prefix_of` key_of b kb.
Proof.
  intros Ha Hb Hne Hp. assert (as_bytes b `prefix_of` key_of b kb) as Hp' by by eexists.
  destruct (prefix_of_either _ _ _ Hp Hp') as [Hab|Hba].
  - by apply (schema_names_prefix_free a b).
  - by apply (schema_names_prefix_free b a).
Qed.

(** The indices of the schema share one column of the database without
    clashing: no index name is a prefix of another, so the keys of two
    different indices are never equal, whatever the keys are. *)
Lemma schema_keys_disjoint (a b : string) (ka kb : bytes) :
  a ∈ Schema.names → b ∈ Schema.names → a ≠ b → key_of a ka ≠ key_of b kb.
Proof.
  intros Ha Hb Hne E. eapply (key_of_disjoint a b kb); [done..|]. rewrite <-E. by eexists.
Qed.

(** An iterator decodes the entries that start with its prefix. *)
Lemma iter_next_decodes {K V} `{StorageKey K, StorageValue V} n (id : bytes) (l1 l2 : list (bytes * bytes)) :
  Forall (λ x, id `prefix_of` x.1 ∧ is_Some (key_read (K := K) (drop n x.1)) ∧
    is_Some (from_bytes (T := V) x.2)) l1 →
  Forall (λ x, ¬ id `prefix_of` x.1) l2 →
  ∃ r, BaseIndex.iter_next (K := K) (V := V) n id (l1 ++ l2) = Ret r ∧
    Forall2 (λ x y, key_read (drop n x.1) = Some y.1 ∧ from_bytes x.2 = Some y.2) l1 r.
Proof.
  intros Hl1 Hl2. induction Hl1 as [|[k v] l1 (Hk & [k' Ek] & [v' Ev]) _ (r & E & IH)]; simpl in *.
  - exists []. split; [|constructor]. destruct Hl2 as [|[k v] l2 Hk _]; simpl; [done|].
    by rewrite bool_decide_false.
  - exists ((k', v') :: r). rewrite bool_decide_true, Ek, Ev by done. simpl. rewrite E. simpl.
    split; [done|]. by constructor.
Qed.

(** An iterator over encoded entries reads each of them, or panics at the
    first one it cannot read. *)
Lemma iter_next_mapM {K V X} `{StorageKey K, StorageValue V} n (id : bytes) (enc : X → bytes * bytes) es l2 :
  (∀ x, x ∈ es → id `prefix_of` (enc x).1) → Forall (λ x, ¬ id `prefix_of` x.1) l2 →
  BaseIndex.iter_next (K := K) (V := V) n id ((enc <$> es) ++ l2) =
  unwrap (mapM (M := option) (λ x, k ← key_read (drop n (enc x).1); v ← from_bytes (enc x).2; Some (k, v)) es).
Proof.
  intros Hes Hl2. induction es as [|x es IH].
  - destruct Hl2 as [|[k v] l2 Hk _]; simpl; [done|]. by rewrite bool_decide_false.
  - specialize (IH ltac:(intros; apply Hes; by right)).
    assert (id `prefix_of` (enc x).1) as Hp by (apply Hes; by left).
    rewrite fmap_cons. cbn [app BaseIndex.iter_next mapM]. destruct (enc x) as [kb vb]. cbn [fst snd] in *.
    rewrite bool_decide_true, IH by done.
    destruct (key_read (drop n kb)) as [k|]; [|done]. destruct (from_bytes vb) as [v|]; [|done]. simpl.
    by destruct (mapM _ es).
Qed.

Lemma mapM_total {A B} (f : A → option B) (g : A → B) l :
  (∀ x, x ∈ l → f x = Some (g x)) → mapM f l = Some (g <$> l).
Proof.
  induction l as [|x l IH]; intros Hf; [done|]. simpl. rewrite Hf by by left. simpl.
  by rewrite IH by (intros; apply Hf; by right).
Qed.
Lemma mapM_fails {A B} (f : A → option B) l x : x ∈ l → f x = None → mapM f l = None.
Proof.
  intros Hx E. destruct (mapM f l) as [r|] eqn:Er; [|done]. apply mapM_Some in Er.
  apply list_elem_of_lookup in Hx as [i Hi]. destruct (Forall2_lookup_l _ _ _ _ _ Er Hi) as (y & _ & Ey). congruence.
Qed.

(** ** [MapIndex] implements a finite map *)

Section map_index_props.
Context {DB : Type} `{DatabaseLaws DB}.
Context {K V : Type} `{Countable K} `{SK : StorageKey K} `{SV : StorageValue V} {w : V → V} `{!StorageLaws V w}.
(** The keys that are read back as they were written. *)
Context (key_ok : K → Prop) (read_key : ∀ k, key_ok k → key_read (key_bytes k) = Some k).
Implicit Types (d : DB) (m : gmap K V) (n : string).

Lemma key_bytes_inj k k' : key_ok k → key_ok k' → key_bytes k = key_bytes k' → k = k'.
Proof using read_key. intros H1' H2' E. apply read_key in H1', H2'. congruence. Qed.

(** Every entry under the prefix is an encoded key with an encoded value. *)
Definition entries_ok n d : Prop :=
  ∀ k v, as_bytes n `prefix_of` k → db_get k d = Some v →
    ∃ (k' : K) (x : V), key_ok k' ∧ k = key_of n (key_bytes k') ∧ v = into_bytes x.

Lemma map_iter_spec n d :
  entries_ok n d →
  ∃ r, MapIndex.iter (K := K) (V := V) (MapIndex.new n) d = Ret (r, d) ∧ NoDup r.*1 ∧
    ∀ k x, (k, x) ∈ r ↔ key_ok k ∧
      ∃ v, db_get (key_of n (key_bytes k)) d = Some v ∧ from_bytes v = Some x.
Proof using All.
  intros Hok. set (p := as_bytes n).
  destruct (db_iter_first p d) as (l1 & l2 & El & Hl1 & Hl2). rewrite Forall_forall in Hl1, Hl2.
  assert (∀ k v, (k, v) ∈ l1 ↔ p `prefix_of` k ∧ db_get k d = Some v) as Hin.
  { intros k v. split.
    - intros Hk. split; [by apply (Hl1 (k, v))|]. apply (db_iter_sound p). rewrite El. set_solver.
    - intros [Hp Hg]. assert ((k, v) ∈ l1 ++ l2) as [?|Hk]%elem_of_app; [|done|by destruct (Hl2 _ Hk)].
      rewrite <-El. by apply db_iter_complete. }
  assert (∀ k, drop (length p) (key_of n k) = k) as Hdrop by (intros; apply drop_app_length).
  destruct (iter_next_decodes (K := K) (V := V) (length p) p l1 l2) as (r & Er & Hr); [|by apply Forall_forall|].
  { apply Forall_forall. intros [k v] [Hp Hg]%Hin. split; [done|]. simpl.
    destruct (Hok k v Hp Hg) as (k' & x & Hk' & -> & ->). rewrite Hdrop, read_key, from_into by done. eauto. }
  assert (Forall2 (λ x y, key_ok y.1 ∧ x.1 = key_of n (key_bytes y.1) ∧ from_bytes x.2 = Some y.2) l1 r) as Hr'.
  { apply Forall2_same_length_lookup. split; [by eapply Forall2_length|]. intros i [k v] [k' x] Hx Hy.
    destruct (Forall2_lookup_lr _ _ _ _ _ _ Hr Hx Hy) as [Ek Ev].
    apply list_elem_of_lookup_2, Hin in Hx as [Hp Hg]. simpl in *.
    destruct (Hok k v Hp Hg) as (k2 & x2 & Hk2 & -> & ->). rewrite Hdrop, read_key in Ek by done. by simplify_eq. }
  exists r. split_and!.
  - unfold MapIndex.iter, BaseIndex.iter, mbind, M_mbind, M_bind, gets, lift. simpl.
    rewrite app_nil_r. fold p. by rewrite El, Nat.add_0_r, Er.
  - pose proof (db_iter_once p d) as Hn. rewrite El, fmap_app in Hn. apply NoDup_app in Hn as [Hn _].
    assert (l1.*1 = (λ k, key_of n (key_bytes k)) <$> r.*1) as E; [|by rewrite E in Hn; eapply NoDup_fmap_1].
    clear -Hr'. induction Hr' as [|[k v] [k' x] l1 r (_ & E & _) _ IH]; [done|]. rewrite !fmap_cons. by f_equal.
  - intros k x. split.
    + intros [i Hi]%list_elem_of_lookup. destruct (Forall2_lookup_r _ _ _ _ _ Hr' Hi) as ([k0 v] & Hx & Hk & E & Ev).
      simpl in *. split; [done|]. exists v. subst k0. apply list_elem_of_lookup_2, Hin in Hx. by split; [apply Hx|].
    + intros (Hk & v & Hg & Ev). assert ((key_of n (key_bytes k), v) ∈ l1) as [i Hi]%list_elem_of_lookup.
      { apply Hin. split; [by eexists|done]. }
      destruct (Forall2_lookup_l _ _ _ _ _ Hr' Hi) as ([k' x'] & Hy & Hk' & E & Ev'). simpl in *.
      apply key_of_inj, key_bytes_inj in E as <-; [|done..]. rewrite Ev in Ev'. injection Ev' as <-.
      by eapply list_elem_of_lookup_2.
Qed.

(** The index [n] of [d] holds the map [m] and nothing else. *)
Definition map_rep n d m : Prop :=
  (∀ k x, m !! k = Some x → key_ok k) ∧ entries_ok n d ∧
  ∀ k, key_ok k → db_get (key_of n (key_bytes k)) d = into_bytes <$> m !! k.

Lemma map_rep_put n d m k x :
  map_rep n d m → key_ok k → map_rep n (db_put (key_of n (key_bytes k)) (into_bytes x) d) (<[k := x]> m).
Proof using All.
  intros (Hm & Hok & Hg) Hk. split_and!.
  - intros k' x' [[<- _]|[_ ?]]%lookup_insert_Some; [done|by eapply Hm].
  - intros kb v Hp. destruct (decide (kb = key_of n (key_bytes k))) as [->|Hne].
    + rewrite db_get_put_eq. intros [= <-]. eauto.
    + rewrite db_get_put_ne by done. by apply Hok.
  - intros k' Hk'. destruct (decide (k' = k)) as [->|Hne]; [by rewrite db_get_put_eq, lookup_insert_eq|].
    rewrite lookup_insert_ne, db_get_put_ne; [by apply Hg| |done].
    intros E%key_of_inj%key_bytes_inj; done.
Qed.

Lemma map_rep_delete n d m k :
  map_rep n d m → key_ok k → map_rep n (db_delete (key_of n (key_bytes k)) d) (delete k m).
Proof using All.
  intros (Hm & Hok & Hg) Hk. split_and!.
  - intros k' x' [_ ?]%lookup_delete_Some. by eapply Hm.
  - intros kb v Hp. destruct (decide (kb = key_of n (key_bytes k))) as [->|Hne].
    + by rewrite db_get_delete_eq.
    + rewrite db_get_delete_ne by done. by apply Hok.
  - intros k' Hk'. destruct (decide (k' = k)) as [->|Hne]; [by rewrite db_get_delete_eq, lookup_delete_eq|].
    rewrite lookup_delete_ne, db_get_delete_ne; [by apply Hg| |done].
    intros E%key_of_inj%key_bytes_inj; done.
Qed.

Context `{ZK : StorageKey Zero, ZV : StorageValue Zero}.
Abbreviation encoded n := (λ e : K * V, (key_of n (key_bytes e.1), into_bytes e.2)).

(** The iterator goes through the map first. *)
Lemma map_rep_entries n d m :
  map_rep n d m →
  ∃ es l2, db_iter_from_prefix (as_bytes n) d = (encoded n <$> es) ++ l2 ∧
    Forall (λ x, ¬ as_bytes n `prefix_of` x.1) l2 ∧ es ≡ₚ map_to_list m.
Proof using All.
  intros (Hm & Hok & Hg). destruct (db_iter_first (as_bytes n) d) as (l1 & l2 & El & Hl1 & Hl2).
  assert (∃ es, l1 = encoded n <$> es ∧ ∀ k x, (k, x) ∈ es → m !! k = Some x) as (es & -> & Hes).
  { assert (∀ k v, (k, v) ∈ l1 → db_get k d = Some v) as Hs.
    { intros k v Hk. apply (db_iter_sound (as_bytes n)). rewrite El. set_solver. }
    clear El. induction Hl1 as [|[kb v] l1 Hp _ IH]; [exists []; split; [done|set_solver]|].
    destruct IH as (es & -> & Hes); [intros; apply Hs; by right|]. simpl in Hp.
    assert (db_get kb d = Some v) as Hv by (apply Hs; by left).
    destruct (Hok kb v Hp Hv) as (k & x0 & Hk & -> & _). rewrite Hg in Hv by done.
    destruct (m !! k) as [x|] eqn:Ex; [|done]. injection Hv as <-. exists ((k, x) :: es). split; [done|].
    intros k' x' [[= -> ->]|?]%elem_of_cons; [done|by apply Hes]. }
  exists es, l2. split_and!; [done|done|]. apply NoDup_Permutation; [|apply NoDup_map_to_list|].
  - pose proof (db_iter_once (as_bytes n) d) as Hn. rewrite El, fmap_app in Hn. apply NoDup_app in Hn as [Hn _].
    by apply NoDup_fmap_1, NoDup_fmap_1 in Hn.
  - intros [k x]. rewrite elem_of_map_to_list. split; [apply Hes|]. intros Hx.
    assert (key_ok k) as Hk by by eapply Hm.
    assert ((key_of n (key_bytes k), into_bytes x) ∈ (encoded n <$> es) ++ l2) as Hin.
    { rewrite <-El. apply db_iter_complete; [by eexists|]. by rewrite Hg, Hx. }
    apply elem_of_app in Hin as [([k' x'] & [= E%app_inv_head _] & Hin)%list_elem_of_fmap|Hin].
    + pose proof (Hes _ _ Hin) as Hx'. assert (key_ok k') as Hk' by by eapply Hm.
      apply key_bytes_inj in E as <-; [|done..]. rewrite Hx in Hx'. by injection Hx' as <-.
    + rewrite Forall_forall in Hl2. apply Hl2 in Hin. destruct Hin. simpl. by eexists.
Qed.

(** Iterating with any two types to read the keys and the values with. *)
Definition decode_entry {K' V'} `{StorageKey K', StorageValue V'} (e : K * V) : option (K' * V') :=
  k ← key_read (key_bytes e.1); v ← from_bytes (into_bytes e.2); Some (k, v).

Lemma entries_decode {K' V'} `{StorageKey K', StorageValue V'} n d es l2 :
  db_iter_from_prefix (as_bytes n) d = (encoded n <$> es) ++ l2 →
  Forall (λ x, ¬ as_bytes n `prefix_of` x.1) l2 →
  BaseIndex.iter (K := K') (V := V') [] (MapIndex.new n) d =
    (r ← unwrap (mapM (M := option) decode_entry es); Ret (r, d)).
Proof.
  intros El Hl2. unfold BaseIndex.iter, mbind, M_mbind, M_bind, gets, lift. simpl. rewrite app_nil_r, El.
  rewrite Nat.add_0_r, iter_next_mapM; [|intros; by eexists|done].
  rewrite (mapM_ext _ decode_entry); [by destruct (mapM _ es)|].
  intros [k v]. unfold decode_entry, key_of. simpl. by rewrite drop_app_length.
Qed.

Lemma map_contains n d m k :
  map_rep n d m → key_ok k → MapIndex.contains k (MapIndex.new n) d = Ret (bool_decide (k ∈ dom m), d).
Proof using All.
  intros (_ & _ & Hg) Hk. unfold MapIndex.contains, BaseIndex.contains, mbind, M_mbind, M_bind, gets, lift. simpl.
  fold (key_of n (key_bytes k)). rewrite (Hg k Hk).
  replace (bool_decide (k ∈ dom m)) with (bool_decide (is_Some (into_bytes <$> m !! k))); [done|].
  apply bool_decide_ext. by rewrite elem_of_dom, fmap_is_Some.
Qed.

Lemma map_rep_iter n d m :
  map_rep n d m → let i := MapIndex.new n in
  ∃ r, MapIndex.iter (V := V) i d = Ret (r, d) ∧ r ≡ₚ map_to_list (w <$> m) ∧
    (map_Forall (λ _ y, is_Some (from_bytes (T := Zero) (into_bytes y))) m →
      MapIndex.keys i d = Ret (r.*1, d)) ∧
    (map_Forall (λ k' _, is_Some (key_read (K := Zero) (key_bytes k'))) m →
      MapIndex.values (V := V) i d = Ret (r.*2, d)).
Proof using All.
  intros Hr i. pose proof Hr as (Hm & _). destruct (map_rep_entries n d m Hr) as (es & l2 & El & Hl2 & Hp).
  assert (∀ e, e ∈ es → m !! e.1 = Some e.2 ∧ key_ok e.1) as Hes.
  { intros [k x] He. rewrite Hp, elem_of_map_to_list in He. split; [done|]. by eapply Hm. }
  exists (prod_map id w <$> es). split_and!.
  - unfold MapIndex.iter, i. rewrite (entries_decode _ _ es l2) by done. rewrite (mapM_total _ (prod_map id w)); [done|].
    intros e [_ He]%Hes. unfold decode_entry. by rewrite read_key, from_into.
  - rewrite map_to_list_fmap. by apply fmap_Permutation.
  - intros Hz. unfold MapIndex.keys, i, mbind at 1, M_mbind, M_bind. rewrite (entries_decode _ _ es l2) by done.
    rewrite (mapM_total _ (λ e, (e.1, zero))).
    + simpl. by rewrite <-!list_fmap_compose.
    + intros e [He Hk]%Hes. unfold decode_entry. rewrite read_key by done.
      destruct (Hz _ _ He) as [[] ->]. done.
  - intros Hz. unfold MapIndex.values, i, mbind at 1, M_mbind, M_bind. rewrite (entries_decode _ _ es l2) by done.
    rewrite (mapM_total _ (λ e, (zero, w e.2))).
    + simpl. by rewrite <-!list_fmap_compose.
    + intros e [He Hk]%Hes. unfold decode_entry. destruct (Hz _ _ He) as [[] ->]. simpl. by rewrite from_into.
Qed.

Lemma map_rep_iter_panics n d m k y :
  map_rep n d m → m !! k = Some y → let i := MapIndex.new n in
  (from_bytes (T := Zero) (into_bytes y) = None → MapIndex.keys (K := K) i d = Panic) ∧
  (key_read (K := Zero) (key_bytes k) = None → MapIndex.values (V := V) i d = Panic).
Proof using All.
  intros Hr Hy i. destruct (map_rep_entries n d m Hr) as (es & l2 & El & Hl2 & Hp).
  assert ((k, y) ∈ es) as He by by rewrite Hp, elem_of_map_to_list.
  split; intros E; unfold MapIndex.keys, MapIndex.values, i, mbind at 1, M_mbind, M_bind;
    rewrite (entries_decode _ _ es l2), (mapM_fails _ _ _ He); try done;
    unfold decode_entry; simpl; rewrite E; [by destruct (key_read _)|done].
Qed.

Lemma map_rep_clear n d d' : cleared n d d' → map_rep n d' ∅.
Proof using All.
  intros Hc. split_and!.
  - intros k x Hx. by rewrite lookup_empty in Hx.
  - intros k v Hp Hv. by rewrite (cleared_prefix n d d') in Hv.
  - intros k _. rewrite lookup_empty. simpl. apply (cleared_prefix n d d' _ Hc). by eexists.
Qed.

(** C22 A map index is a map: on a database whose index [n] holds the map [m],
    [get] and [contains] answer from [m] (values come back without the
    fields serde skips), [iter] goes through [m] once, and none of them
    changes the database; [put] and [remove] change [m] at that key and
    nothing outside the index.  [keys] and [values] go through the same
    entries in the same order; they read the half they drop as [Zero], so
    they return the keys, and the values, where [Zero] is read from the bytes
    of every stored value, and of every key, and panic where one of them is
    not read as [Zero].  [clear] empties the map, and deletes besides every
    key at which the database's iterator goes on after the index. *)
Theorem map_index_refines (n : string) (d : DB) (m : gmap K V) (k : K) (x : V) :
  map_rep n d m → key_ok k →
  let i := MapIndex.new n in
  MapIndex.get (V := V) k i d = Ret (w <$> m !! k, d) ∧
  MapIndex.contains k i d = Ret (bool_decide (k ∈ dom m), d) ∧
  (∃ r, MapIndex.iter (V := V) i d = Ret (r, d) ∧ r ≡ₚ map_to_list (w <$> m) ∧
    (map_Forall (λ _ y, is_Some (from_bytes (T := Zero) (into_bytes y))) m →
      MapIndex.keys i d = Ret (r.*1, d)) ∧
    (map_Forall (λ k' _, is_Some (key_read (K := Zero) (key_bytes k'))) m →
      MapIndex.values (V := V) i d = Ret (r.*2, d))) ∧
  (∀ k' y, m !! k' = Some y →
    (from_bytes (T := Zero) (into_bytes y) = None → MapIndex.keys (K := K) i d = Panic) ∧
    (key_read (K := Zero) (key_bytes k') = None → MapIndex.values (V := V) i d = Panic)) ∧
  (∃ d', MapIndex.put k x i d = Ret (tt, d') ∧ map_rep n d' (<[k := x]> m) ∧ frame n d d') ∧
  (∃ d', MapIndex.remove k i d = Ret (tt, d') ∧ map_rep n d' (delete k m) ∧ frame n d d') ∧
  (∃ d', MapIndex.clear i d = Ret (tt, d') ∧ map_rep n d' ∅ ∧ cleared n d d').
Proof using All.
  intros Hr Hk i. pose proof Hr as (_ & _ & Hg). split_and!.
  - by apply base_get_stored, Hg.
  - by apply map_contains.
  - by apply map_rep_iter.
  - intros k' y Hy. by apply (map_rep_iter_panics n d m).
  - eexists. split; [reflexivity|]. split; [by apply map_rep_put|apply frame_put].
  - eexists. split; [reflexivity|]. split; [by apply map_rep_delete|apply frame_delete].
  - destruct (clear_spec n IMap d) as (d' & E & Hc). exists d'. split_and!; [done|by eapply map_rep_clear|done].
Qed.
End map_index_props.

(** ** [ListIndex] implements a list *)

Section list_index_props.
Context {DB : Type} `{DatabaseLaws DB}.
Context `{KZ : StorageKey Z, KH : StorageKey Hash, K0 : StorageKey Zero, !StorageKeyLaws}.
Context `{VZ : StorageValue Z, !StorageLaws Z (λ n, n)}.
Context {V : Type} `{VV : StorageValue V, !StorageLaws V (λ v, v)}.
Implicit Types (db : DB) (l : list V) (n : string).

(** The slots [0 ..] hold the elements and nothing after them; the key
    [Zero] holds the length, or nothing for a list never written. *)
Definition elems_rep n db l : Prop :=
  ∀ i, is_u64 i → db_get (key_of n (key_bytes i)) db = into_bytes <$> l !! Z.to_nat i.
Definition len_rep n db (k : Z) : Prop :=
  db_get (key_of n (key_bytes zero)) db = Some (into_bytes k) ∨
  (k = 0 ∧ db_get (key_of n (key_bytes zero)) db = None).
Definition list_rep n db l : Prop :=
  Z.of_nat (length l) < u64_bound ∧ len_rep n db (Z.of_nat (length l)) ∧ elems_rep n db l.

(** The index object and the database. *)
Definition index_rep n (s : ListIndex.t * DB) l : Prop :=
  ListIndex.base s.1 = BaseIndex.new n IList ∧
  (ListIndex.length_ s.1 = None ∨ ListIndex.length_ s.1 = Some (Z.of_nat (length l))) ∧
  list_rep n s.2 l.

Lemma key_zero_u64 n (i : Z) : key_of n (key_bytes zero) ≠ key_of n (key_bytes i).
Proof using All.
  intros E%key_of_inj. pose proof key_zero_length. pose proof (key_u64_length i).
  rewrite E in *. lia.
Qed.

Lemma key_u64_ne n (i j : Z) :
  is_u64 i → is_u64 j → i ≠ j → key_of n (key_bytes i) ≠ key_of n (key_bytes j).
Proof using All. intros Hi Hj Hne E%key_of_inj. by apply key_u64_inj in E. Qed.

Lemma elems_put_zero n db l v : elems_rep n db l → elems_rep n (db_put (key_of n (key_bytes zero)) v db) l.
Proof using All. intros He i Hi. rewrite db_get_put_ne; [by apply He|]. apply not_eq_sym, key_zero_u64. Qed.

Lemma len_put_zero n db k : len_rep n (db_put (key_of n (key_bytes zero)) (into_bytes k) db) k.
Proof using All. left. by rewrite db_get_put_eq. Qed.

Lemma len_put_elem n db k i v : len_rep n db k → len_rep n (db_put (key_of n (key_bytes (i : Z))) v db) k.
Proof using All. unfold len_rep. by rewrite db_get_put_ne by apply key_zero_u64. Qed.

Lemma len_delete_elem n db k i : len_rep n db k → len_rep n (db_delete (key_of n (key_bytes (i : Z))) db) k.
Proof using All. unfold len_rep. by rewrite db_get_delete_ne by apply key_zero_u64. Qed.

Lemma elems_put_slot n db l l' (j : Z) v :
  is_u64 j → elems_rep n db l → l' !! Z.to_nat j = Some v →
  (∀ i, i ≠ Z.to_nat j → l' !! i = l !! i) →
  elems_rep n (db_put (key_of n (key_bytes j)) (into_bytes v) db) l'.
Proof using All.
  intros Hj He Hv Hne i Hi. destruct (decide (i = j)) as [->|Hij].
  - by rewrite db_get_put_eq, Hv.
  - rewrite db_get_put_ne by by apply key_u64_ne. rewrite Hne; [by apply He|].
    intros E. apply Hij. apply Z2Nat.inj; [apply Hi|apply Hj|done].
Qed.

Lemma elems_push n db l v :
  Z.of_nat (length l) < u64_bound → elems_rep n db l →
  elems_rep n (db_put (key_of n (key_bytes (Z.of_nat (length l)))) (into_bytes v) db) (l ++ [v]).
Proof using All.
  intros Hb He. eapply elems_put_slot; [split; lia|done|..]; rewrite Nat2Z.id.
  - by rewrite lookup_app_r, Nat.sub_diag by lia.
  - intros i Hi. destruct (decide (i < length l)%nat); [by rewrite lookup_app_l|].
    rewrite lookup_app_r by lia. rewrite (lookup_ge_None_2 l) by lia.
    by rewrite (lookup_ge_None_2 [v]) by (simpl; lia).
Qed.

Lemma elems_pop n db l v :
  Z.of_nat (length l) < u64_bound → elems_rep n db (l ++ [v]) →
  elems_rep n (db_delete (key_of n (key_bytes (Z.of_nat (length l)))) db) l.
Proof using All.
  intros Hb He i Hi. destruct (decide (i = Z.of_nat (length l))) as [->|Hne].
  - rewrite db_get_delete_eq, Nat2Z.id. by rewrite lookup_ge_None_2 by lia.
  - rewrite db_get_delete_ne by (apply key_u64_ne; [done|split; lia|done]).
    rewrite He by done. unfold is_u64 in Hi. f_equal.
    destruct (decide (Z.to_nat i < length l)%nat); [by rewrite lookup_app_l|].
    rewrite lookup_app_r by lia. rewrite (lookup_ge_None_2 l) by lia.
    by rewrite (lookup_ge_None_2 [v]) by (simpl; lia).
Qed.

(** *** The operations *)

Lemma wp_on_base {A} P (f : BaseIndex.t → M DB A) (Q : A → ListIndex.t * DB → Prop) s :
  wp P (f (ListIndex.base s.1)) (λ a db, Q a (s.1, db)) s.2 → wp P (ListIndex.on_base f) Q s.
Proof. unfold wp, ListIndex.on_base. destruct (f _ s.2) as [[a db]|]; done. Qed.

Lemma len_spec n s l :
  index_rep n s l →
  wp False ListIndex.len (λ k s', k = Z.of_nat (length l) ∧ s'.2 = s.2 ∧ index_rep n s' l ∧
    ListIndex.length_ s'.1 = Some k) s.
Proof using All.
  destruct s as [[b c] db]. intros (Hb & Hc & Hr). simpl in *. subst b.
  unfold ListIndex.len. wp_step. wp_step. simpl. destruct c as [k|].
  { wp_step. destruct Hc as [|[= ->]]; [done|]. unfold index_rep. simpl. by auto 10. }
  wp_step. apply wp_on_base. simpl. destruct Hr as (Hlt & Hlen & He).
  assert (∃ o, db_get (key_of n (key_bytes zero)) db = into_bytes <$> o ∧
    (match o with Some k => k | None => 0 end) = Z.of_nat (length l)) as (o & E & Ho).
  { destruct Hlen as [E|[Ez E]]; [by exists (Some (Z.of_nat (length l)))|by exists None]. }
  apply (wp_base_get (w := λ k, k)) with (o := o); [done|]. rewrite option_fmap_id. rewrite Ho. wp_steps. simpl. unfold index_rep, list_rep. simpl. split_and!; by auto.
Qed.

Lemma get_spec n s l i :
  index_rep n s l → is_u64 i → ListIndex.get (V := V) i s = Ret (l !! Z.to_nat i, s).
Proof using All.
  destruct s as [[b c] db]. intros (Hb & Hc & Hr) Hi. simpl in *. subst b.
  unfold ListIndex.get, ListIndex.on_base. simpl.
  rewrite (base_get_stored (w := λ v, v) i n IList db (l !! Z.to_nat i)) by by apply Hr.
  by rewrite option_fmap_id.
Qed.

Lemma set_len_spec n s l (k : Z) :
  ListIndex.base s.1 = BaseIndex.new n IList → elems_rep n s.2 l → k = Z.of_nat (length l) →
  k < u64_bound →
  wp False (ListIndex.set_len k) (λ _ s', index_rep n s' l ∧ frame n s.2 s'.2) s.
Proof using All.
  destruct s as [[b c] db]. simpl. intros -> He -> Hk. unfold ListIndex.set_len.
  wp_step. apply wp_on_base. simpl. apply wp_base_put. apply wp_modify. simpl.
  split; [|apply frame_put]. unfold index_rep, list_rep. simpl.
  split_and!; [done|by right|done|apply len_put_zero|by apply elems_put_zero].
Qed.

Lemma push_spec n s l v :
  index_rep n s l → Z.of_nat (length l) + 1 < u64_bound →
  wp False (ListIndex.push v) (λ _ s', index_rep n s' (l ++ [v]) ∧ frame n s.2 s'.2) s.
Proof using All.
  intros Hr Hb. unfold ListIndex.push. wp_step. eapply wp_mono; [by apply len_spec|].
  intros k [[b c] db] (-> & Edb & (Eb & Ec & Hlt & Hlen & He) & _). simpl in *. subst.
  wp_step. apply wp_on_base. simpl. apply wp_base_put.
  wp_step. apply wp_lift; [|intros E; by rewrite u64_add_fits in E].
  intros k' Ek. apply u64_add_Ret in Ek as [-> _].
  eapply wp_mono; [eapply (set_len_spec n _ (l ++ [v])); simpl|].
  - done.
  - apply elems_push; [lia|done].
  - rewrite length_app. simpl. lia.
  - lia.
  - intros _ s' [Hs' Hf]. simpl in Hf. split; [done|]. etrans; [|done]. apply frame_put.
Qed.

Lemma pop_spec n s l :
  index_rep n s l →
  wp False ListIndex.pop (λ r s', r = list.last l ∧
    index_rep n s' (take (length l - 1) l) ∧ frame n s.2 s'.2) s.
Proof using All.
  intros Hr. unfold ListIndex.pop. wp_step. eapply wp_mono; [by apply len_spec|].
  intros k s' (-> & Edb & Hr' & _). destruct (Z.eqb_spec (Z.of_nat (length l)) 0) as [E0|E0].
  { wp_step. destruct l; [|simpl in *; lia]. simpl. rewrite Edb. split_and!; done. }
  destruct l as [|v l0 _] using rev_ind; [done|].
  rewrite length_app in *. simpl in *. replace (Z.of_nat (length l0 + 1) - 1) with (Z.of_nat (length l0)) by lia.
  pose proof Hr' as (Eb & Ec & Hlt & Hlen & He). rewrite length_app in Hlt. simpl in Hlt.
  wp_step. apply wp_on_base. rewrite Eb.
  apply (wp_base_get (w := λ v, v)) with (o := Some v).
  { rewrite He by (split; lia). rewrite Nat2Z.id, lookup_app_r, Nat.sub_diag by lia. done. }
  wp_step. apply wp_on_base. simpl. rewrite Eb. apply wp_base_remove. wp_step.
  eapply wp_mono; [eapply (set_len_spec n _ l0); simpl|].
  - done.
  - apply elems_pop with v; [lia|done].
  - done.
  - lia.
  - intros _ s2 [Hs2 Hf]. simpl in Hf. wp_step. rewrite last_snoc.
    rewrite Nat.add_sub, take_app_length. split_and!; [done|done|].
    rewrite <-Edb. etrans; [|done]. apply frame_delete.
Qed.

Lemma truncate_loop_spec n fuel s l (k : Z) :
  index_rep n s l → (length l ≤ fuel)%nat → 0 ≤ k →
  wp False (ListIndex.truncate_loop fuel k) (λ _ s',
    index_rep n s' (take (Z.to_nat k) l) ∧ frame n s.2 s'.2) s.
Proof using All.
  revert s l. induction fuel as [|fuel IH]; intros s l Hr Hf Hk; simpl.
  { wp_step. destruct l; [|simpl in *; lia]. by rewrite take_nil. }
  wp_step. eapply wp_mono; [by apply len_spec|]. intros m s' (-> & Edb & Hr' & _).
  destruct (Z.ltb_spec k (Z.of_nat (length l))).
  - wp_step. eapply wp_mono; [by apply pop_spec|]. intros r s2 (_ & Hr2 & Hf2).
    eapply wp_mono; [apply IH; [done|rewrite length_take; lia|done]|].
    intros _ s3 [Hr3 Hf3]. rewrite take_take in Hr3.
    replace (Z.to_nat k `min` (length l - 1))%nat with (Z.to_nat k) in Hr3 by lia.
    split; [done|]. rewrite <-Edb. by etrans.
  - wp_step. rewrite take_ge by lia. by rewrite Edb.
Qed.

Lemma truncate_spec n s l (k : Z) :
  index_rep n s l → 0 ≤ k →
  wp False (ListIndex.truncate k) (λ _ s',
    index_rep n s' (take (Z.to_nat k) l) ∧ frame n s.2 s'.2) s.
Proof using All.
  intros Hr Hk. unfold ListIndex.truncate. wp_step. eapply wp_mono; [by apply len_spec|].
  intros m s' (-> & Edb & Hr' & _). rewrite <-Edb. apply truncate_loop_spec; [done|lia|done].
Qed.

Lemma set_spec n s l (i : Z) v :
  index_rep n s l → 0 ≤ i < Z.of_nat (length l) →
  wp False (ListIndex.set i v) (λ _ s',
    index_rep n s' (<[Z.to_nat i := v]> l) ∧ frame n s.2 s'.2) s.
Proof using All.
  intros Hr Hi. unfold ListIndex.set. wp_step. eapply wp_mono; [by apply len_spec|].
  intros m [[b c] db] (-> & Edb & (Eb & Ec & Hlt & Hlen & He) & _). simpl in *. subst.
  destruct (Z.leb_spec (Z.of_nat (length l)) i); [lia|].
  apply wp_on_base. simpl. apply wp_base_put. split; [|apply frame_put].
  unfold index_rep, list_rep. simpl. rewrite length_insert.
  split_and!; [done|done|done|by apply len_put_elem|].
  eapply elems_put_slot; [split; lia|done|..].
  - by rewrite list_lookup_insert_eq by lia.
  - intros j Hj. by rewrite list_lookup_insert_ne.
Qed.

Lemma set_panics n s l (i : Z) v :
  index_rep n s l → Z.of_nat (length l) ≤ i → ListIndex.set i v s = Panic.
Proof using All.
  intros Hr Hi. destruct (wp_total _ _ _ (len_spec n s l Hr)) as (k & s' & E & -> & _).
  unfold ListIndex.set, mbind, M_mbind, M_bind. rewrite E.
  destruct (Z.leb_spec (Z.of_nat (length l)) i); [done|lia].
Qed.

Lemma extend_loop_spec n s l vs (k : Z) :
  ListIndex.base s.1 = BaseIndex.new n IList → elems_rep n s.2 l → k = Z.of_nat (length l) →
  k + Z.of_nat (length vs) < u64_bound →
  wp False (ListIndex.extend_loop vs k) (λ k' s', k' = k + Z.of_nat (length vs) ∧
    s'.1 = s.1 ∧ elems_rep n s'.2 (l ++ vs) ∧ frame n s.2 s'.2) s.
Proof using All.
  revert s l k. induction vs as [|v vs IH]; intros s l k Hb He -> Hlt; simpl.
  { wp_step. rewrite app_nil_r. split_and!; [lia|done|done|done]. }
  simpl in Hlt. wp_step. apply wp_on_base. rewrite Hb. apply wp_base_put.
  wp_step. apply wp_lift; [|intros E; by rewrite u64_add_fits in E by lia].
  intros k' [-> _]%u64_add_Ret.
  eapply wp_mono; [apply (IH _ (l ++ [v])); simpl|].
  - done.
  - apply elems_push; [lia|done].
  - rewrite length_app. simpl. lia.
  - lia.
  - intros k' s' (-> & E1 & He' & Hf). simpl in *. rewrite <-app_assoc in He'.
    split_and!; [lia|done|done|]. etrans; [|done]. apply frame_put.
Qed.

Lemma extend_spec n s l vs :
  index_rep n s l → Z.of_nat (length l + length vs) < u64_bound →
  wp False (ListIndex.extend vs) (λ _ s', index_rep n s' (l ++ vs) ∧ frame n s.2 s'.2) s.
Proof using All.
  intros Hr Hlt. unfold ListIndex.extend. wp_step. eapply wp_mono; [by apply len_spec|].
  intros k s' (-> & Edb & (Eb & Ec & Hr') & _). wp_step.
  eapply wp_mono; [eapply (extend_loop_spec n _ l); [done|apply Hr'|done|lia]|].
  intros k' s2 (-> & E1 & He & Hf). wp_step. apply wp_on_base. rewrite E1, Eb. apply wp_base_put.
  eapply wp_mono; [eapply (set_len_spec n _ (l ++ vs)); simpl|].
  - by rewrite Eb.
  - by apply elems_put_zero.
  - rewrite length_app. lia.
  - lia.
  - intros _ s3 [Hs3 Hf3]. simpl in Hf3. split; [done|].
    rewrite <-Edb. etrans; [exact Hf|]. etrans; [|exact Hf3]. apply frame_put.
Qed.

Lemma last_spec n s l :
  index_rep n s l →
  wp False (ListIndex.last (V := V)) (λ r s', r = list.last l ∧ s'.2 = s.2 ∧ index_rep n s' l) s.
Proof using All.
  intros Hr. unfold ListIndex.last. wp_step. eapply wp_mono; [by apply len_spec|].
  intros k s' (-> & Edb & Hr' & _). destruct (Z.eqb_spec (Z.of_nat (length l)) 0).
  { wp_step. destruct l; [done|simpl in *; lia]. }
  unfold wp. rewrite (get_spec n s' l) by (done || (destruct Hr' as (_ & _ & ? & _); split; lia)).
  split_and!; [|done|done]. rewrite last_lookup. f_equal. lia.
Qed.

(** *** The refinement *)

Inductive list_op : Type :=
| OPush (v : V) | OPop | OSet (i : Z) (v : V) | OTruncate (k : Z) | OExtend (vs : list V).

Definition exec_op (op : list_op) : M (ListIndex.t * DB) (option V) :=
  match op with
  | OPush v => ListIndex.push v;; mret None
  | OPop => ListIndex.pop
  | OSet i v => ListIndex.set i v;; mret None
  | OTruncate k => ListIndex.truncate k;; mret None
  | OExtend vs => ListIndex.extend vs;; mret None
  end.

(** The same operations on a plain list; [None] is a panic. *)
Definition abs_op (op : list_op) (l : list V) : option (option V * list V) :=
  match op with
  | OPush v => Some (None, l ++ [v])
  | OPop => Some (list.last l, take (length l - 1) l)
  | OSet i v => if bool_decide (i < Z.of_nat (length l)) then Some (None, <[Z.to_nat i := v]> l) else None
  | OTruncate k => Some (None, take (Z.to_nat k) l)
  | OExtend vs => Some (None, l ++ vs)
  end.

(** Indices are unsigned, and the list does not reach 2^64 elements. *)
Definition op_fits (op : list_op) (l : list V) : Prop :=
  match op with
  | OPush _ => Z.of_nat (length l) + 1 < u64_bound
  | OPop => True
  | OSet i _ => 0 ≤ i
  | OTruncate k => 0 ≤ k
  | OExtend vs => Z.of_nat (length l + length vs) < u64_bound
  end.

Lemma exec_op_spec n s l op :
  index_rep n s l → op_fits op l →
  match abs_op op l with
  | Some (r, l') => wp False (exec_op op) (λ r' s', r' = r ∧ index_rep n s' l' ∧ frame n s.2 s'.2) s
  | None => exec_op op s = Panic
  end.
Proof using All.
  intros Hr Hf. destruct op as [v| |i v|k|vs]; simpl in *.
  - wp_step. eapply wp_mono; [by apply push_spec|]. intros _ s' [? ?]. wp_step. by auto.
  - eapply wp_mono; [by apply pop_spec|]. intros r s' (-> & ? & ?). by auto.
  - case_bool_decide.
    + wp_step. eapply wp_mono; [by apply set_spec|]. intros _ s' [? ?]. wp_step. by auto.
    + unfold mbind, M_mbind, M_bind. by rewrite (set_panics n s l) by (done || lia).
  - wp_step. eapply wp_mono; [by apply truncate_spec|]. intros _ s' [? ?]. wp_step. by auto.
  - wp_step. eapply wp_mono; [by apply extend_spec|]. intros _ s' [? ?]. wp_step. by auto.
Qed.

Lemma clear_list n s l :
  index_rep n s l → ∃ s', ListIndex.clear s = Ret (tt, s') ∧ index_rep n s' [] ∧ cleared n s.2 s'.2.
Proof using All.
  destruct s as [[b c] db]. intros (Eb & _). simpl in Eb. subst b.
  destruct (clear_spec n IList db) as (db' & E & Hc).
  unfold ListIndex.clear, ListIndex.set_cell, ListIndex.on_base, mbind, M_mbind, M_bind, modify.
  cbn [fst snd ListIndex.base]. rewrite E.
  eexists. split; [done|]. split; [|done]. split; [done|]. split; [by right|]. simpl.
  assert (∀ kb, db_get (key_of n kb) db' = None) as Hn.
  { intros kb. apply (cleared_prefix n db db' _ Hc). by eexists. }
  split_and!; [done|by right|]. intros i _. by rewrite Hn, lookup_nil.
Qed.

(** C21 [ListIndex] over the key-value store refines a list: [push], [pop],
    [set], [truncate] and [extend] terminate and do to the stored elements
    what the same operation does to a plain list, for unsigned indices and
    lists that stay below 2^64 elements, [set] out of range panics as it
    should, the reads [get], [len], [is_empty] and [last] return what the
    list holds, and none of these touches a key outside the index.  [clear]
    leaves the empty list, and deletes besides every key at which the
    database's iterator goes on after the index. *)
Theorem list_index_refines (n : string) (s : ListIndex.t * DB) (l : list V) (op : list_op) :
  index_rep n s l → op_fits op l →
  (match abs_op op l with
   | Some (r, l') => ∃ s', exec_op op s = Ret (r, s') ∧ index_rep n s' l' ∧ frame n s.2 s'.2
   | None => exec_op op s = Panic
   end) ∧
  (∃ s', ListIndex.clear s = Ret (tt, s') ∧ index_rep n s' [] ∧ cleared n s.2 s'.2) ∧
  (∀ i, is_u64 i → ListIndex.get (V := V) i s = Ret (l !! Z.to_nat i, s)) ∧
  (∃ s', ListIndex.len s = Ret (Z.of_nat (length l), s') ∧ index_rep n s' l ∧ s'.2 = s.2) ∧
  (∃ s', ListIndex.is_empty s = Ret (Z.of_nat (length l) =? 0, s') ∧ index_rep n s' l ∧ s'.2 = s.2) ∧
  (∃ s', ListIndex.last s = Ret (list.last l, s') ∧ index_rep n s' l ∧ s'.2 = s.2).
Proof using All.
  intros Hr Hf. destruct (wp_total _ _ _ (len_spec n s l Hr)) as (? & s1 & El & -> & ? & ? & _). split_and!.
  - pose proof (exec_op_spec n s l op Hr Hf) as He. destruct (abs_op op l) as [[r l']|]; [|done].
    apply wp_total in He as (r' & s' & E & -> & ?). eauto.
  - by eapply clear_list.
  - intros i Hi. by apply (get_spec n).
  - by exists s1.
  - exists s1. unfold ListIndex.is_empty, mbind, M_mbind, M_bind. by rewrite El.
  - destruct (wp_total _ _ _ (last_spec n s l Hr)) as (? & s' & E & -> & ? & ?). by exists s'.
Qed.
End list_index_props.
