(* ===== verification/Ledger.v ===== *)
(** * The ledger and the chain ([src/core/ledger.rs], [chain.rs], [genesis.rs])

    [Ledger] keeps the last block's data, two LRU caches and the store;
    [Chain] wraps it, refuses blocks that exist or leave a gap, and posts
    events to its subscribers.  The ledger refines a list of blocks, one per
    height. *)

From S2P Require Import Prelude External Types Validators Protocol Wire Store.

Abbreviation PeerId := (list Z).

Inductive ChainEvent : Type :=
| NewBlock (b : Block.t)
| NewHeader (h : Header.t)
| SyncBlock (height : Height)
| PostBlock (peer : option PeerId) (blocks : list Block.t).

(** ** Configuration ([src/config/mod.rs]) *)

Module GenesisConfig.
Record t : Type := mk {
  validator : list string; epoch_time : string; proposer : string; gas_used : Z; extra : string }.
End GenesisConfig.

(** Durations are in milliseconds, as [serde_millis] reads them. *)
Module ChainConfig.
Record t : Type := mk {
  chain_id : Z; ip : string; port : Z; api_ip : string; api_port : Z; block_period : Z;
  request_time : Z; peer_id : string; ttl : Z; store : string; secret : string;
  genesis : option GenesisConfig.t }.
Definition default (random_dir : string) : t :=
  mk 98 "127.0.0.1" 7960 "0.0.0.0" 8960 3000 3000
     "QmbBr2fHwLFKvHkAq1BpbEr4dvR8P6orQxHkVaxeJsJiW8" 5000 random_dir "" None.
End ChainConfig.

(** [common::string_to_address]; [from_str(..).unwrap()] panics.  The
    lengths are in bytes. *)
Definition string_to_address `{Chrono} (s : string) : outcome (result Address string) :=
  if (String.length s <? 40)%nat then mret (Err "less than 40 chars"%string)
  else if (42 <? String.length s)%nat then mret (Err "more than 42 chars"%string)
  else if (String.length s =? 42)%nat then
    a ← unwrap (address_from_str (String.substring 2 40 s)); mret (Ok a)
  else a ← unwrap (address_from_str s); mret (Ok a).

Fixpoint strings_to_addresses `{Chrono} (strs : list string) : outcome (result (list Address) string) :=
  match strs with
  | [] => mret (Ok [])
  | s :: rest =>
      r ← string_to_address s;
      match r with
      | Err e => mret (Err e)
      | Ok a =>
          rs ← strings_to_addresses rest;
          mret (match rs with Ok l => Ok (a :: l) | Err e => Err e end)
      end
  end.

Module LastMeta.
Record t : Type := new { height : Height; block_hash : Hash; header : Header.t; block : Block.t }.
Definition new_zero : t := new 0 EMPTY_HASH Header.zero_header (Block.new Header.zero_header []).
End LastMeta.

Module Ledger.
Section ledger.
Context {DB HC BC : Type} `{Database DB, LruCache HC Hash Header.t, LruCache BC Hash Block.t}.
Context `{CryptoKit, Codec, Chrono}.

Record t : Type := mk {
  meta : LastMeta.t; header_cache : HC; block_cache : BC; genesis : option Block.t;
  validators : list Validator.t; db : DB }.

Definition new (meta : LastMeta.t) (hc : HC) (bc : BC) (vs : list Validator.t) (db : DB) : t :=
  mk meta hc bc None vs db.

Definition set_meta (m : LastMeta.t) (l : t) : t :=
  mk m (header_cache l) (block_cache l) (genesis l) (validators l) (db l).
Definition set_header_cache (c : HC) (l : t) : t :=
  mk (meta l) c (block_cache l) (genesis l) (validators l) (db l).
Definition set_block_cache (c : BC) (l : t) : t :=
  mk (meta l) (header_cache l) c (genesis l) (validators l) (db l).
Definition set_genesis (g : option Block.t) (l : t) : t :=
  mk (meta l) (header_cache l) (block_cache l) g (validators l) (db l).
Definition set_validators (vs : list Validator.t) (l : t) : t :=
  mk (meta l) (header_cache l) (block_cache l) (genesis l) vs (db l).
Definition set_db (d : DB) (l : t) : t :=
  mk (meta l) (header_cache l) (block_cache l) (genesis l) (validators l) d.

(** An operation on the store. *)
Definition on_db {A : Type} (m : M DB A) : M t A :=
  λ l, match m (db l) with Ret (a, d) => Ret (a, set_db d l) | Panic => Panic end.
(** Reads and writes of the two caches. *)
Definition header_cache_get (h : Hash) : M t (option Header.t) :=
  λ l, let '(o, c) := lru_get h (header_cache l) in Ret (o, set_header_cache c l).
Definition header_cache_insert (h : Hash) (x : Header.t) : M t unit :=
  modify (λ l, set_header_cache (lru_insert h x (header_cache l)) l).
Definition block_cache_get (h : Hash) : M t (option Block.t) :=
  λ l, let '(o, c) := lru_get h (block_cache l) in Ret (o, set_block_cache c l).
Definition block_cache_insert (h : Hash) (x : Block.t) : M t unit :=
  modify (λ l, set_block_cache (lru_insert h x (block_cache l)) l).

Definition get_last_block_height (l : t) : Height := LastMeta.height (meta l).
Definition get_last_block_header (l : t) : Header.t := LastMeta.header (meta l).
Definition get_last_block (l : t) : Block.t := LastMeta.block (meta l).
Definition get_last_block_hash (l : t) : Hash := LastMeta.block_hash (meta l).
Definition get_validators (_height : Height) (l : t) : list Validator.t := validators l.

Definition get_transaction (tx_hash : Hash) : M t (option Transaction.t) :=
  on_db (MapIndex.get tx_hash Schema.transaction).
Definition get_block_hash_by_height (height : Height) : M t (option Hash) :=
  on_db (Schema.block_hash_by_height height).
Definition get_block_header (block_hash : Hash) : M t (option Header.t) :=
  o ← header_cache_get block_hash;
  match o with
  | Some header => mret (Some header)
  | None => on_db (MapIndex.get block_hash Schema.headers)
  end.

(** The closure of [get_block] and [get_block_by_height]: the transactions
    of a block, each of which must be stored. *)
Fixpoint load_transactions (hashes : list Hash) : M t (list Transaction.t) :=
  match hashes with
  | [] => mret []
  | h :: rest =>
      o ← on_db (MapIndex.get h Schema.transaction);
      tx ← lift (unwrap o);
      txs ← load_transactions rest;
      mret (tx :: txs)
  end.
Definition load_block (block_hash : Hash) : M t (option Block.t) :=
  oh ← on_db (MapIndex.get (V := Header.t) block_hash Schema.headers);
  match oh with
  | None => mret None
  | Some header =>
      oe ← on_db (MapIndex.get block_hash Schema.transaction_hashes);
      entry ← lift (unwrap oe);
      txs ← load_transactions entry;
      mret (Some (Block.new header txs))
  end.

Definition get_block (block_hash : Hash) : M t (option Block.t) :=
  o ← block_cache_get block_hash;
  match o with
  | Some block => mret (Some block)
  | None =>
      r ← load_block block_hash;
      match r with
      | Some block =>
          block_cache_insert block_hash block;;
          header_cache_insert block_hash (Block.header block);;
          mret (Some block)
      | None => mret None
      end
  end.
Definition get_transactions : M t (list Transaction.t) :=
  l ← on_db (MapIndex.iter (K := Hash) Schema.transaction); mret (l.*2).

Definition get_block_by_height (height : Height) : M t (option Block.t) :=
  oh ← on_db (Schema.block_hash_by_height height);
  match oh with
  | None => mret None
  | Some block_hash =>
      o ← block_cache_get block_hash;
      match o with
      | Some block => mret (Some block)
      | None => load_block block_hash
      end
  end.
Definition get_header_by_height (height : Height) : M t (option Header.t) :=
  oh ← on_db (Schema.block_hash_by_height height);
  match oh with
  | None => mret None
  | Some block_hash =>
      o ← header_cache_get block_hash;
      match o with
      | Some header => mret (Some header)
      | None =>
          r ← on_db (MapIndex.get block_hash Schema.headers);
          match r with
          | Some header => header_cache_insert block_hash header;; mret (Some header)
          | None => mret None
          end
      end
  end.
Definition get_genesis_block : M t (option Block.t) :=
  g ← gets genesis;
  match g with
  | Some b => mret (Some b)
  | None =>
      o ← get_block_by_height 0;
      match o with
      | Some block => modify (set_genesis (Some block));; mret (Some block)
      | None => mret None
      end
  end.

Definition update_meta (block : Block.t) : M t unit :=
  modify (set_meta (LastMeta.new (Header.height (Block.header block)) (Block.hash block)
                      (Block.header block) block)).

Fixpoint put_transactions (txs : list Transaction.t) : M t (list Hash) :=
  match txs with
  | [] => mret []
  | tx :: rest =>
      tx_hash ← lift (Transaction.crypto_hash tx);
      on_db (MapIndex.put tx_hash tx Schema.transaction);;
      hashes ← put_transactions rest;
      mret (tx_hash :: hashes)
  end.

(** The height index: push, then the two assertions on the same object. *)
Definition push_height (hash : Hash) (height : Height) : M DB unit :=
  ListIndex.with_list Schema.BLOCK_HASHES_BY_HEIGHT (
    ListIndex.push hash;;
    last ← ListIndex.last;
    last ← lift (unwrap last);
    rassert (bool_decide (last = hash));;
    len ← ListIndex.len;
    next ← lift (u64_add height 1);
    rassert (len =? next)).

Definition add_block (block : Block.t) : M t unit :=
  let header := Block.header block in
  let hash := Header.block_hash header in
  meta_height ← gets (λ l, Header.height (LastMeta.header (meta l)));
  if (Header.height header <=? meta_height) && negb (Block.height block =? 0) then mret tt
  else
    on_db (MapIndex.put hash header Schema.headers);;
    tx_hashes ← put_transactions (Block.transactions block);
    on_db (MapIndex.put hash tx_hashes Schema.transaction_hashes);;
    on_db (push_height hash (Block.height block));;
    header_cache_insert hash header;;
    block_cache_insert hash block;;
    update_meta block;;
    rassert (timestamp_in_range (as_i64 (Header.time header))).

Definition add_genesis_block (block : Block.t) : M t unit :=
  add_block block;; modify (set_genesis (Some block)).

Definition add_validators (vs : list Validator.t) : M t unit :=
  on_db (Entry.set (ValidatorArray.from_validators vs) Schema.validators);;
  modify (set_validators vs).
Definition reload_meta : M t unit :=
  o ← on_db (ListIndex.with_list Schema.BLOCK_HASHES_BY_HEIGHT ListIndex.last);
  last_hash ← lift (unwrap o);
  ob ← get_block last_hash;
  last_block ← lift (unwrap ob);
  update_meta last_block.

(** [core/genesis.rs] *)
Definition store_genesis_block (genesis_config : GenesisConfig.t) : M t (result unit string) :=
  g ← get_genesis_block;
  match g with
  | Some _ => reload_meta;; mret (Ok tt)
  | None =>
      vs ← lift (mapM (λ v, r ← string_to_address v;
                            match r with Ok a => Ret (Validator.new a) | Err _ => Panic end)
                  (GenesisConfig.validator genesis_config));
      add_validators vs;;
      proposer ←? lift (string_to_address (GenesisConfig.proposer genesis_config));
      epoch_time ←? mret (datetime_from_str (GenesisConfig.epoch_time genesis_config));
      gas_limit ← lift (u64_add (GenesisConfig.gas_used genesis_config) 10);
      let header := Header.new EMPTY_HASH proposer EMPTY_HASH EMPTY_HASH EMPTY_HASH 0 0 0
        gas_limit (GenesisConfig.gas_used genesis_config) (epoch_time mod u64_bound) None
        (Some (as_bytes (GenesisConfig.extra genesis_config))) in
      add_genesis_block (Block.new header []);;
      mret (Ok tt)
  end.
End ledger.
Arguments t : clear implicits.
End Ledger.

(** ** The chain *)

Module Chain.
Section chain.
Context {DB HC BC : Type} `{Database DB, LruCache HC Hash Header.t, LruCache BC Hash Block.t}.
Context `{CryptoKit, Codec, Chrono}.

(** [events] is what was sent to the subscriber so far, [clk] what the
    clocks show to the next call. *)
Record t : Type := mk {
  ledger : Ledger.t DB HC BC; genesis : option Block.t; sync_limiter : Z;
  config : ChainConfig.t; events : list ChainEvent; clk : Clk.t }.

Definition new (config : ChainConfig.t) (ledger : Ledger.t DB HC BC) (clk : Clk.t) : t :=
  mk ledger None (Clk.instant clk) config [] clk.
Definition set_ledger (l : Ledger.t DB HC BC) (c : t) : t :=
  mk l (genesis c) (sync_limiter c) (config c) (events c) (clk c).
Definition set_genesis (g : option Block.t) (c : t) : t :=
  mk (ledger c) g (sync_limiter c) (config c) (events c) (clk c).
Definition set_sync_limiter (x : Z) (c : t) : t :=
  mk (ledger c) (genesis c) x (config c) (events c) (clk c).
(** [subscriber.do_send(event)] *)
Definition do_send (e : ChainEvent) : M t unit :=
  modify (λ c, mk (ledger c) (genesis c) (sync_limiter c) (config c) (events c ++ [e]) (clk c)).

Definition on_ledger {A : Type} (m : M (Ledger.t DB HC BC) A) : M t A :=
  λ c, match m (ledger c) with Ret (a, l) => Ret (a, set_ledger l c) | Panic => Panic end.

(** [SyncBlock] at most every 50 ms; [duration_since] panics when the
    limiter is in the future. *)
Definition post_event (event : ChainEvent) : M t unit :=
  match event with
  | SyncBlock _ =>
      c ← gets (λ c, c);
      rassert (sync_limiter c <=? Clk.instant (clk c));;
      when (50 <? (Clk.instant (clk c) - sync_limiter c) / 1000000)
        (do_send event;;
         modify (set_sync_limiter (Clk.instant' (clk c))))
  | _ => do_send event
  end.

Definition insert_block (block : Block.t) : M t ChainResult :=
  old ← on_ledger (Ledger.get_block_by_height (Block.height block));
  match old with
  | Some _ => mret (Err (Exists (Block.hash block)))
  | None =>
      last_height ← gets (λ c, Ledger.get_last_block_height (ledger c));
      next ← lift (u64_add last_height 1);
      if next <? Block.height block then
        post_event (SyncBlock next);;
        mret (Err (ChainUnknown "Not found ancestor"))
      else
        on_ledger (Ledger.add_block block);;
        do_send (NewBlock block);;
        do_send (NewHeader (Block.header block));;
        mret (Ok tt)
  end.
Definition insert_block_mock (block : Block.t) : M (Ledger.t DB HC BC) ChainResult :=
  old ← Ledger.get_block_by_height (Block.height block);
  match old with
  | Some _ => mret (Err (Exists (Block.hash block)))
  | None => Ledger.add_block block;; mret (Ok tt)
  end.

Definition get_last_height (c : t) : Height := Ledger.get_last_block_height (ledger c).
Definition get_last_block (c : t) : Block.t := Ledger.get_last_block (ledger c).
Definition get_last_hash (c : t) : Hash := Ledger.get_last_block_hash (ledger c).
Definition get_validators (height : Height) (c : t) : list Validator.t :=
  Ledger.get_validators height (ledger c).
Definition get_block_by_hash (h : Hash) : M t (option Block.t) := on_ledger (Ledger.get_block h).
Definition get_block_hash_by_height (height : Height) : M t (option Hash) :=
  on_ledger (Ledger.get_block_hash_by_height height).
Definition get_block_by_height (height : Height) : M t (option Block.t) :=
  o ← get_block_hash_by_height height;
  match o with Some hash => get_block_by_hash hash | None => mret None end.
Definition get_transactions : M t (list Transaction.t) := on_ledger Ledger.get_transactions.
Definition get_header_by_height (height : Height) : M t (option Header.t) :=
  on_ledger (Ledger.get_header_by_height height).
Definition add_validators (_height : Height) (addresses : list Address) : M t ChainResult :=
  on_ledger (Ledger.add_validators (Validator.new <$> addresses));; mret (Ok tt).
Definition get_genesis : M t Block.t := g ← gets genesis; lift (unwrap g).
Definition store_genesis_block : M t ChainResult :=
  cfg ← gets (λ c, ChainConfig.genesis (config c));
  gc ← lift (unwrap cfg);
  r ← on_ledger (Ledger.store_genesis_block gc);
  match r with
  | Ok _ =>
      g ← on_ledger Ledger.get_genesis_block;
      g ← lift (unwrap g);
      modify (set_genesis (Some g));; mret (Ok tt)
  | Err e => mret (Err (ChainUnknown e))
  end.
End chain.
Arguments t : clear implicits.
End Chain.

(** ** The ledger refines a list of blocks *)

(** Membership in the list of index names, and that two names differ. *)
Ltac names :=
  solve [ done
        | unfold Schema.names; repeat first [apply list_elem_of_here|apply list_elem_of_further]
        | let E := fresh in intros E; vm_compute in E; discriminate E ].

Section ledger_props.
Context {DB HC BC : Type} `{DatabaseLaws DB}.
Context `{HCC : LruCache HC Hash Header.t, !LruCacheLaws HC Hash Header.t}.
Context `{BCC : LruCache BC Hash Block.t, !LruCacheLaws BC Hash Block.t}.
Context `{CryptoKit} `{CodecLaws} `{Chrono}.
Abbreviation Ledger := (Ledger.t DB HC BC).
Implicit Types (l : Ledger) (bs : list Block.t) (b : Block.t).

(** Blocks and headers with the same identity that agree on every field
    serialisation keeps. *)
Definition block_equiv (b b' : Block.t) : Prop :=
  Block.wire b = Block.wire b' ∧ Block.hash b = Block.hash b'.
Definition header_equiv (h h' : Header.t) : Prop :=
  Header.wire h = Header.wire h' ∧ Header.block_hash h = Header.block_hash h'.

#[global] Instance block_equiv_equivalence : Equivalence block_equiv.
Proof. unfold block_equiv. split; red; intuition congruence. Qed.
#[global] Instance header_equiv_equivalence : Equivalence header_equiv.
Proof. unfold header_equiv. split; red; intuition congruence. Qed.

(** The transactions of a block are stored under their hashes. *)
Definition tx_stored (d : DB) (tx : Transaction.t) (h : Hash) : Prop :=
  Transaction.crypto_hash tx = Ret h ∧
  ∃ tx', db_get (key_of Schema.TRANSACTIONS h) d = Some (into_bytes tx') ∧
    Transaction.wire tx' = Transaction.wire tx.
Definition block_stored (d : DB) (b : Block.t) : Prop :=
  db_get (key_of Schema.HEADERS (Block.hash b)) d = Some (into_bytes (Block.header b)) ∧
  ∃ hs, db_get (key_of Schema.TRANSACTIONS_HASH (Block.hash b)) d = Some (into_bytes hs) ∧
    Forall2 (tx_stored d) (Block.transactions b) hs.

Lemma crypto_hash_tx_wire tx : Transaction.crypto_hash (Transaction.wire tx) = Transaction.crypto_hash tx.
Proof. by destruct tx. Qed.

(** What an entry of the index of transactions is. *)
Definition tx_entry (txs : list Transaction.t) (k v : bytes) : Prop :=
  ∃ tx h, tx ∈ txs ∧ Transaction.crypto_hash tx = Ret h ∧
    k = key_of Schema.TRANSACTIONS h ∧ v = into_bytes tx.
Definition txs_only (d : DB) (txs : list Transaction.t) : Prop :=
  ∀ k v, as_bytes Schema.TRANSACTIONS `prefix_of` k → db_get k d = Some v → tx_entry txs k v.

Record store_rep (l : Ledger) (bs : list Block.t) : Prop := {
  rep_hashes : list_rep Schema.BLOCK_HASHES_BY_HEIGHT (Ledger.db l) (Block.hash <$> bs);
  rep_heights : ∀ i b, bs !! i = Some b → Block.height b = Z.of_nat i;
  rep_stored : ∀ b, b ∈ bs → block_stored (Ledger.db l) b;
  rep_header_cache : ∀ h x, (lru_get h (Ledger.header_cache l)).1 = Some x →
    ∃ b, b ∈ bs ∧ Block.hash b = h ∧ header_equiv x (Block.header b);
  rep_block_cache : ∀ h x, (lru_get h (Ledger.block_cache l)).1 = Some x →
    ∃ b, b ∈ bs ∧ Block.hash b = h ∧ block_equiv x b;
  rep_nodup : NoDup (Block.hash <$> bs);
  rep_coherent : ∀ b, b ∈ bs → Header_coherent (Block.header b);
  rep_txs : txs_only (Ledger.db l) (bs ≫= Block.transactions)
}.

(** The data of the last block. *)
Definition meta_rep (m : LastMeta.t) (bs : list Block.t) : Prop :=
  match last bs with
  | Some b => LastMeta.height m = Block.height b ∧
              Header.height (LastMeta.header m) = Block.height b ∧
              LastMeta.block_hash m = Block.hash b ∧ block_equiv (LastMeta.block m) b
  | None => LastMeta.height m = 0 ∧ Header.height (LastMeta.header m) = 0
  end.

Definition ledger_rep (l : Ledger) (bs : list Block.t) : Prop :=
  store_rep l bs ∧ meta_rep (Ledger.meta l) bs.

Lemma block_header_equiv b b' : block_equiv b b' → header_equiv (Block.header b) (Block.header b').
Proof. unfold block_equiv, header_equiv, Block.wire, Block.hash. intuition congruence. Qed.

Lemma wp_on_db {A} P (m : M DB A) (Q : A → Ledger → Prop) l :
  wp P m (λ a d, Q a (Ledger.set_db d l)) (Ledger.db l) → wp P (Ledger.on_db m) Q l.
Proof. unfold wp, Ledger.on_db. destruct (m (Ledger.db l)) as [[a d]|]; done. Qed.

Lemma set_db_id l : Ledger.set_db (Ledger.db l) l = l.
Proof. by destruct l. Qed.

Lemma rep_hash_inj l bs b b' :
  store_rep l bs → b ∈ bs → b' ∈ bs → Block.hash b = Block.hash b' → b = b'.
Proof.
  intros Hr [i Hi]%list_elem_of_lookup [j Hj]%list_elem_of_lookup E.
  assert (i = j) as ->; [|congruence].
  eapply (NoDup_lookup (Block.hash <$> bs)); [apply Hr|..]; rewrite list_lookup_fmap.
  - by rewrite Hi.
  - rewrite Hj. simpl. by rewrite E.
Qed.

(** Reading the database through a cold or warm cache. *)
Lemma wp_block_hash_by_height P l bs ht (Q : option Hash → Ledger → Prop) :
  store_rep l bs → is_u64 ht →
  Q (Block.hash <$> bs !! Z.to_nat ht) l →
  wp P (Ledger.on_db (Schema.block_hash_by_height ht)) Q l.
Proof using All.
  intros Hr Hh HQ. apply wp_on_db. unfold Schema.block_hash_by_height, ListIndex.with_list, wp.
  rewrite (get_spec Schema.BLOCK_HASHES_BY_HEIGHT _ (Block.hash <$> bs)); [|split; [done|]|done].
  - by rewrite list_lookup_fmap, set_db_id.
  - split; [by left|apply Hr].
Qed.

(** Reads change nothing but the caches. *)
Definition same_but_caches (l l' : Ledger) : Prop :=
  Ledger.db l' = Ledger.db l ∧ Ledger.meta l' = Ledger.meta l ∧
  Ledger.genesis l' = Ledger.genesis l ∧ Ledger.validators l' = Ledger.validators l.

#[local] Instance same_but_caches_preorder : PreOrder same_but_caches.
Proof. split; [by repeat split|]. intros l1 l2 l3 (?&?&?&?) (?&?&?&?). repeat split; congruence. Qed.

Lemma same_but_caches_rep l l' bs :
  ledger_rep l bs → same_but_caches l l' → store_rep l' bs → ledger_rep l' bs.
Proof. intros [_ Hm] (_ & E & _) Hs. split; [done|]. by rewrite E. Qed.

Lemma rep_header_cache_change l bs c :
  store_rep l bs →
  (∀ h x, (lru_get h c).1 = Some x → ∃ b, b ∈ bs ∧ Block.hash b = h ∧ header_equiv x (Block.header b)) →
  store_rep (Ledger.set_header_cache c l) bs.
Proof. intros [] Hc. by split. Qed.

Lemma rep_block_cache_change l bs c :
  store_rep l bs →
  (∀ h x, (lru_get h c).1 = Some x → ∃ b, b ∈ bs ∧ Block.hash b = h ∧ block_equiv x b) →
  store_rep (Ledger.set_block_cache c l) bs.
Proof. intros [] Hc. by split. Qed.

Lemma lru_insert_inv {C V} `{LruCacheLaws C Hash V} (h k : Hash) (x v : V) (c : C) :
  (lru_get k (lru_insert h x c)).1 = Some v → (k = h ∧ v = x) ∨ (lru_get k c).1 = Some v.
Proof.
  intros E. destruct (decide (k = h)) as [->|Hne].
  - left. rewrite lru_get_insert_eq in E. by injection E.
  - right. by eapply lru_get_insert_ne.
Qed.

Lemma header_cache_get_spec l bs h :
  store_rep l bs →
  wp False (Ledger.header_cache_get h) (λ o l', same_but_caches l l' ∧ store_rep l' bs ∧
    ∀ x, o = Some x → ∃ b, b ∈ bs ∧ Block.hash b = h ∧ header_equiv x (Block.header b)) l.
Proof using All.
  intros Hr. unfold wp, Ledger.header_cache_get.
  destruct (lru_get h (Ledger.header_cache l)) as [o c] eqn:E. split_and!; [done| |].
  - apply rep_header_cache_change; [done|]. intros k x Hx. apply Hr.
    replace c with (lru_get h (Ledger.header_cache l)).2 in Hx by by rewrite E.
    by rewrite lru_get_get in Hx.
  - intros x ->. apply Hr. by rewrite E.
Qed.

Lemma block_cache_get_spec l bs h :
  store_rep l bs →
  wp False (Ledger.block_cache_get h) (λ o l', same_but_caches l l' ∧ store_rep l' bs ∧
    ∀ x, o = Some x → ∃ b, b ∈ bs ∧ Block.hash b = h ∧ block_equiv x b) l.
Proof using All.
  intros Hr. unfold wp, Ledger.block_cache_get.
  destruct (lru_get h (Ledger.block_cache l)) as [o c] eqn:E. split_and!; [done| |].
  - apply rep_block_cache_change; [done|]. intros k x Hx. apply Hr.
    replace c with (lru_get h (Ledger.block_cache l)).2 in Hx by by rewrite E.
    by rewrite lru_get_get in Hx.
  - intros x ->. apply Hr. by rewrite E.
Qed.

Lemma header_cache_insert_rep l bs b x :
  store_rep l bs → b ∈ bs → header_equiv x (Block.header b) →
  store_rep (Ledger.set_header_cache (lru_insert (Block.hash b) x (Ledger.header_cache l)) l) bs.
Proof using All.
  intros Hr Hb Hx. apply rep_header_cache_change; [done|].
  intros k v [[-> ->]|E]%lru_insert_inv; [eauto|by apply Hr].
Qed.

Lemma block_cache_insert_rep l bs b x :
  store_rep l bs → b ∈ bs → block_equiv x b →
  store_rep (Ledger.set_block_cache (lru_insert (Block.hash b) x (Ledger.block_cache l)) l) bs.
Proof using All.
  intros Hr Hb Hx. apply rep_block_cache_change; [done|].
  intros k v [[-> ->]|E]%lru_insert_inv; [eauto|by apply Hr].
Qed.

(** Decoding a stored header or block. *)
Lemma wp_get_header P l h x (Q : option Header.t → Ledger → Prop) :
  db_get (key_of Schema.HEADERS h) (Ledger.db l) = Some (into_bytes x) →
  Q (Some (Header.wire x)) l →
  wp P (Ledger.on_db (MapIndex.get h Schema.headers)) Q l.
Proof using All.
  intros E HQ. apply wp_on_db. apply (wp_base_get (w := Header.wire)) with (o := Some x).
  - by rewrite key_hash_bytes.
  - by rewrite set_db_id.
Qed.

Lemma load_transactions_spec l txs hs :
  Forall2 (tx_stored (Ledger.db l)) txs hs →
  wp False (Ledger.load_transactions hs)
    (λ r l', l' = l ∧ r = Transaction.wire <$> txs) l.
Proof using All.
  induction 1 as [|tx h txs hs (_ & tx' & E & Ew) _ IH]; simpl; [by wp_step|].
  wp_step. apply wp_on_db. apply (wp_base_get (w := Transaction.wire)) with (o := Some tx').
  { by rewrite key_hash_bytes. }
  rewrite set_db_id. wp_step. apply wp_lift; [|done]. intros tx0 [= <-].
  wp_step. eapply wp_mono; [exact IH|]. intros r l' [-> ->]. wp_step. by rewrite Ew.
Qed.

Lemma load_block_spec l bs b :
  store_rep l bs → b ∈ bs →
  wp False (Ledger.load_block (Block.hash b)) (λ o l', l' = l ∧ o = Some (Block.wire b)) l.
Proof using All.
  intros Hr Hb. destruct (rep_stored _ _ Hr b Hb) as [Eh (hs & Ehs & Htx)].
  unfold Ledger.load_block. wp_step. eapply wp_get_header; [done|]. cbn beta iota.
  wp_step. apply wp_on_db. apply (wp_base_get (w := λ x, x)) with (o := Some hs).
  { by rewrite key_hash_bytes. }
  rewrite set_db_id. wp_step. apply wp_lift; [|done]. intros hs0 [= <-].
  wp_step. eapply wp_mono; [by apply load_transactions_spec|]. intros r l' [-> ->]. by wp_step.
Qed.

Lemma header_wire_equiv x : Header_coherent x → header_equiv (Header.wire x) x.
Proof using All. intros Hc. split; [done|by apply block_hash_wire]. Qed.

Lemma block_wire_equiv b : Header_coherent (Block.header b) → block_equiv (Block.wire b) b.
Proof using All.
  intros Hc. split; [|by apply block_hash_wire].
  unfold Block.wire. simpl. f_equal. rewrite <-list_fmap_compose. by apply list_fmap_ext.
Qed.

(** *** Lookups by height *)

Lemma ledger_get_block_by_height_spec l bs ht :
  store_rep l bs → is_u64 ht →
  wp False (Ledger.get_block_by_height ht) (λ o l', same_but_caches l l' ∧ store_rep l' bs ∧
    match bs !! Z.to_nat ht with
    | Some b => ∃ b', o = Some b' ∧ block_equiv b' b
    | None => o = None
    end) l.
Proof using All.
  intros Hr Hh. unfold Ledger.get_block_by_height. wp_step.
  eapply wp_block_hash_by_height; [done..|].
  destruct (bs !! Z.to_nat ht) as [b|] eqn:Eb; simpl; [|by wp_step].
  apply list_elem_of_lookup_2 in Eb. wp_step. eapply wp_mono; [by apply block_cache_get_spec|].
  intros [x|] l1 (Hs1 & Hr1 & Hx).
  - wp_step. split_and!; [done..|]. destruct (Hx x eq_refl) as (b' & Hb' & E & Hq).
    rewrite (rep_hash_inj l1 bs b' b) in Hq by done. eauto.
  - eapply wp_mono; [by eapply load_block_spec|]. intros o l2 [-> ->].
    split_and!; [done..|]. eexists. split; [done|by eapply block_wire_equiv, rep_coherent].
Qed.

Lemma ledger_get_header_by_height_spec l bs ht :
  store_rep l bs → is_u64 ht →
  wp False (Ledger.get_header_by_height ht) (λ o l', same_but_caches l l' ∧ store_rep l' bs ∧
    match bs !! Z.to_nat ht with
    | Some b => ∃ x, o = Some x ∧ header_equiv x (Block.header b)
    | None => o = None
    end) l.
Proof using All.
  intros Hr Hh. unfold Ledger.get_header_by_height. wp_step.
  eapply wp_block_hash_by_height; [done..|].
  destruct (bs !! Z.to_nat ht) as [b|] eqn:Eb; simpl; [|by wp_step].
  apply list_elem_of_lookup_2 in Eb. wp_step. eapply wp_mono; [by apply header_cache_get_spec|].
  intros [x|] l1 (Hs1 & Hr1 & Hx).
  - wp_step. split_and!; [done..|]. destruct (Hx x eq_refl) as (b' & Hb' & E & Hq).
    rewrite (rep_hash_inj l1 bs b' b) in Hq by done. eauto.
  - wp_step. destruct (rep_stored _ _ Hr1 b Eb) as [Eh _].
    eapply wp_get_header; [done|]. cbn beta iota. wp_step. apply wp_modify. wp_step.
    assert (header_equiv (Header.wire (Block.header b)) (Block.header b)) as Hw.
    { by eapply header_wire_equiv, rep_coherent. }
    split_and!; [by etrans|by apply header_cache_insert_rep|eauto].
Qed.

Lemma ledger_get_block_spec l bs b :
  store_rep l bs → b ∈ bs →
  wp False (Ledger.get_block (Block.hash b)) (λ o l', same_but_caches l l' ∧ store_rep l' bs ∧
    ∃ b', o = Some b' ∧ block_equiv b' b) l.
Proof using All.
  intros Hr Hb. unfold Ledger.get_block. wp_step. eapply wp_mono; [by apply block_cache_get_spec|].
  intros [x|] l1 (Hs1 & Hr1 & Hx).
  - wp_step. split_and!; [done..|]. destruct (Hx x eq_refl) as (b' & Hb' & E & Hq).
    rewrite (rep_hash_inj l1 bs b' b) in Hq by done. eauto.
  - wp_step. eapply wp_mono; [by eapply load_block_spec|]. intros o l2 [-> ->]. cbn beta iota.
    assert (block_equiv (Block.wire b) b) as Hw by by eapply block_wire_equiv, rep_coherent.
    wp_step. apply wp_modify. wp_step. apply wp_modify. wp_step. split_and!.
    + by etrans.
    + apply header_cache_insert_rep; [|done|by apply block_header_equiv].
      by apply block_cache_insert_rep.
    + eauto.
Qed.

(** *** Appending a block *)

Lemma frame_key a n kb (d d' : DB) :
  frame a d d' → a ∈ Schema.names → n ∈ Schema.names → a ≠ n →
  db_get (key_of n kb) d' = db_get (key_of n kb) d.
Proof. intros Hf Ha Hn Hne. apply Hf. by apply key_of_disjoint. Qed.

Lemma frame_list_rep {V} `{StorageValue V} a n (d d' : DB) (hs : list V) :
  frame a d d' → a ∈ Schema.names → n ∈ Schema.names → a ≠ n →
  list_rep n d hs → list_rep n d' hs.
Proof.
  intros Hf Ha Hn Hne (Hlt & Hlen & He). split_and!; [done| |].
  - unfold len_rep. by rewrite (frame_key a n _ d d').
  - intros i Hi. rewrite (frame_key a n _ d d') by done. by apply He.
Qed.

(** Two transactions with the same hash agree on what is stored: the hash
    covers every field but the one serde skips. *)
Context (tx_hash_inj : ∀ tx tx' h,
  Transaction.crypto_hash tx = Ret h → Transaction.crypto_hash tx' = Ret h →
  Transaction.wire tx = Transaction.wire tx').

Lemma tx_stored_frame a (d d' : DB) tx h :
  frame a d d' → a ∈ Schema.names → a ≠ Schema.TRANSACTIONS → tx_stored d tx h → tx_stored d' tx h.
Proof.
  intros Hf Ha Hne (Hh & tx' & E & Ew). split; [done|]. exists tx'. split; [|done].
  rewrite (frame_key a _ _ d d'); [done|names..].
Qed.

Lemma tx_stored_put (d : DB) tx h tx0 h0 :
  Transaction.crypto_hash tx0 = Ret h0 → tx_stored d tx h →
  tx_stored (db_put (key_of Schema.TRANSACTIONS h0) (into_bytes tx0) d) tx h.
Proof using All.
  intros E0 (Hh & tx' & E & Ew). split; [done|]. destruct (decide (h = h0)) as [->|Hne].
  - exists tx0. rewrite db_get_put_eq. split; [done|by eapply tx_hash_inj].
  - exists tx'. rewrite db_get_put_ne; [done|]. by intros ?%key_of_inj.
Qed.

Lemma txs_only_frame a (d d' : DB) txs :
  frame a d d' → a ∈ Schema.names → a ≠ Schema.TRANSACTIONS → txs_only d txs → txs_only d' txs.
Proof.
  intros Hf Ha Hne Ht k v [kb ->] E. apply Ht; [by eexists|]. rewrite <-E. symmetry. apply Hf.
  apply (key_of_disjoint a Schema.TRANSACTIONS); names.
Qed.

Lemma txs_only_put (d : DB) txs tx h :
  Transaction.crypto_hash tx = Ret h → txs_only d txs →
  txs_only (db_put (key_of Schema.TRANSACTIONS h) (into_bytes tx) d) (txs ++ [tx]).
Proof using All.
  intros Eh Ht k v Hk E. destruct (decide (k = key_of Schema.TRANSACTIONS h)) as [->|Hne].
  - rewrite db_get_put_eq in E. injection E as <-. exists tx, h. split_and!; [set_solver|done..].
  - rewrite db_get_put_ne in E by done. destruct (Ht k v Hk E) as (tx' & h' & Hin & ?).
    exists tx', h'. split; [set_solver|done].
Qed.

Lemma put_transactions_spec l txs :
  Forall (λ tx, ∃ h, Transaction.crypto_hash tx = Ret h) txs →
  wp False (Ledger.put_transactions txs) (λ hs l',
    (∃ d, l' = Ledger.set_db d l ∧ frame Schema.TRANSACTIONS (Ledger.db l) d ∧
      Forall2 (tx_stored d) txs hs ∧
      (∀ tx h, tx_stored (Ledger.db l) tx h → tx_stored d tx h) ∧
      ∀ old, txs_only (Ledger.db l) old → txs_only d (old ++ txs))) l.
Proof using All.
  intros Htx. revert l. induction Htx as [|tx txs [h Eh] _ IH]; intros l; simpl.
  { wp_step. exists (Ledger.db l). rewrite set_db_id. split_and!; [done|done|done|done|].
    intros old Ht. by rewrite app_nil_r. }
  wp_step. apply wp_lift; [|by rewrite Eh]. intros h' [= <-]%(eq_trans (eq_sym Eh)).
  wp_step. apply wp_on_db. apply wp_base_put. rewrite key_hash_bytes.
  set (d1 := db_put _ _ _). wp_step. eapply wp_mono; [apply IH|].
  intros hs l' (d & -> & Hf & Hst & Hold & Honly). wp_step. exists d. split; [done|].
  assert (tx_stored d1 tx h) as Htx1.
  { split; [done|]. exists tx. unfold d1. by rewrite db_get_put_eq. }
  split_and!.
  - etrans; [|exact Hf]. apply frame_put.
  - constructor; [by apply Hold|done].
  - intros tx' h' Hs. apply Hold. by apply tx_stored_put.
  - intros old Ht. change (tx :: txs) with ([tx] ++ txs). rewrite app_assoc. apply Honly.
    by apply txs_only_put.
Qed.

Lemma wp_with_list {A} P n (op : M (ListIndex.t * DB) A) (Q : A → DB → Prop) d :
  wp P op (λ a s, Q a s.2) (ListIndex.new n, d) → wp P (ListIndex.with_list n op) Q d.
Proof. unfold wp, ListIndex.with_list. destruct (op _) as [[a [li d']]|]; done. Qed.

Lemma push_height_spec (d : DB) hs (h : Hash) ht :
  list_rep Schema.BLOCK_HASHES_BY_HEIGHT d hs → ht = Z.of_nat (length hs) → ht + 1 < u64_bound →
  wp False (Ledger.push_height h ht) (λ _ d',
    list_rep Schema.BLOCK_HASHES_BY_HEIGHT d' (hs ++ [h]) ∧
    frame Schema.BLOCK_HASHES_BY_HEIGHT d d') d.
Proof using All.
  intros Hr -> Hlt. unfold Ledger.push_height.
  apply wp_with_list. wp_step. eapply wp_mono.
    { apply (push_spec Schema.BLOCK_HASHES_BY_HEIGHT _ hs); [|done]. split; [done|]. split; [by left|done]. }
    intros _ s [Hs Hf]. wp_step. eapply wp_mono; [by apply last_spec|].
    intros o s1 (-> & E1 & Hs1). rewrite last_snoc. wp_step. apply wp_lift; [|done].
    intros x [= <-]. wp_step. rewrite bool_decide_true by done. apply wp_rassert; [|done]. intros _.
    wp_step. eapply wp_mono; [exact (len_spec _ _ _ Hs1)|]. intros k s2 (-> & E2 & Hs2 & _).
    wp_step. apply wp_lift; [|intros E; by rewrite u64_add_fits in E].
    intros x [-> _]%u64_add_Ret. rewrite length_app. simpl. apply wp_rassert.
    - intros _. split; [apply Hs2|]. by rewrite E2, E1.
    - intros E%Z.eqb_neq. lia.
Qed.

(** The fields a transaction's hash is made of. *)
Definition tx_complete (tx : Transaction.t) : Prop :=
  is_Some (Transaction.signature tx) ∧ is_Some (Transaction.recipient tx).
Lemma tx_complete_hash tx : tx_complete tx ↔ ∃ h, Transaction.crypto_hash tx = Ret h.
Proof.
  unfold tx_complete, Transaction.crypto_hash, Transaction.packet_hash.
  destruct (Transaction.signature tx), (Transaction.recipient tx); simpl; split; try (by intros [? [? ?]]);
    try (by intros [[? ?] ?]); try (by intros [? ?]); by eauto.
Qed.

#[global] Instance tx_complete_dec tx : Decision (tx_complete tx).
Proof. unfold tx_complete. apply _. Defined.

(** What a block needs in order to be stored: it is the next one, of a height
    whose successor is a [u64], its hash is new and the one it caches, and
    every transaction has the signature and the recipient its hash is made
    of. *)
Record storable (bs : list Block.t) (b : Block.t) : Prop := {
  st_height : Block.height b = Z.of_nat (length bs);
  st_room : Block.height b + 1 < u64_bound;
  st_fresh : Block.hash b ∉ Block.hash <$> bs;
  st_coherent : Header_coherent (Block.header b);
  st_txs : Forall (λ tx, ∃ h, Transaction.crypto_hash tx = Ret h) (Block.transactions b)
}.

(** What it needs in order to be appended without a panic: a time besides
    that the calendar represents. *)
Record appendable (bs : list Block.t) (b : Block.t) : Prop := {
  app_height : Block.height b = Z.of_nat (length bs);
  app_room : Block.height b + 1 < u64_bound;
  app_fresh : Block.hash b ∉ Block.hash <$> bs;
  app_coherent : Header_coherent (Block.header b);
  app_txs : Forall (λ tx, ∃ h, Transaction.crypto_hash tx = Ret h) (Block.transactions b);
  app_time : timestamp_in_range (as_i64 (Header.time (Block.header b))) = true
}.

Lemma appendable_storable bs b :
  appendable bs b ↔ storable bs b ∧ timestamp_in_range (as_i64 (Header.time (Block.header b))) = true.
Proof. split; [intros []|intros [[] ?]]; by repeat split. Qed.

Lemma appendable_wire bs b : appendable bs b → appendable bs (Block.wire b).
Proof.
  intros [Hh Hr Hf Hc Ht Htm]. split; try done.
  - unfold Block.hash, Block.wire. simpl. by rewrite (block_hash_wire _ Hc).
  - by left.
  - simpl. apply Forall_fmap. eapply Forall_impl; [exact Ht|]. intros tx. simpl.
    by rewrite crypto_hash_tx_wire.
Qed.

(** The store after the four writes of [add_block]. *)
Lemma add_block_stored l bs b hs d1 d2 d3 d4 :
  ledger_rep l bs → storable bs b →
  d1 = db_put (key_of Schema.HEADERS (Block.hash b)) (into_bytes (Block.header b)) (Ledger.db l) →
  frame Schema.TRANSACTIONS d1 d2 → Forall2 (tx_stored d2) (Block.transactions b) hs →
  (∀ tx h, tx_stored d1 tx h → tx_stored d2 tx h) →
  d3 = db_put (key_of Schema.TRANSACTIONS_HASH (Block.hash b)) (into_bytes hs) d2 →
  frame Schema.BLOCK_HASHES_BY_HEIGHT d3 d4 →
  ∀ b', b' ∈ bs ++ [b] → block_stored d4 b'.
Proof using All.
  intros [Hr _] Hap E1 F2 Htx Hold E3 F4 b' Hb'.
  assert (∀ tx h, tx_stored d2 tx h → tx_stored d4 tx h) as Hup.
  { intros tx h Hs. eapply tx_stored_frame; [exact F4|names|names|]. subst d3.
    eapply (tx_stored_frame Schema.TRANSACTIONS_HASH); [apply frame_put|names|names|done]. }
  assert (∀ n kb, n ∈ Schema.names → n ≠ Schema.TRANSACTIONS → n ≠ Schema.BLOCK_HASHES_BY_HEIGHT →
    n ≠ Schema.TRANSACTIONS_HASH →
    db_get (key_of n kb) d4 = db_get (key_of n kb) d1) as Hk.
  { intros n kb Hn N1 N2 N3. rewrite (frame_key _ n kb _ _ F4) by names.
    subst d3. rewrite (frame_key Schema.TRANSACTIONS_HASH n kb d2 _) by (apply frame_put || names).
    by rewrite (frame_key _ n kb _ _ F2) by names. }
  assert (∀ kb, db_get (key_of Schema.TRANSACTIONS_HASH kb) d4 = db_get (key_of Schema.TRANSACTIONS_HASH kb) d3)
    as Hk3.
  { intros kb. by rewrite (frame_key _ Schema.TRANSACTIONS_HASH kb _ _ F4) by names. }
  assert (∀ kb, db_get (key_of Schema.TRANSACTIONS_HASH kb) d2 =
    db_get (key_of Schema.TRANSACTIONS_HASH kb) (Ledger.db l)) as Hk2.
  { intros kb. rewrite (frame_key _ Schema.TRANSACTIONS_HASH kb _ _ F2) by names.
    subst d1. by rewrite (frame_key Schema.HEADERS _ kb (Ledger.db l) _) by (apply frame_put || names). }
  unfold block_stored. rewrite (Hk Schema.HEADERS) by names. rewrite Hk3, E1, E3.
  apply elem_of_app in Hb' as [Hb'| ->%list_elem_of_singleton].
  - assert (Block.hash b' ≠ Block.hash b) as Hne.
    { intros E. apply (st_fresh _ _ Hap). rewrite <-E. by apply list_elem_of_fmap_2. }
    destruct (rep_stored _ _ Hr b' Hb') as [Eh (hs' & Ehs & Hst)].
    rewrite !db_get_put_ne by (intros ?%key_of_inj; done). rewrite Hk2. split; [done|].
    exists hs'. split; [done|]. eapply Forall2_impl; [exact Hst|]. intros tx h Hs.
    apply Hup, Hold. subst d1. eapply (tx_stored_frame Schema.HEADERS); [apply frame_put|names|names|done].
  - rewrite !db_get_put_eq. split; [done|]. exists hs. split; [done|].
    eapply Forall2_impl; [exact Htx|]. auto.
Qed.

Lemma add_block_guard l bs b :
  ledger_rep l bs → Block.height b = Z.of_nat (length bs) →
  (Header.height (Block.header b) <=? Header.height (LastMeta.header (Ledger.meta l))) &&
    negb (Block.height b =? 0) = false.
Proof.
  intros [Hr Hm] Hh. unfold Block.height in Hh at 1.
  unfold meta_rep in Hm. destruct (last bs) as [b0|] eqn:El.
  - destruct Hm as (_ & -> & _). rewrite last_lookup in El. rewrite (rep_heights _ _ Hr _ _ El), Hh.
    apply lookup_lt_Some in El. destruct (Z.leb_spec (Z.of_nat (length bs)) (Z.of_nat (pred (length bs)))); [lia|done].
  - apply last_None in El as ->. unfold Block.height. rewrite Hh. simpl. apply andb_false_r.
Qed.

Lemma add_block_rep l bs b d :
  ledger_rep l bs → storable bs b →
  list_rep Schema.BLOCK_HASHES_BY_HEIGHT d ((Block.hash <$> bs) ++ [Block.hash b]) →
  (∀ b', b' ∈ bs ++ [b] → block_stored d b') →
  txs_only d ((bs ≫= Block.transactions) ++ Block.transactions b) →
  ledger_rep (Ledger.set_meta (LastMeta.new (Header.height (Block.header b)) (Block.hash b)
                      (Block.header b) b)
    (Ledger.set_block_cache (lru_insert (Block.hash b) b (Ledger.block_cache l))
    (Ledger.set_header_cache (lru_insert (Block.hash b) (Block.header b) (Ledger.header_cache l))
    (Ledger.set_db d l)))) (bs ++ [b]).
Proof using All.
  intros [Hr _] Hap Hl Hst Htx. split; [|unfold meta_rep; by rewrite last_snoc]. split; simpl.
  - by rewrite fmap_app.
  - intros i b' [[_ Hi]|(-> & <-)]%lookup_snoc_Some; [by eapply Hr|apply Hap].
  - done.
  - intros k x [[-> ->]|E]%lru_insert_inv; [exists b; split_and!; [set_solver|done|done]|].
    destruct (rep_header_cache _ _ Hr _ _ E) as (b' & Hb' & ?). exists b'. split; [set_solver|done].
  - intros k x [[-> ->]|E]%lru_insert_inv; [exists b; split_and!; [set_solver|done|done]|].
    destruct (rep_block_cache _ _ Hr _ _ E) as (b' & Hb' & ?). exists b'. split; [set_solver|done].
  - rewrite fmap_app, NoDup_app. split_and!; [apply Hr| |apply NoDup_singleton].
    intros h Hh ->%list_elem_of_singleton. by apply (st_fresh _ _ Hap).
  - intros b' [Hb'| ->%list_elem_of_singleton]%elem_of_app; [by eapply Hr|apply Hap].
  - rewrite bind_app. simpl. by rewrite app_nil_r.
Qed.

(** A storable block is stored, and the log message at the end panics if its
    time is not representable. *)
Lemma add_block_stores l bs b :
  let in_range := timestamp_in_range (as_i64 (Header.time (Block.header b))) in
  ledger_rep l bs → storable bs b →
  wp (in_range = false) (Ledger.add_block b) (λ _ l', in_range = true ∧ ledger_rep l' (bs ++ [b]) ∧
    Ledger.validators l' = Ledger.validators l ∧ Ledger.genesis l' = Ledger.genesis l) l.
Proof using All.
  intros in_range Hr Hap. unfold Ledger.add_block. wp_step. apply wp_gets. cbn beta.
  rewrite (add_block_guard l bs b) by (done || apply Hap). fold (Block.hash b).
  wp_step. apply wp_on_db, wp_base_put. rewrite key_hash_bytes. set (d1 := db_put _ _ _).
  wp_step. eapply wp_mono; [apply wp_never, put_transactions_spec, Hap|].
  intros hs l2 (d2 & -> & F2 & Htx & Hold & Honly). simpl in F2, Hold, Honly.
  wp_step. apply wp_on_db, wp_base_put. rewrite key_hash_bytes. simpl. set (d3 := db_put _ _ d2).
  wp_step. apply wp_on_db. eapply wp_mono.
  { apply wp_never, (push_height_spec d3 (Block.hash <$> bs)).
    - eapply (frame_list_rep Schema.TRANSACTIONS_HASH); [apply frame_put|names..|].
      eapply (frame_list_rep Schema.TRANSACTIONS); [exact F2|names..|].
      eapply (frame_list_rep Schema.HEADERS); [apply frame_put|names..|]. apply Hr.
    - rewrite length_fmap. apply Hap.
    - apply Hap. }
  intros _ d4 [Hl4 F4]. wp_step. apply wp_modify. wp_step. apply wp_modify. wp_step. apply wp_modify.
  fold in_range. apply wp_rassert; [|done]. intros Htime. simpl. split; [done|]. split; [|done].
  apply (add_block_rep l bs b d4); [done|done|done| |].
  - eapply add_block_stored; [exact Hr|exact Hap|reflexivity|exact F2|exact Htx|exact Hold|reflexivity|exact F4].
  - eapply (txs_only_frame Schema.BLOCK_HASHES_BY_HEIGHT); [exact F4|names..|].
    eapply (txs_only_frame Schema.TRANSACTIONS_HASH); [apply frame_put|names..|]. apply Honly.
    eapply (txs_only_frame Schema.HEADERS); [apply frame_put|names..|]. apply Hr.
Qed.

Lemma add_block_spec l bs b :
  ledger_rep l bs → appendable bs b →
  wp False (Ledger.add_block b) (λ _ l', ledger_rep l' (bs ++ [b]) ∧
    Ledger.validators l' = Ledger.validators l ∧ Ledger.genesis l' = Ledger.genesis l) l.
Proof using All.
  intros Hr [Hst Htime]%appendable_storable. pose proof (add_block_stores l bs b Hr Hst) as Hw.
  unfold wp in *. rewrite Htime in Hw. destruct (Ledger.add_block b l) as [[u l']|]; [apply Hw|discriminate Hw].
Qed.

(** The next block makes [add_block] panic if one of its transactions has no
    hash, or if its time is not representable. *)
Lemma put_transactions_panics txs l :
  ¬ Forall (λ tx, ∃ h, Transaction.crypto_hash tx = Ret h) txs → Ledger.put_transactions txs l = Panic.
Proof.
  revert l. induction txs as [|tx txs IH]; intros l Hn; [by destruct Hn|]. cbn [Ledger.put_transactions].
  unfold mbind, M_mbind, M_bind, lift at 1. destruct (Transaction.crypto_hash tx) as [h|] eqn:E; [|done].
  destruct (Ledger.on_db _ l) as [[u l1]|]; [|done].
  rewrite IH; [done|]. intros Hall. apply Hn. constructor; by eauto.
Qed.

Lemma add_block_panics l bs b :
  ledger_rep l bs → Block.height b = Z.of_nat (length bs) →
  (¬ Forall (λ tx, ∃ h, Transaction.crypto_hash tx = Ret h) (Block.transactions b) ∨
   storable bs b ∧ timestamp_in_range (as_i64 (Header.time (Block.header b))) = false) →
  Ledger.add_block b l = Panic.
Proof using All.
  intros Hr Hh [Hn|[Hst Htime]].
  - unfold Ledger.add_block, mbind, M_mbind, M_bind, gets. rewrite (add_block_guard l bs b) by done.
    destruct (Ledger.on_db _ l) as [[u l1]|]; [|done]. by rewrite put_transactions_panics.
  - pose proof (add_block_stores l bs b Hr Hst) as Hw. unfold wp in Hw. rewrite Htime in Hw.
    destruct (Ledger.add_block b l) as [[u l']|]; [|done]. by destruct Hw as [Hf _].
Qed.

(** *** The chain *)

Abbreviation Chain_t := (Chain.t DB HC BC).

Lemma wp_on_ledger {A} P (m : M Ledger A) (Q : A → Chain_t → Prop) c :
  wp P m (λ a l, Q a (Chain.set_ledger l c)) (Chain.ledger c) → wp P (Chain.on_ledger m) Q c.
Proof. unfold wp, Chain.on_ledger. destruct (m (Chain.ledger c)) as [[a l]|]; done. Qed.

(** The events a refused block may cause. *)
Lemma post_sync_spec (c : Chain_t) ht :
  Chain.sync_limiter c ≤ Clk.instant (Chain.clk c) →
  wp False (Chain.post_event (SyncBlock ht)) (λ _ c',
    Chain.ledger c' = Chain.ledger c ∧
    (Chain.events c' = Chain.events c ∨ Chain.events c' = Chain.events c ++ [SyncBlock ht])) c.
Proof.
  intros Hle. unfold Chain.post_event. wp_step. apply wp_gets. wp_step. apply wp_rassert.
  - intros _. apply wp_when; intros _; [|by auto]. wp_step. apply wp_modify. by apply wp_modify; auto.
  - intros E%Z.leb_gt. lia.
Qed.

Lemma last_height_next l bs :
  ledger_rep l bs → bs ≠ [] → Ledger.get_last_block_height l + 1 = Z.of_nat (length bs).
Proof.
  intros [Hr Hm] Hne. unfold meta_rep in Hm. unfold Ledger.get_last_block_height.
  destruct (last bs) as [b0|] eqn:El; [|by apply last_None in El].
  destruct Hm as (-> & _). rewrite last_lookup in El. rewrite (rep_heights _ _ Hr _ _ El).
  apply lookup_lt_Some in El. lia.
Qed.

Lemma insert_block_spec (c : Chain_t) (bs : list Block.t) (b : Block.t) :
  ledger_rep (Chain.ledger c) bs → bs ≠ [] → Z.of_nat (length bs) < u64_bound →
  Chain.sync_limiter c ≤ Clk.instant (Chain.clk c) →
  is_u64 (Block.height b) →
  (Block.height b = Z.of_nat (length bs) → appendable bs b) →
  wp False (Chain.insert_block b) (λ r c',
    if Block.height b <? Z.of_nat (length bs) then
      r = Err (Exists (Block.hash b)) ∧ ledger_rep (Chain.ledger c') bs ∧
      Chain.events c' = Chain.events c
    else if Z.of_nat (length bs) <? Block.height b then
      r = Err (ChainUnknown "Not found ancestor") ∧ ledger_rep (Chain.ledger c') bs ∧
      (Chain.events c' = Chain.events c ∨
       Chain.events c' = Chain.events c ++ [SyncBlock (Z.of_nat (length bs))])
    else
      r = Ok tt ∧ ledger_rep (Chain.ledger c') (bs ++ [b]) ∧
      Chain.events c' = Chain.events c ++ [NewBlock b; NewHeader (Block.header b)]) c.
Proof using All.
  intros Hr Hne Hlt Hlim Hu Hap. unfold Chain.insert_block. wp_step.
  apply wp_on_ledger. eapply wp_mono; [by apply ledger_get_block_by_height_spec; [apply Hr|]|].
  intros o l1 (Hs1 & Hr1 & Ho). unfold is_u64 in Hu. apply (same_but_caches_rep _ _ bs Hr) in Hr1; [|done].
  destruct (Z.ltb_spec (Block.height b) (Z.of_nat (length bs))) as [Hlt1|Hlt1].
  { destruct (lookup_lt_is_Some_2 bs (Z.to_nat (Block.height b))) as [b0 Eb]; [lia|].
    rewrite Eb in Ho. destruct Ho as (b' & -> & _). by wp_step. }
  rewrite lookup_ge_None_2 in Ho by lia. subst o. wp_step. apply wp_gets. simpl.
  rewrite <-(last_height_next l1 bs) in * by done.
  wp_step. apply wp_lift; [|intros E; by rewrite u64_add_fits in E].
  intros next [-> _]%u64_add_Ret.
  destruct (Z.ltb_spec (Ledger.get_last_block_height l1 + 1) (Block.height b)).
  - wp_step. eapply wp_mono; [by apply post_sync_spec|]. intros _ c2 [E2 He]. simpl in E2, He.
    wp_step. by rewrite E2.
  - wp_step. apply wp_on_ledger. eapply wp_mono; [eapply (add_block_spec l1 bs); [done|apply Hap; lia]|].
    intros _ l2 (Hr2 & _). wp_step. apply wp_modify. wp_step. apply wp_modify. wp_step. simpl.
    split_and!; [done|done|]. by rewrite <-app_assoc.
Qed.

(** The next block cannot be inserted if a transaction of it is incomplete or
    its time not representable. *)
Lemma insert_block_panics (c : Chain_t) (bs : list Block.t) (b : Block.t) :
  ledger_rep (Chain.ledger c) bs → bs ≠ [] → Z.of_nat (length bs) < u64_bound →
  Block.height b = Z.of_nat (length bs) →
  (¬ Forall (λ tx, ∃ h, Transaction.crypto_hash tx = Ret h) (Block.transactions b) ∨
   storable bs b ∧ timestamp_in_range (as_i64 (Header.time (Block.header b))) = false) →
  Chain.insert_block b c = Panic.
Proof using All.
  intros Hr Hne Hlt Hh Hbad. unfold Chain.insert_block, mbind, M_mbind, M_bind.
  assert (is_u64 (Block.height b)) as Hu by (rewrite Hh; split; lia).
  destruct (wp_total _ _ _ (ledger_get_block_by_height_spec (Chain.ledger c) bs (Block.height b) (proj1 Hr) Hu))
    as (o & l1 & E & Hs1 & Hr1 & Ho).
  apply (same_but_caches_rep _ _ bs Hr) in Hr1; [|done].
  unfold Chain.on_ledger at 1. rewrite E. rewrite lookup_ge_None_2 in Ho by lia. subst o. unfold gets, lift. simpl.
  pose proof (last_height_next l1 bs Hr1 Hne) as Hn. rewrite u64_add_fits by lia. simpl. rewrite Hn, Hh, Z.ltb_irrefl.
  unfold Chain.on_ledger. simpl. by rewrite (add_block_panics l1 bs b).
Qed.

(** C12 [Chain::insert_block] on a chain that holds one block per height up to
    the last, of fewer than 2^64 - 1 blocks, with a clock that is not behind
    the last sync request, and for a block whose cached hash, if it has one,
    is its hash: a block of a height that exists
    is refused as such, a block that leaves a gap is refused after asking (at
    most once) for the first missing height, and the chain keeps its blocks.
    The next block, of a hash that no block of the chain has, is appended,
    with a [NewBlock] and a [NewHeader] event, so that afterwards the chain
    holds the old blocks and the new one, if all its transactions have a
    signature and a recipient and the calendar represents its time; if not,
    [insert_block] panics.  Neither the parent hash nor the votes of the
    block are looked at. *)
Theorem insert_block_refines (c : Chain_t) (bs : list Block.t) (b : Block.t) :
  let representable := timestamp_in_range (as_i64 (Header.time (Block.header b))) in
  ledger_rep (Chain.ledger c) bs → bs ≠ [] → Z.of_nat (length bs) + 1 < u64_bound →
  Chain.sync_limiter c ≤ Clk.instant (Chain.clk c) →
  is_u64 (Block.height b) → Header_coherent (Block.header b) →
  (Block.height b < Z.of_nat (length bs) →
    ∃ c', Chain.insert_block b c = Ret (Err (Exists (Block.hash b)), c') ∧
      ledger_rep (Chain.ledger c') bs ∧ Chain.events c' = Chain.events c) ∧
  (Z.of_nat (length bs) < Block.height b →
    ∃ c', Chain.insert_block b c = Ret (Err (ChainUnknown "Not found ancestor"), c') ∧
      ledger_rep (Chain.ledger c') bs ∧
      (Chain.events c' = Chain.events c ∨
       Chain.events c' = Chain.events c ++ [SyncBlock (Z.of_nat (length bs))])) ∧
  (Block.height b = Z.of_nat (length bs) → Block.hash b ∉ Block.hash <$> bs →
    if decide (Forall tx_complete (Block.transactions b) ∧ representable = true) then
      ∃ c', Chain.insert_block b c = Ret (Ok tt, c') ∧ ledger_rep (Chain.ledger c') (bs ++ [b]) ∧
        Chain.events c' = Chain.events c ++ [NewBlock b; NewHeader (Block.header b)]
    else Chain.insert_block b c = Panic).
Proof using All.
  intros representable Hr Hne Hlt Hlim Hu Hc.
  assert (Forall tx_complete (Block.transactions b) ↔
    Forall (λ tx, ∃ h, Transaction.crypto_hash tx = Ret h) (Block.transactions b)) as Htx.
  { by rewrite !Forall_forall; setoid_rewrite tx_complete_hash. }
  assert (∀ Hap : Block.height b = Z.of_nat (length bs) → appendable bs b, _) as Hs
    by (intros Hap; exact (wp_total _ _ _ (insert_block_spec c bs b Hr Hne ltac:(lia) Hlim Hu Hap))).
  split_and!.
  - intros Hh. destruct Hs as (r & c' & E & Hs); [lia|]. destruct (Z.ltb_spec (Block.height b) (Z.of_nat (length bs))); [|lia].
    destruct Hs as (-> & ? & ?). eauto.
  - intros Hh. destruct Hs as (r & c' & E & Hs); [lia|]. destruct (Z.ltb_spec (Block.height b) (Z.of_nat (length bs))); [lia|].
    destruct (Z.ltb_spec (Z.of_nat (length bs)) (Block.height b)); [|lia]. destruct Hs as (-> & ? & ?). eauto.
  - intros Hh Hf.
    assert (Forall tx_complete (Block.transactions b) → storable bs b) as Hst.
    { intros Hall. split; [done|lia|done|done|by apply Htx]. }
    case_decide as Hd.
    + destruct Hd as [Hall Ht]. destruct Hs as (r & c' & E & Hs); [intros _; apply appendable_storable; auto|].
      rewrite Hh, !Z.ltb_irrefl in Hs. destruct Hs as (-> & ? & ?). eauto.
    + apply (insert_block_panics c bs b); [done|done|lia|done|].
      destruct (decide (Forall tx_complete (Block.transactions b))) as [Hall|Hall]; [right|left; by rewrite <-Htx].
      split; [auto|]. apply not_true_iff_false. naive_solver.
Qed.

(** Reads of the chain leave it as it is. *)
Lemma chain_get_block_by_height_spec (c : Chain_t) (bs : list Block.t) (ht : Height) :
  ledger_rep (Chain.ledger c) bs → is_u64 ht →
  wp False (Chain.get_block_by_height ht) (λ o c', ledger_rep (Chain.ledger c') bs ∧
    (∃ l, c' = Chain.set_ledger l c) ∧
    match bs !! Z.to_nat ht with
    | Some b => ∃ b', o = Some b' ∧ block_equiv b' b
    | None => o = None
    end) c.
Proof using -(tx_hash_inj).
  intros Hr Hu. unfold Chain.get_block_by_height. wp_step.
  apply wp_on_ledger. eapply wp_block_hash_by_height; [apply Hr|done|].
  destruct (bs !! Z.to_nat ht) as [b|] eqn:Eb; simpl.
  - apply wp_on_ledger. eapply wp_mono; [eapply (ledger_get_block_spec _ bs b)|].
    + apply Hr.
    + by eapply list_elem_of_lookup_2.
    + intros o l' (Hs & Hr' & Ho). split; [by eapply same_but_caches_rep|].
      split; [by exists l'|done].
  - wp_step. split; [done|]. split; [by exists (Chain.ledger c)|done].
Qed.

(** What was inserted is found: on a chain that holds the blocks [bs],
    [get_block_by_height], [get_header_by_height] and
    [get_block_hash_by_height] return the block, header and hash of that
    height (the block up to its in-memory hash cache, so with the same
    identity), [None] beyond the last one, with warm and with cold caches, and
    leave the chain as it was. *)
Lemma chain_lookup (c : Chain_t) (bs : list Block.t) (ht : Height) :
  ledger_rep (Chain.ledger c) bs → is_u64 ht →
  (∃ o c', Chain.get_block_by_height ht c = Ret (o, c') ∧ ledger_rep (Chain.ledger c') bs ∧
    match bs !! Z.to_nat ht with
    | Some b => ∃ b', o = Some b' ∧ block_equiv b' b
    | None => o = None
    end) ∧
  (∃ o c', Chain.get_header_by_height ht c = Ret (o, c') ∧ ledger_rep (Chain.ledger c') bs ∧
    match bs !! Z.to_nat ht with
    | Some b => ∃ x, o = Some x ∧ header_equiv x (Block.header b)
    | None => o = None
    end) ∧
  (∃ c', Chain.get_block_hash_by_height ht c = Ret (Block.hash <$> bs !! Z.to_nat ht, c') ∧
    ledger_rep (Chain.ledger c') bs).
Proof using -(tx_hash_inj).
  intros Hr Hu. split_and!.
  - destruct (wp_total _ _ _ (chain_get_block_by_height_spec c bs ht Hr Hu)) as (o & c' & E & Hr' & _ & Ho).
    eauto.
  - apply wp_total. apply wp_on_ledger. eapply wp_mono.
    { apply ledger_get_header_by_height_spec; [apply Hr|done]. }
    intros o l' (Hs & Hr' & Ho). split; [|done]. by eapply same_but_caches_rep.
  - assert (wp False (Chain.get_block_hash_by_height ht) (λ o c', o = Block.hash <$> bs !! Z.to_nat ht ∧
      ledger_rep (Chain.ledger c') bs) c) as Hw.
    { apply wp_on_ledger. by eapply wp_block_hash_by_height; [apply Hr|done|]. }
    apply wp_total in Hw as (o & c' & E & -> & ?). eauto.
Qed.

(** *** Restart *)

Lemma reload_meta_spec l bs :
  store_rep l bs → bs ≠ [] →
  wp False Ledger.reload_meta (λ _ l', ledger_rep l' bs ∧
    Ledger.validators l' = Ledger.validators l ∧ Ledger.genesis l' = Ledger.genesis l) l.
Proof using -(tx_hash_inj).
  intros Hr Hne. unfold Ledger.reload_meta. wp_step. apply wp_on_db, wp_with_list.
  eapply wp_mono; [apply (last_spec Schema.BLOCK_HASHES_BY_HEIGHT _ (Block.hash <$> bs))|].
  { split; [done|]. split; [by left|apply Hr]. }
  intros o s (-> & Es & _). rewrite Es. simpl. rewrite set_db_id, fmap_last.
  destruct (last bs) as [b|] eqn:El; [|by apply last_None in El].
  wp_step. apply wp_lift; [|done]. intros h [= <-]. wp_step.
  eapply wp_mono; [eapply (ledger_get_block_spec _ bs b); [done|]|].
  { rewrite last_lookup in El. by eapply list_elem_of_lookup_2. }
  intros o l1 ((_ & _ & Hg & Hv) & Hr1 & b' & -> & Hq). wp_step. apply wp_lift; [|done]. intros b0 [= <-].
  apply wp_modify. split; [|done]. pose proof (block_header_equiv _ _ Hq) as [Hw _].
  assert (Header.height (Block.header b') = Block.height b) as Hh.
  { by apply (f_equal Header.height) in Hw. }
  split; [|unfold meta_rep; rewrite El; simpl; split_and!; [done|done|apply Hq|done]].
  destruct Hr1. by split.
Qed.

Lemma restart_spec (db : DB) l bs (gc : GenesisConfig.t) (vs : list Validator.t) (n m : nat) :
  store_rep l bs → bs ≠ [] → db = Ledger.db l →
  wp False (Ledger.store_genesis_block gc) (λ r l', r = Ok tt ∧ ledger_rep l' bs ∧
    Ledger.validators l' = vs ∧
    ∃ g b0, Ledger.genesis l' = Some g ∧ head bs = Some b0 ∧ block_equiv g b0)
    (Ledger.new LastMeta.new_zero (lru_with_capacity n) (lru_with_capacity m) vs db).
Proof using -(tx_hash_inj).
  intros Hr Hne ->. set (l0 := Ledger.new _ _ _ _ _).
  assert (store_rep l0 bs) as Hr0.
  { destruct Hr. split; try done; simpl; intros h x E; by rewrite lru_get_new in E. }
  unfold Ledger.store_genesis_block, Ledger.get_genesis_block. wp_step. wp_step. apply wp_gets. simpl.
  wp_step. eapply wp_mono; [apply ledger_get_block_by_height_spec; [exact Hr0|by split]|].
  intros o l1 ((_ & _ & _ & Hv) & Hr1 & Ho). destruct bs as [|b0 bs]; [done|]. simpl in Ho.
  destruct Ho as (b' & -> & Hb'). wp_step. apply wp_modify. wp_step. wp_step.
  eapply wp_mono; [eapply reload_meta_spec; [|done]|].
  { destruct Hr1. by split. }
  intros _ l2 (Hr2 & Hv2 & Hg2). wp_step. simpl in Hv2, Hg2. rewrite Hv2, Hv. split_and!; [done..|].
  by exists b', b0.
Qed.

(** A node that restarts finds its chain again: a fresh [Ledger] with empty
    caches and zero metadata on a database that holds the blocks [bs] is,
    after [store_genesis_block], a ledger that holds [bs], and the
    configured genesis is not written a second time. *)
Lemma restart_recovers (l : Ledger) (bs : list Block.t) (gc : GenesisConfig.t)
    (vs : list Validator.t) (n m : nat) :
  ledger_rep l bs → bs ≠ [] →
  ∃ l', Ledger.store_genesis_block gc
      (Ledger.new LastMeta.new_zero (lru_with_capacity n) (lru_with_capacity m) vs (Ledger.db l)) =
      Ret (Ok tt, l') ∧
    ledger_rep l' bs ∧ Ledger.validators l' = vs.
Proof using -(tx_hash_inj).
  intros [Hr _] Hne.
  destruct (wp_total _ _ _ (restart_spec _ l bs gc vs n m Hr Hne eq_refl)) as (r & l' & E & -> & Hl & Hv & _). eauto.
Qed.

(** *** The first start *)

(** What a usable genesis configuration amounts to. *)
Record genesis_config (gc : GenesisConfig.t) (vs : list Address) (g : Block.t) : Prop := {
  gc_validators : strings_to_addresses (GenesisConfig.validator gc) = Ret (Ok vs);
  gc_block : ∃ proposer tm, string_to_address (GenesisConfig.proposer gc) = Ret (Ok proposer) ∧
    datetime_from_str (GenesisConfig.epoch_time gc) = Ok tm ∧
    g = Block.new (Header.new EMPTY_HASH proposer EMPTY_HASH EMPTY_HASH EMPTY_HASH 0 0 0
          (GenesisConfig.gas_used gc + 10) (GenesisConfig.gas_used gc) (tm mod u64_bound) None
          (Some (as_bytes (GenesisConfig.extra gc)))) [];
  gc_gas : 0 ≤ GenesisConfig.gas_used gc ∧ GenesisConfig.gas_used gc + 10 < u64_bound;
  gc_time : timestamp_in_range (as_i64 (Header.time (Block.header g))) = true }.

Lemma strings_to_addresses_mapM strs vs :
  strings_to_addresses strs = Ret (Ok vs) →
  mapM (λ v, r ← string_to_address v;
             match r with Ok a => Ret (Validator.new a) | Err _ => Panic end) strs = Ret (Validator.new <$> vs).
Proof.
  revert vs. induction strs as [|s strs IH]; intros vs; simpl; [by intros [= <-]|].
  destruct (string_to_address s) as [[a|]|]; simpl; [|done..].
  destruct (strings_to_addresses strs) as [[l|]|]; simpl; [|done..]. intros [= <-].
  by rewrite (IH l).
Qed.

Lemma empty_rep (db : DB) (vs : list Validator.t) (n m : nat) :
  (∀ k, db_get k db = None) →
  ledger_rep (Ledger.new LastMeta.new_zero (lru_with_capacity n) (lru_with_capacity m) vs db) [].
Proof using -(tx_hash_inj).
  intros Hdb. split; [split|done].
  - split; [done|]. split; [right; split; [done|apply Hdb]|]. intros i _. simpl. apply Hdb.
  - done.
  - intros b Hb. by apply not_elem_of_nil in Hb.
  - intros h x E. simpl in E. by rewrite lru_get_new in E.
  - intros h x E. simpl in E. by rewrite lru_get_new in E.
  - constructor.
  - intros b Hb. by apply not_elem_of_nil in Hb.
  - intros k v _ E. simpl in E. by rewrite Hdb in E.
Qed.

Lemma add_validators_spec l (vs : list Validator.t) :
  ledger_rep l [] →
  wp False (Ledger.add_validators vs) (λ _ l', ledger_rep l' [] ∧ Ledger.validators l' = vs ∧
    Ledger.genesis l' = Ledger.genesis l) l.
Proof using -(tx_hash_inj).
  intros [[Hh Hi Hs Hc Hb Hn Hco Htx] Hm]. unfold Ledger.add_validators. wp_step. apply wp_on_db, wp_base_put.
  apply wp_modify. split_and!; [|done|done]. split; [|done]. split; try done.
  - eapply (frame_list_rep Schema.VALIDATORS); [|names|names|names|exact Hh]. apply frame_put.
  - intros b Hin. by apply not_elem_of_nil in Hin.
  - eapply (txs_only_frame Schema.VALIDATORS); [apply frame_put|names|names|exact Htx].
Qed.

Lemma first_start_spec (l : Ledger) (gc : GenesisConfig.t) (vs : list Address) (g : Block.t) :
  ledger_rep l [] → Ledger.genesis l = None → genesis_config gc vs g →
  wp False (Ledger.store_genesis_block gc) (λ r l', r = Ok tt ∧ ledger_rep l' [g] ∧
    Ledger.validators l' = Validator.new <$> vs ∧ Ledger.genesis l' = Some g) l.
Proof using All.
  intros [Hr Hm] Hg [Hvs (proposer & tm & Hp & Ht & ->) Hgas Htime].
  unfold Ledger.store_genesis_block, Ledger.get_genesis_block. wp_step. wp_step. apply wp_gets. rewrite Hg. simpl.
  wp_step. eapply wp_mono; [apply (ledger_get_block_by_height_spec l []); [exact Hr|by split]|].
  intros o l1 ((_ & Hm1 & Hg1 & Hv1) & Hr1 & ->). wp_step. wp_step.
  apply wp_lift; rewrite (strings_to_addresses_mapM _ _ Hvs); [intros vs' [= <-]|done].
  wp_step. eapply wp_mono; [apply add_validators_spec; split; [exact Hr1|congruence]|].
  intros _ l2 (Hr2 & Hv2 & Hg2). cbn beta. wp_step. apply wp_lift; rewrite Hp; [intros r [= <-]|done].
  cbn beta iota. wp_step. rewrite Ht. wp_step. cbn beta iota.
  wp_step. apply wp_lift; unfold u64_add; destruct (Z.ltb_spec (GenesisConfig.gas_used gc + 10) u64_bound);
    [intros gl [= <-]|lia|done|lia].
  wp_step. unfold Ledger.add_genesis_block. wp_step. eapply wp_mono; [apply (add_block_spec l2 []); [done|]|].
  { split; [done|done|apply not_elem_of_nil|by left|constructor|done]. }
  intros _ l3 (Hr3 & Hv3 & _). cbn beta. apply wp_modify. wp_step. split_and!; [done| |by simpl; congruence|done].
  destruct Hr3 as [[] ?]. by split; [split|].
Qed.
End ledger_props.
