(* ===== verification/Backend.v ===== *)
(** * The backend ([src/consensus/backend.rs], [consensus/consensus.rs], [consensus/config.rs])

    The trait [Backend] is a class: the PBFT core is written and proved
    against it.  [ImplBackend] implements it and the trait [Engine] on the
    chain.  Clones of an [ImplBackend] share the chain and the commit channel
    and nothing else; the state [Backend.t] is one clone with what it
    shares. *)

From S2P Require Import Prelude External Types Validators Protocol Wire Store Ledger.

(** ** The trait *)

Class Backend (B : Type) : Type := {
  be_address : B → Address;
  be_validators : Height → B → ImplValidatorSet.t;
  be_gossip : ImplValidatorSet.t → GossipMessage.t → M B EngineResult;
  (** the proposal is [&mut]: it is returned *)
  be_commit : Proposal.t → list Signature → M B (Proposal.t * result unit string);
  (** the duration is in nanoseconds *)
  be_verify : Proposal.t → M B (Z * EngineResult);
  be_sign : bytes → B → result Signature string;
  be_check_signature : bytes → Address → bytes → B → outcome (result bool unit);
  be_last_proposal : M B (result Proposal.t unit);
  be_has_proposal : Hash → Height → M B bool;
  be_get_proposer : Height → M B Address;
  be_parent_validators : Proposal.t → B → ImplValidatorSet.t;
  be_has_bad_proposal : Hash → B → bool;
  be_get_header_by_height : Height → M B (option Header.t)
}.

(** No call changes who this node is or who validates. *)
Definition be_stable {B : Type} `{Backend B} {A : Type} (m : M B A) : Prop :=
  ∀ b a b', m b = Ret (a, b') →
    be_address b' = be_address b ∧ ∀ h, be_validators h b' = be_validators h b.

Class BackendLaws (B : Type) `{Backend B} : Prop := {
  gossip_stable : ∀ vs m, be_stable (be_gossip vs m);
  commit_stable : ∀ p s, be_stable (be_commit p s);
  verify_stable : ∀ p, be_stable (be_verify p);
  last_proposal_stable : be_stable be_last_proposal;
  has_proposal_stable : ∀ h ht, be_stable (be_has_proposal h ht);
  get_proposer_stable : ∀ ht, be_stable (be_get_proposer ht);
  get_header_stable : ∀ ht, be_stable (be_get_header_by_height ht);
  (** gossip never panics, whatever the state *)
  gossip_total : ∀ vs m b, ∃ r b', be_gossip vs m b = Ret (r, b')
}.

(** ** Configuration of the engine *)

Module Config.
Record t : Type := new { request_time : Z; block_period : Z; chain_id : Z }.
End Config.

(** What a backend sends to other actors. *)
Inductive BackendSend : Type :=
| ToCoreMessage (payload : bytes)
| ToCoreNewHeader (proposal : Proposal.t)
| ToCoreFinalCommitted
| ToCoreStop
| BroadcastConsensus (msg : GossipMessage.t).

Module ImplBackend.
Section backend.
Context {DB HC BC LC : Type}.
Context `{Database DB, LruCache HC Hash Header.t, LruCache BC Hash Block.t, LruCache LC Hash unit}.
Context `{CryptoKit, Codec, Chrono, BigInt}.

(** [core_pid] is [None] or the core's address; [commit_chan] is the
    [bounded(1)] channel and [chain] the [Arc<Chain>], shared with the other
    clones; [sent] is what was sent to other actors. *)
Record t : Type := mk {
  core_pid : option unit; validaor : Validator.t; validator_set : ImplValidatorSet.t;
  key_pair : Secret; inbound_cache : LC; outbound_cache : LC; proposed_block_hash : Hash;
  started : bool; config : Config.t;
  chain : Chain.t DB HC BC; commit_chan : list Block.t; sent : list BackendSend }.

Definition set_core_pid (p : option unit) (b : t) : t :=
  mk p (validaor b) (validator_set b) (key_pair b) (inbound_cache b) (outbound_cache b)
     (proposed_block_hash b) (started b) (config b) (chain b) (commit_chan b) (sent b).
Definition set_outbound_cache (c : LC) (b : t) : t :=
  mk (core_pid b) (validaor b) (validator_set b) (key_pair b) (inbound_cache b) c
     (proposed_block_hash b) (started b) (config b) (chain b) (commit_chan b) (sent b).
Definition set_proposed_block_hash (h : Hash) (b : t) : t :=
  mk (core_pid b) (validaor b) (validator_set b) (key_pair b) (inbound_cache b) (outbound_cache b)
     h (started b) (config b) (chain b) (commit_chan b) (sent b).
Definition set_started (x : bool) (b : t) : t :=
  mk (core_pid b) (validaor b) (validator_set b) (key_pair b) (inbound_cache b) (outbound_cache b)
     (proposed_block_hash b) x (config b) (chain b) (commit_chan b) (sent b).
Definition set_chain (c : Chain.t DB HC BC) (b : t) : t :=
  mk (core_pid b) (validaor b) (validator_set b) (key_pair b) (inbound_cache b) (outbound_cache b)
     (proposed_block_hash b) (started b) (config b) c (commit_chan b) (sent b).
Definition set_commit_chan (c : list Block.t) (b : t) : t :=
  mk (core_pid b) (validaor b) (validator_set b) (key_pair b) (inbound_cache b) (outbound_cache b)
     (proposed_block_hash b) (started b) (config b) (chain b) c (sent b).
Definition send (e : BackendSend) : M t unit :=
  modify (λ b, mk (core_pid b) (validaor b) (validator_set b) (key_pair b) (inbound_cache b)
    (outbound_cache b) (proposed_block_hash b) (started b) (config b) (chain b) (commit_chan b)
    (sent b ++ [e])).
Definition on_chain {A : Type} (m : M (Chain.t DB HC BC) A) : M t A :=
  λ b, match m (chain b) with Ret (a, c) => Ret (a, set_chain c b) | Panic => Panic end.

Definition new_impl_backend (keypair : Secret) (chain : Chain.t DB HC BC) : t :=
  let cfg := Chain.config chain in
  let addresses := Validator.address <$>
    Chain.get_validators (Chain.get_last_height chain) chain in
  mk None (Validator.new (secret_address keypair)) (ImplValidatorSet.new addresses fn_selector)
     keypair (lru_with_capacity 1024) (lru_with_capacity 1024) EMPTY_HASH false
     (Config.new (ChainConfig.request_time cfg) (ChainConfig.block_period cfg / 1000) 0)
     chain [] [].

(** *** [Backend for ImplBackend] *)

Definition address (b : t) : Address := Validator.address (validaor b).
Definition validators (_ : Height) (b : t) : ImplValidatorSet.t := validator_set b.

Definition outbound_cache_get (h : Hash) : M t bool :=
  λ b, match lru_get (V := unit) h (outbound_cache b) with
       | (o, c) => Ret (bool_decide (is_Some o), set_outbound_cache c b)
       end.

(** A message whose hash is in the cache was sent already. *)
Definition gossip (vals : ImplValidatorSet.t) (msg : GossipMessage.t) : M t EngineResult :=
  let msg_hash := crypto_hash msg in
  outbound_cache_get msg_hash ≫= λ hit : bool,
  if hit then mret (Ok tt)
  else
    modify (λ b, set_outbound_cache (lru_insert msg_hash tt (outbound_cache b)) b);;
    pid ← gets core_pid;
    match pid with
    | None => mret (Err EngineNotStarted)
    | Some _ =>
        send (ToCoreMessage (into_bytes msg));;
        send (BroadcastConsensus msg);;
        mret (Ok tt)
    end.

(** [commit_tx.send(block).unwrap()]: on a full channel the call never
    returns, which yields no value either. *)
Definition commit_tx_send (block : Block.t) : M t unit :=
  chan ← gets commit_chan;
  if (length chan <? 1)%nat then modify (set_commit_chan (chan ++ [block])) else panic.

Definition commit (proposal : Proposal.t) (seals : list Signature) :
    M t (Proposal.t * result unit string) :=
  let proposal := Proposal.set_seal seals proposal in
  let block := Proposal.block proposal in
  proposed ← gets proposed_block_hash;
  when (bool_decide (proposed = Block.hash block)) (commit_tx_send block);;
  votes ← lift (unwrap (Block.votes block));
  let block := Block.new (Header.set_votes (Some (Votes.add_votes seals votes)) (Block.header block))
                 (Block.transactions block) in
  _ ← on_chain (Chain.insert_block block);
  mret (proposal, Ok tt).

Definition has_bad_proposal (_hash : Hash) (b : t) : bool := false.

Definition verify_seal (header : Header.t) (b : t) : outcome EngineResult :=
  let maj := ImplValidatorSet.two_thirds_majority (validator_set b) in
  (** the argument of [ok_or] is evaluated first: [votes.unwrap()] *)
  votes ← unwrap (Header.votes header);
  if negb (Votes.verify_signs (crypto_hash header)
             (λ a, bool_decide (is_Some (ImplValidatorSet.get_by_address a (validator_set b)))) votes)
  then mret (Err InvalidSignature)
  else if (Votes.len votes <? maj + 1)%nat then mret (Err (LackVotes (maj + 1) (Votes.len votes)))
  else
    match ImplValidatorSet.get_by_address (Header.proposer header) (validator_set b) with
    | None => mret (Err (EngineUnknown "proposer is not validators"))
    | Some _ => mret (Ok tt)
    end.

Definition verify_header (header : Header.t) (seal : bool) : M t EngineResult :=
  if Header.height header =? 0 then mret (Err InvalidHeight)
  else
    o ← on_chain (Chain.get_header_by_height (Header.height header - 1));
    match o with
    | None => mret (Err (UnknownAncestor (Header.height header) (Header.height header - 1)))
    | Some parent_header =>
        if bool_decide (Header.block_hash parent_header ≠ Header.prev_hash header) then
          mret (Err (EngineUnknown "parent hash != heaer.prev hash"))
        else
          period ← gets (λ b, Config.block_period (config b));
          earliest ← lift (u64_add (Header.time parent_header) period);
          if Header.time header <? earliest then mret (Err InvalidTimestamp)
          else if seal then b ← gets (λ b, b); lift (verify_seal header b)
          else mret (Ok tt)
    end.

(** The first transaction whose signature does not verify stops the loop. *)
Fixpoint verify_transactions (chain_id : Z) (txs : list Transaction.t) : outcome bool :=
  match txs with
  | [] => mret true
  | tx :: rest =>
      Transaction.verify_sign chain_id tx ≫= λ ok : bool,
      if ok then verify_transactions chain_id rest else mret false
  end.

Definition verify (proposal : Proposal.t) : M t (Z * EngineResult) :=
  let block := Proposal.block proposal in
  let header := Block.header block in
  gets (has_bad_proposal (Header.block_hash header)) ≫= λ bad : bool,
  if bad then mret (0, Err InvalidProposal)
  else
    chain_id ← gets (λ b, Config.chain_id (config b));
    lift (verify_transactions chain_id (Block.transactions block)) ≫= λ signed : bool,
    if negb signed then mret (0, Err InvalidSignature)
    else
      transaction_hash ← lift (merkle_tree_root (Block.transactions block));
      if bool_decide (transaction_hash ≠ Header.tx_hash header) then
        mret (0, Err (InvalidTransactionHash (Header.tx_hash header) transaction_hash))
      else
        r ← verify_header header false;
        match r with
        | Ok _ => mret (0, Ok tt)
        | Err FutureBlock =>
            now ← gets (λ b, Clk.wall_secs (Chain.clk (chain b)));
            if now <=? Header.time header then
              d ← lift (u64_sub now (Header.time header)); mret (d, r)
            else mret (0, r)
        | Err _ => mret (0, r)
        end.

Definition sign (digest : bytes) (b : t) : result Signature string :=
  match ethkey_sign (key_pair b) digest with
  | Some s => Ok s
  | None => Err "invalid sign"%string
  end.
Definition check_signature (data : bytes) (a : Address) (sig : bytes) (b : t) :
    outcome (result bool unit) :=
  s ← unwrap (signature_from_slice sig);
  mret (ok_or (verify_address a s (hash data)) tt).

Definition last_proposal : M t (result Proposal.t unit) :=
  gets (λ b, Ok (Proposal.new (Chain.get_last_block (chain b)))).
Definition has_proposal (h : Hash) (height : Height) : M t bool :=
  o ← on_chain (Chain.get_block_hash_by_height height);
  mret (match o with Some block_hash => bool_decide (block_hash = h) | None => false end).
Definition get_proposer (height : Height) : M t Address :=
  o ← on_chain (Chain.get_header_by_height height);
  mret (match o with Some header => Header.proposer header | None => EMPTY_ADDRESS end).
Definition parent_validators (_proposal : Proposal.t) (b : t) : ImplValidatorSet.t := validator_set b.
Definition get_header_by_height (height : Height) : M t (option Header.t) :=
  on_chain (Chain.get_header_by_height height).

#[global] Instance backend : Backend t := {
  be_address := address; be_validators := validators; be_gossip := gossip; be_commit := commit;
  be_verify := verify; be_sign := sign; be_check_signature := check_signature;
  be_last_proposal := last_proposal; be_has_proposal := has_proposal;
  be_get_proposer := get_proposer; be_parent_validators := parent_validators;
  be_has_bad_proposal := has_bad_proposal; be_get_header_by_height := get_header_by_height }.

(** *** [Engine for ImplBackend] *)

Definition start : M t (result unit string) :=
  gets started ≫= λ s : bool,
  if s then panic else modify (set_started true);; mret (Ok tt).
Definition stop : M t (result unit string) :=
  pid ← gets core_pid;
  _ ← lift (unwrap pid);
  send ToCoreStop;;
  modify (λ b, set_started false (set_core_pid None b));;
  mret (Ok tt).
Definition author (header : Header.t) (b : t) : result Address string := Ok (Header.proposer header).
Definition new_chain_header (proposal : Proposal.t) : M t EngineResult :=
  gets started ≫= λ s : bool,
  if negb s then mret (Err EngineNotStarted)
  else
    pid ← gets core_pid;
    _ ← lift (unwrap pid);
    send (ToCoreNewHeader proposal);;
    mret (Ok tt).
(** Returns the header, whose votes are cleared. *)
Definition prepare (header : Header.t) : M t (result Header.t string) :=
  parent ← lift (u64_sub (Header.height header) 1);
  o ← on_chain (Chain.get_header_by_height parent);
  match o with
  | None => mret (Err "not found parent block for the header"%string)
  | Some _ =>
      let header := Header.set_votes None header in
      modify (set_proposed_block_hash (Header.block_hash header));;
      mret (Ok header)
  end.
Definition finalize (_header : Header.t) : M t (result unit string) :=
  modify (set_proposed_block_hash EMPTY_HASH);;
  pid ← gets core_pid;
  _ ← lift (unwrap pid);
  send ToCoreFinalCommitted;;
  mret (Ok tt).

(** Seconds to sleep until the block's time. *)
Definition seal_delay (now time : Z) : Z := if now <? time then time - now else 0.

(** The synchronous part of [seal], up to the task it spawns; returns the
    block as [prepare] left it. *)
Definition seal (new_block : Block.t) : M t (result Block.t EngineError) :=
  gets started ≫= λ s : bool,
  if negb s then mret (Err EngineNotStarted)
  else
    r ← prepare (Block.header new_block);
    header ← lift (match r with Ok h => Ret h | Err _ => Panic end);
    let new_block := Block.new header (Block.transactions new_block) in
    r ← new_chain_header (Proposal.new new_block);
    _ ← lift (match r with Ok _ => Ret tt | Err _ => Panic end);
    mret (Ok new_block).

(** The task: each turn polls the abort channel, then waits a second on the
    commit channel.  The pattern [RecvTimeoutError] binds a variable, so
    every error of the second poll continues. *)
Inductive AbortPoll : Type := AbortGot | AbortEmpty | AbortDisconnected.
Inductive CommitPoll : Type := CommitGot (b : Block.t) | CommitError.

Fixpoint seal_wait (new_hash : Hash) (new_height : Height) (polls : list (AbortPoll * CommitPoll)) :
    option (outcome (result Block.t EngineError)) :=
  match polls with
  | [] => None
  | (AbortEmpty, CommitGot block) :: rest =>
      if Block.height block <=? new_height then
        if bool_decide (Block.hash block = new_hash) then Some (Ret (Ok block))
        else seal_wait new_hash new_height rest
      else Some Panic
  | (AbortEmpty, CommitError) :: rest => seal_wait new_hash new_height rest
  | (_, _) :: _ => Some (Ret (Err Interrupt))
  end.
End backend.
Arguments t : clear implicits.
End ImplBackend.

(** ** [ImplBackend] discharges the interface *)

Section backend_props.
Context {DB HC BC LC : Type} `{DatabaseLaws DB}.
Context `{HCC : LruCache HC Hash Header.t, !LruCacheLaws HC Hash Header.t}.
Context `{BCC : LruCache BC Hash Block.t, !LruCacheLaws BC Hash Block.t}.
Context `{LCC : LruCache LC Hash unit, !LruCacheLaws LC Hash unit}.
Context `{CryptoKit} `{CodecLaws} `{Chrono} `{BigInt}.
Abbreviation B := (ImplBackend.t DB HC BC LC).
Implicit Types b : B.

Definition keeps (b b' : B) : Prop :=
  ImplBackend.validaor b' = ImplBackend.validaor b ∧
  ImplBackend.validator_set b' = ImplBackend.validator_set b ∧
  ImplBackend.core_pid b' = ImplBackend.core_pid b ∧
  ImplBackend.proposed_block_hash b' = ImplBackend.proposed_block_hash b.

#[local] Instance keeps_preorder : PreOrder keeps.
Proof.
  split; [by repeat split|].
  intros b1 b2 b3 (?&?&?&?) (?&?&?&?). unfold keeps. split_and!; congruence.
Qed.


Lemma on_chain_keeps {A} (m : M (Chain.t DB HC BC) A) b :
  wp True (ImplBackend.on_chain m) (λ _ b', keeps b b') b.
Proof. unfold wp, ImplBackend.on_chain. by destruct (m _) as [[a c]|]. Qed.

Lemma wp_on_chain {A} P (m : M (Chain.t DB HC BC) A) (Q : A → B → Prop) b :
  wp P m (λ a c, Q a (ImplBackend.set_chain c b)) (ImplBackend.chain b) →
  wp P (ImplBackend.on_chain m) Q b.
Proof. unfold wp, ImplBackend.on_chain. destruct (m _) as [[a c]|]; done. Qed.

(** Steps a handler's text, remembering that every state keeps the first. *)
Ltac keeps_step :=
  lazymatch goal with
  | |- wp _ (ImplBackend.on_chain _) _ _ =>
      eapply wp_mono; [apply on_chain_keeps|]; intros ? ? ?; cbn beta
  | |- wp _ (ImplBackend.send _) _ _ => apply wp_modify
  | _ => wp_step
  end.
Ltac keeps_done :=
  first [ exact I | reflexivity | assumption | done
        | (etrans; [eassumption|]; (reflexivity || done)) | (repeat split; done) ].

Lemma gossip_keeps vs m b : wp False (ImplBackend.gossip vs m) (λ _ b', keeps b b') b.
Proof.
  unfold ImplBackend.gossip. wp_step. unfold ImplBackend.outbound_cache_get, wp at 1.
  destruct (lru_get _ _) as [o c]. wp_step; [by wp_step|].
  wp_step. apply wp_modify. wp_step. apply wp_gets. wp_step; [|by wp_step].
  wp_step. apply wp_modify. wp_step. apply wp_modify. by wp_step.
Qed.

Lemma verify_header_keeps x seal b :
  wp True (ImplBackend.verify_header x seal) (λ _ b', keeps b b') b.
Proof. unfold ImplBackend.verify_header. repeat (keeps_step; cbn beta); keeps_done. Qed.

Lemma commit_tx_send_keeps x b : wp True (ImplBackend.commit_tx_send x) (λ _ b', keeps b b') b.
Proof. unfold ImplBackend.commit_tx_send. repeat (keeps_step; cbn beta); keeps_done. Qed.

Lemma commit_keeps p s b : wp True (ImplBackend.commit p s) (λ _ b', keeps b b') b.
Proof.
  unfold ImplBackend.commit. wp_step. apply wp_gets. wp_step. apply wp_when; intros _.
  - eapply wp_mono; [apply commit_tx_send_keeps|]. intros [] b1 Hk. cbn beta.
    repeat (keeps_step; cbn beta); try done. by etrans.
  - repeat (keeps_step; cbn beta); keeps_done.
Qed.

Lemma verify_keeps p b : wp True (ImplBackend.verify p) (λ _ b', keeps b b') b.
Proof.
  unfold ImplBackend.verify. wp_step. apply wp_gets. wp_step; [by wp_step|].
  wp_step. apply wp_gets. wp_step. apply wp_lift; [intros signed Esig|done]. wp_step; [by wp_step|].
  wp_step. apply wp_lift; [intros root Eroot|done]. wp_step; [by wp_step|].
  wp_step. eapply wp_mono; [apply verify_header_keeps|]. intros r b1 Hk. cbn beta.
  repeat (keeps_step; cbn beta); keeps_done.
Qed.

Lemma keeps_stable {A} (m : M B A) :
  (∀ b, wp True m (λ _ b', keeps b b') b) → be_stable m.
Proof.
  intros Hm b a b' E. pose proof (wp_elim _ _ _ _ _ _ (Hm b) E) as (Hv & Hs & _).
  simpl. unfold ImplBackend.address, ImplBackend.validators. by rewrite Hv, Hs.
Qed.

#[global] Instance impl_backend_laws : BackendLaws B.
Proof.
  split.
  - intros vs m. apply keeps_stable. intros b. eapply wp_weaken, gossip_keeps. done.
  - intros p s. apply keeps_stable. intros b. apply commit_keeps.
  - intros p. apply keeps_stable. intros b. apply verify_keeps.
  - apply keeps_stable. intros b. by apply wp_gets.
  - intros h ht. apply keeps_stable. intros b. simpl. unfold ImplBackend.has_proposal.
    repeat (keeps_step; cbn beta); keeps_done.
  - intros ht. apply keeps_stable. intros b. simpl. unfold ImplBackend.get_proposer.
    repeat (keeps_step; cbn beta); keeps_done.
  - intros ht. apply keeps_stable. intros b. apply on_chain_keeps.
  - intros vs m b. destruct (wp_total _ _ _ (gossip_keeps vs m b)) as (r & b' & E & _). eauto.
Qed.

(** [gossip] sends a message once: the first call of a started node that has
    not the message in its cache delivers it to the node's own core and to
    the network, and a repeated call succeeds and sends nothing, so the two
    [send_commit]s a prepare quorum can trigger cost one message. *)
Lemma gossip_once (vs : ImplValidatorSet.t) (m : GossipMessage.t) (b : B) :
  ∃ r b1 b2, ImplBackend.gossip vs m b = Ret (r, b1) ∧
    ImplBackend.gossip vs m b1 = Ret (Ok tt, b2) ∧ ImplBackend.sent b2 = ImplBackend.sent b1 ∧
    ImplBackend.sent b1 =
      match (lru_get (V := unit) (crypto_hash m) (ImplBackend.outbound_cache b)).1,
            ImplBackend.core_pid b with
      | None, Some _ => ImplBackend.sent b ++ [ToCoreMessage (into_bytes m); BroadcastConsensus m]
      | _, _ => ImplBackend.sent b
      end.
Proof using All.
  assert (∀ b1, is_Some (lru_get (V := unit) (crypto_hash m) (ImplBackend.outbound_cache b1)).1 →
    ∃ b2, ImplBackend.gossip vs m b1 = Ret (Ok tt, b2) ∧ ImplBackend.sent b2 = ImplBackend.sent b1 ∧
      is_Some (lru_get (V := unit) (crypto_hash m) (ImplBackend.outbound_cache b2)).1) as Hhit.
  { intros b1 [u Hu]. unfold ImplBackend.gossip, ImplBackend.outbound_cache_get, mbind, M_mbind, M_bind.
    pose proof (lru_get_get (V := unit) (crypto_hash m) (crypto_hash m) (ImplBackend.outbound_cache b1)) as Hgg.
    destruct (lru_get _ (ImplBackend.outbound_cache b1)) as [o c] eqn:E. simpl in *. subst o. simpl.
    eexists. split; [done|]. split; [done|]. simpl. rewrite Hgg. by eexists. }
  destruct (lru_get (V := unit) (crypto_hash m) (ImplBackend.outbound_cache b)).1 as [u|] eqn:E0.
  - destruct (Hhit b) as (b1 & E1 & S1 & H1'); [by rewrite E0; eexists|].
    destruct (Hhit b1 H1') as (b2 & E2 & S2 & _). eexists _, _, _. by split_and!.
  - unfold ImplBackend.gossip at 1, ImplBackend.outbound_cache_get, mbind, M_mbind, M_bind.
    destruct (lru_get _ (ImplBackend.outbound_cache b)) as [o c] eqn:E. simpl in E0. subst o. simpl.
    unfold gets. simpl. destruct (ImplBackend.core_pid b) as [[]|] eqn:Ep; simpl; unfold mret, M_mret;
      match goal with |- ∃ r b1 b2, Ret (?r0, ?x) = _ ∧ _ =>
        destruct (Hhit x) as (b2 & E2 & S2 & _);
          [simpl; rewrite lru_get_insert_eq; by eexists|exists r0, x, b2] end;
      split_and!; try done. simpl. by rewrite <-app_assoc.
Qed.

(** [verify_seal] accepts no header: without votes it panics (the argument of
    [ok_or] unwraps them), with an empty list it reports too few, and every
    list with a signature in it fails [verify_signs], which only accepts
    9-byte digests. *)
Lemma verify_seal_never_ok (x : Header.t) (b : B) :
  ImplBackend.verify_seal x b ≠ Ret (Ok tt) ∧
  (Header.votes x = None → ImplBackend.verify_seal x b = Panic) ∧
  (∀ s ss, Header.votes x = Some (s :: ss) → ImplBackend.verify_seal x b = Ret (Err InvalidSignature)).
Proof using All.
  assert (∀ s ss, Header.votes x = Some (s :: ss) →
    ImplBackend.verify_seal x b = Ret (Err InvalidSignature)) as Hbad.
  { intros s ss E. unfold ImplBackend.verify_seal. rewrite E. cbn [unwrap mbind outcome_mbind outcome_bind].
    rewrite verify_signs_rejects_hashes by apply crypto_hash_length. by rewrite bool_decide_false by done. }
  split_and!; [|by unfold ImplBackend.verify_seal; intros ->|done].
  destruct (Header.votes x) as [[|s ss]|] eqn:E; [..|by unfold ImplBackend.verify_seal; rewrite E].
  - unfold ImplBackend.verify_seal. rewrite E. simpl.
    by destruct (_ <? _)%nat eqn:E'; [|apply Nat.ltb_ge in E'; lia].
  - by rewrite (Hbad s ss).
Qed.

(** ** Verification and commit against the chain *)

Definition chain_holds (b : B) (bs : list Block.t) : Prop :=
  ledger_rep (Chain.ledger (ImplBackend.chain b)) bs.

(** The header extends one of the blocks: its parent is the block one below,
    and it is at least a block period later. *)
Definition extends (bs : list Block.t) (period : Z) (x : Header.t) : Prop :=
  Header.height x ≠ 0 ∧
  ∃ parent, bs !! Z.to_nat (Header.height x - 1) = Some parent ∧
    Header.prev_hash x = Block.hash parent ∧
    Header.time (Block.header parent) + period ≤ Header.time x.

Definition linked (bs : list Block.t) : Prop :=
  ∀ i x y, bs !! i = Some x → bs !! S i = Some y →
    Header.prev_hash (Block.header y) = Block.hash x.

(** Only the ledger's caches differ. *)
Definition same_but_ledger (b b' : B) : Prop :=
  ∃ l, same_but_caches (Chain.ledger (ImplBackend.chain b)) l ∧
    b' = ImplBackend.set_chain (Chain.set_ledger l (ImplBackend.chain b)) b.

Lemma same_but_ledger_refl b : same_but_ledger b b.
Proof. exists (Chain.ledger (ImplBackend.chain b)). split; [done|]. destruct b as [? ? ? ? ? ? ? ? ? c ? ?]. by destruct c. Qed.

Abbreviation period b := (Config.block_period (ImplBackend.config b)).

(** The sum of the parent's time and the block period does not fit a [u64]. *)
Definition time_overflows (bs : list Block.t) (period : Z) (x : Header.t) : Prop :=
  Header.height x ≠ 0 ∧
  ∃ parent, bs !! Z.to_nat (Header.height x - 1) = Some parent ∧ Header.prev_hash x = Block.hash parent ∧
    u64_bound ≤ Header.time (Block.header parent) + period.

Lemma verify_header_spec x b bs :
  chain_holds b bs → is_u64 (Header.height x) →
  wp (time_overflows bs (period b) x) (ImplBackend.verify_header x false) (λ r b',
    ¬ time_overflows bs (period b) x ∧
    (r = Ok tt ↔ extends bs (period b) x) ∧ r ≠ Err FutureBlock ∧ chain_holds b' bs ∧
    same_but_ledger b b') b.
Proof using All.
  intros Hr Hu. unfold ImplBackend.verify_header, extends, time_overflows, is_u64 in *.
  destruct (Z.eqb_spec (Header.height x) 0) as [E0|E0].
  { wp_step. split_and!; [tauto|split; [done|tauto]|done|done|apply same_but_ledger_refl]. }
  wp_step. apply wp_on_chain, wp_on_ledger. eapply wp_mono.
  { apply wp_never, (ledger_get_header_by_height_spec _ bs); [apply Hr|split; lia]. }
  intros o l1 (Hs & Hr1 & Ho). cbn beta.
  apply (same_but_caches_rep _ _ bs Hr) in Hr1; [|done].
  destruct (bs !! Z.to_nat (Header.height x - 1)) as [parent|] eqn:Epar; cycle 1.
  { subst o. wp_step. split_and!; [naive_solver|split; [done|naive_solver]|done|exact Hr1|by eexists; split]. }
  destruct Ho as (px & -> & Hw & Hh). fold (Block.hash parent) in Hh.
  assert (Header.time px = Header.time (Block.header parent)) as Htime.
  { by apply (f_equal Header.time) in Hw. }
  rewrite Hh. case_bool_decide as Eprev.
  { wp_step. split_and!; [naive_solver|split; [done|naive_solver]|done|exact Hr1|by eexists; split]. }
  wp_step. apply wp_gets. cbn [ImplBackend.config ImplBackend.set_chain]. rewrite Htime.
  wp_step. apply wp_lift.
  2: { intros E. split; [done|]. exists parent. split_and!; [done|congruence|].
    destruct (Z.le_gt_cases u64_bound (Header.time (Block.header parent) + period b)); [done|].
    by rewrite u64_add_fits in E. }
  intros e [-> Hlt]%u64_add_Ret.
  assert (¬ (Header.height x ≠ 0 ∧ ∃ p, Some parent = Some p ∧ Header.prev_hash x = Block.hash p ∧
    u64_bound ≤ Header.time (Block.header p) + period b)) as Hno.
  { intros (_ & p' & [= <-] & _ & Hle). lia. }
  destruct (Z.ltb_spec (Header.time x) (Header.time (Block.header parent) + period b)); wp_step.
  - split_and!; [done|split; [done|]|done|exact Hr1|by eexists; split].
    intros (_ & p' & E & _ & Hle). simplify_eq. lia.
  - split_and!; [done|split; [intros _|done]|done|exact Hr1|by eexists; split].
    split; [done|]. exists parent. split_and!; [done|congruence|lia].
Qed.

(** A signed transaction without a recipient, before which every transaction
    verifies. *)
Definition signed_to_nobody (cid : Z) (txs : list Transaction.t) : Prop :=
  ∃ pre tx post, txs = pre ++ tx :: post ∧ Forall (λ t, Transaction.verify_sign cid t = Ret true) pre ∧
    is_Some (Transaction.signature tx) ∧ Transaction.recipient tx = None.

Lemma verify_sign_cases cid tx :
  match Transaction.verify_sign cid tx with
  | Panic => is_Some (Transaction.signature tx) ∧ Transaction.recipient tx = None
  | Ret ok => (is_Some (Transaction.signature tx) → is_Some (Transaction.recipient tx)) ∧
      (ok = true → tx_complete tx)
  end.
Proof.
  unfold Transaction.verify_sign, Transaction.packet_signature, tx_complete.
  destruct (Transaction.signature tx); [|by split; [intros []|]].
  by destruct (Transaction.recipient tx).
Qed.

Lemma verify_transactions_spec cid txs :
  match ImplBackend.verify_transactions cid txs with
  | Panic => signed_to_nobody cid txs
  | Ret r => ¬ signed_to_nobody cid txs ∧ (r = true ↔ Forall (λ tx, Transaction.verify_sign cid tx = Ret true) txs)
  end.
Proof.
  induction txs as [|tx txs IH]; simpl.
  { split; [|done]. by intros ([|] & ? & ? & ? & _). }
  pose proof (verify_sign_cases cid tx) as Htx.
  destruct (Transaction.verify_sign cid tx) as [ok|] eqn:E; simpl; [|by exists [], tx, txs].
  assert (∀ pre t post, tx :: txs = pre ++ t :: post →
    Forall (λ t, Transaction.verify_sign cid t = Ret true) pre → is_Some (Transaction.signature t) →
    Transaction.recipient t = None → ok = true ∧ signed_to_nobody cid txs) as Hpre.
  { intros [|t0 pre] t post [= <- Ex] Hpre Hs Hn.
    - destruct Htx as [Htx _]. rewrite Hn in Htx. by destruct (Htx Hs).
    - apply Forall_cons in Hpre as [Ht0 Hpre]. rewrite E in Ht0. injection Ht0 as ->.
      split; [done|]. by exists pre, t, post. }
  destruct ok.
  - destruct (ImplBackend.verify_transactions cid txs) as [r|].
    + destruct IH as [Hn Hr]. split; [by intros (? & ? & ? & ? & ? & ? & ?); eapply Hn, Hpre|].
      rewrite Forall_cons, E. naive_solver.
    + destruct IH as (pre & t & post & -> & Hp & Hs & Hn). exists (tx :: pre), t, post. by split_and!; [|constructor|..].
  - split; [intros (? & ? & ? & ? & ? & ? & ?); by destruct (Hpre x x0 x1)|]. rewrite Forall_cons, E. naive_solver.
Qed.

(** The proposals [verify] panics on. *)
Definition verify_panics (bs : list Block.t) (cid period : Z) (blk : Block.t) : Prop :=
  let txs := Block.transactions blk in
  signed_to_nobody cid txs ∨
  Forall (λ tx, Transaction.verify_sign cid tx = Ret true) txs ∧
    (merkle_tree_root txs = Panic ∨
     merkle_tree_root txs = Ret (Header.tx_hash (Block.header blk)) ∧
       time_overflows bs period (Block.header blk)).

Lemma verify_cases p b bs :
  let blk := Proposal.block p in
  let cid := Config.chain_id (ImplBackend.config b) in
  chain_holds b bs → is_u64 (Block.height blk) →
  wp (verify_panics bs cid (period b) blk) (ImplBackend.verify p) (λ dr b',
    ¬ verify_panics bs cid (period b) blk ∧ dr.1 = 0 ∧ chain_holds b' bs ∧ same_but_ledger b b' ∧
    (dr.2 = Ok tt ↔
      Forall (λ tx, Transaction.verify_sign cid tx = Ret true) (Block.transactions blk) ∧
      merkle_tree_root (Block.transactions blk) = Ret (Header.tx_hash (Block.header blk)) ∧
      extends bs (period b) (Block.header blk))) b.
Proof using All.
  cbv zeta. intros Hr Hu. unfold ImplBackend.verify, verify_panics. wp_step. apply wp_gets. simpl.
  wp_step. apply wp_gets. wp_step.
  pose proof (verify_transactions_spec (Config.chain_id (ImplBackend.config b)) (Block.transactions (Proposal.block p))) as Htx.
  apply wp_lift; [|intros E; rewrite E in Htx; by left]. intros sg Esg. rewrite Esg in Htx. destruct Htx as [Hnp Htx].
  destruct sg; cbn [negb].
  2: { wp_step. split_and!; [naive_solver|done|done|apply same_but_ledger_refl|naive_solver]. }
  assert (Forall (λ tx, Transaction.verify_sign (Config.chain_id (ImplBackend.config b)) tx = Ret true)
    (Block.transactions (Proposal.block p))) as Hall by by apply Htx.
  wp_step. apply wp_lift; [|by right; auto]. intros root Hroot.
  case_bool_decide as Ert.
  { wp_step. split_and!; [naive_solver congruence|done|done|apply same_but_ledger_refl|].
    split; [done|]. intros (_ & E & _). congruence. }
  subst root. wp_step. eapply wp_mono.
  { eapply wp_weaken; [|by apply verify_header_spec]. intros Ho. right. split; [done|]. right. by split. }
  intros r b1 (Hno & Hok & Hnf & Hr1 & Hb1). cbn beta.
  assert (∀ e, r = Err e → ¬ extends bs (period b) (Block.header (Proposal.block p))) as He.
  { intros e -> He. by apply Hok in He. }
  assert (¬ (signed_to_nobody (Config.chain_id (ImplBackend.config b)) (Block.transactions (Proposal.block p)) ∨
    Forall (λ tx, Transaction.verify_sign (Config.chain_id (ImplBackend.config b)) tx = Ret true)
      (Block.transactions (Proposal.block p)) ∧
    (merkle_tree_root (Block.transactions (Proposal.block p)) = Panic ∨
     merkle_tree_root (Block.transactions (Proposal.block p)) = Ret (Header.tx_hash (Block.header (Proposal.block p))) ∧
       time_overflows bs (period b) (Block.header (Proposal.block p))))) as Hnone by naive_solver congruence.
  destruct r as [[]|e]; [|destruct e]; try done; wp_step;
    (split_and!; [exact Hnone|done|exact Hr1|exact Hb1|]); naive_solver.
Qed.

Lemma verify_spec p root b bs :
  let blk := Proposal.block p in
  chain_holds b bs → is_u64 (Block.height blk) →
  (∀ q, q ∈ bs → Header.time (Block.header q) + period b < u64_bound) →
  Forall (λ tx, is_Some (Transaction.recipient tx)) (Block.transactions blk) →
  merkle_tree_root (Block.transactions blk) = Ret root →
  wp False (ImplBackend.verify p) (λ dr b',
    dr.1 = 0 ∧ chain_holds b' bs ∧ same_but_ledger b b' ∧
    (dr.2 = Ok tt ↔
      Forall (λ tx, Transaction.verify_sign (Config.chain_id (ImplBackend.config b)) tx = Ret true)
        (Block.transactions blk) ∧
      root = Header.tx_hash (Block.header blk) ∧
      extends bs (period b) (Block.header blk))) b.
Proof using All.
  cbv zeta. intros Hr Hu Hp Hto Hroot. eapply wp_mono.
  - eapply wp_weaken; [|by apply verify_cases]. intros [(pre & tx & post & E & _ & _ & Hn)|[_ [E|[_ (_ & q & Hq & _ & Hle)]]]].
    + rewrite E in Hto. apply Forall_app in Hto as [_ [[? Hs] _]%Forall_cons]. by rewrite Hn in Hs.
    + by rewrite Hroot in E.
    + apply list_elem_of_lookup_2, Hp in Hq. lia.
  - intros dr b' (_ & Hd & Hr' & Hs & Hok). split_and!; [done..|]. rewrite Hok, Hroot. naive_solver.
Qed.

(** C16 [ImplBackend::verify] accepts a proposal exactly when every transaction
    carries a recoverable signature, the header's transaction root is the
    Merkle root of the transactions, and the header extends the local chain:
    the block below it is its parent by hash and it is at least one block
    period younger.  Verification then and on every refusal returns and
    changes nothing but the caches of the chain.  It panics exactly on a
    transaction that is signed but has no recipient, if those before it
    verify, and, if all verify, where the transactions have no Merkle root or
    the root is right and the time of the parent plus the block period
    exceeds a [u64]. *)
Theorem verify_accepts_extensions (p : Proposal.t) (b : B) (bs : list Block.t) :
  let blk := Proposal.block p in
  let cid := Config.chain_id (ImplBackend.config b) in
  chain_holds b bs → is_u64 (Block.height blk) →
  (verify_panics bs cid (period b) blk → ImplBackend.verify p b = Panic) ∧
  (¬ verify_panics bs cid (period b) blk →
    ∃ r b', ImplBackend.verify p b = Ret ((0, r), b') ∧ same_but_ledger b b' ∧ chain_holds b' bs ∧
      (r = Ok tt ↔
        Forall (λ tx, Transaction.verify_sign cid tx = Ret true) (Block.transactions blk) ∧
        merkle_tree_root (Block.transactions blk) = Ret (Header.tx_hash (Block.header blk)) ∧
        extends bs (period b) (Block.header blk))).
Proof using All.
  intros blk cid Hr Hu. pose proof (verify_cases p b bs Hr Hu) as Hw. unfold wp in Hw. fold blk cid in Hw.
  destruct (ImplBackend.verify p b) as [[[d r] b']|]; [|done].
  destruct Hw as (Hn & Hd & Hr' & Hs & Hok). simpl in Hd, Hok. subst d. split; [done|]. intros _. by exists r, b'.
Qed.

Lemma linked_snoc bs y :
  linked bs → (∀ x, last bs = Some x → Header.prev_hash (Block.header y) = Block.hash x) →
  linked (bs ++ [y]).
Proof.
  intros Hl Hy i x z Hx Hz. apply lookup_snoc_Some in Hz as [[Hlt Hz]|[Ei <-]].
  - eapply Hl; [|done]. rewrite lookup_app_l in Hx by lia. done.
  - apply Hy. rewrite last_lookup, <-Ei. simpl. by rewrite lookup_app_l in Hx by lia.
Qed.

(** The block [commit] writes: the proposal's, with the seals as votes. *)
Definition sealed_block (p : Proposal.t) (seals : list Signature) : Block.t :=
  let blk := Proposal.block (Proposal.set_seal seals p) in
  Block.new (Header.set_votes
      (Some (Votes.add_votes seals
        (match Block.votes blk with Some v => v | None => [] end))) (Block.header blk))
    (Block.transactions blk).

Lemma sealed_block_hash p seals : Block.hash (sealed_block p seals) = Block.hash (Proposal.block p).
Proof. done. Qed.

(** Collision resistance of transaction hashes, as for the ledger. *)
Context (tx_hash_inj : ∀ tx tx' h,
  Transaction.crypto_hash tx = Ret h → Transaction.crypto_hash tx' = Ret h →
  Transaction.wire tx = Transaction.wire tx').

Lemma commit_spec p seals b bs :
  chain_holds b bs → bs ≠ [] → Z.of_nat (length bs) < u64_bound →
  Chain.sync_limiter (ImplBackend.chain b) ≤ Clk.instant (Chain.clk (ImplBackend.chain b)) →
  appendable bs (sealed_block p seals) →
  ImplBackend.proposed_block_hash b ≠ Block.hash (Proposal.block p) →
  wp False (ImplBackend.commit p seals) (λ pr b', pr.2 = Ok tt ∧
    chain_holds b' (bs ++ [sealed_block p seals]) ∧
    ImplBackend.commit_chan b' = ImplBackend.commit_chan b ∧
    Chain.events (ImplBackend.chain b') = Chain.events (ImplBackend.chain b) ++
      [NewBlock (sealed_block p seals); NewHeader (Block.header (sealed_block p seals))]) b.
Proof using All.
  intros Hr Hne Hlt Hlim Hap Hprop. unfold ImplBackend.commit. wp_step. apply wp_gets.
  wp_step. apply wp_when; [intros E%bool_decide_eq_true; done|intros _].
  wp_step. apply wp_lift; [|done]. intros votes [= <-].
  wp_step. apply wp_on_chain. pose proof (app_height _ _ Hap) as Hh. pose proof (app_room _ _ Hap).
  eapply wp_mono; [apply (insert_block_spec tx_hash_inj _ bs (sealed_block p seals)); try done|].
  { split; lia. }
  intros r c'. rewrite Hh, Z.ltb_irrefl. intros (-> & Hr' & He). wp_step. done.
Qed.

(** [commit] is the insertion of the sealed block, whose refusal it ignores. *)
Lemma commit_inserts p seals b :
  ImplBackend.proposed_block_hash b ≠ Block.hash (Proposal.block p) →
  ImplBackend.commit p seals b =
    match Chain.insert_block (sealed_block p seals) (ImplBackend.chain b) with
    | Ret (_, c) => Ret ((Proposal.set_seal seals p, Ok tt), ImplBackend.set_chain c b)
    | Panic => Panic
    end.
Proof.
  intros Hprop. unfold ImplBackend.commit, mbind, M_mbind, M_bind, gets, lift.
  rewrite bool_decide_false by done. simpl. unfold ImplBackend.on_chain.
  change (Block.new _ (Block.transactions (Proposal.block p))) with (sealed_block p seals).
  by destruct (Chain.insert_block _ _) as [[r c]|].
Qed.

(** What [verify] accepted is complete, and at most one above the chain. *)
Lemma verified_shape p b bs d b1 :
  chain_holds b bs → is_u64 (Block.height (Proposal.block p)) →
  ImplBackend.verify p b = Ret ((d, Ok tt), b1) →
  chain_holds b1 bs ∧ same_but_ledger b b1 ∧ Forall tx_complete (Block.transactions (Proposal.block p)) ∧
  extends bs (period b) (Block.header (Proposal.block p)) ∧
  Block.height (Proposal.block p) ≤ Z.of_nat (length bs).
Proof using All.
  intros Hr Hu E. destruct (wp_elim _ _ _ _ _ _ (verify_cases p b bs Hr Hu) E) as (_ & _ & Hr1 & Hs & Hok).
  destruct (proj1 Hok eq_refl) as (Hall & _ & Hext). split_and!; [done|done| |done|].
  - eapply Forall_impl; [exact Hall|]. intros tx Htx. pose proof (verify_sign_cases (Config.chain_id (ImplBackend.config b)) tx) as Hc.
    rewrite Htx in Hc. by apply Hc.
  - destruct Hext as (_ & parent & Hp%lookup_lt_Some & _). unfold Block.height, is_u64 in *. lia.
Qed.

(** C13 A proposal that [verify] accepted and [commit] then seals, on a node
    whose own proposal hash is another one (it is never set on the core's
    clone), with a chain of fewer than 2^64 - 1 blocks, a clock not behind the
    last sync request and a cached hash, if there is one, that is the
    proposal's: if its height is the next one, its hash is new and its time
    representable, the chain is extended by exactly one block, which has the
    proposal's hash and transactions, the seals added to the votes it carried,
    and links to its parent, so that a chain whose blocks are linked by
    [prev_hash] stays linked; a time the calendar does not represent makes
    [commit] panic.  If its height is not the next one it is one the chain
    has already, and [commit] answers success but leaves the chain as it is.
    Nothing is sent on the commit channel. *)
Theorem verified_commit_extends (p : Proposal.t) (seals : list Signature) (b : B) (bs : list Block.t) :
  let blk := Proposal.block p in
  chain_holds b bs → bs ≠ [] → linked bs → Z.of_nat (length bs) + 1 < u64_bound →
  Chain.sync_limiter (ImplBackend.chain b) ≤ Clk.instant (Chain.clk (ImplBackend.chain b)) →
  is_u64 (Block.height blk) → Header_coherent (Block.header blk) →
  ImplBackend.proposed_block_hash b ≠ Block.hash blk →
  ∀ d b1, ImplBackend.verify p b = Ret ((d, Ok tt), b1) →
  (Block.height blk = Z.of_nat (length bs) → Block.hash blk ∉ Block.hash <$> bs →
    if timestamp_in_range (as_i64 (Header.time (Block.header blk))) then
      ∃ p' b2, ImplBackend.commit p seals b1 = Ret ((p', Ok tt), b2) ∧
        chain_holds b2 (bs ++ [sealed_block p seals]) ∧ linked (bs ++ [sealed_block p seals]) ∧
        Block.hash (sealed_block p seals) = Block.hash blk ∧
        Block.transactions (sealed_block p seals) = Block.transactions blk ∧
        ImplBackend.commit_chan b2 = ImplBackend.commit_chan b
    else ImplBackend.commit p seals b1 = Panic) ∧
  (Block.height blk ≠ Z.of_nat (length bs) →
    Block.height blk < Z.of_nat (length bs) ∧
    ∃ p' b2, ImplBackend.commit p seals b1 = Ret ((p', Ok tt), b2) ∧ chain_holds b2 bs ∧
      Chain.events (ImplBackend.chain b2) = Chain.events (ImplBackend.chain b) ∧
      ImplBackend.commit_chan b2 = ImplBackend.commit_chan b).
Proof using All.
  intros blk Hr Hne Hl Hlt Hlim Hu Hco Hprop d b1 Ev.
  destruct (verified_shape p b bs d b1 Hr Hu Ev) as (Hr1 & (l & _ & ->) & Htx & Hext & Hle). fold blk in Htx, Hext, Hle.
  split.
  - intros Hh Hf. assert (storable bs (sealed_block p seals)) as Hst.
    { split; [done|change (Block.height blk + 1 < u64_bound); lia|done|exact Hco|].
      eapply Forall_impl; [exact Htx|]. intros tx. apply tx_complete_hash. }
    destruct (timestamp_in_range _) eqn:Et.
    + edestruct (wp_total _ _ _ (commit_spec p seals _ bs Hr1 Hne ltac:(lia) Hlim
        ltac:(by apply appendable_storable) Hprop)) as ([p' r] & b2 & E & Er & Hr2 & Hc & _). simpl in Er. subst r.
      exists p', b2. split_and!; [done|done| |done|done|by rewrite Hc].
      destruct Hext as (_ & parent & Epar & Eprev & _). fold (Block.height blk) in Epar. rewrite Hh in Epar.
      apply linked_snoc; [done|]. intros x Hx. rewrite last_lookup in Hx.
      replace (Z.to_nat (Z.of_nat (length bs) - 1)) with (pred (length bs)) in Epar by lia.
      simplify_eq. exact Eprev.
    + rewrite commit_inserts by done. rewrite (insert_block_panics tx_hash_inj _ bs); try done; [lia|]. by right.
  - intros Hh. split; [lia|]. rewrite commit_inserts by done. cbn [ImplBackend.chain ImplBackend.set_chain].
    destruct (wp_total _ _ _ (insert_block_spec tx_hash_inj (Chain.set_ledger l (ImplBackend.chain b)) bs
      (sealed_block p seals) Hr1 Hne ltac:(lia) Hlim Hu ltac:(done))) as (r & c' & -> & Hc).
    destruct (Z.ltb_spec (Block.height (sealed_block p seals)) (Z.of_nat (length bs))) as [|Hge].
    2: { change (Z.of_nat (length bs) ≤ Block.height blk) in Hge. lia. }
    destruct Hc as (_ & Hr' & He). eexists _, _. split; [done|]. by split_and!.
Qed.
End backend_props.
