(* ===== verification/Core.v ===== *)
(** * The PBFT core ([src/consensus/pbft/core/])

    The actor [Core]: its state, the handlers of the four protocol messages
    ([preprepare.rs], [prepare.rs], [commit.rs], [round_change.rs]), of new
    headers and requests ([request.rs], [new_header.rs]), of timers, the
    backlog and the round logic of [core.rs].  The handlers are written
    against the class [Backend].  [Timer] ([timer.rs]) and [BackLogActor]
    ([back_log.rs]) are the two actors it talks to. *)

From S2P Require Import Prelude External Types Validators Protocol Wire RoundState Backend.

(** ** Timers *)

(** [addr] identifies the timer's actor; the interval is in milliseconds. *)
Module Timer.
Record t : Type := mk {
  addr : nat; name : string; interval : Z; pid : bool; msg : option GossipMessage.t }.
Inductive Op : Type := Stop | Interval.
(** What a timer sends to the core. *)
Inductive Post : Type := PostBackLog (msg : GossipMessage.t) | PostTimer | PostNothing | CtxStop.

Definition new (addr : nat) (name : string) (interval : Z) (msg : option GossipMessage.t) : t :=
  mk addr name interval true msg.
Definition new_tmp (addr : nat) (name : string) (interval : Z) : t :=
  mk addr name interval false None.
Definition handle (op : Op) (tm : t) : Post :=
  match op with
  | Stop => CtxStop
  | Interval =>
      if pid tm then
        match msg tm with
        | Some m => PostBackLog m
        | None => if bool_decide (name tm = "future"%string) then PostNothing else PostTimer
        end
      else PostNothing
  end.
End Timer.

(** The core's effects on the rest of the program, in order: messages given
    to [Backend::gossip] and proposals given to [Backend::commit] (recorded
    beside the call), messages put into the backlog, timers started and
    stopped. *)
Inductive Effect : Type :=
| FxGossip (m : GossipMessage.t)
| FxCommit (p : Proposal.t) (seals : list Signature)
| FxBacklog (m : GossipMessage.t)
| FxTimerStop (addr : nat)
| FxTimerStart (tm : Timer.t).

(** The text [Display] gives an engine error, without its arguments. *)
Definition EngineError_display (e : EngineError) : string :=
  match e with
  | EngineNotStarted => "engine is not started"
  | InvalidProposal => "Invalid proposal"
  | InvalidSignature => "Invalid signature"
  | InvalidHeight => "Invalid height"
  | InvalidTimestamp => "Invalid timestamp"
  | InvalidTransactionHash _ _ => "Invalid transaction hash"
  | Unauthorized => "Unauthorized"
  | LackVotes _ _ => "Lack votes"
  | FutureBlock => "Block in the future"
  | InvalidBlock => "Invalid block number"
  | UnknownAncestor _ _ => "Unknown ancestor"
  | Interrupt => "Consensus interrupt"
  | EngineUnknown why => why
  end.

Module Core.
Section core.
Context {B : Type} `{Backend B} `{CryptoKit, Codec, HashMapOrder, BigInt}.

(** [clk] is what the clocks show to the event being handled, [next_addr]
    the address the next spawned actor gets, [stopped] whether the context
    was stopped. *)
Record t : Type := mk {
  config : Config.t;
  address : Address;
  keypair : Secret;
  state : State;
  validators : ImplValidatorSet.t;
  current_state : RoundState.t;
  round_change_set : RoundChangeSet.t;
  wait_round_change : bool;
  future_prepprepare_timer : Timer.t;
  round_change_timer : Timer.t;
  consensus_timestamp : Z;
  backend : B;
  round_change_limiter : Z;
  clk : Clk.t;
  next_addr : nat;
  fx : list Effect;
  stopped : bool }.

Definition with_state (x : State) (c : t) : t :=
  mk (config c) (address c) (keypair c) x (validators c) (current_state c) (round_change_set c)
    (wait_round_change c) (future_prepprepare_timer c) (round_change_timer c)
    (consensus_timestamp c) (backend c) (round_change_limiter c) (clk c) (next_addr c) (fx c)
    (stopped c).
Definition with_validators (x : ImplValidatorSet.t) (c : t) : t :=
  mk (config c) (address c) (keypair c) (state c) x (current_state c) (round_change_set c)
    (wait_round_change c) (future_prepprepare_timer c) (round_change_timer c)
    (consensus_timestamp c) (backend c) (round_change_limiter c) (clk c) (next_addr c) (fx c)
    (stopped c).
Definition with_current_state (x : RoundState.t) (c : t) : t :=
  mk (config c) (address c) (keypair c) (state c) (validators c) x (round_change_set c)
    (wait_round_change c) (future_prepprepare_timer c) (round_change_timer c)
    (consensus_timestamp c) (backend c) (round_change_limiter c) (clk c) (next_addr c) (fx c)
    (stopped c).
Definition with_round_change_set (x : RoundChangeSet.t) (c : t) : t :=
  mk (config c) (address c) (keypair c) (state c) (validators c) (current_state c) x
    (wait_round_change c) (future_prepprepare_timer c) (round_change_timer c)
    (consensus_timestamp c) (backend c) (round_change_limiter c) (clk c) (next_addr c) (fx c)
    (stopped c).
Definition with_wait_round_change (x : bool) (c : t) : t :=
  mk (config c) (address c) (keypair c) (state c) (validators c) (current_state c)
    (round_change_set c) x (future_prepprepare_timer c) (round_change_timer c)
    (consensus_timestamp c) (backend c) (round_change_limiter c) (clk c) (next_addr c) (fx c)
    (stopped c).
Definition with_future_prepprepare_timer (x : Timer.t) (c : t) : t :=
  mk (config c) (address c) (keypair c) (state c) (validators c) (current_state c)
    (round_change_set c) (wait_round_change c) x (round_change_timer c) (consensus_timestamp c)
    (backend c) (round_change_limiter c) (clk c) (next_addr c) (fx c) (stopped c).
Definition with_round_change_timer (x : Timer.t) (c : t) : t :=
  mk (config c) (address c) (keypair c) (state c) (validators c) (current_state c)
    (round_change_set c) (wait_round_change c) (future_prepprepare_timer c) x
    (consensus_timestamp c) (backend c) (round_change_limiter c) (clk c) (next_addr c) (fx c)
    (stopped c).
Definition with_consensus_timestamp (x : Z) (c : t) : t :=
  mk (config c) (address c) (keypair c) (state c) (validators c) (current_state c)
    (round_change_set c) (wait_round_change c) (future_prepprepare_timer c)
    (round_change_timer c) x (backend c) (round_change_limiter c) (clk c) (next_addr c) (fx c)
    (stopped c).
Definition with_backend (x : B) (c : t) : t :=
  mk (config c) (address c) (keypair c) (state c) (validators c) (current_state c)
    (round_change_set c) (wait_round_change c) (future_prepprepare_timer c)
    (round_change_timer c) (consensus_timestamp c) x (round_change_limiter c) (clk c)
    (next_addr c) (fx c) (stopped c).
Definition with_round_change_limiter (x : Z) (c : t) : t :=
  mk (config c) (address c) (keypair c) (state c) (validators c) (current_state c)
    (round_change_set c) (wait_round_change c) (future_prepprepare_timer c)
    (round_change_timer c) (consensus_timestamp c) (backend c) x (clk c) (next_addr c) (fx c)
    (stopped c).
Definition with_clk (x : Clk.t) (c : t) : t :=
  mk (config c) (address c) (keypair c) (state c) (validators c) (current_state c)
    (round_change_set c) (wait_round_change c) (future_prepprepare_timer c)
    (round_change_timer c) (consensus_timestamp c) (backend c) (round_change_limiter c) x
    (next_addr c) (fx c) (stopped c).
Definition with_next_addr (x : nat) (c : t) : t :=
  mk (config c) (address c) (keypair c) (state c) (validators c) (current_state c)
    (round_change_set c) (wait_round_change c) (future_prepprepare_timer c)
    (round_change_timer c) (consensus_timestamp c) (backend c) (round_change_limiter c) (clk c)
    x (fx c) (stopped c).
Definition with_fx (x : list Effect) (c : t) : t :=
  mk (config c) (address c) (keypair c) (state c) (validators c) (current_state c)
    (round_change_set c) (wait_round_change c) (future_prepprepare_timer c)
    (round_change_timer c) (consensus_timestamp c) (backend c) (round_change_limiter c) (clk c)
    (next_addr c) x (stopped c).
Definition with_stopped (x : bool) (c : t) : t :=
  mk (config c) (address c) (keypair c) (state c) (validators c) (current_state c)
    (round_change_set c) (wait_round_change c) (future_prepprepare_timer c)
    (round_change_timer c) (consensus_timestamp c) (backend c) (round_change_limiter c) (clk c)
    (next_addr c) (fx c) x.

Abbreviation CM := (M t).

Definition emit (e : Effect) : CM unit := modify (λ c, with_fx (fx c ++ [e]) c).
Definition set_state (s : State) : CM unit := modify (with_state s).
Definition upd_current (f : RoundState.t → RoundState.t) : CM unit :=
  modify (λ c, with_current_state (f (current_state c)) c).
Definition on_backend {A : Type} (m : M B A) : CM A :=
  λ c, match m (backend c) with Ret (a, b) => Ret (a, with_backend b c) | Panic => Panic end.

Definition current_view (c : t) : View.t :=
  View.new (RoundState.height (current_state c)) (RoundState.round (current_state c)).
Definition is_proposer (c : t) : bool :=
  ImplValidatorSet.is_proposer (be_address (backend c)) (validators c).
Definition val_set (c : t) : ImplValidatorSet.t := validators c.

(** *** Timers of the core *)

Definition fresh_addr : CM nat :=
  n ← gets next_addr; modify (with_next_addr (S n));; mret n.
Definition stop_future_preprepare_timer : CM unit :=
  tm ← gets future_prepprepare_timer; emit (FxTimerStop (Timer.addr tm)).
Definition stop_round_change_timer : CM unit :=
  tm ← gets round_change_timer; emit (FxTimerStop (Timer.addr tm)).
Definition stop_timer : CM unit := stop_future_preprepare_timer;; stop_round_change_timer.
Definition new_round_change_timer : CM unit :=
  tm ← gets round_change_timer;
  emit (FxTimerStop (Timer.addr tm));;
  a ← fresh_addr;
  let tm' := Timer.new a "round change" (3 * 1000) None in
  emit (FxTimerStart tm');;
  modify (with_round_change_timer tm').
Definition new_round_future_preprepare_timer (duration : Z) (msg : GossipMessage.t) : CM unit :=
  stop_future_preprepare_timer;;
  a ← fresh_addr;
  let tm' := Timer.new a "future preprepare" duration (Some msg) in
  emit (FxTimerStart tm');;
  modify (with_future_prepprepare_timer tm').

(** *** Sending *)

Definition finalize_message (msg : GossipMessage.t) (c : t) : outcome GossipMessage.t :=
  GossipMessage.set_sign (keypair c) (GossipMessage.set_address (address c) msg).
Definition broadcast (msg : GossipMessage.t) : CM unit :=
  c ← gets (λ c, c);
  copy_msg ← lift (finalize_message msg c);
  emit (FxGossip copy_msg);;
  _ ← on_backend (be_gossip (validators c) copy_msg);
  mret tt.

Definition send_preprepare (request : Request.t) : CM unit :=
  c ← gets (λ c, c);
  when ((RoundState.height (current_state c) =?
         Block.height (Proposal.block (Request.proposal request))) && is_proposer c)
    (let preprepre := PrePrepare.new (current_view c) (Request.proposal request) in
     broadcast (GossipMessage.new Preprepare (into_bytes preprepre) None)).

Definition send_prepare : CM unit :=
  o ← gets (λ c, RoundState.subject (current_state c));
  subject ← lift (unwrap o);
  broadcast (GossipMessage.new Prepare (into_bytes subject) None).

Definition broadcast_commit (subject : Subject.t) (_digest : Hash) : CM unit :=
  kp ← gets keypair;
  commit_seal ← lift (encrypt_commit_bytes (Subject.digest subject) kp);
  broadcast (GossipMessage.new Commit (into_bytes subject) (Some commit_seal)).
Definition send_commit : CM unit :=
  st ← gets current_state;
  proposal ← lift (unwrap (RoundState.proposal st));
  subject ← lift (unwrap (RoundState.subject st));
  broadcast_commit subject (Block.hash (Proposal.block proposal)).
Definition send_commit_for_old_block (view : View.t) (digest : Hash) : CM unit :=
  broadcast_commit (Subject.mk view digest) digest.

(** *** Rounds *)

Definition catchup_round (_round : Round) : CM unit :=
  modify (with_wait_round_change true);; new_round_change_timer.

(** At most one vote every 50 ms; [duration_since] panics when the limiter
    is in the future. *)
Definition send_round_change (round : Round) : CM unit :=
  c ← gets (λ c, c);
  rassert (round_change_limiter c <=? Clk.instant (clk c));;
  if Clk.instant (clk c) - round_change_limiter c <=? 50 * 1000000 then new_round_change_timer
  else
    modify (with_round_change_limiter (Clk.instant' (clk c)));;
    when (RoundState.round (current_state c) <? round) (catchup_round round);;
    view ← gets current_view;
    let subject := Subject.mk (View.new (View.height view) round) EMPTY_HASH in
    let msg := GossipMessage.set_create_time (Clk.wall_millis (clk c) mod u64_bound)
      (GossipMessage.new RoundChange (into_bytes subject) None) in
    broadcast msg.

Definition send_next_round_change : CM unit :=
  c ← gets (λ c, c);
  let round := RoundChangeSet.max_round (round_change_set c) in
  let current := RoundState.round (current_state c) in
  if round <=? current then
    next ← lift (u64_add current 1); send_round_change next
  else send_round_change round.

Definition update_round_state (view : View.t) (vals : ImplValidatorSet.t) (round_change : bool) :
    CM unit :=
  upd_current (λ st,
    if round_change then
      if RoundState.is_locked st then
        RoundState.new_round_state view vals (RoundState.get_lock_hash st)
          (RoundState.preprepare st) (RoundState.pending_request st)
      else
        RoundState.new_round_state view vals None None (RoundState.pending_request st)
    else RoundState.new_round_state view vals None None None).

(** [self.backend.last_proposal().unwrap()] *)
Definition last_proposal : CM Proposal.t :=
  r ← on_backend be_last_proposal;
  match r with Ok p => mret p | Err _ => panic end.

Definition start_new_zero_round : CM unit :=
  p ← last_proposal;
  let last_height := Block.height (Proposal.block p) in
  next ← lift (u64_add last_height 1);
  let new_view := View.new next 0 in
  vals ← gets (λ c, be_validators next (backend c));
  modify (with_validators vals);;
  modify (with_round_change_set (RoundChangeSet.new vals None));;
  rassert (negb (ImplValidatorSet.size vals =? 0)%nat);;
  update_round_state new_view vals false;;
  vals' ← lift (ImplValidatorSet.calc_proposer (Block.hash (Proposal.block p)) last_height
                  (View.round new_view) vals);
  modify (with_validators vals');;
  modify (with_wait_round_change false);;
  set_state AcceptRequest;;
  new_round_change_timer.

(** The new proposer proposes again: the locked proposal, or its pending
    request. *)
Definition propose_new_round : CM unit :=
  c ← gets (λ c, c);
  when (ImplValidatorSet.is_proposer (address c) (validators c))
    (if RoundState.is_locked (current_state c) then
       p ← lift (unwrap (RoundState.proposal (current_state c)));
       send_preprepare (Request.new p)
     else
       r ← lift (unwrap (RoundState.pending_request (current_state c)));
       send_preprepare (Request.new (Request.proposal r))).

Definition start_new_round (round : Round) (_pre_change_prove : bytes) : CM unit :=
  rassert (negb (round =? 0));;
  cur ← gets current_state;
  rassert (RoundState.round cur <? round);;
  p ← last_proposal;
  let last_height := Block.height (Proposal.block p) in
  next ← lift (u64_add last_height 1);
  rassert (negb (next <? RoundState.height cur));;
  if RoundState.height cur <? last_height then mret tt
  else
    vals ← gets validators;
    rassert (negb (ImplValidatorSet.size vals =? 0)%nat);;
    let new_view := View.new (RoundState.height cur) round in
    modify (with_round_change_set (RoundChangeSet.new vals None));;
    update_round_state new_view vals true;;
    vals' ← lift (ImplValidatorSet.calc_proposer (Block.hash (Proposal.block p)) last_height
                    (View.round new_view) vals);
    modify (with_validators vals');;
    modify (with_wait_round_change false);;
    set_state AcceptRequest;;
    propose_new_round;;
    new_round_change_timer.

(** *** Commit *)

(** The signatures of the commit messages; [unwrap] on an unsigned one. *)
Fixpoint collect_seals (msgs : list GossipMessage.t) : outcome (list Signature) :=
  match msgs with
  | [] => mret []
  | m :: rest =>
      s ← unwrap (GossipMessage.signature m);
      ss ← collect_seals rest;
      mret (s :: ss)
  end.
Definition commit : CM unit :=
  set_state Committed;;
  c ← gets (λ c, c);
  committed_seals ← lift (collect_seals (MessageManage.values (RoundState.commits (current_state c))));
  rassert (ImplValidatorSet.two_thirds_majority (validators c) + 1 <=? length committed_seals)%nat;;
  proposal ← lift (unwrap (RoundState.proposal (current_state c)));
  emit (FxCommit proposal committed_seals);;
  _ ← on_backend (be_commit proposal committed_seals);
  mret tt.

(** *** Checks *)

Definition check_message (code : MessageType) (view : View.t) (c : t) : result unit ConsensusError :=
  let h := RoundState.height (current_state c) in
  if View.height view =? 0 then Err (Unknown "invalid view, height should be zero")
  else if bool_decide (code = RoundChange) then
    if h <? View.height view then Err (FutureBlockMessage (View.height view))
    else if View.height view <? h then Err OldMessage
    else Ok tt
  else if h <? View.height view then Err (FutureBlockMessage (View.height view))
  else if View.height view <? h then Err OldMessage
  else if bool_decide (state c = AcceptRequest) then
    if MessageType_lt Preprepare code then Err FutureMessage else Ok tt
  else Ok tt.

(** *** [HandlePreprepare] *)

Definition preprepare_accetp (preprepare : PrePrepare.t) : CM unit :=
  let header := Block.header (Proposal.block (PrePrepare.proposal preprepare)) in
  modify (with_consensus_timestamp (Header.time header));;
  upd_current (RoundState.set_preprepare preprepare).

(** An old proposal of a block that is on the chain is answered with a
    commit, in case its sender is behind. *)
Definition preprepare_old_message (preprepare : PrePrepare.t) (src : Validator.t) : CM ConsensusResult :=
  let block := Proposal.block (PrePrepare.proposal preprepare) in
  o ← on_backend (be_get_header_by_height (Block.height block));
  match o with
  | None => mret (Err (Engine InvalidProposal))
  | Some pre_header =>
      if bool_decide (Header.block_hash pre_header ≠ Block.hash block) then
        mret (Err (Engine InvalidProposal))
      else
        pre_height ← lift (u64_sub (Block.height block) 1);
        val_set ← gets (λ c, be_validators pre_height (backend c));
        _ ← on_backend (be_get_proposer pre_height);
        val_set ← lift (ImplValidatorSet.calc_proposer (Header.prev_hash (Block.header block))
                          pre_height (View.round (PrePrepare.view preprepare)) val_set);
        (if ImplValidatorSet.is_proposer (Validator.address src) val_set then
           on_backend (be_has_proposal (Block.hash block) (Block.height block)) ≫= λ has : bool,
           when has (send_commit_for_old_block (PrePrepare.view preprepare) (Block.hash block))
         else mret tt);;
        mret (Ok tt)
  end.

(** The proposal is valid: accept it unless locked on another one. *)
Definition preprepare_on_valid (preprepare : PrePrepare.t) : CM unit :=
  c ← gets (λ c, c);
  when (bool_decide (state c = AcceptRequest))
    (match RoundState.get_lock_hash (current_state c) with
     | Some locked =>
         if bool_decide (Block.hash (Proposal.block (PrePrepare.proposal preprepare)) = locked) then
           preprepare_accetp preprepare;; set_state Prepared;; send_commit
         else send_next_round_change
     | None => preprepare_accetp preprepare;; set_state PrePrepared;; send_prepare
     end).

Definition preprepare_handle (msg : GossipMessage.t) (src : Validator.t) : CM ConsensusResult :=
  preprepare ← lift (unwrap (from_bytes (GossipMessage.msg msg)));
  c ← gets (λ c, c);
  _ ←? (match check_message Preprepare (PrePrepare.view preprepare) c with
        | Ok _ => mret (Ok tt)
        | Err OldMessage => preprepare_old_message preprepare src
        | Err (FutureBlockMessage _) => mret (Ok tt)
        | Err e => mret (Err e)
        end);
  vals ← gets validators;
  if negb (ImplValidatorSet.is_proposer (Validator.address src) vals) then mret (Err NotFromProposer)
  else
    dr ← on_backend (be_verify (PrePrepare.proposal preprepare));
    match dr with
    | (d, Err FutureBlock) =>
        new_round_future_preprepare_timer d msg;;
        mret (Err (FutureBlockMessage (Block.height (Proposal.block (PrePrepare.proposal preprepare)))))
    | (_, Err err) =>
        send_next_round_change;;
        mret (Err (Unknown (EngineError_display err)))
    | (_, Ok _) => preprepare_on_valid preprepare;; mret (Ok tt)
    end.

(** *** [HandlePrepare] *)

Definition verify_prepare (subject : Subject.t) (_src : Validator.t) (c : t) : ConsensusResult :=
  if negb (View.eq (current_view c) (Subject.view subject)) then Err InconsistentSubject else Ok tt.

Definition prepare_accept (msg : GossipMessage.t) (_src : Validator.t) : CM ConsensusResult :=
  st ← gets current_state;
  match MessageManage.add msg (RoundState.prepares st) with
  | (Ok _, mm) => upd_current (RoundState.set_prepares mm);; mret (Ok tt)
  | (Err e, mm) => upd_current (RoundState.set_prepares mm);; mret (Err (Unknown e))
  end.

(** Lock, enter [Prepared] and vote commit. *)
Definition enter_prepared : CM unit :=
  upd_current RoundState.lock_hash;; set_state Prepared;; send_commit.

Definition prepare_handle (msg : GossipMessage.t) (src : Validator.t) : CM ConsensusResult :=
  subject ← lift (unwrap (from_bytes (GossipMessage.msg msg)));
  _ ←? gets (check_message Prepare (Subject.view subject));
  _ ←? gets (verify_prepare subject src);
  _ ←? prepare_accept msg src;
  lock ← gets (λ c, RoundState.get_lock_hash (current_state c));
  when (bool_decide (lock = Some (Subject.digest subject))) enter_prepared;;
  c ← gets (λ c, c);
  when (ImplValidatorSet.two_thirds_majority (validators c) <?
        RoundState.get_prepare_or_commit_size (current_state c))%nat enter_prepared;;
  mret (Ok tt).

(** *** [HandleCommit] *)

(** The boolean [verify_address] returns is dropped, and subjects that
    differ are only logged. *)
Definition verify_commit (commit_seal : option Signature) (commit_subject : Subject.t)
    (sender : Address) (_src : Validator.t) (c : t) : outcome ConsensusResult :=
  match commit_seal with
  | None => mret (Err (Unknown "commit seal is nil"))
  | Some seal =>
      match verify_address sender seal (Subject.digest commit_subject) with
      | None => mret (Err (Unknown "message's sender should be commit seal"))
      | Some _ =>
          _ ← unwrap (RoundState.subject (current_state c));
          mret (Ok tt)
      end
  end.

Definition commit_accept (msg : GossipMessage.t) (_src : Validator.t) : CM ConsensusResult :=
  st ← gets current_state;
  match MessageManage.add msg (RoundState.commits st) with
  | (Ok _, mm) => upd_current (RoundState.set_commits mm);; mret (Ok tt)
  | (Err e, mm) => upd_current (RoundState.set_commits mm);; mret (Err (Unknown e))
  end.

Definition commit_handle (msg : GossipMessage.t) (src : Validator.t) : CM ConsensusResult :=
  subject ← lift (unwrap (from_bytes (GossipMessage.msg msg)));
  _ ←? gets (check_message Commit (Subject.view subject));
  c ← gets (λ c, c);
  _ ←? lift (verify_commit (GossipMessage.commit_seal msg) subject (GossipMessage.address msg) src c);
  _ ←? commit_accept msg src;
  c ← gets (λ c, c);
  when ((ImplValidatorSet.two_thirds_majority (validators c) <?
         MessageManage.len (RoundState.commits (current_state c)))%nat &&
        State_lt (state c) Committed)
    (upd_current RoundState.lock_hash;; commit);;
  mret (Ok tt).

(** *** [HandleRoundChange] *)

Definition round_change_handle (msg : GossipMessage.t) (src : Validator.t) : CM ConsensusResult :=
  subject ← lift (unwrap (from_bytes (GossipMessage.msg msg)));
  _ ←? gets (check_message RoundChange (Subject.view subject));
  c ← gets (λ c, c);
  let current := RoundState.round (current_state c) in
  let round := View.round (Subject.view subject) in
  if (round <? current) && (0 <? round) then
    send_round_change round;; mret (Ok tt)
  else
    let '(r, rcs) := RoundChangeSet.add round msg (round_change_set c) in
    modify (with_round_change_set rcs);;
    match r with
    | Err e => mret (Err (Unknown e))
    | Ok n =>
        if (ImplValidatorSet.two_thirds_majority (validators c) + 1 <=? n)%nat && (current <? round) then
          send_round_change round;;
          start_new_round round [];;
          mret (Ok tt)
        else if wait_round_change c && (current <? round) then mret (Err FutureRoundMessage)
        else mret (Ok tt)
    end.

(** *** [HandlerRequest] *)

Definition check_request_message (request : Request.t) (c : t) : ConsensusResult :=
  let h := RoundState.height (current_state c) in
  let h' := Block.height (Proposal.block (Request.proposal request)) in
  if h =? 0 then Err WaitNewRound
  else if h' <? h then Err OldMessage
  else if h <? h' then Err FutureMessage
  else Ok tt.
Definition request_accept (request : Request.t) : CM unit :=
  upd_current (RoundState.set_pending_request (Some (Request.new (Request.proposal request)))).
Definition request_handle (request : Request.t) : CM ConsensusResult :=
  _ ←? gets (check_request_message request);
  s ← gets state;
  rassert (bool_decide (s = AcceptRequest));;
  request_accept request;;
  send_preprepare request;;
  mret (Ok tt).

(** *** Dispatch *)

Definition handle_check_message (msg : GossipMessage.t) (src : Validator.t) : CM ConsensusResult :=
  result ← (match GossipMessage.code msg with
            | Preprepare => preprepare_handle msg src
            | Prepare => prepare_handle msg src
            | Commit => commit_handle msg src
            | RoundChange => round_change_handle msg src
            end);
  when (match result with Err FutureMessage | Err FutureRoundMessage => true | _ => false end)
    (emit (FxBacklog msg));;
  mret result.

Definition handle_message (payload : bytes) : CM ConsensusResult :=
  vals ← gets validators;
  if (ImplValidatorSet.size vals =? 0)%nat then mret (Ok tt)
  else
    msg ← lift (unwrap (from_bytes payload));
    let '(r, msg) := GossipMessage.address_ msg in
    match r with
    | Err err => mret (Err (Unknown err))
    | Ok address =>
        match ImplValidatorSet.get_by_address address vals with
        | None => mret (Err UnauthorizedAddress)
        | Some _ => handle_check_message msg (Validator.new address)
        end
    end.

Definition handle_time_msg : CM unit :=
  r ← on_backend be_last_proposal;
  match r with
  | Ok p =>
      c ← gets (λ c, c);
      if RoundState.height (current_state c) <=? Block.height (Proposal.block p) then mret tt
      else send_next_round_change
  | Err _ => mret tt
  end.

(** *** The events of the actor *)

Definition started : CM unit := start_new_zero_round.

Definition handle_new_header (proposal : Proposal.t) : CM ConsensusResult :=
  start_new_zero_round;; request_handle (Request.new proposal).
(** The same as a trait method ([new_header.rs]), which nothing calls. *)
Definition new_header_handle (proposal : Proposal.t) (_src : Validator.t) : CM ConsensusResult :=
  start_new_zero_round;; request_handle (Request.new proposal).
Definition handle_final_committed : CM unit :=
  stop_timer;; modify (with_wait_round_change false).
Definition handle_message_event (payload : bytes) : CM ConsensusResult := handle_message payload.
Definition handle_back_log_event (msg : GossipMessage.t) : CM ConsensusResult :=
  handle_check_message msg (Validator.new (GossipMessage.address msg)).
Definition handle_timer_event : CM unit :=
  p ← last_proposal;
  c ← gets (λ c, c);
  if RoundState.height (current_state c) <=? Block.height (Proposal.block p) then
    stop_timer;; modify (with_wait_round_change false)
  else send_next_round_change.

Inductive OpCMD : Type := OpStop | OpPing.
Definition handle_op (msg : OpCMD) : CM unit :=
  match msg with
  | OpStop => stop_timer;; modify (with_stopped true)
  | OpPing => mret tt
  end.

(** [Core::new]: the state the actor is created with, from the last block of
    the chain, its validators and the configuration; two timers are created
    with it. *)
Definition new (last_block : Block.t) (vals : list Validator.t) (cfg : Config.t)
    (core_backend : B) (key_pair : Secret) (clk : Clk.t) : t :=
  let validators := ImplValidatorSet.new (Validator.address <$> vals) fn_selector in
  let last_view := View.new (Block.height last_block) 0 in
  let future := Timer.new 0 "future" (Config.request_time cfg) None in
  let round_change := Timer.new 1 "round change" (Config.request_time cfg) None in
  mk cfg (secret_address key_pair) key_pair AcceptRequest validators
     (RoundState.new_round_state last_view validators (Some (Block.hash last_block)) None None)
     (RoundChangeSet.new validators None) false future round_change 0 core_backend
     (Clk.instant clk) clk 2 [FxTimerStart future; FxTimerStart round_change] false.
End core.
Arguments t : clear implicits.
End Core.

(** ** Events and steps of the actor *)

Inductive Event : Type :=
| EvNewHeader (p : Proposal.t)
| EvFinalCommitted
| EvMessage (payload : bytes)
| EvBackLog (m : GossipMessage.t)
| EvTimer
| EvOp (op : Core.OpCMD).

Section steps.
Context {B : Type} `{Backend B} `{CryptoKit, Codec, HashMapOrder, BigInt}.
Abbreviation CM := (M (Core.t B)).

Definition run_event (e : Event) : CM unit :=
  match e with
  | EvNewHeader p => _ ← Core.handle_new_header p; mret tt
  | EvFinalCommitted => Core.handle_final_committed
  | EvMessage payload => _ ← Core.handle_message_event payload; mret tt
  | EvBackLog m => _ ← Core.handle_back_log_event m; mret tt
  | EvTimer => Core.handle_timer_event
  | EvOp op => Core.handle_op op
  end.

(** Timer events come from timers the core has started. *)
Definition event_enabled (e : Event) (c : Core.t B) : Prop :=
  match e with
  | EvBackLog m => ∃ tm, FxTimerStart tm ∈ Core.fx c ∧
      Timer.handle Timer.Interval tm = Timer.PostBackLog m
  | EvTimer => ∃ tm, FxTimerStart tm ∈ Core.fx c ∧ Timer.handle Timer.Interval tm = Timer.PostTimer
  | _ => True
  end.

(** One event, or what happens between events: the clocks advance, and
    other threads change the chain behind the backend. *)
Inductive step : Core.t B → Core.t B → Prop :=
| step_event c e c' :
    event_enabled e c → run_event e c = Ret (tt, c') → step c c'
| step_env c b clk' :
    be_address b = be_address (Core.backend c) →
    (∀ h, be_validators h b = be_validators h (Core.backend c)) →
    step c (Core.with_clk clk' (Core.with_backend b c)).

(** The states the actor can be in: [started] runs before any event. *)
Inductive reachable (c0 : Core.t B) : Core.t B → Prop :=
| reachable_start c : Core.started c0 = Ret (tt, c) → reachable c0 c
| reachable_step c c' : reachable c0 c → step c c' → reachable c0 c'.
End steps.

(** ** The backlog actor ([back_log.rs]) *)

Module BackLogActor.
Section backlog.
Context {PQ : Type} `{PriorityQueue PQ GossipMessage.t Z} `{Codec}.

Record t : Type := mk { qp : gmap Address PQ }.
Definition new : t := mk ∅.

(** The view of a message: of its proposal or of its subject. *)
Definition message_view (m : GossipMessage.t) : outcome View.t :=
  match GossipMessage.code m with
  | Preprepare => p ← unwrap (from_bytes (GossipMessage.msg m)); mret (PrePrepare.view p)
  | _ => s ← unwrap (from_bytes (GossipMessage.msg m)); mret (Subject.view s)
  end.

(** The message is queued only when its sender has no queue yet
    ([entry(..).or_insert_with(..)]). *)
Definition handle (m : GossipMessage.t) : M t unit :=
  view ← lift (message_view m);
  weight ← lift (to_priority (GossipMessage.code m) view);
  modify (λ s, match qp s !! GossipMessage.address m with
               | Some _ => s
               | None => mk (<[GossipMessage.address m := pq_push m weight pq_new]> (qp s))
               end).

(** The periodic task decodes the queued messages and does nothing else. *)
Fixpoint decode_all (l : list GossipMessage.t) : outcome unit :=
  match l with
  | [] => mret tt
  | m :: rest => _ ← message_view m; decode_all rest
  end.
Definition process_back_log `{HashMapOrder} : M t unit :=
  s ← gets (λ s, s);
  lift (decode_all (concat ((λ p, (pq_iter p.2).*1) <$> hm_iter (qp s)))).
End backlog.
Arguments t : clear implicits.
End BackLogActor.
