(* ===== verification/CoreProps.v ===== *)
(** * Properties of the PBFT core

    The invariant of the core and that every event preserves it, the lock
    that keeps a validator from voting for two blocks at a height, and the
    quorums behind commits and round changes. *)

From S2P Require Import Prelude External Types Validators Protocol Wire RoundState Backend Core.

Section core_props.
Context {B : Type} `{BackendLaws B} `{CryptoKit} `{CodecLaws} `{HashMapOrderLaws} `{BigInt}.
Abbreviation CM := (M (Core.t B)).
Implicit Types c : Core.t B.

Abbreviation height c := (RoundState.height (Core.current_state c)).
Abbreviation round c := (RoundState.round (Core.current_state c)).
Abbreviation lock c := (RoundState.lock (Core.current_state c)).
Abbreviation preprepare c := (RoundState.preprepare (Core.current_state c)).
Abbreviation vals c := (ImplValidatorSet.validators (Core.validators c)).
Abbreviation proposal_hash p := (Block.hash (Proposal.block (PrePrepare.proposal p))).

(** ** The invariant *)

(** The backend is who it was. *)
Definition same_backend (b b' : B) : Prop :=
  be_address b' = be_address b ∧ ∀ h, be_validators h b' = be_validators h b.

#[export] Instance same_backend_preorder : PreOrder same_backend.
Proof.
  split; [by split|]. intros b1 b2 b3 [E1 E1'] [E2 E2']. split; [congruence|].
  intros h. by rewrite E2', E1'.
Qed.

(** A vote table of the current validators, all of whose entries are
    signed. *)
Record table_inv (vs : Validators) (mm : MsgTable) : Prop := {
  table_wf : manage_wf mm;
  table_vals : ImplValidatorSet.validators (MessageManage.val_set mm) = vs;
  table_signed : ∀ a m, MessageManage.messages mm !! a = Some m → is_Some (GossipMessage.signature m)
}.

Record core_inv (c : Core.t B) : Prop := {
  (** past [AcceptRequest] there is a proposal *)
  inv_proposal : Core.state c ≠ AcceptRequest → is_Some (preprepare c);
  (** the lock is the hash of the proposal *)
  inv_lock : ∀ h, lock c = Some h → ∃ p, preprepare c = Some p ∧ proposal_hash p = h;
  (** votes come from validators and are signed *)
  inv_prepares : table_inv (vals c) (RoundState.prepares (Core.current_state c));
  inv_commits : table_inv (vals c) (RoundState.commits (Core.current_state c));
  inv_rcs : rcs_wf (Core.round_change_set c);
  inv_rcs_vals : ImplValidatorSet.validators (RoundChangeSet.validator_set (Core.round_change_set c)) = vals c;
  (** timers carry signed messages *)
  inv_timers : ∀ tm m, FxTimerStart tm ∈ Core.fx c → Timer.msg tm = Some m →
    is_Some (GossipMessage.signature m)
}.

(** ** What a step may do *)

(** A commit vote is for an old block, or for the block the node is locked
    on; a block is committed on a quorum of votes, and it is that block. *)
Definition effect_ok c (e : Effect) : Prop :=
  match e with
  | FxGossip m => GossipMessage.code m = Commit →
      ∃ s, GossipMessage.msg m = into_bytes s ∧
        (View.height (Subject.view s) < height c ∨
         (View.height (Subject.view s) = height c ∧ lock c = Some (Subject.digest s)))
  | FxCommit p seals =>
      lock c = Some (Block.hash (Proposal.block p)) ∧
      ImplValidatorSet.has_two_thirds_majority (length seals) (Core.validators c) = true
  | FxTimerStart tm => ∀ m, Timer.msg tm = Some m → is_Some (GossipMessage.signature m)
  | _ => True
  end.

(** [R] relates the round before to the round after: equality, or [≤]. *)
Record step_ok (R : relation Z) (c c' : Core.t B) : Prop := {
  ok_height : height c' = height c;
  ok_round : R (round c) (round c');
  ok_vals : vals c' = vals c;
  ok_lock : ∀ h, lock c = Some h → lock c' = Some h;
  ok_self : Core.address c' = Core.address c ∧ Core.keypair c' = Core.keypair c;
  ok_backend : same_backend (Core.backend c) (Core.backend c');
  ok_fx : ∃ l, Core.fx c' = Core.fx c ++ l ∧ Forall (effect_ok c') l
}.

Lemma majority_vals n v v' :
  ImplValidatorSet.validators v' = ImplValidatorSet.validators v →
  ImplValidatorSet.has_two_thirds_majority n v' = ImplValidatorSet.has_two_thirds_majority n v.
Proof.
  intros E. unfold ImplValidatorSet.has_two_thirds_majority, ImplValidatorSet.two_thirds_majority.
  by rewrite E.
Qed.

(** ** Helpers that leave the protocol state alone *)

(** Everything the invariant speaks about but the effects is as it was. *)
Record framed (P : Effect → Prop) (c c' : Core.t B) : Prop := {
  fr_state : Core.state c' = Core.state c;
  fr_validators : Core.validators c' = Core.validators c;
  fr_current : Core.current_state c' = Core.current_state c;
  fr_rcs : Core.round_change_set c' = Core.round_change_set c;
  fr_self : Core.address c' = Core.address c ∧ Core.keypair c' = Core.keypair c;
  fr_backend : same_backend (Core.backend c) (Core.backend c');
  fr_fx : ∃ l, Core.fx c' = Core.fx c ++ l ∧ Forall P l
}.

#[export] Instance framed_preorder P : PreOrder (framed P).
Proof.
  split.
  - intros c. split; try done. exists []. by rewrite app_nil_r.
  - intros c1 c2 c3 [] []. split; try congruence.
    + destruct fr_self0, fr_self1. split; congruence.
    + by etrans.
    + destruct fr_fx0 as (l1 & E1 & F1), fr_fx1 as (l2 & E2 & F2).
      exists (l1 ++ l2). rewrite E2, E1, app_assoc. split; [done|]. by apply Forall_app.
Qed.

Lemma framed_weaken (P P' : Effect → Prop) c c' :
  (∀ e, P e → P' e) → framed P c c' → framed P' c c'.
Proof.
  intros HP [? ? ? ? ? ? (l & E & Hl)]. split; try done. exists l. split; [done|].
  eapply Forall_impl; [exact Hl|]. apply HP.
Qed.

Lemma framed_inv c c' : framed (effect_ok c') c c' → core_inv c → core_inv c'.
Proof.
  intros [? Ev Ec Er ? ? (l & E & Hl)] []. split; rewrite ?fr_state0, ?Ev, ?Ec, ?Er; try done.
  intros tm m. rewrite E, elem_of_app. intros [Hin|Hin] Hm; [by eauto|].
  rewrite Forall_forall in Hl. by apply (Hl _ Hin).
Qed.

Lemma effect_ok_current c c' e :
  Core.current_state c' = Core.current_state c → Core.validators c' = Core.validators c →
  effect_ok c e → effect_ok c' e.
Proof. intros E1 E2. unfold effect_ok. by rewrite E1, E2. Qed.

(** Effects that are legal in every state. *)
Definition harmless (e : Effect) : Prop :=
  match e with
  | FxGossip m => GossipMessage.code m ≠ Commit
  | FxCommit _ _ => False
  | FxTimerStart tm => Timer.msg tm = None
  | _ => True
  end.

Lemma harmless_ok c e : harmless e → effect_ok c e.
Proof. destruct e as [m| | | |tm]; simpl; try done. by intros -> m. Qed.

(** No decision, and no timer that will post a message other than [o]. *)
Definition quiet (o : option GossipMessage.t) (e : Effect) : Prop :=
  match e with
  | FxCommit _ _ => False
  | FxTimerStart tm => Timer.msg tm = None ∨ Timer.msg tm = o
  | _ => True
  end.

Lemma harmless_quiet o e : harmless e → quiet o e.
Proof. destruct e; simpl; auto. Qed.

(** *** Their specifications *)

Definition is_timer_fx (e : Effect) : Prop :=
  match e with
  | FxTimerStop _ => True
  | FxTimerStart tm => Timer.msg tm = None
  | _ => False
  end.

Lemma is_timer_harmless e : is_timer_fx e → harmless e.
Proof. by destruct e. Qed.

Lemma emit_framed (P : Effect → Prop) e c : P e → framed P c (Core.with_fx (Core.fx c ++ [e]) c).
Proof. intros He. split; try done. exists [e]. split; [done|by constructor]. Qed.

Lemma wp_on_backend {A} (m : M B A) (Q : A → Core.t B → Prop) c :
  be_stable m →
  (∀ a b, m (Core.backend c) = Ret (a, b) → same_backend (Core.backend c) b →
     Q a (Core.with_backend b c)) →
  wp True (Core.on_backend m) Q c.
Proof.
  intros Hm HQ. unfold wp, Core.on_backend. destruct (m (Core.backend c)) as [[a b]|] eqn:E; [|done].
  apply HQ; [done|]. exact (Hm _ _ _ E).
Qed.

Lemma with_backend_framed P b c : same_backend (Core.backend c) b → framed P c (Core.with_backend b c).
Proof. intros Hb. split; try done. exists []. by rewrite app_nil_r. Qed.

(** What [broadcast] hands to the backend: the message, signed by the node. *)
Definition gossips (m : GossipMessage.t) (e : Effect) : Prop :=
  ∃ m', e = FxGossip m' ∧ GossipMessage.code m' = GossipMessage.code m ∧
    GossipMessage.msg m' = GossipMessage.msg m.

Lemma broadcast_framed m c : wp True (Core.broadcast m) (λ _ c', framed (gossips m) c c') c.
Proof using All.
  unfold Core.broadcast. wp_step. apply wp_gets. wp_step. apply wp_lift; [|done].
  intros m' Em. wp_step. apply wp_modify. wp_step.
  apply wp_on_backend; [apply gossip_stable|]. intros r b _ Hb. wp_step.
  etrans; [apply (emit_framed _ (FxGossip m'))|by apply with_backend_framed].
  exists m'. split; [done|]. unfold Core.finalize_message in Em.
  apply set_sign_inv in Em as (sg & _ & ->). done.
Qed.

Lemma gossips_harmless m e : GossipMessage.code m ≠ Commit → gossips m e → harmless e.
Proof. intros Hc (m' & -> & E & _). simpl. congruence. Qed.

Lemma new_round_change_timer_framed c :
  wp True Core.new_round_change_timer (λ _ c', framed is_timer_fx c c') c.
Proof using All.
  unfold Core.new_round_change_timer, Core.fresh_addr. wp_steps. simpl.
  split; try done. eexists. simpl. rewrite <-app_assoc. split; [done|]. by repeat constructor.
Qed.

Lemma stop_timer_framed c : wp True Core.stop_timer (λ _ c', framed is_timer_fx c c') c.
Proof using All.
  unfold Core.stop_timer, Core.stop_future_preprepare_timer, Core.stop_round_change_timer, Core.emit.
  wp_steps. simpl. split; try done. eexists. simpl. rewrite <-app_assoc. split; [done|]. by repeat constructor.
Qed.

Lemma with_wait_framed P x c : framed P c (Core.with_wait_round_change x c).
Proof. split; try done. exists []. by rewrite app_nil_r. Qed.

Lemma with_limiter_framed P x c : framed P c (Core.with_round_change_limiter x c).
Proof. split; try done. exists []. by rewrite app_nil_r. Qed.

Lemma catchup_round_framed r c :
  wp True (Core.catchup_round r) (λ _ c', framed is_timer_fx c c') c.
Proof using All.
  unfold Core.catchup_round. wp_step. apply wp_modify.
  eapply wp_mono; [apply new_round_change_timer_framed|]. intros [] c' Hf. cbn beta.
  etrans; [apply with_wait_framed|exact Hf].
Qed.

Lemma send_round_change_framed r c :
  wp True (Core.send_round_change r) (λ _ c', framed harmless c c') c.
Proof using All.
  unfold Core.send_round_change. wp_step. apply wp_gets. wp_step. apply wp_rassert; [intros _|done].
  wp_step.
  { eapply wp_mono; [apply new_round_change_timer_framed|]. intros [] c' Hf.
    eapply framed_weaken; [apply is_timer_harmless|exact Hf]. }
  wp_step. apply wp_modify. wp_step.
  set (c1 := Core.with_round_change_limiter _ c).
  assert (framed harmless c c1) as H1' by apply with_limiter_framed.
  assert (∀ c2, framed harmless c c2 → wp True
    (view ← gets Core.current_view;
     Core.broadcast (GossipMessage.set_create_time (Clk.wall_millis (Core.clk c) mod u64_bound)
       (GossipMessage.new RoundChange
          (into_bytes (Subject.mk (View.new (View.height view) r) EMPTY_HASH)) None)))
    (λ _ c', framed harmless c c') c2) as Hrest.
  { intros c2 H2'. wp_step. apply wp_gets. eapply wp_mono; [apply broadcast_framed|].
    intros [] c3 H3'. etrans; [exact H2'|].
    eapply framed_weaken; [|exact H3']. intros e. by apply gossips_harmless. }
  apply wp_when; intros _; [|by apply Hrest].
  eapply wp_mono; [apply catchup_round_framed|]. intros [] c2 H2'. apply Hrest. etrans; [exact H1'|].
  eapply framed_weaken; [apply is_timer_harmless|exact H2'].
Qed.

Lemma send_next_round_change_framed c :
  wp True Core.send_next_round_change (λ _ c', framed harmless c c') c.
Proof using All.
  unfold Core.send_next_round_change. wp_step. apply wp_gets. cbv zeta. wp_step.
  - wp_step. apply wp_lift; [|done]. intros n _. apply send_round_change_framed.
  - apply send_round_change_framed.
Qed.

Lemma send_preprepare_framed r c :
  wp True (Core.send_preprepare r) (λ _ c', framed harmless c c') c.
Proof using All.
  unfold Core.send_preprepare. wp_step. apply wp_gets. apply wp_when; intros _; [|done].
  eapply wp_mono; [apply broadcast_framed|]. intros [] c' Hf.
  eapply framed_weaken; [|exact Hf]. intros e. by apply gossips_harmless.
Qed.

Lemma send_prepare_framed c : wp True Core.send_prepare (λ _ c', framed harmless c c') c.
Proof using All.
  unfold Core.send_prepare. wp_step. apply wp_gets. wp_step. apply wp_lift; [|done].
  intros s _. eapply wp_mono; [apply broadcast_framed|]. intros [] c' Hf.
  eapply framed_weaken; [|exact Hf]. intros e. by apply gossips_harmless.
Qed.

(** A commit vote. *)
Definition commit_vote (s : Subject.t) (e : Effect) : Prop :=
  ∃ m, e = FxGossip m ∧ GossipMessage.code m = Commit ∧ GossipMessage.msg m = into_bytes s.

Lemma broadcast_commit_framed s d c :
  wp True (Core.broadcast_commit s d) (λ _ c', framed (commit_vote s) c c') c.
Proof using All.
  unfold Core.broadcast_commit. wp_step. apply wp_gets. wp_step. apply wp_lift; [|done].
  intros seal _. eapply wp_mono; [apply broadcast_framed|]. intros [] c' Hf.
  eapply framed_weaken; [|exact Hf]. intros e (m' & -> & E1 & E2). by exists m'.
Qed.

Lemma send_commit_framed c :
  wp True Core.send_commit (λ _ c', ∃ p, preprepare c = Some p ∧
    framed (commit_vote (Subject.mk (View.mk (round c) (height c)) (proposal_hash p))) c c') c.
Proof using All.
  unfold Core.send_commit. wp_step. apply wp_gets. wp_step. apply wp_lift; [|done].
  intros p0 Ep. apply unwrap_Ret in Ep. wp_step. apply wp_lift; [|done]. intros s Es.
  apply unwrap_Ret in Es. unfold RoundState.subject in Es.
  destruct (preprepare c) as [p|]; [|done]. injection Es as <-.
  eapply wp_mono; [apply broadcast_commit_framed|]. eauto.
Qed.

(** ** Legal steps *)

Context (R : relation Z) {HR : PreOrder R}.

Lemma effect_ok_mono c c' e : step_ok R c c' → effect_ok c e → effect_ok c' e.
Proof.
  intros Hs. destruct e as [m|p seals| | |]; simpl; try done.
  - intros He Ec. destruct (He Ec) as (s & Es & Hv). exists s. split; [done|].
    rewrite (ok_height _ _ _ Hs). destruct Hv as [|[? ?]]; [by left|right].
    split; [done|]. by apply (ok_lock _ _ _ Hs).
  - intros [Hl Hq]. split; [by apply (ok_lock _ _ _ Hs)|]. by rewrite (majority_vals _ (Core.validators c)) by apply Hs.
Qed.

#[export] Instance step_ok_preorder : PreOrder (step_ok R).
Proof.
  split.
  - intros c. split; try done. exists []. by rewrite app_nil_r.
  - intros c1 c2 c3 S1 S2. split.
    + rewrite (ok_height _ _ _ S2). apply S1.
    + etrans; [apply S1|apply S2].
    + rewrite (ok_vals _ _ _ S2). apply S1.
    + intros h Hh. by apply S2, S1.
    + destruct (ok_self _ _ _ S1), (ok_self _ _ _ S2). split; congruence.
    + etrans; [apply S1|apply S2].
    + destruct (ok_fx _ _ _ S1) as (l1 & E1 & F1), (ok_fx _ _ _ S2) as (l2 & E2 & F2).
      exists (l1 ++ l2). rewrite E2, E1, app_assoc. split; [done|]. apply Forall_app. split; [|done].
      eapply Forall_impl; [exact F1|]. intros e. by apply effect_ok_mono.
Qed.

Lemma framed_step c c' : framed (effect_ok c') c c' → step_ok R c c'.
Proof. intros [? Ev Ec Er ? ? ?]. split; rewrite ?Ev, ?Ec; try done. Qed.

Lemma framed_safe c c' : framed (effect_ok c') c c' → core_inv c → core_inv c' ∧ step_ok R c c'.
Proof. intros Hf Hi. split; [by eapply framed_inv|by apply framed_step]. Qed.

Lemma framed_safe' c c' : framed (effect_ok c) c c' → core_inv c → core_inv c' ∧ step_ok R c c'.
Proof.
  intros Hf. apply framed_safe. eapply framed_weaken; [|exact Hf].
  intros e. apply effect_ok_current; apply Hf.
Qed.

Lemma framed_safe_and (P : Effect → Prop) c c' :
  framed (λ e, effect_ok c e ∧ P e) c c' → core_inv c → core_inv c' ∧ step_ok R c c'.
Proof. intros Hf. apply framed_safe'. eapply framed_weaken; [|exact Hf]. by intros e [? _]. Qed.

Lemma harmless_safe c c' : framed harmless c c' → core_inv c → core_inv c' ∧ step_ok R c c'.
Proof. intros Hf. apply framed_safe. eapply framed_weaken; [|exact Hf]. apply harmless_ok. Qed.

(** ** Changing the round state *)

Lemma inv_with_current c st :
  core_inv c →
  (Core.state c ≠ AcceptRequest → is_Some (RoundState.preprepare st)) →
  (∀ h, RoundState.lock st = Some h →
     ∃ p, RoundState.preprepare st = Some p ∧ proposal_hash p = h) →
  table_inv (vals c) (RoundState.prepares st) → table_inv (vals c) (RoundState.commits st) →
  core_inv (Core.with_current_state st c).
Proof. intros [] Hp Hl H1' H2'. by split. Qed.

Lemma step_with_current c st :
  RoundState.height st = height c → R (round c) (RoundState.round st) →
  (∀ h, lock c = Some h → RoundState.lock st = Some h) →
  step_ok R c (Core.with_current_state st c).
Proof. intros Hh Hr Hl. split; try done. exists []. by rewrite app_nil_r. Qed.

Lemma with_state_safe s c :
  core_inv c → is_Some (preprepare c) ∨ s = AcceptRequest →
  core_inv (Core.with_state s c) ∧ step_ok R c (Core.with_state s c).
Proof.
  intros [] Hs. split.
  - split; try done. simpl. intros Hne. by destruct Hs.
  - split; try done. exists []. by rewrite app_nil_r.
Qed.

Lemma lock_hash_safe c :
  core_inv c →
  let c' := Core.with_current_state (RoundState.lock_hash (Core.current_state c)) c in
  core_inv c' ∧ step_ok R c c' ∧ preprepare c' = preprepare c ∧
  ∀ p, preprepare c = Some p → lock c' = Some (proposal_hash p).
Proof.
  intros Hi. cbv zeta. unfold RoundState.lock_hash. destruct (preprepare c) as [p|] eqn:Ep.
  - split_and!.
    + apply inv_with_current; simpl; [done|by rewrite Ep|intros h [= <-]; eauto|apply Hi|apply Hi].
    + apply step_with_current; simpl; [done|done|]. intros h Hh.
      destruct (inv_lock _ Hi h Hh) as (p' & Ep' & <-). congruence.
    + done.
    + by intros p' [= <-].
  - replace (Core.with_current_state (Core.current_state c) c) with c by by destruct c.
    split_and!; [done|done|done|]. done.
Qed.

Lemma send_commit_safe c :
  core_inv c → (∀ p, preprepare c = Some p → lock c = Some (proposal_hash p)) →
  wp True Core.send_commit (λ _ c', core_inv c' ∧ step_ok R c c') c.
Proof using All.
  intros Hi Hl. eapply wp_mono; [apply send_commit_framed|]. intros [] c' (p & Ep & Hf).
  eapply framed_safe; [|done]. eapply framed_weaken; [|exact Hf].
  intros e (m & -> & Ec & Em) _. eexists. split; [exact Em|]. right. simpl.
  rewrite (fr_current _ _ _ Hf). split; [done|]. by apply Hl.
Qed.

Lemma enter_prepared_safe c :
  core_inv c → is_Some (preprepare c) →
  wp True Core.enter_prepared (λ _ c', core_inv c' ∧ step_ok R c c' ∧ Core.state c' = Prepared) c.
Proof using All.
  intros Hi [p Ep]. unfold Core.enter_prepared, Core.upd_current, Core.set_state.
  wp_step. apply wp_modify. destruct (lock_hash_safe c Hi) as (Hi1 & S1 & Ep1 & Hl1).
  set (c1 := Core.with_current_state _ c) in *.
  wp_step. apply wp_modify.
  destruct (with_state_safe Prepared c1 Hi1) as [Hi2 S2]; [left; rewrite Ep1; by eexists|].
  assert (∀ q, preprepare (Core.with_state Prepared c1) = Some q →
    lock (Core.with_state Prepared c1) = Some (proposal_hash q)) as Hl2.
  { intros q Eq. apply Hl1. rewrite <-Ep1. exact Eq. }
  pose proof (send_commit_framed (Core.with_state Prepared c1)) as Hfr.
  pose proof (send_commit_safe _ Hi2 Hl2) as Hsafe.
  unfold wp in *. destruct (Core.send_commit _) as [[[] c3]|]; [|done].
  destruct Hfr as (q & _ & Hf), Hsafe as [Hi3 S3]. split_and!; [done| |apply Hf].
  etrans; [exact S1|]. by etrans.
Qed.

(** ** Vote tables *)

Lemma table_inv_add vs m mm :
  table_inv vs mm → is_Some (GossipMessage.signature m) → table_inv vs (MessageManage.add m mm).2.
Proof.
  intros [Hw Hv Hs] Hm. split.
  - by apply manage_add_wf.
  - by rewrite manage_add_val_set.
  - intros a m'. destruct (manage_add_cases m mm) as [[Ha ->]|[Ha ->]]; simpl; [|apply Hs].
    rewrite lookup_insert_Some. intros [[_ <-]|[_ ?]]; [done|by eapply Hs].
Qed.

Lemma table_inv_new vs vw v :
  ImplValidatorSet.validators v = vs → table_inv vs (MessageManage.new vw v).
Proof. intros Hv. split; [apply manage_wf_new|done|]. intros a m. simpl. by rewrite lookup_empty. Qed.

Lemma prepare_accept_safe m src c :
  core_inv c → is_Some (GossipMessage.signature m) →
  wp True (Core.prepare_accept m src)
    (λ _ c', core_inv c' ∧ step_ok R c c' ∧ preprepare c' = preprepare c ∧ Core.state c' = Core.state c) c.
Proof.
  intros Hi Hm. unfold Core.prepare_accept, Core.upd_current. wp_step. apply wp_gets.
  pose proof (table_inv_add _ m _ (inv_prepares _ Hi) Hm) as Ht.
  destruct (MessageManage.add _ _) as [[[]|e] mm]; (wp_step; apply wp_modify; wp_step; simpl in Ht);
    (split_and!; [apply inv_with_current|apply step_with_current|done|done]); simpl; try done;
    try apply Hi; reflexivity.
Qed.

Lemma commit_accept_safe m src c :
  core_inv c → is_Some (GossipMessage.signature m) →
  wp True (Core.commit_accept m src)
    (λ _ c', core_inv c' ∧ step_ok R c c' ∧ preprepare c' = preprepare c ∧ Core.state c' = Core.state c) c.
Proof.
  intros Hi Hm. unfold Core.commit_accept, Core.upd_current. wp_step. apply wp_gets.
  pose proof (table_inv_add _ m _ (inv_commits _ Hi) Hm) as Ht.
  destruct (MessageManage.add _ _) as [[[]|e] mm]; (wp_step; apply wp_modify; wp_step; simpl in Ht);
    (split_and!; [apply inv_with_current|apply step_with_current|done|done]); simpl; try done;
    try apply Hi; reflexivity.
Qed.

(** ** Check of incoming messages *)

(** What [check_message] lets through. *)
Lemma check_message_Ok code vw c :
  Core.check_message code vw c = Ok tt →
  View.height vw ≠ 0 ∧ View.height vw = height c ∧
  (code = Prepare ∨ code = Commit → Core.state c ≠ AcceptRequest).
Proof.
  unfold Core.check_message.
  destruct (Z.eqb_spec (View.height vw) 0); [done|].
  case_bool_decide as Ec.
  - destruct (Z.ltb_spec (height c) (View.height vw)); [done|].
    destruct (Z.ltb_spec (View.height vw) (height c)); [done|]. intros _.
    split_and!; [done|lia|]. subst. by intros [|].
  - destruct (Z.ltb_spec (height c) (View.height vw)); [done|].
    destruct (Z.ltb_spec (View.height vw) (height c)); [done|].
    case_bool_decide as Ea.
    + destruct code; simpl; try done. intros _. split_and!; [done|lia|by intros [|]].
    + intros _. split_and!; [done|lia|done].
Qed.

(** ** Prepare votes *)

Lemma prepare_handle_safe m src c :
  core_inv c → is_Some (GossipMessage.signature m) →
  wp True (Core.prepare_handle m src) (λ _ c', core_inv c' ∧ step_ok R c c') c.
Proof using All.
  intros Hi Hm. unfold Core.prepare_handle. wp_step. apply wp_lift; [|done]. intros s _.
  wp_step. apply wp_gets. destruct (Core.check_message _ _ c) as [[]|e] eqn:Ec; [|done].
  apply check_message_Ok in Ec as (_ & _ & Hst).
  assert (is_Some (preprepare c)) as Hp by (apply Hi, Hst; by left).
  wp_step. apply wp_gets. destruct (Core.verify_prepare _ _ _) as [[]|e]; [|done].
  wp_step. eapply wp_mono; [by apply prepare_accept_safe|].
  intros [[]|e] c1 (Hi1 & S1 & Ep1 & Es1); [|done]. rewrite <-Ep1 in Hp.
  wp_step. apply wp_gets. wp_step.
  assert (∀ c2, core_inv c2 → step_ok R c c2 → is_Some (preprepare c2) →
    wp True (c0 ← gets (λ c, c);
       when (ImplValidatorSet.two_thirds_majority (Core.validators c0) <?
             RoundState.get_prepare_or_commit_size (Core.current_state c0))%nat Core.enter_prepared;;
       mret (Ok tt : ConsensusResult)) (λ _ c', core_inv c' ∧ step_ok R c c') c2) as Hrest.
  { intros c2 Hi2 S2 Hp2. wp_step. apply wp_gets. wp_step. apply wp_when; intros _; [|by wp_step].
    eapply wp_mono; [by apply enter_prepared_safe|]. intros [] c3 (Hi3 & S3 & _). wp_step.
    split; [done|by etrans]. }
  apply wp_when; intros _; [|by apply Hrest].
  eapply wp_mono; [by apply enter_prepared_safe|]. intros [] c2 (Hi2 & S2 & Es2). apply Hrest.
  - done.
  - by etrans.
  - apply Hi2. by rewrite Es2.
Qed.

(** ** Commit votes *)

Lemma commit_safe c :
  core_inv c → is_Some (preprepare c) →
  (∀ p, preprepare c = Some p → lock c = Some (proposal_hash p)) →
  wp True Core.commit (λ _ c', core_inv c' ∧ step_ok R c c') c.
Proof using All.
  intros Hi Hp Hl. unfold Core.commit, Core.set_state. wp_step. apply wp_modify.
  destruct (with_state_safe Committed c Hi) as [Hi1 S1]; [by left|].
  set (c1 := Core.with_state Committed c) in *.
  wp_step. apply wp_gets. wp_step. apply wp_lift; [|done]. intros seals _.
  wp_step. apply wp_rassert; [intros Hq|done]. wp_step. apply wp_lift; [|done].
  intros p Ep. apply unwrap_Ret in Ep. unfold RoundState.proposal in Ep.
  destruct (RoundState.preprepare (Core.current_state c1)) as [pp|] eqn:Epp; [|done]. injection Ep as <-.
  wp_step. apply wp_modify. wp_step. apply wp_on_backend; [apply commit_stable|].
  intros r b _ Hb. wp_step. cbv zeta.
  assert (framed (effect_ok c1) c1 (Core.with_backend b
    (Core.with_fx (Core.fx c1 ++ [FxCommit (PrePrepare.proposal pp) seals]) c1))) as Hf.
  { etrans; [apply emit_framed|by apply with_backend_framed]. simpl. split; [by apply Hl|exact Hq]. }
  destruct (framed_safe' _ _ Hf Hi1) as [Hi2 S2]. split; [done|by etrans].
Qed.

Lemma commit_handle_safe m src c :
  core_inv c → is_Some (GossipMessage.signature m) →
  wp True (Core.commit_handle m src) (λ _ c', core_inv c' ∧ step_ok R c c') c.
Proof using All.
  intros Hi Hm. unfold Core.commit_handle. wp_step. apply wp_lift; [|done]. intros s _.
  wp_step. apply wp_gets. destruct (Core.check_message _ _ c) as [[]|e] eqn:Ec; [|done].
  apply check_message_Ok in Ec as (_ & _ & Hst).
  assert (is_Some (preprepare c)) as Hp by (apply Hi, Hst; by right).
  wp_step. apply wp_gets. wp_step. apply wp_lift; [|done]. intros [[]|e] _; [|done].
  wp_step. eapply wp_mono; [by apply commit_accept_safe|].
  intros [[]|e] c1 (Hi1 & S1 & Ep1 & Es1); [|done]. rewrite <-Ep1 in Hp.
  wp_step. apply wp_gets. wp_step. apply wp_when; intros _; [|by wp_step].
  wp_step. apply wp_modify. destruct (lock_hash_safe c1 Hi1) as (Hi2 & S2 & Ep2 & Hl2).
  set (c2 := Core.with_current_state _ c1) in *.
  eapply wp_mono; [apply (commit_safe c2); [done|by rewrite Ep2|]|].
  { intros p Ep. apply Hl2. by rewrite <-Ep2. }
  intros [] c3 [Hi3 S3]. wp_step. split; [done|]. etrans; [exact S1|]. by etrans.
Qed.

(** ** Proposals *)

Lemma accetp_fields p c :
  wp True (Core.preprepare_accetp p) (λ _ c', c' =
    Core.with_current_state (RoundState.set_preprepare p (Core.current_state c))
      (Core.with_consensus_timestamp (Header.time (Block.header (Proposal.block (PrePrepare.proposal p)))) c)) c.
Proof. done. Qed.

Lemma with_consensus_timestamp_framed P x c : framed P c (Core.with_consensus_timestamp x c).
Proof. split; try done. exists []. by rewrite app_nil_r. Qed.

Lemma accetp_safe p c :
  core_inv c → (∀ h, lock c = Some h → proposal_hash p = h) →
  wp True (Core.preprepare_accetp p) (λ _ c', core_inv c' ∧ step_ok R c c' ∧
    preprepare c' = Some p ∧ lock c' = lock c) c.
Proof.
  intros Hi Hl. eapply wp_mono; [apply accetp_fields|]. intros [] c' ->.
  destruct (harmless_safe c _ (with_consensus_timestamp_framed _
    (Header.time (Block.header (Proposal.block (PrePrepare.proposal p)))) c) Hi) as [Hi1 S1].
  split_and!; [| |done|done].
  - apply inv_with_current; simpl; [done|by eexists| |apply Hi|apply Hi].
    intros h Hh. exists p. split; [done|]. by apply Hl.
  - etrans; [exact S1|]. by apply step_with_current.
Qed.

Lemma on_valid_safe p c :
  core_inv c → wp True (Core.preprepare_on_valid p) (λ _ c', core_inv c' ∧ step_ok R c c') c.
Proof using All.
  intros Hi. unfold Core.preprepare_on_valid. wp_step. apply wp_gets.
  apply wp_when; intros Hs; [|done]. clear Hs. unfold RoundState.get_lock_hash.
  destruct (lock c) as [h|] eqn:El.
  - case_bool_decide as Eh.
    + wp_step. eapply wp_mono; [apply accetp_safe; [done|]|].
      { intros h' Eh'. rewrite El in Eh'. congruence. }
      intros [] c1 (Hi1 & S1 & Ep1 & El1). wp_step. apply wp_modify.
      destruct (with_state_safe Prepared c1 Hi1) as [Hi2 S2]; [left; by rewrite Ep1|].
      eapply wp_mono; [apply send_commit_safe; [done|]|].
      { intros q Eq. simpl in *. rewrite Ep1 in Eq. injection Eq as <-. by rewrite El1, El, Eh. }
      intros [] c3 [Hi3 S3]. split; [done|]. etrans; [exact S1|]. by etrans.
    + eapply wp_mono; [apply send_next_round_change_framed|]. intros [] c' Hf. by apply harmless_safe.
  - wp_step. eapply wp_mono; [apply accetp_safe; [done|by rewrite El]|].
    intros [] c1 (Hi1 & S1 & Ep1 & El1). wp_step. apply wp_modify.
    destruct (with_state_safe PrePrepared c1 Hi1) as [Hi2 S2]; [left; by rewrite Ep1|].
    eapply wp_mono; [apply send_prepare_framed|]. intros [] c3 Hf.
    destruct (harmless_safe _ _ Hf Hi2) as [Hi3 S3]. split; [done|]. etrans; [exact S1|]. by etrans.
Qed.

Lemma check_message_Old code vw c :
  Core.check_message code vw c = Err OldMessage → View.height vw < height c.
Proof.
  unfold Core.check_message. intros E.
  repeat match type of E with
  | context [bool_decide ?P] => case_bool_decide
  | context [if ?b then _ else _] => destruct b eqn:?
  end; try done; by apply Z.ltb_lt.
Qed.

Lemma old_message_framed p src c :
  View.height (PrePrepare.view p) < height c →
  wp True (Core.preprepare_old_message p src)
    (λ _ c', framed (λ e, effect_ok c e ∧ quiet None e) c c') c.
Proof using All.
  intros Hlt. unfold Core.preprepare_old_message. cbv zeta. wp_step.
  apply wp_on_backend; [apply get_header_stable|]. intros o b1 _ Hb1.
  destruct o as [x|]; [|wp_step; by apply with_backend_framed].
  case_bool_decide; [wp_step; by apply with_backend_framed|].
  wp_step. apply wp_lift; [|done]. intros ph _. wp_step. apply wp_gets. wp_step.
  apply wp_on_backend; [apply get_proposer_stable|]. intros a b2 _ Hb2.
  wp_step. apply wp_lift; [|done]. intros vs' _.
  assert (framed (λ e, effect_ok c e ∧ quiet None e) c (Core.with_backend b2 (Core.with_backend b1 c))) as Hf.
  { etrans; apply with_backend_framed; [exact Hb1|exact Hb2]. }
  set (c2 := Core.with_backend b2 _) in *. wp_step.
  destruct (ImplValidatorSet.is_proposer _ _); [|by wp_step; wp_step].
  wp_step. apply wp_on_backend; [apply has_proposal_stable|]. intros has b3 _ Hb3.
  assert (framed (λ e, effect_ok c e ∧ quiet None e) c (Core.with_backend b3 c2)) as Hf3.
  { etrans; [exact Hf|by apply with_backend_framed]. }
  apply wp_when; intros _; [|by wp_step].
  eapply wp_mono; [apply broadcast_commit_framed|]. intros [] c4 Hf4. wp_step.
  etrans; [exact Hf3|]. eapply framed_weaken; [|exact Hf4].
  intros e (m & -> & Ec & Em). split; [|done]. intros _. eexists. split; [exact Em|]. by left.
Qed.

Lemma new_future_timer_framed d m c :
  is_Some (GossipMessage.signature m) →
  wp True (Core.new_round_future_preprepare_timer d m)
    (λ _ c', framed (λ e, effect_ok c e ∧ quiet (Some m) e) c c') c.
Proof using All.
  intros Hm. unfold Core.new_round_future_preprepare_timer, Core.stop_future_preprepare_timer,
    Core.fresh_addr, Core.emit. wp_steps. simpl.
  split; try done. eexists. simpl. rewrite <-app_assoc. split; [done|].
  constructor; [by split|]. constructor; [|done]. simpl. split; [by intros ? [= <-]|by right].
Qed.

Lemma preprepare_handle_safe m src c :
  core_inv c → is_Some (GossipMessage.signature m) →
  wp True (Core.preprepare_handle m src) (λ _ c', core_inv c' ∧ step_ok R c c') c.
Proof using All.
  intros Hi Hm. unfold Core.preprepare_handle. wp_step. apply wp_lift; [|done]. intros p _.
  wp_step. apply wp_gets. wp_step.
  match goal with |- wp _ ?first ?Q _ =>
    assert (wp True first (λ _ c', core_inv c' ∧ step_ok R c c') c) as Hfirst end.
  { destruct (Core.check_message _ _ c) as [[]|[]] eqn:Ec; try by wp_step.
    apply check_message_Old in Ec. eapply wp_mono; [by apply old_message_framed|].
    intros r c' Hf. by apply (framed_safe_and _ _ _ Hf). }
  eapply wp_mono; [exact Hfirst|]. intros [[]|e] c1 [Hi1 S1]; [|done]. clear Hfirst.
  wp_step. apply wp_gets. destruct (negb _); [by wp_step|].
  wp_step. apply wp_on_backend; [apply verify_stable|]. intros [d r] b _ Hb.
  destruct (harmless_safe c1 (Core.with_backend b c1)) as [Hi2 S2]; [by apply with_backend_framed|done|].
  set (c2 := Core.with_backend b c1) in *. assert (step_ok R c c2) as S by by etrans. clear S1 S2.
  assert (∀ A (mm : CM A) (k : A → CM ConsensusResult),
    wp True mm (λ _ c', core_inv c' ∧ step_ok R c2 c') c2 →
    (∀ a, k a = mret (Ok tt) ∨ ∃ e, k a = mret (Err e)) →
    wp True (mm ≫= k) (λ _ c', core_inv c' ∧ step_ok R c c') c2) as Hseq.
  { intros A mm k Hmm Hk. wp_step. eapply wp_mono; [exact Hmm|]. intros a c' [Hi' S'].
    destruct (Hk a) as [->|[e ->]]; wp_step; (split; [done|by etrans]). }
  destruct r as [[]|[]]; apply Hseq; try (by intros; eauto); try (by apply on_valid_safe);
    try (eapply wp_mono; [apply send_next_round_change_framed|]; intros [] c' Hf; by apply harmless_safe).
  eapply wp_mono; [by apply new_future_timer_framed|]. intros [] c' Hf. by apply (framed_safe_and _ _ _ Hf).
Qed.
End core_props.

Section core_events.
Context {B : Type} `{BackendLaws B} `{CryptoKit} `{CodecLaws} `{HashMapOrderLaws} `{BigInt}.
Abbreviation CM := (M (Core.t B)).
Implicit Types c : Core.t B.

Abbreviation height c := (RoundState.height (Core.current_state c)).
Abbreviation round c := (RoundState.round (Core.current_state c)).
Abbreviation lock c := (RoundState.lock (Core.current_state c)).
Abbreviation preprepare c := (RoundState.preprepare (Core.current_state c)).
Abbreviation vals c := (ImplValidatorSet.validators (Core.validators c)).
Abbreviation proposal_hash p := (Block.hash (Proposal.block (PrePrepare.proposal p))).

(** ** New rounds *)

Lemma calc_proposer_validators blh ht r v v' :
  ImplValidatorSet.calc_proposer blh ht r v = Ret v' →
  ImplValidatorSet.validators v' = ImplValidatorSet.validators v.
Proof.
  unfold ImplValidatorSet.calc_proposer. destruct (ImplValidatorSet.selector _ _ _ _ _); simpl; [|done].
  by intros [= <-].
Qed.

Lemma last_proposal_framed c :
  wp True Core.last_proposal (λ _ c', framed harmless c c') c.
Proof using All.
  unfold Core.last_proposal. wp_step. apply wp_on_backend; [apply last_proposal_stable|].
  intros [p|e] b _ Hb; [wp_step; by apply with_backend_framed|by apply wp_panic].
Qed.

(** The state in which a new round or a new height begins. *)
Lemma new_round_inv c st vs' rcs :
  core_inv c →
  (∀ h, RoundState.lock st = Some h → ∃ p, RoundState.preprepare st = Some p ∧ proposal_hash p = h) →
  table_inv (ImplValidatorSet.validators vs') (RoundState.prepares st) →
  table_inv (ImplValidatorSet.validators vs') (RoundState.commits st) →
  rcs_wf rcs →
  ImplValidatorSet.validators (RoundChangeSet.validator_set rcs) = ImplValidatorSet.validators vs' →
  core_inv (Core.with_state AcceptRequest (Core.with_wait_round_change false
    (Core.with_validators vs' (Core.with_current_state st (Core.with_round_change_set rcs c))))).
Proof. intros [] Hl Hp Hc Hr Hrv. by split. Qed.

Lemma propose_new_round_framed c :
  wp True Core.propose_new_round (λ _ c', framed harmless c c') c.
Proof using All.
  unfold Core.propose_new_round. wp_step. apply wp_gets. apply wp_when; intros _; [|done].
  destruct (RoundState.is_locked _); wp_step; (apply wp_lift; [|done]; intros ? _);
    apply send_preprepare_framed.
Qed.

(** Entering a round: the votes are dropped, the lock and its proposal stay,
    an unlocked proposal is dropped. *)
Lemma start_new_round_safe r pre c :
  core_inv c →
  wp True (Core.start_new_round r pre) (λ _ c', core_inv c' ∧ step_ok Z.le c c' ∧
    (round c' = round c ∨ round c' = r)) c.
Proof using All.
  intros Hi. unfold Core.start_new_round. wp_step. apply wp_rassert; [intros _|done].
  wp_step. apply wp_gets. wp_step. apply wp_rassert; [intros Hr%Z.ltb_lt|done].
  wp_step. eapply wp_mono; [apply last_proposal_framed|]. intros p c1 Hf1.
  destruct (harmless_safe Z.le _ _ Hf1 Hi) as [Hi1 S1]. rewrite <-(fr_current _ _ _ Hf1) in *.
  wp_step. apply wp_lift; [|done]. intros next _. wp_step. apply wp_rassert; [intros _|done].
  wp_step; [wp_step; by auto|]. wp_step. apply wp_gets. wp_step. apply wp_rassert; [intros _|done].
  wp_step. apply wp_modify. wp_step. apply wp_modify. wp_step. apply wp_lift; [|done].
  intros vs' Hvs%calc_proposer_validators. simpl in Hvs.
  wp_step. apply wp_modify. wp_step. apply wp_modify. wp_step. apply wp_modify. cbv zeta.
  match goal with |- wp _ _ _ ?x => set (c2 := x) end.
  assert (core_inv c2 ∧ step_ok Z.le c1 c2 ∧ round c2 = r) as (Hi2 & S2 & Er).
  { unfold c2. clear c2. split_and!.
    - apply new_round_inv; simpl; try done.
      + intros h. unfold RoundState.is_locked. case_bool_decide as El; simpl; [|done]. apply Hi1.
      + destruct (RoundState.is_locked _); by apply table_inv_new.
      + destruct (RoundState.is_locked _); by apply table_inv_new.
    - split; simpl; try done; try (destruct (RoundState.is_locked _); simpl; (done || lia)).
      + intros h Hh. unfold RoundState.is_locked. rewrite bool_decide_true by (by eexists). done.
      + exists []. by rewrite app_nil_r.
    - simpl. by destruct (RoundState.is_locked _). }
  wp_step. eapply wp_mono; [apply propose_new_round_framed|]. intros [] c3 Hf3.
  destruct (harmless_safe Z.le _ _ Hf3 Hi2) as [Hi3 S3].
  eapply wp_mono; [apply new_round_change_timer_framed|]. intros [] c4 Hf4.
  assert (framed harmless c3 c4) as Hf4' by (eapply framed_weaken; [apply is_timer_harmless|exact Hf4]).
  destruct (harmless_safe Z.le _ _ Hf4' Hi3) as [Hi4 S4]. split_and!; [done| |].
  - etrans; [exact S1|]. etrans; [exact S2|]. by etrans.
  - right. by rewrite (fr_current _ _ _ Hf4), (fr_current _ _ _ Hf3).
Qed.

Lemma with_rcs_safe rcs c :
  core_inv c → rcs_wf rcs →
  ImplValidatorSet.validators (RoundChangeSet.validator_set rcs) = vals c →
  core_inv (Core.with_round_change_set rcs c) ∧ step_ok Z.le c (Core.with_round_change_set rcs c).
Proof. intros [] Hw Hv. split; split; try done. exists []. by rewrite app_nil_r. Qed.

(** A round change is only followed by a new round on a quorum of votes for
    it. *)
Definition round_quorum (c c' : Core.t B) (r : Round) (m : GossipMessage.t) : Prop :=
  round c' = round c ∨
  (round c' = r ∧ ImplValidatorSet.has_two_thirds_majority
     (rc_votes r (RoundChangeSet.add r m (Core.round_change_set c)).2) (Core.validators c) = true).

Lemma round_change_handle_spec m src c :
  core_inv c → is_Some (GossipMessage.signature m) →
  wp True (Core.round_change_handle m src) (λ _ c', core_inv c' ∧ step_ok Z.le c c' ∧
    ∃ s, from_bytes (GossipMessage.msg m) = Some s ∧
      round_quorum c c' (View.round (Subject.view s)) m) c.
Proof using All.
  intros Hi Hm. unfold Core.round_change_handle. wp_step. apply wp_lift; [|done]. intros s Es.
  apply unwrap_Ret in Es.
  set (r := View.round (Subject.view s)).
  assert (∀ c' : Core.t B, round_quorum c c' r m → ∃ s', from_bytes (GossipMessage.msg m) = Some s' ∧
    round_quorum c c' (View.round (Subject.view s')) m) as Hs by eauto.
  assert (round_quorum c c r m) as Hq0 by by left.
  wp_step. apply wp_gets. destruct (Core.check_message _ _ c) as [[]|e] eqn:Ec; [|by split_and!; auto].
  wp_step. apply wp_gets. cbv zeta. wp_step.
  { wp_step. eapply wp_mono; [apply send_round_change_framed|]. intros [] c' Hf. wp_step.
    destruct (harmless_safe Z.le _ _ Hf Hi) as [Hi' S']. split_and!; [done|done|]. apply Hs. left.
    by rewrite (fr_current _ _ _ Hf). }
  pose proof (rcs_add_wf r m _ (inv_rcs _ Hi) Hm) as Hwf.
  pose proof (rcs_add_validator_set r m (Core.round_change_set c)) as Hvs.
  destruct (RoundChangeSet.add r m (Core.round_change_set c)) as [res rcs] eqn:Eadd. simpl in Hwf, Hvs.
  destruct (with_rcs_safe rcs c) as [Hi1 S1]; [done|done|rewrite Hvs; apply Hi|].
  wp_step. apply wp_modify. set (c1 := Core.with_round_change_set rcs c) in *.
  destruct res as [n|e]; [|wp_step; split_and!; by auto].
  apply rcs_add_Ok in Eadd as En. subst n.
  match goal with |- wp _ (if ?b then _ else _) _ _ => destruct b eqn:Eq end.
  - apply andb_true_iff in Eq as [Eq _]. wp_step.
    eapply wp_mono; [apply send_round_change_framed|]. intros [] c2 Hf2.
    destruct (harmless_safe Z.le _ _ Hf2 Hi1) as [Hi2 S2].
    wp_step. eapply wp_mono; [by apply start_new_round_safe|]. intros [] c3 (Hi3 & S3 & Hr3).
    wp_step. split_and!; [done| |].
    + etrans; [exact S1|]. by etrans.
    + apply Hs. destruct Hr3 as [E|E]; [left; by rewrite E, (fr_current _ _ _ Hf2)|right].
      rewrite Eadd. by split.
  - wp_step; wp_step; split_and!; by auto.
Qed.

(** ** Events *)

Lemma handle_check_message_safe m src c :
  core_inv c → is_Some (GossipMessage.signature m) →
  wp True (Core.handle_check_message m src) (λ _ c', core_inv c' ∧ step_ok Z.le c c') c.
Proof using All.
  intros Hi Hm. unfold Core.handle_check_message. wp_step.
  eapply wp_mono with (Q := λ _ c', core_inv c' ∧ step_ok Z.le c c').
  { destruct (GossipMessage.code m).
    - by apply (preprepare_handle_safe Z.le).
    - by apply (prepare_handle_safe Z.le).
    - by apply (commit_handle_safe Z.le).
    - eapply wp_mono; [by apply round_change_handle_spec|]. by intros r c' (? & ? & _). }
  intros r c1 [Hi1 S1]. wp_step. apply wp_when; intros _; [|by wp_step].
  apply wp_modify. wp_step. destruct (harmless_safe Z.le _ _ (emit_framed _ (FxBacklog m) c1 I) Hi1) as [Hi2 S2].
  split; [done|by etrans].
Qed.

Lemma address_signed_msg m a m' :
  GossipMessage.address_ m = (Ok a, m') →
  is_Some (GossipMessage.signature m') ∧ GossipMessage.address m' = a.
Proof.
  unfold GossipMessage.address_. destruct (GossipMessage.signature m) as [sg|] eqn:E; [|done].
  destruct (recover_bytes _ _); [|done]. intros [= <- <-]. simpl. rewrite E. by split; [eexists|].
Qed.

Lemma handle_message_safe payload c :
  core_inv c → wp True (Core.handle_message payload) (λ _ c', core_inv c' ∧ step_ok Z.le c c') c.
Proof using All.
  intros Hi. unfold Core.handle_message. wp_step. apply wp_gets. wp_step; [by wp_step|].
  wp_step. apply wp_lift; [|done]. intros m _.
  destruct (GossipMessage.address_ m) as [[a|e] m'] eqn:E; [|by wp_step].
  apply address_signed_msg in E as [Hm _]. destruct (ImplValidatorSet.get_by_address _ _); [|by wp_step].
  by apply handle_check_message_safe.
Qed.

Lemma stop_timer_safe c :
  core_inv c →
  wp True (Core.stop_timer;; modify (Core.with_wait_round_change false))
    (λ _ c', core_inv c' ∧ step_ok Z.le c c') c.
Proof using All.
  intros Hi. wp_step. eapply wp_mono; [apply stop_timer_framed|]. intros [] c1 Hf. apply wp_modify.
  eapply (harmless_safe Z.le); [|done]. etrans; [|apply with_wait_framed].
  eapply framed_weaken; [apply is_timer_harmless|exact Hf].
Qed.

Lemma handle_timer_event_safe c :
  core_inv c → wp True Core.handle_timer_event (λ _ c', core_inv c' ∧ step_ok Z.le c c') c.
Proof using All.
  intros Hi. unfold Core.handle_timer_event. wp_step. eapply wp_mono; [apply last_proposal_framed|].
  intros p c1 Hf1. destruct (harmless_safe Z.le _ _ Hf1 Hi) as [Hi1 S1]. wp_step. apply wp_gets. wp_step.
  - eapply wp_mono; [by apply stop_timer_safe|]. intros [] c2 [Hi2 S2]. split; [done|by etrans].
  - eapply wp_mono; [apply send_next_round_change_framed|]. intros [] c2 Hf2.
    destruct (harmless_safe Z.le _ _ Hf2 Hi1) as [Hi2 S2]. split; [done|by etrans].
Qed.

(** A new height: no lock, no proposal, no votes, round 0. *)
Lemma start_new_zero_round_spec c :
  (∀ tm m, FxTimerStart tm ∈ Core.fx c → Timer.msg tm = Some m → is_Some (GossipMessage.signature m)) →
  wp True Core.start_new_zero_round (λ _ c', core_inv c' ∧ Core.state c' = AcceptRequest ∧
    round c' = 0 ∧ lock c' = None ∧ preprepare c' = None) c.
Proof using All.
  intros Ht. unfold Core.start_new_zero_round. wp_step. eapply wp_mono; [apply last_proposal_framed|].
  intros p c1 Hf1. assert (∀ tm m, FxTimerStart tm ∈ Core.fx c1 → Timer.msg tm = Some m →
    is_Some (GossipMessage.signature m)) as Ht1.
  { intros tm m. destruct (fr_fx _ _ _ Hf1) as (l & -> & Hl). rewrite elem_of_app.
    intros [Hin|Hin] Hm; [by eauto|]. rewrite Forall_forall in Hl. apply Hl in Hin. simpl in Hin. congruence. }
  wp_step. apply wp_lift; [|done]. intros next _. wp_step. apply wp_gets. wp_step. apply wp_modify.
  wp_step. apply wp_modify. wp_step. apply wp_rassert; [intros _|done]. wp_step. apply wp_modify.
  wp_step. apply wp_lift; [|done]. intros vs' Hvs%calc_proposer_validators.
  wp_step. apply wp_modify. wp_step. apply wp_modify. wp_step. apply wp_modify. simpl in Hvs.
  match goal with |- wp _ _ _ ?x => set (c2 := x) end.
  assert (core_inv c2) as Hi2.
  { split; simpl; try done; try (by apply table_inv_new). }
  eapply wp_mono; [apply new_round_change_timer_framed|]. intros [] c3 Hf3.
  assert (framed harmless c2 c3) as Hf by (eapply framed_weaken; [apply is_timer_harmless|exact Hf3]).
  destruct (harmless_safe Z.le _ _ Hf Hi2) as [Hi3 S3].
  rewrite (fr_state _ _ _ Hf), (fr_current _ _ _ Hf). done.
Qed.

Lemma request_handle_safe r c :
  core_inv c → wp True (Core.request_handle r) (λ _ c', core_inv c' ∧ step_ok Z.le c c') c.
Proof using All.
  intros Hi. unfold Core.request_handle. wp_step. apply wp_gets.
  destruct (Core.check_request_message _ _) as [[]|e]; [|done].
  wp_step. apply wp_gets. wp_step. apply wp_rassert; [intros _|done].
  wp_step. apply wp_modify. set (c1 := Core.with_current_state _ c).
  assert (core_inv c1 ∧ step_ok Z.le c c1) as [Hi1 S1].
  { split; [apply inv_with_current|apply (step_with_current Z.le)]; simpl; try done; apply Hi. }
  wp_step. eapply wp_mono; [apply send_preprepare_framed|]. intros [] c2 Hf. wp_step.
  destruct (harmless_safe Z.le _ _ Hf Hi1) as [Hi2 S2]. split; [done|by etrans].
Qed.

Definition is_new_header (e : Event) : bool := match e with EvNewHeader _ => true | _ => false end.

Lemma timer_post_msg tm m :
  Timer.handle Timer.Interval tm = Timer.PostBackLog m → Timer.msg tm = Some m.
Proof.
  unfold Timer.handle. destruct (Timer.pid tm), (Timer.msg tm); simpl; try done;
    try (by case_bool_decide); congruence.
Qed.

Lemma event_safe e c :
  core_inv c → event_enabled e c →
  wp True (run_event e) (λ _ c', core_inv c' ∧ (is_new_header e = false → step_ok Z.le c c')) c.
Proof using All.
  intros Hi He. destruct e as [p| |payload|m| |op]; simpl in *.
  - unfold Core.handle_new_header. wp_step. wp_step. eapply wp_mono; [apply start_new_zero_round_spec, Hi|].
    intros [] c1 (Hi1 & _). eapply wp_mono; [by apply request_handle_safe|].
    intros r c2 [Hi2 _]. wp_step. by split.
  - eapply wp_mono; [by apply stop_timer_safe|]. by intros [] c' [? ?].
  - wp_step. eapply wp_mono; [by apply handle_message_safe|].
    intros r c' [? ?]. wp_step. by split.
  - destruct He as (tm & Hin & Emsg%timer_post_msg).
    wp_step. eapply wp_mono; [apply handle_check_message_safe; [done|by eapply (inv_timers _ Hi)]|].
    intros r c' [? ?]. wp_step. by split.
  - eapply wp_mono; [by apply handle_timer_event_safe|]. by intros [] c' [? ?].
  - destruct op; simpl; [|by wp_step].
    wp_step. eapply wp_mono; [apply stop_timer_framed|]. intros [] c1 Hf. apply wp_modify.
    assert (framed harmless c (Core.with_stopped true c1)) as Hf'.
    { etrans; [eapply framed_weaken; [apply is_timer_harmless|exact Hf]|].
      split; try done. exists []. by rewrite app_nil_r. }
    by destruct (harmless_safe Z.le _ _ Hf' Hi).
Qed.

Lemma env_safe c b clk' :
  same_backend (Core.backend c) b → core_inv c →
  core_inv (Core.with_clk clk' (Core.with_backend b c)) ∧
  step_ok Z.le c (Core.with_clk clk' (Core.with_backend b c)).
Proof.
  intros Hb Hi. apply (harmless_safe Z.le); [|done]. split; try done. exists []. by rewrite app_nil_r.
Qed.

Lemma step_inv c c' : core_inv c → step c c' → core_inv c'.
Proof using All.
  intros Hi Hs. destruct Hs as [c e c' He E|c b clk' E1 E2].
  - exact (proj1 (wp_elim _ _ _ _ _ _ (event_safe e c Hi He) E)).
  - by apply env_safe.
Qed.
End core_events.
