(* ===== verification/CoreSafety.v ===== *)
(** * Safety of the PBFT core

    The properties of one validator's core that the protocol relies on, from
    the invariant and the step lemmas of [CoreProps]. *)

From stdpp Require Import relations.
From S2P Require Import Prelude External Types Validators Protocol Wire RoundState Backend Core CoreProps.

Section core_safety.
Context {B : Type} `{BackendLaws B} `{CryptoKit} `{CodecLaws} `{HashMapOrderLaws} `{BigInt}.
Abbreviation CM := (M (Core.t B)).
Implicit Types c : Core.t B.

Abbreviation height c := (RoundState.height (Core.current_state c)).
Abbreviation round c := (RoundState.round (Core.current_state c)).
Abbreviation lock c := (RoundState.lock (Core.current_state c)).
Abbreviation preprepare c := (RoundState.preprepare (Core.current_state c)).
Abbreviation proposal_hash p := (Block.hash (Proposal.block (PrePrepare.proposal p))).

(** ** The invariant *)

(** C6 Every state the core can reach from its creation, whatever messages,
    timers and headers arrive in whatever order and however other threads
    change the chain in between, satisfies the invariant: past
    [AcceptRequest] there is a proposal (so the [unwrap]s on it are safe), the
    lock is the hash of the current proposal, and every recorded prepare,
    commit and round-change vote is signed and filed under a validator. *)
Theorem reachable_invariant (lb : Block.t) (vs : list Validator.t) (cfg : Config.t) (b : B)
    (kp : Secret) (clk : Clk.t) (c : Core.t B) :
  reachable (Core.new lb vs cfg b kp clk) c → core_inv c.
Proof using All.
  induction 1 as [c E|c c' _ IH Hs]; [|by eapply step_inv].
  pose proof (start_new_zero_round_spec (Core.new lb vs cfg b kp clk)) as Hw.
  refine (proj1 (wp_elim _ _ _ _ _ _ (Hw _) E)).
  intros tm m Hin Hm. simpl in Hin. set_unfold in Hin. destruct Hin as [[= ->]|[[= ->]|[]]]; done.
Qed.

(** ** One height *)

(** Steps that do not begin a new height. *)
Inductive step_at_height : Core.t B → Core.t B → Prop :=
| sah_event c e c' :
    event_enabled e c → is_new_header e = false → run_event e c = Ret (tt, c') → step_at_height c c'
| sah_env c b clk' :
    same_backend (Core.backend c) b →
    step_at_height c (Core.with_clk clk' (Core.with_backend b c)).

Lemma run_at_height c c' :
  core_inv c → rtc step_at_height c c' → core_inv c' ∧ step_ok Z.le c c'.
Proof using All.
  intros Hi Hr. induction Hr as [c|c c1 c2 Hs _ IH]; [by split|].
  assert (core_inv c1 ∧ step_ok Z.le c c1) as [Hi1 S1].
  { destruct Hs as [c e c1 He Hn E|c b clk' Hb]; [|by apply env_safe].
    destruct (wp_elim _ _ _ _ _ _ (event_safe e c Hi He) E) as [? Hs]. auto. }
  destruct (IH Hi1) as [Hi2 S2]. split; [done|by etrans].
Qed.

(** The effects of a run are legal in the state it ends in. *)
Lemma run_effects c c' l e :
  core_inv c → rtc step_at_height c c' → Core.fx c' = Core.fx c ++ l → e ∈ l → effect_ok c' e.
Proof using All.
  intros Hi Hr E He. destruct (run_at_height _ _ Hi Hr) as [_ S].
  destruct (ok_fx _ _ _ S) as (l' & E' & Hl). rewrite E in E'. apply app_inv_head in E' as ->.
  rewrite Forall_forall in Hl. by apply Hl.
Qed.

(** C4 A validator does not vote for two blocks at one height: in any run that does
    not begin a new height, all commit votes it gossips for that height
    carry the same digest, across rounds, and it is the digest the validator
    is locked on at the end. *)
Theorem no_equivocation (c c' : Core.t B) (l : list Effect) (m1 m2 : GossipMessage.t)
    (s1 s2 : Subject.t) :
  core_inv c → rtc step_at_height c c' → Core.fx c' = Core.fx c ++ l →
  FxGossip m1 ∈ l → FxGossip m2 ∈ l →
  GossipMessage.code m1 = Commit → GossipMessage.code m2 = Commit →
  from_bytes (GossipMessage.msg m1) = Some s1 → from_bytes (GossipMessage.msg m2) = Some s2 →
  View.height (Subject.view s1) = height c → View.height (Subject.view s2) = height c →
  Subject.digest s1 = Subject.digest s2 ∧ lock c' = Some (Subject.digest s1).
Proof using All.
  intros Hi Hr E I1 I2 C1 C2 D1 D2 V1 V2.
  destruct (run_at_height _ _ Hi Hr) as [_ S]. rewrite <-(ok_height _ _ _ S) in V1, V2.
  assert (∀ m s, FxGossip m ∈ l → GossipMessage.code m = Commit →
    from_bytes (GossipMessage.msg m) = Some s → View.height (Subject.view s) = height c' →
    lock c' = Some (Subject.digest s)) as Hv.
  { intros m s Im Cm Dm Vm. destruct (run_effects _ _ _ _ Hi Hr E Im Cm) as (s' & Es & Hs).
    rewrite Es, from_into in Dm. injection Dm as ->. destruct Hs as [|[_ ?]]; [lia|done]. }
  pose proof (Hv _ _ I1 C1 D1 V1). pose proof (Hv _ _ I2 C2 D2 V2). split; congruence.
Qed.

(** C5 A validator decides at most one block per height, on a quorum: in any run
    that does not begin a new height every block handed to the backend's
    [commit] has the hash the validator is locked on, with more than two
    thirds of the validators' signatures as seals. *)
Theorem commit_unique (c c' : Core.t B) (l : list Effect) (p p' : Proposal.t)
    (seals seals' : list Signature) :
  core_inv c → rtc step_at_height c c' → Core.fx c' = Core.fx c ++ l →
  FxCommit p seals ∈ l → FxCommit p' seals' ∈ l →
  Block.hash (Proposal.block p) = Block.hash (Proposal.block p') ∧
  lock c' = Some (Block.hash (Proposal.block p)) ∧
  ImplValidatorSet.has_two_thirds_majority (length seals) (Core.validators c) = true.
Proof using All.
  intros Hi Hr E I1 I2. destruct (run_at_height _ _ Hi Hr) as [_ S].
  destruct (run_effects _ _ _ _ Hi Hr E I1) as [L1 Q1], (run_effects _ _ _ _ Hi Hr E I2) as [L2 _].
  split_and!; [congruence|done|]. by rewrite <-(majority_vals _ _ _ (ok_vals _ _ _ S)).
Qed.

(** C11 Events other than a new header never take a validator back: the height stays,
    the round does not decrease, and a lock, once taken, stays on the same
    block, which remains the current proposal. *)
Theorem progress_is_monotone (c c' : Core.t B) :
  core_inv c → rtc step_at_height c c' →
  View_le (Core.current_view c) (Core.current_view c') ∧ height c' = height c ∧
  ∀ h, lock c = Some h → lock c' = Some h ∧ ∃ p, preprepare c' = Some p ∧ proposal_hash p = h.
Proof using All.
  intros Hi Hr. destruct (run_at_height _ _ Hi Hr) as [Hi' S]. split_and!; [|apply S|].
  - pose proof (ok_height _ _ _ S) as Eh. pose proof (ok_round _ _ _ S) as Er.
    unfold View_le, View_lt, Core.current_view. simpl. rewrite Eh.
    destruct (decide (round c = round c')) as [Ec|]; [left; by rewrite Ec|right; right; split; [done|lia]].
  - intros h Hh. apply (ok_lock _ _ _ S) in Hh. split; [done|]. by apply Hi'.
Qed.

(** ** Round changes *)

(** C10 A protocol message moves a validator to another round only if it is a
    round-change vote for that round and, with it, more than two thirds of
    the validators have voted for the round. *)
Theorem round_moves_on_quorum (m : GossipMessage.t) (src : Validator.t) (c c' : Core.t B)
    (r : ConsensusResult) :
  core_inv c → is_Some (GossipMessage.signature m) →
  Core.handle_check_message m src c = Ret (r, c') → round c' ≠ round c →
  GossipMessage.code m = RoundChange ∧ round c < round c' ∧
  (∃ s, from_bytes (GossipMessage.msg m) = Some s ∧ View.round (Subject.view s) = round c') ∧
  ImplValidatorSet.has_two_thirds_majority
    (rc_votes (round c') (RoundChangeSet.add (round c') m (Core.round_change_set c)).2)
    (Core.validators c) = true.
Proof using All.
  intros Hi Hm E Hne.
  assert (wp True (Core.handle_check_message m src) (λ _ c1, round c1 = round c ∨
    (GossipMessage.code m = RoundChange ∧ ∃ s, from_bytes (GossipMessage.msg m) = Some s ∧
      round_quorum c c1 (View.round (Subject.view s)) m)) c) as Hw.
  { unfold Core.handle_check_message. wp_step.
    eapply wp_mono with (Q := λ _ c1, round c1 = round c ∨ (GossipMessage.code m = RoundChange ∧
      ∃ s, from_bytes (GossipMessage.msg m) = Some s ∧ round_quorum c c1 (View.round (Subject.view s)) m)).
    - destruct (GossipMessage.code m) eqn:Ec.
      + eapply wp_mono; [exact (preprepare_handle_safe eq m src c Hi Hm)|].
        intros r1 c1 [_ S1]. left. symmetry. apply S1.
      + eapply wp_mono; [exact (prepare_handle_safe eq m src c Hi Hm)|].
        intros r1 c1 [_ S1]. left. symmetry. apply S1.
      + eapply wp_mono; [exact (commit_handle_safe eq m src c Hi Hm)|].
        intros r1 c1 [_ S1]. left. symmetry. apply S1.
      + eapply wp_mono; [exact (round_change_handle_spec m src c Hi Hm)|].
        intros r1 c1 (_ & _ & Hs). by right.
    - intros r1 c1 Hc1. wp_step. apply wp_when; intros _; [apply wp_modify|]; wp_step; exact Hc1. }
  destruct (wp_elim _ _ _ _ _ _ Hw E) as [|(Ec & s & Es & [|[Er Hq]])]; [done..|].
  destruct (wp_elim _ _ _ _ _ _ (handle_check_message_safe m src c Hi Hm) E) as [_ S].
  pose proof (ok_round _ _ _ S). rewrite <-Er in Hq. split_and!; [done|lia|eauto|done].
Qed.

(** ** Votes are handled without a panic *)

Section totality.
(** Signing succeeds. *)
Context (sign_total : ∀ h sk, is_Some (hash_sign h sk)).

Lemma broadcast_total m c : wp False (Core.broadcast m) (λ _ c', framed (gossips m) c c') c.
Proof using All.
  eapply wp_no_panic; [apply broadcast_framed|]. instantiate (1 := λ _ _, True).
  unfold Core.broadcast. wp_step. apply wp_gets. wp_step. apply wp_lift.
  - intros m' _. wp_step. apply wp_modify. wp_step. unfold wp at 1, Core.on_backend.
    edestruct gossip_total as (r & b' & ->). done.
  - unfold Core.finalize_message, GossipMessage.set_sign.
    edestruct sign_total as [sg ->]. done.
Qed.

Lemma send_commit_total c :
  is_Some (preprepare c) →
  wp False Core.send_commit (λ _ c', framed (λ _, True) c c') c.
Proof using All.
  intros [p Ep]. unfold Core.send_commit. wp_step. apply wp_gets.
  unfold RoundState.proposal, RoundState.subject. rewrite Ep.
  wp_step. apply wp_lift; [|done]. intros q _. wp_step. apply wp_lift; [|done]. intros s _.
  unfold Core.broadcast_commit. wp_step. apply wp_gets. wp_step. apply wp_lift.
  - intros seal _. eapply wp_mono; [apply broadcast_total|]. intros [] c' Hf.
    by eapply framed_weaken; [|exact Hf].
  - unfold encrypt_commit_bytes. edestruct sign_total as [sg ->]. done.
Qed.

Lemma enter_prepared_total c :
  is_Some (preprepare c) →
  wp False Core.enter_prepared (λ _ c', is_Some (preprepare c')) c.
Proof using All.
  intros Hp. unfold Core.enter_prepared. wp_step. apply wp_modify. wp_step. apply wp_modify.
  assert (is_Some (RoundState.preprepare (RoundState.lock_hash (Core.current_state c)))) as Hp'.
  { unfold RoundState.lock_hash. by destruct (preprepare c) eqn:E; simpl; rewrite ?E. }
  eapply wp_mono; [by apply send_commit_total|]. intros [] c' Hf. rewrite (fr_current _ _ _ Hf). done.
Qed.

(** C24 A prepare vote never crashes a validator: in any state that satisfies the
    invariant, a prepare message whose payload decodes is handled to an
    answer, whatever subject it carries and whether or not it completes the
    quorum (the [unwrap]s in [send_commit] are reached only with a
    proposal). *)
Theorem prepare_handler_returns (m : GossipMessage.t) (src : Validator.t) (s : Subject.t)
    (c : Core.t B) :
  core_inv c → is_Some (GossipMessage.signature m) → from_bytes (GossipMessage.msg m) = Some s →
  ∃ r c', Core.prepare_handle m src c = Ret (r, c') ∧ core_inv c'.
Proof using All.
  intros Hi Hm Es. apply wp_total.
  assert (wp False (Core.prepare_handle m src) (λ _ _, True) c) as Hw; cycle 1.
  { eapply wp_no_panic; [|exact Hw]. eapply wp_mono; [exact (prepare_handle_safe eq m src c Hi Hm)|].
    by intros ? ? [? _]. }
  unfold Core.prepare_handle. rewrite Es. wp_step. apply wp_lift; [|done]. intros s' [= <-].
  wp_step. apply wp_gets. destruct (Core.check_message _ _ c) as [[]|e] eqn:Ec; [|done].
  apply check_message_Ok in Ec as (_ & _ & Hst).
  assert (is_Some (preprepare c)) as Hp by (apply Hi, Hst; by left).
  wp_step. apply wp_gets. destruct (Core.verify_prepare _ _ _) as [[]|e]; [|done]. wp_step.
  eapply wp_mono with (Q := λ _ c1, is_Some (preprepare c1)).
  { unfold Core.prepare_accept. wp_step. apply wp_gets.
    by destruct (MessageManage.add _ _) as [[[]|e] mm]. }
  intros [[]|e] c1 Hp1; [|done]. wp_step. apply wp_gets. wp_step.
  assert (∀ c2, is_Some (preprepare c2) → wp False (c0 ← gets (λ c, c);
    when (ImplValidatorSet.two_thirds_majority (Core.validators c0) <?
          RoundState.get_prepare_or_commit_size (Core.current_state c0))%nat Core.enter_prepared;;
    mret (Ok tt : ConsensusResult)) (λ _ _, True) c2) as Hrest.
  { intros c2 Hp2. wp_step. apply wp_gets. wp_step. apply wp_when; intros _; [|done].
    eapply wp_mono; [by apply enter_prepared_total|]. done. }
  apply wp_when; intros _; [|by apply Hrest].
  eapply wp_mono; [by apply enter_prepared_total|]. intros [] c2 Hp2. by apply Hrest.
Qed.

End totality.

(** ** Deciding *)

Lemma collect_seals_total l :
  (∀ m, m ∈ l → is_Some (GossipMessage.signature m)) →
  ∃ seals, Core.collect_seals l = Ret seals ∧ length seals = length l.
Proof.
  induction l as [|m l IH]; intros Hl; simpl; [by exists []|].
  destruct (Hl m) as [sg ->]; [by left|]. destruct IH as (ss & -> & E); [intros; apply Hl; by right|].
  exists (sg :: ss). simpl. by rewrite E.
Qed.

Lemma values_signed vs mm m :
  table_inv vs mm → m ∈ MessageManage.values mm → is_Some (GossipMessage.signature m).
Proof using All.
  intros Ht [[a m'] [-> Hin]]%list_elem_of_fmap. apply hm_iter_elem in Hin.
  by eapply (table_signed _ _ Ht).
Qed.

(** The backend's [commit] of the current proposal does not panic. *)
Definition commit_returns (c : Core.t B) : Prop :=
  ∀ p seals, preprepare c = Some p →
    ∃ r b', be_commit (PrePrepare.proposal p) seals (Core.backend c) = Ret (r, b').

Lemma commit_total c :
  core_inv c → is_Some (preprepare c) →
  commit_returns c →
  (ImplValidatorSet.two_thirds_majority (Core.validators c) <
    MessageManage.len (RoundState.commits (Core.current_state c)))%nat →
  wp False Core.commit (λ _ c', Core.state c' = Committed ∧ Core.current_state c' = Core.current_state c ∧
    Core.validators c' = Core.validators c ∧
    ∃ p seals, preprepare c = Some p ∧
      Core.fx c' = Core.fx c ++ [FxCommit (PrePrepare.proposal p) seals] ∧
      length seals = size (voters (RoundState.commits (Core.current_state c))) ∧
      ∃ r, be_commit (PrePrepare.proposal p) seals (Core.backend c) = Ret (r, Core.backend c')) c.
Proof using All.
  intros Hi [p Ep] Hb Hq. unfold Core.commit. wp_step. apply wp_modify. wp_step. apply wp_gets.
  destruct (collect_seals_total (MessageManage.values (RoundState.commits (Core.current_state c))))
    as (seals & Eseals & Elen).
  { intros m. apply (values_signed _ _ _ (inv_commits _ Hi)). }
  wp_step. apply wp_lift; simpl; [|by rewrite Eseals]. intros seals' Es'. rewrite Eseals in Es'.
  injection Es' as <-. unfold MessageManage.values in Elen. rewrite length_fmap, hm_iter_length in Elen.
  wp_step. apply wp_rassert; cycle 1.
  { intros E%Nat.leb_gt. unfold MessageManage.len in Hq. lia. }
  intros _. unfold RoundState.proposal. rewrite Ep. wp_step. apply wp_lift; [|done]. intros q [= <-].
  wp_step. apply wp_modify. wp_step. unfold wp at 1, Core.on_backend. simpl.
  destruct (Hb p seals Ep) as (r & b' & Eb). rewrite Eb. wp_step. simpl. split; [done|]. split; [done|].
  split; [done|]. exists p, seals. split_and!; [done|done| |by exists r]. unfold voters. by rewrite size_dom.
Qed.

Lemma commit_accept_shape m src c :
  ∃ r mm, MessageManage.add m (RoundState.commits (Core.current_state c)) = (r, mm) ∧
    Core.commit_accept m src c = Ret (match r with Ok _ => Ok tt | Err e => Err (Unknown e) end,
      Core.with_current_state (RoundState.set_commits mm (Core.current_state c)) c).
Proof.
  unfold Core.commit_accept, mbind, M_mbind, M_bind, gets.
  destruct (MessageManage.add _ _) as [[[]|e] mm]; eauto.
Qed.

(** What the handler does once the vote is counted. *)
Definition decide_tail : CM ConsensusResult :=
  c ← gets (λ c, c);
  when ((ImplValidatorSet.two_thirds_majority (Core.validators c) <?
         MessageManage.len (RoundState.commits (Core.current_state c)))%nat &&
        State_lt (Core.state c) Committed)
    (Core.upd_current RoundState.lock_hash;; Core.commit);;
  mret (Ok tt).

Definition decided (c c' : Core.t B) (n : nat) : Prop :=
  if ImplValidatorSet.has_two_thirds_majority n (Core.validators c) && State_lt (Core.state c) Committed
  then Core.state c' = Committed ∧
    ∃ p seals, preprepare c = Some p ∧
      Core.fx c' = Core.fx c ++ [FxCommit (PrePrepare.proposal p) seals] ∧ length seals = n ∧
      ∃ r, be_commit (PrePrepare.proposal p) seals (Core.backend c) = Ret (r, Core.backend c')
  else Core.state c' = Core.state c ∧ Core.fx c' = Core.fx c ∧ Core.backend c' = Core.backend c.

Lemma decide_tail_spec c :
  core_inv c → is_Some (preprepare c) →
  (State_lt (Core.state c) Committed = true → commit_returns c) →
  wp False decide_tail (λ r c', r = Ok tt ∧
    (RoundState.commits (Core.current_state c') = RoundState.commits (Core.current_state c) ∧
      preprepare c' = preprepare c ∧ Core.validators c' = Core.validators c) ∧
    decided c c' (size (voters (RoundState.commits (Core.current_state c))))) c.
Proof using All.
  intros Hi Hp Hb. unfold decide_tail, decided. wp_step. apply wp_gets. wp_step.
  assert (size (voters (RoundState.commits (Core.current_state c))) =
    MessageManage.len (RoundState.commits (Core.current_state c))) as -> by apply size_dom.
  set (n := MessageManage.len _).
  replace (ImplValidatorSet.two_thirds_majority (Core.validators c) <? n)%nat with
    (ImplValidatorSet.has_two_thirds_majority n (Core.validators c)).
  2: { apply eq_true_iff_eq. unfold ImplValidatorSet.has_two_thirds_majority.
       rewrite Nat.leb_le, Nat.ltb_lt. lia. }
  destruct (ImplValidatorSet.has_two_thirds_majority n (Core.validators c)) eqn:Eq;
    [|cbn [andb when]; wp_step; wp_step; by auto 7].
  destruct (State_lt _ _); [specialize (Hb eq_refl)|cbn [andb when]; wp_step; wp_step; by auto 7]. cbn [andb when]. apply Nat.leb_le in Eq.
  wp_step. apply wp_modify. destruct (lock_hash_safe eq c Hi) as (Hi2 & _ & Ep2 & _).
  set (c2 := Core.with_current_state _ c) in *.
  assert (RoundState.commits (Core.current_state c2) = RoundState.commits (Core.current_state c)) as Emm.
  { simpl. unfold RoundState.lock_hash. by destruct (preprepare c). }
  assert (commit_returns c2) as Hb2 by (intros p seals; rewrite Ep2; apply Hb).
  eapply wp_mono; [apply commit_total; [done|by rewrite Ep2|done|rewrite Emm; simpl; fold n; lia]|].
  intros [] c3 (Hst & Ecur & Evs & p & seals & Ep & Efx & Els & Hbe). wp_step. rewrite Ecur.
  split_and!; [done..|]. exists p, seals. rewrite Ep2 in Ep.
  split_and!; [done|done| |exact Hbe]. rewrite Els, Emm. apply size_dom.
Qed.

(** What counting a commit vote of [a] does. *)
Definition commit_counted (a : Address) (c c' : Core.t B) : Prop :=
  (core_inv c' ∧ step_ok eq c c' ∧ Core.validators c' = Core.validators c ∧ preprepare c' = preprepare c) ∧
  voters (RoundState.commits (Core.current_state c')) =
    voters (RoundState.commits (Core.current_state c)) ∪ {[a]} ∧
  decided c c' (size (voters (RoundState.commits (Core.current_state c)) ∪ {[a]})).

Lemma commit_handle_counts (m : GossipMessage.t) (src : Validator.t) (s : Subject.t)
    (seal : Signature) (ok : bool) (c : Core.t B) :
  core_inv c → is_Some (GossipMessage.signature m) →
  from_bytes (GossipMessage.msg m) = Some s →
  Core.check_message Commit (Subject.view s) c = Ok tt →
  GossipMessage.commit_seal m = Some seal →
  verify_address (GossipMessage.address m) seal (Subject.digest s) = Some ok →
  GossipMessage.address m ∈ addresses (Core.validators c) →
  (State_lt (Core.state c) Committed = true → commit_returns c) →
  ∃ c', Core.commit_handle m src c = Ret (Ok tt, c') ∧ commit_counted (GossipMessage.address m) c c'.
Proof using All.
  intros Hi Hm Es Ec Eseal Ev Ha Hb.
  assert (is_Some (preprepare c)) as Hp.
  { apply check_message_Ok in Ec as (_ & _ & Hst). apply Hi, Hst. by right. }
  pose proof (commit_handle_safe eq m src c Hi Hm) as Hsafe. pose proof (inv_commits _ Hi) as Ht.
  assert (Core.verify_commit (GossipMessage.commit_seal m) s (GossipMessage.address m) src c = Ret (Ok tt))
    as Hv.
  { unfold Core.verify_commit, RoundState.subject. rewrite Eseal, Ev. by destruct Hp as [? ->]. }
  destruct (manage_add_cases m (RoundState.commits (Core.current_state c))) as [[_ Eadd]|[Hn _]]; cycle 1.
  { exfalso. apply Hn. simpl. unfold ImplValidatorSet.list_. by rewrite (table_vals _ _ Ht). }
  destruct (commit_accept_shape m src c) as (r & mm & Emm & Eacc). rewrite Eadd in Emm.
  injection Emm as <- Emm. set (c1 := Core.with_current_state _ c) in Eacc.
  assert (voters mm = voters (RoundState.commits (Core.current_state c)) ∪ {[GossipMessage.address m]}) as Hvot.
  { unfold voters. rewrite <-Emm. simpl. rewrite dom_insert_L. set_solver. }
  assert (core_inv c1) as Hi1.
  { pose proof (commit_accept_safe eq m src c Hi Hm) as Hw. unfold wp in Hw. rewrite Eacc in Hw. apply Hw. }
  destruct (wp_total _ _ _ (decide_tail_spec c1 Hi1 Hp Hb)) as (r & c' & Et & -> & (Ecm & Ep' & Evs) & Hd).
  assert (Core.commit_handle m src c = Ret (Ok tt, c')) as Eh.
  { unfold Core.commit_handle, mbind, M_mbind, M_bind, try_bind, M_bind, lift, gets.
    rewrite Es. simpl. rewrite Ec, Hv, Eacc. exact Et. }
  exists c'. split; [done|]. unfold wp in Hsafe. rewrite Eh in Hsafe. destruct Hsafe as [Hi' S'].
  split; [by split_and!|]. rewrite Ecm. split; [exact Hvot|].
  change (RoundState.commits (Core.current_state c1)) with mm in Hd. rewrite Hvot in Hd. exact Hd.
Qed.

End core_safety.
