(* ===== verification/CoreLive.v ===== *)
(** * Behaviour of the core's handlers

    What a message must satisfy to be handled, what a prepare quorum does,
    that a timer keeps the protocol moving, and where a handler panics. *)

From S2P Require Import Prelude External Types Validators Protocol Wire RoundState Backend Core CoreProps CoreSafety.

Section core_live.
Context {B : Type} `{BackendLaws B} `{CryptoKit} `{CodecLaws} `{HashMapOrderLaws} `{BigInt}.
Abbreviation CM := (M (Core.t B)).
Implicit Types c : Core.t B.

Abbreviation height c := (RoundState.height (Core.current_state c)).
Abbreviation round c := (RoundState.round (Core.current_state c)).
Abbreviation lock c := (RoundState.lock (Core.current_state c)).
Abbreviation preprepare c := (RoundState.preprepare (Core.current_state c)).
Abbreviation prepares c := (RoundState.prepares (Core.current_state c)).
Abbreviation commits c := (RoundState.commits (Core.current_state c)).
Abbreviation proposal_hash p := (Block.hash (Proposal.block (PrePrepare.proposal p))).

(** ** Checks *)

(** [check_message] sorts messages by height and phase: it accepts exactly
    those of the current height, unless votes arrive before a proposal was
    accepted; those are to be kept for later, higher ones are reported with
    their height and lower ones as old.  The round of the view plays no
    part. *)
Lemma check_message_spec (code : MessageType) (vw : View.t) (c : Core.t B) :
  (match Core.check_message code vw c with
   | Ok _ => View.height vw = height c ∧ View.height vw ≠ 0 ∧
       (Core.state c = AcceptRequest → code = Preprepare ∨ code = RoundChange)
   | Err FutureMessage => View.height vw = height c ∧ Core.state c = AcceptRequest ∧
       (code = Prepare ∨ code = Commit)
   | Err (FutureBlockMessage h) => h = View.height vw ∧ height c < h
   | Err OldMessage => View.height vw ≠ 0 ∧ View.height vw < height c
   | Err (Unknown _) => View.height vw = 0
   | Err _ => False
   end) ∧
  ∀ r, Core.check_message code (View.mk r (View.height vw)) c = Core.check_message code vw c.
Proof.
  split; [|done]. unfold Core.check_message.
  destruct (Z.eqb_spec (View.height vw) 0); [done|].
  destruct (Z.ltb_spec (height c) (View.height vw)), (Z.ltb_spec (View.height vw) (height c));
    repeat case_bool_decide; destruct code; simpl; try done; split_and!; auto; try lia; try done.
Qed.

(** ** Prepare votes *)

(** What handling votes leaves alone: the node, its view and validators; the
    effects only grow. *)
Record kin (c c' : Core.t B) : Prop := {
  kin_self : Core.address c' = Core.address c ∧ Core.keypair c' = Core.keypair c;
  kin_view : Core.current_view c' = Core.current_view c;
  kin_validators : Core.validators c' = Core.validators c;
  kin_fx : ∃ l, Core.fx c' = Core.fx c ++ l
}.

#[export] Instance kin_preorder : PreOrder kin.
Proof.
  split.
  - intros c. split; try done. exists []. by rewrite app_nil_r.
  - intros c1 c2 c3 [[] ? ? (l & E)] [[] ? ? (l' & E')]. split; try congruence.
    + split; congruence.
    + exists (l ++ l'). by rewrite E', E, app_assoc.
Qed.

Lemma kin_elem c c' e : kin c c' → e ∈ Core.fx c → e ∈ Core.fx c'.
Proof. intros [? ? ? (l & E)] He. rewrite E. set_solver. Qed.

(** The node has gossiped a vote of its view for [d], signed with its key
    and, when it is a commit, sealed. *)
Definition voted (code : MessageType) (d : Hash) (c : Core.t B) : Prop :=
  ∃ m m', FxGossip m' ∈ Core.fx c ∧ Core.finalize_message m c = Ret m' ∧ GossipMessage.code m = code ∧
    GossipMessage.msg m = into_bytes (Subject.mk (Core.current_view c) d) ∧
    (code = Commit → ∃ seal, encrypt_commit_bytes d (Core.keypair c) = Ret seal ∧
       GossipMessage.commit_seal m = Some seal).

Lemma voted_kin code d c c' : kin c c' → voted code d c → voted code d c'.
Proof.
  intros K (m & m' & Hin & Ef & Ec & Em & Es). exists m, m'.
  destruct (kin_self _ _ K) as [Ea Ek]. unfold Core.finalize_message. rewrite Ea, Ek, (kin_view _ _ K).
  split_and!; try done. by eapply kin_elem.
Qed.

Section signing.
(** Signing succeeds. *)
Context (sign_total : ∀ h sk, is_Some (hash_sign h sk)).

Section votes.
(** A property of the backend that gossiping preserves. *)
Context (I : B → Prop).
Context (gossip_keeps_I : ∀ vs m b r b', I b → be_gossip vs m b = Ret (r, b') → I b').

Lemma broadcast_sends m c :
  I (Core.backend c) →
  wp False (Core.broadcast m) (λ _ c', ∃ m' b, I b ∧ Core.finalize_message m c = Ret m' ∧
    c' = Core.with_backend b (Core.with_fx (Core.fx c ++ [FxGossip m']) c)) c.
Proof using All.
  intros HI. unfold Core.broadcast. wp_step. apply wp_gets. wp_step. apply wp_lift.
  - intros m' Em. wp_step. apply wp_modify. wp_step. unfold wp at 1, Core.on_backend. simpl.
    edestruct gossip_total as (r & b' & E). rewrite E. wp_step. eauto 7.
  - unfold Core.finalize_message, GossipMessage.set_sign. edestruct sign_total as [sg ->]. done.
Qed.

Lemma send_commit_spec c p :
  I (Core.backend c) → preprepare c = Some p →
  wp False Core.send_commit (λ _ c', kin c c' ∧ I (Core.backend c') ∧ voted Commit (proposal_hash p) c' ∧
    Core.current_state c' = Core.current_state c ∧ Core.state c' = Core.state c) c.
Proof using All.
  intros HI Ep. unfold Core.send_commit. wp_step. apply wp_gets. unfold RoundState.proposal, RoundState.subject.
  rewrite Ep. wp_step. apply wp_lift; [|done]. intros ? _. wp_step. apply wp_lift; [|done]. intros s [= <-].
  unfold Core.broadcast_commit. wp_step. apply wp_gets. wp_step. apply wp_lift.
  - intros seal Eseal. eapply wp_mono; [by apply broadcast_sends|].
    intros [] c' (m' & b & Hb & Em & ->). split_and!; try done.
    + split; try done. by eexists.
    + eexists _, m'. split_and!; [simpl; set_solver|exact Em|done|done|]. intros _. by eexists.
  - unfold encrypt_commit_bytes. by edestruct sign_total as [sg ->].
Qed.

Lemma enter_prepared_spec c p :
  I (Core.backend c) → preprepare c = Some p →
  wp False Core.enter_prepared (λ _ c', (kin c c' ∧ I (Core.backend c') ∧ voted Commit (proposal_hash p) c') ∧
    Core.state c' = Prepared ∧ lock c' = Some (proposal_hash p) ∧ preprepare c' = Some p ∧
    prepares c' = prepares c ∧ commits c' = commits c) c.
Proof using All.
  intros HI Ep. unfold Core.enter_prepared. wp_step. apply wp_modify. wp_step. apply wp_modify.
  unfold RoundState.lock_hash. rewrite Ep.
  eapply wp_mono; [by apply send_commit_spec|]. intros [] c' (K & Hb & Hv & -> & ->).
  split_and!; try done. etrans; [|exact K]. split; try done. exists []. by rewrite app_nil_r.
Qed.

(** The outcome of a prepare vote: whether the quorum of [n] is there. *)
Definition prepared_by (p : PrePrepare.t) (n : nat) (c c' : Core.t B) : Prop :=
  if ImplValidatorSet.has_two_thirds_majority n (Core.validators c)
  then Core.state c' = Prepared ∧ lock c' = Some (proposal_hash p) ∧ voted Commit (proposal_hash p) c'
  else Core.state c' = Core.state c ∧ lock c' = lock c.

(** The tail of the handler: the second of the two conditions. *)
Lemma prepare_quorum_spec c p (n : nat) :
  core_inv c → I (Core.backend c) → preprepare c = Some p →
  n = size (voters (prepares c) ∪ voters (commits c)) →
  wp False (c ← gets (λ c, c);
    when (ImplValidatorSet.two_thirds_majority (Core.validators c) <?
          RoundState.get_prepare_or_commit_size (Core.current_state c))%nat Core.enter_prepared;;
    mret (Ok tt : ConsensusResult))
    (λ r c', r = Ok tt ∧ (kin c c' ∧ I (Core.backend c') ∧ preprepare c' = Some p ∧
      prepares c' = prepares c ∧ commits c' = commits c) ∧ prepared_by p n c c') c.
Proof using All.
  intros Hi HI Ep ->. wp_step. apply wp_gets. wp_step.
  rewrite prepare_or_commit_size_eq by apply (inv_prepares _ Hi).
  unfold prepared_by, ImplValidatorSet.has_two_thirds_majority.
  apply wp_when.
  - intros E%Nat.ltb_lt. eapply wp_mono; [by apply enter_prepared_spec|].
    intros [] c' ((K & Hb & Hv) & Hs & Hl & Hp & Hpr & Hcm). wp_step. split_and!; try done.
    destruct (Nat.leb_spec (ImplValidatorSet.two_thirds_majority (Core.validators c) + 1)
      (size (voters (prepares c) ∪ voters (commits c)))); [done|lia].
  - intros E%Nat.ltb_ge. wp_step. split_and!; try done.
    destruct (Nat.leb_spec (ImplValidatorSet.two_thirds_majority (Core.validators c) + 1)
      (size (voters (prepares c) ∪ voters (commits c)))); [lia|done].
Qed.

Lemma prepare_accept_shape m src c :
  GossipMessage.address m ∈ addresses (MessageManage.val_set (prepares c)) →
  ∃ mm, voters mm = voters (prepares c) ∪ {[GossipMessage.address m]} ∧
    Core.prepare_accept m src c =
      Ret (Ok tt, Core.with_current_state (RoundState.set_prepares mm (Core.current_state c)) c).
Proof using All.
  intros Ha. unfold Core.prepare_accept, mbind, M_mbind, M_bind, gets.
  destruct (manage_add_cases m (prepares c)) as [[_ E]|[Hn _]]; [|done]. rewrite E.
  eexists. split; [|done]. unfold voters. simpl. rewrite dom_insert_L. set_solver.
Qed.

(** What counting a prepare vote of [a] does. *)
Definition prepare_counted (p : PrePrepare.t) (s : Subject.t) (a : Address) (c c' : Core.t B) : Prop :=
  let n := size ((voters (prepares c) ∪ {[a]}) ∪ voters (commits c)) in
  (core_inv c' ∧ kin c c' ∧ I (Core.backend c') ∧ preprepare c' = Some p ∧
    voters (prepares c') = voters (prepares c) ∪ {[a]} ∧ commits c' = commits c) ∧
  (prepared_by p n c c' ∨
   ImplValidatorSet.has_two_thirds_majority n (Core.validators c) = false ∧
   lock c = Some (Subject.digest s) ∧ Core.state c' = Prepared).

Lemma prepare_handle_counts m src s p c :
  core_inv c → is_Some (GossipMessage.signature m) → from_bytes (GossipMessage.msg m) = Some s →
  Core.check_message Prepare (Subject.view s) c = Ok tt → Core.current_view c = Subject.view s →
  GossipMessage.address m ∈ addresses (Core.validators c) → preprepare c = Some p → I (Core.backend c) →
  ∃ c', Core.prepare_handle m src c = Ret (Ok tt, c') ∧
    prepare_counted p s (GossipMessage.address m) c c'.
Proof using All.
  intros Hi Hm Es Ec Ev Ha Ep HI. set (n := size ((voters (prepares c) ∪ {[GossipMessage.address m]}) ∪
    voters (commits c))).
  destruct (prepare_accept_shape m src c) as (mm & Hvot & Eacc).
  { rewrite (table_vals _ _ (inv_prepares _ Hi)). exact Ha. }
  set (c1 := Core.with_current_state _ c) in Eacc.
  assert (core_inv c1) as Hi1.
  { pose proof (prepare_accept_safe eq m src c Hi Hm) as Hw. unfold wp in Hw. rewrite Eacc in Hw. apply Hw. }
  assert (kin c c1) as K1 by (split; try done; exists []; by rewrite app_nil_r).
  assert (n = size (voters (prepares c1) ∪ voters (commits c1))) as Hn by (subst n; by rewrite <-Hvot).
  pose proof (prepare_handle_safe eq m src c Hi Hm) as Hsafe.
  enough (wp False (Core.prepare_handle m src) (λ r c', r = Ok tt ∧
    (kin c c' ∧ I (Core.backend c') ∧ preprepare c' = Some p ∧
      prepares c' = mm ∧ commits c' = commits c) ∧
    (prepared_by p n c c' ∨
      ImplValidatorSet.has_two_thirds_majority n (Core.validators c) = false ∧
      lock c = Some (Subject.digest s) ∧ Core.state c' = Prepared)) c) as Hw.
  { apply wp_total in Hw as (r & c' & E & -> & (K & Hb & Hp & Hpr & Hcm) & Hq). exists c'. split; [done|].
    unfold wp in Hsafe. rewrite E in Hsafe. unfold prepare_counted. rewrite Hpr.
    split; [|exact Hq]. by split_and!; [apply Hsafe|..]. }
  clear Hsafe. unfold Core.prepare_handle. rewrite Es. wp_step. apply wp_lift; [|done]. intros s' [= <-].
  wp_step. apply wp_gets. rewrite Ec. wp_step. apply wp_gets. unfold Core.verify_prepare.
  rewrite Ev. replace (View.eq _ _) with true by (symmetry; by apply View_eq_spec). cbn [negb].
  wp_step. unfold wp at 1. rewrite Eacc. wp_step. apply wp_gets. wp_step. apply wp_when.
  - intros El%bool_decide_eq_true.
    pose proof (enter_prepared_safe eq c1 Hi1 (ex_intro _ p Ep)) as Hs2.
    pose proof (enter_prepared_spec c1 p HI Ep) as Hs. unfold wp in Hs, Hs2 |- * at 1.
    destruct (Core.enter_prepared c1) as [[[] c2]|]; [|done].
    destruct Hs as ((K2 & Hb2 & _) & Es2 & _ & Ep2 & Epr & Ecm), Hs2 as (Hi2 & _).
    eapply wp_mono; [apply (prepare_quorum_spec c2 p n Hi2 Hb2 Ep2); by rewrite Epr, Ecm|].
    intros r c' (-> & (K3 & Hb3 & Ep3 & Epr3 & Ecm3) & Hq). unfold prepared_by in *.
    rewrite (kin_validators _ _ K2) in Hq. change (Core.validators c1) with (Core.validators c) in Hq.
    split_and!; try done.
    + etrans; [exact K1|]. by etrans.
    + by rewrite Epr3, Epr.
    + by rewrite Ecm3, Ecm.
    + destruct (ImplValidatorSet.has_two_thirds_majority _ _); [by left|right].
      destruct Hq as [Hq _]. rewrite Hq. by split_and!.
  - intros _. eapply wp_mono; [by apply (prepare_quorum_spec c1 p n)|].
    intros r c' (-> & (K3 & Hb3 & Ep3 & Epr3 & Ecm3) & Hq). split_and!; try done; [by etrans|by left].
Qed.
End votes.

(** C9 A prepare quorum locks: a prepare message of the current view is counted,
    and if the validators that sent a prepare or a commit are then more than
    two thirds, the node locks the proposal, is in [Prepared] and has
    gossiped a commit vote for it, whatever its state was: also a node that
    has committed goes back to [Prepared], from where the next commit vote
    makes it commit the block again. *)
Theorem prepare_quorum_locks (m : GossipMessage.t) (src : Validator.t) (s : Subject.t)
    (p : PrePrepare.t) (c : Core.t B) :
  core_inv c → is_Some (GossipMessage.signature m) → from_bytes (GossipMessage.msg m) = Some s →
  Core.check_message Prepare (Subject.view s) c = Ok tt → Core.current_view c = Subject.view s →
  GossipMessage.address m ∈ addresses (Core.validators c) → preprepare c = Some p →
  let n := size ((voters (prepares c) ∪ {[GossipMessage.address m]}) ∪ voters (commits c)) in
  ∃ c', Core.prepare_handle m src c = Ret (Ok tt, c') ∧ core_inv c' ∧
    if ImplValidatorSet.has_two_thirds_majority n (Core.validators c)
    then Core.state c' = Prepared ∧ lock c' = Some (proposal_hash p) ∧ voted Commit (proposal_hash p) c'
    else lock c = Some (Subject.digest s) ∨ (Core.state c' = Core.state c ∧ lock c' = lock c).
Proof using All.
  intros Hi Hm Es Ec Ev Ha Ep n.
  destruct (prepare_handle_counts (λ _, True) (λ _ _ _ _ _ _ _, I) m src s p c Hi Hm Es Ec Ev Ha Ep I)
    as (c' & E & (Hi' & _) & Hq). exists c'. split_and!; [done..|]. unfold prepared_by in Hq. fold n in Hq.
  destruct (ImplValidatorSet.has_two_thirds_majority n _); naive_solver.
Qed.
(** ** Timers *)

Lemma broadcast_shape m c :
  ∃ m' b, GossipMessage.code m' = GossipMessage.code m ∧ GossipMessage.msg m' = GossipMessage.msg m ∧
    Core.broadcast m c = Ret (tt, Core.with_backend b (Core.with_fx (Core.fx c ++ [FxGossip m']) c)).
Proof using All.
  unfold Core.broadcast, Core.finalize_message, GossipMessage.set_sign, mbind, M_mbind, M_bind, gets, lift.
  destruct (sign_total (GossipMessage.sign_digest (GossipMessage.set_address (Core.address c) m))
    (Core.keypair c)) as [sg ->]. simpl. unfold Core.on_backend.
  simpl.
  match goal with |- context [be_gossip ?vs ?m ?b0] => destruct (gossip_total vs m b0) as (r & b & E) end.
  rewrite E. eexists _, b. split; [|split]. 3: reflexivity. all: reflexivity.
Qed.

(** The effects of a vote for round [r > round c] at instant [now]. *)
Definition retried (c c' : Core.t B) : Prop :=
  let tm := Core.round_change_timer c' in
  let timers := [FxTimerStop (Timer.addr (Core.round_change_timer c)); FxTimerStart tm] in
  Timer.handle Timer.Interval tm = Timer.PostTimer ∧
  Core.current_state c' = Core.current_state c ∧ Core.state c' = Core.state c ∧
  if Clk.instant (Core.clk c) - Core.round_change_limiter c <=? 50 * 1000000
  then Core.fx c' = Core.fx c ++ timers
  else ∃ m s, Core.fx c' = Core.fx c ++ timers ++ [FxGossip m] ∧
    GossipMessage.code m = RoundChange ∧ from_bytes (GossipMessage.msg m) = Some s ∧
    View.height (Subject.view s) = height c ∧ round c < View.round (Subject.view s).

Lemma send_round_change_retries c r :
  Core.round_change_limiter c ≤ Clk.instant (Core.clk c) → round c < r →
  wp False (Core.send_round_change r) (λ _ c', retried c c') c.
Proof using All.
  intros Hl Hr. unfold Core.send_round_change, retried. wp_step. apply wp_gets. wp_step.
  apply wp_rassert; [intros _|intros E%Z.leb_gt; lia].
  destruct (_ <=? 50 * 1000000).
  { unfold Core.new_round_change_timer, Core.fresh_addr, Core.emit. wp_steps. simpl.
    split_and!; [done|done|done|]. by rewrite <-app_assoc. }
  wp_step. apply wp_modify. replace (round c <? r) with true by (symmetry; by apply Z.ltb_lt).
  cbn [when]. wp_step. unfold Core.catchup_round, Core.new_round_change_timer, Core.fresh_addr, Core.emit.
  wp_steps. simpl. unfold wp.
  match goal with |- context [Core.broadcast ?m ?c0] =>
    destruct (broadcast_shape m c0) as (m' & b & Ec & Em & ->) end.
  simpl. split_and!; [done|done|done|]. simpl in Ec, Em.
  eexists m', _. rewrite <-!app_assoc. split; [done|]. split; [done|].
  rewrite Em, from_into. split; [done|]. by split.
Qed.

(** C18 The protocol does not stall in a round: when the round-change timer
    fires while the node still waits for a block of its height, the handler
    returns, starts a new round-change timer that will fire again, and, if
    the last vote is more than 50 ms old, gossips a round-change vote for a
    round above the current one; when the chain has caught up it stops both
    timers. *)
Theorem timer_retries (c : Core.t B) (p : Proposal.t) (b : B) :
  be_last_proposal (Core.backend c) = Ret (Ok p, b) →
  Core.round_change_limiter c ≤ Clk.instant (Core.clk c) → round c + 1 < u64_bound →
  ∃ c', Core.handle_timer_event c = Ret (tt, c') ∧
    if height c <=? Block.height (Proposal.block p) then
      Core.fx c' = Core.fx c ++ [FxTimerStop (Timer.addr (Core.future_prepprepare_timer c));
                                 FxTimerStop (Timer.addr (Core.round_change_timer c))] ∧
      Core.wait_round_change c' = false
    else retried c c'.
Proof using All.
  intros Ep Hl Hu.
  assert (wp False Core.handle_timer_event (λ _ c',
    if height c <=? Block.height (Proposal.block p) then
      Core.fx c' = Core.fx c ++ [FxTimerStop (Timer.addr (Core.future_prepprepare_timer c));
                                 FxTimerStop (Timer.addr (Core.round_change_timer c))] ∧
      Core.wait_round_change c' = false
    else retried c c') c) as Hw.
  { unfold Core.handle_timer_event, Core.last_proposal. wp_step. wp_step.
    unfold wp at 1, Core.on_backend. rewrite Ep. wp_step. wp_step. apply wp_gets. simpl.
    destruct (height c <=? Block.height (Proposal.block p)).
    - unfold Core.stop_timer, Core.stop_future_preprepare_timer, Core.stop_round_change_timer, Core.emit.
      wp_steps. simpl. by rewrite <-app_assoc.
    - set (c1 := Core.with_backend b c).
      assert (∀ r, round c < r → wp False (Core.send_round_change r) (λ _ c', retried c c') c1) as Hs.
      { intros r Hr. exact (send_round_change_retries c1 r Hl Hr). }
      unfold Core.send_next_round_change. wp_step. apply wp_gets. cbv zeta. simpl. wp_step.
      + wp_step. apply wp_lift; [|intros E; by rewrite u64_add_fits in E].
        intros r [-> _]%u64_add_Ret. apply Hs. lia.
      + apply Hs. by apply Z.leb_gt. }
  apply wp_total in Hw as ([] & c' & E & Hq). eauto.
Qed.
End signing.

(** ** A panic *)

(** A new proposer without a request crashes: when a round change makes a node
    the proposer and it neither is locked nor has a pending request,
    [start_new_round] unwraps the missing request and panics. *)
Lemma new_proposer_without_request_panics (c : Core.t B) (r : Round) (pre : bytes) (p : Proposal.t)
    (b : B) (vals : ImplValidatorSet.t) :
  round c < r → r ≠ 0 →
  be_last_proposal (Core.backend c) = Ret (Ok p, b) →
  Block.height (Proposal.block p) + 1 = height c → height c < u64_bound →
  ImplValidatorSet.calc_proposer (Block.hash (Proposal.block p)) (Block.height (Proposal.block p)) r
    (Core.validators c) = Ret vals →
  ImplValidatorSet.is_proposer (Core.address c) vals = true →
  lock c = None → RoundState.pending_request (Core.current_state c) = None →
  Core.start_new_round r pre c = Panic.
Proof using All.
  intros Hr Hnz Ep Hh Hu Ecalc Hprop Hlock Hreq.
  unfold Core.start_new_round, Core.last_proposal, mbind, M_mbind, M_bind, rassert, gets, lift.
  replace (r =? 0) with false by (symmetry; by apply Z.eqb_neq). cbn [negb].
  replace (round c <? r) with true by (symmetry; by apply Z.ltb_lt).
  unfold Core.on_backend. rewrite Ep. cbn [mret M_mret]. unfold M_mret.
  rewrite u64_add_fits by lia. rewrite Hh, Z.ltb_irrefl. cbn [negb].
  replace (height c <? Block.height (Proposal.block p)) with false by (symmetry; apply Z.ltb_ge; lia).
  cbn [Core.validators Core.with_backend]. destruct (negb _); [|done].
  unfold modify, Core.update_round_state, Core.upd_current, modify. cbn [Core.with_round_change_set].
  unfold View.new. cbn [View.round]. simpl. rewrite Ecalc. simpl.
  unfold Core.propose_new_round, gets, M_mbind, M_bind, mbind. simpl. rewrite Hprop. simpl.
  unfold RoundState.is_locked. rewrite !Hlock. simpl. unfold M_mbind, M_bind, lift.
  rewrite Hreq. done.
Qed.
End core_live.
