(* ===== verification/Liveness.v ===== *)
(** * Progress of a round

    The validators of [Cluster] when nothing goes wrong: every correct
    validator handles the new header of a height, the proposer's
    pre-prepare, and the votes the correct validators gossip; then every one
    of them hands the proposer's block to its backend.  [Rounds] adds rounds
    without a proposal.  The backend is used
    through the interface [serves]; [Heights] shows that [ImplBackend]
    implements it, and runs one height after the other. *)

From S2P Require Import Prelude External Types Validators Protocol Wire RoundState Store Ledger Backend Core CoreProps CoreSafety CoreLive.

Section liveness.
Context {B : Type} `{BackendLaws B} `{CryptoKitLaws} `{CodecLaws} `{HashMapOrderLaws} `{BigInt}.
Abbreviation CM := (M (Core.t B)).
Implicit Types c : Core.t B.

Abbreviation height c := (RoundState.height (Core.current_state c)).
Abbreviation lock c := (RoundState.lock (Core.current_state c)).
Abbreviation preprepare c := (RoundState.preprepare (Core.current_state c)).
Abbreviation prepares c := (RoundState.prepares (Core.current_state c)).
Abbreviation commits c := (RoundState.commits (Core.current_state c)).
Abbreviation proposal_hash p := (Block.hash (Proposal.block (PrePrepare.proposal p))).

(** ** Messages that arrive *)

(** [payload] decodes to a message whose recovered signer is [a]. *)
Definition arrives_as (payload : bytes) (a : Address) (m : GossipMessage.t) : Prop :=
  ∃ m0, from_bytes payload = Some m0 ∧ GossipMessage.address_ m0 = (Ok a, m).

(** A vote of view [vw] signed by [a]; a commit carries a seal from which an
    address can be recovered. *)
Definition is_vote (code : MessageType) (vw : View.t) (a : Address) (payload : bytes) : Prop :=
  ∃ m s, arrives_as payload a m ∧ GossipMessage.code m = code ∧
    from_bytes (GossipMessage.msg m) = Some s ∧ Subject.view s = vw ∧
    (code = Commit → ∃ seal ok, GossipMessage.commit_seal m = Some seal ∧
       verify_address a seal (Subject.digest s) = Some ok).

(** The pre-prepare [q] signed by [a]. *)
Definition is_proposal (q : PrePrepare.t) (a : Address) (payload : bytes) : Prop :=
  ∃ m, arrives_as payload a m ∧ GossipMessage.code m = Preprepare ∧ from_bytes (GossipMessage.msg m) = Some q.

Lemma handle_message_dispatch payload a m c :
  arrives_as payload a m → a ∈ addresses (Core.validators c) →
  GossipMessage.address m = a ∧ is_Some (GossipMessage.signature m) ∧
  Core.handle_message payload c = Core.handle_check_message m (Validator.new a) c.
Proof using All.
  intros (m0 & Em & Ea) Ha. apply address_signed_msg in Ea as Hs. destruct Hs as [Hsig Hadd].
  split_and!; [done..|]. unfold Core.handle_message, mbind, M_mbind, M_bind, gets.
  assert (ImplValidatorSet.size (Core.validators c) ≠ 0)%nat as Hn.
  { unfold ImplValidatorSet.size. destruct (ImplValidatorSet.validators _); [by apply not_elem_of_nil in Ha|done]. }
  apply Nat.eqb_neq in Hn as ->. unfold lift. rewrite Em. simpl. rewrite Ea.
  rewrite get_by_address_spec, decide_True by done. done.
Qed.

(** A vote's result is never one that goes to the backlog. *)
Lemma handle_check_Ok m src c c' (h : CM ConsensusResult) :
  h = (match GossipMessage.code m with
       | Preprepare => Core.preprepare_handle m src | Prepare => Core.prepare_handle m src
       | Commit => Core.commit_handle m src | RoundChange => Core.round_change_handle m src end) →
  h c = Ret (Ok tt, c') → Core.handle_check_message m src c = Ret (Ok tt, c').
Proof. intros -> E. unfold Core.handle_check_message, mbind, M_mbind, M_bind. by rewrite E. Qed.

(** What a node has gossiped arrives as its vote. *)
Section authentic_votes.
(** A seal made by a key can be read. *)
Context (seal_readable : ∀ d sk seal a,
  encrypt_commit_bytes d sk = Ret seal → is_Some (verify_address a seal d)).

(** A message about a subject that the node has signed. *)
Lemma finalized_is_vote m m' sb c :
  Core.finalize_message m c = Ret m' → GossipMessage.msg m = into_bytes sb →
  (GossipMessage.code m = Commit → ∃ seal, encrypt_commit_bytes (Subject.digest sb) (Core.keypair c) = Ret seal ∧
    GossipMessage.commit_seal m = Some seal) →
  GossipMessage.code m' = GossipMessage.code m ∧ from_bytes (GossipMessage.msg m') = Some sb ∧
  is_vote (GossipMessage.code m) (Subject.view sb) (secret_address (Core.keypair c)) (into_bytes m').
Proof using All.
  intros Ef Em Es. unfold Core.finalize_message in Ef.
  pose proof (address_signed _ _ _ Ef) as Ha. apply set_sign_inv in Ef as (sg & Hsg & ->).
  simpl. rewrite Em, from_into. split_and!; [done..|]. eexists _, _. split.
  { eexists. split; [apply from_into|exact Ha]. }
  simpl. rewrite Em, from_into. split_and!; [done|done|done|]. intros E.
  destruct (Es E) as (seal & Eseal & Hseal).
  destruct (seal_readable _ _ seal (secret_address (Core.keypair c)) Eseal) as [ok Hok]. eauto.
Qed.

Lemma voted_is_vote code d c :
  voted code d c →
  ∃ m, FxGossip m ∈ Core.fx c ∧ GossipMessage.code m = code ∧
    from_bytes (GossipMessage.msg m) = Some (Subject.mk (Core.current_view c) d) ∧
    is_vote code (Core.current_view c) (secret_address (Core.keypair c)) (into_bytes m).
Proof using All.
  intros (m & m' & Hin & Ef & <- & Em & Es). exists m'. split; [done|]. by eapply finalized_is_vote.
Qed.
End authentic_votes.

(** ** The backend of a height *)

(** [I] holds of the backend until the block is committed: it knows a last
    block with the hash and the height of [last], and the validators, accepts
    proposal [p], and can commit it, after which [J] holds with the seals. *)
Record serves (I : B → Prop) (J : list Signature → B → Prop) (v0 : ImplValidatorSet.t) (last p : Proposal.t) :
    Prop := {
  sv_gossip : ∀ vs m b r b', I b → be_gossip vs m b = Ret (r, b') → I b';
  sv_last : ∀ b, I b → ∃ lp b', be_last_proposal b = Ret (Ok lp, b') ∧ I b' ∧
    Block.hash (Proposal.block lp) = Block.hash (Proposal.block last) ∧
    Block.height (Proposal.block lp) = Block.height (Proposal.block last);
  sv_validators : ∀ b, I b → be_validators (Block.height (Proposal.block last) + 1) b = v0;
  sv_verify : ∀ b, I b → ∃ d b', be_verify p b = Ret ((d, Ok tt), b') ∧ I b';
  sv_commit : ∀ b seals, I b → ∃ r b', be_commit p seals b = Ret (r, b') ∧ J seals b'
}.

(** ** One validator *)

Section node.
Context (sign_total : ∀ h sk, is_Some (hash_sign h sk)).
Context (I : B → Prop) (J : list Signature → B → Prop) (v0 : ImplValidatorSet.t) (last : Proposal.t).
(** The height's view, its validators with the proposer chosen, and the
    pre-prepare as it is received. *)
Context (vw : View.t) (vs : ImplValidatorSet.t) (q : PrePrepare.t).
Context (Hserves : serves I J v0 last (PrePrepare.proposal q)).
Context (Hheight : View.height vw ≠ 0) (Hview : View.height (PrePrepare.view q) = View.height vw).

Abbreviation quorum X := (ImplValidatorSet.has_two_thirds_majority (size (X : gset Address)) vs = true).

Record at_height (a : Address) (c : Core.t B) : Prop := {
  ah_inv : core_inv c;
  ah_self : Core.address c = a ∧ secret_address (Core.keypair c) = a;
  ah_view : Core.current_view c = vw;
  ah_vals : Core.validators c = vs
}.

(** Waiting for the proposal. *)
Record ready (a : Address) (c : Core.t B) : Prop := {
  rd_at : at_height a c;
  rd_state : Core.state c = AcceptRequest;
  rd_lock : lock c = None;
  rd_prepares : voters (prepares c) = ∅;
  rd_commits : voters (commits c) = ∅;
  rd_backend : I (Core.backend c)
}.

(** The proposal is accepted, and prepares are counted. *)
Record preparing (a : Address) (c : Core.t B) : Prop := {
  pr_at : at_height a c;
  pr_state : Core.state c = PrePrepared ∨ Core.state c = Prepared;
  pr_proposal : preprepare c = Some q;
  pr_commits : voters (commits c) = ∅;
  pr_backend : I (Core.backend c);
  pr_voted : voted Prepare (proposal_hash q) c;
  pr_quorum : quorum (voters (prepares c)) → voted Commit (proposal_hash q) c
}.

(** Commits are counted. *)
Record committing (a : Address) (c : Core.t B) : Prop := {
  cm_at : at_height a c;
  cm_state : Core.state c ≠ AcceptRequest;
  cm_proposal : preprepare c = Some q;
  cm_backend : Core.state c = Committed ∨ I (Core.backend c);
  cm_done : Core.state c = Committed → ∃ seals, FxCommit (PrePrepare.proposal q) seals ∈ Core.fx c ∧
    ImplValidatorSet.has_two_thirds_majority (length seals) vs = true ∧ J seals (Core.backend c);
  cm_quorum : quorum (voters (commits c)) → Core.state c = Committed
}.

Lemma no_quorum : ¬ quorum ∅.
Proof.
  unfold ImplValidatorSet.has_two_thirds_majority. rewrite size_empty, Nat.leb_le. lia.
Qed.

Lemma kin_at_height a c c' : kin c c' → core_inv c' → at_height a c → at_height a c'.
Proof.
  intros K Hi [? [Ea Es] ? ?]. destruct (kin_self _ _ K) as [E1 E2].
  split; [done|by rewrite E1, E2|by rewrite (kin_view _ _ K)|by rewrite (kin_validators _ _ K)].
Qed.

Lemma check_message_passes code w c :
  View.height w = View.height vw → Core.current_view c = vw → Core.state c ≠ AcceptRequest ∨ code = Preprepare →
  Core.check_message code w c = Ok tt.
Proof using Hheight.
  intros Ew Ev Hs. unfold Core.check_message. apply (f_equal View.height) in Ev as Eh. simpl in Eh.
  rewrite Ew, Eh. apply Z.eqb_neq in Hheight as ->. rewrite Z.ltb_irrefl.
  destruct Hs as [Hs| ->]; simpl; [rewrite bool_decide_false with (P := Core.state c = _) by done|];
    by repeat case_bool_decide.
Qed.

(** The proposer's message is accepted and answered with a prepare vote. *)
Lemma hears_proposal a a0 payload c :
  ready a c → is_proposal q a0 payload → a0 ∈ addresses vs → ImplValidatorSet.is_proposer a0 vs = true →
  wp False (Core.handle_message payload) (λ _ c', preparing a c') c.
Proof using All.
  intros [Hat Hst Hl Hpr Hcm HI] (m & Harr & Ecode & Eq) Ha Hprop. pose proof (ah_vals _ _ Hat) as Evs.
  destruct (handle_message_dispatch payload a0 m c Harr) as (Eadd & Hsig & Edisp); [by rewrite Evs|].
  pose proof (preprepare_handle_safe eq m (Validator.new a0) c (ah_inv _ _ Hat) Hsig) as Hsafe.
  enough (wp False (Core.preprepare_handle m (Validator.new a0)) (λ r c', r = Ok tt ∧
    kin c c' ∧ Core.state c' = PrePrepared ∧ preprepare c' = Some q ∧ prepares c' = prepares c ∧
    commits c' = commits c ∧ I (Core.backend c') ∧ voted Prepare (proposal_hash q) c') c) as Hw.
  { apply wp_total in Hw as (r & c' & E & -> & K & Hs' & Ep & Epr & Ecm & HI' & Hv).
    unfold wp. rewrite Edisp, (handle_check_Ok m _ c c' _ eq_refl) by (rewrite Ecode; exact E).
    unfold wp in Hsafe. rewrite E in Hsafe. destruct Hsafe as [Hi' _].
    split; [by eapply kin_at_height|by left|done|by rewrite Ecm|done|done|].
    rewrite Epr, Hpr. by intros ?%no_quorum. }
  clear Hsafe Edisp. unfold Core.preprepare_handle. rewrite Eq. wp_step. apply wp_lift; [|done].
  intros ? [= <-]. wp_step. apply wp_gets.
  rewrite (check_message_passes Preprepare (PrePrepare.view q) c) by (try apply Hat; auto).
  wp_step. wp_step. wp_step. apply wp_gets. simpl. rewrite Evs, Hprop. cbn [negb]. wp_step.
  unfold wp at 1, Core.on_backend. destruct (sv_verify _ _ _ _ _ Hserves _ HI) as (d & b' & -> & HI').
  wp_step. unfold Core.preprepare_on_valid. wp_step. apply wp_gets. cbn [Core.state Core.with_backend].
  rewrite Hst, bool_decide_true by done. cbn [when]. unfold RoundState.get_lock_hash. simpl. rewrite Hl.
  wp_step. unfold Core.preprepare_accetp, Core.upd_current. wp_step. apply wp_modify. apply wp_modify.
  wp_step. apply wp_modify. unfold Core.send_prepare. wp_step. apply wp_gets. simpl.
  wp_step. apply wp_lift; [|done]. intros sb [= <-].
  eapply wp_mono; [by apply (broadcast_sends sign_total I (sv_gossip _ _ _ _ _ Hserves))|].
  intros [] c2 (m' & b2 & HI2 & Em & ->). wp_step. simpl. split_and!; try done.
  - split; try done. by eexists.
  - eexists _, m'. split_and!; [simpl; set_solver|exact Em|done|done|done].
Qed.

Lemma quorum_mono (X Y : gset Address) : X ⊆ Y → quorum X → quorum Y.
Proof.
  unfold ImplValidatorSet.has_two_thirds_majority. rewrite !Nat.leb_le. intros ?%subseteq_size. lia.
Qed.

Lemma hears_prepare a b payload c :
  preparing a c → is_vote Prepare vw b payload → b ∈ addresses vs →
  wp False (Core.handle_message payload)
    (λ _ c', preparing a c' ∧ voters (prepares c') = voters (prepares c) ∪ {[b]}) c.
Proof using All.
  intros [Hat Hst Hp Hcm HI Hv Hq] (m & s & Harr & Ecode & Es & Evw & _) Hb.
  pose proof (ah_vals _ _ Hat) as Evs. pose proof (ah_view _ _ Hat) as Ev.
  destruct (handle_message_dispatch payload b m c Harr) as (Eadd & Hsig & Edisp); [by rewrite Evs|].
  destruct (prepare_handle_counts sign_total I (sv_gossip _ _ _ _ _ Hserves) m (Validator.new b) s q c)
    as (c' & E & (Hi' & K & HI' & Ep' & Epr & Ecm) & Hout); try done.
  { apply Hat. }
  { apply check_message_passes; [by rewrite Evw|done|]. left. by destruct Hst as [-> | ->]. }
  { by rewrite Ev. }
  { by rewrite Eadd, Evs. }
  unfold wp. rewrite Edisp, (handle_check_Ok m _ c c' _ eq_refl) by (rewrite Ecode; exact E).
  rewrite Eadd in *. split; [|done]. split; try done.
  - by eapply kin_at_height.
  - unfold prepared_by in Hout. destruct Hout as [Hout|(_ & _ & ->)]; [|by right].
    destruct (ImplValidatorSet.has_two_thirds_majority _ (Core.validators c)); destruct Hout as [-> _]; auto.
  - by rewrite Ecm.
  - by eapply voted_kin.
  - rewrite Epr. intros Q. unfold prepared_by in Hout. rewrite Evs in Hout.
    assert (quorum ((voters (prepares c) ∪ {[b]}) ∪ voters (commits c))) as Q'
      by (eapply quorum_mono; [|exact Q]; set_solver).
    rewrite Q' in Hout. by destruct Hout as [(_ & _ & ?)|[? _]].
Qed.

Lemma hears_commit a b payload c :
  committing a c → is_vote Commit vw b payload → b ∈ addresses vs →
  wp False (Core.handle_message payload)
    (λ _ c', committing a c' ∧ voters (commits c') = voters (commits c) ∪ {[b]}) c.
Proof using All.
  intros [Hat Hst Hp HI Hdone Hq] (m & s & Harr & Ecode & Es & Evw & Hseal) Hb.
  destruct (Hseal eq_refl) as (seal & ok & Eseal & Eok).
  pose proof (ah_vals _ _ Hat) as Evs. pose proof (ah_view _ _ Hat) as Ev.
  destruct (handle_message_dispatch payload b m c Harr) as (Eadd & Hsig & Edisp); [by rewrite Evs|].
  destruct (commit_handle_counts m (Validator.new b) s seal ok c)
    as (c' & E & (Hi' & S' & Evs' & Ep') & Hvot & Hd); try done; [apply Hat|..].
  { apply check_message_passes; [by rewrite Evw|done|by left]. }
  { by rewrite Eadd. }
  { by rewrite Eadd, Evs. }
  { intros Hlt p seals Ep. rewrite Hp in Ep. injection Ep as <-.
    destruct (sv_commit _ _ _ _ _ Hserves (Core.backend c) seals) as (r & b' & ? & _); [|eauto].
    destruct HI as [Hc|?]; [by rewrite Hc in Hlt|done]. }
  unfold wp. rewrite Edisp, (handle_check_Ok m _ c c' _ eq_refl) by (rewrite Ecode; exact E).
  rewrite Eadd in *. split; [|done]. unfold decided in Hd. rewrite Evs in Hd.
  assert (kin c c') as K.
  { split; [apply S'| |done|by destruct (ok_fx _ _ _ S') as (l & El & _); eauto].
    unfold Core.current_view. by rewrite (ok_height _ _ _ S'), <-(ok_round _ _ _ S'). }
  assert (Core.state c = Committed → Core.state c' = Committed) as Hc'.
  { intros Hc. rewrite Hc in Hd. rewrite andb_false_r in Hd. destruct Hd as [-> _]. done. }
  split; [by eapply kin_at_height| |by rewrite Ep'| | |].
  - destruct (_ && _); destruct Hd as [-> _]; done.
  - destruct (_ && _); [by left; destruct Hd as [-> _]|]. destruct Hd as (-> & _ & ->). done.
  - intros Hc. destruct (_ && _) eqn:Q.
    + apply andb_true_iff in Q as [Q Hlt]. destruct Hd as (_ & p & seals & Ep & -> & Els & r & Eb).
      rewrite Hp in Ep. injection Ep as <-. exists seals. rewrite Els. split_and!; [set_solver|exact Q|].
      destruct (sv_commit _ _ _ _ _ Hserves (Core.backend c) seals) as (r' & b' & Eb' & HJ).
      { destruct HI as [Hc0|?]; [by rewrite Hc0 in Hlt|done]. }
      rewrite Eb in Eb'. by injection Eb' as _ <-.
    + destruct Hd as (Es1 & -> & ->). apply Hdone. by rewrite <-Es1.
  - rewrite Hvot. intros Q. rewrite Q in Hd. destruct (State_lt (Core.state c) Committed) eqn:El; cbn [andb] in Hd.
    + by destruct Hd as [-> _].
    + apply Hc'. by destruct (Core.state c).
Qed.

(** *** Lists of votes *)

Fixpoint hear (l : list bytes) : CM unit :=
  match l with
  | [] => mret tt
  | payload :: l' => run_event (EvMessage payload);; hear l'
  end.

Lemma is_vote_signer code b b' payload : is_vote code vw b payload → is_vote code vw b' payload → b = b'.
Proof.
  intros (m & ? & (m0 & Em & Ea) & _) (m' & ? & (m0' & Em' & Ea') & _). congruence.
Qed.

(** Handling votes one by one collects their signers. *)
Lemma hear_votes (P : Core.t B → Prop) (table : Core.t B → MsgTable) code l c :
  (∀ b payload c, P c → is_vote code vw b payload → b ∈ addresses vs →
    wp False (Core.handle_message payload)
      (λ _ c', P c' ∧ voters (table c') = voters (table c) ∪ {[b]}) c) →
  Forall (λ payload, ∃ b, b ∈ addresses vs ∧ is_vote code vw b payload) l → P c →
  wp False (hear l) (λ _ c', P c' ∧ voters (table c) ⊆ voters (table c') ∧
    ∀ b payload, payload ∈ l → is_vote code vw b payload → b ∈ voters (table c')) c.
Proof using All.
  intros Hstep Hl. revert c. induction Hl as [|payload l (b & Hb & Hv) _ IH]; intros c HP; simpl.
  { wp_step. split_and!; [done|done|]. by intros ? ? ?%not_elem_of_nil. }
  wp_step. unfold Core.handle_message_event. wp_step. eapply wp_mono; [by apply (Hstep b)|].
  intros r c1 [HP1 Et1]. wp_step. eapply wp_mono; [by apply IH|]. intros [] c2 (HP2 & Hsub & Hall).
  split_and!; [done|set_solver|]. intros b' x [->|Hx]%elem_of_cons Hx'; [|by eapply Hall].
  rewrite <-(is_vote_signer _ _ _ _ Hv Hx'). set_solver.
Qed.

Lemma hears_prepares a l c :
  preparing a c → Forall (λ payload, ∃ b, b ∈ addresses vs ∧ is_vote Prepare vw b payload) l →
  wp False (hear l) (λ _ c', preparing a c' ∧
    ∀ b payload, payload ∈ l → is_vote Prepare vw b payload → b ∈ voters (prepares c')) c.
Proof using All.
  intros Hp Hl. eapply wp_mono.
  { apply (hear_votes (preparing a) (λ c, prepares c) Prepare); [|done|done].
    intros b payload c1 Hp1 Hv Hb. by apply hears_prepare. }
  intros [] c' (? & _ & ?). done.
Qed.

Lemma hears_commits a l c :
  committing a c → Forall (λ payload, ∃ b, b ∈ addresses vs ∧ is_vote Commit vw b payload) l →
  wp False (hear l) (λ _ c', committing a c' ∧
    ∀ b payload, payload ∈ l → is_vote Commit vw b payload → b ∈ voters (commits c')) c.
Proof using All.
  intros Hp Hl. eapply wp_mono.
  { apply (hear_votes (committing a) (λ c, commits c) Commit); [|done|done].
    intros b payload c1 Hp1 Hv Hb. by apply hears_commit. }
  intros [] c' (? & _ & ?). done.
Qed.

Lemma preparing_committing a c : preparing a c → committing a c.
Proof using All.
  intros [Hat Hst Hp Hcm HI _ _]. split; try done.
  - by destruct Hst as [-> | ->].
  - by right.
  - by destruct Hst as [-> | ->].
  - rewrite Hcm. by intros ?%no_quorum.
Qed.
End node.

(** *** Proposing *)

(** The proposer among [ws] has gossiped its candidate for the view. *)
Definition proposed (vw : View.t) (ws : ImplValidatorSet.t) (a : Address) (r : Proposal.t) (c : Core.t B) : Prop :=
  ImplValidatorSet.is_proposer a ws = true →
  ∃ m, FxGossip m ∈ Core.fx c ∧ is_proposal (PrePrepare.wire (PrePrepare.new vw r)) a (into_bytes m).

Lemma framed_kin P c c' : framed P c c' → kin c c'.
Proof.
  intros [? Ev Ec ? ? ? (l & ? & _)]. split; [done| |done|by exists l]. unfold Core.current_view. by rewrite Ec.
Qed.

Section proposing.
Context (sign_total : ∀ h sk, is_Some (hash_sign h sk)).
Context (I : B → Prop) (I_gossip : ∀ vs m b r b', I b → be_gossip vs m b = Ret (r, b') → I b').

Lemma send_preprepare_sends a r c :
  I (Core.backend c) → Core.address c = a → secret_address (Core.keypair c) = a → be_address (Core.backend c) = a →
  height c = Block.height (Proposal.block r) →
  wp False (Core.send_preprepare (Request.new r)) (λ _ c', I (Core.backend c') ∧
    proposed (Core.current_view c) (Core.validators c) a r c') c.
Proof using All.
  intros HI Ea Ek Eb Hr. unfold Core.send_preprepare. wp_step. apply wp_gets. simpl.
  unfold Core.is_proposer. simpl. rewrite Eb, Hr, Z.eqb_refl. cbn [andb].
  apply wp_when; [intros Hp|intros Hp; split; [done|]; unfold proposed; by rewrite Hp].
  eapply wp_mono; [by apply (broadcast_sends sign_total I I_gossip)|].
  intros [] c2 (m & b & Hb & Em & ->). split; [done|].
  intros _. unfold Core.finalize_message in Em. simpl in Em. rewrite Ea in Em.
  apply address_signed in Em as Ead. apply set_sign_inv in Em as (sg & _ & ->). rewrite Ek in Ead.
  eexists. split; [simpl; apply elem_of_app; right; by left|].
  eexists. split; [eexists; split; [apply from_into|exact Ead]|].
  split; [done|]. simpl. by rewrite from_into.
Qed.
End proposing.

(** ** The beginning of a height *)

Section new_height.
Context (sign_total : ∀ h sk, is_Some (hash_sign h sk)).
Context (I : B → Prop) (J : list Signature → B → Prop) (v0 vs : ImplValidatorSet.t) (last p : Proposal.t).
Context (Hserves : serves I J v0 last p).

Abbreviation next := (Block.height (Proposal.block last) + 1).
Abbreviation vw0 := (View.new next 0).

Context (Hlast : 0 ≤ Block.height (Proposal.block last)) (Hnext : next < u64_bound).
Context (Hcalc : ImplValidatorSet.calc_proposer (Block.hash (Proposal.block last))
  (Block.height (Proposal.block last)) 0 v0 = Ret vs).

(** A validator that joins the height, in whatever state it left the last. *)
Record joins (a : Address) (c : Core.t B) : Prop := {
  jn_inv : core_inv c;
  jn_self : Core.address c = a ∧ secret_address (Core.keypair c) = a ∧ be_address (Core.backend c) = a;
  jn_member : a ∈ addresses v0;
  jn_backend : I (Core.backend c)
}.

Lemma start_new_zero_round_ready a c :
  joins a c →
  wp False Core.start_new_zero_round (λ _ c', ready I vw0 vs a c' ∧ be_address (Core.backend c') = a ∧
    height c' = next ∧ RoundChangeSet.round_changes (Core.round_change_set c') = ∅) c.
Proof using All.
  intros [Hi (Ea & Ek & Eb) Hmem HI].
  enough (wp False Core.start_new_zero_round (λ _ c',
    (Core.address c' = a ∧ secret_address (Core.keypair c') = a ∧ Core.validators c' = vs ∧
    Core.current_view c' = vw0 ∧ voters (prepares c') = ∅ ∧ voters (commits c') = ∅) ∧
    I (Core.backend c') ∧ be_address (Core.backend c') = a ∧ height c' = next ∧
    RoundChangeSet.round_changes (Core.round_change_set c') = ∅) c) as Hw.
  { eapply wp_mono; [apply (wp_conj False _ _ _ _ (start_new_zero_round_spec c (inv_timers _ Hi)) Hw)|].
    intros [] c' [(Hi' & Hs & _ & Hl & _) ((E1 & E2 & E3 & E4 & E5 & E6) & HI' & E7)].
    split; [|done]. by split. }
  unfold Core.start_new_zero_round, Core.last_proposal. wp_step. wp_step. unfold wp at 1, Core.on_backend.
  destruct (sv_last _ _ _ _ _ Hserves _ HI) as (lp & b' & Elast & HI' & Elh & Elt).
  rewrite Elast. wp_step.
  destruct (last_proposal_stable _ _ _ Elast) as [Eb' _].
  rewrite Elt. wp_step. apply wp_lift; [|intros E; by rewrite u64_add_fits in E]. intros n [-> _]%u64_add_Ret.
  wp_step. apply wp_gets. simpl. rewrite (sv_validators _ _ _ _ _ Hserves _ HI').
  wp_step. apply wp_modify. wp_step. apply wp_modify. wp_step. apply wp_rassert; cycle 1.
  { intros E. destruct (ImplValidatorSet.validators v0) eqn:Ev; [by apply not_elem_of_nil in Hmem|].
    unfold ImplValidatorSet.size in E. by rewrite Ev in E. }
  intros _. wp_step. apply wp_modify. wp_step. simpl. rewrite Elh, Hcalc. apply wp_lift; [|done]. intros ? [= <-].
  unfold Core.new_round_change_timer, Core.fresh_addr, Core.set_state, Core.emit. wp_steps. simpl.
  rewrite Eb'. unfold voters. simpl. rewrite dom_empty_L. by split_and!.
Qed.

Lemma request_proposed a r c :
  ready I vw0 vs a c → be_address (Core.backend c) = a → Block.height (Proposal.block r) = next → height c = next →
  wp False (Core.request_handle (Request.new r)) (λ _ c', kin c c' ∧ I (Core.backend c') ∧
    be_address (Core.backend c') = a ∧
    Core.state c' = AcceptRequest ∧ lock c' = None ∧ prepares c' = prepares c ∧ commits c' = commits c ∧
    RoundState.pending_request (Core.current_state c') = Some (Request.new r) ∧
    Core.round_change_set c' = Core.round_change_set c ∧ proposed vw0 vs a r c') c.
Proof using All.
  intros [[Hi [Ea Ek] Ev Evs] Hst Hl Hpr Hcm HI] Eb Hr Eh.
  unfold Core.request_handle. wp_step. apply wp_gets. unfold Core.check_request_message. simpl.
  rewrite Hr, Eh. replace (next =? 0) with false by (symmetry; apply Z.eqb_neq; lia). rewrite !Z.ltb_irrefl.
  wp_step. apply wp_gets. wp_step. apply wp_rassert; [intros _|by rewrite bool_decide_true].
  wp_step. apply wp_modify. wp_step.
  set (c1 := Core.with_current_state _ c).
  assert (kin c c1) as K1 by (split; try done; exists []; by rewrite app_nil_r).
  eapply wp_mono; [eapply wp_conj; [apply (send_preprepare_framed (Request.new r) c1)|
    apply (send_preprepare_sends sign_total I (sv_gossip _ _ _ _ _ Hserves) a r c1); try done; by rewrite Hr]|].
  intros [] c2 [Hf [HI2 Hp2]]. wp_step. rewrite (fr_current _ _ _ Hf), (fr_rcs _ _ _ Hf), (fr_state _ _ _ Hf).
  destruct (fr_backend _ _ _ Hf) as [Eb2 _].
  split_and!; try done.
  - etrans; [exact K1|]. by eapply framed_kin.
  - by rewrite Eb2.
  - intros Hpr'. replace vw0 with (Core.current_view c1) by exact Ev. apply Hp2. simpl. by rewrite Evs.
Qed.

(** Waiting for a proposal with a candidate of its own; no round above [k]
    was asked for. *)
Record idle (vw : View.t) (ws : ImplValidatorSet.t) (k : Round) (r : Proposal.t) (a : Address) (c : Core.t B) : Prop := {
  id_ready : ready I vw ws a c;
  id_self : be_address (Core.backend c) = a;
  id_pending : RoundState.pending_request (Core.current_state c) = Some (Request.new r);
  id_rounds : ∀ j mm, RoundChangeSet.round_changes (Core.round_change_set c) !! j = Some mm → j ≤ k
}.

Lemma new_header_ready a r c :
  joins a c → Block.height (Proposal.block r) = next →
  wp False (Core.handle_new_header r) (λ _ c', idle vw0 vs 0 r a c' ∧ proposed vw0 vs a r c') c.
Proof using All.
  intros Hj Hr. unfold Core.handle_new_header. wp_step.
  eapply wp_mono; [by apply start_new_zero_round_ready|]. intros [] c1 (Hrd & Eb & Eh & Ercs).
  pose proof (request_handle_safe (Request.new r) c1 (ah_inv _ _ _ _ (rd_at _ _ _ _ _ Hrd))) as Hsafe.
  eapply wp_mono; [eapply wp_conj; [exact Hsafe|by apply (request_proposed a)]|].
  intros x c2 [[Hi2 _] (K & HI & Eb2 & Hs & Hl & Epr & Ecm & Epend & Er & Hprop)]. split; [|done].
  destruct Hrd as [Hat ? ? Hpr Hcm ?]. split; [split; try done|done|done|].
  - by eapply kin_at_height.
  - by rewrite Epr.
  - by rewrite Ecm.
  - rewrite Er, Ercs. intros j mm. by rewrite lookup_empty.
Qed.
End new_height.

(** ** All validators *)

Section together.
Context (sign_total : ∀ h sk, is_Some (hash_sign h sk)).
Context (seal_readable : ∀ d sk seal a,
  encrypt_commit_bytes d sk = Ret seal → is_Some (verify_address a seal d)).
Abbreviation cluster := (gmap Address (Core.t B)).
Implicit Types C : cluster.

(** Every validator of the cluster runs [f]; one that panics is gone. *)
Definition each (f : Address → CM unit) (C : cluster) : cluster :=
  map_imap (λ a c, match f a c with Ret (_, c') => Some c' | Panic => None end) C.

Lemma each_wp f C (P Q : Address → Core.t B → Prop) :
  (∀ a c, C !! a = Some c → P a c) →
  (∀ a c, a ∈ dom C → P a c → wp False (f a) (λ _ c', Q a c') c) →
  dom (each f C) = dom C ∧ ∀ a c', each f C !! a = Some c' → Q a c'.
Proof.
  intros HP Hf. assert (∀ a c, C !! a = Some c → ∃ c', each f C !! a = Some c' ∧ Q a c') as He.
  { intros a c Ea. assert (a ∈ dom C) as Hd by by apply elem_of_dom_2 in Ea.
    pose proof (Hf a c Hd (HP a c Ea)) as Hw. unfold each, wp in *. rewrite map_lookup_imap, Ea. simpl.
    destruct (f a c) as [[[] c']|]; [|done]. eauto. }
  split.
  - apply set_eq. intros a. rewrite !elem_of_dom. split.
    + intros [c' E]. unfold each in E. rewrite map_lookup_imap in E. by destruct (C !! a).
    + intros [c Ea]. destruct (He a c Ea) as (c' & -> & _). eauto.
  - intros a c' E. destruct (C !! a) as [c|] eqn:Ea; cycle 1.
    { unfold each in E. by rewrite map_lookup_imap, Ea in E. }
    destruct (He a c Ea) as (c2 & E2 & HQ). congruence.
Qed.

(** What the network hands out, a list of payloads for each validator: votes
    of the view signed by validators, in any order and as often as it likes,
    among them all that the validators of the cluster have gossiped. *)
Definition delivers (v0 : ImplValidatorSet.t) (vw : View.t) (code : MessageType)
    (ms : Address → list bytes) C : Prop :=
  ∀ a, a ∈ dom C →
    Forall (λ payload, ∃ b, b ∈ addresses v0 ∧ is_vote code vw b payload) (ms a) ∧
    ∀ b c m s, C !! b = Some c → FxGossip m ∈ Core.fx c → GossipMessage.code m = code →
      from_bytes (GossipMessage.msg m) = Some s → Subject.view s = vw → into_bytes m ∈ ms a.

(** The votes of the whole cluster are among those delivered. *)
Lemma delivered_all v0 vw code d ms C a b c :
  delivers v0 vw code ms C → a ∈ dom C → C !! b = Some c → secret_address (Core.keypair c) = b →
  Core.current_view c = vw → voted code d c →
  ∃ payload, payload ∈ ms a ∧ is_vote code vw b payload.
Proof using All.
  intros Hd Ha Eb Ek Ev Hv. destruct (voted_is_vote seal_readable code d c Hv) as (m & Hin & Ec & Em & Hvote).
  rewrite Ev, Ek in *. exists (into_bytes m). split; [|done]. destruct (Hd a Ha) as [_ Hd']. by eapply Hd'.
Qed.

(** *** The phases of a height *)

Section phases.
Context (I : Address → B → Prop) (J : Address → list Signature → B → Prop).
Context (v0 vs : ImplValidatorSet.t) (last : Proposal.t) (vw : View.t) (q : PrePrepare.t).
Context (Hserves : ∀ a, serves (I a) (J a) v0 last (PrePrepare.proposal q)).
Context (Hheight : View.height vw ≠ 0) (Hview : View.height (PrePrepare.view q) = View.height vw).
Context (Hvs : ImplValidatorSet.validators vs = ImplValidatorSet.validators v0).

Lemma delivers_votes code ms C a :
  delivers v0 vw code ms C → a ∈ dom C →
  Forall (λ payload, ∃ b, b ∈ addresses vs ∧ is_vote code vw b payload) (ms a).
Proof using Hvs. intros Hd Ha. rewrite Hvs. by apply Hd. Qed.

(** A validator that has counted what was delivered has a quorum. *)
Lemma delivered_quorum code d ms C a (X : gset Address) :
  delivers v0 vw code ms C → a ∈ dom C →
  (∀ b c, C !! b = Some c → at_height vw vs b c ∧ voted code d c) →
  (∀ b payload, payload ∈ ms a → is_vote code vw b payload → b ∈ X) →
  ImplValidatorSet.has_two_thirds_majority (size (dom C)) v0 = true →
  ImplValidatorSet.has_two_thirds_majority (size X) vs = true.
Proof using All.
  intros Hd Ha HC Hall Hmaj. apply (quorum_mono vs (dom C)); [|by rewrite (majority_vals _ v0)].
  intros b [cb Eb]%elem_of_dom. destruct (HC b cb Eb) as [[_ [_ Ek] Ev _] Hv].
  destruct (delivered_all v0 vw code d ms C a b cb) as (x & Hx & Hvx); eauto.
Qed.

Lemma prepare_phase ms C :
  delivers v0 vw Prepare ms C → ImplValidatorSet.has_two_thirds_majority (size (dom C)) v0 = true →
  (∀ a c, C !! a = Some c → preparing (I a) vw vs q a c) →
  dom (each (λ a, hear (ms a)) C) = dom C ∧
  ∀ a c, each (λ a, hear (ms a)) C !! a = Some c →
    preparing (I a) vw vs q a c ∧ voted Commit (proposal_hash q) c.
Proof using All.
  intros Hd Hmaj HC. apply (each_wp _ C _ (λ a c, preparing (I a) vw vs q a c ∧ _ c) HC). intros a c Ha Hr.
  eapply wp_mono; [by apply (hears_prepares sign_total (I a) (J a) v0 last vw vs q); [..|eapply delivers_votes]|].
  intros [] c' [Hp Hall]. split; [done|]. apply (pr_quorum _ _ _ _ _ _ Hp).
  eapply (delivered_quorum Prepare (proposal_hash q) ms C a); try done.
  intros b cb Eb. split; apply (HC b cb Eb).
Qed.

Lemma commit_phase ms C :
  delivers v0 vw Commit ms C → ImplValidatorSet.has_two_thirds_majority (size (dom C)) v0 = true →
  (∀ a c, C !! a = Some c → preparing (I a) vw vs q a c ∧ voted Commit (proposal_hash q) c) →
  dom (each (λ a, hear (ms a)) C) = dom C ∧
  ∀ a c, each (λ a, hear (ms a)) C !! a = Some c → committing (I a) (J a) vw vs q a c ∧ Core.state c = Committed.
Proof using All.
  intros Hd Hmaj HC. apply (each_wp _ C _ (λ a c, committing (I a) (J a) vw vs q a c ∧ Core.state c = Committed) HC). intros a c Ha [Hr _].
  eapply wp_mono; [apply (hears_commits sign_total (I a) (J a) v0 last vw vs q); try done;
    [by eapply preparing_committing|by eapply delivers_votes]|].
  intros [] c' [Hp Hall]. split; [done|]. apply (cm_quorum _ _ _ _ _ _ _ Hp).
  eapply (delivered_quorum Commit (proposal_hash q) ms C a); try done.
  intros b cb Eb. destruct (HC b cb Eb) as [[] ?]. done.
Qed.

Lemma proposal_phase a0 payload C :
  is_proposal q a0 payload → a0 ∈ addresses v0 → ImplValidatorSet.is_proposer a0 vs = true →
  (∀ a c, C !! a = Some c → ready (I a) vw vs a c) →
  dom (each (λ _, run_event (EvMessage payload)) C) = dom C ∧
  ∀ a c, each (λ _, run_event (EvMessage payload)) C !! a = Some c → preparing (I a) vw vs q a c.
Proof using All.
  intros Hpay Ha0 Hprop HC. apply (each_wp _ C _ _ HC). intros a c _ Hr. simpl. wp_step.
  unfold Core.handle_message_event. rewrite <-Hvs in Ha0.
  eapply wp_mono; [by apply (hears_proposal sign_total (I a) (J a) v0 last vw vs q) with (a0 := a0)|].
  intros r c' Hr'. by wp_step.
Qed.
End phases.

(** The beginning: every validator handles the new header with its own
    candidate. *)
Lemma header_phase (I : Address → B → Prop) (J : Address → list Signature → B → Prop)
    (v0 vs : ImplValidatorSet.t) (last p : Proposal.t) (candidate : Address → Proposal.t) C :
  let next := Block.height (Proposal.block last) + 1 in
  (∀ a, serves (I a) (J a) v0 last p) → 0 ≤ Block.height (Proposal.block last) → next < u64_bound →
  ImplValidatorSet.calc_proposer (Block.hash (Proposal.block last))
    (Block.height (Proposal.block last)) 0 v0 = Ret vs →
  (∀ a c, C !! a = Some c → joins (I a) v0 a c ∧ Block.height (Proposal.block (candidate a)) = next) →
  let C1 := each (λ a, run_event (EvNewHeader (candidate a))) C in
  dom C1 = dom C ∧ ∀ a c, C1 !! a = Some c →
    idle (I a) (View.new next 0) vs 0 (candidate a) a c ∧ proposed (View.new next 0) vs a (candidate a) c.
Proof using All.
  intros next Hs Hlast Hnext Hcalc HC C1.
  apply (each_wp _ C _ (λ a c, idle (I a) (View.new next 0) vs 0 (candidate a) a c ∧
    proposed (View.new next 0) vs a (candidate a) c) HC).
  intros a c _ [Hj Hh]. simpl. wp_step. eapply wp_mono; [by eapply new_header_ready|].
  intros r c' Hr. by wp_step.
Qed.

(** The three phases of a round: when all validators wait for a proposal,
    and all receive that of the proposer, next all prepare votes and next
    all commit votes of each other, in any order, repeated, and mixed with
    votes of faulty validators for any block, then every one of them hands
    the proposer's block, sealed by a quorum of signatures, to
    [Backend::commit]. *)
Lemma round_decides (I : Address → B → Prop) (J : Address → list Signature → B → Prop)
    (v0 vs : ImplValidatorSet.t) (last : Proposal.t) (vw : View.t) (q : PrePrepare.t) (a0 : Address)
    (payload : bytes) (ms ms' : Address → list bytes) C :
  (∀ a, serves (I a) (J a) v0 last (PrePrepare.proposal q)) →
  View.height vw ≠ 0 → View.height (PrePrepare.view q) = View.height vw →
  ImplValidatorSet.validators vs = ImplValidatorSet.validators v0 →
  is_proposal q a0 payload → a0 ∈ addresses v0 → ImplValidatorSet.is_proposer a0 vs = true →
  ImplValidatorSet.has_two_thirds_majority (size (dom C)) v0 = true →
  (∀ a c, C !! a = Some c → ready (I a) vw vs a c) →
  let C2 := each (λ _, run_event (EvMessage payload)) C in
  delivers v0 vw Prepare ms C2 →
  let C3 := each (λ a, hear (ms a)) C2 in
  delivers v0 vw Commit ms' C3 →
  let C4 := each (λ a, hear (ms' a)) C3 in
  dom C4 = dom C ∧ ∀ a c, C4 !! a = Some c → at_height vw vs a c ∧ Core.state c = Committed ∧
    ∃ seals, FxCommit (PrePrepare.proposal q) seals ∈ Core.fx c ∧
      ImplValidatorSet.has_two_thirds_majority (length seals) v0 = true ∧ J a seals (Core.backend c).
Proof using All.
  intros Hs Hvw Hview Evs Hpay Ha0 Hprop Hmaj HC C2 Hms C3 Hms' C4.
  destruct (proposal_phase I J v0 vs last vw q Hs Hvw Hview Evs a0 payload C) as [D2 R2]; try done.
  fold C2 in D2, R2. rewrite <-D2 in *.
  destruct (prepare_phase I J v0 vs last vw q Hs Hvw Hview Evs ms C2 Hms Hmaj R2) as [D3 R3].
  fold C3 in D3, R3. rewrite <-D3 in *.
  destruct (commit_phase I J v0 vs last vw q Hs Hvw Hview Evs ms' C3 Hms' Hmaj R3) as [D4 R4].
  split; [done|]. intros a c Ea. destruct (R4 a c Ea) as [Hc Hst]. split_and!; [apply Hc|done|].
  destruct (cm_done _ _ _ _ _ _ _ Hc Hst) as (seals & Hfx & Hsz & HJ). exists seals.
  by rewrite <-(majority_vals _ v0 vs).
Qed.
End together.
End liveness.
