(* ===== verification/Rounds.v ===== *)
(** * Rounds without a proposal

    When the proposer of a round stays silent, the round-change timers fire,
    the validators vote for the next round, and on a quorum of votes each of
    them enters it, where the next proposer proposes its own candidate.  Any
    number of such rounds is followed by one in which the height is decided
    as in [Liveness]. *)

From S2P Require Import Prelude External Types Validators Protocol Wire RoundState Store Ledger Backend Core CoreProps CoreSafety CoreLive Liveness.

Section rounds.
Context {B : Type} `{BackendLaws B} `{CryptoKitLaws} `{CodecLaws} `{HashMapOrderLaws} `{BigInt}.
Abbreviation CM := (M (Core.t B)).
Implicit Types c : Core.t B.

Abbreviation height c := (RoundState.height (Core.current_state c)).
Abbreviation round c := (RoundState.round (Core.current_state c)).
Abbreviation lock c := (RoundState.lock (Core.current_state c)).

(** ** Votes for a round *)

Definition rc_voters (k : Round) (s : RoundChangeSet.t) : gset Address :=
  match RoundChangeSet.round_changes s !! k with Some mm => voters mm | None => ∅ end.

(** A vote of a validator is counted, and asks for no other round. *)
Lemma rcs_add_counts k m s :
  rcs_wf s → GossipMessage.address m ∈ addresses (RoundChangeSet.validator_set s) →
  ∃ s', RoundChangeSet.add k m s = (Ok (size (rc_voters k s ∪ {[GossipMessage.address m]})), s') ∧
    rc_voters k s' = rc_voters k s ∪ {[GossipMessage.address m]} ∧
    ∀ j mm, RoundChangeSet.round_changes s' !! j = Some mm →
      j = k ∨ is_Some (RoundChangeSet.round_changes s !! j).
Proof using All.
  intros Hwf Ha. unfold RoundChangeSet.add, rc_voters.
  set (mm := match RoundChangeSet.round_changes s !! k with Some mm => mm | None => _ end).
  assert (MessageManage.val_set mm = RoundChangeSet.validator_set s) as Hv.
  { unfold mm. destruct (_ !! k) eqn:E; [by eapply Hwf|done]. }
  assert (match RoundChangeSet.round_changes s !! k with Some mm => voters mm | None => ∅ end = voters mm) as ->.
  { unfold mm, voters. destruct (_ !! k); [done|]. simpl. by rewrite dom_empty_L. }
  destruct (manage_add_cases m mm) as [[_ ->]|[Hn _]]; [|by rewrite Hv in Hn].
  unfold MessageManage.add_verify_message, MessageManage.len. simpl.
  assert (∀ x : gmap Address GossipMessage.t, dom (<[GossipMessage.address m := m]> x) =
    dom x ∪ {[GossipMessage.address m]}) as Hd by (intros x; rewrite dom_insert_L; set_solver).
  eexists. split_and!; [f_equal; f_equal; rewrite <-size_dom, Hd; reflexivity| |].
  - simpl. rewrite lookup_insert_eq. unfold voters. simpl. apply Hd.
  - intros j mm'. simpl. destruct (decide (j = k)) as [->|Hne]; [by left|]. rewrite lookup_insert_ne by done. eauto.
Qed.

Lemma max_round_bound s k :
  0 ≤ k → (∀ j mm, RoundChangeSet.round_changes s !! j = Some mm → j ≤ k) → RoundChangeSet.max_round s ≤ k.
Proof using All.
  intros Hk Hs. destruct (max_round_spec s) as [[-> _]|[_ [mm E]]]; [done|by eapply Hs].
Qed.

Section node.
Context (sign_total : ∀ h sk, is_Some (hash_sign h sk)).
Context (I : B → Prop) (J : list Signature → B → Prop) (v0 : ImplValidatorSet.t) (last p : Proposal.t).
Context (Hserves : serves I J v0 last p).

Abbreviation next := (Block.height (Proposal.block last) + 1).
Context (Hlast : 0 ≤ Block.height (Proposal.block last)) (Hnext : next < u64_bound).
(** The round that ends, its validators, and those of the next round. *)
Context (r : Round) (vs vs' : ImplValidatorSet.t) (Hr : 0 ≤ r) (Hroom : r + 1 < u64_bound).
Context (Hcalc : ImplValidatorSet.calc_proposer (Block.hash (Proposal.block last))
  (Block.height (Proposal.block last)) (r + 1) vs = Ret vs').
(** The candidate of the node. *)
Context (a : Address) (x : Proposal.t) (Hx : Block.height (Proposal.block x) = next).
Context (Hmem : a ∈ addresses vs).

Abbreviation here := (View.new next r).
Abbreviation there := (View.new next (r + 1)).

(** The node has voted for the next round. *)
Definition asked c : Prop :=
  ∃ m m', FxGossip m' ∈ Core.fx c ∧ Core.finalize_message m c = Ret m' ∧ GossipMessage.code m = RoundChange ∧
    GossipMessage.msg m = into_bytes (Subject.mk there EMPTY_HASH).

(** Sending a round change touches the timers, the limiter and the outbox. *)
Lemma send_round_change_keeps k c :
  I (Core.backend c) → Core.round_change_limiter c ≤ Clk.instant (Core.clk c) →
  wp False (Core.send_round_change k) (λ _ c', framed harmless c c' ∧ I (Core.backend c')) c.
Proof using All.
  intros HI Hl. eapply wp_conj; [apply send_round_change_framed|].
  unfold Core.send_round_change. wp_step. apply wp_gets. wp_step.
  apply wp_rassert; [intros _|intros E%Z.leb_gt; lia].
  unfold Core.catchup_round, Core.new_round_change_timer, Core.fresh_addr, Core.emit.
  destruct (_ <=? 50 * 1000000); [wp_steps; done|].
  wp_step. apply wp_modify. wp_step.
  assert (∀ c2 m, I (Core.backend c2) → wp False (Core.broadcast m) (λ _ c', I (Core.backend c')) c2) as Hb.
  { intros c2 m HI2. eapply wp_mono; [by apply (broadcast_sends sign_total I (sv_gossip _ _ _ _ _ Hserves))|].
    by intros [] ? (? & ? & ? & _ & ->). }
  apply wp_when; intros _; wp_steps; by apply Hb.
Qed.

Lemma idle_framed vw ws k c c' :
  framed harmless c c' → I (Core.backend c') → idle I vw ws k x a c → idle I vw ws k x a c'.
Proof.
  intros Hf HI [[Hat Hs Hl Hpr Hcm _] Eb Hp Hk]. destruct (harmless_safe eq _ _ Hf (ah_inv _ _ _ _ Hat)) as [Hi' _].
  split; [split; [by eapply kin_at_height; [eapply framed_kin| |]|..]|..]; rewrite ?(fr_current _ _ _ Hf),
    ?(fr_state _ _ _ Hf), ?(fr_rcs _ _ _ Hf); try done.
  by destruct (fr_backend _ _ _ Hf) as [-> _].
Qed.

(** The last block, read through the backend. *)
Lemma last_proposal_keeps (Q : Proposal.t → Core.t B → Prop) c :
  I (Core.backend c) →
  (∀ lp b, I b → Block.hash (Proposal.block lp) = Block.hash (Proposal.block last) →
    Block.height (Proposal.block lp) = Block.height (Proposal.block last) →
    framed harmless c (Core.with_backend b c) → Q lp (Core.with_backend b c)) →
  wp False Core.last_proposal Q c.
Proof using All.
  intros HI HQ. unfold Core.last_proposal. wp_step. unfold wp at 1, Core.on_backend.
  destruct (sv_last _ _ _ _ _ Hserves _ HI) as (lp & b & E & HI' & Eh & Et). rewrite E. wp_step.
  apply HQ; try done. apply with_backend_framed. exact (last_proposal_stable _ _ _ E).
Qed.

Lemma idle_view vw ws k c : idle I vw ws k x a c → height c = View.height vw ∧ round c = View.round vw.
Proof. intros [[[_ _ <- _] _ _ _ _ _] _ _ _]. done. Qed.

(** The timer fires. *)
Lemma timer_asks c :
  idle I here vs r x a c → Core.round_change_limiter c + 50 * 1000000 < Clk.instant (Core.clk c) →
  wp False Core.handle_timer_event (λ _ c', idle I here vs r x a c' ∧ asked c') c.
Proof using All.
  intros Hid Hl. destruct (idle_view _ _ _ _ Hid) as [Eh Er]. simpl in Eh, Er.
  unfold Core.handle_timer_event. wp_step. apply last_proposal_keeps; [apply Hid|].
  intros lp b HI _ Et Hf. wp_step. apply wp_gets. set (c1 := Core.with_backend b c) in *. simpl.
  rewrite Et, Eh. destruct (Z.leb_spec next (Block.height (Proposal.block last))); [lia|].
  unfold Core.send_next_round_change. wp_step. apply wp_gets. cbv zeta. simpl. rewrite Er.
  destruct (Z.leb_spec (RoundChangeSet.max_round (Core.round_change_set c)) r) as [_|Hm]; cycle 1.
  { pose proof (max_round_bound (Core.round_change_set c) r Hr (id_rounds _ _ _ _ _ _ _ Hid)). lia. }
  wp_step. apply wp_lift; [|intros E; by rewrite u64_add_fits in E]. intros k [-> _]%u64_add_Ret.
  assert (idle I here vs r x a c1) as Hid1 by by eapply idle_framed.
  eapply wp_mono; [eapply wp_conj; [apply send_round_change_framed|]|].
  { instantiate (1 := λ _ c', I (Core.backend c') ∧ asked c').
    unfold Core.send_round_change. wp_step. apply wp_gets. wp_step. simpl.
    apply wp_rassert; [intros _|intros E%Z.leb_gt; lia].
    destruct (Z.leb_spec (Clk.instant (Core.clk c) - Core.round_change_limiter c) (50 * 1000000)); [lia|].
    wp_step. apply wp_modify. rewrite Er. replace (r <? r + 1) with true by (symmetry; apply Z.ltb_lt; lia).
    cbn [when]. wp_step. unfold Core.catchup_round, Core.new_round_change_timer, Core.fresh_addr, Core.emit.
    wp_steps. eapply wp_mono; [by apply (broadcast_sends sign_total I (sv_gossip _ _ _ _ _ Hserves))|].
    intros [] c2 (m & b2 & HI2 & Em & ->). split; [done|]. unfold Core.current_view in Em. simpl in Em.
    rewrite Eh in Em. eexists _, m. split_and!; [simpl; set_solver|exact Em|done|done]. }
  intros [] c2 [Hf2 [HI2 Ha2]]. split; [|done]. by eapply idle_framed.
Qed.

(** The proposer of a new round sends its candidate. *)
Lemma propose_new_round_sends c :
  I (Core.backend c) → Core.address c = a → secret_address (Core.keypair c) = a → be_address (Core.backend c) = a →
  height c = next → lock c = None → RoundState.pending_request (Core.current_state c) = Some (Request.new x) →
  wp False Core.propose_new_round (λ _ c', framed harmless c c' ∧ I (Core.backend c') ∧
    proposed (Core.current_view c) (Core.validators c) a x c') c.
Proof using All.
  intros HI Ea Ek Eb Eh El Ep. eapply wp_conj; [apply propose_new_round_framed|].
  unfold Core.propose_new_round. wp_step. apply wp_gets. rewrite Ea.
  apply wp_when; [intros _|intros Hn; split; [done|]; unfold proposed; by rewrite Hn].
  unfold RoundState.is_locked. rewrite El, bool_decide_false by (by intros [? ?]). rewrite Ep.
  wp_step. apply wp_lift; [|done]. intros rq [= <-].
  apply (send_preprepare_sends sign_total I (sv_gossip _ _ _ _ _ Hserves)); try done. by rewrite Hx.
Qed.

(** The round state after a round change without a lock. *)
Definition entered c : Prop :=
  Core.current_view c = there ∧ Core.validators c = vs' ∧ Core.state c = AcceptRequest ∧ lock c = None ∧
  voters (RoundState.prepares (Core.current_state c)) = ∅ ∧ voters (RoundState.commits (Core.current_state c)) = ∅ ∧
  RoundState.pending_request (Core.current_state c) = Some (Request.new x) ∧
  RoundChangeSet.round_changes (Core.round_change_set c) = ∅.

Lemma start_new_round_enters k c :
  idle I here vs k x a c →
  wp False (Core.start_new_round (r + 1) [])
    (λ _ c', entered c' ∧ I (Core.backend c') ∧ proposed there vs' a x c') c.
Proof using All.
  intros Hid. destruct (idle_view _ _ _ _ Hid) as [Eh Er]. simpl in Eh, Er.
  destruct Hid as [[[Hi [Ea Ek] _ Evs] Hs Hl _ _ HI] Eb Hp _].
  unfold Core.start_new_round. wp_step. apply wp_rassert; [intros _|rewrite negb_false_iff, Z.eqb_eq; lia].
  wp_step. apply wp_gets. rewrite Er. wp_step. apply wp_rassert; [intros _|rewrite Z.ltb_ge; lia].
  wp_step. apply last_proposal_keeps; [done|]. intros lp b HI1 Elh Elt Hf1.
  rewrite Elt. wp_step. apply wp_lift; [|intros E; by rewrite u64_add_fits in E]. intros n [-> _]%u64_add_Ret.
  wp_step. rewrite Eh, Z.ltb_irrefl. apply wp_rassert; [intros _|done].
  destruct (Z.ltb_spec next (Block.height (Proposal.block last))); [lia|].
  wp_step. apply wp_gets. simpl. rewrite Evs. wp_step. apply wp_rassert; cycle 1.
  { intros E. destruct (ImplValidatorSet.validators vs) eqn:Ev; [by apply not_elem_of_nil in Hmem|].
    unfold ImplValidatorSet.size in E. by rewrite Ev in E. }
  intros _. wp_step. apply wp_modify. wp_step. apply wp_modify. simpl. unfold RoundState.is_locked.
  rewrite Hl, bool_decide_false by (by intros [? ?]).
  wp_step. rewrite Elh, Hcalc. apply wp_lift; [|done]. intros ? [= <-].
  wp_step. apply wp_modify. wp_step. apply wp_modify. wp_step. apply wp_modify. wp_step.
  eapply wp_mono; [apply propose_new_round_sends; simpl; try done|].
  { destruct (fr_backend _ _ _ Hf1) as [E1 _]. simpl in E1. by rewrite E1. }
  intros [] c3 (Hf3 & HI3 & Hp3). unfold Core.new_round_change_timer, Core.fresh_addr, Core.emit. wp_steps.
  unfold entered, Core.current_view. simpl.
  rewrite (fr_validators _ _ _ Hf3), (fr_state _ _ _ Hf3), (fr_rcs _ _ _ Hf3), (fr_current _ _ _ Hf3).
  simpl. rewrite Hp. unfold voters. simpl. rewrite dom_empty_L.
  split_and!; try done. intros Hpr. destruct (Hp3 Hpr) as (m & Hin & Hm). exists m. split; [simpl; set_solver|done].
Qed.

Lemma new_round_idle k c :
  idle I here vs k x a c →
  wp False (Core.start_new_round (r + 1) [])
    (λ _ c', idle I there vs' (r + 1) x a c' ∧ proposed there vs' a x c') c.
Proof using All.
  intros Hid. pose proof (rd_at _ _ _ _ _ (id_ready _ _ _ _ _ _ _ Hid)) as [Hi [Ea Ek] _ _].
  pose proof (id_self _ _ _ _ _ _ _ Hid) as Eb.
  eapply wp_mono; [eapply wp_conj; [by apply start_new_round_safe|by eapply start_new_round_enters]|].
  intros [] c2 [(Hi2 & S2 & _) ((Ev2 & Evs2 & Hs2 & Hl2 & Hpr2 & Hcm2 & Hp2 & Hrc2) & HI2 & Hprop)]. split; [|done].
  destruct (ok_self _ _ _ S2) as [Ea2 Ek2]. split; [split; try done; split; try done| |done|].
  - by rewrite Ea2, Ek2.
  - by destruct (ok_backend _ _ _ S2) as [-> _].
  - intros j mm. by rewrite Hrc2, lookup_empty.
Qed.

Abbreviation quorum X := (ImplValidatorSet.has_two_thirds_majority (size (X : gset Address)) vs).

(** Collecting votes for the next round, [X] having voted, until it is
    entered. *)
Inductive moving (X : gset Address) c : Prop :=
| mv_waits :
    idle I here vs (r + 1) x a c → Core.round_change_limiter c ≤ Clk.instant (Core.clk c) →
    rc_voters (r + 1) (Core.round_change_set c) = X → quorum X = false → moving X c
| mv_enters : idle I there vs' (r + 1) x a c → proposed there vs' a x c → moving X c.

Lemma idle_rcs vw ws rcs c :
  idle I vw ws (r + 1) x a c → rcs_wf rcs →
  RoundChangeSet.validator_set rcs = RoundChangeSet.validator_set (Core.round_change_set c) →
  (∀ j mm, RoundChangeSet.round_changes rcs !! j = Some mm →
    j = r + 1 ∨ is_Some (RoundChangeSet.round_changes (Core.round_change_set c) !! j)) →
  idle I vw ws (r + 1) x a (Core.with_round_change_set rcs c).
Proof.
  intros [[[Hi Ea Ev Evs] ? ? ? ? ?] Eb Hp Hk] Hwf Hv Hj.
  destruct (with_rcs_safe rcs c Hi Hwf) as [Hi' _]; [rewrite Hv; apply Hi|].
  split; [by split|done|done|]. intros j mm Ej. destruct (Hj j mm Ej) as [->|[mm' E]]; [lia|by eapply Hk].
Qed.

Lemma round_change_handle_counts vw ws b m sb c (Q : ConsensusResult → Core.t B → Prop) :
  idle I vw ws (r + 1) x a c → View.height vw = next → View.round vw ≤ r + 1 → b ∈ addresses ws →
  GossipMessage.address m = b → is_Some (GossipMessage.signature m) →
  from_bytes (GossipMessage.msg m) = Some sb → Subject.view sb = there →
  (∀ rcs, let c1 := Core.with_round_change_set rcs c in
    idle I vw ws (r + 1) x a c1 → rc_voters (r + 1) rcs = rc_voters (r + 1) (Core.round_change_set c) ∪ {[b]} →
    wp False (if ImplValidatorSet.has_two_thirds_majority (size (rc_voters (r + 1) rcs)) ws && (View.round vw <? r + 1) then
        Core.send_round_change (r + 1);; Core.start_new_round (r + 1) [];; mret (Ok tt)
      else if Core.wait_round_change c && (View.round vw <? r + 1) then mret (Err FutureRoundMessage)
      else mret (Ok tt)) Q c1) →
  wp False (Core.round_change_handle m (Validator.new b)) Q c.
Proof using All.
  intros Hid Eh Hvr Hb Em Hsig Es Esv HQ. destruct (idle_view _ _ _ _ Hid) as [Ech Ecr].
  pose proof (rd_at _ _ _ _ _ (id_ready _ _ _ _ _ _ _ Hid)) as [Hi _ _ Ews].
  unfold Core.round_change_handle. rewrite Es. wp_step. apply wp_lift; [|done]. intros ? [= <-].
  wp_step. apply wp_gets. rewrite Esv.
  assert (Core.check_message RoundChange there c = Ok tt) as ->.
  { unfold Core.check_message. simpl. rewrite Ech, Eh, !Z.ltb_irrefl.
    replace (next =? 0) with false by (symmetry; apply Z.eqb_neq; lia). done. }
  wp_step. apply wp_gets. cbv zeta. simpl. rewrite Ecr.
  destruct (Z.ltb_spec (r + 1) (View.round vw)); [lia|]. cbn [andb].
  destruct (rcs_add_counts (r + 1) m (Core.round_change_set c) (inv_rcs _ Hi)) as (rcs & Eadd & Hvot & Hkeys).
  { rewrite Em, (inv_rcs_vals _ Hi), Ews. done. }
  pose proof (rcs_add_wf (r + 1) m _ (inv_rcs _ Hi) Hsig) as Hwf.
  pose proof (rcs_add_validator_set (r + 1) m (Core.round_change_set c)) as Hvs.
  rewrite Eadd in Hwf, Hvs |- *. simpl in Hwf, Hvs. wp_step. apply wp_modify. rewrite Em in *.
  unfold ImplValidatorSet.has_two_thirds_majority in HQ. rewrite Ews, <-Hvot.
  apply HQ; [by apply idle_rcs|done].
Qed.

(** One vote for the next round. *)
Lemma hears_ask b payload X c :
  moving X c → is_vote RoundChange there b payload → b ∈ addresses vs →
  wp False (Core.handle_message payload) (λ _ c', moving (X ∪ {[b]}) c') c.
Proof using All.
  intros Hm (m & sb & Harr & Ecode & Es & Esv & _) Hb.
  pose proof (calc_proposer_validators _ _ _ _ _ Hcalc) as Evs'.
  assert (b ∈ addresses (Core.validators c)) as Hbc.
  { destruct Hm as [Hid _ _ _|Hid _]; rewrite (ah_vals _ _ _ _ (rd_at _ _ _ _ _ (id_ready _ _ _ _ _ _ _ Hid))); [done|].
    by rewrite Evs'. }
  destruct (handle_message_dispatch payload b m c Harr Hbc) as (Eadd & Hsig & Edisp).
  unfold wp. rewrite Edisp. fold (wp False (Core.handle_check_message m (Validator.new b))
    (λ _ c', moving (X ∪ {[b]}) c') c). unfold Core.handle_check_message. rewrite Ecode. wp_step.
  destruct Hm as [Hid Hl Hv Hq|Hid Hp].
  - eapply round_change_handle_counts; [exact Hid|simpl; lia..|done|done|done|done|done|]. cbv zeta. simpl.
    intros rcs Hid1 Hvot. rewrite Hvot, Hv in *.
    replace (r <? r + 1) with true by (symmetry; apply Z.ltb_lt; lia). rewrite !andb_true_r.
    destruct (quorum (X ∪ {[b]})) eqn:Q.
    + wp_step. eapply wp_mono; [apply send_round_change_keeps; [apply Hid|done]|]. intros [] c2 [Hf2 HI2].
      assert (idle I here vs (r + 1) x a c2) as Hid2 by by eapply idle_framed.
      wp_step. eapply wp_mono; [by eapply new_round_idle|]. intros [] c3 [Hid3 Hp3].
      wp_step. wp_step. cbn [when]. wp_step. wp_step. by apply mv_enters.
    + destruct (Core.wait_round_change c); wp_step; wp_step; cbn [when]; [apply wp_modify; wp_step|wp_step; wp_step].
      * apply mv_waits; try done. eapply (idle_framed here vs (r + 1)); [apply (emit_framed harmless)| |exact Hid1]; [done|apply Hid1].
      * by apply mv_waits.
  - eapply round_change_handle_counts; [exact Hid|simpl; lia..|by rewrite Evs'|done|done|done|done|]. cbv zeta. simpl.
    intros rcs Hid1 _. rewrite Z.ltb_irrefl, !andb_false_r. wp_step. wp_step. cbn [when]. wp_step. wp_step.
    by apply mv_enters.
Qed.

Lemma hears_asks l X c :
  moving X c → Forall (λ payload, ∃ b, b ∈ addresses vs ∧ is_vote RoundChange there b payload) l →
  wp False (hear l) (λ _ c', ∃ Y, moving Y c' ∧ X ⊆ Y ∧
    ∀ b payload, payload ∈ l → is_vote RoundChange there b payload → b ∈ Y) c.
Proof using All.
  intros Hm Hl. revert X c Hm. induction Hl as [|payload l (b & Hb & Hv) _ IH]; intros X c Hm; simpl.
  { wp_step. exists X. split_and!; [done|done|]. by intros ? ? ?%not_elem_of_nil. }
  wp_step. unfold Core.handle_message_event. wp_step. eapply wp_mono; [by eapply hears_ask|].
  intros res c1 Hm1. wp_step. eapply wp_mono; [exact (IH _ _ Hm1)|]. intros [] c2 (Y & HY & Hsub & Hall).
  exists Y. split_and!; [done|set_solver|]. intros b' y [->|Hy]%elem_of_cons Hv'; [|by eapply Hall].
  rewrite <-(is_vote_signer _ _ _ _ _ Hv Hv'). set_solver.
Qed.

Lemma idle_moving c :
  idle I here vs r x a c → Core.round_change_limiter c ≤ Clk.instant (Core.clk c) → moving ∅ c.
Proof.
  intros [Hr1 Hb Hp Hk] Hl. apply mv_waits; [|done| |].
  - split; try done. intros j mm Hj. apply Hk in Hj. lia.
  - unfold rc_voters. destruct (_ !! (r + 1)) as [mm|] eqn:E; [|done]. apply Hk in E. lia.
  - apply not_true_iff_false. apply no_quorum.
Qed.

(** Time passes. *)
Lemma with_clk_framed P ck c : framed P c (Core.with_clk ck c).
Proof. split; try done. exists []. by rewrite app_nil_r. Qed.
End node.

(** ** All validators *)

Section together.
Context (sign_total : ∀ h sk, is_Some (hash_sign h sk)).
Context (seal_readable : ∀ d sk seal a,
  encrypt_commit_bytes d sk = Ret seal → is_Some (verify_address a seal d)).
Abbreviation cluster := (gmap Address (Core.t B)).
Implicit Types C : cluster.

Section change.
Context (I : Address → B → Prop) (J : Address → list Signature → B → Prop).
Context (v0 : ImplValidatorSet.t) (last p : Proposal.t) (candidate : Address → Proposal.t).
Context (Hserves : ∀ a, serves (I a) (J a) v0 last p).
Abbreviation next := (Block.height (Proposal.block last) + 1).
Context (Hlast : 0 ≤ Block.height (Proposal.block last)) (Hnext : next < u64_bound).

(** All validators wait in round [r]. *)
Definition all_idle (r : Round) (vs : ImplValidatorSet.t) C : Prop :=
  ∀ a c, C !! a = Some c → idle (I a) (View.new next r) vs r (candidate a) a c ∧
    a ∈ addresses v0 ∧ Block.height (Proposal.block (candidate a)) = next.

Lemma asked_delivered r ms C a b c :
  delivers v0 (View.new next (r + 1)) RoundChange ms C → a ∈ dom C → C !! b = Some c →
  secret_address (Core.keypair c) = b → asked last r c →
  ∃ payload, payload ∈ ms a ∧ is_vote RoundChange (View.new next (r + 1)) b payload.
Proof using All.
  intros Hd Ha Eb Ek (m & m' & Hin & Ef & Ec & Em).
  destruct (finalized_is_vote seal_readable m m' _ c Ef Em) as (Ec' & Em' & Hv); [by rewrite Ec|].
  rewrite Ec, Ek in *. exists (into_bytes m'). split; [|done]. destruct (Hd a Ha) as [_ Hd']. by eapply Hd'.
Qed.

Lemma change_phase r vs vs' C ck ms :
  0 ≤ r → r + 1 < u64_bound → ImplValidatorSet.validators vs = ImplValidatorSet.validators v0 →
  ImplValidatorSet.calc_proposer (Block.hash (Proposal.block last))
    (Block.height (Proposal.block last)) (r + 1) vs = Ret vs' →
  ImplValidatorSet.has_two_thirds_majority (size (dom C)) v0 = true → all_idle r vs C →
  (∀ a c, C !! a = Some c → Core.round_change_limiter c + 50 * 1000000 < Clk.instant (Core.clk c)) →
  let C1 := each (λ _, run_event EvTimer) C in
  (∀ a c, C1 !! a = Some c → Core.round_change_limiter c ≤ Clk.instant (ck a)) →
  let C2 := each (λ a, modify (Core.with_clk (ck a))) C1 in
  delivers v0 (View.new next (r + 1)) RoundChange ms C2 →
  let C3 := each (λ a, hear (ms a)) C2 in
  dom C3 = dom C ∧ all_idle (r + 1) vs' C3 ∧
    ∀ a c, C3 !! a = Some c → proposed (View.new next (r + 1)) vs' a (candidate a) c.
Proof using All.
  intros Hr Hroom Evs Hcalc Hmaj Hid Hl C1 Hck C2 Hd C3.
  set (member a := a ∈ addresses v0 ∧ Block.height (Proposal.block (candidate a)) = next).
  destruct (each_wp (λ _, run_event EvTimer) C
    (λ a c, (idle (I a) (View.new next r) vs r (candidate a) a c ∧ member a) ∧
      Core.round_change_limiter c + 50 * 1000000 < Clk.instant (Core.clk c))
    (λ a c, (idle (I a) (View.new next r) vs r (candidate a) a c ∧ member a) ∧ asked last r c)) as [D1 R1].
  { intros a c Ea. split; [by apply Hid|by eapply Hl]. }
  { intros a c _ [[Hi [Hm Hh]] Hlim]. eapply wp_mono.
    { eapply (timer_asks sign_total (I a) (J a) v0 last p (Hserves a)); eauto. by rewrite Evs. }
    intros [] c' [? ?]. by split_and!. }
  destruct (each_wp (λ a, modify (Core.with_clk (ck a))) C1
    (λ a c, ((idle (I a) (View.new next r) vs r (candidate a) a c ∧ member a) ∧ asked last r c) ∧
      Core.round_change_limiter c ≤ Clk.instant (ck a))
    (λ a c, (moving (I a) last r vs vs' a (candidate a) ∅ c ∧ member a) ∧ asked last r c ∧
      secret_address (Core.keypair c) = a)) as [D2 R2].
  { intros a c Ea. split; [by apply R1|by eapply Hck]. }
  { intros a c _ [[[Hi [Hm Hh]] Hask] Hlim]. apply wp_modify.
    split; [split; [|done]|split; [done|apply (ah_self _ _ _ _ (rd_at _ _ _ _ _ (id_ready _ _ _ _ _ _ _ Hi)))]].
    apply idle_moving; [|done..]. eapply idle_framed; [apply (with_clk_framed harmless)|apply Hi|exact Hi]. }
  destruct (each_wp (λ a, hear (ms a)) C2
    (λ a c, (moving (I a) last r vs vs' a (candidate a) ∅ c ∧ member a) ∧ asked last r c ∧
      secret_address (Core.keypair c) = a)
    (λ a c, (idle (I a) (View.new next (r + 1)) vs' (r + 1) (candidate a) a c ∧ member a) ∧
      proposed (View.new next (r + 1)) vs' a (candidate a) c) R2) as [D3 R3].
  { intros a c Ha [[Hm [Hmem Hh]] _]. eapply wp_mono.
    { eapply (hears_asks sign_total (I a) (J a) v0 last p (Hserves a)); eauto; [by rewrite Evs|].
      rewrite Evs. by apply (Hd a Ha). }
    intros [] c' (Y & [_ _ _ Hq|Hi Hp] & _ & Hall); [|by split_and!].
    apply not_true_iff_false in Hq. destruct Hq. apply (quorum_mono vs (dom C2)).
    - intros b [cb Eb]%elem_of_dom. destruct (R2 b cb Eb) as (_ & Hask & Ek).
      destruct (asked_delivered r ms C2 a b cb Hd Ha Eb Ek Hask) as (y & Hy & Hv). by eapply Hall.
    - rewrite (majority_vals _ v0 vs) by done. fold C1 in D1. fold C2 in D2. by rewrite D2, D1. }
  fold C1 in D1. fold C2 in D2. fold C3 in D3. split; [by rewrite D3, D2, D1|]. split; intros a c Ea; by apply (R3 a c Ea).
Qed.

(** Any number of rounds without a proposal: in each the timers fire, more
    than 50 ms after the last vote of the node, time passes, and all receive
    the votes for the next round. *)
Inductive changes : Round → ImplValidatorSet.t → cluster → Round → ImplValidatorSet.t → cluster → Prop :=
| no_change r vs C : changes r vs C r vs C
| one_change r vs C vs1 (ck : Address → Clk.t) ms r' vs' C' :
    r + 1 < u64_bound →
    ImplValidatorSet.calc_proposer (Block.hash (Proposal.block last))
      (Block.height (Proposal.block last)) (r + 1) vs = Ret vs1 →
    (∀ a c, C !! a = Some c → Core.round_change_limiter c + 50 * 1000000 < Clk.instant (Core.clk c)) →
    let C1 := each (λ _, run_event EvTimer) C in
    (∀ a c, C1 !! a = Some c → Core.round_change_limiter c ≤ Clk.instant (ck a)) →
    let C2 := each (λ a, modify (Core.with_clk (ck a))) C1 in
    delivers v0 (View.new next (r + 1)) RoundChange ms C2 →
    changes (r + 1) vs1 (each (λ a, hear (ms a)) C2) r' vs' C' →
    changes r vs C r' vs' C'.

Lemma changes_idle r vs C r' vs' C' :
  changes r vs C r' vs' C' → 0 ≤ r → ImplValidatorSet.validators vs = ImplValidatorSet.validators v0 →
  ImplValidatorSet.has_two_thirds_majority (size (dom C)) v0 = true → all_idle r vs C →
  (∀ a c, C !! a = Some c → proposed (View.new next r) vs a (candidate a) c) →
  dom C' = dom C ∧ ImplValidatorSet.validators vs' = ImplValidatorSet.validators v0 ∧ all_idle r' vs' C' ∧
  ∀ a c, C' !! a = Some c → proposed (View.new next r') vs' a (candidate a) c.
Proof using All.
  induction 1 as [|r vs C vs1 ck ms r' vs' C' Hroom Hcalc Hl C1 Hck C2 Hd _ IH]; intros Hr Evs Hmaj Hid Hp; [done|].
  destruct (change_phase r vs vs1 C ck ms Hr Hroom Evs Hcalc Hmaj Hid Hl Hck Hd) as (D3 & Hid3 & Hp3).
  pose proof (calc_proposer_validators _ _ _ _ _ Hcalc) as Evs1. fold C1 C2 in D3, Hid3, Hp3. rewrite <-D3 in Hmaj |- *.
  apply IH; [lia|congruence|done|done|done].
Qed.
End change.

(** A height is decided: when the correct validators are more than two
    thirds and their backends serve the same height, every one of them
    handles the new header; any number of rounds pass without a proposal;
    the proposer of the round that follows, a correct validator, has gossiped
    its candidate by then; and if then all receive the candidate and the
    votes of each other, none of them panics and every one of them has handed
    the candidate, sealed by a quorum of signatures, to [Backend::commit]. *)
Lemma height_decides (I : Address → B → Prop) (J : Address → list Signature → B → Prop)
    (v0 vs ws : ImplValidatorSet.t) (last : Proposal.t) (candidate : Address → Proposal.t) (a0 : Address)
    (r : Round) (C C2 : cluster) :
  let next := Block.height (Proposal.block last) + 1 in
  let vw := View.new next r in
  let q := PrePrepare.wire (PrePrepare.new vw (candidate a0)) in
  (∀ a, serves (I a) (J a) v0 last (PrePrepare.proposal q)) →
  0 ≤ Block.height (Proposal.block last) → next < u64_bound →
  ImplValidatorSet.calc_proposer (Block.hash (Proposal.block last))
    (Block.height (Proposal.block last)) 0 v0 = Ret vs →
  (∀ a c, C !! a = Some c → joins (I a) v0 a c ∧ Block.height (Proposal.block (candidate a)) = next) →
  ImplValidatorSet.has_two_thirds_majority (size (dom C)) v0 = true →
  changes v0 last 0 vs (each (λ a, run_event (EvNewHeader (candidate a))) C) r ws C2 →
  ImplValidatorSet.is_proposer a0 ws = true → a0 ∈ dom C →
  (∃ c m, C2 !! a0 = Some c ∧ FxGossip m ∈ Core.fx c ∧ is_proposal q a0 (into_bytes m)) ∧
  ∀ payload, is_proposal q a0 payload →
    let C3 := each (λ _, run_event (EvMessage payload)) C2 in
    ∀ ms, delivers v0 vw Prepare ms C3 →
    let C4 := each (λ a, hear (ms a)) C3 in
    ∀ ms', delivers v0 vw Commit ms' C4 →
    let C5 := each (λ a, hear (ms' a)) C4 in
    dom C5 = dom C ∧ ∀ a c, C5 !! a = Some c → at_height vw ws a c ∧ Core.state c = Committed ∧
      ∃ seals, FxCommit (PrePrepare.proposal q) seals ∈ Core.fx c ∧
        ImplValidatorSet.has_two_thirds_majority (length seals) v0 = true ∧ J a seals (Core.backend c).
Proof using All.
  intros next vw q Hs Hlast Hnext Hcalc HC Hmaj Hch Hprop Ha0.
  destruct (header_phase sign_total seal_readable I J v0 vs last _ candidate C Hs Hlast Hnext Hcalc HC) as [D1 R1].
  assert (∀ a, a ∈ dom C → a ∈ addresses v0 ∧ Block.height (Proposal.block (candidate a)) = next) as Hmem.
  { intros a [c Ea]%elem_of_dom. split; [apply (jn_member _ _ _ _ (proj1 (HC a c Ea)))|by eapply HC]. }
  destruct (changes_idle I J v0 last _ candidate Hs Hlast Hnext _ _ _ _ _ _ Hch) as (D2 & Ews & Hid & Hp); try done.
  { by apply calc_proposer_validators in Hcalc. }
  { by rewrite D1. }
  { intros a c Ea. split; [by apply R1|]. apply Hmem. rewrite <-D1. by apply elem_of_dom_2 in Ea. }
  { intros a c Ea. by apply R1. }
  rewrite D1 in D2. assert (a0 ∈ dom C2) as [c0 E0]%elem_of_dom by by rewrite D2.
  split.
  { destruct (Hp a0 c0 E0 Hprop) as (m & Hin & Hpay). eauto. }
  intros payload Hpay C3 ms Hms C4 ms' Hms' C5. rewrite <-D2 in Hmaj |- *.
  apply (round_decides sign_total seal_readable I J v0 ws last vw q a0 payload ms ms' C2); try done.
  - simpl. lia.
  - by apply Hmem.
  - intros a c Ea. apply (Hid a c Ea).
Qed.
End together.
End rounds.
