(* ===== verification/Heights.v ===== *)
(** * One height after the other

    The validators of [Liveness] and [Rounds] over [ImplBackend]: the block a height
    decides is written to every chain, so that the next height starts from
    it.  Chains are compared up to the votes of their blocks, which each
    validator collects for itself. *)

From S2P Require Import Prelude External Types Validators Protocol Wire RoundState Store Ledger Backend Core CoreProps CoreSafety CoreLive Liveness Rounds.

(** ** Blocks without their votes *)

Definition unsealed (b : Block.t) : Block.t :=
  Block.new (Header.set_votes None (Block.header b)) (Block.transactions b).

Section unsealed.
Context `{CryptoKit} `{CodecLaws} `{Chrono}.
Implicit Types (b : Block.t) (bs us : list Block.t).

Lemma unsealed_sealed p seals : unsealed (sealed_block p seals) = unsealed (Proposal.block p).
Proof. done. Qed.

Lemma unsealed_hashes bs : Block.hash <$> (unsealed <$> bs) = Block.hash <$> bs.
Proof. by rewrite <-list_fmap_compose. Qed.

Lemma extends_unsealed bs period x : extends (unsealed <$> bs) period x ↔ extends bs period x.
Proof.
  unfold extends. split; intros [Hh (parent & E & Hp & Ht)]; (split; [done|]).
  - rewrite list_lookup_fmap in E. destruct (bs !! _) as [b|] eqn:Eb; [|done]. injection E as <-.
    exists b. by split_and!.
  - exists (unsealed parent). by rewrite list_lookup_fmap, E.
Qed.

Lemma linked_unsealed bs : linked (unsealed <$> bs) → linked bs.
Proof.
  intros Hl i x y Ex Ey. apply (Hl i (unsealed x) (unsealed y)); by rewrite list_lookup_fmap, ?Ex, ?Ey.
Qed.

(** Whether a block can be appended does not depend on any votes. *)
Lemma appendable_unsealed bs p seals :
  appendable (unsealed <$> bs) (Proposal.block p) → appendable bs (sealed_block p seals).
Proof.
  intros [Hh Hr Hf Hc Ht Hm]. rewrite length_fmap in Hh. rewrite unsealed_hashes in Hf.
  by split.
Qed.
End unsealed.

(** ** [ImplBackend] implements the interface *)

Section impl_backend.
Context {DB HC BC LC : Type} `{DatabaseLaws DB}.
Context `{HCC : LruCache HC Hash Header.t, !LruCacheLaws HC Hash Header.t}.
Context `{BCC : LruCache BC Hash Block.t, !LruCacheLaws BC Hash Block.t}.
Context `{LCC : LruCache LC Hash unit, !LruCacheLaws LC Hash unit}.
Context `{CryptoKitLaws} `{CodecLaws} `{HashMapOrderLaws} `{Chrono} `{BigInt}.
Context (tx_hash_inj : ∀ tx tx' h,
  Transaction.crypto_hash tx = Ret h → Transaction.crypto_hash tx' = Ret h →
  Transaction.wire tx = Transaction.wire tx').
Abbreviation Bk := (ImplBackend.t DB HC BC LC).
Implicit Types (b : Bk) (bs us : list Block.t) (p : Proposal.t).

(** The validators and the engine's configuration are those of every node. *)
Context (v0 : ImplValidatorSet.t) (cfg : Config.t).

(** The core's backend of node [a], on a chain of the blocks [bs]; nothing
    was proposed on this clone. *)
Record stands (a : Address) bs b : Prop := {
  sd_chain : chain_holds b bs;
  sd_address : be_address b = a;
  sd_vals : ImplBackend.validator_set b = v0;
  sd_config : ImplBackend.config b = cfg;
  sd_limiter : Chain.sync_limiter (ImplBackend.chain b) ≤ Clk.instant (Chain.clk (ImplBackend.chain b));
  sd_proposed : ImplBackend.proposed_block_hash b = EMPTY_HASH
}.

(** A proposal the chain [us] can be extended by: signed transactions with a
    recipient under their Merkle root, a header that extends the last block
    by the block period, a free height and hash. *)
Record buildable us p : Prop := {
  bd_start : us ≠ [];
  bd_times : ∀ x, x ∈ us → Header.time (Block.header x) + Config.block_period cfg < u64_bound;
  bd_txs : Forall (λ tx, is_Some (Transaction.recipient tx) ∧
    Transaction.verify_sign (Config.chain_id cfg) tx = Ret true) (Block.transactions (Proposal.block p));
  bd_root : merkle_tree_root (Block.transactions (Proposal.block p)) =
    Ret (Header.tx_hash (Block.header (Proposal.block p)));
  bd_extends : extends us (Config.block_period cfg) (Block.header (Proposal.block p));
  bd_appendable : appendable us (Proposal.block p);
  bd_hash : Block.hash (Proposal.block p) ≠ EMPTY_HASH
}.

(** A proposal can be built on a chain in the form in which it arrives. *)
Lemma buildable_wire us p : buildable us p → buildable us (Proposal.wire p).
Proof.
  intros [Hs Ht Htx Hroot Hext Hap Hh]. split; try done.
  - simpl. apply Forall_fmap. eapply Forall_impl; [exact Htx|]. by intros [] ?.
  - simpl. unfold merkle_tree_root in *. rewrite <-list_fmap_compose.
    rewrite <-Hroot. do 2 f_equal. apply list_fmap_ext. intros i tx _. apply into_wire.
  - by apply appendable_wire.
  - unfold Block.hash. simpl. by rewrite (block_hash_wire _ (app_coherent _ _ Hap)).
Qed.

(** [gossip] touches the cache of sent messages and what was sent. *)
Lemma gossip_chain vs m b r b' :
  ImplBackend.gossip vs m b = Ret (r, b') →
  ImplBackend.chain b' = ImplBackend.chain b ∧ ImplBackend.config b' = ImplBackend.config b ∧
  ImplBackend.validator_set b' = ImplBackend.validator_set b ∧
  ImplBackend.proposed_block_hash b' = ImplBackend.proposed_block_hash b.
Proof.
  intros E. refine (wp_elim True _ (λ _ b', _ = _ ∧ _ = _ ∧ _ = _ ∧ _ = _) b _ _ _ E). clear E.
  unfold ImplBackend.gossip. wp_step. unfold ImplBackend.outbound_cache_get, wp at 1.
  destruct (lru_get _ _) as [o c]. wp_step; [by wp_step|].
  wp_step. apply wp_modify. wp_step. apply wp_gets. wp_step; [|by wp_step].
  wp_step. apply wp_modify. wp_step. apply wp_modify. by wp_step.
Qed.

Lemma gossip_stands a bs vs m b r b' :
  stands a bs b → ImplBackend.gossip vs m b = Ret (r, b') → stands a bs b'.
Proof using All.
  intros [? Ha ? ? ? ?] E. destruct (gossip_chain vs m b r b' E) as (Ec & Ecf & Ev & Ep).
  pose proof (gossip_stable (B := Bk) vs m b r b') as Hst. destruct (Hst E) as [Ea _].
  split; unfold chain_holds; rewrite ?Ec, ?Ecf, ?Ev, ?Ep; try done. by rewrite Ea.
Qed.

Lemma verify_stands a bs p b :
  stands a bs b → buildable (unsealed <$> bs) p →
  ∃ d b', ImplBackend.verify p b = Ret ((d, Ok tt), b') ∧ stands a bs b'.
Proof using All.
  intros [Hc Ha Hv Hcf Hlim Hp] [_ Htime Htx Hroot Hext Hap _].
  assert (is_u64 (Block.height (Proposal.block p))) as Hu.
  { pose proof (app_height _ _ Hap). pose proof (app_room _ _ Hap). split; lia. }
  destruct (wp_total _ _ _ (verify_spec p _ b bs Hc Hu ltac:(rewrite Hcf; intros x Hx;
      apply (Htime (unsealed x)), list_elem_of_fmap; eauto)
      ltac:(eapply Forall_impl; [exact Htx|by intros ? []]) Hroot))
    as ([d r] & b' & E & _ & Hc' & (l & _ & ->) & Hok). simpl in Hok.
  assert (r = Ok tt) as ->.
  { apply Hok. rewrite Hcf. split_and!; [|done|by apply extends_unsealed].
    eapply Forall_impl; [exact Htx|by intros ? []]. }
  exists d. eexists. split; [exact E|]. by split.
Qed.

(** A block that is inserted leaves clock and limiter of the chain alone. *)
Lemma insert_block_clock blk (c : Chain.t DB HC BC) :
  wp True (Chain.insert_block blk) (λ r c', r = Ok tt →
    Chain.clk c' = Chain.clk c ∧ Chain.sync_limiter c' = Chain.sync_limiter c) c.
Proof.
  unfold Chain.insert_block. wp_step. unfold wp at 1, Chain.on_ledger at 1.
  destruct (Ledger.get_block_by_height _ _) as [[[old|] l]|]; [by wp_step| |done].
  wp_step. apply wp_gets. wp_step. apply wp_lift; [|done]. intros next _.
  destruct (next <? _).
  { wp_step. unfold wp at 1. destruct (Chain.post_event _ _) as [[[] c1]|]; [by wp_step|done]. }
  wp_step. unfold wp at 1, Chain.on_ledger at 1. destruct (Ledger.add_block _ _) as [[[] l2]|]; [|done].
  wp_step. apply wp_modify. wp_step. apply wp_modify. by wp_step.
Qed.

Lemma commit_stands a bs p seals b :
  stands a bs b → buildable (unsealed <$> bs) p →
  ∃ r b', ImplBackend.commit p seals b = Ret (r, b') ∧ stands a (bs ++ [sealed_block p seals]) b'.
Proof using All.
  intros [Hc Ha Hv Hcf Hlim Hp] [Hne _ _ _ _ Hap Hh].
  apply (appendable_unsealed bs p seals) in Hap as Hap'. pose proof (app_height _ _ Hap') as Eh.
  pose proof (app_room _ _ Hap') as Hroom. change (Block.height (sealed_block p seals)) with
    (Block.height (Proposal.block p)) in Eh, Hroom.
  enough (wp False (ImplBackend.commit p seals) (λ _ b',
    chain_holds b' (bs ++ [sealed_block p seals]) ∧ ImplBackend.validator_set b' = v0 ∧
    ImplBackend.config b' = cfg ∧ ImplBackend.proposed_block_hash b' = EMPTY_HASH ∧
    Chain.sync_limiter (ImplBackend.chain b') ≤ Clk.instant (Chain.clk (ImplBackend.chain b'))) b) as Hw.
  { destruct (wp_total _ _ _ Hw) as (r & b' & E & ? & ? & ? & ? & ?). exists r, b'. split; [done|].
    pose proof (commit_stable (B := Bk) p seals b r b') as Hst. destruct (Hst E) as [Ea _]. split; try done. by rewrite Ea. }
  unfold ImplBackend.commit. wp_step. apply wp_gets. rewrite Hp.
  wp_step. apply wp_when; [intros E%bool_decide_eq_true; by rewrite E in Hh|intros _].
  wp_step. apply wp_lift; [|done]. intros votes [= <-]. wp_step. apply wp_on_chain.
  eapply wp_mono.
  { eapply wp_conj; [exact (insert_block_clock (sealed_block p seals) (ImplBackend.chain b))|].
    apply (insert_block_spec tx_hash_inj _ bs (sealed_block p seals)); try done; [by destruct bs|lia|].
    change (is_u64 (Block.height (Proposal.block p))). split; lia. }
  intros r c'. change (Block.height (sealed_block p seals)) with (Block.height (Proposal.block p)).
  rewrite Eh, Z.ltb_irrefl. intros [Hk (-> & Hr' & _)]. destruct (Hk eq_refl) as [Ek El].
  wp_step. simpl. rewrite Ek, El. by split_and!.
Qed.

(** *** Chains that grow *)

(** The block a chain gets when [p] is decided. *)
Definition decided_as p (blk : Block.t) : Prop :=
  ∃ seals, blk = sealed_block p seals ∧ ImplValidatorSet.has_two_thirds_majority (length seals) v0 = true.
(** [bs] is the chain [bs0] and the blocks of the proposals [ps]. *)
Definition grown bs0 (ps : list Proposal.t) bs : Prop :=
  ∃ new, bs = bs0 ++ new ∧ Forall2 decided_as ps new.

Lemma grown_snoc bs0 ps bs p seals :
  grown bs0 ps bs → ImplValidatorSet.has_two_thirds_majority (length seals) v0 = true →
  grown bs0 (ps ++ [p]) (bs ++ [sealed_block p seals]).
Proof.
  intros (new & -> & Hn) Hq. exists (new ++ [sealed_block p seals]). rewrite app_assoc. split; [done|].
  apply Forall2_app; [done|]. constructor; [|done]. by exists seals.
Qed.

(** What the backend of node [a] is before a height, the proposals [ps]
    having been decided since its chain was [bs0] and the common chain being
    [us], and when proposal [p] is committed. *)
Definition before (bs0 : list Block.t) (ps : list Proposal.t) us (a : Address) b : Prop :=
  ∃ bs, grown bs0 ps bs ∧ unsealed <$> bs = us ∧ stands a bs b.
Definition after (bs0 : list Block.t) (ps : list Proposal.t) us p (a : Address) (seals : list Signature) b : Prop :=
  ∃ bs, grown bs0 ps bs ∧ unsealed <$> bs = us ∧ stands a (bs ++ [sealed_block p seals]) b.

Lemma after_before bs0 ps us p a seals b :
  after bs0 ps us p a seals b → ImplValidatorSet.has_two_thirds_majority (length seals) v0 = true →
  before bs0 (ps ++ [p]) (us ++ [unsealed (Proposal.block p)]) a b.
Proof.
  intros (bs & Hg & <- & Hs) Hq. exists (bs ++ [sealed_block p seals]). split_and!; [by apply grown_snoc| |done].
  by rewrite fmap_app.
Qed.

Lemma last_stands a bs b blk :
  stands a bs b → last (unsealed <$> bs) = Some blk →
  Block.height blk = Z.of_nat (length bs) - 1 ∧
  ∃ lp, be_last_proposal b = Ret (Ok lp, b) ∧ Block.hash (Proposal.block lp) = Block.hash blk ∧
    Block.height (Proposal.block lp) = Block.height blk.
Proof using All.
  intros Hs El. rewrite fmap_last in El. destruct (last bs) as [x|] eqn:Ex; [|done]. injection El as <-.
  destruct (sd_chain _ _ _ Hs) as [Hr Hm]. unfold meta_rep in Hm. rewrite Ex in Hm.
  destruct Hm as (_ & _ & _ & [Hw Hh]). split.
  - rewrite last_lookup in Ex. pose proof (rep_heights _ _ Hr _ _ Ex) as E.
    change (Block.height (unsealed x)) with (Block.height x). rewrite E.
    apply lookup_lt_Some in Ex. lia.
  - eexists. split; [reflexivity|]. split; [exact Hh|].
    by apply (f_equal (λ x : Block.t, Header.height (Block.header x))) in Hw.
Qed.

Lemma impl_backend_serves bs0 ps us p a blk :
  buildable us p → last us = Some blk →
  serves (before bs0 ps us a) (after bs0 ps us p a) v0 (Proposal.new blk) p.
Proof using All.
  intros Hb El. split.
  - intros vs m b r b' (bs & Hg & Hu & Hs) E. exists bs. split_and!; [done..|]. exact (gossip_stands a bs vs m b r b' Hs E).
  - intros b (bs & Hg & <- & Hs). destruct (last_stands a bs b blk Hs El) as (_ & lp & E & Eh & Et).
    exists lp, b. split_and!; [done| |done|done]. by exists bs.
  - intros b (bs & _ & _ & Hs). apply Hs.
  - intros b (bs & Hg & <- & Hs). destruct (verify_stands a bs p b Hs Hb) as (d & b' & E & Hs').
    exists d, b'. split; [done|]. by exists bs.
  - intros b seals (bs & Hg & <- & Hs). destruct (commit_stands a bs p seals b Hs Hb) as (r & b' & E & Hs').
    exists r, b'. split; [done|]. by exists bs.
Qed.

(** ** Heights *)

Section heights.
Context (sign_total : ∀ h sk, is_Some (hash_sign h sk)).
Context (seal_readable : ∀ d sk seal a,
  encrypt_commit_bytes d sk = Ret seal → is_Some (verify_address a seal d)).
Abbreviation cluster := (gmap Address (Core.t Bk)).
Implicit Types C : cluster.

(** One height on the common chain [us]: every validator handles the new
    header with its own candidate, any number of rounds pass without a
    proposal, then all handle the pre-prepare of the proposer of round [r],
    and then lists of votes that contain those all of them have gossiped. *)
Inductive one_height us C : Proposal.t → cluster → Prop :=
| OneHeight blk vs ws (candidate : Address → Proposal.t) r C1 a0 payload ms ms' :
    last us = Some blk →
    ImplValidatorSet.calc_proposer (Block.hash blk) (Block.height blk) 0 v0 = Ret vs →
    (∀ a, a ∈ dom C → Block.height (Proposal.block (candidate a)) = Block.height blk + 1) →
    changes v0 (Proposal.new blk) 0 vs (each (λ a, run_event (EvNewHeader (candidate a))) C) r ws C1 →
    let vw := View.new (Block.height blk + 1) r in
    let q := PrePrepare.wire (PrePrepare.new vw (candidate a0)) in
    ImplValidatorSet.is_proposer a0 ws = true → a0 ∈ dom C →
    buildable us (PrePrepare.proposal q) → is_proposal q a0 payload →
    let C2 := each (λ _, run_event (EvMessage payload)) C1 in
    delivers v0 vw Prepare ms C2 →
    let C3 := each (λ a, hear (ms a)) C2 in
    delivers v0 vw Commit ms' C3 →
    one_height us C (PrePrepare.proposal q) (each (λ a, hear (ms' a)) C3).

Inductive heights : list Block.t → cluster → list Proposal.t → cluster → Prop :=
| no_height us C : heights us C [] C
| next_height us C p C' ps C'' :
    one_height us C p C' → heights (us ++ [unsealed (Proposal.block p)]) C' ps C'' →
    heights us C (p :: ps) C''.

Lemma one_height_grows (bs0 : Address → list Block.t) ps us C p C' :
  ImplValidatorSet.has_two_thirds_majority (size (dom C)) v0 = true →
  (∀ a c, C !! a = Some c → joins (before (bs0 a) ps us a) v0 a c) → one_height us C p C' →
  dom C' = dom C ∧ ∀ a c, C' !! a = Some c →
    joins (before (bs0 a) (ps ++ [p]) (us ++ [unsealed (Proposal.block p)]) a) v0 a c.
Proof using All.
  intros Hmaj Hj [blk vs ws candidate r C1 a0 payload ms ms' El Hcalc Hcand Hch vw q Hprop Ha0 Hb Hpay C2 Hms C3 Hms'].
  assert (Block.height blk = Z.of_nat (length us) - 1) as Eblk.
  { apply elem_of_dom in Ha0 as [c0 E0]. destruct (jn_backend _ _ _ _ (Hj a0 c0 E0)) as (bs & _ & <- & Hs).
    rewrite length_fmap. by apply (last_stands a0 bs _ blk Hs El). }
  pose proof (app_room _ _ (bd_appendable _ _ Hb)) as Hroom. rewrite (app_height _ _ (bd_appendable _ _ Hb)) in Hroom.
  assert (0 < length us)%nat as Hus by (destruct us; [done|simpl; lia]).
  destruct (height_decides sign_total seal_readable (λ a, before (bs0 a) ps us a)
    (λ a, after (bs0 a) ps us (PrePrepare.proposal q) a) v0 vs ws (Proposal.new blk) candidate a0 r C C1) as [_ Hdec];
    try done; simpl; [intros a; by apply impl_backend_serves|lia|lia| |].
  { intros a c Ea. split; [by apply Hj|]. apply Hcand. by apply elem_of_dom_2 in Ea. }
  destruct (Hdec payload Hpay ms Hms ms' Hms') as [ED R]. split; [exact ED|].
  intros a c Ea. destruct (R a c Ea) as (Hat & _ & seals & _ & Hq & HJ).
  assert (a ∈ dom C) as [c0 E0]%elem_of_dom by (rewrite <-ED; by apply elem_of_dom_2 in Ea).
  destruct (ah_self _ _ _ _ Hat) as [Ead Ek]. split; [apply Hat| |apply (Hj a c0 E0)|by eapply after_before].
  destruct HJ as (bs & _ & _ & Hs). split_and!; [done|done|apply Hs].
Qed.

Lemma heights_grow (bs0 : Address → list Block.t) ps us C ps' C' :
  heights us C ps' C' →
  ImplValidatorSet.has_two_thirds_majority (size (dom C)) v0 = true →
  (∀ a c, C !! a = Some c → joins (before (bs0 a) ps us a) v0 a c) →
  dom C' = dom C ∧ ∀ a c, C' !! a = Some c →
    joins (before (bs0 a) (ps ++ ps') (us ++ (unsealed ∘ Proposal.block <$> ps')) a) v0 a c.
Proof using All.
  intros Hh. revert ps. induction Hh as [us C|us C p C1 ps' C2 Hone _ IH]; intros ps Hmaj Hj.
  { by rewrite !app_nil_r. }
  destruct (one_height_grows bs0 ps us C p C1 Hmaj Hj Hone) as [E1 Hj1]. rewrite <-E1 in Hmaj |- *.
  destruct (IH (ps ++ [p]) Hmaj Hj1) as [E2 Hj2]. split; [done|]. intros a c Ea.
  specialize (Hj2 a c Ea). by rewrite <-!app_assoc in Hj2.
Qed.

Lemma heights_linked us C ps C' :
  heights us C ps C' → linked us → linked (us ++ (unsealed ∘ Proposal.block <$> ps)).
Proof.
  intros Hh. induction Hh as [us C|us C p C1 ps C2 Hone _ IH]; intros Hl; [by rewrite app_nil_r|].
  rewrite fmap_cons, cons_middle, app_assoc. apply IH, linked_snoc; [done|]. clear IH.
  destruct Hone as [blk vs ws candidate r C3 a0 payload ms ms' El _ _ _ vw q _ _ [_ _ _ _ [_ (x & Ex & Ep & _)] Hap _] _ ? _ ? _].
  intros y Ey. pose proof (app_height _ _ Hap) as Eh. unfold Block.height in Eh. rewrite Eh in Ex.
  rewrite last_lookup in Ey. replace (Z.to_nat _) with (pred (length us)) in Ex by lia.
  rewrite Ey in Ex. by injection Ex as <-.
Qed.

(** A validator whose chain is [bs]. *)
Record validates (a : Address) bs (c : Core.t Bk) : Prop := {
  vd_inv : core_inv c;
  vd_self : Core.address c = a ∧ secret_address (Core.keypair c) = a;
  vd_member : a ∈ addresses v0;
  vd_backend : stands a bs (Core.backend c)
}.

(** C2 The chains of the correct validators grow together: when the correct
    validators are more than two thirds and their chains are the same up to
    the votes of the blocks, then after any number of heights, in each of
    which any number of rounds pass without a proposal, until the timers have
    brought up a correct proposer whose block can be built on the chain, and
    all receive the proposal and the votes the correct ones gossip, in any
    order within a phase, repeated, and mixed with votes of faulty validators
    for any block, every one of them is still running, and its chain is the
    one it started with followed by the proposers' blocks in order, each
    sealed by a quorum of signatures; the chains are again the same up to the votes, and linked
    by their hashes if they were. *)
Theorem chains_grow_together (bs0 : Address → list Block.t) us C (ps : list Proposal.t) C' :
  (∀ a c, C !! a = Some c → validates a (bs0 a) c ∧ unsealed <$> bs0 a = us) →
  ImplValidatorSet.has_two_thirds_majority (size (dom C)) v0 = true →
  heights us C ps C' →
  dom C' = dom C ∧ ∀ a c, C' !! a = Some c → ∃ bs, validates a bs c ∧ grown (bs0 a) ps bs ∧
    unsealed <$> bs = us ++ (unsealed ∘ Proposal.block <$> ps) ∧ (linked us → linked bs).
Proof using All.
  intros Hv Hmaj Hh. destruct (heights_grow bs0 [] us C ps C' Hh Hmaj) as [ED R].
  { intros a c Ea. destruct (Hv a c Ea) as [[Hi [Ead Ek] Hm Hs] Hu]. split; [done| |done|].
    - split_and!; [done|done|apply Hs].
    - exists (bs0 a). split_and!; [|done|done]. exists []. rewrite app_nil_r. by split. }
  split; [done|]. intros a c Ea. destruct (R a c Ea) as [Hi (Ead & Ek & _) Hm (bs & Hg & Hu & Hs)].
  exists bs. split_and!; [by split|done|done|]. intros Hl. apply linked_unsealed. rewrite Hu.
  by eapply heights_linked.
Qed.
End heights.
End impl_backend.
