(* ===== verification/Cluster.v ===== *)
(** * Agreement between validators

    Several cores run side by side ([src/consensus/pbft/core/]); the network
    may delay, reorder, repeat and drop what they gossip, and faulty
    validators send whatever they like.  The file shows what a decision rests
    on and that two correct validators do not decide different blocks of one
    height as long as the commit votes they count are for the block they
    decide, the condition [verify_commit] of [commit.rs] tests and only
    logs.  [Fork] runs the code into two blocks where it does not hold. *)

From stdpp Require Import relations.
From S2P Require Import Prelude External Types Validators Protocol Wire RoundState Backend Core CoreProps CoreSafety.

Section support.
Context {B : Type} `{BackendLaws B} `{CryptoKit} `{CodecLaws} `{HashMapOrderLaws} `{BigInt}.
Abbreviation CM := (M (Core.t B)).
Implicit Types c : Core.t B.

Abbreviation height c := (RoundState.height (Core.current_state c)).
Abbreviation preprepare c := (RoundState.preprepare (Core.current_state c)).
Abbreviation commits c := (RoundState.commits (Core.current_state c)).
Abbreviation vals c := (ImplValidatorSet.validators (Core.validators c)).
Abbreviation proposal_hash p := (Block.hash (Proposal.block (PrePrepare.proposal p))).

(** ** What a decision rests on *)

(** One height [h] with the validators of [v0]; [X a d] says that validator
    [a] has voted to commit the block with hash [d] at that height. *)
Context (h : Height) (v0 : ImplValidatorSet.t) (X : Address → Hash → Prop).

(** The votes a core has counted are for its proposal. *)
Record supported (c : Core.t B) : Prop := {
  sp_height : height c = h;
  sp_vals : vals c = ImplValidatorSet.validators v0;
  sp_votes : ∀ a m, MessageManage.messages (commits c) !! a = Some m →
    ∃ p, preprepare c = Some p ∧ X a (proposal_hash p);
  sp_accept : Core.state c = AcceptRequest → MessageManage.messages (commits c) = ∅;
  sp_timers : ∀ tm m, FxTimerStart tm ∈ Core.fx c → Timer.msg tm = Some m →
    GossipMessage.code m = Preprepare
}.

(** A decision is backed by the votes of a quorum; timers carry proposals
    only. *)
Definition backed (e : Effect) : Prop :=
  match e with
  | FxCommit p _ => ∃ Q : gset Address, Q ⊆ list_to_set (addresses v0) ∧
      ImplValidatorSet.has_two_thirds_majority (size Q) v0 = true ∧
      ∀ a, a ∈ Q → X a (Block.hash (Proposal.block p))
  | FxTimerStart tm => ∀ m, Timer.msg tm = Some m → GossipMessage.code m = Preprepare
  | _ => True
  end.

(** [c] leads to [c'] without losing support, and decides only with it. *)
Definition sup (c c' : Core.t B) : Prop :=
  supported c → supported c' ∧ ∃ l, Core.fx c' = Core.fx c ++ l ∧ Forall backed l.

#[local] Instance sup_preorder : PreOrder sup.
Proof.
  split.
  - intros c Hc. split; [done|]. exists []. by rewrite app_nil_r.
  - intros c1 c2 c3 S1 S2 Hc. destruct (S1 Hc) as (Hc2 & l1 & E1 & F1).
    destruct (S2 Hc2) as (Hc3 & l2 & E2 & F2). split; [done|].
    exists (l1 ++ l2). rewrite E2, E1, app_assoc. split; [done|]. by apply Forall_app.
Qed.

Lemma sp_timers_app c l :
  supported c → Forall backed l → ∀ tm m, FxTimerStart tm ∈ Core.fx c ++ l →
  Timer.msg tm = Some m → GossipMessage.code m = Preprepare.
Proof.
  intros Hc Hl tm m. rewrite elem_of_app. intros [Hin|Hin]; [by eapply sp_timers|].
  rewrite Forall_forall in Hl. apply (Hl _ Hin).
Qed.

Lemma framed_sup (P : Effect → Prop) c c' : (∀ e, P e → backed e) → framed P c c' → sup c c'.
Proof.
  intros HP [Es Ev Ec _ _ _ (l & E & Hl)] Hc. apply (Forall_impl _ _ _ Hl) in HP.
  split; [|by exists l]. split; rewrite ?Es, ?Ev, ?Ec, ?E; try apply Hc. by apply sp_timers_app.
Qed.

Lemma quiet_backed o e :
  (∀ m, o = Some m → GossipMessage.code m = Preprepare) → quiet o e → backed e.
Proof. intros Ho. destruct e; simpl; try done. intros [->| ->]; [done|exact Ho]. Qed.

Lemma harmless_sup c c' : framed harmless c c' → sup c c'.
Proof.
  apply framed_sup. intros e He. apply (quiet_backed None); [done|by apply harmless_quiet].
Qed.

Lemma timer_sup c c' : framed is_timer_fx c c' → sup c c'.
Proof.
  intros Hf. apply harmless_sup. eapply framed_weaken; [apply is_timer_harmless|exact Hf].
Qed.

Lemma vote_sup s c c' : framed (commit_vote s) c c' → sup c c'.
Proof. apply framed_sup. by intros e (m & -> & _). Qed.

(** Changes that keep the counted votes and the proposal. *)
Lemma same_votes_sup c c' :
  height c' = height c → vals c' = vals c → preprepare c' = preprepare c → commits c' = commits c →
  (Core.state c' = AcceptRequest → Core.state c = AcceptRequest) → Core.fx c' = Core.fx c → sup c c'.
Proof.
  intros E1 E2 E3 E4 E5 E6 Hc. split; [|exists []; by rewrite app_nil_r].
  split; rewrite ?E1, ?E2, ?E3, ?E4, ?E6; try apply Hc. intros Es. by apply Hc, E5.
Qed.

(** Changes that leave no vote. *)
Lemma no_votes_sup c c' :
  height c' = height c → vals c' = vals c → MessageManage.messages (commits c') = ∅ →
  Core.fx c' = Core.fx c → sup c c'.
Proof.
  intros E1 E2 E4 E6 Hc. split; [|exists []; by rewrite app_nil_r].
  split; rewrite ?E1, ?E2, ?E4, ?E6; try apply Hc; [|done]. intros a m. by rewrite lookup_empty.
Qed.

Lemma sup_seq {A D : Type} (P : Prop) (m : CM A) (k : A → CM D) c c0 :
  sup c0 c → wp P m (λ _ c1, sup c c1) c → (∀ a c1, sup c0 c1 → wp P (k a) (λ _ c2, sup c0 c2) c1) →
  wp P (m ≫= k) (λ _ c2, sup c0 c2) c.
Proof.
  intros S0 Hm Hk. wp_step. eapply wp_mono; [exact Hm|]. intros a c1 S1. apply Hk. by etrans.
Qed.

(** ** The handlers *)

Lemma lock_hash_sup c : sup c (Core.with_current_state (RoundState.lock_hash (Core.current_state c)) c).
Proof.
  unfold RoundState.lock_hash. destruct (preprepare c) eqn:E.
  - by apply same_votes_sup; simpl; rewrite ?E.
  - by destruct c.
Qed.

Lemma enter_prepared_sup c : wp True Core.enter_prepared (λ _ c', sup c c') c.
Proof using All.
  unfold Core.enter_prepared. wp_step. apply wp_modify. wp_step. apply wp_modify.
  eapply wp_mono; [apply send_commit_framed|]. intros [] c' (p & _ & Hf%vote_sup).
  etrans; [apply lock_hash_sup|]. etrans; [|exact Hf]. by apply same_votes_sup.
Qed.

Lemma prepare_handle_sup m src c : wp True (Core.prepare_handle m src) (λ _ c', sup c c') c.
Proof using All.
  unfold Core.prepare_handle. wp_step. apply wp_lift; [|done]. intros s _.
  wp_step. apply wp_gets. destruct (Core.check_message _ _ c) as [[]|e]; [|done].
  wp_step. apply wp_gets. destruct (Core.verify_prepare _ _ _) as [[]|e]; [|done].
  wp_step. eapply wp_mono with (Q := λ _ c', sup c c').
  { unfold Core.prepare_accept. wp_step. apply wp_gets.
    destruct (MessageManage.add _ _) as [[[]|e] mm]; wp_step; apply wp_modify; wp_step;
      by apply same_votes_sup. }
  intros [[]|e] c1 S1; [|done]. wp_step. apply wp_gets. apply sup_seq; [done| |].
  { apply wp_when; intros _; [apply enter_prepared_sup|done]. }
  intros _ c2 S2. wp_step. apply wp_gets. apply sup_seq; [done| |].
  { apply wp_when; intros _; [apply enter_prepared_sup|done]. }
  intros _ c3 S3. by wp_step.
Qed.

(** A commit message of this height is for the receiver's proposal, and a
    vote its sender has cast. *)
Definition counted (m : GossipMessage.t) (c : Core.t B) : Prop :=
  ∀ s p, from_bytes (GossipMessage.msg m) = Some s → View.height (Subject.view s) = height c →
    preprepare c = Some p → Subject.digest s = proposal_hash p ∧ X (GossipMessage.address m) (Subject.digest s).

Lemma commit_accept_sup m src s c :
  counted m c → core_inv c → from_bytes (GossipMessage.msg m) = Some s →
  View.height (Subject.view s) = height c → Core.state c ≠ AcceptRequest →
  wp True (Core.commit_accept m src) (λ _ c', sup c c') c.
Proof using All.
  intros Hm Hi Es Hh Hs. destruct (commit_accept_shape m src c) as (r & mm & Emm & E).
  unfold wp. rewrite E. intros Hc. split; [|exists []; by rewrite app_nil_r].
  destruct Hc as [E1 E2 Hv _ Ht]. split; try done. simpl. intros a m'.
  destruct (manage_add_cases m (commits c)) as [[_ Ea]|[_ Ea]]; rewrite Ea in Emm; injection Emm as <- <-;
    [|apply Hv]. simpl. rewrite lookup_insert_Some. intros [[<- <-]|[_ Hl]]; [|by eapply Hv].
  destruct (inv_proposal _ Hi Hs) as [p Ep]. exists p. split; [done|].
  destruct (Hm s p Es Hh Ep) as [<- ?]. done.
Qed.

(** Deciding: the voters are the quorum. *)
Lemma commit_sup c :
  core_inv c →
  (ImplValidatorSet.two_thirds_majority (Core.validators c) < MessageManage.len (commits c))%nat →
  wp True Core.commit (λ _ c', sup c c') c.
Proof using All.
  intros Hi Hq. unfold Core.commit. wp_step. apply wp_modify. wp_step. apply wp_gets.
  wp_step. apply wp_lift; [|done]. intros seals _. wp_step. apply wp_rassert; [intros _|done].
  wp_step. apply wp_lift; [|done]. intros q Eq. apply unwrap_Ret in Eq. unfold RoundState.proposal in Eq.
  simpl in Eq. destruct (preprepare c) as [p|] eqn:Ep; [|done]. injection Eq as <-.
  wp_step. apply wp_modify. wp_step. apply wp_on_backend; [apply commit_stable|]. intros r b _ Hb. wp_step.
  intros Hc. assert (backed (FxCommit (PrePrepare.proposal p) seals)) as Hbk.
  { exists (dom (MessageManage.messages (commits c))). pose proof (inv_commits _ Hi) as Ht. split_and!.
    - intros a [m Hm]%elem_of_dom. apply elem_of_list_to_set.
      rewrite <-(sp_vals _ Hc), <-(table_vals _ _ Ht). by apply (table_wf _ _ Ht a m).
    - rewrite <-(majority_vals _ _ _ (sp_vals _ Hc)).
      unfold ImplValidatorSet.has_two_thirds_majority. apply Nat.leb_le.
      rewrite size_dom. fold (MessageManage.len (commits c)). lia.
    - intros a [m Hm]%elem_of_dom. destruct (sp_votes _ Hc a m Hm) as (p' & Ep' & HX). congruence. }
  split; [|by exists [FxCommit (PrePrepare.proposal p) seals]; split; [|constructor]].
  split; try apply Hc; [done|]. simpl. apply sp_timers_app; [done|by constructor].
Qed.

Lemma commit_handle_sup m src c :
  counted m c → core_inv c → is_Some (GossipMessage.signature m) →
  wp True (Core.commit_handle m src) (λ _ c', sup c c') c.
Proof using All.
  intros Hm Hi Hsg. unfold Core.commit_handle. wp_step. apply wp_lift; [|done]. intros s Es%unwrap_Ret.
  wp_step. apply wp_gets. destruct (Core.check_message _ _ c) as [[]|e] eqn:Ec; [|done].
  apply check_message_Ok in Ec as (_ & Hh & Hst). assert (Core.state c ≠ AcceptRequest) by auto.
  wp_step. apply wp_gets. wp_step. apply wp_lift; [|done]. intros [[]|e] _; [|done].
  wp_step. pose proof (commit_accept_sup m src s c Hm Hi Es Hh) as Hsup.
  pose proof (commit_accept_safe eq m src c Hi Hsg) as Hsafe. unfold wp in Hsup, Hsafe |- * at 1.
  destruct (Core.commit_accept m src c) as [[[[]|e] c1]|]; [|by apply Hsup|done].
  specialize (Hsup ltac:(done)). destruct Hsafe as (Hi1 & _).
  wp_step. apply wp_gets. apply sup_seq; [done| |by intros; wp_step].
  apply wp_when; [|done]. intros [Hq%Nat.ltb_lt _]%andb_true_iff. wp_step. apply wp_modify.
  destruct (lock_hash_safe eq c1 Hi1) as (Hi2 & _).
  eapply wp_mono; [apply commit_sup; [exact Hi2|]|].
  { simpl. unfold RoundState.lock_hash. by destruct (preprepare c1). }
  intros [] c3 S3. etrans; [apply lock_hash_sup|exact S3].
Qed.

Lemma on_valid_sup p c : wp True (Core.preprepare_on_valid p) (λ _ c', sup c c') c.
Proof using All.
  unfold Core.preprepare_on_valid. wp_step. apply wp_gets.
  apply wp_when; [|done]. intros Hs%bool_decide_eq_true.
  assert (∀ st, st ≠ AcceptRequest → sup c (Core.with_state st (Core.with_current_state
    (RoundState.set_preprepare p (Core.current_state c)) (Core.with_consensus_timestamp
    (Header.time (Block.header (Proposal.block (PrePrepare.proposal p)))) c)))) as Hset.
  { intros st _ Hc. by apply no_votes_sup; try apply Hc. }
  destruct (RoundState.get_lock_hash _) as [hl|]; [case_bool_decide|].
  - wp_step. eapply wp_mono; [apply accetp_fields|]. intros [] c1 ->. wp_step. apply wp_modify.
    eapply wp_mono; [apply send_commit_framed|]. intros [] c' (q & _ & Hf%vote_sup).
    etrans; [by apply (Hset Prepared)|exact Hf].
  - eapply wp_mono; [apply send_next_round_change_framed|]. intros [] c' Hf. by apply harmless_sup.
  - wp_step. eapply wp_mono; [apply accetp_fields|]. intros [] c1 ->. wp_step. apply wp_modify.
    eapply wp_mono; [apply send_prepare_framed|]. intros [] c' Hf%harmless_sup.
    etrans; [by apply (Hset PrePrepared)|exact Hf].
Qed.

Lemma preprepare_handle_sup m src c :
  GossipMessage.code m = Preprepare → is_Some (GossipMessage.signature m) →
  wp True (Core.preprepare_handle m src) (λ _ c', sup c c') c.
Proof using All.
  intros Hcode Hsg. unfold Core.preprepare_handle. wp_step. apply wp_lift; [|done]. intros p _.
  wp_step. apply wp_gets. wp_step. eapply wp_mono with (Q := λ _ c', sup c c').
  { destruct (Core.check_message _ _ c) as [[]|[]] eqn:Ec; try by wp_step.
    apply check_message_Old in Ec. eapply wp_mono; [by apply (old_message_framed eq)|].
    intros r c'. apply framed_sup. intros e [_ He]. by apply (quiet_backed None). }
  intros [[]|e] c1 S1; [|done]. wp_step. apply wp_gets. destruct (negb _); [by wp_step|].
  wp_step. apply wp_on_backend; [apply verify_stable|]. intros [d r] b _ Hb.
  assert (sup c (Core.with_backend b c1)) as S2.
  { etrans; [exact S1|]. by apply (harmless_sup _ _ (with_backend_framed _ _ _ Hb)). }
  destruct r as [[]|[]]; (apply sup_seq; [done| |by intros; wp_step]); try apply on_valid_sup;
    try (eapply wp_mono; [apply send_next_round_change_framed|]; intros [] c' Hf; by apply harmless_sup).
  eapply wp_mono; [by apply (new_future_timer_framed eq)|]. intros [] c'. apply framed_sup.
  intros e [_ He]. apply (quiet_backed (Some m)); [|done]. by intros ? [= <-].
Qed.

Lemma start_new_round_sup r pre c : wp True (Core.start_new_round r pre) (λ _ c', sup c c') c.
Proof using All.
  unfold Core.start_new_round. wp_step. apply wp_rassert; [intros _|done].
  wp_step. apply wp_gets. wp_step. apply wp_rassert; [intros _|done].
  wp_step. eapply wp_mono; [apply last_proposal_framed|]. intros p c1 Hf1.
  pose proof (harmless_sup _ _ Hf1) as S1. rewrite <-(fr_current _ _ _ Hf1).
  wp_step. apply wp_lift; [|done]. intros next _. wp_step. apply wp_rassert; [intros _|done].
  wp_step; [by wp_step|]. wp_step. apply wp_gets. wp_step. apply wp_rassert; [intros _|done].
  wp_step. apply wp_modify. wp_step. apply wp_modify. wp_step. apply wp_lift; [|done].
  intros vs' Hvs%calc_proposer_validators. simpl in Hvs.
  wp_step. apply wp_modify. wp_step. apply wp_modify. wp_step. apply wp_modify. cbv zeta.
  match goal with |- wp _ _ _ ?x => set (c2 := x) end.
  assert (sup c c2) as S2.
  { etrans; [exact S1|]. unfold c2. by apply no_votes_sup; simpl; destruct (RoundState.is_locked _). }
  clearbody c2. apply sup_seq; [done| |].
  - eapply wp_mono; [apply propose_new_round_framed|]. intros [] c3 Hf. by apply harmless_sup.
  - intros [] c3 S3. eapply wp_mono; [apply new_round_change_timer_framed|].
    intros [] c4 Hf%timer_sup. by etrans.
Qed.

Lemma round_change_handle_sup m src c : wp True (Core.round_change_handle m src) (λ _ c', sup c c') c.
Proof using All.
  unfold Core.round_change_handle. wp_step. apply wp_lift; [|done]. intros s _.
  wp_step. apply wp_gets. destruct (Core.check_message _ _ c) as [[]|e]; [|done].
  wp_step. apply wp_gets. cbv zeta. wp_step.
  { apply sup_seq; [done| |by intros; wp_step].
    eapply wp_mono; [apply send_round_change_framed|]. intros [] c' Hf. by apply harmless_sup. }
  destruct (RoundChangeSet.add _ _ _) as [res rcs]. wp_step. apply wp_modify.
  assert (sup c (Core.with_round_change_set rcs c)) as S1 by by apply same_votes_sup.
  destruct res as [n|e]; [|by wp_step]. wp_step; [|by wp_step; wp_step].
  apply sup_seq; [done| |].
  - eapply wp_mono; [apply send_round_change_framed|]. intros [] c' Hf. by apply harmless_sup.
  - intros _ c2 S2. apply sup_seq; [done|apply start_new_round_sup|by intros; wp_step].
Qed.

Lemma handle_check_message_sup m src c :
  (GossipMessage.code m = Commit → counted m c) → core_inv c → is_Some (GossipMessage.signature m) →
  wp True (Core.handle_check_message m src) (λ _ c', sup c c') c.
Proof using All.
  intros Hm Hi Hsg. unfold Core.handle_check_message. apply sup_seq; [done| |].
  - destruct (GossipMessage.code m) eqn:Ec.
    + by apply preprepare_handle_sup.
    + apply prepare_handle_sup.
    + apply commit_handle_sup; auto.
    + apply round_change_handle_sup.
  - intros r c1 S1. apply sup_seq; [done| |by intros; wp_step].
    apply wp_when; intros _; [|done]. apply wp_modify.
    apply (harmless_sup _ _ (emit_framed _ (FxBacklog m) c1 I)).
Qed.

Lemma stop_timer_sup (f : Core.t B → Core.t B) c :
  (∀ c, sup c (f c)) → wp True (Core.stop_timer;; modify f) (λ _ c', sup c c') c.
Proof using All.
  intros Hf. wp_step. eapply wp_mono; [apply stop_timer_framed|]. intros [] c1 S1%timer_sup.
  apply wp_modify. by etrans.
Qed.

(** The commit message that arrives with an event is [counted]. *)
Definition arrives (e : Event) (c : Core.t B) : Prop :=
  match e with
  | EvMessage payload => ∀ m a m', from_bytes payload = Some m →
      GossipMessage.address_ m = (Ok a, m') → GossipMessage.code m' = Commit → counted m' c
  | _ => True
  end.

Lemma event_sup e c :
  supported c → core_inv c → event_enabled e c → is_new_header e = false → arrives e c →
  wp True (run_event e) (λ _ c', sup c c') c.
Proof using All.
  intros Hc Hi He Hn Ha. destruct e as [p| |payload|m| |op]; simpl in *; [done| | | | |].
  - apply stop_timer_sup. intros. by apply same_votes_sup.
  - apply sup_seq; [done| |by intros; wp_step].
    unfold Core.handle_message_event, Core.handle_message. wp_step. apply wp_gets. wp_step; [by wp_step|].
    wp_step. apply wp_lift; [|done]. intros m Em%unwrap_Ret.
    destruct (GossipMessage.address_ m) as [[a|e] m'] eqn:E; [|by wp_step].
    destruct (ImplValidatorSet.get_by_address _ _); [|by wp_step].
    apply handle_check_message_sup; [by eapply Ha|done|]. by apply address_signed_msg in E as [? _].
  - destruct He as (tm & Hin & Etm%timer_post_msg). apply sup_seq; [done| |by intros; wp_step].
    apply handle_check_message_sup; [|done|by eapply inv_timers].
    rewrite (sp_timers _ Hc tm m) by done. done.
  - unfold Core.handle_timer_event. wp_step. eapply wp_mono; [apply last_proposal_framed|].
    intros p c1 Hf1. pose proof (harmless_sup _ _ Hf1) as S1. wp_step. apply wp_gets. wp_step.
    + eapply wp_mono; [apply (stop_timer_sup (Core.with_wait_round_change false))|].
      { intros. by apply same_votes_sup. }
      intros [] c2 S2. by etrans.
    + eapply wp_mono; [apply send_next_round_change_framed|]. intros [] c2 S2%harmless_sup. by etrans.
  - destruct op; simpl; [|by wp_step]. apply stop_timer_sup. intros. by apply same_votes_sup.
Qed.
End support.

(** ** Validators side by side *)

Section cluster.
Context {B : Type} `{BackendLaws B} `{CryptoKit} `{CodecLaws} `{HashMapOrderLaws} `{BigInt}.
Implicit Types c : Core.t B.

Abbreviation height c := (RoundState.height (Core.current_state c)).
Abbreviation preprepare c := (RoundState.preprepare (Core.current_state c)).
Abbreviation commits c := (RoundState.commits (Core.current_state c)).
Abbreviation lock c := (RoundState.lock (Core.current_state c)).
Abbreviation vals c := (ImplValidatorSet.validators (Core.validators c)).
Abbreviation proposal_hash p := (Block.hash (Proposal.block (PrePrepare.proposal p))).

(** The correct validators, by address; whoever else is in the validator set
    is faulty. *)
Abbreviation cluster := (gmap Address (Core.t B)).
Implicit Types C : cluster.

Definition gossiped C (a : Address) (code : MessageType) (payload : bytes) : Prop :=
  ∃ c m, C !! a = Some c ∧ FxGossip m ∈ Core.fx c ∧
    GossipMessage.code m = code ∧ GossipMessage.msg m = payload.

(** Nobody signs for a correct validator: a message attributed to one is a
    message it has gossiped, now or earlier. *)
Definition authentic C (e : Event) : Prop :=
  match e with
  | EvMessage payload => ∀ m a m', from_bytes payload = Some m →
      GossipMessage.address_ m = (Ok a, m') → a ∈ dom C →
      gossiped C a (GossipMessage.code m') (GossipMessage.msg m')
  | _ => True
  end.

(** A commit vote of this height that arrives is for the block the receiver
    has accepted: the digests [verify_commit] compares are equal. *)
Definition consistent (e : Event) (c : Core.t B) : Prop :=
  match e with
  | EvMessage payload => ∀ m a m' s p, from_bytes payload = Some m →
      GossipMessage.address_ m = (Ok a, m') → GossipMessage.code m' = Commit →
      from_bytes (GossipMessage.msg m') = Some s → View.height (Subject.view s) = height c →
      preprepare c = Some p → Subject.digest s = proposal_hash p
  | _ => True
  end.

(** One validator handles one event that satisfies [K], or its clock or
    chain changes. *)
Inductive cluster_step (K : Event → Core.t B → Prop) : cluster → cluster → Prop :=
| cluster_event C a c e c' :
    C !! a = Some c → event_enabled e c → is_new_header e = false → authentic C e → K e c →
    run_event e c = Ret (tt, c') → cluster_step K C (<[a := c']> C)
| cluster_env C a c b clk' :
    C !! a = Some c → same_backend (Core.backend c) b →
    cluster_step K C (<[a := Core.with_clk clk' (Core.with_backend b c)]> C).

(** The validators have begun height [h] and voted for nothing yet. *)
Record begins (h : Height) (v0 : ImplValidatorSet.t) (c : Core.t B) : Prop := {
  bg_inv : core_inv c;
  bg_height : height c = h;
  bg_vals : vals c = ImplValidatorSet.validators v0;
  bg_commits : MessageManage.messages (commits c) = ∅;
  bg_votes : ∀ m s, FxGossip m ∈ Core.fx c → GossipMessage.code m = Commit →
    from_bytes (GossipMessage.msg m) = Some s → View.height (Subject.view s) ≠ h;
  bg_timers : ∀ tm m, FxTimerStart tm ∈ Core.fx c → Timer.msg tm = Some m →
    GossipMessage.code m = Preprepare
}.

(** Validator [a] has handed proposal [p] to its backend since the start. *)
Definition decides C0 C (a : Address) (p : Proposal.t) : Prop :=
  ∃ c0 c l seals, C0 !! a = Some c0 ∧ C !! a = Some c ∧ Core.fx c = Core.fx c0 ++ l ∧ FxCommit p seals ∈ l.

Section run.
Context (h : Height) (v0 : ImplValidatorSet.t) (C0 : cluster).
Context (Hbegin : ∀ a c, C0 !! a = Some c → begins h v0 c).

(** A vote a correct validator has cast; faulty ones vote for everything. *)
Definition cast C (a : Address) (d : Hash) : Prop :=
  a ∈ dom C → ∃ payload s, gossiped C a Commit payload ∧ from_bytes payload = Some s ∧
    View.height (Subject.view s) = h ∧ Subject.digest s = d.

(** Where a validator stands, given the votes cast in [C]. *)
Record stands C (a : Address) (c : Core.t B) : Prop := {
  st_run : ∃ c0, C0 !! a = Some c0 ∧ rtc step_at_height c0 c ∧
    ∃ l, Core.fx c = Core.fx c0 ++ l ∧ Forall (backed v0 (cast C)) l;
  st_inv : core_inv c;
  st_supported : supported h v0 (cast C) c
}.

Lemma backed_mono (X X' : Address → Hash → Prop) e :
  (∀ a d, X a d → X' a d) → backed v0 X e → backed v0 X' e.
Proof. intros HX. destruct e; simpl; try done. intros (Q & ? & ? & ?). exists Q. eauto. Qed.

Lemma stands_mono C C' a c :
  (∀ a d, cast C a d → cast C' a d) → stands C a c → stands C' a c.
Proof.
  intros HX [(c0 & E0 & Hr & l & E & Hl) Hi [? ? Hv ? ?]]. split; [|done|].
  - exists c0. split_and!; [done..|]. exists l. split; [done|]. eapply Forall_impl; [exact Hl|].
    intros e. by apply backed_mono.
  - split; try done. intros b m Hm. destruct (Hv b m Hm) as (p & ? & ?). exists p. auto.
Qed.

Lemma gossiped_mono C a c c' l b code payload :
  C !! a = Some c → Core.fx c' = Core.fx c ++ l →
  gossiped C b code payload → gossiped (<[a := c']> C) b code payload.
Proof.
  intros Ea E (cb & m & Eb & Hm & ? & ?). destruct (decide (a = b)) as [->|Hne].
  - exists c', m. rewrite lookup_insert_eq, E, elem_of_app. split_and!; try done. left. congruence.
  - exists cb, m. by rewrite lookup_insert_ne.
Qed.

Lemma cast_mono C a c c' l b d :
  C !! a = Some c → Core.fx c' = Core.fx c ++ l → cast C b d → cast (<[a := c']> C) b d.
Proof.
  intros Ea E Hc Hb. assert (a ∈ dom C) by by apply elem_of_dom.
  rewrite dom_insert_lookup_L in Hb by done. destruct (Hc Hb) as (payload & s & Hg & ?).
  exists payload, s. split; [|done]. by eapply gossiped_mono.
Qed.

(** The step of one validator, seen by the others. *)
Lemma stands_update C a c c' :
  C !! a = Some c → (∀ b cb, C !! b = Some cb → stands C b cb) →
  step_at_height c c' → core_inv c' → sup h v0 (cast C) c c' →
  ∀ b cb, <[a := c']> C !! b = Some cb → stands (<[a := c']> C) b cb.
Proof.
  intros Ea HC Hs Hi' S b cb. destruct (HC a c Ea) as [(c0 & E0 & Hr & l & E & Hl) Hi Hc].
  destruct (S Hc) as (Hc' & l' & E' & Hl').
  rewrite lookup_insert_Some. intros [[<- <-]|[Hne Hb]];
    (eapply stands_mono; [intros ? ?; by eapply cast_mono|]); [|by apply HC].
  split; [|done..]. exists c0. split_and!; [done|by eapply rtc_r|].
  exists (l ++ l'). rewrite E', E, app_assoc. split; [done|]. by apply Forall_app.
Qed.

Lemma consistent_arrives C e c : authentic C e → consistent e c → height c = h → arrives (cast C) e c.
Proof.
  intros Ha Hc Hh. destruct e as [| |payload| | |]; try done. intros m a m' Em Ead Ecode s p Es Hv Ep.
  split; [by eapply Hc|]. intros Hd. apply address_signed_msg in Ead as Eadd. destruct Eadd as [_ <-].
  exists (GossipMessage.msg m'), s. rewrite <-Ecode. split_and!; [|done|congruence|done].
  by eapply Ha.
Qed.

Lemma run_stands C : rtc (cluster_step consistent) C0 C → dom C = dom C0 ∧ ∀ a c, C !! a = Some c → stands C a c.
Proof using All.
  revert C. apply (rtc_ind_r (λ C, dom C = dom C0 ∧ ∀ a c, C !! a = Some c → stands C a c)).
  { split; [done|]. intros a c Ea. destruct (Hbegin a c Ea). split; [|done|].
    - exists c. split_and!; [done|done|]. exists []. by rewrite app_nil_r.
    - split; try done. intros b m. by rewrite bg_commits0, lookup_empty. }
  intros C C' _ Hs [Hd IH]. destruct Hs as [C a c e c' Ea He Hn Hau Hk E|C a c b clk' Ea Hb];
    (split; [by rewrite dom_insert_lookup_L|]);
    destruct (IH a c Ea) as [Hrun Hi Hc]; apply (stands_update C a c); try done.
  - by apply (sah_event c e).
  - apply (wp_elim _ _ _ _ _ _ (event_safe e c Hi He) E).
  - refine (wp_elim _ _ _ _ _ _ (event_sup h v0 (cast C) e c Hc Hi He Hn _) E).
    apply consistent_arrives; [done..|]. apply Hc.
  - by apply sah_env.
  - by apply env_safe.
  - apply harmless_sup. split; try done. exists []. by rewrite app_nil_r.
Qed.

(** What a correct validator votes for is what it is locked on. *)
Lemma cast_lock C a c d : stands C a c → C !! a = Some c → cast C a d → lock c = Some d.
Proof using All.
  intros [(c0 & E0 & Hr & l & E & _) _ _] Ea Hc. destruct (Hbegin a c0 E0) as [Hi Hh _ _ Hno _].
  destruct Hc as (payload & s & (c1 & m & Ec1 & Hm & Ecode & <-) & Es & Hv & <-); [by eapply elem_of_dom_2|].
  rewrite Ea in Ec1. injection Ec1 as <-. rewrite E, elem_of_app in Hm.
  destruct Hm as [Hm|Hm]; [by destruct (Hno m s)|].
  destruct (run_effects _ _ _ _ Hi Hr E Hm Ecode) as (s' & Es' & Hs').
  rewrite Es', from_into in Es. injection Es as ->.
  destruct (run_at_height _ _ Hi Hr) as [_ S]. pose proof (ok_height _ _ _ S).
  destruct Hs' as [|[_ ?]]; [lia|done].
Qed.

Lemma decides_backed C a p :
  rtc (cluster_step consistent) C0 C → decides C0 C a p →
  ∃ Q : gset Address, Q ⊆ list_to_set (addresses v0) ∧
    ImplValidatorSet.has_two_thirds_majority (size Q) v0 = true ∧
    ∀ b, b ∈ Q → cast C b (Block.hash (Proposal.block p)).
Proof using All.
  intros Hr (c0 & c & l & seals & E0 & E & El & Hin). destruct (run_stands C Hr) as [_ HC].
  destruct (st_run _ _ _ (HC a c E)) as (c0' & E0' & _ & l' & El' & Hl').
  rewrite E0 in E0'. injection E0' as <-. rewrite El in El'. apply app_inv_head in El' as ->.
  rewrite Forall_forall in Hl'. exact (Hl' _ Hin).
Qed.
End run.

(** C1 Agreement: let the correct validators begin a height together, with fewer
    than a third of the validator set faulty and able to send anything but a
    correct validator's signature, on a network that delays, repeats,
    reorders and drops messages.  If every commit vote of the height that
    reaches a correct validator carries the digest of the proposal that
    validator has accepted, what [verify_commit] compares, then no two
    correct validators hand different blocks to [Backend::commit], in
    whatever rounds they do it. *)
Theorem agreement (h : Height) (v0 : ImplValidatorSet.t) (C0 C : cluster) (a a' : Address)
    (p p' : Proposal.t) :
  (ImplValidatorSet.size v0 ≤ quorum_bound)%nat →
  (3 * size (list_to_set (addresses v0) ∖ dom C0 : gset Address) < ImplValidatorSet.size v0)%nat →
  (∀ b c, C0 !! b = Some c → begins h v0 c) →
  rtc (cluster_step consistent) C0 C →
  decides C0 C a p → decides C0 C a' p' →
  Block.hash (Proposal.block p) = Block.hash (Proposal.block p').
Proof using All.
  intros Hn Hf Hb Hr Hd Hd'.
  destruct (decides_backed h v0 C0 Hb C a p Hr Hd) as (Q & HQ & Qm & QX).
  destruct (decides_backed h v0 C0 Hb C a' p' Hr Hd') as (Q' & HQ' & Qm' & QX').
  destruct (quorums_share_honest v0 Q Q' _ Hn HQ HQ' Qm Qm' Hf) as (b & Hq & Hq' & Hnf).
  destruct (run_stands h v0 C0 Hb C Hr) as [Hdom HC].
  assert (b ∈ dom C) as [c Ec]%elem_of_dom.
  { rewrite Hdom. destruct (decide (b ∈ dom C0)); [done|]. set_solver. }
  pose proof (cast_lock h v0 C0 Hb C b c _ (HC b c Ec) Ec (QX b Hq)).
  pose proof (cast_lock h v0 C0 Hb C b c _ (HC b c Ec) Ec (QX' b Hq')). congruence.
Qed.
End cluster.
