(* ===== verification/Engine.v ===== *)
(** * The engine and the core side by side ([src/consensus/consensus.rs])

    [create_bft_engine] gives the miner and the core a clone each of one
    [ImplBackend].  Clones share the chain and the commit channel; the
    remaining fields, the hash of the block being sealed among them, are
    copied.  The two clones are run here in any interleaving, and it is shown
    what of a decision of the core the sealing task of the miner can see. *)

From S2P Require Import Prelude External Types Validators Protocol Wire RoundState Store Ledger Backend Core.

Section engine.
Context {DB HC BC LC : Type}.
Context `{Database DB, LruCache HC Hash Header.t, LruCache BC Hash Block.t, LruCache LC Hash unit}.
Context `{CryptoKit, Codec, Chrono, BigInt, HashMapOrder}.
Abbreviation B := (ImplBackend.t DB HC BC LC).

(** The core's thread has sent its address before the engine goes on. *)
Definition create_bft_engine (key_pair : Secret) (chain : Chain.t DB HC BC) (clk : Clk.t) : Core.t B * B :=
  let backend := ImplBackend.new_impl_backend key_pair chain in
  let last_block := Chain.get_last_block chain in
  let core_backend := ImplBackend.set_core_pid (Some tt) backend in
  let cfg := Chain.config chain in
  let core := Core.new last_block (Chain.get_validators (Block.height last_block) chain)
    (Config.new (ChainConfig.request_time cfg) (ChainConfig.block_period cfg / 1000) 0)
    core_backend key_pair clk in
  (core, ImplBackend.set_core_pid (Some tt) backend).

(** ** The clones *)

Record clones : Type := Clones { engine : B; core : B }.

(** What the clones share, as [from] left it. *)
Definition share (from to : B) : B :=
  ImplBackend.set_chain (ImplBackend.chain from) (ImplBackend.set_commit_chan (ImplBackend.commit_chan from) to).

Definition on_engine {A : Type} (m : M B A) : M clones A :=
  λ n, match m (engine n) with Ret (a, b) => Ret (a, Clones b (share b (core n))) | Panic => Panic end.
Definition on_core {A : Type} (m : M B A) : M clones A :=
  λ n, match m (core n) with Ret (a, b) => Ret (a, Clones (share b (engine n)) b) | Panic => Panic end.

(** The calls of the trait [Engine]. *)
Inductive EngineCall : Type :=
| EStart
| EStop
| ENewChainHeader (p : Proposal.t)
| EPrepare (h : Header.t)
| EFinalize (h : Header.t)
| ESeal (b : Block.t)
| EVerifyHeader (h : Header.t) (seal : bool).
Definition engine_call (c : EngineCall) : M B unit :=
  match c with
  | EStart => _ ← ImplBackend.start; mret tt
  | EStop => _ ← ImplBackend.stop; mret tt
  | ENewChainHeader p => _ ← ImplBackend.new_chain_header p; mret tt
  | EPrepare h => _ ← ImplBackend.prepare h; mret tt
  | EFinalize h => _ ← ImplBackend.finalize h; mret tt
  | ESeal b => _ ← ImplBackend.seal b; mret tt
  | EVerifyHeader h s => _ ← ImplBackend.verify_header h s; mret tt
  end.

(** The calls of the trait [Backend] that take [&mut self] or read the
    chain: all the core, which is generic in the trait, does to its clone. *)
Inductive CoreCall : Type :=
| CGossip (vs : ImplValidatorSet.t) (m : GossipMessage.t)
| CCommit (p : Proposal.t) (seals : list Signature)
| CVerify (p : Proposal.t)
| CLastProposal
| CHasProposal (h : Hash) (height : Height)
| CGetProposer (height : Height)
| CGetHeader (height : Height).
Definition core_call (c : CoreCall) : M B unit :=
  match c with
  | CGossip vs m => _ ← be_gossip vs m; mret tt
  | CCommit p seals => _ ← be_commit p seals; mret tt
  | CVerify p => _ ← be_verify p; mret tt
  | CLastProposal => _ ← be_last_proposal; mret tt
  | CHasProposal h ht => _ ← be_has_proposal h ht; mret tt
  | CGetProposer ht => _ ← be_get_proposer ht; mret tt
  | CGetHeader ht => _ ← be_get_header_by_height ht; mret tt
  end.

(** [SealPoll] is one [recv_timeout] of the sealing task, [ByChain] what
    other holders of the chain do to it. *)
Inductive NodeStep : Type :=
| ByEngine (c : EngineCall)
| ByCore (c : CoreCall)
| ByChain (c : Chain.t DB HC BC)
| SealPoll.

Definition seal_poll : M B ImplBackend.CommitPoll :=
  chan ← gets ImplBackend.commit_chan;
  match chan with
  | block :: rest => modify (ImplBackend.set_commit_chan rest);; mret (ImplBackend.CommitGot block)
  | [] => mret ImplBackend.CommitError
  end.

Definition node_step (s : NodeStep) : M clones (list ImplBackend.CommitPoll) :=
  match s with
  | ByEngine c => on_engine (engine_call c);; mret []
  | ByCore c => on_core (core_call c);; mret []
  | ByChain c => on_engine (modify (ImplBackend.set_chain c));; mret []
  | SealPoll => p ← on_engine seal_poll; mret [p]
  end.

Fixpoint node_run (l : list NodeStep) : M clones (list ImplBackend.CommitPoll) :=
  match l with
  | [] => mret []
  | s :: rest => p ← node_step s; q ← node_run rest; mret (p ++ q)
  end.

(** A commit of a block whose hash is not the placeholder. *)
Definition real_block (s : NodeStep) : Prop :=
  match s with
  | ByCore (CCommit p seals) => Block.hash (Proposal.block (Proposal.set_seal seals p)) ≠ EMPTY_HASH
  | _ => True
  end.

(** ** What stays *)

Definition quiet_chan (b : B) : Prop := ImplBackend.commit_chan b = [].
Definition idle (b : B) : Prop := quiet_chan b ∧ ImplBackend.proposed_block_hash b = EMPTY_HASH.

Lemma on_chain_any {A} (m : M (Chain.t DB HC BC) A) (Q : A → B → Prop) b :
  (∀ a c, Q a (ImplBackend.set_chain c b)) → wp True (ImplBackend.on_chain m) Q b.
Proof. intros HQ. unfold wp, ImplBackend.on_chain. destruct (m _) as [[a c]|]; [apply HQ|done]. Qed.

(** Both predicates survive a step that writes neither field. *)
Ltac idle_step :=
  lazymatch goal with
  | |- wp _ (ImplBackend.on_chain _) _ _ => apply on_chain_any; intros ? ?
  | |- wp _ (ImplBackend.send _) _ _ => apply wp_modify
  | |- wp _ (modify _) _ _ => apply wp_modify
  | |- wp _ (gets _) _ _ => apply wp_gets
  | |- wp _ (lift _) _ _ => apply wp_lift; [intros ? _|intros _; exact I]
  | |- wp _ panic _ _ => exact I
  | _ => wp_step
  end.
Ltac idle_tac := repeat (idle_step; cbn beta iota); try exact I; try assumption; try done.

Lemma prepare_chan h b : quiet_chan b → wp True (ImplBackend.prepare h) (λ _ b', quiet_chan b') b.
Proof. intros Hb. unfold ImplBackend.prepare. idle_tac. Qed.

Lemma new_chain_header_chan p b :
  quiet_chan b → wp True (ImplBackend.new_chain_header p) (λ _ b', quiet_chan b') b.
Proof. intros Hb. unfold ImplBackend.new_chain_header. idle_tac. Qed.

Lemma engine_call_chan c b : quiet_chan b → wp True (engine_call c) (λ _ b', quiet_chan b') b.
Proof.
  intros Hb. destruct c; simpl; wp_step.
  - unfold ImplBackend.start. idle_tac.
  - unfold ImplBackend.stop. idle_tac.
  - eapply wp_mono; [by apply new_chain_header_chan|]. intros. by wp_step.
  - eapply wp_mono; [by apply prepare_chan|]. intros. by wp_step.
  - unfold ImplBackend.finalize. idle_tac.
  - unfold ImplBackend.seal. wp_step. apply wp_gets. wp_step; [idle_tac|].
    wp_step. eapply wp_mono; [by apply prepare_chan|]. intros r b1 Hb1. cbn beta.
    do 3 (idle_step; cbn beta). eapply wp_mono; [by apply new_chain_header_chan|]. intros r' b2 Hb2. cbn beta. idle_tac.
  - unfold ImplBackend.verify_header. idle_tac.
Qed.

Lemma gossip_idle vs m b : idle b → wp True (ImplBackend.gossip vs m) (λ _ b', idle b') b.
Proof.
  intros Hb. unfold ImplBackend.gossip. wp_step. unfold ImplBackend.outbound_cache_get, wp at 1.
  destruct (lru_get _ _) as [o c]. idle_tac.
Qed.

Lemma commit_idle p seals b :
  idle b → Block.hash (Proposal.block (Proposal.set_seal seals p)) ≠ EMPTY_HASH →
  wp True (ImplBackend.commit p seals) (λ _ b', idle b') b.
Proof.
  intros [Hb Hp] Hne. unfold ImplBackend.commit. wp_step. apply wp_gets. rewrite Hp.
  rewrite bool_decide_false by congruence. idle_tac.
Qed.

Lemma verify_idle p b : idle b → wp True (ImplBackend.verify p) (λ _ b', idle b') b.
Proof. intros Hb. unfold ImplBackend.verify, ImplBackend.verify_header. idle_tac. Qed.

Lemma core_call_idle c b : idle b → real_block (ByCore c) → wp True (core_call c) (λ _ b', idle b') b.
Proof.
  intros Hb Hr. destruct c; simpl; wp_step.
  - eapply wp_mono; [by apply gossip_idle|]. intros. by wp_step.
  - eapply wp_mono; [by apply commit_idle|]. intros. by wp_step.
  - eapply wp_mono; [by apply verify_idle|]. intros. by wp_step.
  - unfold ImplBackend.last_proposal. idle_tac.
  - unfold ImplBackend.has_proposal. idle_tac.
  - unfold ImplBackend.get_proposer. idle_tac.
  - unfold ImplBackend.get_header_by_height. idle_tac.
Qed.

(** The clones agree on what they share, and nothing is on its way. *)
Record clones_wf (n : clones) : Prop := {
  cl_chain : ImplBackend.chain (engine n) = ImplBackend.chain (core n);
  cl_engine : quiet_chan (engine n);
  cl_core : idle (core n) }.

Lemma on_engine_wf {A} (m : M B A) (Q : A → Prop) n :
  clones_wf n → wp True m (λ a b', Q a ∧ quiet_chan b') (engine n) →
  wp True (on_engine m) (λ a n', Q a ∧ clones_wf n') n.
Proof.
  intros [Hc He [Hi Hp]]. unfold wp, on_engine. destruct (m (engine n)) as [[a b]|]; [|done].
  intros [Ha Hb]. split; [done|]. split; [done|done|]. by split.
Qed.

Lemma on_core_wf {A} (m : M B A) n :
  clones_wf n → wp True m (λ _ b', idle b') (core n) → wp True (on_core m) (λ _ n', clones_wf n') n.
Proof.
  intros [Hc He Hi]. unfold wp, on_core. destruct (m (core n)) as [[a b]|]; [|done].
  intros Hb. split; [done|apply Hb|done].
Qed.

Lemma node_step_wf s n :
  clones_wf n → real_block s →
  wp True (node_step s) (λ l n', Forall (λ p, p = ImplBackend.CommitError) l ∧ clones_wf n') n.
Proof.
  intros Hn Hr. destruct s as [c|c|c|]; simpl; wp_step.
  - eapply wp_mono; [apply (on_engine_wf _ (λ _, True)); [done|]|].
    + eapply wp_mono; [apply engine_call_chan, Hn|]. by intros.
    + intros [] n' [_ Hn']. by wp_step.
  - eapply wp_mono; [apply on_core_wf; [done|]|]; [apply core_call_idle; [apply Hn|done]|].
    intros [] n' Hn'. by wp_step.
  - eapply wp_mono; [apply (on_engine_wf _ (λ _, True)); [done|]|].
    + apply wp_modify. split; [done|]. apply Hn.
    + intros [] n' [_ Hn']. by wp_step.
  - eapply wp_mono; [apply (on_engine_wf _ (λ p, p = ImplBackend.CommitError)); [done|]|].
    + unfold seal_poll. wp_step. apply wp_gets. rewrite (cl_engine _ Hn). wp_step. split; [done|apply Hn].
    + intros p n' [-> Hn']. wp_step. split; [by constructor|done].
Qed.

Lemma node_run_wf l n :
  clones_wf n → Forall real_block l →
  wp True (node_run l) (λ ps n', Forall (λ p, p = ImplBackend.CommitError) ps ∧ clones_wf n') n.
Proof.
  intros Hn Hl. revert n Hn. induction Hl as [|s l Hs Hl IH]; intros n Hn; simpl; [by wp_step|].
  wp_step. eapply wp_mono; [by apply node_step_wf|]. intros p n1 [Hp Hn1]. cbn beta.
  wp_step. eapply wp_mono; [by apply IH|]. intros q n2 [Hq Hn2]. cbn beta. wp_step.
  split; [by apply Forall_app|done].
Qed.

Lemma created_wf key_pair chain clk :
  let '(c, b) := create_bft_engine key_pair chain clk in clones_wf (Clones b (Core.backend c)).
Proof. split; [done|done|by split]. Qed.

(** Without a block the sealing task ends only when it is interrupted. *)
Lemma seal_wait_errors new_hash new_height (polls : list (ImplBackend.AbortPoll * ImplBackend.CommitPoll)) :
  Forall (λ p, p.2 = ImplBackend.CommitError) polls →
  ImplBackend.seal_wait new_hash new_height polls = None ∧ Forall (λ p, p.1 = ImplBackend.AbortEmpty) polls ∨
  ImplBackend.seal_wait new_hash new_height polls = Some (Ret (Err Interrupt)).
Proof.
  induction 1 as [|[a p] polls Hp Hl IH]; [by left|]. simpl in *. subst p.
  destruct a; [by right| |by right]. destruct IH as [[-> Ha]| ->]; [left|by right].
  split; [done|]. by constructor.
Qed.

(** C17 The sealing task never hears of a decision: the engine's [prepare] writes
    the hash of the block being sealed into its own clone, the core's
    [commit] compares with the hash in another, which stays the placeholder.
    So from [create_bft_engine] on, in every interleaving of engine calls,
    calls of the core, changes of the chain by others and polls of the
    sealing task, the commit channel is empty (so [commit] never blocks on
    it), every poll fails, and the task goes on until it is interrupted; a
    decided block reaches the miner through the chain, which the clones do
    share. *)
Theorem seal_never_sees_commit (key_pair : Secret) (chain : Chain.t DB HC BC) (clk : Clk.t) (l : list NodeStep)
    (polls : list ImplBackend.CommitPoll) (n : clones) :
  let '(c, b) := create_bft_engine key_pair chain clk in
  Forall real_block l → node_run l (Clones b (Core.backend c)) = Ret (polls, n) →
  ImplBackend.commit_chan (core n) = [] ∧ ImplBackend.proposed_block_hash (core n) = EMPTY_HASH ∧
  ImplBackend.chain (engine n) = ImplBackend.chain (core n) ∧
  ∀ new_hash new_height (aborts : list ImplBackend.AbortPoll),
    ImplBackend.seal_wait new_hash new_height (zip aborts polls) = None ∨
    ImplBackend.seal_wait new_hash new_height (zip aborts polls) = Some (Ret (Err Interrupt)).
Proof.
  pose proof (created_wf key_pair chain clk) as Hc. destruct (create_bft_engine key_pair chain clk) as [c b].
  intros Hl E. pose proof (wp_elim _ _ _ _ _ _ (node_run_wf l _ Hc Hl) E) as [Hp [Hch Hq [Hi Hh]]].
  split_and!; [done..|]. intros new_hash new_height aborts.
  destruct (seal_wait_errors new_hash new_height (zip aborts polls)) as [[E' _]|E']; [|by left|by right].
  apply Forall_forall. intros [a p] Hin%elem_of_zip_r. by eapply Forall_forall in Hp.
Qed.
End engine.
Arguments clones : clear implicits.
Arguments NodeStep : clear implicits.
