(* ===== verification/P2p.v ===== *)
(** * Messages between nodes and their framing ([src/p2p/protocol.rs], [src/p2p/codec.rs])

    Every message travels as a [RawMessage] in a frame of four bytes of
    length, big endian, and the serialised message. *)

From S2P Require Import Prelude External.

Inductive P2PMsgCode : Type := PPing | PHandshake | PTransaction | PBlock | PConsensus | PSync.
Inductive BoundType : Type := InBound | OutBound.

#[global] Instance P2PMsgCode_eq_dec : EqDecision P2PMsgCode.
Proof. solve_decision. Defined.

Module RawHeader.
Record t : Type := new { code : P2PMsgCode; ttl : Z; create_time : Z; peer_id : option bytes }.
End RawHeader.

Module RawMessage.
Record t : Type := new { header : RawHeader.t; payload : bytes }.
End RawMessage.

Module Handshake.
Record t : Type := mk { version : string; peer_id : string; genesis : Hash }.
End Handshake.

(** ** Framing *)

Definition u32_bound : Z := 2 ^ 32.
Definition u32_add (x y : Z) : outcome Z := if x + y <? u32_bound then Ret (x + y) else Panic.

Module MsgPacketCodec.
Definition MAX_MSG_SIZE : Z := Z.shiftl 1 10.
Definition MSG_SIZE : Z := 4.

(** [BigEndian::read_u32] and [put_u32_be]. *)
Definition read_u32 (src : bytes) : Z :=
  match src with
  | a :: b :: c :: d :: _ => Z.shiftl a 24 + Z.shiftl b 16 + Z.shiftl c 8 + d
  | _ => 0
  end.
Definition put_u32_be (n : Z) : bytes :=
  [Z.land (Z.shiftr n 24) 255; Z.land (Z.shiftr n 16) 255; Z.land (Z.shiftr n 8) 255; Z.land n 255].

Section codec.
Context `{StorageValue RawMessage.t}.

(** Returns the message, if one is complete, and what is left of the
    buffer. *)
Definition decode (src : bytes) : outcome (option RawMessage.t * bytes) :=
  if Z.of_nat (length src) <? MSG_SIZE then mret (None, src)
  else
    let size := read_u32 src in
    total ← u32_add size MSG_SIZE;
    if total <=? Z.of_nat (length src) then
      let src := drop (Z.to_nat MSG_SIZE) src in
      let buf := take (Z.to_nat size) src in
      raw_message ← unwrap (from_bytes buf);
      mret (Some raw_message, drop (Z.to_nat size) src)
    else mret (None, src).

Definition encode (msg : RawMessage.t) (dst : bytes) : outcome bytes :=
  let msg := into_bytes msg in
  let size := Z.of_nat (length msg) mod u32_bound in
  _ ← u32_add size MSG_SIZE;
  mret (dst ++ put_u32_be size ++ msg).

(** [FramedRead] decodes after every read until no message is complete; a
    frame has at least four bytes, so the length of the buffer bounds the
    number of turns. *)
Fixpoint drain (fuel : nat) (src : bytes) : outcome (list RawMessage.t * bytes) :=
  match fuel with
  | O => mret ([], src)
  | S fuel' =>
      r ← decode src;
      match r with
      | (None, src') => mret ([], src')
      | (Some m, src') =>
          r' ← drain fuel' src';
          mret (m :: r'.1, r'.2)
      end
  end.
Fixpoint read_stream (chunks : list bytes) (buf : bytes) : outcome (list RawMessage.t * bytes) :=
  match chunks with
  | [] => mret ([], buf)
  | chunk :: rest =>
      r ← drain (S (length (buf ++ chunk))) (buf ++ chunk);
      r' ← read_stream rest r.2;
      mret (r.1 ++ r'.1, r'.2)
  end.
Fixpoint write_stream (msgs : list RawMessage.t) (dst : bytes) : outcome bytes :=
  match msgs with
  | [] => mret dst
  | m :: rest => dst' ← encode m dst; write_stream rest dst'
  end.
End codec.
End MsgPacketCodec.

(** ** Round trip *)

Section framing.
Context `{ML : StorageLaws RawMessage.t (λ m, m)}.

Definition fits (m : RawMessage.t) : Prop := Z.of_nat (length (into_bytes m)) + 4 < u32_bound.
Definition frame_of (m : RawMessage.t) : bytes :=
  MsgPacketCodec.put_u32_be (Z.of_nat (length (into_bytes m))) ++ into_bytes m.
#[local] Arguments frame_of m : simpl never.

Lemma u32_roundtrip n rest :
  0 ≤ n < u32_bound → MsgPacketCodec.read_u32 (MsgPacketCodec.put_u32_be n ++ rest) = n.
Proof.
  unfold u32_bound. intros Hn. cbn -[Z.shiftl Z.shiftr Z.land Z.add].
  assert (∀ x, Z.land x 255 = x mod 2 ^ 8) as Hl by (intros x; apply (Z.land_ones x 8); lia).
  rewrite !Hl, !Z.shiftr_div_pow2, !Z.shiftl_mul_pow2 by lia.
  change (2 ^ 8) with 256. change (2 ^ 16) with 65536. change (2 ^ 24) with 16777216.
  Z.to_euclidean_division_equations. lia.
Qed.

Lemma length_frame m : length (frame_of m) = (4 + length (into_bytes m))%nat.
Proof. done. Qed.

Lemma encode_frame m dst : fits m → MsgPacketCodec.encode m dst = Ret (dst ++ frame_of m).
Proof.
  unfold fits. intros Hf. unfold MsgPacketCodec.encode. rewrite Z.mod_small by lia.
  unfold u32_add, MsgPacketCodec.MSG_SIZE. by destruct (Z.ltb_spec (Z.of_nat (length (into_bytes m)) + 4) u32_bound); [|lia].
Qed.

Lemma write_stream_frames msgs dst :
  Forall fits msgs → MsgPacketCodec.write_stream msgs dst = Ret (dst ++ concat (frame_of <$> msgs)).
Proof.
  intros Hf. revert dst. induction Hf as [|m msgs Hm _ IH]; intros dst; simpl; [by rewrite app_nil_r|].
  rewrite encode_frame by done. simpl. by rewrite IH, <-app_assoc.
Qed.

Lemma decode_frame m rest : fits m → MsgPacketCodec.decode (frame_of m ++ rest) = Ret (Some m, rest).
Proof using ML.
  unfold fits. intros Hf. unfold MsgPacketCodec.decode, MsgPacketCodec.MSG_SIZE.
  rewrite length_app, length_frame. destruct (Z.ltb_spec (Z.of_nat (4 + length (into_bytes m) + length rest)) 4); [lia|].
  unfold frame_of. rewrite <-app_assoc, u32_roundtrip by lia. unfold u32_add.
  destruct (Z.ltb_spec (Z.of_nat (length (into_bytes m)) + 4) u32_bound); [|lia]. cbn [mbind outcome_mbind outcome_bind].
  destruct (Z.leb_spec (Z.of_nat (length (into_bytes m)) + 4) (Z.of_nat (4 + length (into_bytes m) + length rest))); [|lia].
  change (Z.to_nat 4) with (length (MsgPacketCodec.put_u32_be (Z.of_nat (length (into_bytes m))))).
  rewrite drop_app_length, Nat2Z.id, take_app_length, drop_app_length. by rewrite from_into.
Qed.

(** A frame that has not arrived in full stays in the buffer. *)
Lemma decode_partial m src rest tail :
  fits m → src ++ rest = frame_of m ++ tail → (length src < length (frame_of m))%nat →
  MsgPacketCodec.decode src = Ret (None, src).
Proof.
  unfold fits. intros Hf E Hlt. unfold MsgPacketCodec.decode, MsgPacketCodec.MSG_SIZE.
  destruct (Z.ltb_spec (Z.of_nat (length src)) 4) as [|Hge]; [done|]. rewrite length_frame in Hlt.
  destruct src as [|a [|b [|c [|d src]]]]; simpl in Hge, Hlt; try lia.
  injection E as -> -> -> -> E.
  change (MsgPacketCodec.read_u32 _) with (MsgPacketCodec.read_u32
    (MsgPacketCodec.put_u32_be (Z.of_nat (length (into_bytes m))) ++ src)).
  rewrite u32_roundtrip by lia. unfold u32_add.
  destruct (Z.ltb_spec (Z.of_nat (length (into_bytes m)) + 4) u32_bound); [|lia]. simpl.
  by destruct (Z.leb_spec (Z.of_nat (length (into_bytes m)) + 4) (Z.of_nat (S (S (S (S (length src))))))); [lia|].
Qed.

Lemma drain_spec msgs src rest fuel :
  Forall fits msgs → src ++ rest = concat (frame_of <$> msgs) → (length src < fuel)%nat →
  ∃ done todo src', msgs = done ++ todo ∧ MsgPacketCodec.drain fuel src = Ret (done, src') ∧
    src' ++ rest = concat (frame_of <$> todo) ∧ (rest = [] → todo = [] ∧ src' = []).
Proof using ML.
  intros Hf. revert src fuel. induction Hf as [|m msgs Hm Hms IH]; intros src [|fuel] E Hlt; try lia.
  { simpl in E. apply app_eq_nil in E as [-> ->]. exists [], [], []. by split_and!. }
  rewrite fmap_cons in E. cbn [concat] in E. destruct (decide (length src < length (frame_of m))%nat) as [Hpart|Hfull].
  - exists [], (m :: msgs), src. simpl. rewrite (decode_partial m src rest (concat (frame_of <$> msgs))) by done. split_and!; [done|done|done|].
    intros ->. rewrite app_nil_r in E. subst src. rewrite length_app in Hpart. lia.
  - assert (∃ src1, src = frame_of m ++ src1) as [src1 ->].
    { exists (drop (length (frame_of m)) src).
      assert (take (length (frame_of m)) (src ++ rest) = frame_of m) as Et by (rewrite E; apply take_app_length).
      rewrite take_app_le in Et by lia. rewrite <-Et at 1. by rewrite take_drop. }
    rewrite <-app_assoc in E. apply app_inv_head in E. rewrite length_app, length_frame in Hlt.
    destruct (IH src1 fuel E) as (dn & td & src' & -> & Ed & E' & Hn); [lia|].
    exists (m :: dn), td, src'. cbn [MsgPacketCodec.drain]. rewrite decode_frame by done.
    cbn [mbind outcome_mbind outcome_bind]. rewrite Ed. by split_and!.
Qed.

Lemma read_stream_spec chunks msgs buf :
  Forall fits msgs → buf ++ concat chunks = concat (frame_of <$> msgs) →
  (concat chunks = [] → msgs = [] ∧ buf = []) →
  MsgPacketCodec.read_stream chunks buf = Ret (msgs, []).
Proof using ML.
  revert msgs buf. induction chunks as [|chunk chunks IH]; intros msgs buf Hf E Hn.
  { simpl. by destruct Hn as [-> ->]. }
  simpl in E. rewrite app_assoc in E.
  destruct (drain_spec msgs (buf ++ chunk) (concat chunks) (S (length (buf ++ chunk))) Hf E)
    as (dn & td & src' & -> & Ed & E' & Hn'); [lia|]. cbn [MsgPacketCodec.read_stream].
  rewrite Ed. cbn [mbind outcome_mbind outcome_bind]. simpl.
  apply Forall_app in Hf as [_ Hf]. rewrite (IH td src' Hf E' Hn'). done.
Qed.

(** C29 Framing survives the network: whatever pieces a byte stream of encoded
    messages arrives in, the reader returns exactly the messages that were
    written, in order, with nothing left over, for messages whose encoding
    with its length fits 32 bits. *)
Theorem framing_roundtrip (msgs : list RawMessage.t) (stream : bytes) (chunks : list bytes) :
  Forall fits msgs → MsgPacketCodec.write_stream msgs [] = Ret stream → concat chunks = stream →
  MsgPacketCodec.read_stream chunks [] = Ret (msgs, []).
Proof using ML.
  intros Hf Ew <-. rewrite write_stream_frames in Ew by done. injection Ew as Ew. simpl in Ew.
  apply read_stream_spec; [done|done|]. intros E. rewrite E in Ew. split; [|done].
  by destruct msgs as [|m msgs].
Qed.
End framing.
