(* ===== verification/Middle.v ===== *)
(** * Messages from the network ([handle_msg_middle] of [pbft/core/core.rs])

    The closure the network server calls for every message it receives:
    consensus messages go to the core, blocks into the chain, and a sync
    request is answered with batches of blocks. *)

From S2P Require Import Prelude External Types Validators Protocol Wire Store Ledger P2p.

Section middle.
Context {DB HC BC : Type} `{Database DB, LruCache HC Hash Header.t, LruCache BC Hash Block.t}.
Context `{CryptoKit, Codec, Chrono}.
Abbreviation Chain_t := (Chain.t DB HC BC).

(** [blocks.0.iter().for_each(|block| { chain.insert_block(&block); })] *)
Fixpoint insert_blocks (blocks : list Block.t) : M Chain_t unit :=
  match blocks with
  | [] => mret tt
  | block :: rest => _ ← Chain.insert_block block; insert_blocks rest
  end.

(** One turn per height from [height] below [stop].  The turn with
    [total = 101] leaves the loop, so [fuel = 102] turns are all of them. *)
Fixpoint sync_loop (peer : PeerId) (fuel : nat) (height stop total batch : Z) (blocks : list Block.t) :
    M Chain_t (list Block.t) :=
  match fuel with
  | O => mret blocks
  | S fuel' =>
      if stop <=? height then mret blocks
      else
        o ← Chain.get_block_by_height height;
        let blocks := match o with Some block => blocks ++ [block] | None => blocks end in
        bb ← (if 20 <? batch
              then Chain.post_event (PostBlock (Some peer) blocks);; mret (0, [])
              else mret (batch, blocks));
        if 100 <? total then mret bb.2
        else sync_loop peer fuel' (height + 1) stop (total + 1) (bb.1 + 1) bb.2
  end.
Definition sync_fuel : nat := 102.

Definition answer_sync (peer : PeerId) (height : Height) : M Chain_t unit :=
  last_height ← gets Chain.get_last_height;
  stop ← lift (u64_add last_height 1);
  blocks ← sync_loop peer sync_fuel height stop 0 0 [];
  when (0 <? length blocks)%nat (Chain.post_event (PostBlock (Some peer) blocks)).

(** What the core is sent, if anything; [unimplemented!()] for the other
    codes. *)
Definition handle_msg_middle (peer : PeerId) (msg : RawMessage.t) : M Chain_t (option bytes) :=
  let payload := RawMessage.payload msg in
  match RawHeader.code (RawMessage.header msg) with
  | PConsensus => mret (Some payload)
  | PBlock =>
      blocks ← lift (unwrap (from_bytes payload));
      insert_blocks blocks;;
      mret None
  | PSync =>
      height ← lift (unwrap (from_bytes payload));
      answer_sync peer height;;
      mret None
  | _ => panic
  end.

(** The future on the core's answer, a second later: a message of a height
    the chain has not reached asks for the missing blocks. *)
Definition on_core_result (result : ConsensusResult) : M Chain_t unit :=
  match result with
  | Err (FutureBlockMessage height) =>
      last_height ← gets Chain.get_last_height;
      when (last_height <? height)
        (next ← lift (u64_add last_height 1); Chain.post_event (SyncBlock next))
  | _ => mret tt
  end.

(** What the server makes of the events [PostBlock] and [SyncBlock]: the
    header names the peer the message is for. *)
Definition block_message (to : option PeerId) (now : Z) (blocks : list Block.t) : RawMessage.t :=
  RawMessage.new (RawHeader.new PBlock 10 now to) (into_bytes blocks).
Definition sync_message (to : PeerId) (now : Z) (height : Height) : RawMessage.t :=
  RawMessage.new (RawHeader.new PSync 10 now (Some to)) (into_bytes height).

(** The node [me] receives batches from [peer], each as a [Block] message. *)
Fixpoint receive_batches (peer me : PeerId) (now : Z) (batches : list (list Block.t)) : M Chain_t unit :=
  match batches with
  | [] => mret tt
  | b :: rest => _ ← handle_msg_middle peer (block_message (Some me) now b); receive_batches peer me now rest
  end.

(** The batches an answer posts for [me]: the new events of the peer. *)
Definition posted_for (me : PeerId) (e : ChainEvent) : option (list Block.t) :=
  match e with
  | PostBlock (Some to) blocks => if bool_decide (to = me) then Some blocks else None
  | _ => None
  end.

(** One exchange: node [me] asks [peer] for the blocks above its last one
    and receives what the peer posts. *)
Definition sync_round (peer me : PeerId) (now : Z) : M (Chain_t * Chain_t) unit := λ w,
  let '(cs, cr) := w in
  next ← u64_add (Chain.get_last_height cr) 1;
  match handle_msg_middle me (sync_message peer now next) cs with
  | Ret (_, cs') =>
      let batches := omap (posted_for me) (drop (length (Chain.events cs)) (Chain.events cs')) in
      match receive_batches peer me now batches cr with
      | Ret (_, cr') => Ret (tt, (cs', cr'))
      | Panic => Panic
      end
  | Panic => Panic
  end.

Fixpoint sync_rounds (k : nat) (peer me : PeerId) (now : Z) : M (Chain_t * Chain_t) unit :=
  match k with
  | O => mret tt
  | S k' => sync_round peer me now;; sync_rounds k' peer me now
  end.
End middle.

(** ** Answering a sync request *)

Section middle_props.
Context {DB HC BC : Type} `{DatabaseLaws DB}.
Context `{HCC : LruCache HC Hash Header.t, !LruCacheLaws HC Hash Header.t}.
Context `{BCC : LruCache BC Hash Block.t, !LruCacheLaws BC Hash Block.t}.
Context `{CryptoKit} `{CodecLaws} `{Chrono}.
Abbreviation Chain_t := (Chain.t DB HC BC).
Implicit Types (c : Chain_t) (bs : list Block.t).

Definition batch_ok (l : list Block.t) : Prop := l ≠ [] ∧ (length l ≤ 22)%nat.

(** What a run of the loop adds: batches posted, and blocks still held. *)
Definition synced (peer : PeerId) (c c' : Chain_t) bs (n : nat) (i : nat) (held held' : list Block.t) : Prop :=
  ledger_rep (Chain.ledger c') bs ∧
  ∃ batches got, Chain.events c' = Chain.events c ++ (PostBlock (Some peer) <$> batches) ∧
    concat batches ++ held' = held ++ got ∧ Forall2 block_equiv got (take n (drop i bs)) ∧
    Forall batch_ok batches ∧ (length held' ≤ 22)%nat.

Lemma synced_stop peer c bs n i held :
  ledger_rep (Chain.ledger c) bs → take n (drop i bs) = [] → (length held ≤ 22)%nat →
  synced peer c c bs n i held held.
Proof.
  intros Hr E Hl. split; [done|]. exists [], []. rewrite E. simpl. rewrite !app_nil_r.
  by split_and!.
Qed.

Lemma synced_step peer c c1 c' bs n i b b' held held1 held' (post : bool) :
  bs !! i = Some b → block_equiv b' b →
  Chain.events c1 = Chain.events c ++
    (if post then [PostBlock (Some peer) (held ++ [b'])] else []) →
  held1 = (if post then [] else held ++ [b']) → (length held ≤ 21)%nat →
  synced peer c1 c' bs n (S i) held1 held' → synced peer c c' bs (S n) i held held'.
Proof.
  intros Hb Hq He -> Hl (Hr & batches & got & E1 & E2 & E3 & E4 & E5). split; [done|].
  exists (if post then (held ++ [b']) :: batches else batches), (b' :: got).
  rewrite (drop_S _ b) by done. simpl. destruct post; simpl in *.
  - split_and!; [by rewrite E1, He, <-app_assoc| |by constructor| |done].
    + rewrite <-!app_assoc. simpl. by rewrite E2.
    + constructor; [|done]. split; [by destruct held|]. rewrite length_app. simpl. lia.
  - rewrite app_nil_r in He. split_and!; [by rewrite E1, He| |by constructor|done|done].
    rewrite E2, <-app_assoc. done.
Qed.

Lemma sync_loop_spec peer fuel c bs i total batch held :
  ledger_rep (Chain.ledger c) bs → Z.of_nat (length bs) < u64_bound →
  total = 102 - Z.of_nat fuel → 0 ≤ batch ≤ 21 → Z.of_nat (length held) ≤ batch →
  wp False (sync_loop peer fuel (Z.of_nat i) (Z.of_nat (length bs)) total batch held)
    (λ held' c', synced peer c c' bs fuel i held held') c.
Proof using All.
  revert c i total batch held. induction fuel as [|fuel IH]; intros c i total batch held Hr Hu Ht Hb Hh.
  { apply wp_ret. apply synced_stop; [done|done|lia]. }
  cbn [sync_loop]. destruct (Z.leb_spec (Z.of_nat (length bs)) (Z.of_nat i)) as [Hge|Hlt].
  { wp_step. apply synced_stop; [done| |lia]. rewrite drop_ge by lia. by destruct fuel. }
  destruct (lookup_lt_is_Some_2 bs i) as [b Eb]; [lia|].
  wp_step. eapply wp_mono; [apply chain_get_block_by_height_spec; [exact Hr|unfold is_u64; lia]|].
  intros o c1 (Hr1 & [l ->] & Ho). rewrite Nat2Z.id, Eb in Ho. destruct Ho as (b' & -> & Hq).
  set (c1 := Chain.set_ledger l c) in *.
  wp_step.
  eapply wp_mono with (Q := λ bb c2, ledger_rep (Chain.ledger c2) bs ∧
    Chain.events c2 = Chain.events c ++
      (if 20 <? batch then [PostBlock (Some peer) (held ++ [b'])] else []) ∧
    bb.2 = (if 20 <? batch then [] else held ++ [b']) ∧ bb.1 = if 20 <? batch then 0 else batch).
  { destruct (20 <? batch).
    - wp_step. apply wp_modify. wp_step. by split_and!.
    - wp_step. rewrite app_nil_r. by split_and!. }
  intros [n held1] c2 (Hr2 & He2 & Eh & En). cbn [fst snd] in *.
  destruct (Z.ltb_spec 100 total) as [Hbrk|Hgo].
  - assert (fuel = O) as -> by lia. wp_step.
    eapply (synced_step _ _ c2 _ _ _ _ b b' _ held1 _ (20 <? batch)); [done..|lia|].
    apply synced_stop; [done|done|]. subst held1.
    destruct (20 <? batch); [simpl; lia|]. rewrite length_app. simpl. lia.
  - replace (Z.of_nat i + 1) with (Z.of_nat (S i)) by lia.
    eapply wp_mono; [apply (IH c2 (S i)); [done|done|lia|..]|].
    + subst n. destruct (Z.ltb_spec 20 batch); lia.
    + subst n held1. destruct (Z.ltb_spec 20 batch); [simpl; lia|]. rewrite length_app. simpl. lia.
    + intros held' c' Hs. eapply (synced_step _ _ c2 _ _ _ _ b b' _ held1 _ (20 <? batch)); [done..|lia|done].
Qed.

Lemma answer_sync_spec peer c bs n :
  ledger_rep (Chain.ledger c) bs → bs ≠ [] → Z.of_nat (length bs) < u64_bound →
  wp False (answer_sync peer (Z.of_nat n)) (λ _ c', ledger_rep (Chain.ledger c') bs ∧
    ∃ batches, Chain.events c' = Chain.events c ++ (PostBlock (Some peer) <$> batches) ∧
      Forall2 block_equiv (concat batches) (take sync_fuel (drop n bs)) ∧ Forall batch_ok batches) c.
Proof using All.
  intros Hr Hne Hu. unfold answer_sync. wp_step. apply wp_gets. wp_step.
  assert (Chain.get_last_height c + 1 = Z.of_nat (length bs)) as Eh by (by apply last_height_next).
  apply wp_lift; [|intros E; rewrite u64_add_fits in E; [done|lia]].
  intros stop [-> _]%u64_add_Ret. rewrite Eh. wp_step.
  eapply wp_mono; [apply (sync_loop_spec peer sync_fuel c bs n 0 0 []); [done|done|done|lia|simpl; lia]|].
  intros held c1 (Hr1 & batches & got & E1 & E2 & E3 & E4 & E5). simpl in E2. subst got.
  apply wp_when.
  - intros Hl%Nat.ltb_lt. apply wp_modify. split; [done|]. exists (batches ++ [held]). simpl.
    rewrite E1, fmap_app, concat_app. simpl. rewrite app_nil_r. split_and!; [by rewrite <-app_assoc|done|].
    apply Forall_app. split; [done|]. constructor; [|constructor]. split; [|done].
    destruct held; [simpl in Hl; lia|done].
  - intros Hl%Nat.ltb_ge. destruct held; [|simpl in Hl; lia]. split; [done|]. exists batches.
    rewrite app_nil_r in E3. by split_and!.
Qed.
(** ** Receiving blocks *)

Lemma block_hash_of_wire b b' :
  Block.wire b' = Block.wire b → Header_coherent (Block.header b) →
  Block.hash (Block.wire b') = Block.hash b.
Proof using All. intros E Hc. rewrite E. unfold Block.hash, Block.wire. simpl. by apply block_hash_wire. Qed.

Context (tx_hash_inj : ∀ tx tx' h,
  Transaction.crypto_hash tx = Ret h → Transaction.crypto_hash tx' = Ret h →
  Transaction.wire tx = Transaction.wire tx').

(** [insert_blocks] of blocks that each extend what is there. *)
Fixpoint extendable (bs l : list Block.t) : Prop :=
  match l with
  | [] => True
  | b :: l' => appendable bs b ∧ extendable (bs ++ [b]) l'
  end.

(** The chain after a batch, with the clocks it had. *)
Definition grown (c c' : Chain_t) bs : Prop :=
  ledger_rep (Chain.ledger c') bs ∧ Chain.sync_limiter c' = Chain.sync_limiter c ∧
  Chain.clk c' = Chain.clk c.

Lemma insert_block_grows c bs b :
  ledger_rep (Chain.ledger c) bs → bs ≠ [] → appendable bs b →
  wp False (Chain.insert_block b) (λ r c', r = Ok tt ∧ grown c c' (bs ++ [b])) c.
Proof using All.
  intros Hr Hne Hap. unfold Chain.insert_block. wp_step. apply wp_on_ledger.
  pose proof (app_height _ _ Hap) as Hh. pose proof (app_room _ _ Hap) as Hroom.
  eapply wp_mono; [apply (ledger_get_block_by_height_spec _ bs); [apply Hr|unfold is_u64; lia]|].
  intros o l1 (Hs1 & Hr1 & Ho). apply (same_but_caches_rep _ _ bs Hr) in Hr1; [|done].
  rewrite Hh, Nat2Z.id, lookup_ge_None_2 in Ho by lia. subst o. wp_step. apply wp_gets. simpl.
  pose proof (last_height_next l1 bs Hr1 Hne) as Hlast.
  wp_step. apply wp_lift; [|intros E; rewrite u64_add_fits in E; [done|lia]].
  intros next [-> _]%u64_add_Ret. rewrite Hlast, Hh, Z.ltb_irrefl.
  wp_step. apply wp_on_ledger. eapply wp_mono; [apply (add_block_spec tx_hash_inj l1 bs b); done|].
  intros _ l2 (Hr2 & _). wp_step. apply wp_modify. wp_step. apply wp_modify. wp_step. by split_and!.
Qed.

Lemma insert_blocks_spec c bs l :
  ledger_rep (Chain.ledger c) bs → bs ≠ [] → extendable bs l →
  wp False (insert_blocks l) (λ _ c', grown c c' (bs ++ l)) c.
Proof using All.
  revert c bs. induction l as [|b l IH]; intros c bs Hr Hne Hex; cbn [insert_blocks].
  { wp_step. rewrite app_nil_r. by split_and!. }
  destruct Hex as [Hap Hex]. wp_step. eapply wp_mono; [by apply insert_block_grows|].
  intros r c1 (_ & Hr1 & Hl1 & Hc1). eapply wp_mono; [apply IH; [exact Hr1|by destruct bs|done]|].
  intros [] c2 (Hr2 & Hl2 & Hc2). rewrite <-app_assoc in Hr2. split_and!; [done|congruence|congruence].
Qed.

(** The blocks of a chain, from any height on, as a peer receives them,
    extend the peer's copy of the chain below. *)
Lemma wire_extendable (l : Ledger.t DB HC BC) bs rs got n :
  store_rep l bs → Forall2 block_equiv rs (take n bs) → (n ≤ length bs)%nat →
  Z.of_nat (length bs) < u64_bound →
  (∀ b, b ∈ bs → timestamp_in_range (as_i64 (Header.time (Block.header b))) = true) →
  ∀ k, Forall2 block_equiv got (take k (drop n bs)) → extendable rs (Block.wire <$> got).
Proof using All.
  intros Hr. revert rs n. induction got as [|b' got IH]; intros rs n Hrs Hn Hu Htime k Hgot; [done|].
  inversion Hgot as [|? b ? got' Hq Hgot' E1 E2]; subst.
  destruct k as [|k]; [done|]. destruct (bs !! n) as [b0|] eqn:Eb; cycle 1.
  { apply lookup_ge_None in Eb. rewrite drop_ge in E2 by lia. done. }
  rewrite (drop_S _ b0) in E2 by done. simpl in E2. injection E2 as -> ->.
  assert (b0 ∈ bs) as Hin by by eapply list_elem_of_lookup_2.
  destruct Hq as [Hw Hh]. pose proof (rep_coherent _ _ Hr _ Hin) as Hcoh.
  assert (Block.hash (Block.wire b') = Block.hash b0) as Ehash by (by apply block_hash_of_wire).
  assert (Header.wire (Block.header b') = Header.wire (Block.header b0)) as Ehd.
  { by apply (f_equal Block.header) in Hw. }
  assert (length rs = n) as Hlen.
  { rewrite (Forall2_length _ _ _ Hrs), length_take. lia. }
  assert (Block.height b' = Z.of_nat n) as Ehh.
  { rewrite <-(rep_heights _ _ Hr n b0 Eb). by apply (f_equal Header.height) in Ehd. }
  simpl. split.
  - split.
    + by rewrite Hlen.
    + apply lookup_lt_Some in Eb. change (Block.height (Block.wire b')) with (Block.height b'). lia.
    + rewrite Ehash. intros (r & Er & Hr')%list_elem_of_fmap.
      apply list_elem_of_lookup in Hr' as [j Hj].
      destruct (Forall2_lookup_l _ _ _ _ _ Hrs Hj) as (bj & Hbj & _ & Ehj).
      apply lookup_take_Some in Hbj as [Hbj Hlt].
      assert (j = n); [|lia]. apply (NoDup_lookup (Block.hash <$> bs) j n (Block.hash b0)); [apply Hr| |].
      * rewrite list_lookup_fmap, Hbj. simpl. congruence.
      * by rewrite list_lookup_fmap, Eb.
    + by left.
    + destruct (rep_stored _ _ Hr _ Hin) as [_ (hs & _ & Hst)].
      assert (Transaction.wire <$> Block.transactions b' = Transaction.wire <$> Block.transactions b0) as Et.
      { by apply (f_equal Block.transactions) in Hw. }
      change (Block.transactions (Block.wire b')) with (Transaction.wire <$> Block.transactions b').
      rewrite Et. apply Forall_fmap. apply Forall_forall. intros tx [j Hj]%list_elem_of_lookup.
      destruct (Forall2_lookup_l _ _ _ _ _ Hst Hj) as (h & _ & Htx & _).
      simpl. rewrite crypto_hash_tx_wire. eauto.
    + change (Header.time (Block.header (Block.wire b'))) with (Header.time (Block.header b')).
      replace (Header.time (Block.header b')) with (Header.time (Block.header b0)); [by apply Htime|].
      by apply (f_equal Header.time) in Ehd.
  - apply (IH _ (S n)) with (k := k); [|apply lookup_lt_Some in Eb; lia|done|done|done].
    rewrite (take_S_r _ _ b0) by done. apply Forall2_app; [done|]. constructor; [|done].
    rewrite Hw. by apply block_wire_equiv.
Qed.

Lemma wire_equivs got l :
  Forall2 block_equiv got l → Forall (λ b, Header_coherent (Block.header b)) l →
  Forall2 block_equiv (Block.wire <$> got) l.
Proof using All.
  induction 1 as [|b' b got l Hq _ IH]; intros Hc; [constructor|].
  apply Forall_cons in Hc as [Hc Hl]. constructor; [|by apply IH].
  destruct Hq as [Hw _]. rewrite Hw. by apply block_wire_equiv.
Qed.

Lemma extendable_app bs l1 l2 :
  extendable bs (l1 ++ l2) → extendable bs l1 ∧ extendable (bs ++ l1) l2.
Proof.
  revert bs. induction l1 as [|b l1 IH]; intros bs; simpl; [by rewrite app_nil_r|].
  intros [Hap [H1' H2']%IH]. rewrite <-app_assoc in H2'. by split_and!.
Qed.

Lemma receive_batches_spec peer me now c rs batches :
  ledger_rep (Chain.ledger c) rs → rs ≠ [] → extendable rs (Block.wire <$> concat batches) →
  wp False (receive_batches peer me now batches)
    (λ _ c', ledger_rep (Chain.ledger c') (rs ++ (Block.wire <$> concat batches))) c.
Proof using All.
  revert c rs. induction batches as [|b batches IH]; intros c rs Hr Hne Hex; cbn [receive_batches].
  { wp_step. by rewrite app_nil_r. }
  cbn [concat] in *. rewrite fmap_app in *. apply extendable_app in Hex as [Hex1 Hex2].
  wp_step. unfold handle_msg_middle. cbn [RawHeader.code RawMessage.header block_message].
  wp_step. apply wp_lift; cbn [RawMessage.payload block_message]; rewrite from_into; [|done].
  intros l [= <-]. wp_step. eapply wp_mono; [by apply insert_blocks_spec|].
  intros [] c1 (Hr1 & _). wp_step. rewrite app_assoc. apply IH; [done|by destruct rs|done].
Qed.

(** A node that is behind catches up: a peer asked for the blocks from height
    [n] on answers with batches of at most 22 blocks, and a node whose chain
    is the peer's first [n] blocks, fed these batches as [Block] messages,
    holds afterwards the peer's chain up to height [n + 101] (all of it when
    it is shorter), every block with the peer's hash and content. *)
Lemma sync_catches_up (peer asker : PeerId) (now : Z) (cs cr : Chain_t) (bs rs : list Block.t)
    (n : nat) :
  ledger_rep (Chain.ledger cs) bs → ledger_rep (Chain.ledger cr) rs →
  Forall2 block_equiv rs (take n bs) → (0 < n ≤ length bs)%nat →
  Z.of_nat (length bs) < u64_bound →
  (∀ b, b ∈ bs → timestamp_in_range (as_i64 (Header.time (Block.header b))) = true) →
  ∃ cs' cr' batches got,
    handle_msg_middle asker (sync_message peer now (Z.of_nat n)) cs = Ret (None, cs') ∧
    Chain.events cs' = Chain.events cs ++ (PostBlock (Some asker) <$> batches) ∧
    Forall batch_ok batches ∧
    receive_batches peer asker now batches cr = Ret (tt, cr') ∧
    ledger_rep (Chain.ledger cs') bs ∧ ledger_rep (Chain.ledger cr') (rs ++ got) ∧
    Forall2 block_equiv (rs ++ got) (take (n + sync_fuel) bs).
Proof using All.
  intros Hs Hr Hrs Hn Hu Htime.
  assert (bs ≠ []) as Hne by (destruct bs; simpl in *; [lia|done]).
  assert (rs ≠ []) as Hrne.
  { intros ->. apply Forall2_length in Hrs. rewrite length_take in Hrs. simpl in Hrs. lia. }
  destruct (wp_total _ _ _ (answer_sync_spec asker cs bs n Hs Hne Hu))
    as ([] & cs' & E & Hs' & batches & Ev & Hgot & Hok).
  assert (extendable rs (Block.wire <$> concat batches)) as Hex.
  { eapply (wire_extendable _ bs rs _ n (proj1 Hs)); [done|lia|lia|done|exact Hgot]. }
  destruct (wp_total _ _ _ (receive_batches_spec peer asker now cr rs batches Hr Hrne Hex))
    as ([] & cr' & Er & Hr').
  exists cs', cr', batches, (Block.wire <$> concat batches). split_and!; try done.
  - unfold handle_msg_middle. cbn [RawHeader.code RawMessage.header sync_message RawMessage.payload].
    unfold mbind, M_mbind, M_bind, lift. rewrite from_into. cbn [unwrap]. by rewrite E.
  - rewrite <-take_take_drop. apply Forall2_app; [done|]. apply wire_equivs; [done|].
    apply Forall_take, Forall_drop, Forall_forall. apply (rep_coherent _ _ (proj1 Hs)).
Qed.

Lemma posted_batches (me : PeerId) (batches : list (list Block.t)) :
  omap (posted_for me) (PostBlock (Some me) <$> batches) = batches.
Proof.
  induction batches as [|l batches IH]; simpl; [done|].
  rewrite bool_decide_true by done. f_equal. exact IH.
Qed.

(** Two chains, the second a copy of the first [n] blocks [bs] of the other. *)
Definition follows (bs : list Block.t) (n : nat) (w : Chain_t * Chain_t) : Prop :=
  ledger_rep (Chain.ledger w.1) bs ∧
  ∃ rs, ledger_rep (Chain.ledger w.2) rs ∧ Forall2 block_equiv rs (take n bs).

Section syncing.
Context (bs : list Block.t).
Context (Hlen : Z.of_nat (length bs) < u64_bound).
Context (Htime : ∀ b, b ∈ bs → timestamp_in_range (as_i64 (Header.time (Block.header b))) = true).

Lemma sync_round_spec peer me now n w :
  follows bs n w → (0 < n ≤ length bs)%nat →
  wp False (sync_round peer me now) (λ _ w', follows bs (n + sync_fuel) w') w.
Proof using All.
  destruct w as [cs cr]. intros (Hs & rs & Hr & Hq) Hn. simpl in *.
  destruct (sync_catches_up peer me now cs cr bs rs n Hs Hr Hq Hn Hlen Htime)
    as (cs' & cr' & batches & got & E1 & E2 & _ & E3 & Hs' & Hr' & Hq').
  assert (length rs = n) as El by (rewrite (Forall2_length _ _ _ Hq), length_take; lia).
  assert (Chain.get_last_height cr + 1 = Z.of_nat n) as En.
  { rewrite <-El. apply last_height_next; [done|]. intros ->. simpl in El. lia. }
  unfold wp, sync_round. rewrite u64_add_fits by lia. simpl. rewrite En, E1, E2.
  rewrite drop_app_length, posted_batches, E3. split; [done|]. by exists (rs ++ got).
Qed.

Lemma follows_all n w : (length bs ≤ n)%nat → follows bs n w → follows bs (length bs) w.
Proof. intros Hn (Hs & rs & Hr & Hq). split; [done|]. exists rs. by rewrite !take_ge in * by lia. Qed.

Lemma sync_rounds_spec peer me now k n w :
  follows bs n w → (0 < n ≤ length bs)%nat → (length bs ≤ n + k * sync_fuel)%nat →
  wp False (sync_rounds k peer me now) (λ _ w', follows bs (length bs) w') w.
Proof using All.
  revert n w. induction k as [|k IH]; intros n w Hf Hn Hk; simpl.
  { wp_step. apply (follows_all n); [lia|done]. }
  wp_step. eapply wp_mono; [by apply sync_round_spec|]. intros [] w1 Hf1.
  apply (IH (min (n + sync_fuel) (length bs))); [|unfold sync_fuel; lia|lia].
  destruct (Nat.min_spec (n + sync_fuel) (length bs)) as [[? ->]|[? ->]]; [done|].
  by eapply follows_all.
Qed.
End syncing.

(** C14 A node that is behind catches up: a node whose chain is the first
    blocks of a peer's asks it again and again for the blocks above its last
    one; each answer is a sequence of batches of at most 102 blocks
    altogether, and after one request for every 102 missing blocks, or any
    number more, the node holds the peer's whole chain, every block with the
    peer's hash and content.  No message makes either side panic. *)
Theorem sync_completes (peer me : PeerId) (now : Z) (k n : nat) (cs cr : Chain_t)
    (bs rs : list Block.t) :
  ledger_rep (Chain.ledger cs) bs → ledger_rep (Chain.ledger cr) rs →
  Forall2 block_equiv rs (take n bs) → (0 < n ≤ length bs)%nat →
  Z.of_nat (length bs) < u64_bound →
  (∀ b, b ∈ bs → timestamp_in_range (as_i64 (Header.time (Block.header b))) = true) →
  (length bs - n ≤ k * sync_fuel)%nat →
  ∃ cs' cr' rs', sync_rounds k peer me now (cs, cr) = Ret (tt, (cs', cr')) ∧
    ledger_rep (Chain.ledger cs') bs ∧ ledger_rep (Chain.ledger cr') rs' ∧ Forall2 block_equiv rs' bs.
Proof using All.
  intros Hs Hr Hq Hn Hu Ht Hk.
  destruct (wp_total _ _ _ (sync_rounds_spec bs Hu Ht peer me now k n (cs, cr)
    (conj Hs (ex_intro _ rs (conj Hr Hq))) Hn ltac:(lia))) as ([] & [cs' cr'] & E & Hs' & rs' & Hr' & Hq').
  rewrite take_ge in Hq' by lia. eauto 8.
Qed.
End middle_props.
