(* ===== verification/Net.v ===== *)
(** * The peer-to-peer server and its sessions ([src/p2p/server.rs], [src/p2p/session.rs])

    The server keeps the table of connected peers.  A session owns one
    connection: it exchanges handshakes, forwards what it reads to the server
    and writes what the server sends.  Addresses of session actors are
    numbers, and what an actor sends is a list in its state. *)

From stdpp Require Import relations.
From S2P Require Import Prelude External Types Validators Protocol Wire Store Ledger P2p Middle.

Inductive P2PError : Type := HandShakeFailed | DifferentGenesis | DumpConnected | InvalidMessage | Timeout.
Abbreviation Multiaddr := string.

Inductive ServerEvent : Type :=
| Connected (peer_id : PeerId) (bound : BoundType) (pid : nat) (msg : RawMessage.t)
| Disconnected (peer_id : PeerId)
| Message (peer_id : PeerId) (msg : RawMessage.t)
| Ping (peer_id : PeerId).

Inductive BroadcastEvent : Type :=
| BTransaction (tx : Transaction.t)
| BBlocks (peer_id : option PeerId) (blocks : list Block.t)
| BConsensus (msg : GossipMessage.t)
| BSync (height : Height).

Inductive P2PEvent : Type :=
| AddPeer (peer_id : PeerId) (addresses : list Multiaddr)
| DropPeer (peer_id : PeerId) (addresses : list Multiaddr).

(** ** Sessions *)

Module Session.
Section session.
Context `{PeerIds, StorageValue Handshake.t}.

(** [framed] is what was written to the connection. *)
Record t : Type := mk {
  pid : option nat; peer_id : PeerId; local_id : PeerId; bound_type : BoundType;
  handshaked : bool; genesis : Hash; framed : list RawMessage.t; closed : bool; stopped : bool }.

Definition new (self_pid : nat) (self_peer_id local_peer : PeerId) (bound : BoundType) (genesis : Hash) : t :=
  mk (Some self_pid) self_peer_id local_peer bound false genesis [] false false.

Definition write (msg : RawMessage.t) : M t unit :=
  modify (λ s, mk (pid s) (peer_id s) (local_id s) (bound_type s) (handshaked s) (genesis s)
    (framed s ++ [msg]) (closed s) (stopped s)).
Definition close : M t unit :=
  modify (λ s, mk (pid s) (peer_id s) (local_id s) (bound_type s) (handshaked s) (genesis s)
    (framed s) true (stopped s)).

Definition handshake_new (version : string) (peer : PeerId) (genesis : Hash) : Handshake.t :=
  Handshake.mk version (to_base58 peer) genesis.
Definition handshake_message (now_nanos : Z) (s : t) : RawMessage.t :=
  RawMessage.new (RawHeader.new PHandshake 10 now_nanos None)
    (into_bytes (handshake_new "0.1.1" (local_id s) (genesis s))).

(** The one message of the stream [started] adds goes through the actor's
    own [Handler<RawMessage>]. *)
Definition handle_raw (msg : RawMessage.t) : M t unit := write msg.
Definition started (now_nanos : Z) : M t unit :=
  s ← gets (λ s, s); handle_raw (handshake_message now_nanos s).

(** [stopping], which runs when the context stops; returns what is sent to
    the server. *)
Definition stopping : M t (list ServerEvent) :=
  s ← gets (λ s, s);
  if handshaked s then close;; mret [Disconnected (peer_id s)] else mret [].
Definition stop : M t (list ServerEvent) :=
  modify (λ s, mk (pid s) (peer_id s) (local_id s) (bound_type s) (handshaked s) (genesis s)
    (framed s) (closed s) true);;
  stopping.

(** The two timers of [started]. *)
Definition handshake_timeout : M t (list ServerEvent) :=
  s ← gets (λ s, s);
  if handshaked s then mret [] else close;; stop.
Definition ping_interval (now_millis : Z) : M t unit :=
  s ← gets (λ s, s);
  when (handshaked s)
    (handle_raw (RawMessage.new (RawHeader.new PPing 3 now_millis None) [])).

(** [StreamHandler::handle]: what the server is sent.  The actor waits for
    the answer to [Connected] and [Ping]. *)
Definition handle (msg : RawMessage.t) : M t (option ServerEvent) :=
  s ← gets (λ s, s);
  match RawHeader.code (RawMessage.header msg) with
  | PHandshake =>
      p ← lift (unwrap (pid s));
      mret (Some (Connected (peer_id s) (bound_type s) p msg))
  | PTransaction => mret None
  | PBlock | PConsensus | PSync => mret (Some (Message (peer_id s) msg))
  | PPing => rassert (handshaked s);; mret (Some (Ping (peer_id s)))
  end.
Definition on_result (ev : ServerEvent) (res : result PeerId P2PError) : M t (list ServerEvent) :=
  match ev, res with
  | Connected _ _ _ _, Ok peer =>
      modify (λ s, mk (pid s) peer (local_id s) (bound_type s) true (genesis s) (framed s) (closed s)
        (stopped s));;
      mret []
  | Connected _ _ _ _, Err _ | Ping _, Err _ => stop
  | _, _ => mret []
  end.
(** [SessionEvent::Stop] *)
Definition handle_stop : M t (list ServerEvent) := stop.
End session.
End Session.

(** ** The server *)

Module ConnectInfo.
Record t : Type := new { connect_time : Z; bound_type : BoundType; pid : nat }.
End ConnectInfo.

Inductive ServerEffect : Type :=
| ToSession (pid : nat) (msg : RawMessage.t)
| StopSession (pid : nat)
| Notify (ev : BroadcastEvent)
| Dial (remote : PeerId) (address : Multiaddr)
| Shutdown (remote : PeerId)
| NewSession (s : Session.t).

(** The [author_fn] the node installs. *)
Definition author_handshake (genesis : Hash) (h : Handshake.t) : bool :=
  bool_decide (Handshake.genesis h = genesis).

Module TcpServer.
Section server.
(** [W] is the state the message handler works on.  The key and the listening
    address are used to bind the socket only and are left out. *)
Context {W TC : Type} `{TimedCache TC Hash bool}.
Context `{PeerIds, StorageValue Handshake.t, CryptoHash RawMessage.t, PeerMapOrder, Codec}.

Record t : Type := mk {
  node_id : PeerId; peers : gmap PeerId ConnectInfo.t; genesis : Hash; cache : TC;
  author_fn : Handshake.t → bool; handles : PeerId → RawMessage.t → M W unit; world : W;
  outbox : list ServerEffect }.

Definition set_peers (x : gmap PeerId ConnectInfo.t) (s : t) : t :=
  mk (node_id s) x (genesis s) (cache s) (author_fn s) (handles s) (world s) (outbox s).
Definition set_cache (x : TC) (s : t) : t :=
  mk (node_id s) (peers s) (genesis s) x (author_fn s) (handles s) (world s) (outbox s).
Definition set_world (x : W) (s : t) : t :=
  mk (node_id s) (peers s) (genesis s) (cache s) (author_fn s) (handles s) x (outbox s).
Definition emit (e : ServerEffect) : M t unit :=
  modify (λ s, mk (node_id s) (peers s) (genesis s) (cache s) (author_fn s) (handles s) (world s)
    (outbox s ++ [e])).
Fixpoint emit_all (es : list ServerEffect) : M t unit :=
  match es with [] => mret tt | e :: rest => emit e;; emit_all rest end.

Definition new (peer_id : PeerId) (genesis : Hash) (author : Handshake.t → bool)
    (handles : PeerId → RawMessage.t → M W unit) (world : W) : t :=
  mk peer_id ∅ genesis tc_new author handles world [].

Definition connected (p : PeerId) (s : t) : bool := bool_decide (is_Some (peers s !! p)).

Definition handle_handshake (now : Clk.t) (bound_type : BoundType) (pid : nat) (payload : bytes) :
    M t (result PeerId P2PError) :=
  handshake ← lift (unwrap (from_bytes payload));
  peer_id ← lift (unwrap (peer_from_str (Handshake.peer_id handshake)));
  s ← gets (λ s, s);
  if connected peer_id s then mret (Err DumpConnected)
  else if bool_decide (node_id s = peer_id) then mret (Err HandShakeFailed)
  else if negb (author_fn s handshake) then mret (Err DifferentGenesis)
  else
    let connect_info := ConnectInfo.new (Clk.wall_secs now) InBound pid in
    modify (set_peers (<[peer_id := connect_info]> (peers s)));;
    mret (Ok peer_id).

(** [(self.handles)(peer_id, raw_msg)] *)
Definition call_handles (peer_id : PeerId) (msg : RawMessage.t) : M t unit :=
  λ s, match handles s peer_id msg (world s) with
       | Ret (_, w) => Ret (tt, set_world w s)
       | Panic => Panic
       end.

(** [Handler<ServerEvent>] *)
Definition handle (now : Clk.t) (ev : ServerEvent) : M t (result PeerId P2PError) :=
  match ev with
  | Connected _ bound_type pid raw_msg => handle_handshake now bound_type pid (RawMessage.payload raw_msg)
  | Disconnected peer_id =>
      modify (λ s, set_peers (delete peer_id (peers s)) s);;
      mret (Ok peer_id)
  | Ping peer_id =>
      s ← gets (λ s, s);
      info ← lift (unwrap (peers s !! peer_id));
      modify (set_peers (<[peer_id := ConnectInfo.new (Clk.wall_secs now)
        (ConnectInfo.bound_type info) (ConnectInfo.pid info)]> (peers s)));;
      mret (Ok peer_id)
  | Message peer_id raw_msg =>
      let hash := crypto_hash raw_msg in
      if Clk.wall_millis now <? RawHeader.create_time (RawMessage.header raw_msg) then mret (Ok peer_id)
      else
        s ← gets (λ s, s);
        let '(hit, cache') := tc_get (Clk.instant now) hash (cache s) in
        modify (set_cache cache');;
        match hit with
        | Some _ => mret (Ok peer_id)
        | None => call_handles peer_id raw_msg;; mret (Ok peer_id)
        end
  end.

Definition broadcast (msg : RawMessage.t) : M t unit :=
  s ← gets (λ s, s);
  match RawHeader.peer_id (RawMessage.header msg) with
  | Some b =>
      peer ← lift (unwrap (peer_from_bytes b));
      match peers s !! peer with
      | Some info => emit (ToSession (ConnectInfo.pid info) msg)
      | None => mret tt
      end
  | None => emit_all ((λ kv, ToSession (ConnectInfo.pid kv.2) msg) <$> pm_iter (peers s))
  end.

(** [Handler<BroadcastEvent>] *)
Definition handle_broadcast (now : Clk.t) (ev : BroadcastEvent) : M t unit :=
  let millis := Clk.wall_millis now in
  match ev with
  | BConsensus msg =>
      broadcast (RawMessage.new (RawHeader.new PConsensus 10 millis None) (GossipMessage.into_payload msg))
  | BBlocks peer_id blocks => broadcast (block_message peer_id millis blocks)
  | BSync height =>
      s ← gets (λ s, s);
      match pm_iter (peers s) with
      | (peer_id, _) :: _ => broadcast (sync_message peer_id millis height)
      | [] => mret tt
      end
  | BTransaction _ => panic
  end.

(** [Handler<ChainEvent>] *)
Definition handle_chain (ev : ChainEvent) : M t unit :=
  match ev with
  | NewBlock block => emit (Notify (BBlocks None [block]))
  | NewHeader _ => mret tt
  | SyncBlock height => emit (Notify (BSync height))
  | PostBlock peer_id blocks => emit (Notify (BBlocks peer_id blocks))
  end.

(** The interval of [started] that drops the peers that have not pinged for
    more than three seconds. *)
Definition expired (now : Clk.t) (info : ConnectInfo.t) : bool :=
  3 <? Clk.wall_secs now - ConnectInfo.connect_time info.
Fixpoint remove_peers (l : list PeerId) : M t unit :=
  match l with
  | [] => mret tt
  | peer :: rest =>
      s ← gets (λ s, s);
      (match peers s !! peer with
       | Some info => modify (set_peers (delete peer (peers s)));; emit (StopSession (ConnectInfo.pid info))
       | None => mret tt
       end);;
      remove_peers rest
  end.
Definition drop_expired (now : Clk.t) : M t unit :=
  s ← gets (λ s, s);
  remove_peers (fst <$> filter (λ kv, expired now kv.2 = true) (pm_iter (peers s))).

(** [Handler<P2PEvent>]: [add_peer] dials the first address. *)
Definition add_peer (remote : PeerId) (addresses : list Multiaddr) : M t unit :=
  s ← gets (λ s, s);
  if connected remote s then mret tt
  else
    mul_addr ← lift (unwrap (head addresses));
    emit (Dial remote mul_addr).
Definition handle_p2p (ev : P2PEvent) : M t unit :=
  match ev with
  | AddPeer remote addresses => add_peer remote addresses
  | DropPeer _ _ => mret tt
  end.

(** [TcpDial::new] and the two connection handlers create sessions, here
    with the address [pid]. *)
Definition ZERO_PEER : option PeerId := peer_from_str "QmX5e9hkQf7B45e2MZf38vhsC2wfA5aKQrrBuLujwaUBGw".
Definition dialed (pid : nat) (remote : PeerId) : M t unit :=
  s ← gets (λ s, s);
  emit (NewSession (Session.new pid remote (node_id s) OutBound (genesis s))).
Definition connect_outbound (pid : nat) (remote : PeerId) : M t unit :=
  s ← gets (λ s, s);
  if connected remote s then emit (Shutdown remote)
  else emit (NewSession (Session.new pid remote (node_id s) OutBound (genesis s))).
Definition connect_inbound (pid : nat) : M t unit :=
  s ← gets (λ s, s);
  zero_peer ← lift (unwrap ZERO_PEER);
  emit (NewSession (Session.new pid zero_peer (node_id s) InBound (genesis s))).

(** *** Runs *)

Inductive input : Type :=
| InServer (now : Clk.t) (ev : ServerEvent)
| InBroadcast (now : Clk.t) (ev : BroadcastEvent)
| InChain (ev : ChainEvent)
| InInterval (now : Clk.t)
| InP2p (ev : P2PEvent)
| InDialed (pid : nat) (remote : PeerId)
| InOutbound (pid : nat) (remote : PeerId)
| InInbound (pid : nat).

Definition run_input (i : input) : M t unit :=
  match i with
  | InServer now ev => _ ← handle now ev; mret tt
  | InBroadcast now ev => handle_broadcast now ev
  | InChain ev => handle_chain ev
  | InInterval now => drop_expired now
  | InP2p ev => handle_p2p ev
  | InDialed pid remote => dialed pid remote
  | InOutbound pid remote => connect_outbound pid remote
  | InInbound pid => connect_inbound pid
  end.

(** The inputs in the order they were handled. *)
Inductive run : t → list input → t → Prop :=
| run_nil s : run s [] s
| run_snoc s ins s1 i s2 : run s ins s1 → run_input i s1 = Ret (tt, s2) → run s (ins ++ [i]) s2.
End server.
Arguments t : clear implicits.
End TcpServer.

(** ** A session with its server *)

Section link.
Context {W TC : Type} `{TimedCache TC Hash bool}.
Context `{PeerIds, StorageValue Handshake.t, CryptoHash RawMessage.t, PeerMapOrder, Codec}.
Abbreviation Server := (TcpServer.t W TC).
Abbreviation Link := (Server * Session.t)%type.

Definition on_server {A : Type} (m : M Server A) : M Link A :=
  λ l, match m l.1 with Ret (a, s) => Ret (a, (s, l.2)) | Panic => Panic end.
Definition on_session {A : Type} (m : M Session.t A) : M Link A :=
  λ l, match m l.2 with Ret (a, s) => Ret (a, (l.1, s)) | Panic => Panic end.

Fixpoint server_events (now : Clk.t) (evs : list ServerEvent) : M Link unit :=
  match evs with
  | [] => mret tt
  | ev :: rest => _ ← on_server (TcpServer.handle now ev); server_events now rest
  end.
(** A message from the connection: the session's handler, the server's
    answer and what the session does with it. *)
Definition receive (now : Clk.t) (msg : RawMessage.t) : M Link unit :=
  ev ← on_session (Session.handle msg);
  match ev with
  | None => mret tt
  | Some e =>
      res ← on_server (TcpServer.handle now e);
      evs ← on_session (Session.on_result e res);
      server_events now evs
  end.
End link.

(** The message handler the node installs, [handle_msg_middle]: it works on
    the chain, and the payloads of consensus messages go to the core. *)
Section node.
Context {DB HC BC : Type} `{Database DB, LruCache HC Hash Header.t, LruCache BC Hash Block.t}.
Context `{CryptoKit, Codec, Chrono}.
Definition node_handles (peer : PeerId) (msg : RawMessage.t) : M (Chain.t DB HC BC * list bytes) unit :=
  λ w, match handle_msg_middle peer msg w.1 with
       | Ret (to_core, c) => Ret (tt, (c, w.2 ++ option_list to_core))
       | Panic => Panic
       end.
End node.

(** ** Who is in the table *)

Section net_props.
Context {W TC : Type} `{TimedCacheLaws TC Hash bool}.
Context `{PeerIdsLaws} `{HSL : StorageLaws Handshake.t (λ h, h)} `{CryptoHash RawMessage.t}.
Context `{PeerMapOrderLaws} `{Codec}.
Abbreviation Server := (TcpServer.t W TC).
Implicit Types (s : Server) (p : PeerId).

(** [msg] is a handshake of [p] that the server's check lets through. *)
Definition introduces (author : Handshake.t → bool) (msg : RawMessage.t) p : Prop :=
  ∃ h, from_bytes (RawMessage.payload msg) = Some h ∧ peer_from_str (Handshake.peer_id h) = Some p ∧
    author h = true.

Definition admits (s : Server) (i : TcpServer.input) p (pid : nat) : Prop :=
  ∃ now q b msg, i = TcpServer.InServer now (Connected q b pid msg) ∧
    introduces (TcpServer.author_fn s) msg p ∧ p ≠ TcpServer.node_id s ∧ TcpServer.peers s !! p = None.

Definition cache_empty (s : Server) : Prop := ∀ t h, (tc_get t h (TcpServer.cache s)).1 = None.

Record server_step (i : TcpServer.input) (s s' : Server) : Prop := {
  st_node : TcpServer.node_id s' = TcpServer.node_id s;
  st_author : TcpServer.author_fn s' = TcpServer.author_fn s;
  st_genesis : TcpServer.genesis s' = TcpServer.genesis s;
  st_handles : TcpServer.handles s' = TcpServer.handles s;
  st_cache : cache_empty s → cache_empty s';
  st_peers : ∀ p info', TcpServer.peers s' !! p = Some info' →
    (∃ info, TcpServer.peers s !! p = Some info ∧ ConnectInfo.pid info' = ConnectInfo.pid info) ∨
    admits s i p (ConnectInfo.pid info')
}.

Lemma server_step_refl i s : server_step i s s.
Proof. split; eauto. Qed.

(** Steps that admit nobody. *)
Definition quiet (s s' : Server) : Prop := ∀ i, server_step i s s'.
Lemma quiet_refl s : quiet s s.
Proof. intros i. apply server_step_refl. Qed.
Lemma quiet_trans s1 s2 s3 : quiet s1 s2 → quiet s2 s3 → quiet s1 s3.
Proof.
  intros Q1 Q2 i.
  set (i0 := TcpServer.InInbound 0 : TcpServer.input).
  destruct (Q1 i0) as [A1 B1 C1 D1 E1 F1], (Q2 i0) as [A2 B2 C2 D2 E2 F2].
  split; [congruence..|auto|]. intros p info Hp.
  destruct (F2 p info Hp) as [(i2 & Hp2 & Ei)|(? & ? & ? & ? & [=] & _)].
  destruct (F1 p i2 Hp2) as [(i1 & Hp1 & Ei')|(? & ? & ? & ? & [=] & _)].
  left. exists i1. split; [done|congruence].
Qed.

Lemma emit_quiet e s : wp True (TcpServer.emit e) (λ _ s', quiet s s' ∧ TcpServer.peers s' = TcpServer.peers s) s.
Proof. apply wp_modify. split; [|done]. intros i. split; try done. intros p info E. left. eauto. Qed.

Lemma emit_all_quiet es s :
  wp True (TcpServer.emit_all es) (λ _ s', quiet s s' ∧ TcpServer.peers s' = TcpServer.peers s) s.
Proof.
  revert s. induction es as [|e es IH]; intros s; cbn [TcpServer.emit_all].
  { wp_step. split; [apply quiet_refl|done]. }
  wp_step. eapply wp_mono; [apply emit_quiet|]. intros [] s1 [Q1 E1].
  eapply wp_mono; [apply IH|]. intros [] s2 [Q2 E2]. split; [by eapply quiet_trans|congruence].
Qed.

Lemma broadcast_quiet msg s : wp True (TcpServer.broadcast msg) (λ _ s', quiet s s') s.
Proof.
  unfold TcpServer.broadcast. wp_step. apply wp_gets. destruct (RawHeader.peer_id _).
  - wp_step. apply wp_lift; [intros peer _|done]. destruct (TcpServer.peers s !! peer).
    + eapply wp_mono; [apply emit_quiet|]. by intros [] s' [Q _].
    + wp_step. apply quiet_refl.
  - eapply wp_mono; [apply emit_all_quiet|]. by intros [] s' [Q _].
Qed.

Lemma handle_broadcast_quiet now ev s : wp True (TcpServer.handle_broadcast now ev) (λ _ s', quiet s s') s.
Proof.
  destruct ev; cbn [TcpServer.handle_broadcast]; [done|apply broadcast_quiet..|].
  wp_step. apply wp_gets. destruct (pm_iter _) as [|[q ?] ?]; [wp_step; apply quiet_refl|apply broadcast_quiet].
Qed.

Lemma delete_quiet p s : quiet s (TcpServer.set_peers (delete p (TcpServer.peers s)) s).
Proof.
  intros i. split; try done. intros q info Hq. simpl in Hq. apply lookup_delete_Some in Hq as [_ Hq].
  left. eauto.
Qed.

Lemma remove_peers_quiet l s : wp True (TcpServer.remove_peers l) (λ _ s', quiet s s') s.
Proof.
  revert s. induction l as [|p l IH]; intros s; cbn [TcpServer.remove_peers].
  { wp_step. apply quiet_refl. }
  wp_step. apply wp_gets. wp_step.
  eapply (wp_mono _ _ (λ _ s', quiet s s')).
  { destruct (TcpServer.peers s !! p); [|wp_step; apply quiet_refl]. wp_step. apply wp_modify.
    eapply wp_mono; [apply emit_quiet|]. intros [] s' [Q _]. eapply quiet_trans; [apply delete_quiet|exact Q]. }
  intros [] s1 Q1. eapply wp_mono; [apply IH|]. intros [] s2 Q2. by eapply quiet_trans.
Qed.

Lemma handle_handshake_step now q b pid msg s :
  wp True (TcpServer.handle_handshake now b pid (RawMessage.payload msg))
    (λ _ s', server_step (TcpServer.InServer now (Connected q b pid msg)) s s') s.
Proof.
  unfold TcpServer.handle_handshake. wp_step. apply wp_lift; [|done]. intros h Eh. wp_step.
  apply wp_lift; [|done]. intros p Ep. wp_step. apply wp_gets.
  destruct (TcpServer.connected p s) eqn:Ec; [wp_step; apply server_step_refl|].
  case_bool_decide as En; [wp_step; apply server_step_refl|].
  destruct (TcpServer.author_fn s h) eqn:Ea; cbn [negb]; [|wp_step; apply server_step_refl].
  wp_step. apply wp_modify. wp_step. split; try done. intros p' info Hp. simpl in Hp.
  apply lookup_insert_Some in Hp as [[<- <-]|[_ Hp]]; [|left; eauto]. right.
  exists now, q, b, msg. split_and!; [done| |congruence|].
  - exists h. split_and!; [|destruct (peer_from_str _); naive_solver|done]. by destruct (from_bytes _); naive_solver.
  - apply bool_decide_eq_false, eq_None_not_Some in Ec. done.
Qed.

Lemma handle_step now ev s :
  wp True (TcpServer.handle now ev) (λ _ s', server_step (TcpServer.InServer now ev) s s') s.
Proof.
  destruct ev as [q b pid msg|q|q msg|q]; cbn [TcpServer.handle].
  - apply handle_handshake_step.
  - wp_step. apply wp_modify. wp_step. apply delete_quiet.
  - destruct (_ <? _); [wp_step; apply server_step_refl|]. wp_step. apply wp_gets.
    destruct (tc_get _ _ _) as [hit c'] eqn:Ec. wp_step. apply wp_modify.
    assert (quiet s (TcpServer.set_cache c' s)) as Q.
    { intros i. split; try done; [|intros p info E; left; eauto]. intros He t h. simpl.
      destruct (tc_get t h c') as [[v|] c2] eqn:E; [|done].
      destruct (tc_get_get (Clk.instant now) t h (crypto_hash msg) v (TcpServer.cache s)) as [t0 E0].
      { by rewrite Ec; simpl; rewrite E. }
      by rewrite He in E0. }
    destruct hit; [wp_step; apply Q|]. wp_step. unfold wp at 1, TcpServer.call_handles.
    destruct (TcpServer.handles _ _ _ _) as [[[] w]|]; [|done]. wp_step.
    by destruct (Q (TcpServer.InServer now (Message q msg))).
  - wp_step. apply wp_gets. wp_step. apply wp_lift; [|done]. intros info E. wp_step. apply wp_modify. wp_step.
    split; try done. intros p info' Hp. simpl in Hp. left.
    apply lookup_insert_Some in Hp as [[<- <-]|[_ Hp]]; [|eauto].
    exists info. split; [|done]. destruct (TcpServer.peers s !! q); naive_solver.
Qed.

Lemma run_input_step i s : wp True (TcpServer.run_input i) (λ _ s', server_step i s s') s.
Proof.
  assert (∀ e, wp True (TcpServer.emit e) (λ _ s', server_step i s s') s) as Hemit.
  { intros e. eapply wp_mono; [apply emit_quiet|]. intros [] s' [Q _]. apply Q. }
  destruct i as [now ev|now ev|ev|now|ev|pid q|pid q|pid]; cbn [TcpServer.run_input].
  - wp_step. eapply wp_mono; [apply handle_step|]. intros r s' Hs. by wp_step.
  - eapply wp_mono; [apply handle_broadcast_quiet|]. intros [] s' Q. apply Q.
  - destruct ev; cbn [TcpServer.handle_chain]; try apply Hemit. wp_step. apply server_step_refl.
  - unfold TcpServer.drop_expired. wp_step. apply wp_gets.
    eapply wp_mono; [apply remove_peers_quiet|]. intros [] s' Q. apply Q.
  - destruct ev as [q l|]; cbn [TcpServer.handle_p2p]; [|wp_step; apply server_step_refl].
    unfold TcpServer.add_peer. wp_step. apply wp_gets.
    destruct (TcpServer.connected q s); [wp_step; apply server_step_refl|]. wp_step.
    apply wp_lift; [|done]. intros a _. apply Hemit.
  - unfold TcpServer.dialed. wp_step. apply wp_gets. apply Hemit.
  - unfold TcpServer.connect_outbound. wp_step. apply wp_gets. destruct (TcpServer.connected q s); apply Hemit.
  - unfold TcpServer.connect_inbound. wp_step. apply wp_gets. wp_step. apply wp_lift; [|done]. intros z _. apply Hemit.
Qed.

(** C26 Only authenticated peers are in the table: after any sequence of events,
    every entry of the server's peer table belongs to another node, and the
    session it names has presented that node's handshake with the genesis
    hash of this server.  The cache of received messages is always empty, so
    the server never recognises a message it has handled before. *)
Theorem peers_authenticated (me : PeerId) (genesis : Hash) (handles : PeerId → RawMessage.t → M W unit)
    (w : W) (ins : list TcpServer.input) (s : Server) (p : PeerId) (info : ConnectInfo.t) :
  TcpServer.run (TcpServer.new me genesis (author_handshake genesis) handles w) ins s →
  TcpServer.peers s !! p = Some info →
  p ≠ me ∧ cache_empty s ∧
  ∃ now q b msg h, TcpServer.InServer now (Connected q b (ConnectInfo.pid info) msg) ∈ ins ∧
    from_bytes (RawMessage.payload msg) = Some h ∧ peer_from_str (Handshake.peer_id h) = Some p ∧
    Handshake.genesis h = genesis.
Proof using All.
  intros Hrun. set (s0 := TcpServer.new _ _ _ _ _) in Hrun.
  assert (TcpServer.node_id s = me ∧ TcpServer.author_fn s = author_handshake genesis ∧ cache_empty s ∧
    ∀ p info, TcpServer.peers s !! p = Some info → p ≠ me ∧
      ∃ now q b msg, TcpServer.InServer now (Connected q b (ConnectInfo.pid info) msg) ∈ ins ∧
        introduces (author_handshake genesis) msg p) as (_ & _ & He & Hp).
  { remember s0 as s1 eqn:E. induction Hrun as [s|s ins s1 i s2 Hrun IH Hi]; subst.
    - split_and!; [done|done|intros t h; apply tc_get_new|]. intros q i Hq. destruct (lookup_empty_Some _ _ Hq).
    - destruct (IH eq_refl) as (En & Ea & He & Hp).
      destruct (wp_elim _ _ _ _ _ _ (run_input_step i s1) Hi) as [S1 S2 _ _ S5 S6].
      split_and!; [congruence|congruence|auto|]. intros q info' Hq.
      destruct (S6 q info' Hq) as [(info0 & Hi0 & Epid)|(now & q' & b & msg & -> & Hint & Hne & _)].
      + destruct (Hp q info0 Hi0) as [Hne (now & q' & b & msg & Hin & Hi')]. split; [done|].
        exists now, q', b, msg. rewrite Epid. split; [apply elem_of_app; by left|done].
      + split; [congruence|]. exists now, q', b, msg.
        split; [apply elem_of_app; right; by apply list_elem_of_singleton|by rewrite <-Ea]. }
  intros E. destruct (Hp p info E) as [Hne (now & q & b & msg & Hin & h & Eh & Ep & Eg)].
  split_and!; [done|done|]. exists now, q, b, msg, h. split_and!; [done|done|done|].
  by apply bool_decide_eq_true in Eg.
Qed.

(** ** Two nodes *)

Definition welcomed (c : Session.t) p : Session.t :=
  Session.mk (Session.pid c) p (Session.local_id c) (Session.bound_type c) true (Session.genesis c)
    (Session.framed c) (Session.closed c) (Session.stopped c).
Definition dismissed (c : Session.t) : Session.t :=
  Session.mk (Session.pid c) (Session.peer_id c) (Session.local_id c) (Session.bound_type c)
    (Session.handshaked c) (Session.genesis c) (Session.framed c) (Session.closed c) true.

Lemma session_stop c : Session.handshaked c = false → Session.stop c = Ret ([], dismissed c).
Proof.
  intros E. unfold Session.stop, Session.stopping, modify, mbind, M_mbind, M_bind, gets, dismissed. simpl.
  rewrite E.
  reflexivity.
Qed.

(** What a node does with the handshake of the peer [q]. *)
Lemma receive_handshake now s c pid hd version q g :
  peer_from_bytes q = Some q → TcpServer.peers s !! q = None → q ≠ TcpServer.node_id s →
  TcpServer.author_fn s = author_handshake (TcpServer.genesis s) →
  Session.pid c = Some pid → Session.handshaked c = false → RawHeader.code hd = PHandshake →
  receive now (RawMessage.new hd (into_bytes (Session.handshake_new version q g))) (s, c) =
    Ret (tt, if decide (g = TcpServer.genesis s)
             then (TcpServer.set_peers (<[q := ConnectInfo.new (Clk.wall_secs now) InBound pid]>
                     (TcpServer.peers s)) s, welcomed c q)
             else (s, dismissed c)).
Proof using All.
  intros Hq Hnone Hne Ha Epid Eh Ecode.
  unfold receive, Session.handle, on_session, mbind, M_mbind, M_bind, gets. simpl. rewrite Ecode.
  rewrite Epid. simpl. unfold on_server, TcpServer.handle, TcpServer.handle_handshake. simpl.
  unfold mbind, M_mbind, M_bind, lift, gets. rewrite from_into. simpl.
  rewrite (peer_from_to_base58 q Hq). simpl. unfold TcpServer.connected.
  rewrite bool_decide_false by (rewrite Hnone; by intros [? ?]). rewrite bool_decide_false by congruence.
  rewrite Ha. unfold author_handshake. simpl. destruct (decide (g = TcpServer.genesis s)) as [Eg|Eg].
  - rewrite bool_decide_true by done. done.
  - rewrite bool_decide_false by done. simpl.
    rewrite session_stop by done. reflexivity.
Qed.

(** C27 Nodes connect exactly when they share a genesis block: two sessions of two
    nodes on one connection exchange their handshakes; with the same genesis
    hash each server lists the other node under the session's address and
    both sessions are open, otherwise both sessions stop and neither peer
    table changes. *)
Theorem handshake_connects (now now' : Clk.t) (na nb : Z) (sa sb : Server) (pa pb : nat) (z : PeerId) :
  let a := TcpServer.node_id sa in
  let b := TcpServer.node_id sb in
  let ca := Session.new pa b a OutBound (TcpServer.genesis sa) in
  let cb := Session.new pb z b InBound (TcpServer.genesis sb) in
  a ≠ b → peer_from_bytes a = Some a → peer_from_bytes b = Some b →
  TcpServer.peers sa !! b = None → TcpServer.peers sb !! a = None →
  TcpServer.author_fn sa = author_handshake (TcpServer.genesis sa) →
  TcpServer.author_fn sb = author_handshake (TcpServer.genesis sb) →
  ∃ ca1 cb1 ma mb sa' ca2 sb' cb2,
    Session.started na ca = Ret (tt, ca1) ∧ Session.framed ca1 = [ma] ∧
    Session.started nb cb = Ret (tt, cb1) ∧ Session.framed cb1 = [mb] ∧
    receive now mb (sa, ca1) = Ret (tt, (sa', ca2)) ∧ receive now' ma (sb, cb1) = Ret (tt, (sb', cb2)) ∧
    if decide (TcpServer.genesis sa = TcpServer.genesis sb) then
      TcpServer.peers sa' = <[b := ConnectInfo.new (Clk.wall_secs now) InBound pa]> (TcpServer.peers sa) ∧
      TcpServer.peers sb' = <[a := ConnectInfo.new (Clk.wall_secs now') InBound pb]> (TcpServer.peers sb) ∧
      Session.handshaked ca2 = true ∧ Session.peer_id ca2 = b ∧ Session.stopped ca2 = false ∧
      Session.handshaked cb2 = true ∧ Session.peer_id cb2 = a ∧ Session.stopped cb2 = false
    else sa' = sa ∧ sb' = sb ∧ Session.stopped ca2 = true ∧ Session.stopped cb2 = true.
Proof using All.
  intros a b ca cb Hab Ha Hb Hna Hnb Aa Ab.
  do 8 eexists. split; [reflexivity|]. split; [reflexivity|]. split; [reflexivity|]. split; [reflexivity|].
  split; [|split].
  - etransitivity; [|by apply f_equal, f_equal, surjective_pairing].
    apply (receive_handshake now sa _ pa (RawHeader.new PHandshake 10 nb None) "0.1.1" b (TcpServer.genesis sb));
      done.
  - etransitivity; [|by apply f_equal, f_equal, surjective_pairing].
    apply (receive_handshake now' sb _ pb (RawHeader.new PHandshake 10 na None) "0.1.1" a (TcpServer.genesis sa));
      done.
  - simpl. destruct (decide (TcpServer.genesis sa = TcpServer.genesis sb)) as [E|E].
    + rewrite !decide_True by done. by split_and!.
    + rewrite !decide_False by done. by split_and!.
Qed.

(** C28 An addressed message arrives: a message to a connected peer that the
    server broadcasts goes to that peer's session only, which writes it; the
    session at the other end, whose handshake named the sender, passes it to
    its server, and the server calls its message handler with the sender and
    the message, unless the message claims to be from the future. *)
Theorem addressed_message_arrives (now : Clk.t) (m : RawMessage.t) (sa sb : Server) (ca cb : Session.t)
    (info : ConnectInfo.t) (w : W) :
  let a := TcpServer.node_id sa in
  let b := TcpServer.node_id sb in
  RawHeader.code (RawMessage.header m) ∈ [PBlock; PConsensus; PSync] →
  RawHeader.peer_id (RawMessage.header m) = Some b → peer_from_bytes b = Some b →
  TcpServer.peers sa !! b = Some info →
  Session.peer_id cb = a → cache_empty sb →
  RawHeader.create_time (RawMessage.header m) ≤ Clk.wall_millis now →
  TcpServer.handles sb a m (TcpServer.world sb) = Ret (tt, w) →
  ∃ sa' ca' sb', TcpServer.broadcast m sa = Ret (tt, sa') ∧
    TcpServer.outbox sa' = TcpServer.outbox sa ++ [ToSession (ConnectInfo.pid info) m] ∧
    Session.handle_raw m ca = Ret (tt, ca') ∧ Session.framed ca' = Session.framed ca ++ [m] ∧
    receive now m (sb, cb) = Ret (tt, (sb', cb)) ∧ TcpServer.world sb' = w ∧
    TcpServer.peers sb' = TcpServer.peers sb.
Proof using All.
  intros a b Hcode Hto Hb Hinfo Hpeer Hempty Htime Hh.
  eexists _, _. set (c' := (tc_get (Clk.instant now) (crypto_hash m) (TcpServer.cache sb)).2).
  exists (TcpServer.set_world w (TcpServer.set_cache c' sb)). split_and!.
  - unfold TcpServer.broadcast, mbind, M_mbind, M_bind, gets. rewrite Hto. unfold lift. rewrite Hb. simpl.
    rewrite Hinfo. reflexivity.
  - done.
  - reflexivity.
  - done.
  - assert (Session.handle m cb = Ret (Some (Message a m), cb)) as Eh.
    { unfold Session.handle, mbind, M_mbind, M_bind, gets. rewrite <-Hpeer.
      set_unfold in Hcode. by destruct Hcode as [->|[->|[->|[]]]]. }
    unfold receive, on_session, mbind, M_mbind, M_bind. simpl. rewrite Eh. simpl.
    unfold on_server, TcpServer.handle. simpl. destruct (Z.ltb_spec (Clk.wall_millis now)
      (RawHeader.create_time (RawMessage.header m))); [lia|].
    unfold mbind, M_mbind, M_bind, gets. pose proof (Hempty (Clk.instant now) (crypto_hash m)) as Hmiss.
    subst c'. destruct (tc_get _ _ _) as [hit c'] eqn:Ec. simpl in Hmiss |- *. subst hit.
    unfold modify, TcpServer.call_handles, M_mbind, M_bind. simpl. by rewrite Hh.
  - done.
  - done.
Qed.
End net_props.
