(* ===== verification/Dial.v ===== *)
(** * Dialling an address ([multiaddr_to_ipv4] of [src/common/mod.rs], [TcpDial] of [src/p2p/server.rs])

    The components of a multiaddress are written as text, the text is parsed
    as a socket address, and the server connects to it.  The iteration over
    a multiaddress is that of libp2p and an argument; the formatting and the
    parser of the standard library are written out. *)

From S2P Require Import Prelude External Text Types Validators Protocol Wire Store Ledger P2p Middle Net.

(** The components the code tells apart; the arguments of the others are
    not read. *)
Inductive MaProtocol : Type :=
| Ip4 (a b c d : Z)
| Tcp (port : Z)
| OtherProtocol.
#[global] Instance MaProtocol_eq_dec : EqDecision MaProtocol.
Proof. solve_decision. Defined.

(** [Multiaddr::iter] *)
Class Multiaddrs : Type := ma_iter : Multiaddr → list MaProtocol.

(** The fields are those of the Rust types: bytes and a [u16]. *)
Definition ma_protocol_ok (p : MaProtocol) : Prop :=
  match p with
  | Ip4 a b c d => Forall (λ x, 0 ≤ x < 256) [a; b; c; d]
  | Tcp port => 0 ≤ port < 65536
  | OtherProtocol => True
  end.

(** ** Socket addresses of the standard library *)

(** [SocketAddr::V4]: the four bytes and the port. *)
Record SocketAddrV4 : Type := mkSocketAddrV4 { sa_ip : Z * Z * Z * Z; sa_port : Z }.
#[global] Instance SocketAddrV4_eq_dec : EqDecision SocketAddrV4.
Proof. solve_decision. Defined.
Inductive AddrParseError : Type := mkAddrParseError.

(** [{}] of a [u8] and of a [u16], before [rest]: three and five digits are
    enough. *)
Definition fmt_u8 (n : Z) (rest : string) : string := radix_digits 10 3 n rest.
Definition fmt_u16 (n : Z) (rest : string) : string := radix_digits 10 5 n rest.
Definition dot : Ascii.ascii := Ascii.ascii_of_nat 46.
Definition colon : Ascii.ascii := Ascii.ascii_of_nat 58.
(** [{}] of an address, before [rest]. *)
Definition fmt_ip4 (a b c d : Z) (rest : string) : string :=
  fmt_u8 a (String dot (fmt_u8 b (String dot (fmt_u8 c (String dot (fmt_u8 d rest)))))).

(** The parser: what was read, and the rest. *)
Fixpoint read_number_impl (s : string) (count : nat) (r : Z) (max_digits : nat) (upto : Z) : option (Z * string) :=
  match s with
  | String c s' =>
      match to_digit 10 c with
      | Some d =>
          let r := r * 10 + d in
          if (max_digits <? S count)%nat || (upto <=? r) then None
          else read_number_impl s' (S count) r max_digits upto
      | None => match count with O => None | _ => Some (r, s) end
      end
  | EmptyString => match count with O => None | _ => Some (r, s) end
  end.
Definition read_number (s : string) (max_digits : nat) (upto : Z) : option (Z * string) :=
  read_number_impl s 0 0 max_digits upto.
Definition read_given_char (c : Ascii.ascii) (s : string) : option string :=
  match s with String c' s' => if Ascii.eqb c c' then Some s' else None | EmptyString => None end.

Definition read_dot_number (s : string) : option (Z * string) :=
  s ← read_given_char dot s; read_number s 3 256.
Definition read_ipv4_addr (s : string) : option (Z * Z * Z * Z * string) :=
  '(a, s) ← read_number s 3 256;
  '(b, s) ← read_dot_number s;
  '(c, s) ← read_dot_number s;
  '(d, s) ← read_dot_number s;
  Some (a, b, c, d, s).
Definition read_socket_addr_v4 (s : string) : option (SocketAddrV4 * string) :=
  '(ip, s) ← read_ipv4_addr s;
  s ← read_given_char colon s;
  '(port, s) ← read_number s 5 65536;
  Some (mkSocketAddrV4 ip port, s).

(** [SocketAddr::from_str]: the text is read to its end.  The alternative of
    an IPv6 address starts with a bracket, which the texts here do not
    have. *)
Definition socket_addr_from_str (s : string) : result SocketAddrV4 AddrParseError :=
  match read_socket_addr_v4 s with
  | Some (addr, EmptyString) => Ok addr
  | _ => Err mkAddrParseError
  end.

(** ** The dial *)

Section dial.
Context `{Multiaddrs}.

(** What [ipv4] holds after the loop over the components. *)
Fixpoint ipv4_text (v : list MaProtocol) : string :=
  match v with
  | [] => EmptyString
  | Ip4 a b c d :: v => fmt_ip4 a b c d (String colon (ipv4_text v))
  | Tcp port :: v => fmt_u16 port (ipv4_text v)
  | OtherProtocol :: v => ipv4_text v
  end.
Definition multiaddr_to_ipv4 (mul_addr : Multiaddr) : result SocketAddrV4 AddrParseError :=
  socket_addr_from_str (ipv4_text (ma_iter mul_addr)).

Definition unwrap_ok {A E : Type} (r : result A E) : outcome A :=
  match r with Ok a => Ret a | Err _ => Panic end.

Section server.
Context {W TC : Type} `{TimedCache TC Hash bool}.
Context `{PeerIds}.

(** [TcpDial::new]: [tcp_connect] is the outcome of the connection, with the
    address of the session that is created for it. *)
Definition tcp_dial (tcp_connect : SocketAddrV4 → option nat) (peer_id : PeerId) (mul_addr : Multiaddr) :
    M (TcpServer.t W TC) unit :=
  socket_addr ← lift (unwrap_ok (multiaddr_to_ipv4 mul_addr));
  match tcp_connect socket_addr with
  | Some pid => TcpServer.dialed pid peer_id
  | None => mret tt
  end.

(** The start of [TcpServer::new]: the socket address, and whether it can be
    bound. *)
Definition tcp_listen (can_bind : SocketAddrV4 → bool) (mul_addr : Multiaddr) : outcome SocketAddrV4 :=
  socket_addr ← unwrap_ok (multiaddr_to_ipv4 mul_addr);
  if can_bind socket_addr then Ret socket_addr else Panic.
End server.
End dial.

(** ** What is dialled *)

(** A text that ends or goes on with something that is no digit. *)
Definition stops (s : string) : Prop :=
  match s with EmptyString => True | String c _ => to_digit 10 c = None end.
Fixpoint all_digits (s : string) : Prop :=
  match s with EmptyString => True | String c s' => is_Some (to_digit 10 c) ∧ all_digits s' end.

Lemma read_number_stops s count r m u :
  stops s → read_number_impl s (S count) r m u = Some (r, s).
Proof. destruct s as [|c s]; simpl; [done|]. by intros ->. Qed.

(** Reading past a printed number. *)
Lemma read_printed (m : nat) (u : Z) fuel n rest :
  0 ≤ n < 10 ^ Z.of_nat fuel → n < u → (0 < fuel ≤ m)%nat →
  ∃ count, (count < fuel)%nat ∧
    read_number_impl (radix_digits 10 fuel n rest) 0 0 m u = read_number_impl rest (S count) n m u.
Proof.
  revert n rest. induction fuel as [|fuel IH]; intros n rest Hn Hu Hf; [lia|].
  rewrite Nat2Z.inj_succ, Z.pow_succ_r in Hn by lia. cbn [radix_digits].
  pose proof (Z.mod_pos_bound n 10 ltac:(lia)) as Hm. pose proof (Z.div_mod n 10 ltac:(lia)) as Hdm.
  assert (∀ count, (count < S fuel)%nat →
    read_number_impl (String (digit_char (n mod 10)) rest) count (n / 10) m u = read_number_impl rest (S count) n m u) as Hc.
  { intros count Hc. cbn [read_number_impl]. rewrite to_digit_char by lia.
    replace (n / 10 * 10 + n mod 10) with n by lia.
    destruct (Nat.ltb_spec m (S count)); [lia|]. destruct (Z.leb_spec u n); [lia|]. done. }
  destruct (Z.eqb_spec (n / 10) 0) as [E|E].
  { exists 0%nat. split; [lia|]. specialize (Hc 0%nat). rewrite E in Hc. apply Hc. lia. }
  destruct fuel as [|fuel']; [simpl in Hn; lia|].
  destruct (IH (n / 10) (String (digit_char (n mod 10)) rest)) as (count & Hlt & ->); [|nia|lia|].
  { split; [apply Z.div_pos; lia|]. apply Z.div_lt_upper_bound; lia. }
  exists (S count). split; [lia|]. apply Hc. lia.
Qed.

Lemma read_fmt m u fuel n rest :
  0 ≤ n < 10 ^ Z.of_nat fuel → n < u → (0 < fuel ≤ m)%nat → stops rest →
  read_number (radix_digits 10 fuel n rest) m u = Some (n, rest).
Proof.
  intros Hn Hu Hf Hs. unfold read_number. destruct (read_printed m u fuel n rest Hn Hu Hf) as (count & _ & ->).
  by apply read_number_stops.
Qed.

Lemma read_ip4_text a b c d rest :
  ma_protocol_ok (Ip4 a b c d) → stops rest →
  read_ipv4_addr (fmt_ip4 a b c d rest) = Some (a, b, c, d, rest).
Proof.
  simpl. intros (Ha & (Hb & (Hc & (Hd & _)%Forall_cons)%Forall_cons)%Forall_cons)%Forall_cons Hs.
  assert (∀ x s, 0 ≤ x < 256 → stops s → read_dot_number (String dot (fmt_u8 x s)) = Some (x, s)) as Hdot.
  { intros x s Hx Hst. unfold read_dot_number. simpl. apply read_fmt; [lia..|done]. }
  unfold read_ipv4_addr, fmt_ip4. unfold fmt_u8 at 1. rewrite read_fmt by (lia || done). simpl.
  rewrite Hdot by done. simpl. rewrite Hdot by done. simpl. by rewrite Hdot by done.
Qed.

Lemma all_digits_printed fuel n rest : all_digits rest → all_digits (radix_digits 10 fuel n rest).
Proof.
  revert n rest. induction fuel as [|fuel IH]; intros n rest Hr; [done|]. cbn [radix_digits].
  assert (all_digits (String (digit_char (n mod 10)) rest)) as Hd.
  { split; [|done]. rewrite to_digit_char; [by eexists|lia|]. apply Z.mod_pos_bound. lia. }
  destruct (_ =? 0); [done|by apply IH].
Qed.

Lemma read_number_digits s count r m u n s' :
  all_digits s → read_number_impl s count r m u = Some (n, s') → s' = EmptyString.
Proof.
  revert count r. induction s as [|c s IH]; simpl; intros count r Hs.
  { destruct count; naive_solver. }
  destruct Hs as [[d ->] Hs]. destruct (_ || _); [done|]. by apply IH.
Qed.

Lemma digits_no_address s : all_digits s → read_ipv4_addr s = None.
Proof.
  intros Hs. unfold read_ipv4_addr. destruct (read_number s 3 256) as [[a s']|] eqn:E; [|done].
  by apply read_number_digits in E as ->.
Qed.

Definition plain (v : list MaProtocol) : list MaProtocol := filter (λ p, p ≠ OtherProtocol) v.

Lemma ipv4_text_plain v : ipv4_text v = ipv4_text (plain v).
Proof.
  unfold plain. induction v as [|p v IH]; [done|]. rewrite filter_cons.
  destruct p; [rewrite decide_True by done..|rewrite decide_False by naive_solver]; simpl; by rewrite <-IH.
Qed.

Lemma plain_ok v : Forall ma_protocol_ok v → Forall ma_protocol_ok (plain v).
Proof. rewrite !Forall_forall. intros Hv p [_ Hp]%list_elem_of_filter. by apply Hv. Qed.

Section dial_props.
Context `{Multiaddrs}.

Lemma ip4_tcp_parses a b c d port mul_addr :
  Forall ma_protocol_ok (ma_iter mul_addr) → plain (ma_iter mul_addr) = [Ip4 a b c d; Tcp port] →
  multiaddr_to_ipv4 mul_addr = Ok (mkSocketAddrV4 (a, b, c, d) port).
Proof.
  intros Hok E. apply plain_ok in Hok. rewrite E in Hok. apply Forall_cons in Hok as [Hip [Hport _]%Forall_cons]. cbn [ma_protocol_ok] in Hport.
  unfold multiaddr_to_ipv4, socket_addr_from_str, read_socket_addr_v4. rewrite ipv4_text_plain, E. cbn [ipv4_text].
  rewrite read_ip4_text by done. simpl. unfold fmt_u16. by rewrite read_fmt by (lia || done).
Qed.

Lemma no_ip4_no_parse mul_addr :
  (∀ a b c d, Ip4 a b c d ∉ ma_iter mul_addr) → multiaddr_to_ipv4 mul_addr = Err mkAddrParseError.
Proof.
  unfold multiaddr_to_ipv4, socket_addr_from_str, read_socket_addr_v4. intros Hno.
  rewrite digits_no_address; [done|]. induction (ma_iter mul_addr) as [|p v IH]; [done|].
  assert (all_digits (ipv4_text v)) as Hv by (apply IH; intros; set_solver).
  destruct p; [destruct (Hno a b c d); by left|by apply all_digits_printed|done].
Qed.

Lemma no_tcp_no_parse mul_addr :
  Forall ma_protocol_ok (ma_iter mul_addr) → (∀ port, Tcp port ∉ ma_iter mul_addr) →
  multiaddr_to_ipv4 mul_addr = Err mkAddrParseError.
Proof.
  intros Hok Hno. unfold multiaddr_to_ipv4, socket_addr_from_str, read_socket_addr_v4. rewrite ipv4_text_plain.
  assert (Forall (λ p, ma_protocol_ok p ∧ ∃ a b c d, p = Ip4 a b c d) (plain (ma_iter mul_addr))) as Hip.
  { apply Forall_forall. intros p [Hp Hin]%list_elem_of_filter. rewrite Forall_forall in Hok.
    split; [by apply Hok|]. destruct p; [by eauto|by destruct (Hno port)|done]. }
  destruct Hip as [|? v [H1 (a & b & c & d & ->)] Hv]; [done|]. cbn [ipv4_text]. rewrite read_ip4_text by done. simpl.
  destruct Hv as [|? v' [H2 (a' & b' & c' & d' & ->)] _]; [done|]. cbn [ipv4_text]. unfold fmt_ip4.
  apply Forall_cons in H2 as [Ha _].
  unfold read_number, fmt_u8 at 1. destruct (read_printed 5 65536 3 a' (String dot (fmt_u8 b' (String dot (fmt_u8 c'
    (String dot (fmt_u8 d' (String colon (ipv4_text v'))))))))) as (count & _ & ->); [lia..|].
  by rewrite read_number_stops.
Qed.

Context {W TC : Type} `{TimedCache TC Hash bool}.
Context `{PeerIds}.

(** C35 What is dialled and what crashes: an address whose components are one
    IPv4 address followed by one TCP port, whatever else it holds, is
    connected to at exactly that address and port, and a connection that
    succeeds becomes an outbound session for the peer that was announced,
    with the genesis hash of the server; one that fails leaves the server as
    it was.  An address without an IPv4 component (IPv6 or DNS), or without a
    TCP port, makes the dial panic, and the start of a server that would
    listen on it. *)
Theorem dial_address (tcp_connect : SocketAddrV4 → option nat) (can_bind : SocketAddrV4 → bool)
    (remote : PeerId) (mul_addr : Multiaddr) (s : TcpServer.t W TC) :
  Forall ma_protocol_ok (ma_iter mul_addr) →
  (∀ a b c d port, plain (ma_iter mul_addr) = [Ip4 a b c d; Tcp port] →
    let sock := mkSocketAddrV4 (a, b, c, d) port in
    tcp_listen can_bind mul_addr = (if can_bind sock then Ret sock else Panic) ∧
    tcp_dial tcp_connect remote mul_addr s =
      match tcp_connect sock with
      | None => Ret (tt, s)
      | Some pid => TcpServer.emit (NewSession (Session.new pid remote (TcpServer.node_id s) OutBound
          (TcpServer.genesis s))) s
      end) ∧
  ((∀ a b c d, Ip4 a b c d ∉ ma_iter mul_addr) ∨ (∀ port, Tcp port ∉ ma_iter mul_addr) →
    tcp_dial tcp_connect remote mul_addr s = Panic ∧ tcp_listen can_bind mul_addr = Panic).
Proof using All.
  intros Hok. unfold tcp_dial, tcp_listen. split.
  - intros a b c d port E. rewrite (ip4_tcp_parses a b c d port) by done. simpl. split; [done|].
    unfold lift, mbind, M_mbind, M_bind. simpl. by destruct (tcp_connect _).
  - intros Hno. assert (multiaddr_to_ipv4 mul_addr = Err mkAddrParseError) as ->; [|done].
    destruct Hno; [by apply no_ip4_no_parse|by apply no_tcp_no_parse].
Qed.
End dial_props.
