(* ===== verification/Events.v ===== *)
(** * Events between the actors ([src/subscriber/], [src/p2p/discover_service.rs])

    The actor [ProcessSignals] that the macro [impl_subscribe_handler!]
    defines for chain events and for peer events, the two actors that put
    events on the broker, and peer discovery.  Two properties follow an event
    through the actors: a block from the chain to the sessions of all peers,
    and a discovered peer from the mDNS packet to the dial. *)

From S2P Require Import Prelude External Types Validators Protocol Wire Store Ledger P2p Middle Net.

(** ** [ProcessSignals] *)

(** A [Recipient], by the address of its actor. *)
Abbreviation Recipient := nat.

Module ProcessSignals.
Section signals.
Context {E : Type}.

Inductive SubscribeMessage : Type :=
| SubScribe (recipient : Recipient)
| UnSubScribe (recipient : Recipient).
Definition new_subscribe (recipient : Recipient) : SubscribeMessage := SubScribe recipient.
Definition new_unsubscribe (recipient : Recipient) : SubscribeMessage := UnSubScribe recipient.

Record t : Type := mk { subscribers : list Recipient }.
Definition new : t := mk [].

(** [Vec::remove_item] removes the first equal item. *)
Fixpoint remove_item (x : Recipient) (l : list Recipient) : list Recipient :=
  match l with
  | [] => []
  | y :: rest => if decide (y = x) then rest else y :: remove_item x rest
  end.

Definition subscribe (recipient : Recipient) (s : t) : t := mk (subscribers s ++ [recipient]).
Definition unsubscribe (recipient : Recipient) (s : t) : t := mk (remove_item recipient (subscribers s)).
Definition handle_subscribe (msg : SubscribeMessage) (s : t) : t :=
  match msg with
  | SubScribe recipient => subscribe recipient s
  | UnSubScribe recipient => unsubscribe recipient s
  end.

(** The messages sent, in order. *)
Definition distribute (msg : E) (s : t) : list (Recipient * E) := (λ r, (r, msg)) <$> subscribers s.
Definition handle (msg : E) (s : t) : list (Recipient * E) := distribute msg s.

(** What reaches [me] of a sequence of events. *)
Definition received (me : Recipient) (evs : list E) (s : t) : list E :=
  snd <$> filter (λ re, re.1 = me) (concat ((λ e, handle e s) <$> evs)).
End signals.
End ProcessSignals.

Definition spawn_sync_subscriber : ProcessSignals.t := ProcessSignals.new.

(** ** Events for the broker *)

Inductive SubscriberType : Type := Async | Sync.
(** [issue_async] and [issue_sync] of [actix_broker]. *)
Inductive Issue (E : Type) : Type := IssueAsync (e : E) | IssueSync (e : E).
Arguments IssueAsync {E} e.
Arguments IssueSync {E} e.

Definition MAX_MAILBOX_CAPACITY : nat := Nat.pow 2 11.

Module ChainEventSubscriber.
Record t : Type := new { subscriber_type : SubscriberType }.
Definition handle (msg : ChainEvent) (s : t) : Issue ChainEvent :=
  match subscriber_type s with Async => IssueAsync msg | Sync => IssueSync msg end.
End ChainEventSubscriber.

Module BroadcastEventSubscriber.
Record t : Type := new { subscriber_type : SubscriberType }.
Definition handle (msg : BroadcastEvent) (s : t) : Issue BroadcastEvent :=
  match subscriber_type s with Async => IssueAsync msg | Sync => IssueSync msg end.
End BroadcastEventSubscriber.

(** ** Discovery *)

Module DiscoverService.
(** What [MdnsService::poll] returns; [fits] says whether the answer to a
    query can be sent. *)
Inductive MdnsPacket : Type :=
| Query (fits : bool)
| Response (discovered_peers : list (PeerId * list Multiaddr))
| ServiceDiscovery.
Inductive Fx : Type :=
| RespondQuery (peer : PeerId) (addresses : list Multiaddr) (ttl : Z)
| RespondService (ttl : Z)
| TrySend (ev : P2PEvent).

Record t : Type := mk { peer_id : PeerId; local_address : Multiaddr; ttl : Z }.

Definition handle_packet (packet : MdnsPacket) (d : t) : outcome (list Fx) :=
  match packet with
  | Query fits => if fits then mret [RespondQuery (peer_id d) [local_address d] (ttl d)] else Panic
  | Response peers =>
      mret ((λ pa, TrySend (AddPeer pa.1 pa.2)) <$> filter (λ pa, pa.1 ≠ peer_id d) peers)
  | ServiceDiscovery => mret [RespondService (ttl d)]
  end.
(** The packets that are ready, until [NotReady]. *)
Fixpoint poll (packets : list MdnsPacket) (d : t) : outcome (list Fx) :=
  match packets with
  | [] => mret []
  | packet :: rest =>
      l ← handle_packet packet d;
      l' ← poll rest d;
      mret (l ++ l')
  end.
Definition sent (l : list Fx) : list P2PEvent := omap (λ f, match f with TrySend ev => Some ev | _ => None end) l.
End DiscoverService.

(** ** Facts about the signals *)

Section signals.
Context {E : Type}.

Lemma received_count (me : Recipient) (e : E) (s : ProcessSignals.t) :
  ProcessSignals.received me [e] s = replicate (length (filter (λ r, r = me) (ProcessSignals.subscribers s))) e.
Proof.
  unfold ProcessSignals.received, ProcessSignals.handle, ProcessSignals.distribute. simpl. rewrite app_nil_r.
  induction (ProcessSignals.subscribers s) as [|r l IH]; [done|]. rewrite fmap_cons, !filter_cons. cbn [fst].
  destruct (decide (r = me)); [|done]. rewrite fmap_cons, IH. done.
Qed.

Lemma received_app (me : Recipient) (l l' : list E) (s : ProcessSignals.t) :
  ProcessSignals.received me (l ++ l') s = ProcessSignals.received me l s ++ ProcessSignals.received me l' s.
Proof. unfold ProcessSignals.received. by rewrite fmap_app, concat_app, filter_app, fmap_app. Qed.

(** A recipient that is subscribed once receives the events as they come. *)
Lemma received_once (me : Recipient) (evs : list E) (s : ProcessSignals.t) :
  filter (λ r, r = me) (ProcessSignals.subscribers s) = [me] → ProcessSignals.received me evs s = evs.
Proof.
  intros H. induction evs as [|e evs IH]; [done|].
  change (e :: evs) with ([e] ++ evs). by rewrite received_app, received_count, H, IH.
Qed.

Lemma remove_item_filter (x me : Recipient) (l : list Recipient) :
  length (filter (λ r, r = me) (ProcessSignals.remove_item x l)) =
    (length (filter (λ r, r = me) l) - if decide (x = me) then 1 else 0)%nat.
Proof.
  induction l as [|y l IH]; simpl; [by case_decide|]. destruct (decide (y = x)) as [->|Hne].
  - rewrite filter_cons. destruct (decide (x = me)); simpl; lia.
  - rewrite !filter_cons. destruct (decide (y = me)) as [->|]; simpl; [|exact IH].
    rewrite IH, decide_False by congruence. lia.
Qed.

(** Subscriptions are counted: an actor receives an event once for every time it
    subscribed, less once for every time it unsubscribed (never below
    zero), whatever the others do, and events arrive in the order they were
    posted. *)
Lemma subscriptions_counted (me x : Recipient) (e : E) (evs : list E) (s : ProcessSignals.t) :
  let n := length (ProcessSignals.received me [e] s) in
  length (ProcessSignals.received me [e] (ProcessSignals.handle_subscribe (ProcessSignals.SubScribe x) s)) =
    (if decide (x = me) then S n else n) ∧
  length (ProcessSignals.received me [e] (ProcessSignals.handle_subscribe (ProcessSignals.UnSubScribe x) s)) =
    (n - if decide (x = me) then 1 else 0)%nat ∧
  ProcessSignals.received me [e] spawn_sync_subscriber = [] ∧
  ProcessSignals.received me (evs ++ [e]) s = ProcessSignals.received me evs s ++ replicate n e.
Proof.
  cbv zeta. rewrite received_app, !received_count, !length_replicate. split_and!; try done.
  - simpl. rewrite filter_app, length_app, filter_cons. destruct (decide (x = me)); simpl; lia.
  - simpl. apply remove_item_filter.
Qed.
End signals.

(** ** Following events through the server *)

Section server.
Context {W TC : Type} `{TimedCacheLaws TC Hash bool}.
Context `{PeerIdsLaws} `{HSL : StorageLaws Handshake.t (λ h, h)} `{CryptoHash RawMessage.t}.
Context `{PeerMapOrderLaws} `{CodecLaws}.
Abbreviation Server := (TcpServer.t W TC).
Implicit Types (s : Server).

Fixpoint handle_all {E : Type} (h : E → M Server unit) (evs : list E) : M Server unit :=
  match evs with
  | [] => mret tt
  | e :: rest => h e;; handle_all h rest
  end.

(** The state with more sent. *)
Definition sent_more (es : list ServerEffect) s : Server :=
  TcpServer.mk (TcpServer.node_id s) (TcpServer.peers s) (TcpServer.genesis s) (TcpServer.cache s)
    (TcpServer.author_fn s) (TcpServer.handles s) (TcpServer.world s) (TcpServer.outbox s ++ es).

Lemma sent_more_nil s : sent_more [] s = s.
Proof. unfold sent_more. rewrite app_nil_r. by destruct s. Qed.

Lemma sent_more_app es es' s : sent_more es' (sent_more es s) = sent_more (es ++ es') s.
Proof. unfold sent_more. simpl. by rewrite app_assoc. Qed.

Lemma emit_all_sent es s : TcpServer.emit_all es s = Ret (tt, sent_more es s).
Proof.
  revert s. induction es as [|e es IH]; intros s; [by rewrite sent_more_nil|].
  cbn [TcpServer.emit_all]. unfold mbind, M_mbind, M_bind, TcpServer.emit, modify.
  change (TcpServer.mk _ _ _ _ _ _ _ _) with (sent_more [e] s). rewrite IH. by rewrite sent_more_app.
Qed.

(** *** A new block *)

Lemma new_block_notifies b s :
  handle_all TcpServer.handle_chain [NewBlock b; NewHeader (Block.header b)] s =
    Ret (tt, sent_more [Notify (BBlocks None [b])] s).
Proof. done. Qed.

Lemma broadcast_blocks_sent now b s :
  TcpServer.handle_broadcast now (BBlocks None [b]) s =
    Ret (tt, sent_more ((λ kv, ToSession (ConnectInfo.pid kv.2) (block_message None (Clk.wall_millis now) [b]))
      <$> pm_iter (TcpServer.peers s)) s).
Proof.
  cbn [TcpServer.handle_broadcast]. unfold TcpServer.broadcast, mbind, M_mbind, M_bind, gets. simpl.
  apply emit_all_sent.
Qed.

(** *** Discovered peers *)

(** The first address of every peer that is not connected. *)
Definition dials s (peers : list (PeerId * list Multiaddr)) : list ServerEffect :=
  omap (λ pa, if TcpServer.connected pa.1 s then None
              else match pa.2 with a :: _ => Some (Dial pa.1 a) | [] => None end) peers.

Lemma add_peers_dials (peers : list (PeerId * list Multiaddr)) s :
  (∀ p addrs, (p, addrs) ∈ peers → addrs ≠ []) →
  handle_all TcpServer.handle_p2p ((λ pa, AddPeer pa.1 pa.2) <$> peers) s = Ret (tt, sent_more (dials s peers) s).
Proof.
  revert s. induction peers as [|[p [|a addrs]] peers IH]; intros s Hp; [by rewrite sent_more_nil| |].
  { destruct (Hp p []); [by left|done]. }
  rewrite fmap_cons. cbn [handle_all TcpServer.handle_p2p fst snd]. unfold TcpServer.add_peer.
  unfold mbind, M_mbind, M_bind, gets. unfold dials. cbn [omap list_omap fst snd].
  assert (∀ p addrs, (p, addrs) ∈ peers → addrs ≠ []) as Hp' by (intros; eapply Hp; by right).
  destruct (TcpServer.connected p s); [by apply IH|].
  simpl. unfold TcpServer.emit, modify, mbind, M_mbind, M_bind, lift. simpl.
  change (TcpServer.mk _ _ _ _ _ _ _ _) with (sent_more [Dial p a] s).
  rewrite IH by done. by rewrite sent_more_app.
Qed.

End server.

(** ** A block on its way to the peers *)

Section spread.
Context {W TC : Type} `{TimedCacheLaws TC Hash bool}.
Context `{PeerIdsLaws} `{HSL : StorageLaws Handshake.t (λ h, h)} `{CryptoHash RawMessage.t}.
Context `{PeerMapOrderLaws}.
Context {DB HC BC : Type} `{DatabaseLaws DB}.
Context `{HCC : LruCache HC Hash Header.t, !LruCacheLaws HC Hash Header.t}.
Context `{BCC : LruCache BC Hash Block.t, !LruCacheLaws BC Hash Block.t}.
Context `{CryptoKit} `{CodecLaws} `{Chrono}.
Context (tx_hash_inj : ∀ tx tx' h,
  Transaction.crypto_hash tx = Ret h → Transaction.crypto_hash tx' = Ret h →
  Transaction.wire tx = Transaction.wire tx').
Implicit Types (s : TcpServer.t W TC) (c : Chain.t DB HC BC).

(** C20 A block that a chain accepts reaches every peer: [insert_block] of the next
    block posts events that bring the subscribed server to send one [Block]
    message to the session of each connected peer, and a peer whose chain is
    the same handles that message by appending the block as it was
    serialised. *)
Theorem new_block_reaches_peers (now : Clk.t) (c cr : Chain.t DB HC BC) (bs : list Block.t) (b : Block.t)
    (sig : ProcessSignals.t) (me : Recipient) (s : TcpServer.t W TC) (from : PeerId) :
  ledger_rep (Chain.ledger c) bs → ledger_rep (Chain.ledger cr) bs → bs ≠ [] →
  Chain.sync_limiter c ≤ Clk.instant (Chain.clk c) → appendable bs b →
  filter (λ r, r = me) (ProcessSignals.subscribers sig) = [me] →
  let msg := block_message None (Clk.wall_millis now) [b] in
  ∃ c' evs sends cr', Chain.insert_block b c = Ret (Ok tt, c') ∧ Chain.events c' = Chain.events c ++ evs ∧
    handle_all TcpServer.handle_chain (ProcessSignals.received me evs sig) s =
      Ret (tt, sent_more [Notify (BBlocks None [b])] s) ∧
    TcpServer.handle_broadcast now (BBlocks None [b]) s = Ret (tt, sent_more sends s) ∧
    sends ≡ₚ (λ kv, ToSession (ConnectInfo.pid kv.2) msg) <$> map_to_list (TcpServer.peers s) ∧
    handle_msg_middle from msg cr = Ret (None, cr') ∧
    ledger_rep (Chain.ledger cr') (bs ++ [Block.wire b]).
Proof using All.
  intros Hr Hrr Hne Hlim Hap Hme msg.
  pose proof (app_height _ _ Hap) as Hh. pose proof (app_room _ _ Hap) as Hroom.
  destruct (wp_total _ _ _ (insert_block_spec tx_hash_inj c bs b Hr Hne ltac:(lia) Hlim
    ltac:(unfold is_u64; lia) (λ _, Hap))) as (r & c' & E & Hpost).
  rewrite Hh, Z.ltb_irrefl in Hpost. destruct Hpost as (-> & _ & Hev).
  destruct (wp_total _ _ _ (insert_blocks_spec tx_hash_inj cr bs [Block.wire b] Hrr Hne
    (conj (appendable_wire _ _ Hap) I))) as ([] & cr' & Ec & Hg & _).
  eexists c', _, _, cr'. split_and!; [done|exact Hev| |apply broadcast_blocks_sent| | |exact Hg].
  - by rewrite received_once.
  - by rewrite pm_iter_perm.
  - unfold handle_msg_middle. cbn [RawHeader.code RawMessage.header RawMessage.payload msg block_message].
    unfold mbind, M_mbind, M_bind, lift. rewrite from_into. cbn [unwrap fmap list_fmap]. by rewrite Ec.
Qed.
End spread.
