(* ===== verification/Minner.v ===== *)
(** * The miner ([src/minner/mod.rs])

    The actor that packs the next block on top of the last one and hands it
    to the consensus engine, again whenever the chain has grown. *)

From S2P Require Import Prelude External Types Validators Protocol Wire Store Ledger Backend Core CoreProps CoreSafety CoreLive Liveness Rounds Heights.

Module Minner.
Section minner.
Context {DB HC BC LC : Type}.
Context `{Database DB, LruCache HC Hash Header.t, LruCache BC Hash Block.t, LruCache LC Hash unit}.
Context `{CryptoKit, Codec, Chrono, BigInt}.

(** [engine] is the node's clone of the backend; its chain is the
    [Arc<Chain>] the miner holds too.  [seal_chan] is the number of tokens in
    the [bounded(1)] abort channel. *)
Record t : Type := mk {
  minter : Address; key_pair : Secret; engine : ImplBackend.t DB HC BC LC; seal_chan : nat;
  mint_height : Height }.

(** What one block draws from the random generator and the clock. *)
Record draws : Type := Draws { nonce : Z; amount : Z; gas_limit : Z; payload : bytes; now : Z }.

Definition new (minter : Address) (key_pair : Secret) (engine : ImplBackend.t DB HC BC LC) : t :=
  mk minter key_pair engine 0 0.
Definition chain (m : t) : Chain.t DB HC BC := ImplBackend.chain (engine m).
Definition set_engine (e : ImplBackend.t DB HC BC LC) (m : t) : t :=
  mk (minter m) (key_pair m) e (seal_chan m) (mint_height m).
Definition set_mint_height (h : Height) (m : t) : t :=
  mk (minter m) (key_pair m) (engine m) (seal_chan m) h.
Definition set_seal_chan (n : nat) (m : t) : t :=
  mk (minter m) (key_pair m) (engine m) n (mint_height m).
Definition on_engine {A : Type} (e : M (ImplBackend.t DB HC BC LC) A) : M t A :=
  λ m, match e (engine m) with Ret (a, b) => Ret (a, set_engine b m) | Panic => Panic end.

Definition merkle_root_transactions (txs : list Transaction.t) : outcome Hash := merkle_tree_root txs.

Definition next_block (d : draws) (m : t) : outcome (Z * Header.t) :=
  let pre_header := Block.header (Chain.get_last_block (chain m)) in
  next_timestamp ← u64_add (Header.time pre_header)
    (ChainConfig.block_period (Chain.config (chain m)) / 1000);
  let now_timestamp := now d mod u64_bound in
  if next_timestamp <? now_timestamp then mret (now_timestamp, pre_header)
  else mret (next_timestamp, pre_header).

Definition coinbase_transaction (d : draws) (m : t) : outcome Transaction.t :=
  let transaction := Transaction.new (nonce d) (minter m) (amount d) (gas_limit d) 1 (payload d) in
  Transaction.sign (ChainConfig.chain_id (Chain.config (chain m))) (key_pair m) transaction.

Definition packet_next_block (d : draws) (m : t) : outcome Block.t :=
  np ← next_block d m;
  let '(next_time, pre_header) := np in
  coinbase ← coinbase_transaction d m;
  let pre_hash := Header.block_hash pre_header in
  tx_hash ← merkle_root_transactions [coinbase];
  let extra := as_bytes "Coinse base" in
  height ← u64_add (Header.height pre_header) 1;
  let header := Header.new_mock pre_hash (minter m) tx_hash height next_time (Some extra) in
  mret (Block.new (Header.cache_hash None header) [coinbase]).

(** The result of [seal] is logged. *)
Definition mine (d : draws) : M t unit :=
  m ← gets (λ m, m);
  block ← lift (packet_next_block d m);
  modify (set_mint_height (Block.height block));;
  _ ← on_engine (ImplBackend.seal block);
  mret tt.

Definition started (d : draws) : M t unit :=
  last ← gets (λ m, Chain.get_last_height (chain m));
  next ← lift (u64_add last 1);
  on_engine (ImplBackend.on_chain (Chain.post_event (SyncBlock next)));;
  mine d.

(** A sealing task's [abort.try_recv()]. *)
Definition abort_taken : M t bool :=
  n ← gets seal_chan;
  modify (set_seal_chan (pred n));;
  mret (0 <? n)%nat.

(** [seal_tx.send(())] on a full channel waits until a sealing task has taken
    the token in it, so one token is there afterwards in either case. *)
Definition handle (d : draws) (event : ChainEvent) : M t unit :=
  match event with
  | NewHeader last_header =>
      m ← gets (λ m, m);
      when (mint_height m <=? Header.height last_header)
        (modify (set_seal_chan 1);; mine d)
  | _ => mret tt
  end.
End minner.
Arguments t : clear implicits.
End Minner.

Section minner_props.
Context {DB HC BC LC : Type} `{DatabaseLaws DB}.
Context `{HCC : LruCache HC Hash Header.t, !LruCacheLaws HC Hash Header.t}.
Context `{BCC : LruCache BC Hash Block.t, !LruCacheLaws BC Hash Block.t}.
Context `{LCC : LruCache LC Hash unit, !LruCacheLaws LC Hash unit}.
Context `{CryptoKitLaws} `{CodecLaws} `{Chrono} `{BigInt}.
Abbreviation Node := (ImplBackend.t DB HC BC LC).
Implicit Types (m : Minner.t DB HC BC LC) (b : Node) (bs : list Block.t).

(** Signing and Merkle roots succeed. *)
Context (sign_bytes_total : ∀ sk data, is_Some (sign_bytes sk data)).
Context (merkle_total : ∀ l, is_Some (merkle_root l)).

Lemma last_block_equiv (l : Ledger.t DB HC BC) bs :
  ledger_rep l bs → bs ≠ [] →
  ∃ parent, bs !! pred (length bs) = Some parent ∧
    header_equiv (Block.header (Ledger.get_last_block l)) (Block.header parent) ∧
    Block.height parent = Z.of_nat (length bs) - 1.
Proof.
  intros [Hr Hm] Hne. unfold meta_rep in Hm. destruct (last bs) as [parent|] eqn:El; [|by apply last_None in El].
  destruct Hm as (_ & _ & _ & Hq). exists parent. rewrite last_lookup in El. split_and!; [done|by apply block_header_equiv|].
  rewrite (rep_heights _ _ Hr _ _ El). apply lookup_lt_Some in El. lia.
Qed.

Lemma coinbase_spec d m :
  ∃ tx, Minner.coinbase_transaction d m = Ret tx ∧ Transaction.recipient tx = Some (Minner.minter m) ∧
    ∀ cid, Transaction.verify_sign cid tx = Ret true.
Proof using All.
  destruct (Minner.coinbase_transaction d m) as [tx|] eqn:E; cycle 1.
  { unfold Minner.coinbase_transaction, Transaction.sign in E. simpl in E.
    edestruct sign_bytes_total as [sg Hs]. rewrite Hs in E. done. }
  exists tx. split; [done|]. unfold Minner.coinbase_transaction in E. split.
  - destruct (signed_verifies _ 0 _ _ _ E) as (s & -> & _). done.
  - intros cid. by destruct (signed_verifies _ cid _ _ _ E) as (s & _ & ?).
Qed.

Lemma packet_next_block_spec d m bs :
  ledger_rep (Chain.ledger (Minner.chain m)) bs → bs ≠ [] → Z.of_nat (length bs) < u64_bound →
  let period := ChainConfig.block_period (Chain.config (Minner.chain m)) / 1000 in
  (∀ q, q ∈ bs → Header.time (Block.header q) + period < u64_bound) →
  ∃ tx root blk, Minner.packet_next_block d m = Ret blk ∧
    Block.transactions blk = [tx] ∧ Transaction.recipient tx = Some (Minner.minter m) ∧
    (∀ cid, Transaction.verify_sign cid tx = Ret true) ∧
    merkle_tree_root [tx] = Ret root ∧ Header.tx_hash (Block.header blk) = root ∧
    Block.height blk = Z.of_nat (length bs) ∧ extends bs period (Block.header blk) ∧
    Header_coherent (Block.header blk).
Proof using All.
  intros Hr Hne Hu period Hp.
  destruct (last_block_equiv _ _ Hr Hne) as (parent & Epar & [Hw Hh] & Ehp).
  pose proof (lookup_lt_Some _ _ _ Epar) as Hlen.
  set (pre := Block.header (Ledger.get_last_block (Chain.ledger (Minner.chain m)))) in *.
  assert (Header.time pre = Header.time (Block.header parent)) as Et by (by apply (f_equal Header.time) in Hw).
  assert (Header.height pre = Block.height parent) as Eh by (by apply (f_equal Header.height) in Hw).
  destruct (coinbase_spec d m) as (tx & Etx & Erec & Ever).
  destruct (merkle_total (into_bytes <$> [tx])) as [root Eroot].
  assert (Header.time pre + period < u64_bound) as Hlt.
  { rewrite Et. apply Hp. by eapply list_elem_of_lookup_2. }
  assert (∃ tm, Minner.next_block d m = Ret (tm, pre) ∧ Header.time pre + period ≤ tm) as (tm & Enext & Htm).
  { unfold Minner.next_block. fold pre period.
    change (Block.header (Chain.get_last_block (Minner.chain m))) with pre.
    rewrite u64_add_fits by done. simpl.
    destruct (Z.ltb_spec (Header.time pre + period) (Minner.now d mod u64_bound)); eexists; (split; [done|lia]). }
  exists tx, root. unfold Minner.packet_next_block. rewrite Enext. simpl. rewrite Etx. simpl.
  unfold Minner.merkle_root_transactions, merkle_tree_root. rewrite Eroot. simpl.
  rewrite u64_add_fits by lia. simpl. eexists. split; [done|]. unfold Block.height, extends. simpl.
  split_and!; [done|done|done|done|done|lia|lia| |by apply coherent_cache_hash, coherent_new].
  exists parent. replace (Z.to_nat (Header.height pre + 1 - 1)) with (pred (length bs)) by lia.
  split_and!; [done|exact Hh|lia].
Qed.

Lemma minted_buildable cfg bs blk tx root :
  bs ≠ [] → (∀ q, q ∈ bs → Header.time (Block.header q) + Config.block_period cfg < u64_bound) →
  Block.transactions blk = [tx] → is_Some (Transaction.recipient tx) →
  (∀ cid, Transaction.verify_sign cid tx = Ret true) →
  merkle_tree_root [tx] = Ret root → Header.tx_hash (Block.header blk) = root →
  Block.height blk = Z.of_nat (length bs) → extends bs (Config.block_period cfg) (Block.header blk) →
  Header_coherent (Block.header blk) → Block.hash blk ≠ EMPTY_HASH → Block.hash blk ∉ Block.hash <$> bs →
  Z.of_nat (length bs) + 1 < u64_bound →
  timestamp_in_range (as_i64 (Header.time (Block.header blk))) = true →
  buildable cfg (unsealed <$> bs) (Proposal.new blk).
Proof using All.
  intros Hne Hp Etx Hrec Hver Hroot Eroot Hh Hext Hco Hempty Hfresh Hroom Htime. split; simpl; try done.
  - by destruct bs.
  - intros ? [q [-> Hq]]%list_elem_of_fmap. by apply (Hp q).
  - rewrite Etx. repeat constructor; done.
  - by rewrite Etx, Eroot.
  - by apply extends_unsealed.
  - split; rewrite ?length_fmap, ?unsealed_hashes; try done; [by rewrite Hh|].
    rewrite Etx. repeat constructor. apply tx_complete_hash. pose proof (verify_sign_cases 0 tx) as Hv.
    rewrite Hver in Hv. by apply Hv.
Qed.

(** C23 The block a miner packs is a valid proposal: it has the next height, and
    every node that holds the same chain and uses the same block period
    accepts it in [verify], whatever the random draws and the clock of the
    miner.  If its hash is new and its time can be shown, it is a block the
    chain can be extended by in the form in which it arrives at the other
    validators, as a decided height needs it. *)
Theorem minted_block_verifies (d : Minner.draws) (m : Minner.t DB HC BC LC) (b : Node)
    (bs : list Block.t) :
  ledger_rep (Chain.ledger (Minner.chain m)) bs → chain_holds b bs → bs ≠ [] →
  Z.of_nat (length bs) < u64_bound →
  Config.block_period (ImplBackend.config b) =
    ChainConfig.block_period (Chain.config (Minner.chain m)) / 1000 →
  (∀ q, q ∈ bs → Header.time (Block.header q) + Config.block_period (ImplBackend.config b) < u64_bound) →
  ∃ blk b', Minner.packet_next_block d m = Ret blk ∧ Block.height blk = Z.of_nat (length bs) ∧
    ImplBackend.verify (Proposal.new blk) b = Ret ((0, Ok tt), b') ∧ chain_holds b' bs ∧
    (Block.hash blk ∉ EMPTY_HASH :: (Block.hash <$> bs) → Z.of_nat (length bs) + 1 < u64_bound →
      timestamp_in_range (as_i64 (Header.time (Block.header blk))) = true →
      buildable (ImplBackend.config b) (unsealed <$> bs) (Proposal.wire (Proposal.new blk))).
Proof using All.
  intros Hr Hb Hne Hu Eper Hp.
  destruct (packet_next_block_spec d m bs Hr Hne Hu) as (tx & root & blk & E & Etxs & Erec & Ever & Eroot & Eh & Hh & Hext & Hco).
  { by rewrite <-Eper. }
  rewrite <-Eper in Hext.
  assert (is_u64 (Block.height blk)) as Hblk by (rewrite Hh; unfold is_u64; lia).
  assert (Forall (λ tx, is_Some (Transaction.recipient tx)) (Block.transactions blk)) as Hrec.
  { rewrite Etxs. repeat constructor. by rewrite Erec. }
  assert (merkle_tree_root (Block.transactions blk) = Ret root) as Hroot by by rewrite Etxs.
  destruct (wp_total _ _ _ (verify_spec (Proposal.new blk) root b bs Hb Hblk Hp Hrec Hroot))
    as ([dur r] & b' & Ev & Hd & Hb' & _ & Hok).
  simpl in *. subst dur. exists blk, b'. assert (r = Ok tt) as ->.
  { apply Hok. rewrite Etxs. split_and!; [by repeat constructor|done|done]. }
  split_and!; [done..|]. intros [Hempty Hfresh]%not_elem_of_cons Hroom Htime. apply buildable_wire.
  apply (minted_buildable (ImplBackend.config b) bs blk tx root); try done.
Qed.
End minner_props.
