(* ===== verification/Kad.v ===== *)
(** * The Kademlia node table ([src/p2p/p2p/src/kad/])

    The identifiers of [base.rs] as a class with its two instances, the
    k-buckets and the node table of [knodetable.rs]. *)

From S2P Require Import Prelude External.

(** ** Identifiers *)

(** [id_leb] is the derived [Ord]; [gen] takes the random generator's answer
    as an argument and is not needed here. *)
Class GenericId (T : Type) : Type := {
  id_eq_dec :: EqDecision T;
  bitxor : T → T → T;
  is_zero : T → bool;
  bits : T → nat;
  id_leb : T → T → bool
}.
Class GenericIdLaws (T : Type) `{GenericId T} : Prop := {
  id_leb_total : ∀ x y, id_leb x y = true ∨ id_leb y x = true;
  id_leb_trans : ∀ x y z, id_leb x y = true → id_leb y z = true → id_leb x z = true
}.

(** [64 - leading_zeros] of a [u64]. *)
Definition u64_bits (x : Z) : nat := if x =? 0 then O else S (Z.to_nat (Z.log2 x)).

#[global] Instance u64_id : GenericId Z := {
  bitxor := Z.lxor; is_zero x := x =? 0; bits := u64_bits; id_leb := Z.leb }.
#[global] Instance u64_id_laws : GenericIdLaws Z.
Proof. split; intros *; simpl; rewrite !Z.leb_le; lia. Qed.

(** Bytes, the first one the most significant; the vectors are compared
    lexicographically. *)
Definition u8_leading_zeros (d : Z) : nat := (8 - u64_bits d)%nat.
Fixpoint vec_bits (v : bytes) : nat :=
  match v with
  | [] => O
  | d :: v' => if d =? 0 then vec_bits v' else (8 * length v - u8_leading_zeros d)%nat
  end.
Fixpoint vec_leb (a b : bytes) : bool :=
  match a, b with
  | [], _ => true
  | _ :: _, [] => false
  | x :: a', y :: b' => if x =? y then vec_leb a' b' else x <? y
  end.
Lemma vec_leb_total a b : vec_leb a b = true ∨ vec_leb b a = true.
Proof.
  revert b. induction a as [|x a IH]; intros [|y b]; simpl; auto.
  destruct (Z.eqb_spec x y), (Z.eqb_spec y x); try lia. apply IH.
Qed.
Lemma vec_leb_trans a b c : vec_leb a b = true → vec_leb b c = true → vec_leb a c = true.
Proof.
  revert b c. induction a as [|x a IH]; intros [|y b] [|z c]; simpl; try done.
  destruct (Z.eqb_spec x y), (Z.eqb_spec y z), (Z.eqb_spec x z); try lia; rewrite ?Z.ltb_lt; try lia.
  - apply IH.
Qed.
#[global] Instance vec_id : GenericId bytes := {
  bitxor a b := zip_with Z.lxor a b; is_zero v := forallb (λ d, d =? 0) v; bits := vec_bits;
  id_leb := vec_leb }.
#[global] Instance vec_id_laws : GenericIdLaws bytes.
Proof. split; [exact vec_leb_total|exact vec_leb_trans]. Qed.

Module Node.
Record t (I A : Type) : Type := mk { address : A; id : I }.
Arguments mk {I A} address id.
Arguments address {I A} _.
Arguments id {I A} _.
Definition new {I A : Type} (id : I) (address : A) : t I A := mk address id.
End Node.

Definition distance {I : Type} `{GenericId I} (id1 id2 : I) : I := bitxor id1 id2.

(** [sort_by_key] by the distance to [id], then the first [count]. *)
Definition closest {I A : Type} `{GenericId I} (id : I) (count : nat) (l : list (Node.t I A)) :
    list (Node.t I A) :=
  let data_copy := sort_by_key (λ n, distance id (Node.id n)) id_leb l in
  take (Nat.min count (length data_copy)) data_copy.

(** ** Buckets: the oldest node first *)

Module KBucket.
Section bucket.
Context {I A : Type} `{GenericId I}.
Record t : Type := mk { data : list (Node.t I A); size : nat }.

Definition new (k : nat) : outcome t := if (0 <? k)%nat then mret (mk [] k) else Panic.
Definition update_position (node : Node.t I A) (b : t) : t :=
  mk (filter (λ x, Node.id x ≠ Node.id node) (data b) ++ [node]) (size b).
Definition update (node : Node.t I A) (b : t) : bool * t :=
  if existsb (λ x, bool_decide (Node.id x = Node.id node)) (data b) then (true, update_position node b)
  else if (length (data b) =? size b)%nat then (false, b)
  else (true, mk (data b ++ [node]) (size b)).
Definition find (id : I) (count : nat) (b : t) : list (Node.t I A) := closest id count (data b).
End bucket.
Arguments t : clear implicits.
End KBucket.

(** ** The table *)

Definition BUCKET_SIZE : nat := 32.
Definition DEFAULT_HASH_SIZE : nat := 64.

Module KNodeTable.
Section table.
Context {I A : Type} `{GenericId I}.
Record t : Type := mk { this_id : I; hash_size : nat; buckets : list (KBucket.t I A) }.

Definition new_with_details (this_id : I) (bucket_size hash_size : nat) : outcome t :=
  bs ← mapM (λ _, KBucket.new bucket_size) (seq 0 hash_size);
  mret (mk this_id hash_size bs).
Definition new (this_id : I) : outcome t := new_with_details this_id BUCKET_SIZE DEFAULT_HASH_SIZE.

Definition bucket_number (id : I) (tb : t) : outcome nat :=
  let diff := distance (this_id tb) id in
  if is_zero diff then Panic
  else
    let res := (bits diff - 1)%nat in
    if (hash_size tb <=? res)%nat then Panic else mret res.

Definition update (node : Node.t I A) (tb : t) : outcome (bool * t) :=
  if decide (Node.id node = this_id tb) then Panic
  else
    bucket ← bucket_number (Node.id node) tb;
    b ← unwrap (buckets tb !! bucket);
    let '(r, b') := KBucket.update node b in
    mret (r, mk (this_id tb) (hash_size tb) (<[bucket := b']> (buckets tb))).

Definition find (id : I) (count : nat) (tb : t) : outcome (list (Node.t I A)) :=
  if (count =? 0)%nat then Panic
  else if decide (id = this_id tb) then Panic
  else mret (closest id count (concat (KBucket.data <$> buckets tb))).

(** The front of every full bucket. *)
Definition pop_bucket (b : KBucket.t I A) : list (Node.t I A) * KBucket.t I A :=
  match KBucket.data b with
  | x :: rest => if (KBucket.size b =? length (KBucket.data b))%nat
                 then ([x], KBucket.mk rest (KBucket.size b)) else ([], b)
  | [] => ([], b)
  end.
Definition pop_oldest (tb : t) : list (Node.t I A) * t :=
  let popped := pop_bucket <$> buckets tb in
  (concat popped.*1, mk (this_id tb) (hash_size tb) popped.*2).
End table.
Arguments t : clear implicits.
End KNodeTable.

(** ** Invariant *)

Section kad.
Context {I A : Type} `{GenericIdLaws I}.
Implicit Types (tb : KNodeTable.t I A) (b : KBucket.t I A) (n : Node.t I A).

Record bucket_wf (tb : KNodeTable.t I A) (i : nat) (b : KBucket.t I A) : Prop := {
  wf_size : (0 < KBucket.size b)%nat;
  wf_length : (length (KBucket.data b) ≤ KBucket.size b)%nat;
  wf_ids : NoDup (Node.id <$> KBucket.data b);
  wf_place : ∀ n, n ∈ KBucket.data b →
    Node.id n ≠ KNodeTable.this_id tb ∧ KNodeTable.bucket_number (Node.id n) tb = Ret i
}.
Definition table_wf (tb : KNodeTable.t I A) : Prop :=
  length (KNodeTable.buckets tb) = KNodeTable.hash_size tb ∧
  ∀ i b, KNodeTable.buckets tb !! i = Some b → bucket_wf tb i b.

Definition nodes (tb : KNodeTable.t I A) : list (Node.t I A) :=
  concat (KBucket.data <$> KNodeTable.buckets tb).

Lemma existsb_id n b :
  existsb (λ x, bool_decide (Node.id x = Node.id n)) (KBucket.data b) = true ↔
  Node.id n ∈ Node.id <$> KBucket.data b.
Proof.
  rewrite existsb_exists, list_elem_of_fmap. split.
  - intros (x & Hx%list_elem_of_In & E%bool_decide_eq_true). eauto.
  - intros (x & E & Hx%list_elem_of_In). exists x. by rewrite bool_decide_true.
Qed.

Lemma filter_ids n (l : list (Node.t I A)) :
  NoDup (Node.id <$> l) →
  NoDup (Node.id <$> (filter (λ x, Node.id x ≠ Node.id n) l ++ [n])) ∧
  (Node.id n ∈ Node.id <$> l →
    length (filter (λ x, Node.id x ≠ Node.id n) l ++ [n]) = length l).
Proof.
  intros Hd. split.
  - rewrite fmap_app, NoDup_app. split_and!; [| |apply NoDup_singleton].
    2: { intros y (x & -> & [Hx _]%list_elem_of_filter)%list_elem_of_fmap E%list_elem_of_singleton. done. }
    induction l as [|x l IH]; [constructor|]. apply NoDup_cons in Hd as [Hx Hd].
    rewrite filter_cons. case_decide; [|by apply IH]. simpl. constructor; [|by apply IH].
    intros (y & E & [_ Hy]%list_elem_of_filter)%list_elem_of_fmap. apply Hx. rewrite E.
    by apply list_elem_of_fmap_2.
  - rewrite length_app. simpl. induction l as [|x l IH]; [by intros ?%not_elem_of_nil|].
    apply NoDup_cons in Hd as [Hx Hd]. rewrite filter_cons. intros Hin. case_decide as E.
    + apply elem_of_cons in Hin as [|Hin]; [congruence|]. simpl. rewrite <-IH by done. lia.
    + rewrite filter_all; [simpl; lia|]. apply Forall_forall. intros y Hy Ey. apply Hx.
      rewrite E, <-Ey. by apply list_elem_of_fmap_2.
Qed.

(** The ids the table has a bucket for. *)
Definition fits (id : I) tb : Prop := ∃ k, KNodeTable.bucket_number id tb = Ret k.

Lemma bucket_update_wf tb i b n :
  bucket_wf tb i b → Node.id n ≠ KNodeTable.this_id tb →
  KNodeTable.bucket_number (Node.id n) tb = Ret i →
  bucket_wf tb i (KBucket.update n b).2.
Proof.
  intros Hb Hn Hi. unfold KBucket.update. destruct (existsb _ _) eqn:E.
  - apply existsb_id in E. destruct (filter_ids n _ (wf_ids _ _ _ Hb)) as [Hd Hl]. split; simpl.
    + apply Hb.
    + rewrite Hl by done. apply Hb.
    + done.
    + intros x [[_ Hx]%list_elem_of_filter|Hx]%elem_of_app; [by apply Hb|].
      apply list_elem_of_singleton in Hx as ->. done.
  - apply not_true_iff_false in E. rewrite existsb_id in E.
    destruct (Nat.eqb_spec (length (KBucket.data b)) (KBucket.size b)) as [|Hne]; [done|].
    pose proof (wf_length _ _ _ Hb). split; simpl.
    + apply Hb.
    + rewrite length_app. simpl. lia.
    + rewrite fmap_app, NoDup_app. split_and!; [apply Hb| |apply NoDup_singleton].
      intros y Hy ->%list_elem_of_singleton. done.
    + intros x [Hx|Hx]%elem_of_app; [by apply Hb|]. apply list_elem_of_singleton in Hx as ->. done.
Qed.

Lemma bucket_wf_eq tb tb' i b :
  KNodeTable.this_id tb' = KNodeTable.this_id tb → KNodeTable.hash_size tb' = KNodeTable.hash_size tb →
  bucket_wf tb i b → bucket_wf tb' i b.
Proof.
  intros Et Eh []. split; [done..|]. unfold KNodeTable.bucket_number. rewrite Et, Eh. done.
Qed.

Lemma pop_bucket_wf tb i b : bucket_wf tb i b → bucket_wf tb i (KNodeTable.pop_bucket b).2.
Proof.
  intros Hb. unfold KNodeTable.pop_bucket. destruct (KBucket.data b) as [|x rest] eqn:E; [done|].
  destruct (_ =? _)%nat; [|done]. destruct Hb as [Hs Hl Hd Hp]. rewrite E in *. simpl in *.
  apply NoDup_cons in Hd as [_ Hd]. split; simpl; [done|lia|done|]. intros n Hn. apply Hp. by right.
Qed.

Lemma elem_of_concat {B : Type} (x : B) (ls : list (list B)) :
  x ∈ concat ls ↔ ∃ l, x ∈ l ∧ l ∈ ls.
Proof.
  rewrite list_elem_of_In, in_concat. setoid_rewrite list_elem_of_In. naive_solver.
Qed.

(** What is in the table, bucket by bucket. *)
Lemma nodes_elem tb n :
  n ∈ nodes tb ↔ ∃ i b, KNodeTable.buckets tb !! i = Some b ∧ n ∈ KBucket.data b.
Proof.
  unfold nodes. rewrite elem_of_concat. split.
  - intros (l & Hn & (b & -> & [i Hi]%list_elem_of_lookup)%list_elem_of_fmap). eauto.
  - intros (i & b & Hi & Hn). exists (KBucket.data b). split; [done|].
    apply list_elem_of_fmap_2. by eapply list_elem_of_lookup_2.
Qed.

Lemma update_shape tb n i :
  table_wf tb → Node.id n ≠ KNodeTable.this_id tb → KNodeTable.bucket_number (Node.id n) tb = Ret i →
  ∃ b, KNodeTable.buckets tb !! i = Some b ∧ bucket_wf tb i b ∧
    KNodeTable.update n tb = Ret ((KBucket.update n b).1,
      KNodeTable.mk (KNodeTable.this_id tb) (KNodeTable.hash_size tb)
        (<[i := (KBucket.update n b).2]> (KNodeTable.buckets tb))).
Proof.
  intros [Hlen Hb] Hn Hi.
  assert (i < length (KNodeTable.buckets tb))%nat as Hlt.
  { rewrite Hlen. unfold KNodeTable.bucket_number in Hi. destruct (is_zero _); [done|].
    destruct (Nat.leb_spec (KNodeTable.hash_size tb) (bits (distance (KNodeTable.this_id tb) (Node.id n)) - 1));
      [done|]. by injection Hi as <-. }
  destruct (lookup_lt_is_Some_2 _ _ Hlt) as [b Eb]. exists b. split_and!; [done|by apply Hb|].
  unfold KNodeTable.update. rewrite decide_False by done. rewrite Hi. simpl. rewrite Eb. simpl.
  by destruct (KBucket.update n b).
Qed.

(** What [update] of a node does, by its answer. *)
Record updated n (i : nat) tb (r : bool) tb' : Prop := {
  up_wf : table_wf tb';
  (** stored: in the place of a node with its id, if there was one *)
  up_known : r = true → ∀ x, x ∈ nodes tb' ↔ x = n ∨ (x ∈ nodes tb ∧ Node.id x ≠ Node.id n);
  up_newest : r = true → ∃ b, KNodeTable.buckets tb' !! i = Some b ∧ last (KBucket.data b) = Some n;
  (** refused: the bucket is full of other nodes *)
  up_refused : r = false → tb' = tb ∧ ∃ b, KNodeTable.buckets tb !! i = Some b ∧
    length (KBucket.data b) = KBucket.size b ∧ Node.id n ∉ Node.id <$> KBucket.data b
}.

Lemma bucket_update_elem n b :
  if (KBucket.update n b).1
  then last (KBucket.data (KBucket.update n b).2) = Some n ∧
    ∀ x, x ∈ KBucket.data (KBucket.update n b).2 ↔ x = n ∨ (x ∈ KBucket.data b ∧ Node.id x ≠ Node.id n)
  else (KBucket.update n b).2 = b ∧ length (KBucket.data b) = KBucket.size b ∧
    Node.id n ∉ Node.id <$> KBucket.data b.
Proof.
  unfold KBucket.update. destruct (existsb _ _) eqn:Ex; simpl.
  - split; [apply last_snoc|]. intros x. rewrite elem_of_app, list_elem_of_filter, list_elem_of_singleton. naive_solver.
  - apply not_true_iff_false in Ex. rewrite existsb_id in Ex.
    destruct (Nat.eqb_spec (length (KBucket.data b)) (KBucket.size b)); simpl; [done|].
    split; [apply last_snoc|]. intros x. rewrite elem_of_app, list_elem_of_singleton.
    split; [|naive_solver]. intros [Hx|]; [right|by left]. split; [done|]. intros E. apply Ex. rewrite <-E.
    by apply list_elem_of_fmap_2.
Qed.

Lemma kad_update_spec tb n i :
  table_wf tb → Node.id n ≠ KNodeTable.this_id tb → KNodeTable.bucket_number (Node.id n) tb = Ret i →
  ∃ r tb', KNodeTable.update n tb = Ret (r, tb') ∧ updated n i tb r tb'.
Proof.
  intros Hwf Hn Hi. destruct (update_shape tb n i Hwf Hn Hi) as (b & Eb & Hb & E).
  pose proof (lookup_lt_Some _ _ _ Eb) as Hlt. destruct Hwf as [Hlen Hwf].
  pose proof (bucket_update_elem n b) as Hu.
  eexists _, _. split; [exact E|]. set (tb' := KNodeTable.mk _ _ _).
  assert (KNodeTable.buckets tb' !! i = Some (KBucket.update n b).2) as Ei by (by apply list_lookup_insert_eq).
  assert (∀ j, j ≠ i → KNodeTable.buckets tb' !! j = KNodeTable.buckets tb !! j) as Ej
    by (intros j Hj; by apply list_lookup_insert_ne).
  split.
  - split; [simpl; by rewrite length_insert|]. intros j b' Hj. apply (bucket_wf_eq tb); [done|done|].
    apply list_lookup_insert_Some in Hj as [(<- & <- & _)|[_ Hj]]; [|by apply Hwf].
    by apply bucket_update_wf.
  - intros Hr. rewrite Hr in Hu. destruct Hu as [_ Hu]. intros x. rewrite !nodes_elem. split.
    + intros (j & bj & Hj & Hx). destruct (decide (j = i)) as [->|Hji].
      * rewrite Ei in Hj. injection Hj as <-. apply Hu in Hx as [|[Hx Hne]]; [by left|right]. eauto.
      * rewrite Ej in Hj by done. right. split; [by eauto|]. intros Ex.
        destruct (wf_place _ _ _ (Hwf j bj Hj) x Hx) as [_ Ex']. rewrite Ex, Hi in Ex'. by injection Ex'.
    + intros [->|[(j & bj & Hj & Hx) Hne]].
      * exists i, (KBucket.update n b).2. split; [done|]. apply Hu. by left.
      * destruct (decide (j = i)) as [->|Hji]; [|exists j, bj; by rewrite Ej].
        rewrite Eb in Hj. injection Hj as <-. exists i, (KBucket.update n b).2. split; [done|]. apply Hu. by right.
  - intros Hr. rewrite Hr in Hu. destruct Hu as [Hu _]. eauto.
  - intros Hr. rewrite Hr in Hu. destruct Hu as (Hu & Hfull & Hnew). split; [|by eauto].
    unfold tb'. rewrite Hu, list_insert_id by done. by destruct tb.
Qed.

(** Outside of its range the table cannot be updated. *)
Lemma kad_update_panics tb n :
  Node.id n = KNodeTable.this_id tb ∨ KNodeTable.bucket_number (Node.id n) tb = Panic →
  KNodeTable.update n tb = Panic.
Proof. intros Hn. unfold KNodeTable.update. case_decide; [done|]. by destruct Hn as [| ->]. Qed.

Lemma pop_oldest_wf tb : table_wf tb → table_wf (KNodeTable.pop_oldest tb).2.
Proof.
  intros [Hlen Hwf]. split; [simpl; by rewrite !length_fmap|]. intros i b Hi. simpl in Hi.
  rewrite !list_lookup_fmap in Hi. destruct (KNodeTable.buckets tb !! i) as [b0|] eqn:E; [|done].
  injection Hi as <-. apply (bucket_wf_eq tb); [done|done|]. by apply pop_bucket_wf, Hwf.
Qed.

(** What a full bucket gives up: its front. *)
Definition full (b : KBucket.t I A) : bool := bool_decide (length (KBucket.data b) = KBucket.size b).

Lemma pop_bucket_spec tb i b :
  bucket_wf tb i b →
  KBucket.size (KNodeTable.pop_bucket b).2 = KBucket.size b ∧
  KBucket.data b = (KNodeTable.pop_bucket b).1 ++ KBucket.data (KNodeTable.pop_bucket b).2 ∧
  if full b then ∃ x, (KNodeTable.pop_bucket b).1 = [x] else (KNodeTable.pop_bucket b).1 = [].
Proof.
  intros [Hs _ _ _]. unfold KNodeTable.pop_bucket, full.
  destruct (KBucket.data b) as [|y rest] eqn:E; simpl.
  { rewrite bool_decide_false by lia. by rewrite E. }
  destruct (Nat.eqb_spec (KBucket.size b) (S (length rest))); simpl.
  - rewrite bool_decide_true by done. by eauto.
  - rewrite bool_decide_false by done. by rewrite E.
Qed.

Lemma pop_bucket_elem b x :
  x ∈ KBucket.data b ↔ x ∈ (KNodeTable.pop_bucket b).1 ∨ x ∈ KBucket.data (KNodeTable.pop_bucket b).2.
Proof.
  unfold KNodeTable.pop_bucket. destruct (KBucket.data b) as [|y rest] eqn:E; simpl; rewrite ?E; [set_solver|].
  destruct (_ =? _)%nat; simpl; rewrite ?E; set_solver.
Qed.

(** The oldest node of a full bucket. *)
Definition oldest_of_full tb (x : Node.t I A) : Prop :=
  ∃ i b rest, KNodeTable.buckets tb !! i = Some b ∧ length (KBucket.data b) = KBucket.size b ∧
    KBucket.data b = x :: rest.

(** [pop_oldest] takes the oldest node of every full bucket, and nothing else. *)
Lemma popped_oldest tb x :
  table_wf tb → x ∈ (KNodeTable.pop_oldest tb).1 ↔ oldest_of_full tb x.
Proof.
  intros [_ Hwf]. simpl. rewrite elem_of_concat. split.
  - intros (l & Hx & Hl). rewrite <-list_fmap_compose in Hl.
    apply list_elem_of_fmap in Hl as (b & -> & [i Hi]%list_elem_of_lookup). simpl in Hx.
    destruct (pop_bucket_spec _ _ _ (Hwf i b Hi)) as (_ & Ed & Hf). unfold full in Hf.
    case_bool_decide as Hfull; [|by rewrite Hf in Hx; apply not_elem_of_nil in Hx].
    destruct Hf as [y Ey]. rewrite Ey in Hx, Ed. apply list_elem_of_singleton in Hx as ->.
    by exists i, b, (KBucket.data (KNodeTable.pop_bucket b).2).
  - intros (i & b & rest & Hi & Hfull & Ed). exists (KNodeTable.pop_bucket b).1.
    destruct (pop_bucket_spec _ _ _ (Hwf i b Hi)) as (_ & Ed' & Hf). unfold full in Hf.
    rewrite bool_decide_true in Hf by done. destruct Hf as [y Ey]. rewrite Ey in Ed' |- *.
    rewrite Ed in Ed'. injection Ed' as -> _. split; [by apply list_elem_of_singleton|].
    rewrite <-list_fmap_compose. apply list_elem_of_fmap. exists b. split; [done|]. by eapply list_elem_of_lookup_2.
Qed.

(** What is taken and what is kept make up the table, each node once. *)
Lemma pop_oldest_partition tb :
  table_wf tb → nodes tb ≡ₚ (KNodeTable.pop_oldest tb).1 ++ nodes (KNodeTable.pop_oldest tb).2.
Proof.
  intros [_ Hwf]. unfold nodes. simpl.
  assert (∀ (bs : list (KBucket.t I A)) k, (∀ j b, bs !! j = Some b → bucket_wf tb (k + j) b) →
    concat (KBucket.data <$> bs) ≡ₚ
    concat (KNodeTable.pop_bucket <$> bs).*1 ++ concat (KBucket.data <$> (KNodeTable.pop_bucket <$> bs).*2)) as Hgen;
    [|by apply (Hgen _ O)].
  induction bs as [|b bs IH]; intros k Hb; [done|]. simpl.
  rewrite (IH (S k)) by (intros j bj Hj; replace (S k + j)%nat with (k + S j)%nat by lia; by apply Hb).
  destruct (pop_bucket_spec _ _ _ (Hb O b eq_refl)) as (_ & -> & _). solve_Permutation.
Qed.

(** Every bucket keeps its other nodes, in order. *)
Lemma pop_oldest_bucket tb i b :
  table_wf tb → KNodeTable.buckets tb !! i = Some b →
  KNodeTable.buckets (KNodeTable.pop_oldest tb).2 !! i =
    Some (KBucket.mk (if full b then tail (KBucket.data b) else KBucket.data b) (KBucket.size b)).
Proof.
  intros [_ Hwf] Hi. simpl. rewrite !list_lookup_fmap, Hi. simpl. f_equal.
  destruct (pop_bucket_spec _ _ _ (Hwf i b Hi)) as (<- & Ed & Hf). destruct (KNodeTable.pop_bucket b) as [l b1].
  simpl in *. rewrite Ed. destruct (full b); [destruct Hf as [x ->]|rewrite Hf]; by destruct b1.
Qed.

Lemma pop_bucket_room tb i b :
  bucket_wf tb i b →
  (length (KBucket.data (KNodeTable.pop_bucket b).2) < KBucket.size (KNodeTable.pop_bucket b).2)%nat.
Proof.
  intros [Hs Hl _ _]. unfold KNodeTable.pop_bucket. destruct (KBucket.data b) as [|x rest] eqn:E.
  { simpl in *. by rewrite E. }
  destruct (Nat.eqb_spec (KBucket.size b) (length (x :: rest))); simpl in *; [lia|rewrite E; simpl; lia].
Qed.

Lemma pop_oldest_update tb n i :
  table_wf tb → Node.id n ≠ KNodeTable.this_id tb → KNodeTable.bucket_number (Node.id n) tb = Ret i →
  ∃ tb', KNodeTable.update n (KNodeTable.pop_oldest tb).2 = Ret (true, tb').
Proof.
  intros Hwf Hn Hi.
  destruct (update_shape (KNodeTable.pop_oldest tb).2 n i (pop_oldest_wf _ Hwf)) as (b & Eb & _ & E); [done..|].
  rewrite E. simpl in Eb. rewrite !list_lookup_fmap in Eb.
  destruct (KNodeTable.buckets tb !! i) as [b0|] eqn:E0; [|done]. injection Eb as <-.
  pose proof (pop_bucket_room tb i b0 (proj2 Hwf _ _ E0)) as Hroom.
  assert ((KBucket.update n (KNodeTable.pop_bucket b0).2).1 = true) as ->; [|by eexists].
  unfold KBucket.update. destruct (existsb _ _); [done|].
  by destruct (Nat.eqb_spec (length (KBucket.data (KNodeTable.pop_bucket b0).2))
    (KBucket.size (KNodeTable.pop_bucket b0).2)); [lia|].
Qed.

(** A new table is empty and has the shape. *)
Lemma kad_new_wf (id : I) (bucket_size hash_size : nat) :
  (0 < bucket_size)%nat →
  ∃ tb, KNodeTable.new_with_details id bucket_size hash_size = Ret tb ∧ table_wf tb ∧ nodes tb = [] ∧
    KNodeTable.this_id tb = id ∧ KNodeTable.hash_size tb = hash_size.
Proof.
  intros Hb. unfold KNodeTable.new_with_details.
  assert (∀ l : list nat, mapM (λ _, KBucket.new bucket_size) l =
    Ret (replicate (length l) (KBucket.mk [] bucket_size : KBucket.t I A))) as E.
  { assert (KBucket.new bucket_size = Ret (KBucket.mk [] bucket_size : KBucket.t I A)) as En.
    { unfold KBucket.new. by destruct (Nat.ltb_spec 0 bucket_size); [|lia]. }
    intros l. rewrite En. induction l as [|x l IH]; [done|]. unfold mapM in *. simpl in *. by rewrite IH. }
  rewrite E. simpl. eexists. split; [done|]. rewrite length_seq. split_and!; [|by induction hash_size|done|done].
  split; [simpl; by rewrite length_replicate|]. intros i b [-> _]%lookup_replicate. split; simpl; [done|lia|constructor|].
  intros n Hn. by apply not_elem_of_nil in Hn.
Qed.

(** C36 The node table keeps its shape: [update] of a node that has a bucket
    returns and keeps every node in the bucket of its distance, at most
    [size] nodes per bucket and one node per id.  Where it answers true the
    table holds the node, as the newest of its bucket and in the place of any
    node of its id, and otherwise what it held; where it answers false the
    bucket is full of other nodes and the table unchanged.  [update] of the
    own id, or of one outside the hash size, panics.  [pop_oldest] keeps the
    shape too, returns the oldest node of every full bucket and of no other,
    each of which it removes, keeps the rest of every bucket in order, and
    afterwards every such [update] succeeds. *)
Theorem kad_table_ops (tb : KNodeTable.t I A) (n : Node.t I A) :
  table_wf tb →
  (Node.id n = KNodeTable.this_id tb ∨ KNodeTable.bucket_number (Node.id n) tb = Panic →
    KNodeTable.update n tb = Panic) ∧
  (∀ i, Node.id n ≠ KNodeTable.this_id tb → KNodeTable.bucket_number (Node.id n) tb = Ret i →
    ∃ r tb', KNodeTable.update n tb = Ret (r, tb') ∧ updated n i tb r tb') ∧
  let '(oldest, tb1) := KNodeTable.pop_oldest tb in
  table_wf tb1 ∧ nodes tb ≡ₚ oldest ++ nodes tb1 ∧ (∀ x, x ∈ oldest ↔ oldest_of_full tb x) ∧
  (∀ i b, KNodeTable.buckets tb !! i = Some b → KNodeTable.buckets tb1 !! i =
    Some (KBucket.mk (if full b then tail (KBucket.data b) else KBucket.data b) (KBucket.size b))) ∧
  ∀ i, Node.id n ≠ KNodeTable.this_id tb → KNodeTable.bucket_number (Node.id n) tb = Ret i →
    ∃ tb', KNodeTable.update n tb1 = Ret (true, tb').
Proof.
  intros Hwf. split; [apply kad_update_panics|]. split; [intros i; by apply kad_update_spec|].
  rewrite (surjective_pairing (KNodeTable.pop_oldest tb)). split_and!.
  - by apply pop_oldest_wf.
  - by apply pop_oldest_partition.
  - intros x. by apply popped_oldest.
  - intros i b. by apply pop_oldest_bucket.
  - intros i Hn Hi. by eapply pop_oldest_update.
Qed.

(** ** Looking up *)

(** The first [count] of some nodes by XOR distance to an id: as many as there
    are up to [count], sorted by distance, and no node that is left out is
    closer than one of them. *)
Definition closest_to (id : I) (count : nat) (ns l : list (Node.t I A)) : Prop :=
  ∃ rest, l ++ rest ≡ₚ ns ∧ length l = Nat.min count (length ns) ∧
    StronglySorted (λ x y, id_leb (distance id (Node.id x)) (distance id (Node.id y)) = true) l ∧
    ∀ x y, x ∈ l → y ∈ rest → id_leb (distance id (Node.id x)) (distance id (Node.id y)) = true.

Lemma closest_to_subset (id : I) (count : nat) (ns l : list (Node.t I A)) :
  closest_to id count ns l → l ⊆ ns ∧ length l = Nat.min count (length ns).
Proof. intros (rest & Hp & Hl & _). split; [|done]. intros x Hx. rewrite <-Hp. set_solver. Qed.

(** [find] returns the [count] nodes of the table that are closest to an id. *)
Lemma kad_find_closest (tb : KNodeTable.t I A) (id : I) (count : nat) :
  (0 < count)%nat → id ≠ KNodeTable.this_id tb →
  ∃ l, KNodeTable.find id count tb = Ret l ∧ closest_to id count (nodes tb) l.
Proof.
  intros Hc Hid. unfold KNodeTable.find, closest. fold (nodes tb).
  destruct (Nat.eqb_spec count 0); [lia|]. rewrite decide_False by done.
  set (key := λ n : Node.t I A, distance id (Node.id n)).
  set (s := sort_by_key key id_leb (nodes tb)).
  assert (StronglySorted (λ x y, id_leb (key x) (key y) = true) s) as Hs.
  { apply sort_by_key_sorted; [apply id_leb_total|apply id_leb_trans]. }
  set (k := Nat.min count (length s)).
  rewrite <-(take_drop k s) in Hs.
  exists (take k s). split; [done|]. exists (drop k s). split_and!.
  - rewrite take_drop. apply sort_by_key_perm.
  - rewrite length_take. unfold k, s. rewrite sort_by_key_length. lia.
  - by eapply StronglySorted_app_1_l.
  - intros x y Hx Hy. exact (StronglySorted_app_1_elem_of _ _ _ _ _ Hs Hx Hy).
Qed.
End kad.

(** ** Buckets of the 64-bit identifiers *)

(** For the [u64] identifiers the program uses, [bucket_number] of another id
    is the position of the highest bit in which the two differ: bucket [i]
    holds the nodes at a distance from [2^i] up to [2^(i+1)], and the default
    table has a bucket for every id but its own. *)
Lemma kad_bucket_distance {A : Type} (tb : KNodeTable.t Z A) (id : Z) :
  is_u64 (KNodeTable.this_id tb) → is_u64 id → id ≠ KNodeTable.this_id tb →
  KNodeTable.hash_size tb = DEFAULT_HASH_SIZE →
  ∃ i, KNodeTable.bucket_number id tb = Ret i ∧
    2 ^ Z.of_nat i ≤ distance (KNodeTable.this_id tb) id < 2 ^ (Z.of_nat i + 1).
Proof.
  unfold is_u64, u64_bound. intros Ht Hi Hne Hh. unfold KNodeTable.bucket_number, distance. simpl.
  set (d := Z.lxor (KNodeTable.this_id tb) id).
  assert (d ≠ 0) as Hd by (intros E%Z.lxor_eq; congruence).
  assert (0 ≤ d) as Hpos by (apply Z.lxor_nonneg; lia).
  assert (Z.log2 d < 64) as Hlog.
  { pose proof (Z.log2_lxor (KNodeTable.this_id tb) id ltac:(lia) ltac:(lia)) as Hx.
    pose proof (Z.log2_le_mono (KNodeTable.this_id tb) (2 ^ 64 - 1) ltac:(lia)) as H1.
    pose proof (Z.log2_le_mono id (2 ^ 64 - 1) ltac:(lia)) as H2.
    replace (Z.log2 (2 ^ 64 - 1)) with 63 in * by reflexivity. fold d in Hx. lia. }
  unfold u64_bits. destruct (Z.eqb_spec d 0); [done|]. rewrite Nat.sub_1_r. simpl.
  rewrite Hh. destruct (Nat.leb_spec DEFAULT_HASH_SIZE (Z.to_nat (Z.log2 d))) as [Hle|_].
  { unfold DEFAULT_HASH_SIZE in Hle. pose proof (Z.log2_nonneg d). lia. }
  eexists. split; [done|]. pose proof (Z.log2_nonneg d). rewrite Z2Nat.id by done.
  apply Z.log2_spec. lia.
Qed.
