(* ===== verification/KadService.v ===== *)
(** * The Kademlia service ([src/p2p/p2p/src/kad/])

    The random identifiers of [base.rs], its trait [GenericNodeTable] as a
    class with [KNodeTable] as its instance, and the protocol-agnostic
    [Service] and [Handler] of [service.rs], written against that class.  The
    trait promises no more than its doc comments say ("some reasonable subset
    of known nodes"), so the theorems are about the service over the table the
    program runs it with, [KNodeTable]. *)

From S2P Require Import Prelude External Kad.

(** ** Random identifiers *)

(** [rand::Rng]: the answer and the generator after it. *)
Class Rng (R : Type) : Type := {
  next_u64 : R → Z * R;
  (** [gen_range(low, high)], which panics on an empty range *)
  gen_range : Z → Z → R → Z * R;
  (** [fill_bytes] on a slice of the given length *)
  fill_bytes : nat → R → bytes * R
}.
Definition is_byte (d : Z) : Prop := 0 ≤ d < 256.
Class RngLaws (R : Type) `{Rng R} : Prop := {
  next_u64_range : ∀ r, is_u64 (next_u64 r).1;
  gen_range_range : ∀ lo hi r, lo < hi → lo ≤ (gen_range lo hi r).1 < hi;
  fill_bytes_length : ∀ n r, length (fill_bytes n r).1 = n;
  fill_bytes_range : ∀ n r, Forall is_byte (fill_bytes n r).1
}.

(** [GenericId::gen]. *)
Class GenId (I R : Type) : Type := gen : nat → R → outcome I.

#[global] Instance gen_u64 {R : Type} `{Rng R} : GenId Z R := λ bit_size rng,
  if (64 <? bit_size)%nat then Panic
  else if (bit_size =? 64)%nat then mret (next_u64 rng).1
  else mret (gen_range 0 (Z.shiftl 1 (Z.of_nat bit_size)) rng).1.

#[global] Instance gen_vec {R : Type} `{Rng R} : GenId bytes R := λ bit_size rng,
  let nb_full_digits := (bit_size / 8)%nat in
  let nb_bits_partial_digit := (bit_size mod 8)%nat in
  if (nb_bits_partial_digit =? 0)%nat then mret (fill_bytes nb_full_digits rng).1
  else
    let '(first_digit, rng) := gen_range 0 (Z.shiftl 1 (Z.of_nat (nb_bits_partial_digit - 1))) rng in
    mret (first_digit :: (fill_bytes nb_full_digits rng).1).

Lemma u64_bits_le (x : Z) (n : nat) : 0 ≤ x < 2 ^ Z.of_nat n → (u64_bits x ≤ n)%nat.
Proof.
  intros Hx. unfold u64_bits. destruct (Z.eqb_spec x 0); [lia|].
  assert (Z.log2 x < Z.of_nat n) by (apply Z.log2_lt_pow2; lia). pose proof (Z.log2_nonneg x). lia.
Qed.

Lemma vec_bits_le (v : bytes) : Forall is_byte v → (vec_bits v ≤ 8 * length v)%nat.
Proof. induction 1 as [|d v _ _ IH]; simpl in *; [lia|]. destruct (d =? 0); simpl in *; lia. Qed.

Lemma vec_bits_cons (d : Z) (v : bytes) (k : nat) :
  Forall is_byte v → 0 ≤ d < 2 ^ Z.of_nat k → (k ≤ 8)%nat →
  (vec_bits (d :: v) ≤ k + 8 * length v)%nat.
Proof.
  intros Hv Hd Hk. simpl. pose proof (vec_bits_le v Hv). destruct (Z.eqb_spec d 0) as [|Hne]; [lia|].
  pose proof (u64_bits_le d k Hd). unfold u8_leading_zeros.
  assert (1 ≤ u64_bits d)%nat by (unfold u64_bits; destruct (Z.eqb_spec d 0); lia). lia.
Qed.

Section gen.
Context {R : Type} `{RngLaws R}.

(** Random identifiers stay within the size asked for: [gen(bit_size)] of a
    [u64] returns an id of at most [bit_size] bits for every size up to 64
    and panics beyond; for byte vectors it always returns one, of as many
    bytes as needed, and where [bit_size] is no multiple of 8 the top bit of
    the size is never used, so half of the ids cannot be drawn. *)
Lemma gen_within_size (bit_size : nat) (rng : R) :
  (if (bit_size <=? 64)%nat
   then ∃ x, gen (I := Z) bit_size rng = Ret x ∧ is_u64 x ∧ (bits x ≤ bit_size)%nat
   else gen (I := Z) bit_size rng = Panic) ∧
  ∃ v : bytes, gen (I := bytes) bit_size rng = Ret v ∧ length v = ((bit_size + 7) / 8)%nat ∧
    (bits v ≤ if (bit_size mod 8 =? 0)%nat then bit_size else bit_size - 1)%nat.
Proof.
  split.
  - unfold gen, gen_u64. destruct (Nat.leb_spec bit_size 64), (Nat.ltb_spec 64 bit_size); try lia; [|done].
    destruct (Nat.eqb_spec bit_size 64) as [->|Hne]; eexists; (split; [done|]).
    + pose proof (next_u64_range rng) as Hr. split; [done|]. apply u64_bits_le, Hr.
    + rewrite Z.shiftl_1_l. pose proof (gen_range_range 0 (2 ^ Z.of_nat bit_size) rng ltac:(lia)) as Hr.
      split; [|by apply u64_bits_le]. split; [lia|]. unfold u64_bound.
      assert (2 ^ Z.of_nat bit_size ≤ 2 ^ 64) by (apply Z.pow_le_mono_r; lia). lia.
  - unfold gen, gen_vec.
    pose proof (Nat.div_mod_eq bit_size 8). pose proof (Nat.mod_upper_bound bit_size 8).
    set (q := (bit_size / 8)%nat) in *. set (k := (bit_size mod 8)%nat) in *.
    destruct (Nat.eqb_spec k 0) as [E|Hk].
    + eexists. split; [done|]. rewrite fill_bytes_length.
      pose proof (vec_bits_le _ (fill_bytes_range q rng)) as Hb. rewrite fill_bytes_length in Hb.
      split; [|simpl; lia]. apply (Nat.div_unique (bit_size + 7) 8 q 7); lia.
    + destruct (gen_range _ _ rng) as [d rng'] eqn:E. eexists. split; [done|].
      assert (0 ≤ d < 2 ^ Z.of_nat (k - 1)) as Hd.
      { rewrite Z.shiftl_1_l in E. pose proof (gen_range_range 0 (2 ^ Z.of_nat (k - 1)) rng ltac:(lia)).
        by rewrite E in *. }
      pose proof (vec_bits_cons d _ (k - 1) (fill_bytes_range q rng') Hd ltac:(lia)) as Hb.
      simpl length. rewrite fill_bytes_length in *. split; [|simpl in *; lia].
      apply (Nat.div_unique (bit_size + 7) 8 (S q) (k - 1)); lia.
Qed.
End gen.

(** ** The trait [GenericNodeTable] *)

Class GenericNodeTable (T I A R : Type) : Type := {
  random_id : R → T → outcome I;
  nt_update : Node.t I A → T → outcome (bool * T);
  nt_find : I → nat → T → outcome (list (Node.t I A));
  nt_pop_oldest : T → list (Node.t I A) * T
}.

#[global] Instance knodetable_table {I A R : Type} `{GenericId I, GenId I R} :
    GenericNodeTable (KNodeTable.t I A) I A R := {
  random_id rng tb := gen (KNodeTable.hash_size tb) rng;
  nt_update := KNodeTable.update;
  nt_find := KNodeTable.find;
  nt_pop_oldest := KNodeTable.pop_oldest }.

(** ** [Handler] and [Service] *)

Definition MAX_NODE_COUNT : nat := 16.

Inductive FindResult (I A D : Type) : Type :=
| FValue (d : D)
| FClosestNodes (l : list (Node.t I A))
| FNothing.
Arguments FValue {I A D} d.
Arguments FClosestNodes {I A D} l.
Arguments FNothing {I A D}.

Module Handler.
Section handler.
Context {T I A D R : Type} `{GenericId I, Countable I, GenericNodeTable T I A R}.

(** The handler shares table and data with its service: the contents of the
    two locks. *)
Record t : Type := mk { node_id : I; table : T; data : gmap I D; clean_needed : bool }.

Definition with_table (x : T) (h : t) : t := mk (node_id h) x (data h) (clean_needed h).
Definition with_data (x : gmap I D) (h : t) : t := mk (node_id h) (table h) x (clean_needed h).
Definition with_clean_needed (x : bool) (h : t) : t := mk (node_id h) (table h) (data h) x.

Definition update (node : Node.t I A) : M t unit :=
  h ← gets (λ h, h);
  if decide (Node.id node = node_id h) then mret tt
  else
    rt ← lift (nt_update node (table h));
    modify (with_table rt.2);;
    when (negb rt.1) (modify (with_clean_needed true)).

Definition on_ping (sender : Node.t I A) : M t bool := update sender;; mret true.
Definition on_find_node (sender : Node.t I A) (id : I) : M t (list (Node.t I A)) :=
  h ← gets (λ h, h);
  res ← lift (nt_find id MAX_NODE_COUNT (table h));
  update sender;; mret res.
Definition on_find_value (sender : Node.t I A) (id : I) : M t (FindResult I A D) :=
  update sender;;
  h ← gets (λ h, h);
  match data h !! id with
  | Some value => mret (FValue value)
  | None => l ← lift (nt_find id MAX_NODE_COUNT (table h)); mret (FClosestNodes l)
  end.
End handler.
Arguments t : clear implicits.
Arguments t T I D {_ _}.
End Handler.

Module Service.
Section service.
Context {T I A D R : Type} `{GenericId I, Countable I, GenericNodeTable T I A R}.

Record t : Type := mk { handler : Handler.t T I D; node_id : I }.

Definition new_with_id (node_table : T) (node_id : I) : t :=
  mk (Handler.mk node_id node_table ∅ false) node_id.
(** The id is random, whatever id the table was made for. *)
Definition new (node_table : T) (rng : R) : outcome t :=
  node_id ← random_id rng node_table; mret (new_with_id node_table node_id).

Definition node_table (s : t) : T := Handler.table (handler s).
Definition stored_data (s : t) : gmap I D := Handler.data (handler s).
Definition clean_needed (s : t) : bool := Handler.clean_needed (handler s).
Definition on_handler {X : Type} (m : M (Handler.t T I D) X) : M t X :=
  λ s, match m (handler s) with Ret (x, h) => Ret (x, mk h (node_id s)) | Panic => Panic end.

(** The loop over the oldest nodes. *)
Fixpoint recheck (check : Node.t I A → bool) (oldest : list (Node.t I A)) (tb : T) : outcome T :=
  match oldest with
  | [] => mret tb
  | node :: rest =>
      if check node then rt ← nt_update node tb; recheck check rest rt.2
      else recheck check rest tb
  end.
Definition clean_up (check : Node.t I A → bool) : M t unit :=
  tb ← gets node_table;
  let '(oldest, tb) := nt_pop_oldest tb in
  tb ← lift (recheck check oldest tb);
  on_handler (modify (Handler.with_table tb));;
  on_handler (modify (Handler.with_clean_needed false)).
End service.
Arguments t : clear implicits.
Arguments t T I D {_ _}.
End Service.

(** ** The service over [KNodeTable] *)

Section service.
Context {I A D R : Type} `{GenericIdLaws I, Countable I, GenId I R}.
Abbreviation table_t := (KNodeTable.t I A).
Implicit Types (tb : table_t) (b : KBucket.t I A) (n x : Node.t I A).
Implicit Types (h : Handler.t table_t I D) (s : Service.t table_t I D).

(** Handler and table agree on who they are. *)
Definition handler_wf h : Prop :=
  table_wf (Handler.table h) ∧ KNodeTable.this_id (Handler.table h) = Handler.node_id h.

Definition known h : list (Node.t I A) := nodes (Handler.table h).

Lemma update_fields n tb r tb' :
  KNodeTable.update n tb = Ret (r, tb') →
  KNodeTable.this_id tb' = KNodeTable.this_id tb ∧ KNodeTable.hash_size tb' = KNodeTable.hash_size tb.
Proof.
  unfold KNodeTable.update. case_decide; [done|]. destruct (KNodeTable.bucket_number _ _); simpl; [|done].
  destruct (_ !! _); simpl; [|done]. destruct (KBucket.update _ _). by intros [= _ <-].
Qed.

(** What remembering [n] does to a handler: its own node is not remembered, a
    node whose bucket is full of others asks for a clean-up. *)
Record remembers n h h' : Prop := {
  rm_wf : handler_wf h';
  rm_id : Handler.node_id h' = Handler.node_id h;
  rm_hash : KNodeTable.hash_size (Handler.table h') = KNodeTable.hash_size (Handler.table h);
  rm_data : Handler.data h' = Handler.data h;
  rm_own : Node.id n = Handler.node_id h → h' = h;
  rm_node : Node.id n ≠ Handler.node_id h →
    (∀ x, x ∈ known h' ↔ x = n ∨ (x ∈ known h ∧ Node.id x ≠ Node.id n)) ∧
      Handler.clean_needed h' = Handler.clean_needed h ∨
    Handler.table h' = Handler.table h ∧ Handler.clean_needed h' = true
}.

(** The caller is the node itself or has a bucket. *)
Definition caller_fits n h : Prop := Node.id n = Handler.node_id h ∨ fits (Node.id n) (Handler.table h).

Lemma update_remembers n h :
  handler_wf h → caller_fits n h →
  ∃ h', Handler.update (R := R) n h = Ret (tt, h') ∧ remembers n h h'.
Proof using All.
  intros [Hwf Hid] Hf. unfold Handler.update, mbind, M_mbind, M_bind, gets, lift. case_decide as E.
  { exists h. split; [done|]. by split. }
  destruct Hf as [|[k Hk]]; [done|].
  destruct (kad_update_spec (Handler.table h) n k) as (r & t' & Eu & Hu); [done|congruence|done|].
  destruct (update_fields _ _ _ _ Eu) as [Ei Eh]. simpl. rewrite Eu. simpl.
  destruct r; (eexists; split; [done|]; split; simpl; try done; [split; [apply Hu|simpl; congruence]|]).
  - intros _. left. split; [|done]. by apply Hu.
  - intros _. right. split; [|done]. by apply (up_refused _ _ _ _ _ Hu).
Qed.

Lemma update_foreign_panics n h : handler_wf h → ¬ caller_fits n h → Handler.update (R := R) n h = Panic.
Proof using All.
  intros _ Hf. unfold Handler.update, mbind, M_mbind, M_bind, gets, lift. rewrite decide_False.
  2: { intros E. apply Hf. by left. }
  simpl. rewrite kad_update_panics; [done|]. right.
  destruct (KNodeTable.bucket_number _ _) eqn:E; [|done]. destruct Hf. right. by eexists.
Qed.

Lemma on_ping_spec n h :
  handler_wf h → caller_fits n h →
  ∃ h', Handler.on_ping (R := R) n h = Ret (true, h') ∧ remembers n h h'.
Proof using All.
  intros Hwf Hf. destruct (update_remembers n h Hwf Hf) as (h' & Eu & Hr).
  exists h'. split; [|done]. unfold Handler.on_ping, mbind, M_mbind, M_bind. by rewrite Eu.
Qed.

Lemma table_find (id : I) h :
  handler_wf h →
  if decide (id = Handler.node_id h) then KNodeTable.find id MAX_NODE_COUNT (Handler.table h) = Panic
  else ∃ l, KNodeTable.find id MAX_NODE_COUNT (Handler.table h) = Ret l ∧ closest_to id MAX_NODE_COUNT (known h) l.
Proof.
  intros [_ Hid]. case_decide.
  - unfold KNodeTable.find. simpl. by rewrite decide_True by congruence.
  - apply kad_find_closest; [unfold MAX_NODE_COUNT; lia|congruence].
Qed.

Lemma on_find_node_spec n (id : I) h :
  handler_wf h → caller_fits n h →
  if decide (id = Handler.node_id h) then Handler.on_find_node (R := R) n id h = Panic
  else ∃ l h', Handler.on_find_node (R := R) n id h = Ret (l, h') ∧ remembers n h h' ∧
    closest_to id MAX_NODE_COUNT (known h) l.
Proof using All.
  intros Hwf Hf. destruct (update_remembers n h Hwf Hf) as (h' & Eu & Hr). pose proof (table_find id h Hwf) as Ht.
  unfold Handler.on_find_node, mbind, M_mbind, M_bind, gets, lift. cbn [nt_find knodetable_table].
  case_decide; [by rewrite Ht|]. destruct Ht as (l & -> & Hl). cbn. rewrite Eu. by exists l, h'.
Qed.


(** ** Cleaning up *)

(** A full bucket after its oldest node was checked. *)
Definition rechecked (check : Node.t I A → bool) (b : KBucket.t I A) : KBucket.t I A :=
  match KBucket.data b with
  | x :: rest => if full b then KBucket.mk (rest ++ (if check x then [x] else [])) (KBucket.size b) else b
  | [] => b
  end.

Lemma rechecked_wf check tb i b : bucket_wf tb i b → bucket_wf tb i (rechecked check b).
Proof.
  intros Hb. unfold rechecked. destruct (KBucket.data b) as [|x rest] eqn:E; [done|]. destruct (full b); [|done].
  destruct Hb as [Hs Hl Hd Hp]. rewrite E in *. pose proof Hd as [Hx Hd']%NoDup_cons. simpl in Hl.
  destruct (check x); split; simpl; rewrite ?app_nil_r, ?length_app; simpl; try done; try lia.
  - rewrite fmap_app. apply NoDup_app. split_and!; [done| |apply NoDup_singleton].
    intros y Hy ->%list_elem_of_singleton. done.
  - intros y Hy. apply Hp. set_solver.
  - intros y Hy. apply Hp. set_solver.
Qed.

(** The bucket that gave up its front takes it back at the end. *)
Lemma recheck_bucket check tb (i : nat) b rest :
  table_wf tb → bucket_wf tb i b → KNodeTable.buckets tb !! i = Some (KNodeTable.pop_bucket b).2 →
  Service.recheck (R := R) check ((KNodeTable.pop_bucket b).1 ++ rest) tb =
  Service.recheck (R := R) check rest (KNodeTable.mk (KNodeTable.this_id tb) (KNodeTable.hash_size tb)
    (<[i := rechecked check b]> (KNodeTable.buckets tb))).
Proof using All.
  intros Hwf Hb Hi. destruct (pop_bucket_spec _ _ _ Hb) as (Es & Ed & Hf). unfold rechecked.
  pose proof (pop_bucket_room _ _ _ Hb) as Hroom.
  destruct (KNodeTable.pop_bucket b) as [l b1] eqn:Ep. simpl in *.
  assert (∀ b2, b2 = b1 → tb = KNodeTable.mk (KNodeTable.this_id tb) (KNodeTable.hash_size tb)
    (<[i := b2]> (KNodeTable.buckets tb))) as Hid.
  { intros b2 ->. rewrite list_insert_id by done. by destruct tb. }
  destruct (full b); [destruct Hf as [x ->]|subst l].
  - rewrite Ed. simpl. destruct (check x).
    + assert (x ∈ KBucket.data b) as Hx by (rewrite Ed; by left).
      destruct (wf_place _ _ _ Hb x Hx) as [Hn Hnum]. pose proof (wf_ids _ _ _ Hb) as Hd. rewrite Ed in Hd.
      simpl in Hd. apply NoDup_cons in Hd as [Hnew _].
      destruct (update_shape tb x i Hwf Hn Hnum) as (b' & Hb' & _ & ->). rewrite Hi in Hb'. injection Hb' as <-.
      assert (KBucket.update x b1 = (true, KBucket.mk (KBucket.data b1 ++ [x]) (KBucket.size b1))) as ->.
      { unfold KBucket.update. destruct (existsb _ _) eqn:Ex; [by apply existsb_id in Ex|].
        by destruct (Nat.eqb_spec (length (KBucket.data b1)) (KBucket.size b1)); [lia|]. }
      simpl. by rewrite Es.
    + rewrite app_nil_r. f_equal. apply Hid. rewrite <-Es. by destruct b1.
  - simpl. f_equal. apply Hid. assert (b1 = b) as -> by (destruct b, b1; simpl in *; congruence).
    by destruct (KBucket.data b).
Qed.

Lemma recheck_buckets check (post pre : list (KBucket.t I A)) (own : I) (hs : nat) :
  (∀ i b, (pre ++ post) !! i = Some b → bucket_wf (KNodeTable.mk own hs []) i b) →
  length (pre ++ post) = hs →
  Service.recheck (R := R) check (concat (KNodeTable.pop_bucket <$> post).*1)
    (KNodeTable.mk own hs (pre ++ (KNodeTable.pop_bucket <$> post).*2)) =
  Ret (KNodeTable.mk own hs (pre ++ (rechecked check <$> post)) : table_t).
Proof using All.
  revert pre. induction post as [|b post IH]; intros pre Hwf Hlen; [done|].
  assert (bucket_wf (KNodeTable.mk own hs []) (length pre) b) as Hb.
  { apply Hwf. by rewrite lookup_app_r, Nat.sub_diag by done. }
  rewrite !fmap_cons. cbn [concat]. rewrite (recheck_bucket check _ (length pre) b).
  - simpl. rewrite insert_app_r_alt, Nat.sub_diag by done. simpl.
    rewrite !(cons_middle _ pre), !(assoc_L (++)). apply IH.
    + intros i b' Hi. rewrite <-(assoc_L (++)) in Hi.
      apply lookup_app_Some in Hi as [Hi|[Hge Hi]]; [apply Hwf; by apply lookup_app_l_Some|].
      destruct (i - length pre)%nat as [|k] eqn:Ek; simpl in Hi.
      * injection Hi as <-. replace i with (length pre) by lia. by apply rechecked_wf.
      * apply Hwf. rewrite lookup_app_r, Ek by done. done.
    + rewrite !length_app in *. simpl in *. lia.
  - split; [simpl in *; rewrite !length_app in *; simpl in *; by rewrite !length_fmap|].
    intros i b' Hi. apply (bucket_wf_eq (KNodeTable.mk own hs [])); [done|done|]. simpl in Hi.
    apply lookup_app_Some in Hi as [Hi|[Hge Hi]]; [apply Hwf; by apply lookup_app_l_Some|].
    change ((KNodeTable.pop_bucket <$> (b :: post)).*2 !! (i - length pre)%nat = Some b') in Hi.
    rewrite !list_lookup_fmap in Hi.
    destruct ((b :: post) !! (i - length pre)%nat) as [b0|] eqn:E0; [|done]. injection Hi as <-.
    apply pop_bucket_wf, Hwf. by rewrite lookup_app_r.
  - by apply (bucket_wf_eq (KNodeTable.mk own hs [])).
  - simpl. by rewrite lookup_app_r, Nat.sub_diag by done.
Qed.

Lemma recheck_popped check tb :
  table_wf tb →
  let tb' := KNodeTable.mk (KNodeTable.this_id tb) (KNodeTable.hash_size tb)
    (rechecked check <$> KNodeTable.buckets tb) in
  Service.recheck (R := R) check (KNodeTable.pop_oldest tb).1 (KNodeTable.pop_oldest tb).2 = Ret tb' ∧ table_wf tb'.
Proof using All.
  intros [Hlen Hwf] tb'.
  assert (∀ i b, KNodeTable.buckets tb !! i = Some b →
    bucket_wf (KNodeTable.mk (KNodeTable.this_id tb) (KNodeTable.hash_size tb) []) i b) as Hwf'.
  { intros i b Hi. apply (bucket_wf_eq tb); [done|done|]. by apply Hwf. }
  split; [by apply (recheck_buckets check (KNodeTable.buckets tb) [])|].
  split; [simpl; by rewrite length_fmap|]. intros i b' Hi. simpl in Hi. rewrite list_lookup_fmap in Hi.
  destruct (KNodeTable.buckets tb !! i) as [b|] eqn:E; [|done]. injection Hi as <-.
  apply (bucket_wf_eq tb); [done|done|]. by apply rechecked_wf, Hwf.
Qed.

(** Which nodes are left. *)
Lemma rechecked_nodes check tb x :
  table_wf tb →
  (∃ i b, KNodeTable.buckets tb !! i = Some b ∧ x ∈ KBucket.data (rechecked check b)) ↔
  x ∈ nodes tb ∧ (oldest_of_full tb x → check x = true).
Proof.
  intros [_ Hwf]. unfold oldest_of_full. rewrite nodes_elem. split.
  - intros (i & b & Hi & Hx).
    assert (x ∈ KBucket.data b) as Hin.
    { unfold rechecked in Hx. destruct (KBucket.data b) as [|y rest] eqn:E; [by rewrite E in Hx|].
      destruct (full b); [|by rewrite E in Hx]. simpl in Hx. destruct (check y); set_solver. }
    split; [by eauto|]. intros (j & b' & rest & Hj & Hfull & Ed).
    destruct (wf_place _ _ _ (Hwf i b Hi) x Hin) as [_ Ei].
    destruct (wf_place _ _ _ (Hwf j b' Hj) x) as [_ Ej]; [rewrite Ed; by left|].
    rewrite Ei in Ej. injection Ej as <-. rewrite Hi in Hj. injection Hj as <-.
    unfold rechecked, full in Hx. rewrite Ed in Hx. rewrite bool_decide_true in Hx by congruence. simpl in Hx.
    pose proof (wf_ids _ _ _ (Hwf i b Hi)) as Hd. rewrite Ed in Hd. apply NoDup_cons in Hd as [Hx' _].
    destruct (check x); [done|]. rewrite app_nil_r in Hx. destruct Hx'. by apply list_elem_of_fmap_2.
  - intros [(i & b & Hi & Hx) Hc]. exists i, b. split; [done|]. unfold rechecked, full.
    destruct (KBucket.data b) as [|y rest] eqn:E; [by apply not_elem_of_nil in Hx|].
    case_bool_decide; [|by rewrite E]. simpl. apply elem_of_cons in Hx as [->|Hx]; [|set_solver].
    rewrite Hc; [set_solver|]. exists i, b, rest. by rewrite E.
Qed.

(** C31 Cleaning up forgets exactly the oldest nodes of the full buckets that fail
    the check: [clean_up] returns, keeps the shape of the table and the
    stored values and clears the flag.  Of every full bucket the oldest node
    is taken out, and put back as the newest one if [check] accepts it; every
    other node and every bucket that is not full stays as it is.  So a node is
    known afterwards if and only if it was known before and, if it is the
    oldest of a full bucket, [check] accepts it. *)
Theorem kad_clean_up (check : Node.t I A → bool) (s : Service.t table_t I D) :
  handler_wf (Service.handler s) →
  ∃ s', Service.clean_up (R := R) check s = Ret (tt, s') ∧ handler_wf (Service.handler s') ∧
    Service.clean_needed s' = false ∧ Service.stored_data s' = Service.stored_data s ∧
    Service.node_id s' = Service.node_id s ∧
    KNodeTable.buckets (Service.node_table s') = rechecked check <$> KNodeTable.buckets (Service.node_table s) ∧
    ∀ x, x ∈ nodes (Service.node_table s') ↔
      x ∈ nodes (Service.node_table s) ∧ (oldest_of_full (Service.node_table s) x → check x = true).
Proof using All.
  intros [Hwf Hid]. fold (Service.node_table s) in *.
  destruct (recheck_popped check _ Hwf) as [E Hwf'].
  unfold Service.clean_up, mbind, M_mbind, M_bind, gets, lift.
  change (nt_pop_oldest (Service.node_table s)) with (KNodeTable.pop_oldest (Service.node_table s)).
  rewrite (surjective_pairing (KNodeTable.pop_oldest (Service.node_table s))), E. simpl.
  eexists. split; [done|]. split_and!; try done.
  intros x. rewrite <-(rechecked_nodes check _ x Hwf), nodes_elem. unfold Service.node_table. simpl.
  setoid_rewrite list_lookup_fmap. split.
  - intros (i & b' & Hi & Hx). destruct (KNodeTable.buckets _ !! i) as [b|] eqn:Eb; [|done]. injection Hi as <-. eauto.
  - intros (i & b & Hi & Hx). exists i, (rechecked check b). by rewrite Hi.
Qed.
End service.
