(* ===== verification/KadServer.v ===== *)
(** * The Kademlia node ([src/p2p/p2p/src/])

    The messages and codecs of [codec.rs], the server actor of [server.rs]
    on top of the Kademlia service, the session actor of [session.rs] and the
    client of [client.rs], with the generic protocol of [kad/protocol.rs] and
    its trivial implementation in [lib.rs]. *)

From S2P Require Import Prelude External Kad KadService.

(** [serde_json]: [to_string], whose error is [None], and [from_slice]. *)
Class Json (X : Type) : Type := {
  json_to_string : X → option bytes;
  json_from_slice : bytes → result X string
}.
Class JsonLaws (X : Type) `{Json X} : Prop := {
  json_from_to : ∀ x b, json_to_string x = Some b → json_from_slice b = Ok x;
  (** the empty text is no JSON value *)
  json_from_empty : ∃ e, json_from_slice [] = Err e
}.

(** ** Messages *)

Section messages.
Context {I A V : Type}.

Inductive RequestPayload : Type :=
| Ping
| FindNode (id : I)
| FindValue (id : I)
| Store (id : I) (v : V).

Inductive ResponsePayload : Type :=
| NodesFound (l : list (Node.t I A))
| ValueFound (v : V)
| NoResult.
End messages.
Arguments RequestPayload : clear implicits.
Arguments ResponsePayload : clear implicits.

Module Request.
Record t (I A V : Type) : Type := new {
  caller : Node.t I A; request_id : I; payload : RequestPayload I V }.
Arguments new {I A V} caller request_id payload.
Arguments caller {I A V} _.
Arguments request_id {I A V} _.
Arguments payload {I A V} _.
End Request.

Module Response.
Record t (I A V : Type) : Type := new {
  request : Request.t I A V; responder : Node.t I A; payload : ResponsePayload I A V }.
Arguments new {I A V} request responder payload.
Arguments request {I A V} _.
Arguments responder {I A V} _.
Arguments payload {I A V} _.
End Response.

Inductive P2PMessage (I A V : Type) : Type :=
| Req (r : Request.t I A V)
| Resp (r : Response.t I A V).
Arguments Req {I A V} r.
Arguments Resp {I A V} r.

Inductive KadMessage (I A V : Type) : Type := P2P (m : P2PMessage I A V).
Arguments P2P {I A V} m.
Definition new_p2p_request {I A V : Type} (req : Request.t I A V) : KadMessage I A V := P2P (Req req).
Definition new_p2p_response {I A V : Type} (resp : Response.t I A V) : KadMessage I A V := P2P (Resp resp).

(** *** The generic protocol *)

Class Protocol (P I A V : Type) : Type := {
  parse_request : P → bytes → Request.t I A V;
  format_response : P → Response.t I A V → bytes
}.

(** [P2PProtocol] reads nothing and writes nothing: every request is a ping
    from one address. *)
Inductive P2PProtocol : Type := P2PProtocol_mk.
Definition p2p_protocol {A : Type} (address : A) (id : Z) : Protocol P2PProtocol Z A Z := {|
  parse_request _ _ := Request.new (Node.mk address id) id Ping;
  format_response _ _ := [] |}.

(** ** Codecs: two bytes of length, big endian, and the JSON text *)

(** [BigEndian::read_u16], which panics on fewer than two bytes, and
    [put_u16_be]. *)
Definition read_u16 (src : bytes) : outcome Z :=
  match src with a :: b :: _ => mret (Z.shiftl a 8 + b) | _ => Panic end.
Definition put_u16_be (n : Z) : bytes := [Z.land (Z.shiftr n 8) 255; Z.land n 255].

(** What a decoder answers, and what it leaves in the buffer. *)
Abbreviation decoded X := (result (option X) string * bytes)%type.

Definition json_frame {X : Type} `{Json X} (size : Z) (src : bytes) : decoded X :=
  if size + 2 <=? Z.of_nat (length src) then
    let src := drop 2 src in
    let buf := take (Z.to_nat size) src in
    (match json_from_slice buf with Ok x => Ok (Some x) | Err e => Err e end, drop (Z.to_nat size) src)
  else (Ok None, src).

Definition json_encode {X : Type} `{Json X} (msg : X) (dst : bytes) : outcome bytes :=
  msg ← unwrap (json_to_string msg);
  mret (dst ++ put_u16_be (Z.of_nat (length msg) mod 2 ^ 16) ++ msg).

Module RawCodec.
Section codec.
Context {I A V : Type} `{Json (KadMessage I A V)}.
Definition decode (src : bytes) : outcome (decoded (KadMessage I A V)) :=
  if (length src <? 2)%nat then mret (Ok None, src)
  else size ← read_u16 src; mret (json_frame size src).
Definition encode (msg : KadMessage I A V) (dst : bytes) : outcome bytes := json_encode msg dst.
End codec.
End RawCodec.

Module Codec.
Section codec.
Context {I A V : Type} `{Json (Request.t I A V), Json (Response.t I A V)}.
Definition decode (src : bytes) : outcome (decoded (Request.t I A V)) :=
  if (length src <? 2)%nat then mret (Ok None, src)
  else size ← read_u16 src; mret (json_frame size src).
Definition encode (msg : Response.t I A V) (dst : bytes) : outcome bytes := json_encode msg dst.
End codec.
End Codec.

Module OutboundCode.
Section codec.
Context {I A V : Type} `{Json (Request.t I A V), Json (Response.t I A V)}.
Definition decode (src : bytes) : outcome (decoded (Response.t I A V)) :=
  if (2 <? length src)%nat then mret (Ok None, src)
  else size ← read_u16 src; mret (json_frame size src).
Definition encode (msg : Request.t I A V) (dst : bytes) : outcome bytes := json_encode msg dst.
End codec.
End OutboundCode.

Lemma read_put_u16 n rest : 0 ≤ n < 2 ^ 16 → read_u16 (put_u16_be n ++ rest) = Ret n.
Proof.
  intros Hn. unfold read_u16, put_u16_be. simpl. f_equal.
  change 255 with (Z.ones 8). rewrite !Z.land_ones, Z.shiftr_div_pow2, Z.shiftl_mul_pow2 by lia.
  rewrite (Z.mod_small (n / 2 ^ 8)); [pose proof (Z.div_mod n (2 ^ 8)); lia|].
  split; [apply Z.div_pos; lia|]. apply Z.div_lt_upper_bound; lia.
Qed.

(** A frame at the front of a buffer. *)
Lemma json_frame_front {X} `{Json X} n (body rest : bytes) :
  (n ≤ length body)%nat →
  json_frame (X := X) (Z.of_nat n) (put_u16_be (Z.of_nat n) ++ body ++ rest) =
    (match json_from_slice (take n body) with Ok x => Ok (Some x) | Err e => Err e end,
     drop n body ++ rest).
Proof.
  intros Hn. unfold json_frame.
  destruct (Z.leb_spec (Z.of_nat n + 2) (Z.of_nat (length (put_u16_be (Z.of_nat n) ++ body ++ rest)))) as [|Hlt].
  2: { rewrite !length_app in Hlt. simpl in Hlt. lia. }
  rewrite Nat2Z.id. cbv zeta. change (drop 2 (put_u16_be (Z.of_nat n) ++ body ++ rest)) with (body ++ rest).
  by rewrite take_app_le, drop_app_le.
Qed.

Section codec_props.
Context {I A V : Type} `{JsonLaws (KadMessage I A V)}.

(** A message survives the wire exactly when it fits: what [RawCodec] encodes
    and appends to a buffer is decoded to the same message, leaving what
    follows untouched, when its JSON text is shorter than 65536 bytes.  For a
    longer text the length field wraps around: the decoder takes only the
    first [length mod 65536] bytes for the message and the remainder of the
    text for the next frame. *)
Lemma raw_codec_roundtrip (msg : KadMessage I A V) (text dst rest : bytes) :
  json_to_string msg = Some text →
  ∃ frame, RawCodec.encode msg dst = Ret (dst ++ frame) ∧
    if (Z.of_nat (length text) <? 2 ^ 16) then RawCodec.decode (frame ++ rest) = Ret (Ok (Some msg), rest)
    else
      let n := Z.to_nat (Z.of_nat (length text) mod 2 ^ 16) in
      RawCodec.decode (frame ++ rest) =
        Ret (match json_from_slice (take n text) with Ok x => Ok (Some x) | Err e => Err e end,
             drop n text ++ rest).
Proof.
  intros Ht. exists (put_u16_be (Z.of_nat (length text) mod 2 ^ 16) ++ text).
  split; [unfold RawCodec.encode, json_encode; by rewrite Ht|].
  set (n := Z.to_nat (Z.of_nat (length text) mod 2 ^ 16)).
  pose proof (Z.mod_pos_bound (Z.of_nat (length text)) (2 ^ 16) ltac:(lia)) as Hb.
  pose proof (Z.mod_le (Z.of_nat (length text)) (2 ^ 16) ltac:(lia) ltac:(lia)) as Hle.
  assert (Z.of_nat (length text) mod 2 ^ 16 = Z.of_nat n) as En by (unfold n; lia).
  assert (n ≤ length text)%nat as Hn by lia.
  assert (RawCodec.decode ((put_u16_be (Z.of_nat n) ++ text) ++ rest) =
    Ret (match json_from_slice (take n text) with Ok x => Ok (Some x) | Err e => Err e end,
         drop n text ++ rest)) as Hd.
  { unfold RawCodec.decode. destruct (Nat.ltb_spec (length ((put_u16_be (Z.of_nat n) ++ text) ++ rest)) 2) as [Hl|_].
    { rewrite !length_app in Hl. simpl in Hl. lia. }
    rewrite <-app_assoc, read_put_u16 by lia.
    simpl. by rewrite (json_frame_front n text rest Hn). }
  rewrite En. destruct (Z.ltb_spec (Z.of_nat (length text)) (2 ^ 16)) as [Hs|_]; [|exact Hd].
  rewrite Hd. rewrite Z.mod_small in En by lia. clearbody n. assert (n = length text) as -> by lia.
  rewrite firstn_all, drop_all. by rewrite (json_from_to msg).
Qed.
End codec_props.

Section outbound.
Context {I A V : Type} `{Json (Request.t I A V), JsonLaws (Response.t I A V)}.

(** A client never receives an answer: the length test of
    [OutboundCode::decode] is the wrong way round, so it reports "not yet" for
    every buffer of more than two bytes and leaves it as it is, fails on a
    buffer of two bytes that announces an empty message, and panics on
    shorter ones; no buffer gives a response. *)
Lemma client_never_receives (src : bytes) :
  (OutboundCode.decode src = Panic ↔ (length src < 2)%nat) ∧
  ((2 < length src)%nat → OutboundCode.decode src = Ret (Ok None, src)) ∧
  ∀ r rest, OutboundCode.decode src ≠ Ret (Ok (Some r), rest).
Proof.
  unfold OutboundCode.decode. destruct (Nat.ltb_spec 2 (length src)) as [Hl|Hl].
  { split_and!; [|done|done]. split; [done|lia]. }
  destruct src as [|a [|b src]]; simpl in *; [split_and!; [split|..]; intros; (done || lia)..|].
  destruct src; [|simpl in *; lia]. unfold json_frame. simpl length.
  destruct (Z.leb_spec (Z.shiftl a 8 + b + 2) (Z.of_nat 2)); simpl; [|split_and!; [split|..]; intros; (done || lia)].
  rewrite firstn_nil. destruct json_from_empty as [e ->]. split_and!; [split|..]; intros; (done || lia).
Qed.
End outbound.

(** ** The server actor *)

(** Sessions are known by the address of their actor. *)
Abbreviation SessionAddr := nat.

Module Connect.
Record t (A : Type) : Type := mk { node : Node.t Z A; addr : SessionAddr }.
Arguments mk {A} node addr.
Arguments node {A} _.
Arguments addr {A} _.
End Connect.

Module InnerMessage.
Record t : Type := new { id : Z; msg : string }.
End InnerMessage.

Module KServer.
Section server.
Context {A R : Type} `{Rng R}.
Abbreviation Table := (KNodeTable.t Z A).
Abbreviation TValue := bytes.

Record t : Type := mk {
  node : Node.t Z A;
  kad_srv : Service.t Table Z TValue;
  sessions : gmap Z SessionAddr }.

(** The default server's address is parsed from a constant. *)
Definition default (localhost : A) (rng : R) : outcome t :=
  table ← KNodeTable.new 0;
  srv ← Service.new table rng;
  mret (mk (Node.new 0 localhost) srv ∅).

Definition new (node : Node.t Z A) : outcome t :=
  table ← KNodeTable.new (Node.id node);
  mret (mk node (Service.new_with_id table (Node.id node)) ∅).

(** To which sessions a message goes. *)
Definition send_message `{HashMapOrder} (msg : InnerMessage.t) (s : t) : list (SessionAddr * string) :=
  if InnerMessage.id msg =? 0 then (λ p, (p.2, InnerMessage.msg msg)) <$> hm_iter (sessions s)
  else match sessions s !! InnerMessage.id msg with
       | Some addr => [(addr, InnerMessage.msg msg)]
       | None => []
       end.

Definition handle_connect (msg : Connect.t A) : M t unit :=
  s ← gets sessions;
  match s !! Node.id (Connect.node msg) with
  | Some _ => mret tt
  | None => modify (λ x, mk (node x) (kad_srv x) (<[Node.id (Connect.node msg) := Connect.addr msg]> (sessions x)))
  end.
Definition handle_disconnect (id : Z) : M t unit :=
  modify (λ x, mk (node x) (kad_srv x) (delete id (sessions x))).

Definition on_service {X : Type} (m : M (Service.t Table Z TValue) X) : M t X :=
  λ s, match m (kad_srv s) with Ret (x, k) => Ret (x, mk (node s) k (sessions s)) | Panic => Panic end.

(** [FindValue] and [Store] are [unimplemented!()]. *)
Definition handle_request (msg : Request.t Z A TValue) : M t (Response.t Z A TValue) :=
  match Request.payload msg with
  | Ping =>
      _ ← on_service (Service.on_handler (Handler.on_ping (Request.caller msg)));
      n ← gets node;
      mret (Response.new msg n NoResult)
  | FindNode id =>
      nodes ← on_service (Service.on_handler (Handler.on_find_node (Request.caller msg) id));
      n ← gets node;
      mret (Response.new msg n (NodesFound nodes))
  | FindValue _ => panic
  | Store _ _ => panic
  end.

Definition handle_mock (msg : string) : M t string := mret msg.
End server.
Arguments t : clear implicits.
End KServer.

Section server_props.
Context {A R : Type} `{RngLaws R}.
Implicit Types (s : KServer.t A) (n : Node.t Z A).

(** The default number of buckets, so that every [u64] has its place, and one
    id for node, service and table. *)
Definition server_wf s : Prop :=
  let h := Service.handler (KServer.kad_srv s) in
  handler_wf h ∧ Handler.node_id h = Node.id (KServer.node s) ∧ is_u64 (Node.id (KServer.node s)) ∧
  KNodeTable.hash_size (Handler.table h) = DEFAULT_HASH_SIZE.

Lemma new_table_wf (id : Z) :
  ∃ tb : KNodeTable.t Z A, KNodeTable.new id = Ret tb ∧ table_wf tb ∧ nodes tb = [] ∧
    KNodeTable.this_id tb = id ∧ KNodeTable.hash_size tb = DEFAULT_HASH_SIZE.
Proof. apply kad_new_wf. unfold BUCKET_SIZE. lia. Qed.

Lemma server_new_wf n : is_u64 (Node.id n) → ∃ s, KServer.new n = Ret s ∧ server_wf s.
Proof using All.
  intros Hn. destruct (new_table_wf (Node.id n)) as (tb & E & Hwf & _ & Et & Eh).
  unfold KServer.new. rewrite E. eexists. split; [done|]. unfold server_wf. simpl. split_and!; try done.
Qed.

Lemma server_fits s (i : Z) :
  server_wf s → is_u64 i → let h := Service.handler (KServer.kad_srv s) in
  i ≠ Handler.node_id h → fits i (Handler.table h).
Proof.
  intros ([_ Ho] & Hid & Hu & Hh) Hi h Hne. simpl in Ho.
  destruct (kad_bucket_distance (Handler.table h) i) as (k & Hk & _); try done.
  - unfold h. by rewrite Ho, Hid.
  - unfold h in *. congruence.
  - by exists k.
Qed.

Lemma server_caller_fits s n :
  server_wf s → is_u64 (Node.id n) → caller_fits n (Service.handler (KServer.kad_srv s)).
Proof.
  intros Hs Hn. destruct (decide (Node.id n = Handler.node_id (Service.handler (KServer.kad_srv s)))); [by left|].
  right. by apply server_fits.
Qed.

Lemma remembers_wf s n h' :
  server_wf s → let h := Service.handler (KServer.kad_srv s) in remembers n h h' →
  server_wf (KServer.mk (KServer.node s) (Service.mk h' (Service.node_id (KServer.kad_srv s))) (KServer.sessions s)).
Proof.
  intros (Hw & Hid & Hu & Hh) h Hr. split_and!; simpl; [apply Hr| |done|].
  - by rewrite (rm_id _ _ _ Hr).
  - by rewrite (rm_hash _ _ _ Hr).
Qed.

(** C33 Which requests a node survives: a server answers every ping, and every
    [FindNode] for an id that is not its own with up to 16 of the nodes it
    knows, for callers with any [u64] id, its own included, and stays well
    formed; [FindNode] for its own id, [FindValue] and [Store], which any
    peer may send, make it panic. *)
Theorem kad_server_requests (msg : Request.t Z A bytes) (s : KServer.t A) :
  server_wf s → is_u64 (Node.id (Request.caller msg)) →
  let table := Service.node_table (KServer.kad_srv s) in
  match Request.payload msg with
  | Ping => ∃ s', KServer.handle_request msg s = Ret (Response.new msg (KServer.node s) NoResult, s') ∧
      server_wf s'
  | FindNode id =>
      if decide (id = Node.id (KServer.node s)) then KServer.handle_request msg s = Panic
      else ∃ l s', KServer.handle_request msg s =
             Ret (Response.new msg (KServer.node s) (NodesFound l), s') ∧ server_wf s' ∧
             l ⊆ nodes table ∧ length l = Nat.min MAX_NODE_COUNT (length (nodes table))
  | FindValue _ | Store _ _ => KServer.handle_request msg s = Panic
  end.
Proof using All.
  intros Hs Hc table. pose proof (server_caller_fits s _ Hs Hc) as Hf. destruct Hs as (Hw & Hid & Hrest).
  pose proof (conj Hw (conj Hid Hrest)) as Hs.
  unfold KServer.handle_request, KServer.on_service, Service.on_handler, mbind, M_mbind, M_bind, gets.
  destruct (Request.payload msg) as [|id|id|id v].
  - destruct (on_ping_spec (R := R) (Request.caller msg) _ Hw Hf) as (h' & -> & Hr).
    eexists. split; [done|]. by apply (remembers_wf s (Request.caller msg)).
  - pose proof (on_find_node_spec (R := R) (Request.caller msg) id _ Hw Hf) as Hn.
    rewrite Hid in Hn. case_decide; [by rewrite Hn|]. destruct Hn as (l & h' & -> & Hr & Hl%closest_to_subset).
    exists l. eexists. split; [done|]. split; [by apply (remembers_wf s (Request.caller msg))|done].
  - done.
  - done.
Qed.

(** The default server is built with two identities: its table has id 0 and its
    service a random one, so unless the random id is 0 a ping whose sender
    claims id 0 passes the service's test for its own id, reaches the
    table's assertion and panics. *)
Lemma default_server_identity (localhost a : A) (rng : R) (rid : Z) :
  ∃ s, KServer.default localhost rng = Ret s ∧
    let h := Service.handler (KServer.kad_srv s) in
    KNodeTable.this_id (Handler.table h) = Node.id (KServer.node s) ∧
    (Handler.node_id h ≠ Node.id (KServer.node s) →
      KServer.handle_request (Request.new (Node.new 0 a) rid Ping) s = Panic).
Proof using All.
  destruct (new_table_wf 0) as (tb & E & Hwf & _ & Et & Eh).
  unfold KServer.default. rewrite E. unfold Service.new. simpl.
  rewrite Eh. unfold gen, gen_u64, DEFAULT_HASH_SIZE. simpl. eexists. split; [done|]. split; [done|].
  intros Hne. simpl in Hne.
  unfold KServer.handle_request, KServer.on_service, Service.on_handler, Handler.on_ping, Handler.update,
    mbind, M_mbind, M_bind, gets, lift. simpl. rewrite decide_False by done.
  unfold KNodeTable.update. by rewrite Et, decide_True.
Qed.
End server_props.

(** ** The session actor *)

Module KSession.
Section session.
Context {A R : Type} `{Rng R}.
Abbreviation Req := (Request.t Z A bytes).

(** The server and the write half of the connection are fixed. *)
Record t : Type := mk { as_peer : bool; node : Node.t Z A; hb_time : Z }.

(** What [run_later] runs a second later. *)
Inductive Later : Type :=
| LaterPong (node : Node.t Z A)
| LaterPing (ping : Req).
Inductive Fx : Type :=
| RunLater (l : Later)
| WriteFrame (m : KadMessage Z A bytes)
| CtxStop
| SendRequest (r : Req)
| SendDisconnect (id : Z).

Definition new (node : Node.t Z A) (now : Z) : t := mk false node now.
Definition new_peer (node : Node.t Z A) (now : Z) : t := mk true node now.

Definition hb (s : t) : list Fx := [RunLater (LaterPong (node s))].
Definition send_hb (rng : R) (s : t) : outcome (list Fx) :=
  request_id ← gen 64 rng;
  mret [RunLater (LaterPing (Request.new (node s) request_id Ping))].

Definition started (rng : R) (s : t) : outcome (list Fx) :=
  if as_peer s then send_hb rng s else mret [].
Definition stopping (s : t) : list Fx := [SendDisconnect (Node.id (node s))].

(** The body of the two closures, run at [now] in nanoseconds. *)
Definition fire (l : Later) (now : Z) (rng : R) (s : t) : outcome (list Fx) :=
  match l with
  | LaterPong node =>
      request_id ← gen 64 rng;
      let pong := new_p2p_response (Response.new (Request.new node request_id Ping) node NoResult) in
      mret ((if 10 * 1000000000 <? now - hb_time s then [CtxStop] else []) ++ [WriteFrame pong] ++ hb s)
  | LaterPing ping =>
      next ← send_hb rng s;
      mret (WriteFrame (new_p2p_request ping) :: next)
  end.

(** A frame that does not decode is unwrapped; the processing of one that
    does is commented out. *)
Definition handle_stream (msg : result (option (KadMessage Z A bytes)) string) (s : t) : outcome (list Fx) :=
  match msg with
  | Err _ => Panic
  | Ok None => mret []
  | Ok (Some (P2P _)) => mret []
  end.
Definition proccess_raw_msg (msg : P2PMessage Z A bytes) : outcome (list Fx) :=
  match msg with
  | KadServer.Req request => mret [SendRequest request]
  | Resp _ => Panic
  end.
Definition handle_message (_msg : string) (s : t) : t := s.
End session.
Arguments t : clear implicits.
End KSession.

(** *** Accepting and opening connections *)

Section tcp.
Context {A : Type}.
(** [farmhash::hash64], [SocketAddr::to_string] and its inverse. *)
Context (hash64 : string → Z) (addr_to_string : A → string) (addr_parse : string → option A).

(** [peer_addr] fails on a socket that is not connected. *)
Definition handle_tcp_connect (peer_addr : option A) (now : Z) : outcome (KSession.t A) :=
  peer_addr ← unwrap peer_addr;
  let id := hash64 (addr_to_string peer_addr) in
  mret (KSession.new (Node.new id peer_addr) now).
Definition handle_try_connect (addr : A) (now : Z) : outcome (KSession.t A) :=
  let id := hash64 (addr_to_string addr) in
  peer_addr ← unwrap (addr_parse (addr_to_string addr));
  mret (KSession.new_peer (Node.new id peer_addr) now).
End tcp.

(** ** The client *)

Module Client.
Section client.
Context {A : Type}.
Record t : Type := mk { node : Node.t Z A }.
Inductive Fx : Type :=
| RunLater
| WriteRequest (r : Request.t Z A bytes)
| SystemStop.

Definition hb : list Fx := [RunLater].
Definition started : list Fx := hb.
Definition stopping : list Fx := [SystemStop].
Definition fire (c : t) : list Fx := WriteRequest (Request.new (node c) 100 Ping) :: hb.
(** The caller gets an answer to a ping that was never sent; what was asked
    is written to the connection. *)
Definition handle_request (msg : Request.t Z A bytes) (c : t) : Response.t Z A bytes * list Fx :=
  (Response.new (Request.new (node c) 100 Ping) (node c) NoResult, [WriteRequest msg]).
Definition handle_stream (_msg : result (option (Response.t Z A bytes)) string) : list Fx := [].
End client.
Arguments t : clear implicits.
End Client.

Section session_props.
Context {A R : Type} `{RngLaws R}.

(** A peer session goes on pinging, once a second and with a fresh id each
    time. *)
Lemma peer_session_pings (s : KSession.t A) (now : Z) (rng rng' : R) :
  KSession.as_peer s = true →
  ∃ id id', KSession.started rng s = Ret [KSession.RunLater (KSession.LaterPing (Request.new (KSession.node s) id Ping))] ∧
    KSession.fire (KSession.LaterPing (Request.new (KSession.node s) id Ping)) now rng' s =
      Ret [KSession.WriteFrame (new_p2p_request (Request.new (KSession.node s) id Ping));
           KSession.RunLater (KSession.LaterPing (Request.new (KSession.node s) id' Ping))] ∧
    is_u64 id ∧ is_u64 id'.
Proof.
  intros E. unfold KSession.started, KSession.fire, KSession.send_hb, gen, gen_u64. rewrite E. simpl.
  exists (next_u64 rng).1, (next_u64 rng').1. split_and!; [done|done|apply next_u64_range..].
Qed.
End session_props.
