(* ===== verification/KadCodec.v ===== *)
(** * Encoding of Kademlia ids and nodes ([kad/base.rs] of the p2p crate)

    Ids are written as hexadecimal text ([encode] and [decode] of the trait
    [GenericId], for [u64] and for byte strings), nodes as a structure of an
    address and an id.  The formatting [{:x}] and [u64::from_str_radix] of
    the standard library are written out, and so is the text of an IPv4 socket
    address, with the parser of [Dial]; the text of an IPv6 address is an
    argument about which nothing is assumed.  The encoders and decoders of
    [rustc_serialize] and its hexadecimal text of byte strings are arguments
    with laws. *)

From S2P Require Import Prelude External Text Kad Dial.

(** ** Hexadecimal numbers of the standard library *)

(** [format!("{:x}", n)]: 16 digits are enough for 64 bits. *)
Definition fmt_lower_hex (n : Z) : string := radix_digits 16 16 n EmptyString.

(** [u64::from_str_radix(s, 16)]: one leading plus (43) is skipped, and the
    multiplication and the addition are checked for each digit. *)
Inductive IntErrorKind : Type := Empty | InvalidDigit | Overflow.
Fixpoint parse_digits (s : string) (acc : Z) : result Z IntErrorKind :=
  match s with
  | EmptyString => Ok acc
  | String c s' =>
      match to_digit 16 c with
      | None => Err InvalidDigit
      | Some d =>
          if u64_bound <=? acc * 16 then Err Overflow
          else if u64_bound <=? acc * 16 + d then Err Overflow
          else parse_digits s' (acc * 16 + d)
      end
  end.
Definition from_str_radix_16 (s : string) : result Z IntErrorKind :=
  match s with
  | EmptyString => Err Empty
  | String c s' =>
      let digits := if bool_decide (Ascii.nat_of_ascii c = 43%nat) then s' else s in
      match digits with EmptyString => Err Empty | _ => parse_digits digits 0 end
  end.

(** ** Encoders and decoders *)

(** What is written is a value [J]; a decoder is the value it reads from. *)
Class Serialize (J E : Type) : Type := {
  emit_str : string → result J E;
  emit_struct : string → list (string * J) → result J E;
  read_str : J → result string E;
  (** the decoder inside a structure of that name and number of fields, and
      at one of its fields *)
  read_struct : string → nat → J → result J E;
  read_struct_field : string → nat → J → result J E;
  dec_error : string → E
}.
Class SerializeLaws (J E : Type) `{Serialize J E} : Prop := {
  read_emit_str : ∀ s, ∃ j, emit_str s = Ok j ∧ read_str j = Ok s;
  read_emit_struct : ∀ name fields, ∃ j, emit_struct name fields = Ok j ∧
    ∃ j', read_struct name (length fields) j = Ok j' ∧
    ∀ i f v, fields !! i = Some (f, v) → read_struct_field f i j' = Ok v
}.

(** [ToHex] and [FromHex]; the error is shown in the message of [decode]. *)
Class HexBytes : Type := {
  to_hex : bytes → string;
  from_hex : string → result bytes string
}.
Class HexBytesLaws `{HexBytes} : Prop :=
  from_to_hex : ∀ b, Forall (λ d, 0 ≤ d < 256) b → from_hex (to_hex b) = Ok b.

(** [std::net::SocketAddrV6] with its [Display] and its parser. *)
Class SocketAddrV6s : Type := {
  SocketAddrV6 : Type;
  v6_display : SocketAddrV6 → string;
  v6_from_str : string → option SocketAddrV6
}.

(** [std::net::SocketAddr]: [Display], and [FromStr], which tries the IPv4
    form first and reads the text to its end. *)
Inductive SocketAddr `{SocketAddrV6s} : Type :=
| V4 (a : SocketAddrV4)
| V6 (a : SocketAddrV6).
Definition fmt_socket_addr_v4 (addr : SocketAddrV4) : string :=
  let '(a, b, c, d) := sa_ip addr in fmt_ip4 a b c d (String colon (fmt_u16 (sa_port addr) EmptyString)).
Definition addr_display `{SocketAddrV6s} (addr : SocketAddr) : string :=
  match addr with V4 a => fmt_socket_addr_v4 a | V6 a => v6_display a end.
Definition addr_from_str `{SocketAddrV6s} (s : string) : result SocketAddr AddrParseError :=
  match read_socket_addr_v4 s with
  | Some (a, EmptyString) => Ok (V4 a)
  | Some _ => Err mkAddrParseError
  | None => match v6_from_str s with Some a => Ok (V6 a) | None => Err mkAddrParseError end
  end.

(** The two methods of [GenericId], and the ids they read back. *)
Class IdCodec (J E I : Type) : Type := {
  id_encode : I → result J E;
  id_decode : J → result I E
}.
Class IdCodecLaws (J E I : Type) `{IdCodec J E I} (id_ok : I → Prop) : Prop :=
  id_decode_encode : ∀ i, id_ok i → ∃ j, id_encode i = Ok j ∧ id_decode j = Ok i.

Section codec.
Context {J E : Type} `{Serialize J E} `{HexBytes}.
(** [{:?}] of a parse error. *)
Context (int_error_debug : IntErrorKind → string).

Definition id_error (s e : string) : E :=
  dec_error ("Expected hex-encoded ID, got " +:+ s +:+ ", error " +:+ e).

Definition u64_encode (self : Z) : result J E := emit_str (fmt_lower_hex self).
Definition u64_decode (d : J) : result Z E :=
  match read_str d with
  | Err e => Err e
  | Ok s =>
      match from_str_radix_16 s with
      | Ok v => Ok v
      | Err e => Err (id_error s (int_error_debug e))
      end
  end.

Definition bytes_encode (self : bytes) : result J E := emit_str (to_hex self).
Definition bytes_decode (d : J) : result bytes E :=
  match read_str d with
  | Err e => Err e
  | Ok s => match from_hex s with Ok v => Ok v | Err e => Err (id_error s e) end
  end.

#[global] Instance u64_id_codec : IdCodec J E Z := { id_encode := u64_encode; id_decode := u64_decode }.
#[global] Instance bytes_id_codec : IdCodec J E bytes := { id_encode := bytes_encode; id_decode := bytes_decode }.
End codec.

Section node_codec.
Context {J E I : Type} `{Serialize J E} `{IC : IdCodec J E I} `{SocketAddrV6s}.
(** [{:?}] of a parse error. *)
Context (addr_error_debug : AddrParseError → string).

Definition node_encode (self : Kad.Node.t I SocketAddr) : result J E :=
  match emit_str (addr_display (Kad.Node.address self)) with
  | Err e => Err e
  | Ok addr =>
      match id_encode (Kad.Node.id self) with
      | Err e => Err e
      | Ok id => emit_struct "Node" [("address"%string, addr); ("id"%string, id)]
      end
  end.

Definition addr_decode (d2 : J) : result SocketAddr E :=
  match read_str d2 with
  | Err e => Err e
  | Ok s =>
      match addr_from_str s with
      | Ok addr => Ok addr
      | Err e => Err (dec_error ("Expected socket address, got " +:+ s +:+ ", error " +:+ addr_error_debug e))
      end
  end.
Definition node_decode (d : J) : result (Kad.Node.t I SocketAddr) E :=
  match read_struct "Node" 2 d with
  | Err e => Err e
  | Ok d =>
      match read_struct_field "address" 0 d with
      | Err e => Err e
      | Ok d2 =>
          match addr_decode d2 with
          | Err e => Err e
          | Ok addr =>
              match read_struct_field "id" 1 d with
              | Err e => Err e
              | Ok d2 =>
                  match id_decode d2 with
                  | Err e => Err e
                  | Ok id => Ok (Kad.Node.mk addr id)
                  end
              end
          end
      end
  end.
End node_codec.

(** ** Numbers and their text *)

Abbreviation hex_value := (radix_value 16).

(** The checks refuse exactly the numbers that do not fit. *)
Lemma parse_digits_spec s acc v :
  is_u64 acc → parse_digits s acc = Ok v ↔ hex_value s acc = Some v ∧ v < u64_bound.
Proof.
  revert acc. induction s as [|c s IH]; simpl; intros acc [Ha Hb].
  { split; [intros [= <-]; done|by intros [[= <-] _]]. }
  destruct (to_digit 16 c) as [d|] eqn:Ed; [|by split; [|intros []]]. apply to_digit_range in Ed.
  destruct (Z.leb_spec u64_bound (acc * 16)); [|destruct (Z.leb_spec u64_bound (acc * 16 + d))].
  1, 2: split; [done|]; intros [Hv%radix_value_grows Hlt]; lia.
  apply IH. split; lia.
Qed.

Lemma from_str_radix_16_spec s v :
  from_str_radix_16 s = Ok v ↔
    ∃ digits, digits ≠ EmptyString ∧ (s = digits ∨ ∃ c, Ascii.nat_of_ascii c = 43%nat ∧ s = String c digits) ∧
      hex_value digits 0 = Some v ∧ v < u64_bound.
Proof.
  assert (∀ l, parse_digits l 0 = Ok v ↔ hex_value l 0 = Some v ∧ v < u64_bound) as Hp.
  { intros l. apply parse_digits_spec. by split. }
  assert (∀ c l, Ascii.nat_of_ascii c = 43%nat → hex_value (String c l) 0 = None) as Hplus.
  { intros c l Ec. simpl. unfold to_digit, to_digit16. by rewrite Ec. }
  destruct s as [|c s]; simpl.
  { split; [done|]. intros (l & Hl & [<-|(? & ? & ?)] & _); done. }
  case_bool_decide as Ec.
  - transitivity (s ≠ EmptyString ∧ hex_value s 0 = Some v ∧ v < u64_bound).
    { rewrite <-Hp. destruct s; [|by split; [|intros []]]. by split; [|intros []]. }
    split; [intros (Hs & Hv & Hlt); exists s; by eauto 7|].
    intros (l & Hl & Hs & Hv). destruct Hs as [<-|(c' & _ & Es)]; [|by injection Es as _ ->].
    destruct Hv as [Hv _]. by rewrite Hplus in Hv.
  - rewrite Hp. split; [intros Hv; exists (String c s); by auto|].
    intros (l & Hl & Hs & Hv). destruct Hs as [<-|(c' & Ec' & Es)]; [done|]. by injection Es as ->.
Qed.

Lemma hex_roundtrip n : is_u64 n → from_str_radix_16 (fmt_lower_hex n) = Ok n.
Proof.
  intros [H0 Hn]. apply from_str_radix_16_spec. exists (fmt_lower_hex n). split_and!; [|by left| |done].
  - unfold fmt_lower_hex. by destruct (radix_digits_first 16 ltac:(lia) 15 n EmptyString) as (d & s & -> & _).
  - unfold fmt_lower_hex. by rewrite radix_digits_value.
Qed.

(** An IPv4 address and its text; the fields are bytes and a [u16]. *)
Definition v4_ok (addr : SocketAddrV4) : Prop :=
  let '(a, b, c, d) := sa_ip addr in Forall (λ x, 0 ≤ x < 256) [a; b; c; d] ∧ 0 ≤ sa_port addr < 65536.

Lemma v4_roundtrip `{SocketAddrV6s} addr : v4_ok addr → addr_from_str (addr_display (V4 addr)) = Ok (V4 addr).
Proof.
  destruct addr as [[[[a b] c] d] port]. intros [Hip Hport]. simpl in Hport.
  unfold addr_from_str, read_socket_addr_v4. simpl. unfold fmt_socket_addr_v4. simpl.
  rewrite read_ip4_text by done. simpl. unfold fmt_u16. by rewrite read_fmt by (lia || done).
Qed.

(** ** Round trips *)

Section roundtrips.
Context {J E : Type} `{SerializeLaws J E} (int_error_debug : IntErrorKind → string).

#[global] Instance u64_id_codec_laws : @IdCodecLaws J E Z (u64_id_codec int_error_debug) is_u64.
Proof.
  intros n Hn. destruct (read_emit_str (fmt_lower_hex n)) as (j & Ej & Er). exists j. split; [done|].
  simpl. unfold u64_decode. by rewrite Er, hex_roundtrip.
Qed.

#[global] Instance bytes_id_codec_laws `{HexBytesLaws} :
  IdCodecLaws J E bytes (Forall (λ d, 0 ≤ d < 256)).
Proof.
  intros b Hb. destruct (read_emit_str (to_hex b)) as (j & Ej & Er). exists j. split; [done|].
  simpl. unfold bytes_decode. by rewrite Er, from_to_hex.
Qed.

(** C38 A 64-bit id is read from exactly the texts that spell one: [decode]
    succeeds if and only if the decoder yields a string of one or more
    hexadecimal digits of either case, after at most one plus sign, whose
    value is below [2 ^ 64], and the id is that value; too long a number is
    an error, as is any other text, never a wrapped number or a panic. *)
Theorem kad_id_bounds (d : J) (v : Z) :
  u64_decode int_error_debug d = Ok v ↔
    ∃ s digits, read_str d = Ok s ∧ digits ≠ EmptyString ∧
      (s = digits ∨ ∃ c, Ascii.nat_of_ascii c = 43%nat ∧ s = String c digits) ∧
      hex_value digits 0 = Some v ∧ v < u64_bound.
Proof.
  unfold u64_decode. destruct (read_str d) as [s|e]; [|by split; [|intros (? & ? & ? & _)]].
  pose proof (from_str_radix_16_spec s v) as Hs. split.
  - destruct (from_str_radix_16 s) as [v'|]; [|done]. intros [= ->]. destruct (proj1 Hs eq_refl) as (l & Hl). eauto.
  - intros (s' & l & [= <-] & Hl). by rewrite (proj2 Hs (ex_intro _ l Hl)).
Qed.

(** A node whose address and id are read back is read back. *)
Lemma node_roundtrip {I : Type} `{SocketAddrV6s} `{!IdCodec J E I} (id_ok : I → Prop) `{!IdCodecLaws J E I id_ok}
    (addr_error_debug : AddrParseError → string) (id : I) (a : SocketAddrV4) :
  v4_ok a → id_ok id →
  ∃ j, node_encode (Kad.Node.new id (V4 a)) = Ok j ∧ node_decode addr_error_debug j = Ok (Kad.Node.new id (V4 a)).
Proof.
  intros Ha Hid. unfold node_encode. destruct (read_emit_str (addr_display (V4 a))) as (ja & Ea & Ra).
  destruct (id_decode_encode _ Hid) as (ji & Ei & Ri). simpl in Ea |- *. rewrite Ea, Ei.
  destruct (read_emit_struct "Node" [("address"%string, ja); ("id"%string, ji)]) as (j & -> & j' & Rs & Rf).
  exists j. split; [done|]. unfold node_decode. simpl in Rs. rewrite Rs.
  rewrite (Rf 0%nat "address"%string ja), (Rf 1%nat "id"%string ji) by done.
  unfold addr_decode. by rewrite Ra, v4_roundtrip, Ri.
Qed.

(** C37 What is sent as a node with an IPv4 address arrives as that node: for
    every address and port, an id of 64 bits or of any number of bytes,
    encoding the node succeeds and decoding the result gives its address and
    its id. *)
Theorem kad_node_roundtrip `{SocketAddrV6s} `{HexBytesLaws} (addr_error_debug : AddrParseError → string)
    (a : SocketAddrV4) (id : Z) (hash : bytes) :
  v4_ok a →
  (is_u64 id → let n := Kad.Node.new id (V4 a) in
    ∃ j, node_encode (IC := u64_id_codec int_error_debug) n = Ok j ∧
      node_decode (IC := u64_id_codec int_error_debug) addr_error_debug j = Ok n) ∧
  (Forall (λ d, 0 ≤ d < 256) hash → let n := Kad.Node.new hash (V4 a) in
    ∃ j, node_encode n = Ok j ∧ node_decode addr_error_debug j = Ok n).
Proof.
  intros Ha. split; intros Hid.
  - by apply (node_roundtrip is_u64).
  - by apply (node_roundtrip (Forall (λ d, 0 ≤ d < 256))).
Qed.
End roundtrips.
