(* ===== verification/TxPool.v ===== *)
(** * The transaction pool ([src/core/tx_pool.rs], [transaction_pool.rs])

    [BaseTxPool] spreads the transactions over 10000 maps by their hash and
    keeps a queue of their hashes by amount beside them.  The pool is shown
    to behave as one map from hashes to transactions, and what its queue
    does to [get_n_tx] is spelt out.  [transaction_pool.rs] adapts transactions
    to another pool, which is not used. *)

From S2P Require Import Prelude External Types.

Definition MAX_TXPOOL_SIZE : Z := 10000000.
Definition MAX_SLOT_SIZE : Z := 1000.

(** [TxPoolError]; no operation returns it. *)
Inductive TxPoolError : Type := MoreThanMaxSIZE (n : Z).

Module BaseTxPool.
Section pool.
Context {Q : Type} `{PriorityQueue Q Hash Z, U256}.

Record t : Type := mk { pq : Q; txs : list (gmap Hash Transaction.t) }.

Definition new : t :=
  let n := Z.to_nat (MAX_TXPOOL_SIZE / MAX_SLOT_SIZE) in
  mk pq_new (replicate n ∅).

(** Division by zero on an empty vector. *)
Definition get_idx (tx_hash : Hash) (p : t) : outcome nat :=
  if (length (txs p) =? 0)%nat then Panic
  else mret (Z.to_nat (u256_from_bytes tx_hash mod Z.of_nat (length (txs p)))).

(** The number of maps, not of transactions. *)
Definition len (p : t) : nat := length (txs p).

Definition get_tx (tx_hash : Hash) (p : t) : outcome (option Transaction.t) :=
  idx ← get_idx tx_hash p;
  m ← unwrap (txs p !! idx);
  mret (m !! tx_hash).

(** The loop of [get_n_tx]; its counter [i] is never incremented. *)
Fixpoint collect (p : t) (i n : Z) (entries : list (Hash * Z)) : outcome (list Transaction.t) :=
  match entries with
  | [] => mret []
  | (tx_hash, _) :: rest =>
      if n <=? i then mret []
      else
        idx ← get_idx tx_hash p;
        m ← unwrap (txs p !! idx);
        tx ← unwrap (m !! tx_hash);
        l ← collect p i n rest;
        mret (tx :: l)
  end.
Definition get_n_tx (n : Z) (p : t) : outcome (list Transaction.t) := collect p 0 n (pq_iter (pq p)).

Definition add_tx (tx : Transaction.t) : M t (result Z TxPoolError) :=
  p ← gets (λ p, p);
  h ← lift (unwrap (Transaction.get_hash tx));
  idx ← lift (get_idx h p);
  v ← lift (unwrap (txs p !! idx));
  match v !! h with
  | Some _ => mret (Ok (Z.of_nat (pq_len (pq p))))
  | None =>
      modify (λ p, mk (pq p) (<[idx := <[h := tx]> v]> (txs p)));;
      modify (λ p, mk (pq_push h (Transaction.amount tx) (pq p)) (txs p));;
      p ← gets (λ p, p);
      mret (Ok (Z.of_nat (pq_len (pq p))))
  end.

Fixpoint add_each (start : Z) (l : list Transaction.t) : M t (result Z TxPoolError) :=
  match l with
  | [] => mret (Ok start)
  | tx :: rest => _ ←? add_tx tx; add_each (start + 1) rest
  end.
Definition add_txs (l : list Transaction.t) : M t (result Z TxPoolError) := add_each 0 l.

(** The queue keeps the hashes of what is removed. *)
Fixpoint remove_txs (tx_hashes : list Hash) : M t unit :=
  match tx_hashes with
  | [] => mret tt
  | h :: rest =>
      p ← gets (λ p, p);
      idx ← lift (get_idx h p);
      m ← lift (unwrap (txs p !! idx));
      modify (λ p, mk (pq p) (<[idx := delete h m]> (txs p)));;
      remove_txs rest
  end.
End pool.
Arguments t : clear implicits.
End BaseTxPool.

(** ** The adapter *)

Module TransactionBuilder.
Record t : Type := mk { nonce : Z; gas_price : Z; gas : Z; sender : Address; mem_usage : Z }.
Definition default : t := mk 0 0 0 EMPTY_ADDRESS 0.
Definition tx (b : t) : t := b.
Definition set_nonce (x : Z) (b : t) : t := mk x (gas_price b) (gas b) (sender b) (mem_usage b).
Definition set_gas_price (x : Z) (b : t) : t := mk (nonce b) x (gas b) (sender b) (mem_usage b).
Definition set_sender (x : Address) (b : t) : t := mk (nonce b) (gas_price b) (gas b) x (mem_usage b).
Definition set_mem_usage (x : Z) (b : t) : t := mk (nonce b) (gas_price b) (gas b) (sender b) x.
End TransactionBuilder.

(** [VerifiedTransaction for Transaction]; the "sender" is the recipient. *)
Module VerifiedTransaction.
Definition hash (tx : Transaction.t) : outcome Hash := unwrap (Transaction.get_hash tx).
Definition mem_usage (_ : Transaction.t) : Z := 0.
Definition sender (tx : Transaction.t) : outcome Address := unwrap (Transaction.recipient tx).
End VerifiedTransaction.

(** ** The pool as a map *)

Section pool_props.
Context {Q : Type} `{PriorityQueue Q Hash Z, !PriorityQueueLaws Q Hash Z, U256Laws}.
Implicit Types (p : BaseTxPool.t Q) (m : gmap Hash Transaction.t).

(** [m] is what the pool holds, and [q] the hashes its queue knows. *)
Record pool_rep p m : Prop := {
  rep_slots : (0 < length (BaseTxPool.txs p))%nat;
  rep_tx : ∀ h, BaseTxPool.get_tx h p = Ret (m !! h);
  rep_queue : NoDup (pq_iter (BaseTxPool.pq p)).*1;
  rep_queued : ∀ h, is_Some (m !! h) → h ∈ (pq_iter (BaseTxPool.pq p)).*1
}.

Lemma get_idx_total h p :
  (0 < length (BaseTxPool.txs p))%nat →
  ∃ i v, BaseTxPool.get_idx h p = Ret i ∧ BaseTxPool.txs p !! i = Some v.
Proof.
  intros Hl. unfold BaseTxPool.get_idx. destruct (Nat.eqb_spec (length (BaseTxPool.txs p)) 0); [lia|].
  pose proof (Z.mod_pos_bound (u256_from_bytes h) (Z.of_nat (length (BaseTxPool.txs p))) ltac:(lia)).
  destruct (lookup_lt_is_Some_2 (BaseTxPool.txs p)
    (Z.to_nat (u256_from_bytes h mod Z.of_nat (length (BaseTxPool.txs p))))) as [v Hv]; [lia|]. eauto.
Qed.

Lemma get_tx_slot h p i v :
  BaseTxPool.get_idx h p = Ret i → BaseTxPool.txs p !! i = Some v → BaseTxPool.get_tx h p = Ret (v !! h).
Proof. intros E1 E2. unfold BaseTxPool.get_tx. rewrite E1. simpl. by rewrite E2. Qed.

Lemma get_idx_length h p p' :
  length (BaseTxPool.txs p') = length (BaseTxPool.txs p) → BaseTxPool.get_idx h p' = BaseTxPool.get_idx h p.
Proof. intros E. unfold BaseTxPool.get_idx. by rewrite E. Qed.

(** Changing the map of [h] at [h] only. *)
Lemma slot_update (f : gmap Hash Transaction.t → gmap Hash Transaction.t) h p m i v (q : Q) :
  (∀ h', BaseTxPool.get_tx h' p = Ret (m !! h')) → (0 < length (BaseTxPool.txs p))%nat →
  BaseTxPool.get_idx h p = Ret i → BaseTxPool.txs p !! i = Some v →
  (∀ h', h' ≠ h → f v !! h' = v !! h') →
  let p' := BaseTxPool.mk q (<[i := f v]> (BaseTxPool.txs p)) in
  ∀ h', BaseTxPool.get_tx h' p' = Ret (if decide (h' = h) then f v !! h else m !! h').
Proof.
  intros Hm Hl Hi Hv Hf p' h'.
  assert (length (BaseTxPool.txs p') = length (BaseTxPool.txs p)) as El by apply length_insert.
  pose proof (lookup_lt_Some _ _ _ Hv) as Hlt.
  destruct (get_idx_total h' p Hl) as (i' & v' & Hi' & Hv').
  pose proof (Hm h') as Hm'. rewrite (get_tx_slot _ _ _ _ Hi' Hv') in Hm'. injection Hm' as Hm'.
  destruct (decide (i' = i)) as [->|Hne].
  - rewrite (get_tx_slot h' p' i (f v)).
    + rewrite Hv in Hv'. injection Hv' as <-. case_decide as E; [by rewrite E|]. by rewrite Hf, Hm'.
    + by rewrite (get_idx_length h' p).
    + by apply list_lookup_insert_eq.
  - rewrite (get_tx_slot h' p' i' v').
    + rewrite Hm'. case_decide as E; [|done]. subst. congruence.
    + by rewrite (get_idx_length h' p).
    + simpl. by rewrite list_lookup_insert_ne.
Qed.

Lemma new_rep : pool_rep BaseTxPool.new ∅.
Proof using All.
  assert (0 < length (BaseTxPool.txs (BaseTxPool.new (Q := Q))))%nat as Hl.
  { unfold BaseTxPool.new. cbn [BaseTxPool.txs]. rewrite length_replicate.
    change (MAX_TXPOOL_SIZE / MAX_SLOT_SIZE) with 10000. lia. }
  split; [done| | |].
  - intros h. destruct (get_idx_total h _ Hl) as (i & v & Hi & Hv). rewrite (get_tx_slot _ _ _ _ Hi Hv).
    unfold BaseTxPool.new in Hv. cbn [BaseTxPool.txs] in Hv. apply lookup_replicate in Hv as [-> _]. done.
  - unfold BaseTxPool.new. cbn [BaseTxPool.pq]. rewrite pq_iter_new. constructor.
  - intros h. rewrite lookup_empty. by intros [? ?].
Qed.

(** Adding: a transaction that is known stays as it is. *)
Definition add_map (h : Hash) (tx : Transaction.t) m : gmap Hash Transaction.t :=
  match m !! h with Some _ => m | None => <[h := tx]> m end.

Lemma add_map_lookup h tx m h' :
  add_map h tx m !! h' = if decide (h' = h) then Some (default tx (m !! h)) else m !! h'.
Proof.
  unfold add_map. destruct (m !! h) as [tx0|] eqn:E; case_decide as Eh; subst; simpl; [done|done| |].
  - by rewrite lookup_insert_eq.
  - by rewrite lookup_insert_ne.
Qed.

Lemma queue_push h (a : Z) (q : Q) :
  NoDup (pq_iter q).*1 →
  NoDup (pq_iter (pq_push h a q)).*1 ∧
  ∀ h', h' ∈ (pq_iter (pq_push h a q)).*1 ↔ h' = h ∨ h' ∈ (pq_iter q).*1.
Proof.
  intros Hd. pose proof (pq_iter_push h a q) as Hp.
  assert (∀ h', h' ∈ (filter (λ x, x.1 ≠ h) (pq_iter q)).*1 ↔ h' ≠ h ∧ h' ∈ (pq_iter q).*1) as Hf.
  { intros h'. rewrite !list_elem_of_fmap. setoid_rewrite list_elem_of_filter. naive_solver. }
  split.
  - rewrite Hp. simpl. constructor; [by intros [? _]%Hf|].
    eapply sublist_NoDup; [exact Hd|]. apply fmap_sublist, sublist_filter.
  - intros h'. rewrite Hp. simpl. rewrite elem_of_cons, Hf. destruct (decide (h' = h)); naive_solver.
Qed.

Lemma add_tx_spec tx h p m :
  pool_rep p m → Transaction.get_hash tx = Some h →
  ∃ p', BaseTxPool.add_tx tx p = Ret (Ok (Z.of_nat (pq_len (BaseTxPool.pq p'))), p') ∧
    pool_rep p' (add_map h tx m).
Proof using All.
  intros [Hl Hm Hq Hqd] Eh. destruct (get_idx_total h p Hl) as (i & v & Hi & Hv).
  pose proof (Hm h) as Hmh. rewrite (get_tx_slot _ _ _ _ Hi Hv) in Hmh. injection Hmh as Hmh.
  unfold BaseTxPool.add_tx, mbind, M_mbind, M_bind, gets, lift. rewrite Eh. simpl. rewrite Hi, Hv. simpl.
  unfold add_map. rewrite <-Hmh. destruct (v !! h) as [tx0|] eqn:Ev.
  { exists p. split; [done|]. by split. }
  exists (BaseTxPool.mk (pq_push h (Transaction.amount tx) (BaseTxPool.pq p)) (<[i := <[h := tx]> v]> (BaseTxPool.txs p))).
  split; [done|].
  destruct (queue_push h (Transaction.amount tx) (BaseTxPool.pq p) Hq) as [Hd Hp].
  split; cbn [BaseTxPool.txs BaseTxPool.pq].
  - by rewrite length_insert.
  - intros h'. pose proof (slot_update (λ v, <[h := tx]> v) h p m i v (pq_push h (Transaction.amount tx) (BaseTxPool.pq p))
      Hm Hl Hi Hv) as Hs. rewrite Hs; [|intros; by rewrite lookup_insert_ne].
    rewrite !lookup_insert. repeat case_decide; congruence.
  - done.
  - intros h'. rewrite Hp, lookup_insert_is_Some. intros [->|[_ ?]]; [by left|right; auto].
Qed.

Lemma add_each_spec (l : list Transaction.t) (hs : list Hash) (start : Z) p m :
  pool_rep p m → Transaction.get_hash <$> l = Some <$> hs →
  ∃ p', BaseTxPool.add_each start l p = Ret (Ok (start + Z.of_nat (length l)), p') ∧
    pool_rep p' (foldl (λ m '(h, tx), add_map h tx m) m (zip hs l)).
Proof using All.
  revert hs start p m. induction l as [|tx l IH]; intros [|h hs] start p m Hr E; try done.
  { exists p. simpl. by rewrite Z.add_0_r. }
  injection E as Eh E. destruct (add_tx_spec tx h p m Hr Eh) as (p1 & E1 & Hr1).
  destruct (IH hs (start + 1) p1 _ Hr1 E) as (p' & E' & Hr'). exists p'. split; [|exact Hr'].
  cbn [BaseTxPool.add_each]. unfold try_bind, mbind, M_mbind, M_bind. rewrite E1, E'. do 3 f_equal. simpl. lia.
Qed.

Lemma remove_txs_spec (hs : list Hash) p m :
  pool_rep p m →
  ∃ p', BaseTxPool.remove_txs hs p = Ret (tt, p') ∧ BaseTxPool.pq p' = BaseTxPool.pq p ∧
    pool_rep p' (filter (λ x, x.1 ∉ hs) m).
Proof using All.
  revert p m. induction hs as [|h hs IH]; intros p m Hr.
  { exists p. split_and!; [done|done|]. rewrite map_filter_id; [done|]. intros i x _. simpl. set_solver. }
  pose proof Hr as [Hl Hm Hq Hqd]. destruct (get_idx_total h p Hl) as (i & v & Hi & Hv).
  set (p1 := BaseTxPool.mk (BaseTxPool.pq p) (<[i := delete h v]> (BaseTxPool.txs p))).
  assert (pool_rep p1 (delete h m)) as Hr1.
  { split; simpl; [by rewrite length_insert| |done|].
    - intros h'. pose proof (slot_update (λ v, delete h v) h p m i v (BaseTxPool.pq p) Hm Hl Hi Hv) as Hs.
      rewrite Hs; [|intros; by rewrite lookup_delete_ne]. rewrite !lookup_delete.
      repeat case_decide; congruence.
    - intros h' [_ Hh]%lookup_delete_is_Some. auto. }
  destruct (IH p1 _ Hr1) as (p' & E' & Eq & Hr'). exists p'. split_and!; [|done|].
  - cbn [BaseTxPool.remove_txs]. unfold mbind, M_mbind, M_bind, gets, lift. rewrite Hi. simpl. rewrite Hv. exact E'.
  - replace (filter (λ x, x.1 ∉ h :: hs) m) with (filter (λ x, x.1 ∉ hs) (delete h m)); [done|].
    apply map_eq. intros h'. apply option_eq. intros tx. rewrite !map_lookup_filter_Some, lookup_delete_Some.
    simpl. rewrite not_elem_of_cons. naive_solver.
Qed.

(** C30 The pool is a map from hashes to transactions: on a pool whose [get_tx]
    looks up [m], [add_tx] of a transaction whose hash is set
    always succeeds, adds it unless its hash is known and tells the length of
    the queue; [add_txs] adds the transactions in order and tells how many
    were given; [remove_txs] removes exactly the given hashes.  The bound of
    [TxPoolError] is never enforced.  A new pool holds nothing. *)
Theorem txpool_refines_map (p : BaseTxPool.t Q) (m : gmap Hash Transaction.t) (tx : Transaction.t)
    (h : Hash) (l : list Transaction.t) (hs : list Hash) :
  pool_rep p m → Transaction.get_hash tx = Some h → Transaction.get_hash <$> l = Some <$> hs →
  (∃ p', BaseTxPool.add_tx tx p = Ret (Ok (Z.of_nat (pq_len (BaseTxPool.pq p'))), p') ∧
    pool_rep p' (add_map h tx m)) ∧
  (∃ p', BaseTxPool.add_txs l p = Ret (Ok (Z.of_nat (length l)), p') ∧
    pool_rep p' (foldl (λ m '(h, tx), add_map h tx m) m (zip hs l))) ∧
  (∃ p', BaseTxPool.remove_txs hs p = Ret (tt, p') ∧ pool_rep p' (filter (λ x, x.1 ∉ hs) m)) ∧
  pool_rep BaseTxPool.new ∅.
Proof using All.
  intros Hr Eh El. split_and!; [by apply add_tx_spec| | |apply new_rep].
  - destruct (add_each_spec l hs 0 p m Hr El) as (p' & E & Hr'). by exists p'.
  - destruct (remove_txs_spec hs p m Hr) as (p' & E & _ & Hr'). by exists p'.
Qed.

Lemma collect_all p m (entries : list (Hash * Z)) (n : Z) :
  pool_rep p m → 0 < n → (∀ h, h ∈ entries.*1 → is_Some (m !! h)) →
  BaseTxPool.collect p 0 n entries = Ret (omap (λ h, m !! h) entries.*1).
Proof using All.
  intros [Hl Hm _ _] Hn. induction entries as [|[h a] entries IH]; intros He; [done|].
  specialize (IH (λ h' Hh, He h' (list_elem_of_further _ _ _ Hh))).
  destruct (He h) as [tx Htx]; [by left|]. simpl. rewrite Htx.
  destruct (Z.leb_spec n 0); [lia|]. destruct (get_idx_total h p Hl) as (i & v & Hi & Hv).
  specialize (Hm h). rewrite (get_tx_slot _ _ _ _ Hi Hv), Htx in Hm. injection Hm as Hm.
  rewrite Hi. simpl. rewrite Hv. simpl. rewrite Hm. simpl. by rewrite IH.
Qed.

Lemma omap_lookup_list m (l : list (Hash * Transaction.t)) :
  (∀ e, e ∈ l → m !! e.1 = Some e.2) → omap (λ h, m !! h) l.*1 = l.*2.
Proof.
  induction l as [|[h tx] l IH]; intros He; [done|]. simpl.
  pose proof (He (h, tx) (list_elem_of_here _ _)) as E. simpl in E. rewrite E.
  f_equal. apply IH. intros e Hin. apply He. by right.
Qed.

Lemma collect_missing p m (entries : list (Hash * Z)) (n : Z) h :
  pool_rep p m → 0 < n → h ∈ entries.*1 → m !! h = None → BaseTxPool.collect p 0 n entries = Panic.
Proof using All.
  intros [Hl Hm _ _] Hn Hin Hh. induction entries as [|[h' a] entries IH]; [by apply not_elem_of_nil in Hin|].
  simpl. destruct (Z.leb_spec n 0); [lia|]. destruct (get_idx_total h' p Hl) as (i & v & Hi & Hv).
  pose proof (Hm h') as Hm'. rewrite (get_tx_slot _ _ _ _ Hi Hv) in Hm'. injection Hm' as Hm'.
  rewrite Hi. simpl. rewrite Hv. simpl. rewrite Hm'. simpl in Hin. apply elem_of_cons in Hin as [<-|Hin].
  - by rewrite Hh.
  - destruct (m !! h'); simpl; [|done]. by rewrite IH.
Qed.

(** [get_n_tx] does not count and does not survive a removal: asked for any
    number but zero it returns every transaction of the pool, once each, and
    after [remove_txs] of a transaction the pool held it panics, whatever
    number it is asked for, since the queue still has its hash. *)
Lemma get_n_tx_ignores_n (p : BaseTxPool.t Q) (m : gmap Hash Transaction.t) (n : Z) (h : Hash) :
  pool_rep p m → (∀ h', h' ∈ (pq_iter (BaseTxPool.pq p)).*1 → is_Some (m !! h')) → 0 < n →
  is_Some (m !! h) →
  BaseTxPool.get_n_tx 0 p = Ret [] ∧
  (∃ l, BaseTxPool.get_n_tx n p = Ret l ∧ l ≡ₚ (map_to_list m).*2) ∧
  ∃ p', BaseTxPool.remove_txs [h] p = Ret (tt, p') ∧ BaseTxPool.get_n_tx n p' = Panic.
Proof using All.
  intros Hr Hq Hn Hh. split_and!.
  - unfold BaseTxPool.get_n_tx. by destruct (pq_iter _) as [|[? ?] ?].
  - eexists. split; [exact (collect_all p m _ n Hr Hn Hq)|].
    rewrite <-(omap_lookup_list m (map_to_list m)); [|by intros [h' tx] Hin%elem_of_map_to_list].
    apply omap_Permutation, NoDup_Permutation; [apply Hr|apply NoDup_fst_map_to_list|].
    intros h'. split; [|intros Hin; apply Hr].
    + intros [tx Htx]%Hq. apply list_elem_of_fmap. exists (h', tx). by rewrite elem_of_map_to_list.
    + apply list_elem_of_fmap in Hin as ([h1 tx] & -> & Hin%elem_of_map_to_list). by eexists.
  - destruct (remove_txs_spec [h] p m Hr) as (p' & E & Eq & Hr'). exists p'. split; [done|].
    unfold BaseTxPool.get_n_tx. rewrite Eq. apply (collect_missing p' _ _ n h Hr' Hn).
    + by apply Hr.
    + apply map_lookup_filter_None. right. intros tx _. simpl. set_solver.
Qed.
End pool_props.
