(* ===== verification/Dpos.v ===== *)
(** * Slots and delegates ([src/consensus/dpos/])

    The slot arithmetic of [slot.rs] on [i64], the delegate of a slot and the
    check of a block against its slot of [delegates.rs], and the comparison of
    [util.rs] with the lossy UTF-8 decoding it relies on.  The directory is
    not part of the crate's module tree yet. *)

From Stdlib Require Import SpecFloat.
From S2P Require Import Prelude External Types.

(** ** [i64] arithmetic, which panics on overflow *)

Definition is_i64 (x : Z) : Prop := - 2 ^ 63 ≤ x < 2 ^ 63.
Definition i64 (x : Z) : outcome Z := if (- 2 ^ 63 <=? x) && (x <? 2 ^ 63) then mret x else Panic.

Lemma i64_fits x : is_i64 x → i64 x = Ret x.
Proof.
  intros [? ?]. unfold i64. destruct (Z.leb_spec (- 2 ^ 63) x); [|lia].
  by destruct (Z.ltb_spec x (2 ^ 63)); [|lia].
Qed.

(** ** Slots *)

Definition INTERVAL : Z := 3.
Definition DELEGATES : Z := 11.
Definition ACTIVE_DELEGATES : list string :=
  ["a"; "b"; "c"; "d"; "e"; "f"; "g"; "h"; "i"; "j"; "k"]%string.
Definition get_active_delegates (_height : Height) : list string := ACTIVE_DELEGATES.

(** Fri, 14 Jul 2017 02:40:00 +0000 in seconds of the Unix epoch. *)
Definition begin_epoch_time : Z := 1500000000.
Definition epoch_time (sec : Z) : outcome Z := i64 (sec - begin_epoch_time).
Definition get_time (sec : Z) : outcome Z := epoch_time sec.
Definition get_real_time (epoch_spec : Z) : outcome Z :=
  s ← i64 (epoch_spec + begin_epoch_time); i64 (s * 1000).

(** [now] is what [time::get_time] shows, in seconds; the division rounds
    towards zero. *)
Definition get_slot_number (now : Z) (epoch_time : Z) : outcome Z :=
  epoch_time ← (if epoch_time =? 0 then get_time now else mret epoch_time);
  mret (Z.quot epoch_time INTERVAL).
Definition get_slot_time (slot : Z) : outcome Z := i64 (slot * INTERVAL).
Definition get_next_slot (now : Z) : outcome Z :=
  epoch_time ← get_time now;
  slot ← get_slot_number now epoch_time;
  i64 (slot + 1).
Definition get_last_slot (next_slot : Z) : outcome Z := i64 (next_slot + DELEGATES).
Definition round_time (sec : Z) : Z := sec.

(** [f64] as IEEE binary64; [as i64] saturates, and [ceil] of a quotient of
    [i64]s is in range. *)
Definition f64_of_i64 (x : Z) : spec_float := binary_normalize 53 1024 x 0 false.
Definition f64_div : spec_float → spec_float → spec_float := SFdiv 53 1024.
Definition f64_ceil_i64 (x : spec_float) : Z :=
  match x with
  | S754_finite s m e =>
      let v := if s then Zneg m else Zpos m in
      if 0 <=? e then Z.shiftl v e else - Z.shiftr (- v) (- e)
  | _ => 0
  end.
Definition calc_round (height : Z) : Z := f64_ceil_i64 (f64_div (f64_of_i64 height) (f64_of_i64 DELEGATES)).

(** ** Text *)

(** The next character of a byte string and what is left, as
    [String::from_utf8_lossy] reads it: an ill-formed sequence gives the
    replacement character for its longest prefix that could start a
    character. *)
Definition REPLACEMENT : Z := 65533.
Definition between (lo hi x : Z) : bool := (lo <=? x) && (x <=? hi).
Definition is_cont (x : Z) : bool := between 128 191 x.
(** Which second bytes may follow a first byte of a longer sequence. *)
Definition second_ok (b x : Z) : bool :=
  if b =? 224 then between 160 191 x
  else if b =? 237 then between 128 159 x
  else if b =? 240 then between 144 191 x
  else if b =? 244 then between 128 143 x
  else is_cont x.
Definition bits6 (x : Z) : Z := Z.land x 63.
Definition utf8_next (b : Z) (l : bytes) : Z * bytes :=
  if b <? 128 then (b, l)
  else if between 194 223 b then
    match l with
    | x :: l1 => if is_cont x then (Z.shiftl (Z.land b 31) 6 + bits6 x, l1) else (REPLACEMENT, l)
    | [] => (REPLACEMENT, l)
    end
  else if between 224 239 b then
    match l with
    | x :: l1 =>
        if second_ok b x then
          match l1 with
          | y :: l2 => if is_cont y
                       then (Z.shiftl (Z.land b 15) 12 + Z.shiftl (bits6 x) 6 + bits6 y, l2)
                       else (REPLACEMENT, l1)
          | [] => (REPLACEMENT, l1)
          end
        else (REPLACEMENT, l)
    | [] => (REPLACEMENT, l)
    end
  else if between 240 244 b then
    match l with
    | x :: l1 =>
        if second_ok b x then
          match l1 with
          | y :: l2 =>
              if is_cont y then
                match l2 with
                | z :: l3 => if is_cont z
                             then (Z.shiftl (Z.land b 7) 18 + Z.shiftl (bits6 x) 12 + Z.shiftl (bits6 y) 6 + bits6 z, l3)
                             else (REPLACEMENT, l2)
                | [] => (REPLACEMENT, l2)
                end
              else (REPLACEMENT, l1)
          | [] => (REPLACEMENT, l1)
          end
        else (REPLACEMENT, l)
    | [] => (REPLACEMENT, l)
    end
  else (REPLACEMENT, l).

(** Every character takes a byte, so the length is enough fuel. *)
Fixpoint utf8_chars (fuel : nat) (l : bytes) : list Z :=
  match fuel, l with
  | S fuel', b :: l' => let '(c, rest) := utf8_next b l' in c :: utf8_chars fuel' rest
  | _, _ => []
  end.
Definition from_utf8_lossy (l : bytes) : list Z := utf8_chars (length l) l.

(** The characters of an ASCII literal. *)
Definition str_chars (s : string) : list Z :=
  (λ a, Z.of_nat (Ascii.nat_of_ascii a)) <$> String.list_ascii_of_string s.
Definition equal_delegate (a : string) (b : bytes) : bool := bool_decide (from_utf8_lossy b = str_chars a).

(** ** Delegates *)

(** [H160::as_bytes]: 20 bytes, the most significant first. *)
Definition address_bytes (a : Address) : bytes :=
  (λ i, Z.land (Z.shiftr a (8 * (19 - Z.of_nat i))) 255) <$> seq 0 20.

(** Indexing by a [usize]. *)
Definition nth_delegate (l : list string) (i : Z) : option string :=
  if i <? Z.of_nat (length l) then l !! Z.to_nat i else None.

Definition get_block_slot_data (slot : Z) (height : Height) : outcome (option (string * Z)) :=
  let delegates := get_active_delegates height in
  let delegate_pos := Z.rem slot DELEGATES in
  delegate_id ← unwrap (nth_delegate delegates (delegate_pos mod u64_bound));
  time ← get_slot_time slot;
  mret (Some (delegate_id, time)).

Definition validate_block_slot `{CryptoHash Header.t} (now : Z) (block : Block.t) : outcome bool :=
  let delegates := get_active_delegates (Block.height block) in
  let slot_time := as_i64 (Header.time (Block.header block)) in
  current_slot ← get_slot_number now slot_time;
  let idx := (current_slot mod u64_bound) mod Z.of_nat (length delegates) in
  delegate_id ← unwrap (nth_delegate delegates idx);
  mret (equal_delegate delegate_id (address_bytes (Header.proposer (Block.header block)))).

(** ** Properties *)

Lemma utf8_next_consumes b l : (length (utf8_next b l).2 ≤ length l ≤ length (utf8_next b l).2 + 3)%nat.
Proof.
  unfold utf8_next. destruct (b <? 128); [simpl; lia|].
  destruct (between 194 223 b); [destruct l as [|x l1]; [|destruct (is_cont x)]; simpl; lia|].
  destruct (between 224 239 b).
  { destruct l as [|x l1]; [simpl; lia|]. destruct (second_ok b x); [|simpl; lia].
    destruct l1 as [|y l2]; [|destruct (is_cont y)]; simpl; lia. }
  destruct (between 240 244 b); [|simpl; lia].
  destruct l as [|x l1]; [simpl; lia|]. destruct (second_ok b x); [|simpl; lia].
  destruct l1 as [|y l2]; [simpl; lia|]. destruct (is_cont y); [|simpl; lia].
  destruct l2 as [|z l3]; [|destruct (is_cont z)]; simpl; lia.
Qed.

(** A character stands for at most four bytes. *)
Lemma utf8_chars_length fuel l : (length l ≤ fuel)%nat → (length l ≤ 4 * length (utf8_chars fuel l))%nat.
Proof.
  revert l. induction fuel as [|fuel IH]; intros [|b l] Hl; simpl in *; try lia.
  pose proof (utf8_next_consumes b l) as Hc. destruct (utf8_next b l) as [c rest]. simpl in *.
  pose proof (IH rest). lia.
Qed.

Lemma utf8_ascii (l : bytes) : Forall (λ b, 0 ≤ b < 128) l → from_utf8_lossy l = l.
Proof.
  unfold from_utf8_lossy. induction 1 as [|b l Hb _ IH]; [done|]. cbn [length utf8_chars]. unfold utf8_next.
  destruct (Z.ltb_spec b 128); [|lia]. by rewrite IH.
Qed.

(** The comparison is right where the bytes are ASCII text. *)
Lemma equal_delegate_ascii (a : string) (b : bytes) :
  Forall (λ x, 0 ≤ x < 128) b → equal_delegate a b = bool_decide (b = str_chars a).
Proof. intros Hb. unfold equal_delegate. by rewrite utf8_ascii. Qed.

Lemma delegates_spec (i : Z) :
  0 ≤ i < DELEGATES → ∃ d, nth_delegate ACTIVE_DELEGATES i = Some d ∧ length (str_chars d) = 1%nat.
Proof.
  unfold DELEGATES. intros Hi.
  assert (i ∈ [0; 1; 2; 3; 4; 5; 6; 7; 8; 9; 10]) as Hin.
  { rewrite !elem_of_cons. lia. }
  rewrite !elem_of_cons in Hin.
  repeat (destruct Hin as [->|Hin]; [eexists; split; [reflexivity|reflexivity]|]).
  by apply not_elem_of_nil in Hin.
Qed.

Lemma nth_delegate_inj (i j : Z) :
  0 ≤ i < DELEGATES → 0 ≤ j < DELEGATES →
  nth_delegate ACTIVE_DELEGATES i = nth_delegate ACTIVE_DELEGATES j → i = j.
Proof.
  unfold DELEGATES, nth_delegate. intros Hi Hj.
  change (Z.of_nat (length ACTIVE_DELEGATES)) with 11.
  destruct (Z.ltb_spec i 11), (Z.ltb_spec j 11); [|lia..]. intros E.
  assert (NoDup ACTIVE_DELEGATES) as Hd by (refine (bool_decide_unpack _ _); vm_compute; exact I).
  destruct (lookup_lt_is_Some_2 ACTIVE_DELEGATES (Z.to_nat i)) as [d Hdi]; [simpl; lia|].
  pose proof (NoDup_lookup _ _ _ _ Hd Hdi ltac:(by rewrite <-E)). lia.
Qed.

Lemma block_slot_data_spec (slot : Z) (height : Height) :
  0 ≤ slot → is_i64 (slot * INTERVAL) →
  ∃ d, get_block_slot_data slot height = Ret (Some (d, slot * INTERVAL)) ∧
    nth_delegate ACTIVE_DELEGATES (slot mod DELEGATES) = Some d.
Proof.
  intros Hs Hi. unfold get_block_slot_data, get_active_delegates, get_slot_time.
  pose proof (Z.mod_pos_bound slot DELEGATES ltac:(done)) as Hm.
  rewrite Z.rem_mod_nonneg by (unfold DELEGATES; lia). unfold u64_bound.
  rewrite (Z.mod_small (slot mod DELEGATES)) by (unfold DELEGATES in *; lia).
  destruct (delegates_spec _ Hm) as (d & -> & _). rewrite i64_fits by done. by exists d.
Qed.

(** Slots and delegates: a slot begins at three times its number and every time
    within its three seconds belongs to it; the delegate of a slot is the one
    at its number modulo 11, so two slots share a delegate exactly when they
    are a multiple of 11 apart and every delegate has its turn in any 11
    slots.  The first slot is an exception: its time 0 is taken for "not
    given", and [get_slot_number] answers with the slot of the clock. *)
Lemma slot_schedule (now slot slot' t : Z) (height : Height) :
  0 < slot → 0 ≤ slot' → is_i64 (slot * INTERVAL) → is_i64 (slot' * INTERVAL) → 0 ≤ t < INTERVAL →
  (∃ s, get_slot_time slot = Ret s ∧ get_slot_number now (s + t) = Ret slot) ∧
  (∃ d d', get_block_slot_data slot height = Ret (Some (d, slot * INTERVAL)) ∧
     get_block_slot_data slot' height = Ret (Some (d', slot' * INTERVAL)) ∧
     (d = d' ↔ slot mod DELEGATES = slot' mod DELEGATES)) ∧
  (is_i64 (now - begin_epoch_time) →
     get_slot_number now 0 = Ret (Z.quot (now - begin_epoch_time) INTERVAL)).
Proof.
  intros Hs Hs' Hi Hi' Ht. unfold INTERVAL in Ht. split_and!.
  - exists (slot * INTERVAL). unfold get_slot_time. split; [by apply i64_fits|].
    unfold get_slot_number, INTERVAL. destruct (Z.eqb_spec (slot * 3 + t) 0); [lia|]. simpl. f_equal.
    rewrite Z.quot_div_nonneg by lia. symmetry. apply (Z.div_unique _ _ _ t); lia.
  - destruct (block_slot_data_spec slot height) as (d & E & Ed); [lia|done|].
    destruct (block_slot_data_spec slot' height) as (d' & E' & Ed'); [lia|done|].
    exists d, d'. split_and!; [done|done|]. split.
    + intros ->. apply nth_delegate_inj; [apply Z.mod_pos_bound; done..|congruence].
    + intros Em. rewrite Em in Ed. congruence.
  - intros Hn. unfold get_slot_number, get_time, epoch_time. simpl. rewrite i64_fits by done. done.
Qed.

(** No block passes the slot check: a delegate is named by one letter and a
    proposer has twenty bytes, whose text is at least five characters, so
    [validate_block_slot] answers false for every block (or panics where the
    clock is needed and out of range). *)
Lemma validate_block_slot_rejects `{CryptoHash Header.t} (now : Z) (block : Block.t) :
  validate_block_slot now block = Ret false ∨
  (as_i64 (Header.time (Block.header block)) = 0 ∧ validate_block_slot now block = Panic).
Proof.
  unfold validate_block_slot, get_active_delegates. change (Z.of_nat (length ACTIVE_DELEGATES)) with 11.
  destruct (get_slot_number now (as_i64 (Header.time (Block.header block)))) as [slot|] eqn:E; simpl.
  - left.
    destruct (delegates_spec ((slot mod u64_bound) mod 11)) as (d & -> & Hd); [by apply Z.mod_pos_bound|].
    simpl. f_equal. unfold equal_delegate. apply bool_decide_eq_false. intros Eq.
    set (b := address_bytes (Header.proposer (Block.header block))) in *.
    assert (length b = 20%nat) as Hb by apply length_fmap.
    pose proof (utf8_chars_length (length b) b ltac:(lia)) as Hl.
    unfold from_utf8_lossy in Eq. rewrite Eq, Hd, Hb in Hl. lia.
  - right. split; [|done]. unfold get_slot_number in E.
    by destruct (Z.eqb_spec (as_i64 (Header.time (Block.header block))) 0).
Qed.

(** The number of rounds up to which the [f64] computation is checked against
    integer division. *)
Definition round_bound : nat := 4096.
Lemma calc_round_exact (height : Z) :
  0 ≤ height ≤ Z.of_nat round_bound → calc_round height = (height + DELEGATES - 1) / DELEGATES.
Proof.
  intros Hh. apply Z.eqb_eq.
  assert (forallb (λ n, calc_round (Z.of_nat n) =? (Z.of_nat n + DELEGATES - 1) / DELEGATES)
    (seq 0 (S round_bound)) = true) as Hall by (vm_compute; reflexivity).
  rewrite forallb_forall in Hall. rewrite <-(Z2Nat.id height) by lia. apply Hall, in_seq. lia.
Qed.
