(* ===== verification/Api.v ===== *)
(** * The HTTP service ([src/api/mod.rs])

    Two pages served from the chain of the node: all blocks and all
    transactions, as JSON.  The web framework ([tide]) is the table of routes
    it is given; the JSON text of a list, which [serde_json] makes, is an
    argument. *)

From S2P Require Import Prelude External Types Validators Protocol Wire Store Ledger.

(** [serde_json::to_string]; [None] is its error. *)
Class ApiJson : Type := {
  json_blocks : list Block.t → option string;
  json_transactions : list Transaction.t → option string
}.

(** Encoding succeeds and does not show the fields serde skips. *)
Class ApiJsonLaws `{ApiJson} : Prop := {
  json_blocks_total : ∀ l, is_Some (json_blocks l);
  json_blocks_wire : ∀ l, json_blocks (Block.wire <$> l) = json_blocks l;
  json_transactions_total : ∀ l, is_Some (json_transactions l)
}.

Section api.
Context {DB HC BC : Type} `{Database DB, LruCache HC Hash Header.t, LruCache BC Hash Block.t}.
Context `{CryptoKit, Codec, Chrono, ApiJson}.
Abbreviation Chain_t := (Chain.t DB HC BC).

(** [(0..last_height + 1).for_each(..)], from [height] on with [n] turns. *)
Fixpoint collect_blocks (n : nat) (height : Height) : M Chain_t (list Block.t) :=
  match n with
  | O => mret []
  | S n' =>
      o ← Chain.get_block_hash_by_height height;
      block_hash ← lift (unwrap o);
      o ← Chain.get_block_by_hash block_hash;
      block ← lift (unwrap o);
      rest ← collect_blocks n' (height + 1);
      mret (block :: rest)
  end.

Definition blocks : M Chain_t string :=
  last_height ← gets Chain.get_last_height;
  stop ← lift (u64_add last_height 1);
  l ← collect_blocks (Z.to_nat stop) 0;
  lift (unwrap (json_blocks l)).

Definition transactions : M Chain_t string :=
  l ← Chain.get_transactions;
  lift (unwrap (json_transactions l)).

(** The application: the pages a GET request can ask for, and where it
    listens. *)
Inductive Environment : Type := Development | Production.
Record App : Type := mkApp {
  routes : list (string * M Chain_t string);
  env : Environment; address : string; port : Z }.

Definition start_api (ip : string) (port : Z) : App :=
  mkApp [("/blocks"%string, blocks); ("/transactions"%string, transactions)] Production ip port.

(** What the framework does with [GET path]: the handler of the route, or
    nothing of ours. *)
Fixpoint find_route (path : string) (l : list (string * M Chain_t string)) : option (M Chain_t string) :=
  match l with
  | [] => None
  | (p, h) :: l' => if bool_decide (p = path) then Some h else find_route path l'
  end.
Definition get (path : string) (a : App) : M Chain_t (option string) :=
  match find_route path (routes a) with
  | Some h => body ← h; mret (Some body)
  | None => mret None
  end.

(** [init_api] of [cmd/mod.rs]: the thread it spawns serves the chain. *)
Definition init_api (config : ChainConfig.t) : App :=
  start_api (ChainConfig.api_ip config) (ChainConfig.api_port config).
End api.
Arguments App : clear implicits.

(** ** What the pages show *)

Section api_props.
Context {DB HC BC : Type} `{DatabaseLaws DB}.
Context `{HCC : LruCache HC Hash Header.t, !LruCacheLaws HC Hash Header.t}.
Context `{BCC : LruCache BC Hash Block.t, !LruCacheLaws BC Hash Block.t}.
Context `{CryptoKitLaws} `{CodecLaws} `{Chrono} `{ApiJsonLaws}.
Abbreviation Chain_t := (Chain.t DB HC BC).
Implicit Types (c : Chain_t) (bs : list Block.t).

Lemma collect_blocks_spec c bs n i :
  ledger_rep (Chain.ledger c) bs → (i + n = length bs)%nat → Z.of_nat (length bs) < u64_bound →
  wp False (collect_blocks n (Z.of_nat i)) (λ l c', ledger_rep (Chain.ledger c') bs ∧
    Forall2 block_equiv l (drop i bs)) c.
Proof using All.
  revert c i. induction n as [|n IH]; intros c i Hr Hn Hu; simpl.
  { wp_step. split; [done|]. rewrite drop_ge by lia. constructor. }
  destruct (lookup_lt_is_Some_2 bs i) as [b Eb]; [lia|].
  wp_step. apply wp_on_ledger. eapply wp_block_hash_by_height; [apply Hr|unfold is_u64; lia|].
  rewrite Nat2Z.id, Eb. simpl. wp_step. apply wp_lift; [|done]. intros h [= <-]. wp_step.
  apply wp_on_ledger. eapply wp_mono; [apply (ledger_get_block_spec _ bs b); [apply Hr|by eapply list_elem_of_lookup_2]|].
  intros o l1 (Hs & Hr1 & b' & -> & Hq). apply (same_but_caches_rep _ _ bs Hr) in Hr1; [|done].
  wp_step. apply wp_lift; [|done]. intros ? [= <-]. wp_step.
  replace (Z.of_nat i + 1) with (Z.of_nat (S i)) by lia.
  eapply wp_mono; [apply (IH _ (S i)); [exact Hr1|lia|done]|]. intros l c' [Hr' Hl]. wp_step.
  split; [done|]. rewrite (drop_S _ b) by done. by constructor.
Qed.

Lemma json_blocks_equiv l bs : Forall2 block_equiv l bs → json_blocks l = json_blocks bs.
Proof using All.
  intros Hl. rewrite <-(json_blocks_wire l), <-(json_blocks_wire bs). f_equal.
  induction Hl as [|b b' l bs [Hw _] _ IH]; [done|]. by rewrite !fmap_cons, Hw, IH.
Qed.

Lemma crypto_hash_length tx h : Transaction.crypto_hash tx = Ret h → length h = HASH_SIZE.
Proof using All.
  unfold Transaction.crypto_hash. destruct (Transaction.packet_hash tx); simpl; [|done].
  intros [= <-]. apply hash_length.
Qed.

(** The stored transactions are those of the blocks, each once. *)
Lemma get_transactions_spec c bs :
  ledger_rep (Chain.ledger c) bs →
  wp False Chain.get_transactions (λ txs c', c' = c ∧ NoDup txs ∧
    ∀ tx', tx' ∈ txs ↔ ∃ b tx, b ∈ bs ∧ tx ∈ Block.transactions b ∧ tx' = Transaction.wire tx) c.
Proof using All.
  intros [Hr Hm].
  assert (∀ h : Hash, length h = HASH_SIZE → key_read (key_bytes h) = Some h) as Hread.
  { intros h Hh. rewrite key_hash_bytes. by apply key_hash_read. }
  destruct (map_iter_spec (V := Transaction.t) _ Hread Schema.TRANSACTIONS (Ledger.db (Chain.ledger c)))
    as (r & E & Hn & Hmem).
  { intros k v Hp Hg. destruct (rep_txs _ _ Hr k v Hp Hg) as (tx & h & _ & Eh & -> & ->).
    exists h, tx. rewrite key_hash_bytes. split_and!; [by eapply crypto_hash_length|done..]. }
  assert (∀ h tx', (h, tx') ∈ r ↔ ∃ b tx, b ∈ bs ∧ tx ∈ Block.transactions b ∧
    Transaction.crypto_hash tx = Ret h ∧ tx' = Transaction.wire tx) as Hmem'.
  { intros h tx'. rewrite Hmem, key_hash_bytes. split.
    - intros (_ & v & Hg & Ev). destruct (rep_txs _ _ Hr (key_of Schema.TRANSACTIONS h) v) as (tx & h' & Hin & Eh & <-%key_of_inj & ->);
        [by eexists|done|]. apply list_elem_of_bind in Hin as (b & Htx & Hb). rewrite from_into in Ev.
      injection Ev as <-. eauto 7.
    - intros (b & tx & Hb & Htx & Eh & ->). split; [by eapply crypto_hash_length|].
      destruct (rep_stored _ _ Hr b Hb) as [_ (hs & _ & Hst)]. apply list_elem_of_lookup in Htx as [i Hi].
      destruct (Forall2_lookup_l _ _ _ _ _ Hst Hi) as (h' & _ & Eh' & tx2 & Hg & Ew).
      rewrite Eh in Eh'. injection Eh' as <-.
      exists (into_bytes tx2). rewrite from_into, Ew. done. }
  apply wp_on_ledger. unfold Ledger.get_transactions. wp_step. apply wp_on_db.
  unfold wp. change Schema.transaction with (MapIndex.new Schema.TRANSACTIONS). rewrite E. simpl.
  split; [destruct c as [[] ? ? ? ? ?]; done|]. split.
  - apply NoDup_fmap_2_strong; [|by eapply NoDup_fmap_1]. intros [h1 t1] [h2 t2] H1' H2' Et. simpl in Et. subst t2.
    apply Hmem' in H1' as (? & tx1 & _ & _ & E1 & E1'), H2' as (? & tx2 & _ & _ & E2 & E2').
    rewrite <-crypto_hash_tx_wire in E1, E2. congruence.
  - intros tx'. rewrite list_elem_of_fmap. split.
    + intros ([h t] & -> & (b & tx & ? & ? & _ & ->)%Hmem'). eauto.
    + intros (b & tx & Hb & Htx & ->). destruct (rep_stored _ _ Hr b Hb) as [_ (hs & _ & Hst)].
      apply list_elem_of_lookup in Htx as Hi. destruct Hi as [i Hi].
      destruct (Forall2_lookup_l _ _ _ _ _ Hst Hi) as (h & _ & Eh & _).
      exists (h, Transaction.wire tx). split; [done|]. apply Hmem'. eauto 7.
Qed.

(** C19 The HTTP service shows the chain: a request for [/blocks] on a chain
    that holds the blocks [bs] is answered with their JSON, from the genesis
    block to the last, and one for [/transactions] with the JSON of the
    transactions of these blocks, each once; every other path has no
    handler.  No request panics or changes the chain. *)
Theorem api_shows_chain (ip : string) (port : Z) (path : string) (c : Chain_t) (bs : list Block.t) :
  ledger_rep (Chain.ledger c) bs → bs ≠ [] → Z.of_nat (length bs) < u64_bound →
  ∃ body c', get path (start_api ip port) c = Ret (body, c') ∧ ledger_rep (Chain.ledger c') bs ∧
    if bool_decide (path = "/blocks"%string) then body = json_blocks bs
    else if bool_decide (path = "/transactions"%string) then
      ∃ txs, body = json_transactions txs ∧ NoDup txs ∧
        ∀ tx', tx' ∈ txs ↔ ∃ b tx, b ∈ bs ∧ tx ∈ Block.transactions b ∧ tx' = Transaction.wire tx
    else body = None.
Proof using All.
  intros Hr Hne Hu. unfold get. simpl.
  destruct (decide (path = "/blocks"%string)) as [->|Hb]; [|destruct (decide (path = "/transactions"%string)) as [->|Ht]].
  - simpl. apply wp_total. wp_step. unfold blocks. wp_step. apply wp_gets. wp_step.
    assert (Chain.get_last_height c + 1 = Z.of_nat (length bs)) as Eh by by apply last_height_next.
    apply wp_lift; [|intros E; rewrite u64_add_fits in E; [done|lia]]. intros stop [-> _]%u64_add_Ret.
    rewrite Eh, Nat2Z.id. wp_step.
    eapply wp_mono; [apply (collect_blocks_spec c bs (length bs) 0); [done|done|done]|]. intros l c' [Hr' Hl].
    rewrite (json_blocks_equiv l bs Hl). destruct (json_blocks_total bs) as [s Es]. rewrite Es.
    apply wp_lift; [|done]. intros ? [= <-]. wp_step. done.
  - simpl. apply wp_total. wp_step. unfold transactions. wp_step.
    eapply wp_mono; [by apply get_transactions_spec|]. intros txs c' (-> & Hn & Hmem).
    destruct (json_transactions_total txs) as [s Es]. rewrite Es. apply wp_lift; [|done]. intros ? [= <-]. wp_step.
    split; [done|]. exists txs. by split_and!.
  - rewrite !bool_decide_false by done. by exists None, c.
Qed.
End api_props.
