(* ===== verification/Node.v ===== *)
(** * Starting a node ([src/cmd/mod.rs])

    [start_node] puts the components together: it reads the configuration,
    opens the ledger, stores or finds the genesis block, creates pool, HTTP
    service, engine, discovery, server and miner and subscribes the latter
    two to the events of chain and discovery.  The signal handler and the
    logger it starts as well are left out. *)

From stdpp Require Import pretty.
From S2P Require Import Prelude External Types Validators Protocol Wire RoundState Store Ledger Backend Core Engine P2p Middle Net Dial Events Minner TxPool Api.

(** Display of [ChainError]; a hash is shown in its debug format. *)
Definition ChainError_display (hash_debug : Hash → string) (e : ChainError) : string :=
  match e with
  | Exists h => "the block has exist, (" +:+ hash_debug h +:+ ")"
  | ChainUnknown s => "An unknown error has occurred, (" +:+ s +:+ ")"
  end%string.

Section node.
Context {DB HC BC LC TC Q : Type}.
Context `{Database DB, LruCache HC Hash Header.t, LruCache BC Hash Block.t, LruCache LC Hash unit}.
Context `{TimedCache TC Hash bool, PriorityQueue Q Hash Z}.
Context `{CryptoKit, Codec, Chrono, BigInt, HashMapOrder, PeerIds, ApiJson, Multiaddrs}.

(** What the system and other libraries answer: the text of the
    configuration file and its TOML reading, the key pair of a secret, the
    reading of an address, whether it can be bound, whether the mDNS service
    can be created, and the database. *)
Record surroundings : Type := Surroundings {
  config_file : result string string;
  toml_from_str : string → option ChainConfig.t;
  key_pair_from_str : string → option Secret;
  multiaddr_from_str : string → option Multiaddr;
  can_bind : SocketAddrV4 → bool;
  can_discover : bool;
  open_default : string → result DB string;
  hash_debug : Hash → string;
  clk : Clk.t }.

Definition ChainT := Chain.t DB HC BC.
Definition Server := TcpServer.t (ChainT * list bytes) TC.

(** The parts of a running node; the engine is the miner's. *)
Record Node : Type := mkNode {
  chain : ChainT; tx_pool : BaseTxPool.t Q; api : App DB HC BC; core : Core.t (ImplBackend.t DB HC BC LC); server : Server;
  discover : DiscoverService.t; minner : Minner.t DB HC BC LC;
  chain_signals : ProcessSignals.t; p2p_signals : ProcessSignals.t }.

Definition init_config (w : surroundings) : outcome (result ChainConfig.t string) :=
  match config_file w with
  | Err err => mret (Err err)
  | Ok input => config ← unwrap (toml_from_str w input); mret (Ok config)
  end.

Definition init_store (w : surroundings) (config : ChainConfig.t) : outcome (result (Ledger.t DB HC BC) string) :=
  genesis_config ← unwrap (ChainConfig.genesis config);
  r ← strings_to_addresses (GenesisConfig.validator genesis_config);
  match r with
  | Err err => mret (Err err)
  | Ok addresses =>
      match open_default w (ChainConfig.store config) with
      | Err err => mret (Err err)
      | Ok database =>
          mret (Ok (Ledger.new LastMeta.new_zero (lru_with_capacity 1024) (lru_with_capacity 1024)
            (Validator.new <$> addresses) database))
      end
  end.

Definition init_genesis : M ChainT ChainResult := Chain.store_genesis_block.
Definition init_transaction_pool : BaseTxPool.t Q := BaseTxPool.new.

Definition start_consensus_engine (key_pair : Secret) (c : ChainT) (clk : Clk.t) :
    outcome (Core.t (ImplBackend.t DB HC BC LC) * ImplBackend.t DB HC BC LC) :=
  let '(core, engine) := create_bft_engine key_pair c clk in
  re ← ImplBackend.start engine;
  match re.1 with Ok _ => mret (core, re.2) | Err _ => Panic end.

Definition listen_address (w : surroundings) (config : ChainConfig.t) : outcome Multiaddr :=
  unwrap (multiaddr_from_str w ("/ip4/" +:+ ChainConfig.ip config +:+ "/tcp/" +:+ pretty (ChainConfig.port config))).

Definition init_p2p_event_notify : ProcessSignals.t := spawn_sync_subscriber.
Definition init_p2p_service (w : surroundings) (config : ChainConfig.t) : outcome DiscoverService.t :=
  peer_id ← unwrap (peer_from_str (ChainConfig.peer_id config));
  mul_addr ← listen_address w config;
  if can_discover w then mret (DiscoverService.mk peer_id mul_addr (ChainConfig.ttl config)) else Panic.

(** The server, and the two signals with its subscriptions. *)
Definition init_tcp_server (w : surroundings) (server_pid : Recipient) (c : ChainT)
    (chain_sig p2p_sig : ProcessSignals.t) (genesis : Hash) (config : ChainConfig.t) :
    outcome (Server * ProcessSignals.t * ProcessSignals.t) :=
  peer_id ← unwrap (peer_from_str (ChainConfig.peer_id config));
  mul_addr ← listen_address w config;
  let author := author_handshake genesis in
  _ ← tcp_listen (can_bind w) mul_addr;
  let server := TcpServer.new peer_id genesis author node_handles (c, []) in
  mret (server, ProcessSignals.handle_subscribe (ProcessSignals.new_subscribe server_pid) chain_sig,
        ProcessSignals.handle_subscribe (ProcessSignals.SubScribe server_pid) p2p_sig).

Definition start_mint (minner_pid : Recipient) (key_pair : Secret) (engine : ImplBackend.t DB HC BC LC)
    (chain_sig : ProcessSignals.t) : Minner.t DB HC BC LC * ProcessSignals.t :=
  (Minner.new (secret_address key_pair) key_pair engine,
   ProcessSignals.handle_subscribe (ProcessSignals.new_subscribe minner_pid) chain_sig).

(** [server_pid] and [minner_pid] are the addresses the two actors get. *)
Definition start_node (w : surroundings) (server_pid minner_pid : Recipient) : outcome (result Node string) :=
  r ← init_config w;
  match r with
  | Err err => mret (Err err)
  | Ok config =>
      key_pair ← unwrap (key_pair_from_str w (ChainConfig.secret config));
      r ← init_store w config;
      match r with
      | Err err => mret (Err err)
      | Ok ledger =>
          rc ← init_genesis (Chain.new config ledger (clk w));
          match rc.1 with
          | Err err => mret (Err (ChainError_display (hash_debug w) err))
          | Ok _ =>
              gc ← Chain.get_genesis rc.2;
              let '(genesis, chain) := gc in
              let pool := init_transaction_pool in
              let api := init_api config in
              ce ← start_consensus_engine key_pair chain (clk w);
              let p2p_event_notify := init_p2p_event_notify in
              discover ← init_p2p_service w config;
              srv ← init_tcp_server w server_pid chain ProcessSignals.new p2p_event_notify
                      (Block.hash genesis) config;
              let '(server, chain_sig, p2p_sig) := srv in
              let '(minner, chain_sig) := start_mint minner_pid key_pair ce.2 chain_sig in
              mret (Ok (mkNode chain pool api ce.1 server discover minner chain_sig p2p_sig))
          end
      end
  end.
End node.
Arguments surroundings : clear implicits.
Arguments Node : clear implicits.

(** ** What a started node is *)

Section node_props.
Context {DB HC BC LC TC Q : Type} `{DatabaseLaws DB}.
Context `{HCC : LruCache HC Hash Header.t, !LruCacheLaws HC Hash Header.t}.
Context `{BCC : LruCache BC Hash Block.t, !LruCacheLaws BC Hash Block.t}.
Context `{LCC : LruCache LC Hash unit} `{TCC : TimedCache TC Hash bool} `{QC : PriorityQueue Q Hash Z}.
Context `{CryptoKit} `{CodecLaws} `{Chrono} `{BigInt, HashMapOrder, PeerIds, ApiJson, Multiaddrs}.
Context (tx_hash_inj : ∀ tx tx' h,
  Transaction.crypto_hash tx = Ret h → Transaction.crypto_hash tx' = Ret h →
  Transaction.wire tx = Transaction.wire tx').

(** The database a node is started on holds nothing, or the blocks [bs] of
    an earlier run. *)
Definition database_holds (db : DB) (bs : list Block.t) : Prop :=
  match bs with
  | [] => ∀ k, db_get k db = None
  | _ => ∃ l : Ledger.t DB HC BC, store_rep l bs ∧ Ledger.db l = db
  end.

(** The chain of a node with genesis [g]. *)
Definition blocks_after (g : Block.t) (bs : list Block.t) : list Block.t :=
  match bs with [] => [g] | _ => bs end.

(** A configuration that can be used, in surroundings that let it be. *)
Record usable (w : surroundings DB) (cfg : ChainConfig.t) (key : Secret) (me : PeerId) (gc : GenesisConfig.t)
    (vs : list Address) (g : Block.t) (db : DB) : Prop := {
  us_file : init_config w = Ret (Ok cfg);
  us_key : key_pair_from_str w (ChainConfig.secret cfg) = Some key;
  us_genesis : ChainConfig.genesis cfg = Some gc;
  us_config : genesis_config gc vs g;
  us_peer : peer_from_str (ChainConfig.peer_id cfg) = Some me;
  us_listen : ∃ a sock, listen_address w cfg = Ret a ∧ multiaddr_to_ipv4 a = Ok sock ∧ can_bind w sock = true;
  us_discover : can_discover w = true;
  us_db : open_default w (ChainConfig.store cfg) = Ok db }.

Lemma store_genesis_spec (c : Chain.t DB HC BC) (db : DB) (gc : GenesisConfig.t) (vs : list Address)
    (g : Block.t) (bs : list Block.t) :
  Chain.ledger c = Ledger.new LastMeta.new_zero (lru_with_capacity 1024) (lru_with_capacity 1024)
    (Validator.new <$> vs) db →
  ChainConfig.genesis (Chain.config c) = Some gc → genesis_config gc vs g → database_holds db bs →
  wp False Chain.store_genesis_block (λ r c', r = Ok tt ∧ ledger_rep (Chain.ledger c') (blocks_after g bs) ∧
    Ledger.validators (Chain.ledger c') = Validator.new <$> vs ∧ Chain.config c' = Chain.config c ∧
    ∃ g' b0, Chain.genesis c' = Some g' ∧ head (blocks_after g bs) = Some b0 ∧ Block.hash g' = Block.hash b0) c.
Proof using All.
  intros El Eg Hg Hdb. unfold Chain.store_genesis_block. wp_step. apply wp_gets.
  wp_step. apply wp_lift; rewrite Eg; [intros gc' [= <-]|done].
  assert (wp False (Ledger.store_genesis_block gc) (λ r l', r = Ok tt ∧ ledger_rep l' (blocks_after g bs) ∧
    Ledger.validators l' = Validator.new <$> vs ∧
    ∃ g' b0, Ledger.genesis l' = Some g' ∧ head (blocks_after g bs) = Some b0 ∧ Block.hash g' = Block.hash b0)
    (Chain.ledger c)) as Hw.
  { rewrite El. destruct bs as [|b0 bs]; simpl in Hdb |- *.
    - eapply wp_mono; [apply (first_start_spec tx_hash_inj _ gc vs g); [by apply empty_rep|done|done]|].
      intros r l' (? & ? & ? & ?). split_and!; [done..|]. by exists g, g.
    - destruct Hdb as (l & Hl & E).
      eapply wp_mono; [eapply (restart_spec db l (b0 :: bs)); [exact Hl|done|done]|].
      intros r l' (? & ? & ? & g' & b' & ? & ? & [_ ?]). split_and!; [done..|]. eauto. }
  wp_step. apply wp_on_ledger. eapply wp_mono; [exact Hw|].
  intros r l' (-> & Hr & Hv & g' & b0 & Hg' & Hb0 & Hh). cbn beta iota.
  wp_step. apply wp_on_ledger. unfold Ledger.get_genesis_block. wp_step. apply wp_gets.
  simpl. rewrite Hg'. wp_step. wp_step. apply wp_lift; [intros x [= <-]|done].
  wp_step. apply wp_modify. wp_step. split_and!; [done..|]. eauto.
Qed.

Lemma last_height (l : Ledger.t DB HC BC) (bs : list Block.t) (b : Block.t) :
  ledger_rep l bs → last bs = Some b → Block.height (LastMeta.block (Ledger.meta l)) = Block.height b.
Proof.
  intros [_ Hm] E. unfold meta_rep in Hm. rewrite E in Hm. destruct Hm as (_ & _ & _ & [Hw _]).
  by apply (f_equal (λ b, Header.height (Block.header b))) in Hw.
Qed.

(** Every part that signs or names the node does so with this key. *)
Record signs_with (key : Secret) (n : Node DB HC BC LC TC Q) : Prop := {
  sw_core : Core.keypair (core n) = key ∧ Core.address (core n) = secret_address key;
  sw_backend : ImplBackend.key_pair (Core.backend (core n)) = key ∧
    ImplBackend.address (Core.backend (core n)) = secret_address key;
  sw_engine : ImplBackend.key_pair (Minner.engine (minner n)) = key ∧
    ImplBackend.address (Minner.engine (minner n)) = secret_address key;
  sw_minner : Minner.key_pair (minner n) = key ∧ Minner.minter (minner n) = secret_address key }.

(** Core, its backend and the engine decide by the votes of these validators. *)
Definition decides_among (vs : ImplValidatorSet.t) (n : Node DB HC BC LC TC Q) : Prop :=
  Core.validators (core n) = vs ∧ ImplBackend.validator_set (Core.backend (core n)) = vs ∧
  ImplBackend.validator_set (Minner.engine (minner n)) = vs.

(** C15 A node starts, and its parts agree: with a configuration that can be read
    and used, on an empty database or on one that holds the blocks of an
    earlier run, [start_node] returns a node.  Its chain holds the configured
    genesis block, or the blocks it held before; engine, core and server work
    on that chain, engine and core with the configured validators; core,
    engine and miner sign with the configured key and have its address; the
    core starts from the last block; the server asks peers for the hash of
    the first block, and accepts those that answer with it; the engine is
    started and knows the core; discovery and server have the configured peer
    id, the HTTP service the configured address; new blocks
    are announced to the server and then to the miner, discovered peers to the
    server alone. *)
Theorem node_starts (w : surroundings DB) (server_pid minner_pid : Recipient) (cfg : ChainConfig.t)
    (key : Secret) (me : PeerId) (gc : GenesisConfig.t) (vs : list Address) (g : Block.t) (db : DB)
    (bs : list Block.t) :
  usable w cfg key me gc vs g db → database_holds db bs →
  ∃ n b0 bl, start_node w server_pid minner_pid = Ret (Ok n) ∧
    let n : Node DB HC BC LC TC Q := n in
    ledger_rep (Chain.ledger (chain n)) (blocks_after g bs) ∧
    Chain.get_validators 0 (chain n) = Validator.new <$> vs ∧
    decides_among (ImplValidatorSet.new vs fn_selector) n ∧ signs_with key n ∧
    ImplBackend.chain (Minner.engine (minner n)) = chain n ∧
    ImplBackend.chain (Core.backend (core n)) = chain n ∧ (TcpServer.world (server n)).1 = chain n ∧
    last (blocks_after g bs) = Some bl ∧ RoundState.height (Core.current_state (core n)) = Block.height bl ∧
    head (blocks_after g bs) = Some b0 ∧ TcpServer.genesis (server n) = Block.hash b0 ∧
    TcpServer.author_fn (server n) = author_handshake (Block.hash b0) ∧
    ImplBackend.started (Minner.engine (minner n)) = true ∧
    is_Some (ImplBackend.core_pid (Minner.engine (minner n))) ∧
    Api.address (api n) = ChainConfig.api_ip cfg ∧ Api.port (api n) = ChainConfig.api_port cfg ∧
    DiscoverService.peer_id (discover n) = me ∧ TcpServer.node_id (server n) = me ∧
    ProcessSignals.subscribers (chain_signals n) = [server_pid; minner_pid] ∧
    ProcessSignals.subscribers (p2p_signals n) = [server_pid].
Proof using All.
  intros [Hf Hk Hg Hgc Hp (a & sock & Ha & Hsock & Hbind) Hd Hdb] Hbs.
  unfold start_node. rewrite Hf. simpl. rewrite Hk. simpl. unfold init_store. rewrite Hg. simpl.
  rewrite (gc_validators _ _ _ Hgc). simpl. rewrite Hdb. simpl. unfold init_genesis.
  set (c0 := Chain.new _ _ _).
  destruct (wp_total _ _ _ (store_genesis_spec c0 db gc vs g bs eq_refl Hg Hgc Hbs))
    as (r & c & E & -> & Hr & Hv & _ & g' & b0 & Hg' & Hb0 & Hh).
  rewrite E. simpl. unfold Chain.get_genesis, mbind, M_mbind, M_bind, gets, lift. rewrite Hg'. simpl.
  unfold init_p2p_service, init_tcp_server. rewrite Hp. simpl. rewrite Ha. simpl. rewrite Hd. unfold tcp_listen. rewrite Hsock. simpl. rewrite Hbind. simpl.
  destruct (last (blocks_after g bs)) as [bl|] eqn:El; [|apply last_None in El; by destruct bs].
  assert (Validator.address <$> Ledger.validators (Chain.ledger c) = vs) as Evs.
  { rewrite Hv, <-list_fmap_compose. apply list_fmap_id. }
  eexists _, b0, bl. split; [done|]. simpl. split_and!; try done.
  - unfold decides_among. simpl. unfold Chain.get_validators, Ledger.get_validators. by rewrite Evs.
  - by apply (last_height _ _ _ Hr El).
  - by rewrite Hh.
Qed.
End node_props.
