(* ===== verification/Concrete.v ===== *)
(** * Concrete instances of the interfaces

    Executable instances of every class of [External] and [Wire], with their
    laws: a length-prefixed serialisation, an injective toy hash that fills
    32 slots, signatures that name their signer, an in-memory database, an
    LRU list, little-endian keys and hash maps in key order.  They show that
    the laws can hold together, and the scenarios of [Scenarios] run on
    them. *)

From S2P Require Import Prelude External Types Validators Protocol Wire Store P2p.

(** ** Serialisation: printers with parsers *)

Record coding (T : Type) : Type := Coding {
  put : T → list Z;
  get : list Z → option (T * list Z) }.
Arguments Coding {T} put get.
Arguments put {T} c x.
Arguments get {T} c l.

(** [w x] is what comes back of [x]. *)
Record coding_ok {T : Type} (c : coding T) (w : T → T) : Prop := {
  get_put : ∀ x rest, get c (put c x ++ rest) = Some (w x, rest);
  put_w : ∀ x, put c (w x) = put c x }.

Definition num : coding Z :=
  Coding (λ x, [x]) (λ l, match l with x :: rest => Some (x, rest) | [] => None end).

Definition pair {A B : Type} (ca : coding A) (cb : coding B) : coding (A * B) :=
  Coding (λ p, put ca p.1 ++ put cb p.2)
    (λ l, match get ca l with
          | Some (a, r) => match get cb r with Some (b, r') => Some ((a, b), r') | None => None end
          | None => None
          end).

Fixpoint get_n {A : Type} (ca : coding A) (n : nat) (l : list Z) : option (list A * list Z) :=
  match n with
  | O => Some ([], l)
  | S n' => match get ca l with
            | Some (a, r) => match get_n ca n' r with
                             | Some (xs, r') => Some (a :: xs, r')
                             | None => None
                             end
            | None => None
            end
  end.
Definition seq_of {A : Type} (ca : coding A) : coding (list A) :=
  Coding (λ xs, Z.of_nat (length xs) :: concat (put ca <$> xs))
    (λ l, match l with n :: r => get_n ca (Z.to_nat n) r | [] => None end).

Definition opt_of {A : Type} (ca : coding A) : coding (option A) :=
  Coding (λ o, match o with None => [0] | Some a => 1 :: put ca a end)
    (λ l, match l with
          | 0 :: r => Some (None, r)
          | _ :: r => match get ca r with Some (a, r') => Some (Some a, r') | None => None end
          | [] => None
          end).

Definition via {A B : Type} (f : A → B) (g : B → A) (cb : coding B) : coding A :=
  Coding (λ a, put cb (f a))
    (λ l, match get cb l with Some (b, r) => Some (g b, r) | None => None end).

Lemma num_ok : coding_ok num (λ x, x).
Proof. by split. Qed.

Lemma pair_ok {A B} (ca : coding A) (cb : coding B) wa wb :
  coding_ok ca wa → coding_ok cb wb → coding_ok (pair ca cb) (prod_map wa wb).
Proof.
  intros [ga pa] [gb pb]. split.
  - intros [a b] rest. simpl. by rewrite <-app_assoc, ga, gb.
  - intros [a b]. simpl. by rewrite pa, pb.
Qed.

Lemma seq_ok {A} (ca : coding A) wa : coding_ok ca wa → coding_ok (seq_of ca) (fmap wa).
Proof.
  intros [ga pa]. split.
  - intros xs rest. simpl. rewrite Nat2Z.id. induction xs as [|x xs IH]; [done|].
    cbn. rewrite <-app_assoc, ga. by rewrite IH.
  - intros xs. simpl. rewrite length_fmap. f_equal. f_equal. rewrite <-list_fmap_compose.
    apply list_fmap_ext. intros i x _. simpl. apply pa.
Qed.

Lemma opt_ok {A} (ca : coding A) wa : coding_ok ca wa → coding_ok (opt_of ca) (fmap wa).
Proof.
  intros [ga pa]. split.
  - intros [x|] rest; simpl; [|done]. by rewrite ga.
  - intros [x|]; simpl; [|done]. by rewrite pa.
Qed.

Lemma via_ok {A B} (f : A → B) (g : B → A) (cb : coding B) wb w :
  coding_ok cb wb → (∀ a, g (wb (f a)) = w a) → (∀ a, f (w a) = wb (f a)) →
  coding_ok (via f g cb) w.
Proof.
  intros [gb pb] Hg Hf. split.
  - intros a rest. simpl. by rewrite gb, Hg.
  - intros a. simpl. by rewrite Hf, pb.
Qed.

(** A whole message is what the parser consumes to the end. *)
Definition storage {T : Type} (c : coding T) : StorageValue T :=
  {| into_bytes := put c;
     from_bytes b := match get c b with Some (x, []) => Some x | _ => None end |}.

Lemma storage_ok {T} (c : coding T) w : coding_ok c w → @StorageLaws T (storage c) w.
Proof.
  intros [g p]. split.
  - intros x. simpl. by rewrite <-(app_nil_r (put c x)), g.
  - apply p.
Qed.

(** *** The types of the program *)

Definition nums : coding (list Z) := seq_of num.
Lemma nums_ok : coding_ok nums (λ x, x).
Proof.
  pose proof (seq_ok num _ num_ok) as [g p]. split.
  - intros x rest. unfold nums. rewrite g. by rewrite list_fmap_id.
  - done.
Qed.

Definition onums : coding (option (list Z)) := opt_of nums.
Lemma onums_ok : coding_ok onums (λ x, x).
Proof.
  pose proof (opt_ok nums _ nums_ok) as [g p]. split.
  - intros x rest. unfold onums. rewrite g. by rewrite option_fmap_id.
  - done.
Qed.

Definition numss : coding (list (list Z)) := seq_of nums.
Lemma numss_ok : coding_ok numss (λ x, x).
Proof.
  pose proof (seq_ok nums _ nums_ok) as [g p]. split.
  - intros x rest. unfold numss. rewrite g. by rewrite list_fmap_id.
  - done.
Qed.

Definition onumss : coding (option (list (list Z))) := opt_of numss.
Lemma onumss_ok : coding_ok onumss (λ x, x).
Proof.
  pose proof (opt_ok numss _ numss_ok) as [g p]. split.
  - intros x rest. unfold onumss. rewrite g. by rewrite option_fmap_id.
  - done.
Qed.

Definition onum : coding (option Z) := opt_of num.
Lemma onum_ok : coding_ok onum (λ x, x).
Proof.
  pose proof (opt_ok num _ num_ok) as [g p]. split.
  - intros x rest. unfold onum. rewrite g. by rewrite option_fmap_id.
  - done.
Qed.

Definition header_coding : coding Header.t :=
  via (λ h, (Header.prev_hash h, (Header.proposer h, (Header.root h, (Header.tx_hash h,
        (Header.receipt_hash h, ([Header.bloom h; Header.difficulty h; Header.height h;
          Header.gas_limit h; Header.gas_used h; Header.time h],
          (Header.extra h, Header.votes h))))))))
    (λ '(a, (b, (c, (d, (e, (l, (x, v))))))),
       Header.mk a b c d e (nth 0 l 0) (nth 1 l 0) (nth 2 l 0) (nth 3 l 0) (nth 4 l 0) (nth 5 l 0)
         x v None)
    (pair nums (pair num (pair nums (pair nums (pair nums (pair nums (pair onums onumss))))))).

Ltac coding_tac :=
  repeat first [ eapply pair_ok | exact num_ok | exact nums_ok | exact onum_ok | exact onums_ok
               | exact numss_ok | exact onumss_ok ].

Lemma header_ok : coding_ok header_coding Header.wire.
Proof. eapply via_ok; [coding_tac|by intros []..]. Qed.

Definition transaction_coding : coding Transaction.t :=
  via (λ t, ([Transaction.account_nonce t; Transaction.gas_price t; Transaction.gas_limit t;
          Transaction.amount t], (Transaction.recipient t, (Transaction.payload t, Transaction.signature t))))
    (λ '(l, (r, (p, s))),
       Transaction.mk (nth 0 l 0) (nth 1 l 0) (nth 2 l 0) r (nth 3 l 0) p s None)
    (pair nums (pair onum (pair nums onums))).
Lemma transaction_ok : coding_ok transaction_coding Transaction.wire.
Proof. eapply via_ok; [coding_tac|by intros []..]. Qed.

Definition transaction_signature_coding : coding TransactionSignature.t :=
  via (λ t, ([TransactionSignature.account_nonce t; TransactionSignature.gas_price t;
          TransactionSignature.gas_limit t; TransactionSignature.recipient t;
          TransactionSignature.amount t],
          (TransactionSignature.payload t, TransactionSignature.signature t)))
    (λ '(l, (p, s)), TransactionSignature.mk (nth 0 l 0) (nth 1 l 0) (nth 2 l 0) (nth 3 l 0)
        (nth 4 l 0) p s)
    (pair nums (pair nums onums)).
Lemma transaction_signature_ok : coding_ok transaction_signature_coding (λ x, x).
Proof. eapply via_ok; [coding_tac|by intros []..]. Qed.

Definition validator_array_coding : coding ValidatorArray.t :=
  via (λ v, (ValidatorArray.inner v, (λ p, [p.1; Z.of_nat p.2]) <$> map_to_list (ValidatorArray.index v)))
    (λ '(l, m), ValidatorArray.mk l (list_to_map ((λ p, (nth 0 p 0, Z.to_nat (nth 1 p 0))) <$> m)))
    (pair nums numss).
Lemma validator_array_ok : coding_ok validator_array_coding (λ x, x).
Proof.
  eapply via_ok; [coding_tac| |by intros []].
  intros [l m]. simpl. f_equal. rewrite <-list_fmap_compose.
  rewrite <-(list_to_map_to_list m) at 2. f_equal.
  rewrite <-(list_fmap_id (map_to_list m)) at 2. apply list_fmap_ext.
  intros i [k n] _. simpl. by rewrite Nat2Z.id.
Qed.

Definition block_coding : coding Block.t :=
  via (λ b, (Block.header b, Block.transactions b)) (λ '(h, t), Block.new h t)
    (pair header_coding (seq_of transaction_coding)).
Lemma block_ok : coding_ok block_coding Block.wire.
Proof.
  eapply via_ok; [eapply pair_ok; [exact header_ok|eapply seq_ok, transaction_ok]|by intros []..].
Qed.

Definition subject_coding : coding Subject.t :=
  via (λ s, (View.round (Subject.view s), (View.height (Subject.view s), Subject.digest s)))
    (λ '(r, (h, d)), Subject.mk (View.mk r h) d) (pair num (pair num nums)).
Lemma subject_ok : coding_ok subject_coding (λ x, x).
Proof. eapply via_ok; [coding_tac|by intros [[]]..]. Qed.

Definition preprepare_coding : coding PrePrepare.t :=
  via (λ p, (View.round (PrePrepare.view p), (View.height (PrePrepare.view p),
         Proposal.block (PrePrepare.proposal p))))
    (λ '(r, (h, b)), PrePrepare.new (View.mk r h) (Proposal.new b)) (pair num (pair num block_coding)).
Lemma preprepare_ok : coding_ok preprepare_coding PrePrepare.wire.
Proof.
  eapply via_ok; [eapply pair_ok; [exact num_ok|eapply pair_ok; [exact num_ok|exact block_ok]]|..];
    by intros [[] []].
Qed.

Definition code_of (z : Z) : MessageType :=
  if z =? 1 then Preprepare else if z =? 2 then Prepare else if z =? 3 then Commit else RoundChange.
Definition gossip_coding : coding GossipMessage.t :=
  via (λ m, (MessageType_discr (GossipMessage.code m), (GossipMessage.create_time m,
        (GossipMessage.msg m, (GossipMessage.signature m, GossipMessage.commit_seal m)))))
    (λ '(c, (t, (m, (s, x)))), GossipMessage.mk (code_of c) t m s x 0)
    (pair num (pair num (pair nums (pair onums onums)))).
Lemma gossip_ok : coding_ok gossip_coding GossipMessage.wire.
Proof. eapply via_ok; [coding_tac|by intros [[]]..]. Qed.

Definition p2p_code_of (z : Z) : P2PMsgCode :=
  if z =? 0 then PPing else if z =? 1 then PHandshake else if z =? 2 then PTransaction
  else if z =? 3 then PBlock else if z =? 4 then PConsensus else PSync.
Definition p2p_code (c : P2PMsgCode) : Z :=
  match c with
  | PPing => 0 | PHandshake => 1 | PTransaction => 2 | PBlock => 3 | PConsensus => 4 | PSync => 5
  end.
Definition raw_message_coding : coding RawMessage.t :=
  via (λ m, let h := RawMessage.header m in
        (p2p_code (RawHeader.code h), (RawHeader.ttl h, (RawHeader.create_time h,
          (RawHeader.peer_id h, RawMessage.payload m)))))
    (λ '(c, (t, (n, (i, p)))), RawMessage.new (RawHeader.new (p2p_code_of c) t n i) p)
    (pair num (pair num (pair num (pair onums nums)))).
Lemma raw_message_ok : coding_ok raw_message_coding (λ x, x).
Proof. eapply via_ok; [coding_tac|by intros [[[]]]..]. Qed.
#[export] Instance toy_raw_message : StorageValue RawMessage.t := storage raw_message_coding.
#[export] Instance toy_raw_message_laws : StorageLaws RawMessage.t (λ m, m).
Proof. exact (storage_ok _ _ raw_message_ok). Qed.

(** *** Strings and handshakes *)

Definition string_nums (s : string) : list Z :=
  (λ c, Z.of_N (Ascii.N_of_ascii c)) <$> String.list_ascii_of_string s.
Definition nums_string (l : list Z) : string :=
  String.string_of_list_ascii ((λ z, Ascii.ascii_of_N (Z.to_N z)) <$> l).
Lemma nums_string_nums s : nums_string (string_nums s) = s.
Proof.
  unfold nums_string, string_nums. rewrite <-list_fmap_compose.
  rewrite <-(String.string_of_list_ascii_of_string s) at 2. f_equal.
  rewrite <-(list_fmap_id (String.list_ascii_of_string s)) at 2. apply list_fmap_ext.
  intros i c _. simpl. by rewrite N2Z.id, Ascii.ascii_N_embedding.
Qed.

Definition handshake_coding : coding Handshake.t :=
  via (λ h, (string_nums (Handshake.version h), (string_nums (Handshake.peer_id h), Handshake.genesis h)))
    (λ '(v, (p, g)), Handshake.mk (nums_string v) (nums_string p) g) (pair nums (pair nums nums)).
Lemma handshake_ok : coding_ok handshake_coding (λ x, x).
Proof. eapply via_ok; [coding_tac| |by intros []]. intros []. simpl. by rewrite !nums_string_nums. Qed.
#[export] Instance toy_handshake : StorageValue Handshake.t := storage handshake_coding.
#[export] Instance toy_handshake_laws : StorageLaws Handshake.t (λ h, h).
Proof. exact (storage_ok _ _ handshake_ok). Qed.

(** Peer identities: bytes, spelled as the characters with their codes. *)
Definition is_byte (z : Z) : bool := (0 <=? z) && (z <? 256).
#[export] Instance toy_peer_ids : PeerIds := {
  to_base58 := nums_string;
  peer_from_str s := Some (string_nums s);
  peer_from_bytes b := if forallb is_byte b then Some b else None }.

Lemma string_nums_string l : forallb is_byte l = true → string_nums (nums_string l) = l.
Proof.
  unfold nums_string, string_nums. rewrite String.list_ascii_of_string_of_list_ascii, <-list_fmap_compose.
  induction l as [|z l IH]; [done|]. simpl. intros [Hz Hl]%andb_true_iff. f_equal; [|by apply IH].
  apply andb_true_iff in Hz as [H1%Z.leb_le H2%Z.ltb_lt].
  rewrite Ascii.N_ascii_embedding by lia. lia.
Qed.
Lemma string_nums_bytes s : forallb is_byte (string_nums s) = true.
Proof.
  apply forallb_forall. intros z (c & -> & _)%list_elem_of_In%list_elem_of_fmap.
  pose proof (Ascii.N_ascii_bounded c). unfold is_byte. apply andb_true_iff. rewrite Z.leb_le, Z.ltb_lt. lia.
Qed.
#[export] Instance toy_peer_ids_laws : PeerIdsLaws.
Proof.
  split; simpl.
  - intros b p. destruct (forallb is_byte b); naive_solver.
  - intros s p [= <-]. by rewrite string_nums_bytes.
  - intros p. destruct (forallb is_byte p) eqn:E; [|done]. intros _. by rewrite string_nums_string.
Qed.

#[export] Instance toy_peer_order : PeerMapOrder := λ V m, map_to_list m.
#[export] Instance toy_peer_order_laws : PeerMapOrderLaws.
Proof. by intros V m. Qed.

(** ** Cryptography *)

(** Injective, and 32 slots long. *)
Definition toy_hash (b : bytes) : Hash := Z.pos (encode b) :: replicate 31 0.
Definition toy_address (sk : Secret) : Address := nth 0 sk 0.
Definition toy_sign (h : Hash) (sk : Secret) : option Signature := Some (toy_address sk :: h).
Definition toy_recover (sg : Signature) (b : bytes) : option Public :=
  match sg with
  | a :: h => if bool_decide (h = toy_hash b) then Some [a] else None
  | [] => None
  end.

#[export] Instance toy_kit : CryptoKit := {
  hash := toy_hash;
  hash_sign := toy_sign;
  sign_bytes sk b := toy_sign (toy_hash b) sk;
  ethkey_sign sk b := toy_sign b sk;
  signature_from_slice b := Some b;
  recover_bytes := toy_recover;
  public_to_address pk := nth 0 pk 0;
  verify_address a sg b :=
    match toy_recover sg b with Some pk => Some (nth 0 pk 0 =? a) | None => Some false end;
  secret_address := toy_address;
  merkle_root l := Some (toy_hash (concat l)) }.

#[export] Instance toy_kit_laws : CryptoKitLaws.
Proof.
  split.
  - done.
  - intros b sk sg [= <-]. exists [toy_address sk]. simpl. by rewrite bool_decide_true.
  - intros b sk sg [= <-]. exists [toy_address sk]. simpl. by rewrite bool_decide_true.
Qed.

Lemma toy_hash_inj b b' : toy_hash b = toy_hash b' → b = b'.
Proof. intros [= E]. by apply encode_inj in E. Qed.

#[export] Instance toy_bigint : BigInt := {
  u128_from b := little_endian_to_Z 8 b mod 2 ^ 128;
  u256_from_str s := Some (Z.of_nat (String.length s)) }.
#[export] Instance toy_bigint_laws : BigIntLaws.
Proof. split. intros b. apply Z.mod_pos_bound. lia. Qed.

(** ** Keys and the codec *)

Definition u64_key : StorageKey Z :=
  {| key_bytes x := Z_to_little_endian 8 8 x;
     key_read b := Some (little_endian_to_Z 8 b) |}.
Definition hash_key : StorageKey Hash := {| key_bytes h := h; key_read b := Some b |}.
Definition zero_key : StorageKey Zero := {| key_bytes _ := [0]; key_read _ := Some zero |}.

#[export] Instance toy_codec : Codec := {
  codec_u64 := storage num; codec_hash := storage nums; codec_header := storage header_coding;
  codec_transaction := storage transaction_coding;
  codec_transaction_signature := storage transaction_signature_coding;
  codec_hashes_entry := storage numss; codec_validator_array := storage validator_array_coding;
  codec_blocks := storage (seq_of block_coding); codec_subject := storage subject_coding;
  codec_preprepare := storage preprepare_coding; codec_gossip := storage gossip_coding;
  header_crypto_hash h := toy_hash (put header_coding h);
  gossip_crypto_hash m := toy_hash (put gossip_coding m);
  key_u64 := u64_key; key_hash := hash_key; key_zero := zero_key }.

Lemma u64_key_inj x y :
  is_u64 x → is_u64 y → Z_to_little_endian 8 8 x = Z_to_little_endian 8 8 y → x = y.
Proof.
  unfold is_u64, u64_bound. intros Hx Hy E. apply (f_equal (little_endian_to_Z 8)) in E.
  rewrite !little_endian_to_Z_to_little_endian in E by lia.
  rewrite !Z.mod_small in E by lia. done.
Qed.

#[export] Instance toy_codec_laws : CodecLaws.
Proof.
  split.
  - exact (storage_ok _ _ num_ok).
  - exact (storage_ok _ _ nums_ok).
  - exact (storage_ok _ _ header_ok).
  - exact (storage_ok _ _ transaction_ok).
  - exact (storage_ok _ _ transaction_signature_ok).
  - exact (storage_ok _ _ numss_ok).
  - exact (storage_ok _ _ validator_array_ok).
  - exact (storage_ok _ _ (seq_ok _ _ block_ok)).
  - exact (storage_ok _ _ subject_ok).
  - exact (storage_ok _ _ preprepare_ok).
  - exact (storage_ok _ _ gossip_ok).
  - split; [|done]. intros x. apply (f_equal toy_hash (put_w _ _ header_ok x)).
  - split; [|done]. intros x. apply (f_equal toy_hash (put_w _ _ gossip_ok x)).
  - split.
    + intros x. apply Nat2Z.inj. apply (length_Z_to_little_endian 8 8 x). lia.
    + exact u64_key_inj.
    + done.
    + done.
    + simpl. lia.
Qed.

(** Two transactions with one hash are the same on the wire. *)
Lemma transaction_signature_inj x y :
  put transaction_signature_coding x = put transaction_signature_coding y → x = y.
Proof.
  intros E. pose proof (get_put _ _ transaction_signature_ok x []) as Ex.
  rewrite E, (get_put _ _ transaction_signature_ok y []) in Ex. congruence.
Qed.

Lemma toy_tx_hash_inj tx tx' h :
  Transaction.crypto_hash tx = Ret h → Transaction.crypto_hash tx' = Ret h →
  Transaction.wire tx = Transaction.wire tx'.
Proof.
  destruct tx as [n gp gl [to|] am pl [sg|] hs]; try done.
  destruct tx' as [n' gp' gl' [to'|] am' pl' [sg'|] hs']; try done.
  intros E1 E2. rewrite <-E2 in E1.
  apply (f_equal (λ o, match o with Ret h => h | Panic => [] end)) in E1.
  apply toy_hash_inj, transaction_signature_inj in E1. injection E1 as -> -> -> -> -> -> ->. done.
Qed.

(** ** Stores and caches *)

#[export] Instance toy_db : Database (gmap bytes bytes) := {
  db_get k d := d !! k;
  db_put k v d := <[k := v]> d;
  db_delete k d := delete k d;
  db_iter_from_prefix p d := filter (λ kv, p `prefix_of` kv.1) (map_to_list d) }.
#[export] Instance toy_db_laws : DatabaseLaws (gmap bytes bytes).
Proof.
  split; simpl.
  - intros. apply lookup_insert_eq.
  - intros. by apply lookup_insert_ne.
  - intros. apply lookup_delete_eq.
  - intros. by apply lookup_delete_ne.
  - intros p d k v [_ H%elem_of_map_to_list]%list_elem_of_filter. done.
  - intros p d k v Hp H. apply list_elem_of_filter. split; [done|by apply elem_of_map_to_list].
  - intros p d. eexists _, []. rewrite app_nil_r. split_and!; [done| |constructor].
    apply Forall_forall. by intros x [? _]%list_elem_of_filter.
  - intros p d. apply (sublist_NoDup _ (map_to_list d).*1); [apply NoDup_fst_map_to_list|].
    apply fmap_sublist, sublist_filter.
Qed.

(** The most recent entry first, the capacity at least one. *)
Record lru (V : Type) : Type := Lru { lru_cap : nat; lru_entries : list (Hash * V) }.
Arguments Lru {V} lru_cap lru_entries.
Arguments lru_cap {V} l.
Arguments lru_entries {V} l.

Fixpoint assoc {V : Type} (k : Hash) (l : list (Hash * V)) : option V :=
  match l with
  | [] => None
  | (k', v) :: l' => if bool_decide (k = k') then Some v else assoc k l'
  end.
Definition without {V : Type} (k : Hash) (l : list (Hash * V)) : list (Hash * V) :=
  filter (λ p, p.1 ≠ k) l.

#[export] Instance toy_lru (V : Type) : LruCache (lru V) Hash V := {
  lru_with_capacity n := Lru n [];
  lru_get k c := match assoc k (lru_entries c) with
                 | Some v => (Some v, Lru (lru_cap c) ((k, v) :: without k (lru_entries c)))
                 | None => (None, c)
                 end;
  lru_insert k v c :=
    Lru (lru_cap c) ((k, v) :: take (pred (lru_cap c)) (without k (lru_entries c))) }.

Lemma assoc_without_ne {V} k k' (l : list (Hash * V)) : k ≠ k' → assoc k (without k' l) = assoc k l.
Proof.
  intros Hne. unfold without. induction l as [|[q v] l IH]; [done|]. rewrite filter_cons. simpl.
  destruct (decide (q ≠ k')) as [Hq|Hq%dec_stable]; simpl; rewrite IH; [done|].
  subst q. by rewrite bool_decide_false.
Qed.

Lemma assoc_take {V} k v n (l : list (Hash * V)) : assoc k (take n l) = Some v → assoc k l = Some v.
Proof.
  revert n. induction l as [|[q x] l IH]; intros [|n]; simpl; try done.
  case_bool_decide; [done|apply IH].
Qed.

Lemma lru_get_fst {V} k (c : lru V) : (lru_get k c).1 = assoc k (lru_entries c).
Proof. simpl. by destruct (assoc k (lru_entries c)). Qed.

#[export] Instance toy_lru_laws (V : Type) : LruCacheLaws (lru V) Hash V.
Proof.
  split.
  - done.
  - intros k v c. rewrite lru_get_fst. simpl. by rewrite bool_decide_true.
  - intros k k' v v' c Hne. rewrite !lru_get_fst. simpl. rewrite bool_decide_false by done.
    intros E%assoc_take. by rewrite assoc_without_ne in E.
  - intros k k' c. rewrite !lru_get_fst. simpl.
    destruct (assoc k' (lru_entries c)) as [v|] eqn:E; [|done]. simpl.
    case_bool_decide as Hk; [by subst|]. by apply assoc_without_ne.
Qed.

(** Entries with the instant they expire at. *)
Fixpoint timed_lookup (t : Z) (k : Hash) (l : list (Hash * (bool * Z))) : option bool :=
  match l with
  | [] => None
  | (k', (v, e)) :: l' => if bool_decide (k = k') && (t <? e) then Some v else timed_lookup t k l'
  end.
#[export] Instance toy_timed_cache : TimedCache (list (Hash * (bool * Z))) Hash bool := {
  tc_new := [];
  tc_get t k c := (timed_lookup t k c, c);
  tc_insert t k v c := (k, (v, t + 5000000000)) :: c }.
#[export] Instance toy_timed_cache_laws : TimedCacheLaws (list (Hash * (bool * Z))) Hash bool.
Proof. split; [done|]. intros t t' k k' v c E. by exists t'. Qed.

#[export] Instance toy_raw_message_hash : CryptoHash RawMessage.t := λ m, toy_hash (put raw_message_coding m).

(** ** Orders, times, queues *)

#[export] Instance toy_order : HashMapOrder := λ V m, map_to_list m.
#[export] Instance toy_order_laws : HashMapOrderLaws.
Proof. by intros V m. Qed.

#[export] Instance toy_chrono : Chrono := {
  timestamp_in_range x := (- 2 ^ 40 <? x) && (x <? 2 ^ 40);
  datetime_from_str s := Ok (Z.of_nat (String.length s));
  address_from_str s := Some (Z.of_nat (String.length s)) }.

(** Entries in order of insertion; [pop] takes the first of the highest
    priority. *)
Definition pq_best {I : Type} (q : list (I * Z)) : option (I * Z) :=
  foldl (λ best x, match best with
                   | Some b => if snd b <? snd x then Some x else Some b
                   | None => Some x
                   end) None q.
#[export] Instance toy_queue {I : Type} `{EqDecision I} : PriorityQueue (list (I * Z)) I Z := {
  pq_new := [];
  pq_push i p q := filter (λ x, x.1 ≠ i) q ++ [(i, p)];
  pq_pop q := match pq_best q with
              | Some x => (Some x, filter (λ y, y.1 ≠ x.1) q)
              | None => (None, q)
              end;
  pq_len q := length q;
  pq_iter q := q }.
