(* ===== verification/Scenarios.v ===== *)
(** * Scenarios

    The theorems of the development at concrete inputs, on the instances of
    [Concrete]: four validators with addresses 1 to 4, a chain with a
    genesis block, and the core of one of them running through proposals,
    votes and round changes. *)

From stdpp Require Import relations.
From S2P Require Import Prelude External Types Validators Protocol Wire RoundState Store Ledger Backend Core CoreProps CoreSafety CoreLive P2p Middle Net Minner Kad Concrete.

(** The state a handler leaves. *)
Definition exec {S A : Type} (m : M S A) (s : S) : S :=
  match m s with Ret (_, s') => s' | Panic => s end.

Definition value {S A : Type} (m : M S A) (s : S) : option A :=
  match m s with Ret (a, _) => Some a | Panic => None end.

Lemma value_exec {S A} (m : M S A) s a : value m s = Some a → m s = Ret (a, exec m s).
Proof. unfold value, exec. destruct (m s) as [[a' s']|]; naive_solver. Qed.

Lemma exec_wp {S A} (m : M S A) (Q : A → S → Prop) s : wp False m Q s → ∃ a, Q a (exec m s).
Proof. unfold wp, exec. destruct (m s) as [[a s']|]; [eauto|done]. Qed.

Definition returns {A : Type} (o : outcome A) : bool := match o with Ret _ => true | Panic => false end.
Definition returned {A : Type} (d : A) (o : outcome A) : A := match o with Ret a => a | Panic => d end.
Lemma returns_returned {A} (d : A) o : returns o = true → o = Ret (returned d o).
Proof. by destruct o. Qed.

Lemma pair_fst {A B} (p : A * B) a : p.1 = a → p = (a, p.2).
Proof. by destruct p; intros <-. Qed.

Ltac calc := vm_compute; reflexivity.
Ltac by_decision := refine (bool_decide_unpack _ _); vm_compute; exact I.

(** ** Data *)

Definition block1 : Block.t :=
  Block.new (Header.new_mock (replicate 32 7) 1 (toy_hash []) 1 5 None) [].

Lemma block_hash_stable_witness :
  Block.hash (Block.wire (Block.add_votes [[1]; [2]]
    (Block.new (Header.cache_hash None (Block.header block1)) []))) = Block.hash block1.
Proof. apply (block_hash_stable block1 [[1]; [2]]). by left. Defined.

Lemma add_votes_set_witness :
  NoDup (Votes.add_votes [[2]; [3]; [2]] [[1]; [2]]) ∧
  Votes.add_votes [[2]; [3]; [2]] [[1]; [2]] = [[1]; [2]; [3]].
Proof.
  split; [|calc]. apply (add_votes_set [[2]; [3]; [2]] [[1]; [2]]).
  by_decision.
Defined.

Definition tx1 : Transaction.t := Transaction.new 1 9 100 21000 1 [1; 2; 3].
Definition tx1_signed : Transaction.t :=
  match Transaction.sign 1 [7] tx1 with Ret t => t | Panic => tx1 end.

Lemma sign_verify_sign_witness : Transaction.verify_sign 2 tx1_signed = Ret true.
Proof. apply (sign_verify_sign 1 2 [7] tx1 tx1_signed). calc. Defined.

(** ** Validators *)

Definition four : ImplValidatorSet.t := ImplValidatorSet.new [3; 1; 4; 2] fn_selector.

Lemma four_wf : valset_wf four.
Proof. apply new_wf. by_decision. Qed.

Lemma valset_ops_preserve_witness :
  valset_wf (ImplValidatorSet.add_validator 9 four).2 ∧
  (ImplValidatorSet.remove_validator 3 four).1 = true.
Proof.
  pose proof (valset_ops_preserve four 9 four_wf) as [[H _] _].
  pose proof (valset_ops_preserve four 3 four_wf) as [_ (_ & E & _)].
  split; [exact H|]. rewrite E. calc.
Defined.

Definition quorum_a : gset Address := {[1; 2; 3]}.
Definition quorum_b : gset Address := {[2; 3; 4]}.

Lemma quorum_intersection_witness : (4 < 3 * size (quorum_a ∩ quorum_b))%nat.
Proof.
  apply (quorum_intersection four quorum_a quorum_b).
  - vm_compute. lia.
  - by_decision.
  - by_decision.
  - calc.
  - calc.
Defined.

Definition crowd : ImplValidatorSet.t :=
  ImplValidatorSet.mk (replicate (Z.to_nat 12582913) (Validator.new 0)) None fn_selector.

Lemma two_thirds_majority_inexact_witness :
  Z.of_nat (ImplValidatorSet.two_thirds_majority crowd) = 8388609.
Proof.
  rewrite (two_thirds_majority_inexact crowd); [calc|].
  unfold ImplValidatorSet.size, crowd. cbn [ImplValidatorSet.validators].
  rewrite length_replicate. apply Z2Nat.id. lia.
Defined.

Lemma proposer_rotates_witness : ∃ w w' p p',
  ImplValidatorSet.calc_proposer EMPTY_HASH 1 0 four = Ret w ∧
  ImplValidatorSet.calc_proposer EMPTY_HASH 1 1 four = Ret w' ∧
  ImplValidatorSet.get_proposer w = Some p ∧ ImplValidatorSet.get_proposer w' = Some p' ∧ p ≠ p'.
Proof.
  destruct (proposer_rotates four EMPTY_HASH 1 0 1 four_wf eq_refl) as (w & w' & p & p' & H).
  - vm_compute. lia.
  - vm_compute. lia.
  - lia.
  - lia.
  - vm_compute. discriminate.
  - vm_compute. discriminate.
  - destruct H as (E & E' & P & P' & _ & Hiff). exists w, w', p, p'.
    split_and!; try assumption. intros Heq. apply Hiff in Heq. vm_compute in Heq. discriminate.
Defined.

(** ** Messages *)

Definition signed (k : Z) (m : GossipMessage.t) : GossipMessage.t :=
  match GossipMessage.set_sign [k] m with Ret m' => m' | Panic => m end.

Definition prepare_msg (k : Z) (s : Subject.t) : GossipMessage.t :=
  signed k (GossipMessage.new Prepare (into_bytes s) None).
Definition commit_msg (k : Z) (s : Subject.t) : GossipMessage.t :=
  signed k (GossipMessage.new Commit (into_bytes s)
    (match encrypt_commit_bytes (Subject.digest s) [k] with Ret sg => Some sg | Panic => None end)).
Definition preprepare_msg (k : Z) (p : PrePrepare.t) : GossipMessage.t :=
  signed k (GossipMessage.new Preprepare (into_bytes p) None).
Definition round_change_msg (k h r : Z) : GossipMessage.t :=
  signed k (GossipMessage.new RoundChange (into_bytes (Subject.mk (View.new h r) EMPTY_HASH)) None).

Definition subject1 : Subject.t := Subject.mk (View.new 1 0) (Block.hash block1).

Lemma gossip_authenticates_witness : ∃ d,
  from_bytes (GossipMessage.into_payload (prepare_msg 2 subject1)) = Some d ∧
  (GossipMessage.address_ d).1 = Ok 2.
Proof.
  destruct (gossip_authenticates [2] (GossipMessage.new Prepare (into_bytes subject1) None)
    (prepare_msg 2 subject1)) as (d & E & A & _); [calc|].
  exists d. split; [exact E|]. rewrite A. calc.
Defined.

(** A message attributed to its sender, as the core files it. *)
Definition from (k : Z) (m : GossipMessage.t) : GossipMessage.t := GossipMessage.set_address k m.

Definition table1 : MsgTable :=
  (MessageManage.add (from 2 (prepare_msg 2 subject1)) (MessageManage.new (View.new 1 0) four)).2.
Lemma table1_wf : manage_wf table1.
Proof. apply manage_add_wf, manage_wf_new. Qed.

Definition table2 : MsgTable := (MessageManage.add (from 3 (prepare_msg 3 subject1)) table1).2.

Lemma message_manage_add_witness :
  (MessageManage.len table2 ≤ vs_size (MessageManage.val_set table2))%nat.
Proof.
  apply (message_manage_add (from 3 (prepare_msg 3 subject1)) table1 table2 (Ok tt) table1_wf).
  apply pair_fst. calc.
Defined.

Lemma to_priority_order_witness : ∃ p1 p2,
  to_priority Commit (View.new 4 979) = Ret p1 ∧ to_priority RoundChange (View.new 5 0) = Ret p2 ∧ p2 < p1.
Proof.
  destruct (to_priority_order Commit RoundChange (View.new 4 979) (View.new 5 0))
    as (p1 & p2 & E1 & E2 & H & _); [simpl; lia..|].
  exists p1, p2. split_and!; [exact E1|exact E2|apply H; simpl; lia].
Defined.

Definition rs1 : RoundState.t :=
  RoundState.set_prepares table1 (RoundState.new_round_state (View.new 1 0) four None None None).

Lemma prepare_or_commit_size_counts_witness :
  RoundState.get_prepare_or_commit_size rs1 = 1%nat.
Proof.
  destruct (prepare_or_commit_size_counts rs1) as [E _].
  - exact table1_wf.
  - apply manage_wf_new.
  - reflexivity.
  - rewrite E. calc.
Defined.

Definition rcs1 : RoundChangeSet.t := RoundChangeSet.new four None.
Lemma round_change_add_witness :
  rc_votes 1 (RoundChangeSet.add 1 (from 2 (round_change_msg 2 1 1)) rcs1).2 = 1%nat.
Proof.
  destruct (round_change_add 1 (from 2 (round_change_msg 2 1 1)) rcs1
    (RoundChangeSet.add 1 (from 2 (round_change_msg 2 1 1)) rcs1).2 (Ok 1%nat)) as (_ & [E _] & _).
  - apply rcs_wf_new.
  - eexists. calc.
  - apply pair_fst. calc.
  - symmetry. exact E.
Defined.

Lemma max_round_spec_witness :
  0 < RoundChangeSet.max_round (RoundChangeSet.add 3 (from 2 (round_change_msg 2 1 3)) rcs1).2.
Proof.
  destruct (max_round_spec (RoundChangeSet.add 3 (from 2 (round_change_msg 2 1 3)) rcs1).2)
    as [[_ H]|[H _]]; [|exact H].
  assert (3 ≤ 0); [|lia]. apply H. refine (bool_decide_unpack _ _). calc.
Defined.

(** ** The store and the chain *)

Abbreviation DB := (gmap bytes bytes).

Lemma schema_keys_disjoint_witness :
  key_of Schema.HEADERS [1; 2] ≠ key_of Schema.TRANSACTIONS [3].
Proof. apply (schema_keys_disjoint Schema.HEADERS Schema.TRANSACTIONS); names. Defined.

Lemma list_rep_empty (n : string) : list_rep (V := Hash) n (∅ : DB) [].
Proof. split_and!; [by vm_compute|by right|]. intros i _. by rewrite lookup_nil. Qed.

Definition index0 : ListIndex.t * DB := (ListIndex.mk (BaseIndex.new "list" IList) None, ∅).

Lemma list_index_refines_witness : ∃ s',
  exec_op (V := Hash) (OExtend [[1]; [2]]) index0 = Ret (None, s') ∧
  index_rep "list" s' [[1]; [2]].
Proof.
  destruct (list_index_refines (V := Hash) "list" index0 [] (OExtend [[1]; [2]]))
    as [(s' & E & Hr & _) _].
  - split; [done|]. split; [by left|apply list_rep_empty].
  - vm_compute. reflexivity.
  - exists s'. split; [exact E|exact Hr].
Defined.

Definition clk0 : Clk.t := Clk.mk 1000000000 1000000000 1000 1.
Definition genesis : Block.t :=
  Block.new (Header.new_mock EMPTY_HASH 1 EMPTY_HASH 0 0 None) [].
Definition four_validators : list Validator.t := Validator.new <$> [1; 2; 3; 4].
Definition ledger0 : Ledger.t DB (lru Header.t) (lru Block.t) :=
  Ledger.new LastMeta.new_zero (lru_with_capacity 16) (lru_with_capacity 16) four_validators ∅.
Definition ledger1 : Ledger.t DB (lru Header.t) (lru Block.t) :=
  exec (Ledger.add_block genesis) ledger0.

Lemma ledger0_rep : ledger_rep ledger0 [].
Proof.
  split; [split|done].
  - apply list_rep_empty.
  - done.
  - intros b Hb. by apply not_elem_of_nil in Hb.
  - intros h x E. discriminate E.
  - intros h x E. discriminate E.
  - constructor.
  - intros b Hb. by apply not_elem_of_nil in Hb.
  - intros k v _ E. discriminate E.
Qed.

Lemma genesis_appendable : appendable [] genesis.
Proof.
  split; [done|vm_compute; reflexivity|apply not_elem_of_nil|by left|constructor|calc].
Qed.

Lemma ledger1_rep : ledger_rep ledger1 [genesis].
Proof.
  destruct (exec_wp _ _ _ (add_block_spec toy_tx_hash_inj _ _ _ ledger0_rep genesis_appendable))
    as (_ & H & _). exact H.
Qed.

Definition chain_config : ChainConfig.t := ChainConfig.default "/tmp/chain".
Definition chain1 : Chain.t DB (lru Header.t) (lru Block.t) :=
  Chain.new chain_config ledger1 clk0.

(** The block that comes next, with one signed transaction. *)
Definition next_block : Block.t :=
  Block.new (Header.new_mock (Block.hash genesis) 1 (toy_hash (into_bytes tx1_signed)) 1 10 None)
    [tx1_signed].

Lemma next_appendable : appendable [genesis] next_block.
Proof.
  split; [done|vm_compute; reflexivity| |by left| |calc].
  - by_decision.
  - constructor; [|constructor]. by eexists.
Qed.

(** A next block with a transaction that nobody signed. *)
Definition unsigned_block : Block.t := Block.new (Block.header next_block) [tx1].

Lemma insert_block_refines_witness :
  (∃ c', Chain.insert_block next_block chain1 = Ret (Ok tt, c') ∧
    ledger_rep (Chain.ledger c') [genesis; next_block]) ∧
  Chain.insert_block unsigned_block chain1 = Panic.
Proof.
  split.
  - destruct (insert_block_refines toy_tx_hash_inj chain1 [genesis] next_block) as (_ & _ & H).
    + exact ledger1_rep.
    + discriminate.
    + vm_compute. reflexivity.
    + vm_compute. discriminate.
    + vm_compute. split; [discriminate|reflexivity].
    + left. reflexivity.
    + specialize (H eq_refl (app_fresh _ _ next_appendable)). rewrite decide_True in H.
      * destruct H as (c' & E & H & _). exists c'. split; [exact E|exact H].
      * split; [|calc]. constructor; [|constructor]. split; eexists; reflexivity.
  - destruct (insert_block_refines toy_tx_hash_inj chain1 [genesis] unsigned_block) as (_ & _ & H).
    + exact ledger1_rep.
    + discriminate.
    + vm_compute. reflexivity.
    + vm_compute. discriminate.
    + vm_compute. split; [discriminate|reflexivity].
    + left. reflexivity.
    + specialize (H eq_refl (app_fresh _ _ next_appendable)). rewrite decide_False in H; [exact H|].
      intros [[[[? Hs] _] _]%Forall_cons _]. discriminate Hs.
Defined.

Lemma chain_lookup_witness : ∃ o c',
  Chain.get_block_by_height 0 chain1 = Ret (o, c') ∧ ∃ b, o = Some b ∧ block_equiv b genesis.
Proof.
  destruct (chain_lookup chain1 [genesis] 0 ledger1_rep) as ((o & c' & E & _ & H) & _).
  - vm_compute. split; [discriminate|reflexivity].
  - exists o, c'. split; [exact E|exact H].
Defined.

Lemma restart_recovers_witness : ∃ l',
  Ledger.store_genesis_block (GenesisConfig.mk [] "" "" 0 "")
    (Ledger.new LastMeta.new_zero (lru_with_capacity 4) (lru_with_capacity 4) four_validators
       (Ledger.db ledger1)) = Ret (Ok tt, l') ∧ ledger_rep l' [genesis].
Proof.
  destruct (restart_recovers ledger1 [genesis] (GenesisConfig.mk [] "" "" 0 "") four_validators 4 4
    ledger1_rep) as (l' & E & H & _); [discriminate|].
  exists l'. split; [exact E|exact H].
Defined.

(** ** The backend *)

Abbreviation Node := (ImplBackend.t DB (lru Header.t) (lru Block.t) (lru unit)).

Definition node (k : Z) : Node :=
  ImplBackend.set_started true (ImplBackend.set_core_pid (Some tt)
    (ImplBackend.new_impl_backend [k] chain1)).

Lemma gossip_once_witness : ∃ r b1 b2,
  ImplBackend.gossip four (prepare_msg 2 subject1) (node 2) = Ret (r, b1) ∧
  ImplBackend.gossip four (prepare_msg 2 subject1) b1 = Ret (Ok tt, b2) ∧
  ImplBackend.sent b2 = ImplBackend.sent b1.
Proof.
  destruct (gossip_once four (prepare_msg 2 subject1) (node 2)) as (r & b1 & b2 & E1 & E2 & H & _).
  exists r, b1, b2. split_and!; [exact E1|exact E2|exact H].
Defined.

Lemma verify_seal_never_ok_witness :
  ImplBackend.verify_seal (Block.header next_block) (node 2) = Panic.
Proof.
  destruct (verify_seal_never_ok (Block.header next_block) (node 2)) as (_ & H & _).
  apply H. reflexivity.
Defined.

Lemma verify_accepts_extensions_witness : ∃ r b',
  ImplBackend.verify (Proposal.new next_block) (node 2) = Ret ((0, r), b') ∧ r = Ok tt.
Proof.
  destruct (verify_accepts_extensions (Proposal.new next_block) (node 2) [genesis]) as [_ H].
  - exact ledger1_rep.
  - vm_compute. split; [discriminate|reflexivity].
  - destruct H as (r & b' & E & _ & _ & H).
    { intros [(pre & tx & post & Etx & _ & _ & Hn)|[_ [Hr|[_ (_ & q & Hq & _ & Hle)]]]].
      - destruct pre as [|? [|]]; [|discriminate Etx..]. injection Etx as <- _. discriminate Hn.
      - assert (Panic = Ret (toy_hash (into_bytes tx1_signed))) as Hx by (rewrite <-Hr; calc). discriminate Hx.
      - assert (q = genesis) as ->.
        { assert (Some q = Some genesis) as [= ->] by (rewrite <-Hq; calc). reflexivity. }
        vm_compute in Hle. contradiction Hle. reflexivity. }
    exists r, b'. split; [exact E|]. apply H. split_and!.
    + constructor; [calc|constructor].
    + calc.
    + split; [discriminate|]. exists genesis. split_and!; [calc|calc|vm_compute; discriminate].
Defined.

Definition seals : list Signature := [[1]; [2]; [3]].
Definition next_proposal : Proposal.t := Proposal.new next_block.

Lemma verified_commit_extends_witness : ∃ p' b2,
  ImplBackend.commit next_proposal seals (exec (ImplBackend.verify next_proposal) (node 2)) =
    Ret ((p', Ok tt), b2) ∧
  linked [genesis; sealed_block next_proposal seals].
Proof.
  destruct (verified_commit_extends toy_tx_hash_inj next_proposal seals (node 2) [genesis]) with (d := 0)
    (b1 := exec (ImplBackend.verify next_proposal) (node 2)) as [H _].
  - exact ledger1_rep.
  - discriminate.
  - intros i x y _ Hy. by rewrite lookup_ge_None_2 in Hy by (simpl; lia).
  - vm_compute. reflexivity.
  - vm_compute. discriminate.
  - vm_compute. split; [discriminate|reflexivity].
  - by left.
  - refine (proj1 (bool_decide_eq_false _) _). calc.
  - apply value_exec. calc.
  - destruct H as (p' & b2 & E & _ & L & _); [reflexivity|exact (app_fresh _ _ next_appendable)|].
    exists p', b2. split; [exact E|exact L].
Defined.

(** ** The core of validator 2 *)

Definition engine_config : Config.t := Config.new 3000 3 0.
Definition core_new : Core.t Node :=
  Core.new genesis four_validators engine_config (node 2) [2] clk0.
(** After [started]: height 1, round 0, proposer 3. *)
Definition core0 : Core.t Node := exec Core.started core_new.

Lemma core0_started : Core.started core_new = Ret (tt, core0).
Proof. apply value_exec. calc. Qed.

Lemma core0_inv : core_inv core0.
Proof.
  refine (proj1 (wp_elim _ _ _ _ _ _ (start_new_zero_round_spec core_new _) core0_started)).
  intros tm m Hin Hm. simpl in Hin. set_unfold in Hin. destruct Hin as [[= ->]|[[= ->]|[]]]; done.
Qed.

(** Messages from the network, one after the other. *)
Definition deliver (msgs : list GossipMessage.t) (c : Core.t Node) : Core.t Node :=
  foldl (λ c m, exec (run_event (EvMessage (into_bytes m))) c) c msgs.
Fixpoint delivered (msgs : list GossipMessage.t) (c : Core.t Node) : bool :=
  match msgs with
  | [] => true
  | m :: rest => bool_decide (is_Some (value (run_event (EvMessage (into_bytes m))) c)) &&
                 delivered rest (exec (run_event (EvMessage (into_bytes m))) c)
  end.

Lemma deliver_run msgs c : delivered msgs c = true → rtc step_at_height c (deliver msgs c).
Proof.
  revert c. induction msgs as [|m msgs IH]; intros c Hd; [done|]. simpl in Hd.
  apply andb_true_iff in Hd as [[[] E%value_exec]%bool_decide_eq_true Hd].
  eapply rtc_l; [|exact (IH _ Hd)]. by apply (sah_event c (EvMessage (into_bytes m))); [| |apply E].
Qed.

(** The clocks advance by a second. *)
Definition clk1 : Clk.t := Clk.mk 2000000000 2000000000 2000 2.
Definition tick (c : Core.t Node) : Core.t Node :=
  Core.with_clk clk1 (Core.with_backend (Core.backend c) c).

Lemma tick_run c : step_at_height c (tick c).
Proof. by apply sah_env. Qed.

Definition subject_at (r : Round) : Subject.t := Subject.mk (View.new 1 r) (Block.hash next_block).
Definition preprepare_at (r : Round) : PrePrepare.t := PrePrepare.new (View.new 1 r) next_proposal.

(** Round 0: a proposal and a prepare quorum, which locks the node; then a
    round-change quorum, and in round 1 the same block again. *)
Definition core1 : Core.t Node :=
  deliver (preprepare_msg 3 (preprepare_at 0) :: ((λ k, prepare_msg k (subject_at 0)) <$> [1; 3; 4])) core0.
Definition core2 : Core.t Node :=
  deliver (((λ k, round_change_msg k 1 1) <$> [1; 3; 4]) ++ [preprepare_msg 4 (preprepare_at 1)])
    (tick core1).

Lemma core2_run : rtc step_at_height core0 core2.
Proof.
  transitivity core1; [apply deliver_run; calc|].
  eapply rtc_l; [apply tick_run|]. apply deliver_run. calc.
Qed.

(** Then three commit votes decide. *)
Definition core3 : Core.t Node := deliver ((λ k, commit_msg k (subject_at 1)) <$> [1; 3; 4]) core2.

Lemma core3_run : rtc step_at_height core0 core3.
Proof. transitivity core2; [exact core2_run|]. apply deliver_run. calc. Qed.

(** The effects since the start, the commit votes and the decisions among
    them. *)
Definition effects : list Effect := drop (length (Core.fx core0)) (Core.fx core3).
Lemma effects_eq : Core.fx core3 = Core.fx core0 ++ effects.
Proof. calc. Qed.

Definition is_commit_vote (e : Effect) : option GossipMessage.t :=
  match e with
  | FxGossip m => if bool_decide (GossipMessage.code m = Commit) then Some m else None
  | _ => None
  end.
Definition is_decision (e : Effect) : option (Proposal.t * list Signature) :=
  match e with FxCommit p s => Some (p, s) | _ => None end.
Definition vote (i : nat) : GossipMessage.t :=
  nth i (omap is_commit_vote effects) (GossipMessage.new Commit [] None).
Definition decision (i : nat) : Proposal.t * list Signature :=
  nth i (omap is_decision effects) (Proposal.new genesis, []).

Lemma vote_elem i m : omap is_commit_vote effects !! i = Some m → FxGossip m ∈ effects.
Proof.
  intros ([e| | | |] & He & E)%list_elem_of_lookup_2%list_elem_of_omap; try done. simpl in E.
  case_bool_decide; naive_solver.
Qed.
Lemma decision_elem i p s : omap is_decision effects !! i = Some (p, s) → FxCommit p s ∈ effects.
Proof.
  intros ([|p' s'| | |] & He & E)%list_elem_of_lookup_2%list_elem_of_omap; try done. naive_solver.
Qed.

Lemma reachable_invariant_witness : core_inv core0.
Proof.
  apply (reachable_invariant genesis four_validators engine_config (node 2) [2] clk0).
  apply reachable_start. exact core0_started.
Defined.

(** The votes of rounds 0 and 1 are for the same block. *)
Lemma no_equivocation_witness :
  Subject.view (subject_at 0) ≠ Subject.view (subject_at 1) ∧
  RoundState.lock (Core.current_state core3) = Some (Block.hash next_block).
Proof.
  split; [discriminate|].
  destruct (no_equivocation core0 core3 effects (vote 0) (vote 1) (subject_at 0) (subject_at 1))
    as [_ H].
  - exact core0_inv.
  - exact core3_run.
  - exact effects_eq.
  - apply (vote_elem 0). calc.
  - apply (vote_elem 1). calc.
  - calc.
  - calc.
  - calc.
  - calc.
  - calc.
  - calc.
  - exact H.
Defined.

Lemma commit_unique_witness :
  RoundState.lock (Core.current_state core3) = Some (Block.hash (Proposal.block (decision 0).1)) ∧
  length (decision 0).2 = 3%nat.
Proof.
  split; [|calc].
  apply (commit_unique core0 core3 effects (decision 0).1 (decision 0).1 (decision 0).2 (decision 0).2).
  - exact core0_inv.
  - exact core3_run.
  - exact effects_eq.
  - apply (decision_elem 0). calc.
  - apply (decision_elem 0). calc.
Defined.

Lemma progress_is_monotone_witness : View_le (Core.current_view core0) (Core.current_view core3).
Proof. apply (progress_is_monotone core0 core3 core0_inv core3_run). Defined.

(** The third round-change vote moves the node to round 1. *)
Definition core1b : Core.t Node := deliver ((λ k, round_change_msg k 1 1) <$> [1; 3]) (tick core1).
Lemma core1b_inv : core_inv core1b.
Proof.
  apply (run_at_height core0 core1b core0_inv). transitivity core1; [apply deliver_run; calc|].
  eapply rtc_l; [apply tick_run|]. apply deliver_run. calc.
Qed.
Definition third_vote : GossipMessage.t := from 4 (round_change_msg 4 1 1).
Definition core1c : Core.t Node :=
  exec (Core.handle_check_message third_vote (Validator.new 4)) core1b.

Lemma core1c_eq :
  Core.handle_check_message third_vote (Validator.new 4) core1b = Ret (Ok tt, core1c).
Proof. unfold core1c. apply value_exec. calc. Qed.

Lemma round_moves_on_quorum_witness :
  RoundState.round (Core.current_state core1b) = 0 ∧
  RoundState.round (Core.current_state core1c) = 1 ∧
  RoundState.round (Core.current_state core1b) < RoundState.round (Core.current_state core1c).
Proof.
  split; [calc|]. split; [calc|].
  apply (round_moves_on_quorum third_vote (Validator.new 4) core1b core1c (Ok tt)).
  - exact core1b_inv.
  - vm_compute. eexists. reflexivity.
  - exact core1c_eq.
  - apply Z.eqb_neq. calc.
Defined.

(** The prepare vote that completes the quorum, and the commit vote that
    decides. *)
Definition core_votes : Core.t Node :=
  deliver (preprepare_msg 3 (preprepare_at 0) :: ((λ k, prepare_msg k (subject_at 0)) <$> [1; 3])) core0.
Lemma core_votes_inv : core_inv core_votes.
Proof. apply (run_at_height core0 core_votes core0_inv). apply deliver_run. calc. Qed.

Lemma toy_sign_total h sk : is_Some (hash_sign h sk).
Proof. by eexists. Qed.

Lemma prepare_handler_returns_witness : ∃ r c',
  Core.prepare_handle (from 4 (prepare_msg 4 (subject_at 0))) (Validator.new 4) core_votes =
    Ret (r, c') ∧ core_inv c'.
Proof.
  apply (prepare_handler_returns toy_sign_total (from 4 (prepare_msg 4 (subject_at 0)))
    (Validator.new 4) (subject_at 0) core_votes).
  - exact core_votes_inv.
  - by eexists.
  - calc.
Defined.

Definition core2b : Core.t Node := deliver ((λ k, commit_msg k (subject_at 1)) <$> [1; 3]) core2.
Lemma core2b_inv : core_inv core2b.
Proof.
  apply (run_at_height core0 core2b core0_inv). transitivity core2; [exact core2_run|].
  apply deliver_run. calc.
Qed.

Lemma core2b_commits : commit_returns core2b.
Proof.
  intros p ss E.
  assert (RoundState.preprepare (Core.current_state core2b) = Some (PrePrepare.wire (preprepare_at 1)))
    as E' by calc.
  rewrite E in E'. injection E' as ->.
  assert (is_Some (value (be_commit (PrePrepare.proposal (PrePrepare.wire (preprepare_at 1))) ss) (Core.backend core2b)))
    as [a Ea%value_exec]; [|eauto].
  refine (proj1 (bool_decide_eq_true _) _). calc.
Qed.


(** A prepare vote that comes after the decision takes the node from
    [Committed] back to [Prepared]; one more commit vote, and it commits the
    block a second time. *)
Lemma core3_inv : core_inv core3.
Proof. apply (run_at_height core0 core3 core0_inv core3_run). Qed.

Lemma prepare_quorum_locks_witness : Core.state core3 = Committed ∧ ∃ c',
  Core.prepare_handle (from 1 (prepare_msg 1 (subject_at 1))) (Validator.new 1) core3 = Ret (Ok tt, c') ∧
  Core.state c' = Prepared.
Proof.
  split; [calc|].
  destruct (prepare_quorum_locks toy_sign_total (from 1 (prepare_msg 1 (subject_at 1)))
    (Validator.new 1) (subject_at 1) (PrePrepare.wire (preprepare_at 1)) core3) as (c' & E & _ & H).
  - exact core3_inv.
  - by eexists.
  - calc.
  - calc.
  - calc.
  - by_decision.
  - calc.
  - exists c'. split; [exact E|].
    replace (ImplValidatorSet.has_two_thirds_majority _ _) with true in H by calc. apply H.
Defined.

Definition core4 : Core.t Node :=
  deliver [prepare_msg 1 (subject_at 1); commit_msg 1 (subject_at 1)] core3.
Lemma commits_twice :
  ((λ e, Block.hash (Proposal.block e.1)) <$> omap is_decision (Core.fx core3)) = [Block.hash next_block] ∧
  ((λ e, Block.hash (Proposal.block e.1)) <$> omap is_decision (Core.fx core4)) =
    [Block.hash next_block; Block.hash next_block].
Proof. split; calc. Qed.

(** The round-change timer of round 0 fires after a second. *)
Lemma timer_retries_witness : ∃ c',
  Core.handle_timer_event (tick core1) = Ret (tt, c') ∧ retried (tick core1) c'.
Proof.
  destruct (timer_retries toy_sign_total (tick core1) (Proposal.new genesis)
    (exec be_last_proposal (Core.backend (tick core1)))) as (c' & E & H).
  - apply value_exec. calc.
  - vm_compute. discriminate.
  - calc.
  - exists c'. split; [exact E|].
    replace (_ <=? _) with false in H by calc. exact H.
Defined.

(** Node 2 is the proposer of round 3. *)
Lemma new_proposer_without_request_panics_witness : Core.start_new_round 3 [] core0 = Panic.
Proof.
  apply (new_proposer_without_request_panics core0 3 [] (Proposal.new genesis)
    (exec be_last_proposal (Core.backend core0))
    (returned four (ImplValidatorSet.calc_proposer (Block.hash genesis) 0 3 (Core.validators core0)))).
  - calc.
  - discriminate.
  - apply value_exec. calc.
  - calc.
  - calc.
  - apply returns_returned. calc.
  - calc.
  - calc.
  - calc.
Defined.

(** ** The network *)

Definition raw1 : RawMessage.t := block_message None 5 [next_block].
Definition raw2 : RawMessage.t := sync_message [8] 6 1.
Definition stream : bytes :=
  match MsgPacketCodec.write_stream [raw1; raw2] [] with Ret s => s | Panic => [] end.

Lemma framing_roundtrip_witness :
  MsgPacketCodec.read_stream [take 3 stream; take 4 (drop 3 stream); drop 7 stream] [] =
    Ret ([raw1; raw2], []).
Proof.
  apply (framing_roundtrip [raw1; raw2] stream).
  - repeat constructor; vm_compute; reflexivity.
  - calc.
  - calc.
Defined.

Definition chain2 : Chain.t DB (lru Header.t) (lru Block.t) := exec (Chain.insert_block next_block) chain1.
Lemma chain2_rep : ledger_rep (Chain.ledger chain2) [genesis; next_block].
Proof.
  destruct (exec_wp _ _ _ (insert_block_grows toy_tx_hash_inj chain1 [genesis] next_block ledger1_rep
    ltac:(discriminate) next_appendable)) as (_ & _ & H & _). exact H.
Qed.

Lemma sync_completes_witness : ∃ cs' cr' rs',
  sync_rounds 2 [8] [9] 7 (chain2, chain1) = Ret (tt, (cs', cr')) ∧
  ledger_rep (Chain.ledger cr') rs' ∧ Forall2 block_equiv rs' [genesis; next_block].
Proof.
  destruct (sync_completes toy_tx_hash_inj [8] [9] 7 2 1 chain2 chain1 [genesis; next_block] [genesis])
    as (cs' & cr' & rs' & E & _ & Hr & H).
  - exact chain2_rep.
  - exact ledger1_rep.
  - constructor; [by split|constructor].
  - simpl. lia.
  - calc.
  - intros b [->|[->|[]%elem_of_nil]%elem_of_cons]%elem_of_cons; calc.
  - simpl. lia.
  - exists cs', cr', rs'. split_and!; [exact E|exact Hr|exact H].
Defined.

(** Two nodes, [8] with two blocks and [9] with one. *)
Abbreviation World := (Chain.t DB (lru Header.t) (lru Block.t) * list bytes)%type.
Abbreviation Server := (TcpServer.t World (list (Hash * (bool * Z)))).
Definition server8 : Server :=
  TcpServer.new [8] (Block.hash genesis) (author_handshake (Block.hash genesis)) node_handles (chain2, []).
Definition server9 : Server :=
  TcpServer.new [9] (Block.hash genesis) (author_handshake (Block.hash genesis)) node_handles (chain1, []).

Lemma handshake_connects_witness : ∃ ma mb sa' ca2 sb' cb2,
  receive clk0 mb (server9, exec (Session.started 5) (Session.new 1 [8] [9] OutBound (Block.hash genesis))) =
    Ret (tt, (sa', ca2)) ∧
  receive clk0 ma (server8, exec (Session.started 6) (Session.new 2 [0] [8] InBound (Block.hash genesis))) =
    Ret (tt, (sb', cb2)) ∧
  Session.handshaked ca2 = true ∧ Session.handshaked cb2 = true.
Proof.
  destruct (handshake_connects clk0 clk0 5 6 server9 server8 1 2 [0])
    as (ca1 & cb1 & ma & mb & sa' & ca2 & sb' & cb2 & E1 & _ & E2 & _ & R1 & R2 & H).
  - discriminate.
  - reflexivity.
  - reflexivity.
  - reflexivity.
  - reflexivity.
  - reflexivity.
  - reflexivity.
  - exists ma, mb, sa', ca2, sb', cb2. rewrite decide_True in H by reflexivity.
    unfold exec. change (Session.new 1 [8] [9] OutBound (Block.hash genesis)) with
      (Session.new 1 (TcpServer.node_id server8) (TcpServer.node_id server9) OutBound (TcpServer.genesis server9)).
    change (Session.new 2 [0] [8] InBound (Block.hash genesis)) with
      (Session.new 2 [0] (TcpServer.node_id server8) InBound (TcpServer.genesis server8)).
    rewrite E1, E2. split_and!; [exact R1|exact R2|apply H|apply H].
Defined.

(** Node [9] has introduced itself to [8]. *)
Definition hello9 : RawMessage.t :=
  RawMessage.new (RawHeader.new PHandshake 10 5 None)
    (into_bytes (Session.handshake_new "0.1.1" [9] (Block.hash genesis))).
Definition hello : TcpServer.input := TcpServer.InServer clk0 (Connected [0] InBound 2 hello9).
Definition server8c : Server := exec (TcpServer.run_input hello) server8.

Lemma server8c_run : TcpServer.run server8 [hello] server8c.
Proof.
  apply (TcpServer.run_snoc server8 [] server8 hello); [constructor|]. unfold server8c.
  apply value_exec. calc.
Qed.

Lemma peers_authenticated_witness : [9] ≠ [8] ∧ ∃ now q b msg h,
  TcpServer.InServer now (Connected q b 2 msg) ∈ [hello] ∧
  from_bytes (RawMessage.payload msg) = Some h ∧ Handshake.genesis h = Block.hash genesis.
Proof.
  destruct (peers_authenticated [8] (Block.hash genesis) node_handles (chain2, []) [hello] server8c [9]
    (ConnectInfo.new 1 InBound 2)) as (Hne & _ & now & q & b & msg & h & H1 & H2 & _ & H3).
  - exact server8c_run.
  - reflexivity.
  - split; [discriminate|]. exists now, q, b, msg, h. split_and!; [exact H1|exact H2|exact H3].
Defined.

(** [8] sends its second block to [9]. *)
Definition post9 : RawMessage.t := block_message (Some [9]) 7 [next_block].
Definition session98 : Session.t :=
  Session.mk (Some 1%nat) [8] [9] OutBound true (Block.hash genesis) [] false false.
Definition world9 : World := exec (node_handles [8] post9) (chain1, []).

Lemma addressed_message_arrives_witness : ∃ sb',
  receive clk0 post9 (server9, session98) = Ret (tt, (sb', session98)) ∧ TcpServer.world sb' = world9.
Proof.
  destruct (addressed_message_arrives clk0 post9 server8c server9 session98 session98
    (ConnectInfo.new 1 InBound 2) world9) as (sa' & ca' & sb' & _ & _ & _ & _ & E & Ew & _).
  - by_decision.
  - reflexivity.
  - reflexivity.
  - reflexivity.
  - reflexivity.
  - intros t h. reflexivity.
  - vm_compute. discriminate.
  - unfold world9. apply value_exec. calc.
  - exists sb'. split; [exact E|exact Ew].
Defined.

(** ** The miner *)

Definition miner : Minner.t DB (lru Header.t) (lru Block.t) (lru unit) :=
  Minner.new 1 [1] (node 1).
Definition draws1 : Minner.draws := Minner.Draws 7 100 21000 [1; 2] 1000.

Lemma toy_sign_bytes_total sk data : is_Some (sign_bytes sk data).
Proof. by eexists. Qed.
Lemma toy_merkle_total l : is_Some (merkle_root l).
Proof. by eexists. Qed.

Lemma minted_block_verifies_witness : ∃ blk b',
  Minner.packet_next_block draws1 miner = Ret blk ∧
  ImplBackend.verify (Proposal.new blk) (node 2) = Ret ((0, Ok tt), b').
Proof.
  destruct (minted_block_verifies toy_sign_bytes_total toy_merkle_total draws1 miner (node 2)
    [genesis]) as (blk & b' & E1 & _ & E2 & _).
  - exact ledger1_rep.
  - exact ledger1_rep.
  - discriminate.
  - calc.
  - calc.
  - intros q ->%list_elem_of_singleton. calc.
  - exists blk, b'. split; [exact E1|exact E2].
Defined.

(** ** The node table *)

Definition table42 : KNodeTable.t Z string :=
  match KNodeTable.new 42 with Ret tb => tb | Panic => KNodeTable.mk 42 0 [] end.
Lemma table42_wf : table_wf table42.
Proof.
  destruct (kad_new_wf (A := string) 42 BUCKET_SIZE DEFAULT_HASH_SIZE) as (tb & E & H & _).
  - unfold BUCKET_SIZE. lia.
  - unfold table42, KNodeTable.new. by rewrite E.
Qed.
Definition node41 : Kad.Node.t Z string := Kad.Node.new 41 "127.0.0.1:80".

Definition fill (ids : list Z) (tb : KNodeTable.t Z string) : KNodeTable.t Z string :=
  foldl (λ tb i, match KNodeTable.update (Kad.Node.new i "") tb with Ret (_, tb') => tb' | Panic => tb end)
    tb ids.

Lemma fill_wf (ids : list Z) (tb : KNodeTable.t Z string) : table_wf tb → table_wf (fill ids tb).
Proof.
  revert tb. induction ids as [|i ids IH]; intros tb Hwf; [done|]. apply IH.
  destruct (KNodeTable.update _ tb) as [[r tb']|] eqn:E; [|done].
  unfold KNodeTable.update in E. case_decide as Hne; [done|].
  destruct (KNodeTable.bucket_number _ tb) as [k|] eqn:Ek; [|done].
  destruct (kad_update_spec tb (Kad.Node.new i "") k Hwf Hne Ek) as (r' & tb1 & E' & Hu).
  unfold KNodeTable.update in E'. rewrite decide_False, Ek in E' by done. rewrite E' in E. injection E as _ <-. apply Hu.
Qed.

(** A table of buckets of two: the nodes 40 and 41 fill the bucket of the
    distances 2 and 3, the node 43 is alone at distance 1. *)
Definition small42 : KNodeTable.t Z string :=
  match KNodeTable.new_with_details 42 2 64 with Ret tb => tb | Panic => KNodeTable.mk 42 0 [] end.
Definition full42 : KNodeTable.t Z string := fill [40; 43; 41] small42.
Lemma full42_wf : table_wf full42.
Proof.
  apply fill_wf. destruct (kad_new_wf (A := string) 42 2 64) as (tb & E & H & _); [lia|].
  unfold small42. by rewrite E.
Qed.

Lemma kad_table_ops_witness :
  KNodeTable.update (Kad.Node.new 42 "") full42 = Panic ∧
  (∃ r tb', KNodeTable.update node41 full42 = Ret (r, tb') ∧ table_wf tb') ∧
  nodes full42 ≡ₚ Kad.Node.new 40 "" :: nodes (KNodeTable.pop_oldest full42).2.
Proof.
  destruct (kad_table_ops full42 (Kad.Node.new 42 "")) as (Hown & _); [exact full42_wf|].
  destruct (kad_table_ops full42 node41) as (_ & Hup & Hpop); [exact full42_wf|].
  split; [apply Hown; left; reflexivity|]. split.
  - destruct (Hup 1%nat) as (r & tb' & E & H); [discriminate|calc|]. exists r, tb'. split; [exact E|apply H].
  - destruct (KNodeTable.pop_oldest full42) as [l tb1] eqn:E. destruct Hpop as (_ & Hp & _).
    assert (l = [Kad.Node.new 40 ""]) as -> by (change l with (l, tb1).1; rewrite <-E; calc). exact Hp.
Defined.

Lemma kad_find_closest_witness : ∃ l,
  KNodeTable.find 15 2 (fill [5; 10; 14] table42) = Ret l ∧ length l = 2%nat.
Proof.
  destruct (kad_find_closest (fill [5; 10; 14] table42) 15 2) as (l & E & rest & _ & H & _).
  - lia.
  - vm_compute. discriminate.
  - exists l. split; [exact E|]. rewrite H. calc.
Defined.

Lemma kad_bucket_distance_witness : ∃ i, KNodeTable.bucket_number 41 table42 = Ret i ∧
  2 ^ Z.of_nat i ≤ distance 42 41 < 2 ^ (Z.of_nat i + 1).
Proof.
  apply (kad_bucket_distance table42 41).
  - vm_compute. split; [discriminate|reflexivity].
  - vm_compute. split; [discriminate|reflexivity].
  - discriminate.
  - reflexivity.
Defined.
