(* ===== verification/ScenariosLive.v ===== *)
(** * A decided height, run

    Validator 3 of the four of [Scenarios], the proposer of round 0, is
    silent; the timers of the others fire, they move to round 1 and decide
    the block of validator 4, its proposer; the hypotheses of
    [chains_grow_together] are shown to hold of it. *)

From S2P Require Import Prelude External Types Validators Protocol Wire RoundState Store Ledger Backend Core CoreProps CoreSafety CoreLive Liveness Rounds Heights Concrete Scenarios.

(** Validator [k], started, a second later. *)
Definition clk1 : Clk.t := Clk.mk 2000000000 2000000001 2000 2.
Definition clk2 : Clk.t := Clk.mk 3000000000 3000000001 3000 3.
Definition fresh (k : Z) : Core.t Node :=
  exec Core.started (Core.new genesis four_validators engine_config (node k) [k] clk0).
Definition member (k : Z) : Core.t Node := Core.with_clk clk1 (fresh k).

Lemma member_started k : value Core.started (Core.new genesis four_validators engine_config (node k) [k] clk0) = Some tt →
  core_inv (member k).
Proof.
  intros E%value_exec. assert (core_inv (fresh k)) as Hi.
  { refine (proj1 (wp_elim _ _ _ _ _ _ (start_new_zero_round_spec _ _) E)).
    intros tm m Hin Hm. simpl in Hin. set_unfold in Hin. destruct Hin as [[= ->]|[[= ->]|[]]]; done. }
  exact (proj1 (harmless_safe eq _ _ (with_clk_framed harmless clk1 (fresh k)) Hi)).
Qed.

Abbreviation three := (list_to_map [(1, member 1); (2, member 2); (4, member 4)] : gmap Address (Core.t Node)).

Definition view1 : View.t := View.new 1 1.
Definition proposal1 : PrePrepare.t := PrePrepare.wire (PrePrepare.new view1 next_proposal).
Definition members : ImplValidatorSet.t := ImplBackend.validator_set (node 2).

Definition settings : Config.t := ImplBackend.config (node 2).
Definition start : list Block.t := [unsealed genesis].

Lemma next_buildable : buildable settings start (PrePrepare.proposal proposal1).
Proof.
  split.
  - discriminate.
  - intros x ->%list_elem_of_singleton. vm_compute. reflexivity.
  - constructor; [|constructor]. split; [by eexists|calc].
  - calc.
  - split; [discriminate|]. exists (unsealed genesis). split_and!; [calc|calc|vm_compute; discriminate].
  - split; [done|vm_compute; reflexivity| |by left| |calc].
    + by_decision.
    + constructor; [|constructor]. by eexists.
  - refine (proj1 (bool_decide_eq_false _) _). calc.
Qed.

(** What the validators have gossiped of one kind in one view. *)
Definition gossip_of (code : MessageType) (vw : View.t) (e : Effect) : option bytes :=
  match e with
  | FxGossip m =>
      if bool_decide (GossipMessage.code m = code) then
        match from_bytes (GossipMessage.msg m) with
        | Some s => if bool_decide (Subject.view s = vw) then Some (into_bytes m) else None
        | None => None
        end
      else None
  | _ => None
  end.
Definition gossip_in (code : MessageType) (vw : View.t) (C : gmap Address (Core.t Node)) : list bytes :=
  mjoin ((λ x, omap (gossip_of code vw) (Core.fx x.2)) <$> map_to_list C).

(** Whether a payload is a vote of one of the four validators. *)
Definition vote_ok (code : MessageType) (vw : View.t) (payload : bytes) : bool :=
  match from_bytes payload with
  | Some m0 =>
      match GossipMessage.address_ m0 with
      | (Ok a, m) =>
          bool_decide (a ∈ addresses members) && bool_decide (GossipMessage.code m = code) &&
          match from_bytes (GossipMessage.msg m) with
          | Some s => bool_decide (Subject.view s = vw) &&
              match GossipMessage.commit_seal m with
              | Some seal => bool_decide (is_Some (verify_address a seal (Subject.digest s)))
              | None => negb (bool_decide (code = Commit))
              end
          | None => false
          end
      | _ => false
      end
  | None => false
  end.

Lemma vote_ok_sound code vw payload :
  vote_ok code vw payload = true → ∃ b, b ∈ addresses members ∧ is_vote code vw b payload.
Proof.
  unfold vote_ok. destruct (from_bytes payload) as [m0|] eqn:E0; [|done].
  destruct (GossipMessage.address_ m0) as [[a|] m] eqn:Ea; [|done].
  rewrite !andb_true_iff, !bool_decide_eq_true. intros [[Ha Ec] Hs].
  destruct (from_bytes (GossipMessage.msg m)) as [s|] eqn:Es; [|done].
  apply andb_true_iff in Hs as [Hv%bool_decide_eq_true Hseal]. exists a. split; [done|].
  exists m, s. split_and!; [by exists m0|done..|]. intros ->.
  destruct (GossipMessage.commit_seal m) as [seal|]; [|done].
  apply bool_decide_eq_true in Hseal as [ok ?]. eauto.
Qed.

(** Everybody receives everything that was gossiped. *)
Lemma gossip_delivers code vw C :
  forallb (vote_ok code vw) (gossip_in code vw C) = true →
  delivers members vw code (λ _, gossip_in code vw C) C.
Proof.
  intros Hall a _. split.
  - apply Forall_forall. intros x Hx. apply vote_ok_sound. rewrite forallb_forall in Hall.
    apply Hall. by apply list_elem_of_In.
  - intros b c m s Eb Hm Ec Es Ev. unfold gossip_in. apply list_elem_of_join. eexists. split; cycle 1.
    + apply list_elem_of_fmap. exists (b, c). split; [reflexivity|]. by apply elem_of_map_to_list.
    + apply list_elem_of_omap. exists (FxGossip m). split; [done|].
      unfold gossip_of. by rewrite bool_decide_true, Es, bool_decide_true by done.
Qed.

Lemma member_validates k :
  core_inv (member k) → Core.address (member k) = k → be_address (Core.backend (member k)) = k →
  secret_address (Core.keypair (member k)) = k → k ∈ addresses members → Core.backend (member k) = node k →
  validates members settings k [genesis] (member k).
Proof.
  intros Hi Ea Eb Ek Hm Hb. split; [exact Hi|exact (conj Ea Ek)|exact Hm|]. rewrite Hb in *. split.
  - exact ledger1_rep.
  - exact Eb.
  - reflexivity.
  - reflexivity.
  - vm_compute. discriminate.
  - reflexivity.
Qed.

Lemma three_validate a c :
  three !! a = Some c → validates members settings a [genesis] c ∧ unsealed <$> [genesis] = start.
Proof.
  intros Hin%elem_of_list_to_map_2. split; [|reflexivity].
  apply elem_of_cons in Hin as [E|[E|E%list_elem_of_singleton]%elem_of_cons];
    apply pair_equal_spec in E as [-> ->];
    (apply member_validates; [apply member_started; calc|calc|calc|calc|by_decision|reflexivity]).
Qed.

(** The run: new headers, timers, votes for round 1, the proposal of
    validator 4, votes. *)
Definition begun : gmap Address (Core.t Node) := each (λ _, run_event (EvNewHeader next_proposal)) three.
Definition alarmed : gmap Address (Core.t Node) := each (λ _, run_event EvTimer) begun.
Definition later : gmap Address (Core.t Node) := each (λ _, modify (Core.with_clk clk2)) alarmed.
Definition round_votes : Address → list bytes := λ _, gossip_in RoundChange view1 later.
Definition moved : gmap Address (Core.t Node) := each (λ a, hear (round_votes a)) later.
Definition proposal_payload : bytes := into_bytes (preprepare_msg 4 (PrePrepare.new view1 next_proposal)).
Definition accepted : gmap Address (Core.t Node) := each (λ _, run_event (EvMessage proposal_payload)) moved.
Definition prepare_votes : Address → list bytes := λ _, gossip_in Prepare view1 accepted.
Definition prepared : gmap Address (Core.t Node) := each (λ a, hear (prepare_votes a)) accepted.
Definition commit_votes : Address → list bytes := λ _, gossip_in Commit view1 prepared.
Definition all_decided : gmap Address (Core.t Node) := each (λ a, hear (commit_votes a)) prepared.

(** A condition on every node, decided. *)
Lemma all_nodes (f : Core.t Node → bool) (C : gmap Address (Core.t Node)) :
  forallb (λ x, f x.2) (map_to_list C) = true → ∀ a c, C !! a = Some c → f c = true.
Proof.
  intros Hall a c Ea. rewrite forallb_forall in Hall. apply (Hall (a, c)).
  by apply list_elem_of_In, elem_of_map_to_list.
Qed.

Definition chosen0 : ImplValidatorSet.t :=
  returned members (ImplValidatorSet.calc_proposer (Block.hash genesis) 0 0 members).
Definition chosen1 : ImplValidatorSet.t :=
  returned members (ImplValidatorSet.calc_proposer (Block.hash genesis) 0 1 chosen0).

Lemma three_change : changes members (Proposal.new (unsealed genesis)) 0 chosen0 begun 1 chosen1 moved.
Proof.
  apply (one_change _ _ 0 chosen0 begun chosen1 (λ _, clk2) round_votes).
  - calc.
  - apply returns_returned. calc.
  - intros a c Ea. apply Z.ltb_lt.
    apply (all_nodes (λ c, Core.round_change_limiter c + 50 * 1000000 <? Clk.instant (Core.clk c)) begun) with a; [calc|exact Ea].
  - intros a c Ea. apply Z.leb_le.
    apply (all_nodes (λ c, Core.round_change_limiter c <=? Clk.instant clk2) alarmed) with a; [calc|exact Ea].
  - apply gossip_delivers. calc.
  - constructor.
Qed.

Lemma three_height : one_height members settings start three (PrePrepare.proposal proposal1) all_decided.
Proof.
  apply (OneHeight members settings start three (unsealed genesis) chosen0 chosen1
    (λ _, next_proposal) 1 moved 4 proposal_payload prepare_votes commit_votes).
  - reflexivity.
  - apply returns_returned. calc.
  - reflexivity.
  - exact three_change.
  - calc.
  - apply elem_of_dom. by eexists.
  - exact next_buildable.
  - exists (from 4 (preprepare_msg 4 (PrePrepare.new view1 next_proposal))).
    split; [by eexists; split; calc|]. split; calc.
  - apply gossip_delivers. calc.
  - apply gossip_delivers. calc.
Qed.

Lemma chains_grow_together_witness :
  dom all_decided = dom three ∧
  ∀ a c, all_decided !! a = Some c → ∃ bs, validates members settings a bs c ∧
    grown members [genesis] [PrePrepare.proposal proposal1] bs ∧ linked bs.
Proof.
  destruct (chains_grow_together toy_tx_hash_inj members settings toy_sign_total
    ltac:(intros d sk seal a _; simpl; destruct (toy_recover _ _); eauto)
    (λ _, [genesis]) start three [PrePrepare.proposal proposal1] all_decided) as [ED R].
  - exact three_validate.
  - calc.
  - apply (next_height members settings start three _ all_decided); [exact three_height|constructor].
  - split; [exact ED|]. intros a c Ea. destruct (R a c Ea) as (bs & Hv & Hg & _ & Hl).
    exists bs. split; [exact Hv|]. split; [exact Hg|]. apply Hl. intros [|i] x y; discriminate.
Defined.
