(* ===== verification/Fork.v ===== *)
(** * Runs of several validators

    A driver that runs a list of deliveries on a cluster of concrete
    validators and whose runs are runs of [Cluster.cluster_step], a run in
    which two validators decide the same block, and one in which correct
    validators decide different ones. *)

From stdpp Require Import relations.
From S2P Require Import Prelude External Types Validators Protocol Wire RoundState Store Ledger Backend Core CoreProps CoreSafety Cluster Concrete Scenarios.

Abbreviation Cluster := (gmap Address (Core.t Node)).

(** ** The driver *)

(** The [n]th message [src] has gossiped reaches [dst]; the timer of [dst]
    fires; its clock is set. *)
Inductive Act : Type :=
| Say (src : Address) (n : nat) (dst : Address)
| Alarm (dst : Address)
| Clock (dst : Address) (clk : Clk.t).

Definition gossip_of (e : Effect) : option GossipMessage.t :=
  match e with FxGossip m => Some m | _ => None end.

(** The message as its receiver sees it, and who it is from. *)
Definition received (payload : bytes) : option (Address * GossipMessage.t) :=
  match from_bytes payload with
  | Some m => match GossipMessage.address_ m with (Ok a, m') => Some (a, m') | _ => None end
  | None => None
  end.

Definition authentic_b (src : Address) (m : GossipMessage.t) : bool :=
  match received (into_bytes m) with
  | Some (a, m') => (a =? src) && bool_decide (GossipMessage.code m' = GossipMessage.code m) &&
                    bool_decide (GossipMessage.msg m' = GossipMessage.msg m)
  | None => true
  end.

Definition consistent_b (e : Event) (c : Core.t Node) : bool :=
  match e with
  | EvMessage payload =>
      match received payload with
      | Some (_, m') =>
          match from_bytes (GossipMessage.msg m'), RoundState.preprepare (Core.current_state c) with
          | Some s, Some p => bool_decide (GossipMessage.code m' ≠ Commit) ||
              bool_decide (Subject.digest s = Block.hash (Proposal.block (PrePrepare.proposal p)))
          | _, _ => true
          end
      | None => true
      end
  | _ => true
  end.

Definition has_timer (c : Core.t Node) : bool :=
  existsb (λ e, match e with
    | FxTimerStart tm => match Timer.handle Timer.Interval tm with Timer.PostTimer => true | _ => false end
    | _ => false end) (Core.fx c).

Definition handled (K : Event → Core.t Node → bool) (dst : Address) (e : Event) (C : Cluster) : option Cluster :=
  match C !! dst with
  | Some c =>
      if K e c then
        match run_event e c with Ret (_, c') => Some (<[dst := c']> C) | Panic => None end
      else None
  | None => None
  end.

Definition act (K : Event → Core.t Node → bool) (x : Act) (C : Cluster) : option Cluster :=
  match x with
  | Say src n dst =>
      match C !! src with
      | Some cs =>
          match omap gossip_of (Core.fx cs) !! n with
          | Some m => if authentic_b src m then handled K dst (EvMessage (into_bytes m)) C else None
          | None => None
          end
      | None => None
      end
  | Alarm dst =>
      match C !! dst with
      | Some c => if has_timer c then handled K dst EvTimer C else None
      | None => None
      end
  | Clock dst clk =>
      match C !! dst with
      | Some c => Some (<[dst := Core.with_clk clk (Core.with_backend (Core.backend c) c)]> C)
      | None => None
      end
  end.

Fixpoint drive (K : Event → Core.t Node → bool) (xs : list Act) (C : Cluster) : option Cluster :=
  match xs with
  | [] => Some C
  | x :: rest => match act K x C with Some C' => drive K rest C' | None => None end
  end.

Section driver.
Context (K : Event → Core.t Node → bool) (P : Event → Core.t Node → Prop).
Context (HK : ∀ e c, K e c = true → P e c).

Lemma handled_step (dst : Address) (e : Event) (C C' : Cluster) :
  (∀ c : Core.t Node, C !! dst = Some c → event_enabled e c) → is_new_header e = false → authentic C e →
  handled K dst e C = Some C' → cluster_step P C C'.
Proof using HK.
  intros He Hn Ha. unfold handled. destruct (C !! dst) as [c|] eqn:Ec; [|done].
  destruct (K e c) eqn:Ek; [|done]. destruct (run_event e c) as [[[] c']|] eqn:Er; [|done].
  intros [= <-]. apply (cluster_event P C dst c e c'); auto.
Qed.

Lemma authentic_b_sound (C : Cluster) src cs m :
  C !! src = Some cs → FxGossip m ∈ Core.fx cs → authentic_b src m = true →
  authentic C (EvMessage (into_bytes m)).
Proof.
  intros Ec Hm Hb d a m' Ed Ea _. unfold authentic_b, received in Hb. rewrite Ed, Ea in Hb.
  apply andb_true_iff in Hb as [[->%Z.eqb_eq E1%bool_decide_eq_true]%andb_true_iff E2%bool_decide_eq_true].
  exists cs, m. by rewrite E1, E2.
Qed.

Lemma has_timer_sound c : has_timer c = true → event_enabled EvTimer c.
Proof.
  intros ([| | | |tm] & Hin%list_elem_of_In & Hp)%existsb_exists; try done. exists tm. split; [done|].
  by destruct (Timer.handle _ tm).
Qed.

Lemma act_step (x : Act) (C C' : Cluster) : act K x C = Some C' → cluster_step P C C'.
Proof using HK.
  destruct x as [src n dst|dst|dst clk]; simpl.
  - destruct (C !! src) as [cs|] eqn:Es; [|done]. destruct (_ !! n) as [m|] eqn:Em; [|done].
    destruct (authentic_b src m) eqn:Ea; [|done]. apply handled_step; [done|done|].
    apply list_elem_of_lookup_2, list_elem_of_omap in Em as ([m'| | | |] & Hin & Eq); try done.
    injection Eq as ->. by eapply authentic_b_sound.
  - destruct (C !! dst) as [c|] eqn:Ed; [|done]. destruct (has_timer c) eqn:Et; [|done].
    apply handled_step; [|done|done]. intros c' E. rewrite Ed in E. injection E as <-. by apply has_timer_sound.
  - destruct (C !! dst) as [c|] eqn:Ed; [|done]. intros [= <-]. by apply cluster_env.
Qed.

Lemma drive_run (xs : list Act) (C C' : Cluster) : drive K xs C = Some C' → rtc (cluster_step P) C C'.
Proof using HK.
  revert C. induction xs as [|x xs IH]; simpl; intros C; [by intros [= ->]|].
  destruct (act K x C) as [C1|] eqn:E; [|done]. intros Hd. eapply rtc_l; [by eapply act_step|by apply IH].
Qed.
End driver.

Lemma consistent_b_sound (e : Event) (c : Core.t Node) : consistent_b e c = true → consistent e c.
Proof.
  intros Hb. destruct e as [| |payload| | |]; try done. intros m a m' s p Em Ea Ecode Es _ Ep.
  unfold consistent_b, received in Hb. rewrite Em, Ea, Es, Ep in Hb.
  apply orb_true_iff in Hb as [Hb|Hb]; by apply bool_decide_eq_true in Hb.
Qed.

(** Where a run leads. *)
Definition driven (K : Event → Core.t Node → bool) (xs : list Act) (C : Cluster) : Cluster :=
  match drive K xs C with Some C' => C' | None => C end.

Lemma driven_run (K : Event → Core.t Node → bool) (P : Event → Core.t Node → Prop) (xs : list Act) (C : Cluster) :
  (∀ (e : Event) (c : Core.t Node), K e c = true → P e c) → is_Some (drive K xs C) →
  rtc (cluster_step P) C (driven K xs C).
Proof.
  intros HK [C' E]. unfold driven. rewrite E. by eapply (drive_run K P HK).
Qed.

(** ** Beginning a height *)

(** The block validator [k] proposes, and the validator after it has been
    told of it. *)
Definition block_of (k : Z) : Block.t :=
  Block.new (Header.new_mock (Block.hash genesis) k (toy_hash (into_bytes tx1_signed)) 1 10 None)
    [tx1_signed].
Definition validator_new (k : Z) : Core.t Node :=
  exec Core.started (Core.new genesis four_validators engine_config (node k) [k] clk0).
Definition validator (k : Z) : Core.t Node :=
  exec (run_event (EvNewHeader (Proposal.new (block_of k)))) (validator_new k).

(** The conditions of [begins] that can be computed. *)
Definition begins_b (c : Core.t Node) : bool :=
  (RoundState.height (Core.current_state c) =? 1) &&
  bool_decide (ImplValidatorSet.validators (Core.validators c) = ImplValidatorSet.validators four) &&
  (size (MessageManage.messages (RoundState.commits (Core.current_state c))) =? 0)%nat &&
  forallb (λ e, match e with
    | FxGossip m => bool_decide (GossipMessage.code m ≠ Commit)
    | FxTimerStart tm => bool_decide (Timer.msg tm = None)
    | _ => true end) (Core.fx c).

Lemma begins_b_sound (c : Core.t Node) : core_inv c → begins_b c = true → begins 1 four c.
Proof.
  intros Hi [[[E1%Z.eqb_eq E2%bool_decide_eq_true]%andb_true_iff E3%Nat.eqb_eq]%andb_true_iff
    E4]%andb_true_iff. rewrite forallb_forall in E4. split; try done.
  - by apply map_size_empty_inv.
  - intros m s Hm%list_elem_of_In Ec. apply E4, bool_decide_eq_true in Hm. done.
  - intros tm m Hm%list_elem_of_In Em. apply E4, bool_decide_eq_true in Hm. congruence.
Qed.

Lemma validator_begins (k : Z) :
  is_Some (value Core.started (Core.new genesis four_validators engine_config (node k) [k] clk0)) →
  is_Some (value (run_event (EvNewHeader (Proposal.new (block_of k)))) (validator_new k)) →
  begins_b (validator k) = true → begins 1 four (validator k).
Proof.
  intros [[] E1%value_exec] [[] E2%value_exec]. apply begins_b_sound.
  refine (proj1 (wp_elim _ _ _ _ _ _ (event_safe (EvNewHeader _) (validator_new k) _ I) E2)).
  refine (proj1 (wp_elim _ _ _ _ _ _ (start_new_zero_round_spec _ _) E1)).
  intros tm m Hin Hm. simpl in Hin. set_unfold in Hin. destruct Hin as [[= ->]|[[= ->]|[]]]; done.
Qed.

Definition members (ks : list Z) : Cluster := list_to_map ((λ k, (k, validator k)) <$> ks).

Lemma members_begin (ks : list Z) :
  (∀ k, k ∈ ks → begins 1 four (validator k)) →
  ∀ (b : Address) (c : Core.t Node), members ks !! b = Some c → begins 1 four c.
Proof.
  intros Hk b c Hl. apply elem_of_list_to_map_2, list_elem_of_fmap in Hl as (k & E & Hin).
  cbn beta in E. apply pair_eq in E as [-> ->]. by apply Hk.
Qed.

Lemma four_begin (b : Address) (c : Core.t Node) : members [1; 2; 3; 4] !! b = Some c → begins 1 four c.
Proof.
  refine (members_begin [1; 2; 3; 4] _ b c). intros k Hk. set_unfold in Hk.
  destruct Hk as [->|[->|[->|[->|[]]]]]; apply validator_begins; try (by_decision); calc.
Qed.

Lemma three_begin (b : Address) (c : Core.t Node) : members [1; 2; 3] !! b = Some c → begins 1 four c.
Proof.
  refine (members_begin [1; 2; 3] _ b c). intros k Hk. set_unfold in Hk.
  destruct Hk as [->|[->|[->|[]]]]; apply validator_begins; try (by_decision); calc.
Qed.

(** What validator [a] has decided between two states of the cluster. *)
Definition fx_of (a : Address) (C : Cluster) : list Effect :=
  match C !! a with Some c => Core.fx c | None => [] end.
Definition decision_of (C0 C : Cluster) (a : Address) : option Proposal.t :=
  fst <$> head (omap is_decision (drop (length (fx_of a C0)) (fx_of a C))).

Lemma decision_of_decides (C0 C : Cluster) (a : Address) (p : Proposal.t) :
  is_Some (C0 !! a) → is_Some (C !! a) →
  fx_of a C = fx_of a C0 ++ drop (length (fx_of a C0)) (fx_of a C) →
  decision_of C0 C a = Some p → decides C0 C a p.
Proof.
  unfold fx_of, decision_of. intros [c0 E0] [c E]. unfold fx_of. rewrite E0, E. intros Efx Hd.
  apply fmap_Some in Hd as ([p' seals] & Hd & ->). apply head_Some_elem_of in Hd.
  apply list_elem_of_omap in Hd as ([|p s| | |] & Hin & Eq); try done. injection Eq as -> ->.
  by exists c0, c, (drop (length (Core.fx c0)) (Core.fx c)), seals.
Qed.

(** ** Two runs *)

(** Validator 3 proposes its block; 1, 2 and 3 accept it and exchange their
    prepare votes, which locks them. *)
Definition lock_round : list Act :=
  (Say 3 0%nat <$> [1; 2; 3]) ++
  concat ((λ dst, (λ src, Say src (if src =? 3 then 1%nat else 0%nat) dst) <$> [1; 2; 3]) <$> [1; 2; 3]).
(** Their commit votes reach [dst]. *)
Definition commit_to (dst : Address) : list Act :=
  (λ src, Say src (if src =? 3 then 2%nat else 1%nat) dst) <$> [1; 2; 3].

(** Validators 1 and 2 decide; validator 4 is faulty and silent. *)
Definition good_start : Cluster := members [1; 2; 3].
Definition good_end : Cluster :=
  driven consistent_b (lock_round ++ commit_to 1 ++ commit_to 2) good_start.
Definition the_block (C0 C : Cluster) (a : Address) : Proposal.t :=
  match decision_of C0 C a with Some p => p | None => Proposal.new genesis end.

Lemma agreement_witness :
  Block.hash (Proposal.block (the_block good_start good_end 1)) =
  Block.hash (Proposal.block (the_block good_start good_end 2)).
Proof.
  apply (agreement 1 four good_start good_end 1 2).
  - vm_compute. lia.
  - vm_compute. lia.
  - exact three_begin.
  - apply driven_run; [exact consistent_b_sound|by_decision].
  - apply decision_of_decides; [by_decision|by_decision|calc|calc].
  - apply decision_of_decides; [by_decision|by_decision|calc|calc].
Defined.

(** Validator 1 decides; the others do not hear of it and vote for round 1,
    validator 4 gets their votes, proposes its own block there and accepts
    it; then the delayed commit votes of round 0 reach it. *)
Definition fork_acts : list Act :=
  lock_round ++ commit_to 1 ++
  ((λ k, Clock k clk1) <$> [2; 3; 4]) ++ (Alarm <$> [2; 3; 4]) ++
  [Say 2 2%nat 4; Say 3 3%nat 4; Say 4 0%nat 4; Say 4 1%nat 4] ++
  commit_to 4.
Definition fork_start : Cluster := members [1; 2; 3; 4].
Definition fork_end : Cluster := driven (λ _ _, true) fork_acts fork_start.

(** The block at the end of a validator's chain. *)
Definition last_hash (C : Cluster) (a : Address) : option Hash :=
  match C !! a with
  | Some c => match be_last_proposal (Core.backend c) with
              | Ret (Ok p, _) => Some (Block.hash (Proposal.block p))
              | _ => None
              end
  | None => None
  end.

(** C3 Without the condition of [agreement] the validators fork: four correct
    validators, no faulty one and no forged message, begin height 1; three
    lock and one decides the block of round 0; the fourth, late, is moved to
    round 1 by the round-change votes, proposes and accepts its own block and
    then counts the delayed commit votes for the other block, and decides its
    own.  Both blocks are appended to the chains of their validators. *)
Theorem fork_without_faults : ∃ (C0 C : Cluster) (p p' : Proposal.t),
  dom C0 = list_to_set (addresses four) ∧ (∀ (b : Address) (c : Core.t Node), C0 !! b = Some c → begins 1 four c) ∧
  rtc (cluster_step (λ _ _, True)) C0 C ∧ decides C0 C 1 p ∧ decides C0 C 4 p' ∧
  Block.hash (Proposal.block p) ≠ Block.hash (Proposal.block p') ∧
  last_hash C 1 = Some (Block.hash (Proposal.block p)) ∧
  last_hash C 4 = Some (Block.hash (Proposal.block p')).
Proof.
  exists fork_start, fork_end, (the_block fork_start fork_end 1), (the_block fork_start fork_end 4).
  split_and!.
  - by_decision.
  - exact four_begin.
  - apply driven_run; [done|by_decision].
  - apply decision_of_decides; [by_decision|by_decision|calc|calc].
  - apply decision_of_decides; [by_decision|by_decision|calc|calc].
  - by_decision.
  - calc.
  - calc.
Qed.
