(* ===== verification/ScenariosNet.v ===== *)
(** * Scenarios of the network, the pool and the start

    Concrete instances of the interfaces that only these components use (a
    counting random generator, a serialisation in the place of JSON, wide
    integers) and their theorems at concrete inputs. *)

From S2P Require Import Prelude External Text Types Validators Protocol Wire RoundState Store Ledger Backend Core Engine P2p Middle Net Dial Events Minner Kad KadService KadServer KadCodec TxPool Dpos Api Node Concrete Scenarios.

(** ** The HTTP service and the index of transactions *)

#[export] Instance toy_api_json : ApiJson := {
  json_blocks l := Some (nums_string (into_bytes l));
  json_transactions l := Some (nums_string (concat (into_bytes <$> l))) }.
#[export] Instance toy_api_json_laws : ApiJsonLaws.
Proof.
  split; [by eexists| |by eexists]. intros l. unfold json_blocks, toy_api_json.
  by rewrite (into_wire (T := list Block.t) (wire := fmap Block.wire) l).
Qed.

Lemma api_shows_chain_witness : ∃ body c',
  Api.get "/blocks" (start_api "0.0.0.0" 8960) chain2 = Ret (body, c') ∧
  body = json_blocks [genesis; next_block].
Proof.
  destruct (api_shows_chain "0.0.0.0" 8960 "/blocks" chain2 [genesis; next_block])
    as (body & c' & E & _ & H).
  - exact chain2_rep.
  - discriminate.
  - calc.
  - exists body, c'. split; [exact E|exact H].
Defined.

Lemma toy_key_read (h : Hash) : length h = HASH_SIZE → key_read (key_bytes h) = Some h.
Proof. done. Qed.
Definition no_txs : gmap Hash Transaction.t := ∅.
Lemma no_txs_rep : map_rep (λ h : Hash, length h = HASH_SIZE) "tx" (∅ : DB) no_txs.
Proof.
  split_and!; [intros k x Hk; discriminate Hk|intros k v _ Hk; discriminate Hk|reflexivity].
Qed.
(** One transaction in the index. *)
Definition tx_index : gmap Hash Transaction.t := <[EMPTY_HASH := tx1]> no_txs.
Definition tx_db : DB := db_put (key_of "tx" (key_bytes EMPTY_HASH)) (into_bytes tx1) ∅.
Lemma tx_db_rep : map_rep (λ h : Hash, length h = HASH_SIZE) "tx" tx_db tx_index.
Proof. apply map_rep_put; [exact toy_key_read|exact no_txs_rep|reflexivity]. Qed.

(** A value type with one value, read from any bytes. *)
#[export] Instance toy_zero_value : StorageValue Zero := {| into_bytes _ := []; from_bytes _ := Some zero |}.

Lemma map_index_refines_witness :
  MapIndex.get (V := Transaction.t) EMPTY_HASH (MapIndex.new "tx") tx_db = Ret (Some (Transaction.wire tx1), tx_db) ∧
  MapIndex.keys (MapIndex.new "tx") tx_db = Ret ([EMPTY_HASH], tx_db) ∧
  MapIndex.values (MapIndex.new "tx") tx_db = Ret ([Transaction.wire tx1], tx_db) ∧
  ∃ d' : DB, MapIndex.remove EMPTY_HASH (MapIndex.new "tx") tx_db = Ret (tt, d') ∧
    map_rep (λ h : Hash, length h = HASH_SIZE) "tx" d' (delete EMPTY_HASH tx_index).
Proof.
  destruct (map_index_refines (V := Transaction.t) (λ h : Hash, length h = HASH_SIZE)
    toy_key_read "tx" tx_db tx_index EMPTY_HASH tx1) as (G & _ & (r & _ & Hr & Hk & Hv) & _ & _ & (d' & P & R & _) & _).
  - exact tx_db_rep.
  - reflexivity.
  - assert (r = [(EMPTY_HASH, Transaction.wire tx1)]) as ->.
    { apply Permutation_singleton_r. rewrite Hr. unfold tx_index, no_txs.
      rewrite fmap_insert, fmap_empty, insert_empty, map_to_list_singleton. reflexivity. }
    split; [|split; [|split]].
    + rewrite G. unfold tx_index. rewrite lookup_insert_eq. reflexivity.
    + apply Hk. intros k x _. exists zero. reflexivity.
    + apply Hv. intros k x _. exists zero. reflexivity.
    + exists d'. split; [exact P|exact R].
Defined.

(** ** Texts of nodes *)

Inductive text : Type := TStr (s : string) | TStruct (fields : list (string * text)).
#[export] Instance toy_serialize : Serialize text string := {
  emit_str s := Ok (TStr s);
  emit_struct _ fields := Ok (TStruct fields);
  read_str j := match j with TStr s => Ok s | TStruct _ => Err "string expected"%string end;
  read_struct _ n j := match j with
    | TStruct fields => if (length fields =? n)%nat then Ok j else Err "fields missing"%string
    | TStr _ => Err "structure expected"%string end;
  read_struct_field f i j := match j with
    | TStruct fields => match fields !! i with
        | Some (f', v) => if bool_decide (f' = f) then Ok v else Err "other field"%string
        | None => Err "field missing"%string end
    | TStr _ => Err "structure expected"%string end;
  dec_error s := s }.
#[export] Instance toy_serialize_laws : SerializeLaws text string.
Proof.
  split; [intros s; by exists (TStr s)|]. intros name fields. exists (TStruct fields). split; [done|].
  exists (TStruct fields). simpl. rewrite Nat.eqb_refl. split; [done|]. intros i f v ->.
  by rewrite bool_decide_true.
Qed.
(** No IPv6 addresses. *)
#[export] Instance no_v6 : SocketAddrV6s := {
  SocketAddrV6 := Empty_set; v6_display a := match a with end; v6_from_str _ := None }.

(** Hexadecimal text of bytes: two digits each. *)
Fixpoint hex_text (b : bytes) : string :=
  match b with
  | [] => EmptyString
  | d :: b' => String (digit_char (d / 16)) (String (digit_char (d mod 16)) (hex_text b'))
  end.
Fixpoint hex_read (s : string) : result bytes string :=
  match s with
  | EmptyString => Ok []
  | String c (String c' s') =>
      match to_digit 16 c, to_digit 16 c', hex_read s' with
      | Some x, Some y, Ok b => Ok (x * 16 + y :: b)
      | _, _, Err e => Err e
      | _, _, _ => Err "InvalidHexCharacter"%string
      end
  | String _ EmptyString => Err "InvalidHexLength"%string
  end.
#[export] Instance toy_hex : HexBytes := { to_hex := hex_text; from_hex := hex_read }.
#[export] Instance toy_hex_laws : HexBytesLaws.
Proof.
  intros b Hb. induction Hb as [|d b Hd _ IH]; [done|]. simpl in *.
  pose proof (Z.mod_pos_bound d 16 ltac:(lia)). pose proof (Z.div_mod d 16 ltac:(lia)).
  assert (0 ≤ d / 16 < 16) by (split; [apply Z.div_pos; lia|apply Z.div_lt_upper_bound; lia]).
  rewrite !to_digit_char by lia. rewrite IH. do 2 f_equal. lia.
Qed.

Definition kind_debug (k : IntErrorKind) : string :=
  match k with Empty => "Empty" | InvalidDigit => "InvalidDigit" | Overflow => "Overflow" end.

(** The text of id 42 is [2a]; 17 digits are one too many. *)
Lemma kad_texts :
  fmt_lower_hex 42 = "2a"%string ∧ u64_decode kind_debug (TStr "+2A") = Ok 42 ∧
  u64_decode kind_debug (TStr "ffffffffffffffff") = Ok (u64_bound - 1) ∧
  u64_decode kind_debug (TStr "10000000000000000") =
    Err "Expected hex-encoded ID, got 10000000000000000, error Overflow"%string ∧
  u64_decode kind_debug (TStr "x42") = Err "Expected hex-encoded ID, got x42, error InvalidDigit"%string.
Proof. split_and!; calc. Qed.

Definition localhost80 : SocketAddrV4 := mkSocketAddrV4 (127, 0, 0, 1) 80.
Definition parse_debug (_ : AddrParseError) : string := "AddrParseError(())".

Lemma kad_node_roundtrip_witness :
  (∃ j : text, node_encode (IC := u64_id_codec kind_debug) (Kad.Node.new 42 (V4 localhost80)) = Ok j ∧
    node_decode (IC := u64_id_codec kind_debug) parse_debug j = Ok (Kad.Node.new 42 (V4 localhost80))) ∧
  (∃ j : text, node_encode (Kad.Node.new [10; 255] (V4 localhost80)) = Ok j ∧
    node_decode parse_debug j = Ok (Kad.Node.new [10; 255] (V4 localhost80))).
Proof.
  destruct (kad_node_roundtrip kind_debug parse_debug localhost80 42 [10; 255]) as [Hu Hb].
  - split; [repeat constructor; discriminate|split; [discriminate|reflexivity]].
  - split; [apply Hu; split; [discriminate|reflexivity]|]. apply Hb. repeat constructor; discriminate.
Defined.

(** ** Instances *)

(** The state counts the calls. *)
#[export] Instance toy_rng : Rng Z := {
  next_u64 r := (r mod u64_bound, r + 1);
  gen_range lo hi r := (lo + r mod (hi - lo), r + 1);
  fill_bytes n r := (replicate n (r mod 256), r + 1) }.
#[export] Instance toy_rng_laws : RngLaws Z.
Proof.
  split.
  - intros r. simpl. by apply Z.mod_pos_bound.
  - intros lo hi r Hlt. simpl. pose proof (Z.mod_pos_bound r (hi - lo)). lia.
  - intros n r. simpl. apply length_replicate.
  - intros n r. simpl. apply Forall_replicate. unfold KadService.is_byte. by apply Z.mod_pos_bound.
Qed.

#[export] Instance toy_queue_laws {I : Type} `{EqDecision I} : PriorityQueueLaws (list (I * Z)) I Z.
Proof. split; [done| |done]. intros i p q. simpl. by rewrite Permutation_app_comm. Qed.

#[export] Instance toy_u256 : U256 := λ b, little_endian_to_Z 8 (reverse b) mod 2 ^ 256.
#[export] Instance toy_u256_laws : U256Laws.
Proof. intros b. apply Z.mod_pos_bound. lia. Qed.

(** *** Messages of the Kademlia node, with numbers for addresses *)

Definition json {X : Type} (c : coding X) : Json X := {|
  json_to_string x := Some (put c x);
  json_from_slice b := match get c b with Some (x, []) => Ok x | _ => Err "no message"%string end |}.

Lemma json_ok {X} (c : coding X) : coding_ok c (λ x, x) → get c [] = None → @JsonLaws X (json c).
Proof.
  intros [g _] Hn. split.
  - intros x b [= <-]. simpl. by rewrite <-(app_nil_r (put c x)), g.
  - eexists. simpl. by rewrite Hn.
Qed.

Definition kad_node_coding : coding (Kad.Node.t Z Z) :=
  via (λ n, (Kad.Node.address n, Kad.Node.id n)) (λ '(a, i), Kad.Node.mk a i) (pair num num).
Lemma kad_node_ok : coding_ok kad_node_coding (λ x, x).
Proof. eapply via_ok; [coding_tac|by intros []..]. Qed.

Definition kad_nodes : coding (list (Kad.Node.t Z Z)) := seq_of kad_node_coding.
Lemma kad_nodes_ok : coding_ok kad_nodes (λ x, x).
Proof.
  pose proof (seq_ok kad_node_coding _ kad_node_ok) as [g p]. split; [|done].
  intros x rest. unfold kad_nodes. rewrite g. by rewrite list_fmap_id.
Qed.

Definition request_payload_coding : coding (RequestPayload Z bytes) :=
  via (λ p, match p with
            | Ping => (0, (0, []))
            | FindNode i => (1, (i, []))
            | FindValue i => (2, (i, []))
            | KadServer.Store i v => (3, (i, v))
            end)
    (λ '(tag, (i, v)), if tag =? 0 then Ping else if tag =? 1 then FindNode i
                       else if tag =? 2 then FindValue i else KadServer.Store i v)
    (pair num (pair num nums)).
Lemma request_payload_ok : coding_ok request_payload_coding (λ x, x).
Proof. eapply via_ok; [coding_tac|by intros []..]. Qed.

Definition response_payload_coding : coding (ResponsePayload Z Z bytes) :=
  via (λ p, match p with
            | NodesFound l => (0, (l, []))
            | ValueFound v => (1, ([], v))
            | NoResult => (2, ([], []))
            end)
    (λ '(tag, (l, v)), if tag =? 0 then NodesFound l else if tag =? 1 then ValueFound v else NoResult)
    (pair num (pair kad_nodes nums)).
Lemma response_payload_ok : coding_ok response_payload_coding (λ x, x).
Proof.
  eapply via_ok; [eapply pair_ok; [exact num_ok|eapply pair_ok; [exact kad_nodes_ok|exact nums_ok]]|..];
    by intros [].
Qed.

Definition kad_request_coding : coding (KadServer.Request.t Z Z bytes) :=
  via (λ r, (KadServer.Request.caller r, (KadServer.Request.request_id r, KadServer.Request.payload r)))
    (λ '(c, (i, p)), KadServer.Request.new c i p) (pair kad_node_coding (pair num request_payload_coding)).
Lemma kad_request_ok : coding_ok kad_request_coding (λ x, x).
Proof.
  eapply via_ok;
    [eapply pair_ok; [exact kad_node_ok|eapply pair_ok; [exact num_ok|exact request_payload_ok]]|..];
    by intros [].
Qed.

Definition kad_response_coding : coding (Response.t Z Z bytes) :=
  via (λ r, (Response.request r, (Response.responder r, Response.payload r)))
    (λ '(q, (n, p)), Response.new q n p)
    (pair kad_request_coding (pair kad_node_coding response_payload_coding)).
Lemma kad_response_ok : coding_ok kad_response_coding (λ x, x).
Proof.
  eapply via_ok;
    [eapply pair_ok; [exact kad_request_ok|eapply pair_ok; [exact kad_node_ok|exact response_payload_ok]]|..];
    by intros [].
Qed.

(** A message is a tag and a request or a response. *)
Definition kad_message_coding : coding (KadMessage Z Z bytes) :=
  Coding (λ m, match m with
               | P2P (Req r) => 0 :: put kad_request_coding r
               | P2P (Resp r) => 1 :: put kad_response_coding r
               end)
    (λ l, match l with
          | 0 :: l' => match get kad_request_coding l' with Some (r, rest) => Some (P2P (Req r), rest) | None => None end
          | _ :: l' => match get kad_response_coding l' with Some (r, rest) => Some (P2P (Resp r), rest) | None => None end
          | [] => None
          end).
Lemma kad_message_ok : coding_ok kad_message_coding (λ x, x).
Proof.
  split; [|done]. intros [[r|r]] rest; unfold kad_message_coding; cbn [put get app].
  - by rewrite (get_put _ _ kad_request_ok).
  - by rewrite (get_put _ _ kad_response_ok).
Qed.

#[export] Instance json_message : Json (KadMessage Z Z bytes) := json kad_message_coding.
#[export] Instance json_message_laws : JsonLaws (KadMessage Z Z bytes).
Proof. exact (json_ok _ kad_message_ok eq_refl). Qed.
#[export] Instance json_request : Json (KadServer.Request.t Z Z bytes) := json kad_request_coding.
#[export] Instance json_response : Json (Response.t Z Z bytes) := json kad_response_coding.
#[export] Instance json_response_laws : JsonLaws (Response.t Z Z bytes).
Proof. exact (json_ok _ kad_response_ok eq_refl). Qed.

(** ** The Kademlia node *)

Lemma gen_within_size_witness : ∃ v : bytes,
  gen (I := bytes) 12 5 = Ret v ∧ length v = 2%nat ∧ (bits v ≤ 11)%nat.
Proof. exact (proj2 (gen_within_size 12 5)). Defined.

Definition handler42 : Handler.t (KNodeTable.t Z string) Z bytes := Handler.mk 42 full42 ∅ false.
Lemma handler42_wf : handler_wf handler42.
Proof. split; [exact full42_wf|reflexivity]. Qed.


Definition service42 : Service.t (KNodeTable.t Z string) Z bytes := Service.new_with_id full42 42.

(** Of the nodes 40, 41 and 43 only 40 is the oldest of a full bucket. *)
Lemma kad_clean_up_witness : ∃ s',
  Service.clean_up (R := Z) (λ _, false) service42 = Ret (tt, s') ∧ Service.clean_needed s' = false ∧
  Kad.Node.new 40 ""%string ∈ nodes (Service.node_table service42) ∧
  Kad.Node.new 40 ""%string ∉ nodes (Service.node_table s') ∧
  concat (KBucket.data <$> KNodeTable.buckets (Service.node_table s')) =
    [Kad.Node.new 43 ""%string; Kad.Node.new 41 ""%string].
Proof.
  destruct (kad_clean_up (R := Z) (λ _, false) service42) as (s' & E & _ & H & _ & _ & Hb & Hn).
  - exact handler42_wf.
  - exists s'. split; [exact E|]. split; [exact H|]. split_and!.
    + assert (nodes (Service.node_table service42) =
        [Kad.Node.new 43 ""%string; Kad.Node.new 40 ""%string; Kad.Node.new 41 ""%string]) as -> by calc.
      right; left.
    + intros [_ Hc]%Hn. discriminate Hc. exists 1%nat. eexists _, _. split_and!; calc.
    + rewrite Hb. calc.
Defined.

Definition ping7 : KadServer.Request.t Z Z bytes := KadServer.Request.new (Kad.Node.new 7 80) 100 Ping.

Lemma raw_codec_roundtrip_witness : ∃ frame,
  RawCodec.encode (new_p2p_request ping7) [] = Ret ([] ++ frame) ∧
  RawCodec.decode (frame ++ [9]) = Ret (Ok (Some (new_p2p_request ping7)), [9]).
Proof.
  destruct (raw_codec_roundtrip (new_p2p_request ping7) (put kad_message_coding (new_p2p_request ping7)) [] [9])
    as (frame & E & D); [reflexivity|].
  exists frame. split; [exact E|exact D].
Defined.

Lemma client_never_receives_witness :
  OutboundCode.decode (I := Z) (A := Z) (V := bytes) [0; 1; 9] = Ret (Ok None, [0; 1; 9]).
Proof. apply (client_never_receives [0; 1; 9]). simpl. lia. Defined.

Definition kserver42 : KServer.t Z :=
  match KServer.new (Kad.Node.new 42 80) with Ret s => s | Panic => KServer.mk (Kad.Node.new 42 80)
    (Service.new_with_id (KNodeTable.mk 42 0 []) 42) ∅ end.
Lemma kserver42_wf : server_wf kserver42.
Proof.
  destruct (server_new_wf (R := Z) (Kad.Node.new 42 80)) as (s & E & H).
  - split; [done|]. calc.
  - unfold kserver42. by rewrite E.
Qed.

Lemma kad_server_requests_witness :
  ∃ s', KServer.handle_request (R := Z) ping7 kserver42 =
    Ret (Response.new ping7 (KServer.node kserver42) NoResult, s') ∧ server_wf s'.
Proof.
  apply (kad_server_requests (R := Z) ping7 kserver42).
  - exact kserver42_wf.
  - split; [done|]. calc.
Defined.

Lemma default_server_identity_witness : ∃ s, KServer.default 80 7 = Ret s ∧
  KServer.handle_request (R := Z) (KadServer.Request.new (Kad.Node.new 0 81) 1 Ping) s = Panic.
Proof.
  destruct (default_server_identity (R := Z) 80 81 7 1) as (s & E & _ & H). exists s.
  split; [exact E|]. apply H. vm_compute in E. injection E as <-. discriminate.
Defined.

(** ** The pool *)

Definition tx1_hashed : Transaction.t := Transaction.set_hash [1] tx1.
Definition pool0 : BaseTxPool.t (list (Hash * Z)) := BaseTxPool.new.
Definition pool1 : BaseTxPool.t (list (Hash * Z)) := exec (BaseTxPool.add_tx tx1_hashed) pool0.

Lemma txpool_refines_map_witness : ∃ p',
  BaseTxPool.add_txs [tx1_hashed; tx1_hashed] pool0 = Ret (Ok 2, p') ∧
  pool_rep p' (<[[1] := tx1_hashed]> ∅).
Proof.
  destruct (txpool_refines_map pool0 ∅ tx1_hashed [1] [tx1_hashed; tx1_hashed] [[1]; [1]])
    as (_ & (p' & E & H) & _).
  - exact new_rep.
  - reflexivity.
  - reflexivity.
  - exists p'. split; [exact E|exact H].
Defined.

Lemma pool1_rep : pool_rep pool1 (add_map [1] tx1_hashed ∅).
Proof.
  destruct (add_tx_spec tx1_hashed [1] pool0 ∅ new_rep eq_refl) as (p' & E & H).
  unfold pool1, exec. by rewrite E.
Qed.

Lemma get_n_tx_ignores_n_witness : ∃ p',
  BaseTxPool.remove_txs [[1]] pool1 = Ret (tt, p') ∧ BaseTxPool.get_n_tx 1 p' = Panic.
Proof.
  apply (get_n_tx_ignores_n pool1 (add_map [1] tx1_hashed ∅) 1 [1]).
  - exact pool1_rep.
  - assert ((pq_iter (BaseTxPool.pq pool1)).*1 = [[1]]) as -> by calc.
    intros h ->%list_elem_of_singleton. by eexists.
  - lia.
  - by eexists.
Defined.

(** ** Events *)

Definition signals1 : ProcessSignals.t :=
  ProcessSignals.handle_subscribe (ProcessSignals.SubScribe 1) spawn_sync_subscriber.

(** Two addresses of the node's network, and one that is not of IPv4. *)
#[local] Instance toy_multiaddrs : Multiaddrs := λ a,
  if decide (a = "/ip4/127.0.0.1/tcp/7960"%string) then [Ip4 127 0 0 1; Tcp 7960]
  else if decide (a = "/ip4/10.0.200.7/tcp/80/ws"%string) then [Ip4 10 0 200 7; Tcp 80; OtherProtocol]
  else if decide (a = "/ip6/::1/tcp/80"%string) then [OtherProtocol; Tcp 80]
  else [].

Lemma dial_address_witness :
  tcp_dial (λ _, Some 5%nat) [7] "/ip4/10.0.200.7/tcp/80/ws" server8 =
    Ret (tt, sent_more [NewSession (Session.new 5 [7] [8] OutBound (TcpServer.genesis server8))] server8) ∧
  tcp_dial (λ _, Some 5%nat) [7] "/ip6/::1/tcp/80" server8 = Panic.
Proof.
  split.
  - destruct (dial_address (λ _, Some 5%nat) (λ _, true) [7] "/ip4/10.0.200.7/tcp/80/ws" server8) as [H _].
    { repeat constructor; lia. }
    destruct (H 10 0 200 7 80 eq_refl) as [_ ->]. reflexivity.
  - apply (dial_address (λ _, Some 5%nat) (λ _, true) [7] "/ip6/::1/tcp/80" server8).
    { repeat constructor; lia. }
    left. intros a b c d Hin. vm_compute in Hin.
    repeat (apply elem_of_cons in Hin as [[=]|Hin]). by apply not_elem_of_nil in Hin.
Defined.

(** Components are pasted together: a port in front of the address changes
    its first byte, and two ports become one. *)
Lemma pasted_components :
  socket_addr_from_str (ipv4_text [Tcp 8; Ip4 1 2 3 4; Tcp 80]) = Ok (mkSocketAddrV4 (81, 2, 3, 4) 80) ∧
  socket_addr_from_str (ipv4_text [Ip4 1 2 3 4; Tcp 80; Tcp 81]) = Ok (mkSocketAddrV4 (1, 2, 3, 4) 8081).
Proof. split; reflexivity. Qed.


Lemma new_block_reaches_peers_witness : ∃ c' cr',
  Chain.insert_block next_block chain1 = Ret (Ok tt, c') ∧
  handle_msg_middle [8] (block_message None (Clk.wall_millis clk0) [next_block]) chain1 = Ret (None, cr') ∧
  ledger_rep (Chain.ledger cr') [genesis; Block.wire next_block].
Proof.
  destruct (new_block_reaches_peers toy_tx_hash_inj clk0 chain1 chain1 [genesis] next_block signals1 1 server8c [8])
    as (c' & evs & sends & cr' & E & _ & _ & _ & _ & M & R).
  - exact ledger1_rep.
  - exact ledger1_rep.
  - discriminate.
  - vm_compute. discriminate.
  - exact next_appendable.
  - reflexivity.
  - exists c', cr'. split_and!; [exact E|exact M|exact R].
Defined.

(** ** Slots *)

Lemma slot_schedule_witness : ∃ d d',
  get_block_slot_data 5 1 = Ret (Some (d, 15)) ∧ get_block_slot_data 16 1 = Ret (Some (d', 48)) ∧ d = d'.
Proof.
  destruct (slot_schedule 1500000100 5 16 1 1) as (_ & (d & d' & E & E' & H) & _).
  - lia.
  - lia.
  - vm_compute. split; [discriminate|reflexivity].
  - vm_compute. split; [discriminate|reflexivity].
  - unfold INTERVAL. lia.
  - exists d, d'. split_and!; [exact E|exact E'|]. apply H. reflexivity.
Defined.

(** ** Engine and core *)

Abbreviation LC := (lru unit).
Definition engine_core : Core.t (ImplBackend.t DB (lru Header.t) (lru Block.t) LC) *
    ImplBackend.t DB (lru Header.t) (lru Block.t) LC := create_bft_engine [1] chain1 clk0.
Definition clones0 : clones DB (lru Header.t) (lru Block.t) LC := Clones engine_core.2 (Core.backend engine_core.1).
Definition sealing : list (NodeStep DB (lru Header.t) (lru Block.t)) :=
  [ByEngine EStart; ByEngine (ESeal next_block); SealPoll; ByCore (CCommit next_proposal seals); SealPoll].

Lemma sealing_real : Forall real_block sealing.
Proof.
  repeat constructor. intros E.
  assert (bool_decide (Block.hash (Proposal.block (Proposal.set_seal seals next_proposal)) = EMPTY_HASH) = false)
    as Hf by calc. apply bool_decide_eq_false in Hf. exact (Hf E).
Qed.

Lemma seal_never_sees_commit_witness :
  node_run sealing clones0 = Ret ([ImplBackend.CommitError; ImplBackend.CommitError], exec (node_run sealing) clones0) ∧
  ImplBackend.commit_chan (Engine.core (exec (node_run sealing) clones0)) = [].
Proof.
  assert (node_run sealing clones0 =
    Ret ([ImplBackend.CommitError; ImplBackend.CommitError], exec (node_run sealing) clones0)) as E.
  { apply value_exec. calc. }
  split; [exact E|].
  exact (proj1 (seal_never_sees_commit [1] chain1 clk0 sealing _ _ sealing_real E)).
Defined.

(** ** A node's first start *)

Definition forty : string := "0123456789012345678901234567890123456789".
Definition genesis_cfg : GenesisConfig.t := GenesisConfig.mk [forty] "2019-01-01" forty 0 "first".
Definition node_cfg : ChainConfig.t :=
  ChainConfig.mk 98 "127.0.0.1" 7960 "0.0.0.0" 8960 3000 3000 "peer" 5000 "/tmp/store" "secret" (Some genesis_cfg).
Definition toy_surroundings : surroundings DB :=
  Surroundings (Ok "toml"%string) (λ _, Some node_cfg) (λ _, Some [1]) Some (λ _, true) true (λ _, Ok ∅)
    (λ _, "hash"%string) clk0.
Definition first_block : Block.t :=
  Block.new (Header.new EMPTY_HASH 40 EMPTY_HASH EMPTY_HASH EMPTY_HASH 0 0 0 10 0 10 None (Some (as_bytes "first"))) [].

Lemma genesis_cfg_ok : genesis_config genesis_cfg [40] first_block.
Proof.
  split; [calc| |split; [done|calc]|calc]. exists 40, 10. split_and!; [calc|calc|reflexivity].
Qed.

Lemma node_starts_witness : ∃ n : Node.Node DB (lru Header.t) (lru Block.t) LC (list (Hash * (bool * Z))) (list (Hash * Z)),
  start_node toy_surroundings 1 2 = Ret (Ok n) ∧ ledger_rep (Chain.ledger (Node.chain n)) [first_block] ∧
  Core.keypair (Node.core n) = [1] ∧ ProcessSignals.subscribers (chain_signals n) = [1; 2]%nat.
Proof.
  destruct (node_starts toy_tx_hash_inj (LC := LC) (TC := list (Hash * (bool * Z))) (Q := list (Hash * Z))
    toy_surroundings 1 2 node_cfg [1] (string_nums "peer") genesis_cfg [40] first_block ∅ [])
    as (n & b0 & bl & E & R & _ & _ & K & _ & _ & _ & _ & _ & _ & _ & _ & _ & _ & _ & _ & _ & _ & S & _).
  - split; try reflexivity; [exact genesis_cfg_ok|]. eexists _, (mkSocketAddrV4 (127, 0, 0, 1) 7960). split_and!; reflexivity.
  - intros k. reflexivity.
  - exists n. split_and!; [exact E|exact R|apply K|exact S].
Defined.
